(* ===== verification/_CoqProject ===== *)
-Q . S2P
Prelude.v
Order.v
Text.v
Service.v
Placement.v
Heartbeat.v
Store.v
Root.v
Testing.v
Registry.v
Config.v
Layering.v
Validate.v
Targets.v
Poller.v
Caching.v
Daemon.v
Supervise.v
Slate.v
Effects.v
Concurrent.v
Layout.v
Services.v
Node.v
Cluster.v
Reconfigure.v
Writers.v
Response.v
Ops.v
Render.v
Copier.v
InFlight.v
Pass.v
Prune.v
Restore.v
Loops.v
Rely.v
MirrorSafety.v
Mirroring.v
Progress.v
Scenario.v
Requests.v
Api.v
Cli.v
LoopSafety.v
Fleet.v
Footprint.v
Solo.v
PruneSafety.v
Alone.v
RestoreSafety.v
Recovery.v
Together.v
Overlap.v
