(* ===== verification/Prelude.v ===== *)
(** * A verification library for sleet

    sleet runs the background services of SlateDB databases (garbage
    collection, compaction coordination, compaction, mirroring) on a fleet of
    nodes without a leader.  The nodes share one object-store root: it holds
    the fleet's configuration, a registry file per database and the nodes'
    heartbeats.  Every node reads the root, decides alone which assignments
    [(database, service, target)] it owns, and runs a supervised task for
    each.

    ** Parts, and how they interact

    - [Prelude], [Order], [Text]: results and errors, durations and 64-bit
      wrap-around, Rust's sorting, [BTreeMap] iteration and [str] functions.
    - [Service]: [enum Service] of config.rs.
    - [Placement] (placement.rs): the frozen FNV-1a scores, the rankings and
      the owners.  [Daemon] calls it once per service and target.
    - [Registry] (registry.rs): URL canonicalization and registry file names.
      The [url] and [percent-encoding] crates are parameters ([UrlLib]).
    - [Config], [Layering], [Validate] (config.rs): the settings, their
      layering ([DatabaseConfig::apply], [SleetConfig::resolve]), validation
      and parsing; the TOML reader is a parameter ([ConfigLib]).
    - [Heartbeat] (heartbeat.rs): node ids, object names, the body.
    - [Store], [Root], [Poller] (root.rs): the object store's answers, the
      liveness read, and [ConfigPoller], whose caches a poll threads;
      [Caching]: any sequence of polls against what the root holds.
    - [Testing] (testing.rs): the instrumented store the test suites run on,
      around any store ([InnerStore]).
    - [Targets], [Loops] (mirror/mod.rs): which targets apply to a database
      and where they send it; the continuous and periodic loops.
    - [Daemon], [Supervise], [Node] (daemon.rs): ownership, housekeeping,
      reconciliation of the running tasks, restarts, the shared state table
      and the heartbeat's summaries; then the loop that sequences them, a
      [tick] per iteration, and what each task runs.
    - [Cluster]: any number of such nodes around the objects under [nodes/],
      in time: heartbeats appear, age and go, nodes join, crash and stop.
      [Reconfigure]: the root is edited while they run.  [Writers]: who
      mirrors where, once they have settled.
    - [Services] (services.rs): opening a database, the options and the
      runner of each service; SlateDB's runners are named, not modelled.
    - [Slate] (names in mirror/layout.rs): SlateDB's manifests, as accessors
      ([SlateLib]).  [Effects]: the calls effectful code makes.
      [Concurrent]: futures polled together, at most so many at once.
    - [Layout] (mirror/layout.rs), [Copier] (mirror/copier.rs), [Pass]
      (mirror/pass.rs), [Prune] (mirror/prune.rs), [Restore]
      (mirror/restore.rs): the mirror, as programs of calls; [InFlight]: how
      many copies overlap.
    - [Rely] (any number of tasks and the source, interleaved) and [Solo] (one
      task under a chosen guarantee): the program logics.  [MirrorSafety],
      [Mirroring], [Progress]: a pass.  [LoopSafety]: the loops, for any logic
      ([LoopLogic]).  [Fleet], [Footprint], [PruneSafety], [Alone],
      [RestoreSafety], [Recovery], [Together]: the mirror's theorems;
      [Scenario] is the concrete source their witnesses run against, and
      [Overlap] a run that shows where they end.
    - [Response] (response.rs), [Ops] (ops.rs: registration, status, target
      lookup), [Requests] (ops.rs: lag, one-shot sync and restore), [Render]
      (render.rs), [Api] (api.rs and what main.rs asks of it), [Cli] (what
      main.rs prints and exits with, the environment of store.rs).

    Pure code is a function.  Code that reads the root is a function of the
    store's answers ([Root], [Poller]): an answer may be any error.  The
    mirror is a tree of calls ([Effects.prog]) to two stores, SlateDB's admin
    API and the clocks; [Effects.handle] says what each call may answer and
    do, and [Rely] interleaves any number of such programs with the source's
    own steps.

    ** What the theorems show

    Placement: every node ranks alike, whatever order it lists the fleet in;
    removing a node moves only what it owned; the scores are the frozen
    64-bit ones.  Daemon: nodes with one view partition the assignments, each
    owned exactly as often as configured; a node dead in its own listing still
    counts itself; stopping, reaping and starting leave exactly the owned
    tasks; an old task instance never overwrites a newer one's state; restart
    delays double from two seconds up to one minute.  Node: after any number
    of iterations the tasks are those owned by the last listing read; nodes
    that agree run every configured service exactly as often as configured.
    Cluster: they come to agree; once no node has come or gone for
    [heartbeat_timeout] and each has listed [nodes/] again, every service runs
    exactly as often as configured and stays so; so too, under the final
    documents, after the root was edited and each node has polled it, and
    every state can get there; then, if the targets' roots are apart, no root
    has two mirror tasks writing to it.  Caching: a good poll, and any polls that fail after it, leave the
    settings a node with empty caches would read.  Node:
    an owned task never reaches the code's [unreachable!] and [expect], and
    runs its own service with its resolved settings.  Root: a published
    heartbeat makes its node live for the timeout; failed reads keep the last
    good view; unchanged files are not fetched again.  Config: resolution is
    field-wise, last writer wins; validation accepts exactly the documents
    described, and whatever passes it resolves to settings within bounds;
    SlateDB gets each setting unchanged and within its width.

    Mirror: a target that starts empty is, in every reachable state of any
    number of mirror tasks, however they interleave, fail or stop, faithful
    (every object is the source's, byte for byte) and complete (every manifest
    has its data objects; the newest also has every manifest and object its
    live checkpoints pin).  A pass that reports success has mirrored a head at
    least as new as the source had when it began; if its calls succeed, it
    succeeds.  The WAL tail leaves no gap; retention keeps the target complete
    and never loses its newest manifest; a restore is complete, and one made
    from a mirrored target gives back the source's own bytes; no mirror task
    writes an object to its source; a sync call makes at most five passes; never
    more copies are in flight than [copy_parallelism] allows.
    A single task with retention, passes and prunes following each other, also
    keeps the target a mirror ([Alone]).  Any number of them at one target
    keep it faithful and never lose its newest manifest or roll it back
    ([Together]); older restore points can then lose objects ([Overlap]).

    Operators: a registered database is in every later view that lists its
    file; the placement [status] reports is the ownership the nodes
    compute; a reported lag is true of both ends whenever its probe is cut
    off; [mirror sync] runs over the pair and settings the owning node's task
    would; rendering a status never panics and its columns align; the command
    line starts the node its flags describe or says why not.

    Tests: which calls of the instrumented store fail is a function of the
    calls alone, exactly as scripted; its generator never sticks; the ages
    readers compute follow the test clock.

    ** Assumptions on code outside src/

    SlateDB ([Effects.wf_source]): ids are stored under their names and fit 64
    bits; objects and manifests never change; a checkpoint pins a manifest no
    newer than the one that records it, is only ever extended, and never comes
    back once gone; no data object lies under [manifest/].  Distinct manifests
    have distinct encodings ([Slate.SlateLaws]).  The object store is
    linearizable, a put is atomic, [PutMode::Create] creates or fails; a
    failed write may have landed.  rclone copies named objects or fails; when
    it succeeds all names are present.  Expiry is judged by one clock.
    The source may lose any object at any time.

    [Caching] takes an ETag to identify a body, and LIST and GET to describe
    the same version.  [Cluster] takes one clock, distinct node ids, the
    configuration fixed, running nodes that renew within
    [heartbeat_timeout] ([Reconfigure] takes the last two once the edits are
    over), and a joining node whose first poll and PUT succeed
    with no DELETE of its name under way; [path_join]'s last segment is the
    name joined.

    ** Bounds and fuel

    Loops that run until cancelled ([Loops.run_mirror], [Pass.tail_step])
    take the number of iterations observed as fuel: a run of the code is, at
    every moment, a run of the model with enough of it, and running out is the
    moment the observation ends.  The sync pass needs none: it restarts at
    most [MAX_RESTARTS] times.  Nor does [Concurrent.concurrently]: a turn
    takes a call off one future, which is well founded.
    [Supervise.supervise] takes the list of run results.  Integers are [N]
    with [Prelude.wrap64] where the code's [u64] can wrap; durations are
    nanoseconds.

    ** Simplifications

    Futures a failing pool drops make no further call: a write in flight then
    has landed or never does.  The select loop of [copy_under_pin] lets the
    timer fire before any call of the copy.  [status] takes what its probes
    found as a function of the pair ([buffered] keeps their order).  Log
    lines and metrics are left out.  Completeness under retention is for one
    task alone at the target: a task runs its passes and prunes one after the
    other, the code does not serialize two nodes that both believe they own
    it, and [Overlap] shows that it then fails.  A status probe's deadline
    passes between two of its reads.  Text is rendered to a sink that accepts
    every write.  Shutdown is the list of tasks cancelled and the object
    deleted; its 30 s grace is a wait.

    ** Not modelled

    Argument parsing, logging and process signals (main.rs), the text of JSON
    output, the crate root (lib.rs), serde and schema derivations: glue over
    third-party crates, or their generated code.
 *)

From stdpp Require Export base sorting list gmap strings numbers list_relations list_basics list_misc list_monad.

(** Results of fallible code: Rust's [Result<T, E>], error type first so
    that [Result E] is a monad and stdpp's [x ← e; k] is the [?] operator. *)
Inductive Result (E T : Type) : Type :=
  | Ok (x : T)
  | Err (e : E).
Arguments Ok {E T} x.
Arguments Err {E T} e.

#[export] Instance result_ret {E} : MRet (Result E) := λ T x, Ok x.
#[export] Instance result_bind {E} : MBind (Result E) := λ T U k r,
  match r with Ok x => k x | Err e => Err e end.
#[export] Instance result_fmap {E} : FMap (Result E) := λ T U f r,
  match r with Ok x => Ok (f x) | Err e => Err e end.

#[export] Instance result_eq_dec `{EqDecision E, EqDecision T} : EqDecision (Result E T).
Proof. solve_decision. Defined.

(** [Result::is_ok] and [Result::ok]. *)
Definition is_ok {E T} (r : Result E T) : bool :=
  match r with Ok _ => true | Err _ => false end.
Definition result_ok {E T} (r : Result E T) : option T :=
  match r with Ok x => Some x | Err _ => None end.
(** [Result::map_err]. *)
Definition map_err {E F T} (f : E → F) (r : Result E T) : Result F T :=
  match r with Ok x => Ok x | Err e => Err (f e) end.

Lemma result_bind_ok {E T U} (r : Result E T) (k : T → Result E U) y :
  (r ≫= k) = Ok y ↔ ∃ x, r = Ok x ∧ k x = Ok y.
Proof. destruct r; naive_solver. Qed.

(** The development's hint database: facts the components use to close
    routine side conditions. *)
Create HintDb sleet.

(** Break every [match]/[if] of a hypothesis or the goal, closing the
    contradictory branches. *)
Ltac split_match :=
  repeat (case_match; simplify_eq/=; try done).

(** ** Machine integers

    [u64] and [u32] values are [N]; the wrap-around of the arithmetic that
    can overflow is written out. *)
Definition U64_MAX : N := 18446744073709551615.
Definition U32_MAX : N := 4294967295.
Definition wrap64 (n : N) : N := n `mod` 18446744073709551616.

Lemma wrap64_bound n : (wrap64 n ≤ U64_MAX)%N.
Proof. unfold wrap64, U64_MAX. pose proof (N.mod_lt n 18446744073709551616). lia. Qed.
Lemma wrap64_small n : (n ≤ U64_MAX)%N → wrap64 n = n.
Proof. unfold wrap64, U64_MAX. intros. apply N.mod_small. lia. Qed.
Lemma wrap64_le n : (wrap64 n ≤ n)%N.
Proof. unfold wrap64. apply N.Div0.mod_le. Qed.
#[export] Hint Resolve wrap64_bound : sleet.

(** The Rust range [lo..hi] over [u64], ascending; empty when [hi ≤ lo]. *)
Definition rangeN (lo hi : N) : list N :=
  (λ i, (lo + N.of_nat i)%N) <$> seq 0 (N.to_nat (hi - lo)).

Lemma elem_of_rangeN lo hi n : n ∈ rangeN lo hi ↔ (lo ≤ n < hi)%N.
Proof.
  unfold rangeN. rewrite list_elem_of_fmap. setoid_rewrite elem_of_seq. split.
  - intros (i & -> & ?). lia.
  - intros [??]. exists (N.to_nat (n - lo)). lia.
Qed.

(** ** Durations

    A Rust [Duration] is a [u64] of seconds and a [u32] of nanoseconds below
    10^9; it is modelled by its number of nanoseconds.  Arithmetic whose
    result does not fit panics in Rust: those operations return [None]. *)
Abbreviation Duration := N (only parsing).
Definition NANOS : N := 1000000000.
Definition DURATION_MAX : Duration := (18446744073709551615 * 1000000000 + 999999999)%N.
(** [Duration::from_secs]. *)
Definition from_secs (s : N) : Duration := (s * NANOS)%N.
(** [Duration::as_secs]. *)
Definition as_secs (d : Duration) : N := (d `div` NANOS)%N.
(** [Duration * u32], which panics on overflow. *)
Definition duration_mul (d : Duration) (k : N) : option Duration :=
  if decide (d * k ≤ DURATION_MAX)%N then Some (d * k)%N else None.

Lemma from_secs_lt a b : (from_secs a < from_secs b)%N ↔ (a < b)%N.
Proof. unfold from_secs, NANOS. lia. Qed.

(** ** Lists *)
Section lists.
Context {A B : Type} (P : A → Prop) `{!∀ x, Decision (P x)}.

Lemma filter_fmap (f : B → A) (l : list B) : filter P (f <$> l) = f <$> filter (λ x, P (f x)) l.
Proof.
  induction l as [|x l IH]; [done|]. rewrite fmap_cons, !filter_cons, IH. by case_decide.
Qed.

Lemma filter_all (l : list A) : Forall P l → filter P l = l.
Proof. induction 1 as [|x l Hx _ IH]; [done|]. by rewrite filter_cons_True, IH. Qed.

(** A prefix whose elements all pass the filter is also the prefix of the
    filtered list. *)
Lemma take_filter_all k (l : list A) : Forall P (take k l) → take k (filter P l) = take k l.
Proof.
  revert k. induction l as [|x l IH]; intros [|k] Hp; try done.
  simpl in Hp. apply Forall_cons in Hp as [Hx Hl].
  rewrite filter_cons_True by done. simpl. by rewrite IH.
Qed.

(** When exactly one element is filtered out of the first [S k], the first
    [k] survivors are the filtered prefix of length [S k]. *)
Lemma take_filter_one k (l : list A) x :
  x ∈ take k l → ¬ P x → (∀ y, y ∈ l → y ≠ x → P y) → NoDup l →
  take k (filter P l) = filter P (take (S k) l).
Proof.
  revert k. induction l as [|y l IH]; intros k Hx HnP Hother Hnd.
  { rewrite take_nil in Hx. by apply not_elem_of_nil in Hx. }
  destruct k as [|k]; [by apply not_elem_of_nil in Hx|].
  apply NoDup_cons in Hnd as [Hy Hnd].
  change (take (S k) (y :: l)) with (y :: take k l) in Hx.
  change (take (S (S k)) (y :: l)) with (y :: take (S k) l).
  apply elem_of_cons in Hx as [->|Hx].
  - rewrite !filter_cons_False by done.
    assert (Hall : Forall P l).
    { rewrite Forall_forall. intros z Hz. apply Hother; [by right|]. by intros ->. }
    rewrite !filter_all by eauto using Forall_take. done.
  - assert (y ≠ x) by (intros ->; by apply Hy, (subseteq_take k)).
    rewrite !filter_cons_True by (apply Hother; [by left|done]). simpl. f_equal.
    apply IH; try done. intros z Hz ?. apply Hother; [by right|done].
Qed.
End lists.

(** Counting the elements of [l] that a set of keys picks. *)
Lemma length_filter_keys {A K} (P : A → Prop) `{∀ x, Decision (P x)} (f : A → K) (ks : list K) (l : list A) :
  NoDup ks → NoDup (f <$> l) → (∀ k, k ∈ ks → k ∈ f <$> l) → (∀ x, x ∈ l → P x ↔ f x ∈ ks) →
  length (filter P l) = length ks.
Proof.
  intros Hks Hl Hin HP. rewrite <-(length_fmap f). apply Permutation_length, NoDup_Permutation; [|done|].
  - revert Hl. clear. induction l as [|a l IH]; [done|]. intros Hl.
    apply NoDup_cons in Hl as [Ha Hl]. rewrite filter_cons. case_decide; [|by apply IH].
    apply NoDup_cons. split; [|by apply IH]. intros (b & Hab & [_ Hb]%list_elem_of_filter)%list_elem_of_fmap.
    destruct Ha. apply list_elem_of_fmap. eauto.
  - intros k. rewrite list_elem_of_fmap. setoid_rewrite list_elem_of_filter. split.
    + intros (x & -> & Hx & ?). by apply HP.
    + intros Hk. destruct (proj1 (list_elem_of_fmap _ _ _) (Hin k Hk)) as (x & -> & Hx).
      exists x. split_and!; [done|by apply HP|done].
Qed.

Lemma elem_of_option_list {A} (x : A) o : x ∈ option_list o ↔ o = Some x.
Proof.
  destruct o; simpl; [rewrite list_elem_of_singleton; naive_solver|].
  split; [by intros ?%elem_of_nil|done].
Qed.
