(* ===== verification/Order.v ===== *)
(** * Ordering: [slice::sort_by], [Vec::dedup] and [BTreeMap] iteration

    The standard library's stable sort (as insertion sort, whose result any
    stable sort shares), the total orders of the key types, and the ascending
    iteration of a [BTreeMap], which the development represents by a [gmap]. *)

From S2P Require Import Prelude.

(** ** Total orders on keys ([Ord]) *)
Class KeyOrder (K : Type) := {
  key_le : relation K;
  key_le_dec :: RelDecision key_le;
  key_le_total :: Total key_le;
  key_le_trans :: Transitive key_le;
  key_le_antisymm :: AntiSymm (=) key_le;
}.

#[export] Instance N_key_order : KeyOrder N.
Proof. refine {| key_le := N.le |}; apply _. Defined.
(** Rust compares strings by their bytes. *)
#[export] Instance string_key_order : KeyOrder string.
Proof. refine {| key_le := String.le |}; apply _. Defined.

(** ** Stable sorting *)
Section sort.
Context {A : Type} (R : relation A) `{!RelDecision R}.

Fixpoint insert_by (x : A) (l : list A) : list A :=
  match l with
  | [] => [x]
  | y :: l' => if decide (R x y) then x :: l else y :: insert_by x l'
  end.

Definition sort_by (l : list A) : list A := foldr insert_by [] l.

Lemma insert_by_Permutation x l : insert_by x l ≡ₚ x :: l.
Proof.
  induction l as [|y l IH]; simpl; [done|]. case_decide; [done|].
  rewrite IH. apply Permutation_swap.
Qed.

Lemma sort_by_Permutation l : sort_by l ≡ₚ l.
Proof. induction l as [|x l IH]; simpl; [done|]. by rewrite insert_by_Permutation, IH. Qed.

Lemma elem_of_sort_by x l : x ∈ sort_by l ↔ x ∈ l.
Proof. by rewrite sort_by_Permutation. Qed.

Lemma length_sort_by l : length (sort_by l) = length l.
Proof. by rewrite sort_by_Permutation. Qed.

Lemma NoDup_sort_by l : NoDup l → NoDup (sort_by l).
Proof. by rewrite sort_by_Permutation. Qed.

Context `{!Transitive R, !Total R}.

Lemma insert_by_sorted x l : StronglySorted R l → StronglySorted R (insert_by x l).
Proof.
  induction 1 as [|y l Hl IH Hy]; simpl; [by repeat constructor|].
  case_decide as Hxy.
  - constructor; [by constructor|]. constructor; [done|].
    eapply Forall_impl; [exact Hy|]. intros z ?; by trans y.
  - constructor; [done|].
    rewrite insert_by_Permutation. constructor; [|done].
    by destruct (total R x y).
Qed.

Lemma sort_by_sorted l : StronglySorted R (sort_by l).
Proof. induction l; simpl; [constructor|]. by apply insert_by_sorted. Qed.

(** Sorting depends only on the elements, not on their order, when the
    comparison separates them. *)
Lemma sort_by_unique l1 l2 :
  (∀ x y, x ∈ l1 → y ∈ l1 → R x y → R y x → x = y) →
  l1 ≡ₚ l2 → sort_by l1 = sort_by l2.
Proof.
  intros Hanti Hp. apply (StronglySorted_unique_strong R).
  - intros x y. rewrite !elem_of_sort_by, <-Hp. apply Hanti.
  - apply sort_by_sorted.
  - apply sort_by_sorted.
  - by rewrite !sort_by_Permutation.
Qed.

Lemma StronglySorted_filter (P : A → Prop) `{!∀ x, Decision (P x)} l :
  StronglySorted R l → StronglySorted R (filter P l).
Proof.
  induction 1 as [|x l Hl IH Hx]; [constructor|].
  rewrite filter_cons. case_decide; [|done]. constructor; [done|].
  rewrite Forall_forall in *. intros y [_ ?]%list_elem_of_filter. auto.
Qed.

Lemma filter_insert_by (P : A → Prop) `{!∀ x, Decision (P x)} x l :
  StronglySorted R l →
  filter P (insert_by x l) = if decide (P x) then insert_by x (filter P l) else filter P l.
Proof.
  induction 1 as [|y l Hl IH Hy]; simpl.
  { rewrite filter_cons, filter_nil. done. }
  destruct (decide (R x y)) as [Hxy|Hxy].
  - rewrite (filter_cons P x). destruct (decide (P x)) as [HP|HP]; [|done].
    assert (Hle : Forall (R x) (filter P (y :: l))).
    { rewrite Forall_forall in *. intros z [_ Hz]%list_elem_of_filter.
      apply elem_of_cons in Hz as [->|Hz]; [done|]. trans y; auto. }
    destruct (filter P (y :: l)) as [|z l'] eqn:Hf; simpl; [done|].
    apply Forall_cons in Hle as [Hz _]. by rewrite decide_True.
  - rewrite !(filter_cons P y), IH.
    destruct (decide (P x)), (decide (P y)); try done. simpl. by rewrite decide_False.
Qed.

(** A stable sort commutes with filtering. *)
Lemma filter_sort_by (P : A → Prop) `{!∀ x, Decision (P x)} l :
  filter P (sort_by l) = sort_by (filter P l).
Proof.
  induction l as [|x l IH]; simpl; [done|].
  rewrite filter_insert_by by apply sort_by_sorted. rewrite filter_cons, IH.
  by case_decide.
Qed.

(** Sorting is idempotent on sorted input. *)
Lemma sort_by_id l : StronglySorted R l → sort_by l = l.
Proof.
  induction 1 as [|x l Hl IH Hx]; simpl; [done|]. rewrite IH.
  destruct l as [|y l]; simpl; [done|]. apply Forall_cons in Hx as [? _].
  by rewrite decide_True.
Qed.
End sort.

(** [Vec::dedup]: drop every element equal to its predecessor. *)
Section dedup.
Context {A : Type} `{!EqDecision A}.

Fixpoint dedup (l : list A) : list A :=
  match l with
  | x :: (y :: _) as t => if decide (x = y) then dedup t else x :: dedup t
  | _ => l
  end.

Lemma elem_of_dedup x l : x ∈ dedup l ↔ x ∈ l.
Proof.
  induction l as [|y [|z l] IH]; [done|done|].
  change (dedup (y :: z :: l)) with
    (if decide (y = z) then dedup (z :: l) else y :: dedup (z :: l)).
  case_decide; [subst; rewrite IH; set_solver|].
  rewrite !elem_of_cons in *. naive_solver.
Qed.

Lemma dedup_sorted (R : relation A) l :
  StronglySorted R l → StronglySorted R (dedup l).
Proof.
  induction 1 as [|y l Hl IH Hy]; [constructor|]. destruct l as [|z l]; [by repeat constructor|].
  change (dedup (y :: z :: l)) with
    (if decide (y = z) then dedup (z :: l) else y :: dedup (z :: l)).
  case_decide; [done|]. constructor; [done|].
  rewrite Forall_forall in *. intros x. rewrite elem_of_dedup. auto.
Qed.

(** On a sorted list [dedup] removes every duplicate. *)
Lemma NoDup_dedup (R : relation A) `{!AntiSymm (=) R} l :
  StronglySorted R l → NoDup (dedup l).
Proof.
  induction 1 as [|y l Hl IH Hy]; [constructor|].
  destruct l as [|z l]; [apply NoDup_singleton|].
  change (dedup (y :: z :: l)) with
    (if decide (y = z) then dedup (z :: l) else y :: dedup (z :: l)).
  case_decide as Hyz; [done|]. constructor; [|done]. rewrite elem_of_dedup.
  rewrite elem_of_cons. intros [?|Hin]; [done|].
  apply Forall_cons in Hy as [Hyz' _].
  inversion_clear Hl as [|?? _ Hz]. rewrite Forall_forall in Hz.
  apply Hyz, (anti_symm R); auto.
Qed.
End dedup.

(** ** Ascending iteration of a [BTreeMap] *)
Section btree.
Context {K V : Type} `{Countable K, !KeyOrder K}.

Definition entry_le (p q : K * V) : Prop := key_le p.1 q.1.
#[export] Instance entry_le_dec : RelDecision entry_le.
Proof. intros p q. unfold entry_le. apply _. Defined.
#[export] Instance entry_le_trans : Transitive entry_le.
Proof. intros x y z. unfold entry_le. apply transitivity. Qed.
#[export] Instance entry_le_total : Total entry_le.
Proof. intros x y. unfold entry_le. apply total, _. Qed.

(** The entries in ascending key order, as [for (k, v) in &map] visits
    them. *)
Definition btree_iter (m : gmap K V) : list (K * V) := sort_by entry_le (map_to_list m).
Definition btree_keys (m : gmap K V) : list K := (btree_iter m).*1.
Definition btree_values (m : gmap K V) : list V := (btree_iter m).*2.

Lemma elem_of_btree_iter (m : gmap K V) k v : (k, v) ∈ btree_iter m ↔ m !! k = Some v.
Proof. unfold btree_iter. by rewrite elem_of_sort_by, elem_of_map_to_list. Qed.

Lemma NoDup_btree_keys (m : gmap K V) : NoDup (btree_keys m).
Proof.
  unfold btree_keys, btree_iter. rewrite sort_by_Permutation. apply NoDup_fst_map_to_list.
Qed.

Lemma elem_of_btree_keys (m : gmap K V) k : k ∈ btree_keys m ↔ is_Some (m !! k).
Proof.
  unfold btree_keys. rewrite list_elem_of_fmap. split.
  - intros ([k' v] & -> & Hkv). apply elem_of_btree_iter in Hkv. eauto.
  - intros [v Hkv]. exists (k, v). by rewrite elem_of_btree_iter.
Qed.

Lemma elem_of_btree_values (m : gmap K V) v : v ∈ btree_values m ↔ ∃ k, m !! k = Some v.
Proof.
  unfold btree_values. rewrite list_elem_of_fmap. split.
  - intros ([k v'] & -> & Hkv). apply elem_of_btree_iter in Hkv. eauto.
  - intros [k Hkv]. exists (k, v). by rewrite elem_of_btree_iter.
Qed.

Lemma btree_keys_sorted (m : gmap K V) : StronglySorted key_le (btree_keys m).
Proof.
  unfold btree_keys. apply (StronglySorted_fmap fst entry_le); [|apply sort_by_sorted; apply _].
  by intros [] [].
Qed.

Lemma btree_iter_empty : btree_iter (∅ : gmap K V) = [].
Proof. unfold btree_iter. by rewrite map_to_list_empty. Qed.
End btree.

#[export] Hint Resolve NoDup_btree_keys btree_keys_sorted : sleet.

(** A nonempty list of numbers has a maximum. *)
Lemma maximum_exists (l : list N) i : i ∈ l → ∃ x, x ∈ l ∧ ∀ y, y ∈ l → (y ≤ x)%N.
Proof.
  revert i. induction l as [|a l IH]; intros i Hi; [by apply elem_of_nil in Hi|].
  destruct l as [|b l]; [exists a; split; [by left|]; by intros y ->%list_elem_of_singleton|].
  destruct (IH b ltac:(by left)) as (x & Hx & Hy). destruct (decide (a ≤ x)%N).
  - exists x. split; [by right|]. intros y [->|?]%elem_of_cons; auto.
  - exists a. split; [by left|]. intros y [->|Hin]%elem_of_cons; [done|]. specialize (Hy _ Hin). lia.
Qed.
