(* ===== verification/Text.v ===== *)
(** * Strings: the [str] operations of Rust's standard library

    A Rust [str] is its sequence of UTF-8 bytes: a [string] of [ascii], one
    per byte.  The code tests characters only for membership in ASCII
    classes; a multi-byte character has no byte below 128, so testing the
    bytes decides the same thing. *)

From Stdlib Require Import Ascii.
From Stdlib Require String.
From S2P Require Import Prelude Order.

(** ** Byte classes *)
Definition in_range (c lo hi : ascii) : bool :=
  bool_decide (N_of_ascii lo ≤ N_of_ascii c ≤ N_of_ascii hi)%N.
Definition is_digit (c : ascii) : bool := in_range c "0" "9".
Definition is_upper (c : ascii) : bool := in_range c "A" "Z".
Definition is_lower (c : ascii) : bool := in_range c "a" "z".
(** [char::is_ascii_alphanumeric]. *)
Definition is_ascii_alphanumeric (c : ascii) : bool := is_digit c || is_upper c || is_lower c.
(** [u8::to_ascii_lowercase]. *)
Definition ascii_lower (c : ascii) : ascii :=
  if is_upper c then ascii_of_N (N_of_ascii c + 32) else c.

(** ** Strings as byte lists *)
Abbreviation bytes := String.list_ascii_of_string (only parsing).
Abbreviation of_bytes := String.string_of_list_ascii (only parsing).

Definition all_bytes (f : ascii → bool) (s : string) : bool := forallb f (bytes s).
Definition map_bytes (f : ascii → ascii) (s : string) : string := of_bytes (f <$> bytes s).
Definition to_ascii_lowercase : string → string := map_bytes ascii_lower.
(** [str::contains] for a one-byte pattern. *)
Definition contains (c : ascii) (s : string) : bool := existsb (λ a, bool_decide (a = c)) (bytes s).
(** [str::is_empty]. *)
Definition is_empty (s : string) : bool := bool_decide (s = EmptyString).

Lemma bytes_app s t : bytes (s +:+ t) = bytes s ++ bytes t.
Proof. induction s as [|c s IH]; [done|]. simpl. f_equal. apply IH. Qed.
Lemma of_bytes_app l k : of_bytes (l ++ k) = of_bytes l +:+ of_bytes k.
Proof. induction l as [|c l IH]; [done|]. simpl. by rewrite IH. Qed.
Lemma of_bytes_bytes s : of_bytes (bytes s) = s.
Proof. apply String.string_of_list_ascii_of_string. Qed.
Lemma bytes_of_bytes l : bytes (of_bytes l) = l.
Proof. apply String.list_ascii_of_string_of_list_ascii. Qed.
#[export] Instance bytes_inj : Inj (=) (=) String.list_ascii_of_string.
Proof. intros s t E. by rewrite <-(of_bytes_bytes s), E, of_bytes_bytes. Qed.

Lemma app_nil_r s : s +:+ EmptyString = s.
Proof. apply (inj String.list_ascii_of_string). by rewrite bytes_app, app_nil_r. Qed.
Lemma app_assoc s t u : (s +:+ t) +:+ u = s +:+ (t +:+ u).
Proof. apply (inj String.list_ascii_of_string). by rewrite !bytes_app, (assoc_L (++)). Qed.
#[export] Instance app_inj_r t : Inj (=) (=) (λ s, s +:+ t).
Proof.
  intros s1 s2 E%(f_equal String.list_ascii_of_string). rewrite !bytes_app in E.
  apply (inj String.list_ascii_of_string). by apply app_inv_tail in E.
Qed.
Lemma length_app s t : String.length (s +:+ t) = String.length s + String.length t.
Proof. induction s as [|c s IH]; [done|]. simpl. f_equal. apply IH. Qed.
Lemma app_cons c s t : String c s +:+ t = String c (s +:+ t).
Proof. done. Qed.

Lemma contains_spec c s : contains c s = true ↔ c ∈ bytes s.
Proof.
  unfold contains. rewrite existsb_exists. setoid_rewrite bool_decide_eq_true.
  setoid_rewrite <-list_elem_of_In. naive_solver.
Qed.
Lemma all_bytes_spec f s : all_bytes f s = true ↔ ∀ c, c ∈ bytes s → f c = true.
Proof. unfold all_bytes. rewrite forallb_forall. by setoid_rewrite <-list_elem_of_In. Qed.
Lemma all_bytes_cons f c s : all_bytes f (String c s) = f c && all_bytes f s.
Proof. done. Qed.
Lemma all_bytes_app f s t : all_bytes f (s +:+ t) = all_bytes f s && all_bytes f t.
Proof. unfold all_bytes. by rewrite bytes_app, forallb_app. Qed.

(** ** Prefixes, suffixes and splitting *)

(** [str::strip_prefix]. *)
Fixpoint strip_prefix (pre s : string) : option string :=
  match pre, s with
  | EmptyString, _ => Some s
  | String a pre', String b s' => if decide (a = b) then strip_prefix pre' s' else None
  | String _ _, EmptyString => None
  end.

(** [str::strip_suffix]. *)
Fixpoint strip_suffix (suf s : string) : option string :=
  if decide (s = suf) then Some EmptyString
  else match s with
       | EmptyString => None
       | String c s' => String c <$> strip_suffix suf s'
       end.

(** [str::rsplit_once] for a one-byte delimiter: split at its last
    occurrence. *)
Fixpoint rsplit_once (c : ascii) (s : string) : option (string * string) :=
  match s with
  | EmptyString => None
  | String a s' =>
      match rsplit_once c s' with
      | Some (l, r) => Some (String a l, r)
      | None => if decide (a = c) then Some (EmptyString, s') else None
      end
  end.

(** [str::trim_end_matches] for a one-byte pattern. *)
Fixpoint trim_end_matches (c : ascii) (s : string) : string :=
  match s with
  | EmptyString => EmptyString
  | String a s' =>
      match trim_end_matches c s' with
      | EmptyString => if decide (a = c) then EmptyString else String a EmptyString
      | t => String a t
      end
  end.

Lemma strip_prefix_spec pre s r : strip_prefix pre s = Some r ↔ s = pre +:+ r.
Proof.
  revert s. induction pre as [|a pre IH]; intros s; simpl; [naive_solver|].
  destruct s as [|b s]; [done|]. case_decide; subst.
  - rewrite IH, app_cons. naive_solver.
  - rewrite app_cons. naive_solver.
Qed.

Lemma strip_suffix_eq suf s :
  strip_suffix suf s =
    if decide (s = suf) then Some EmptyString
    else match s with
         | EmptyString => None
         | String c s' => String c <$> strip_suffix suf s'
         end.
Proof. by destruct s. Qed.

Lemma strip_suffix_spec suf s r : strip_suffix suf s = Some r ↔ s = r +:+ suf.
Proof.
  revert r. induction s as [|c s IH]; intros r; rewrite strip_suffix_eq.
  - case_decide as E; [subst suf|].
    + rewrite app_nil_r. naive_solver.
    + split; [done|]. by destruct r.
  - case_decide as E; [subst suf|].
    + split; [by intros [= <-]|]. intros H. destruct r as [|d r]; [done|].
      apply (f_equal String.length) in H. rewrite length_app in H. simpl in H. lia.
    + rewrite fmap_Some. setoid_rewrite IH. destruct r as [|d r].
      * split; [naive_solver|]. intros H. by destruct E.
      * rewrite app_cons. naive_solver.
Qed.

Lemma rsplit_once_spec c s l r :
  rsplit_once c s = Some (l, r) ↔ s = l +:+ String c r ∧ c ∉ bytes r.
Proof.
  revert l r. induction s as [|a s IH]; intros l r; simpl.
  { split; [done|]. intros [H _]. by destruct l. }
  destruct (rsplit_once c s) as [[l' r']|] eqn:E.
  - destruct (proj1 (IH l' r') eq_refl) as [-> Hn]. split.
    + intros [= <- <-]. done.
    + intros [H Hn']. destruct l as [|b l].
      * exfalso. change (EmptyString +:+ String c r) with (String c r) in H. simplify_eq.
        apply Hn'. rewrite bytes_app. set_solver.
      * rewrite app_cons in H. injection H as -> H.
        assert (Hr : Some (l', r') = Some (l, r)); [|by simplify_eq].
        by apply IH.
  - assert (Hns : c ∉ bytes s).
    { intros (l1 & l2 & Hs & Hl2)%list_elem_of_split_r.
      enough (None = Some (of_bytes l1, of_bytes l2)) by done. apply IH. split; [|by rewrite bytes_of_bytes].
      apply (inj String.list_ascii_of_string). rewrite bytes_app. simpl.
      by rewrite !bytes_of_bytes. }
    case_decide as Eac; [subst a|].
    + split; [by intros [= <- <-]|]. intros [H Hn].
      destruct l as [|b l].
      * change (EmptyString +:+ String c r) with (String c r) in H. naive_solver.
      * rewrite app_cons in H. simplify_eq. exfalso. apply Hns. rewrite bytes_app. set_solver.
    + split; [done|]. intros [H Hn]. destruct l as [|b l].
      * change (EmptyString +:+ String c r) with (String c r) in H. naive_solver.
      * rewrite app_cons in H. simplify_eq. exfalso. apply Hns. rewrite bytes_app. set_solver.
Qed.

(** The trimmed string is a prefix, what was cut consists of the pattern, and
    the result does not end with it. *)
Lemma trim_end_matches_spec c s :
  (∃ k, s = trim_end_matches c s +:+ of_bytes (replicate k c)) ∧
  (∀ t, trim_end_matches c s ≠ t +:+ String c EmptyString).
Proof.
  induction s as [|a s [(k & Hk) Hn]]; simpl.
  { split; [by exists 0|]. by intros []. }
  destruct (trim_end_matches c s) as [|b t] eqn:E.
  - case_decide as Eac; [subst a|].
    + split; [exists (S k); by rewrite Hk|]. by intros [].
    + split; [exists k; rewrite app_cons; by f_equal|]. intros [|x t] H.
      * by injection H as ->.
      * rewrite app_cons in H. injection H as -> H. by destruct t.
  - split.
    + exists k. rewrite app_cons. by rewrite <-Hk.
    + intros [|x t'] H.
      * change (EmptyString +:+ String c EmptyString) with (String c EmptyString) in H. done.
      * rewrite app_cons in H. simplify_eq. by eapply Hn.
Qed.

Lemma trim_end_matches_id c s :
  (∀ t, s ≠ t +:+ String c EmptyString) → trim_end_matches c s = s.
Proof.
  intros Hn. destruct (trim_end_matches_spec c s) as [[[|k] Hk] _].
  - by rewrite app_nil_r in Hk.
  - exfalso. eapply (Hn (trim_end_matches c s +:+ of_bytes (replicate k c))).
    rewrite Hk at 1. rewrite app_assoc. f_equal.
    rewrite replicate_S_end, of_bytes_app. done.
Qed.

(** ** Numbers *)

(** The decimal digit a byte denotes. *)
Definition digit_value (c : ascii) : option N :=
  if is_digit c then Some (N_of_ascii c - 48)%N else None.
Definition digit_char (d : N) : ascii := ascii_of_N (48 + d).

Lemma digit_value_char d : (d < 10)%N → digit_value (digit_char d) = Some d.
Proof.
  intros Hd. assert (H : Forall (λ d, digit_value (digit_char d) = Some d) (rangeN 0 10)).
  { vm_compute. repeat constructor. }
  rewrite Forall_forall in H. apply H, elem_of_rangeN. lia.
Qed.
Lemma digit_char_ne_plus d : (d < 10)%N → digit_char d ≠ "+"%char.
Proof. intros Hd E. by pose proof (digit_value_char d Hd) as H; rewrite E in H. Qed.

(** Rust's checked digit loop: an overflow of [u64] is an error. *)
Fixpoint parse_digits (acc : N) (s : string) : option N :=
  match s with
  | EmptyString => Some acc
  | String c s' =>
      d ← digit_value c;
      let acc' := (acc * 10 + d)%N in
      if decide (acc' ≤ U64_MAX)%N then parse_digits acc' s' else None
  end.

(** [str::parse::<u64>]: an optional [+], then at least one digit. *)
Definition parse_u64 (s : string) : option N :=
  match s with
  | EmptyString => None
  | String c s' =>
      if decide (c = "+"%char)
      then match s' with EmptyString => None | _ => parse_digits 0 s' end
      else parse_digits 0 s
  end.

(** [Display for u64]; the binary size bounds the number of digits. *)
Fixpoint decimal_go (fuel : nat) (n : N) (rest : string) : string :=
  match fuel with
  | 0 => rest
  | S fuel =>
      let rest' := String (digit_char (n `mod` 10)) rest in
      if decide (n < 10)%N then rest' else decimal_go fuel (n `div` 10) rest'
  end.
Definition decimal (n : N) : string := decimal_go (S (N.size_nat n)) n EmptyString.

(** The [0width] flag of [format!]. *)
Definition zero_pad (width : nat) (s : string) : string :=
  of_bytes (replicate (width - String.length s) "0"%char) +:+ s.

Lemma N_lt_pow10_size n : (n < 10 ^ N.of_nat (S (N.size_nat n)))%N.
Proof.
  assert (H : (n < 2 ^ N.of_nat (N.size_nat n))%N).
  { destruct n as [|p]; [done|]. simpl N.size_nat.
    induction p as [p IH|p IH|]; simpl Pos.size_nat;
      rewrite ?Nnat.Nat2N.inj_succ, ?N.pow_succ_r'; [lia..|done]. }
  pose proof (N.pow_le_mono_l 2 10 (N.of_nat (N.size_nat n)) ltac:(lia)).
  rewrite Nnat.Nat2N.inj_succ, N.pow_succ_r'. lia.
Qed.

Lemma parse_digits_decimal_go fuel n rest :
  (n < 10 ^ N.of_nat fuel)%N → (n ≤ U64_MAX)%N →
  parse_digits 0 (decimal_go fuel n rest) = parse_digits n rest.
Proof.
  revert n rest. induction fuel as [|fuel IH]; intros n rest Hn Hmax.
  { simpl in *. by replace n with 0%N by (change (10 ^ N.of_nat 0)%N with 1%N in Hn; lia). }
  pose proof (N.div_mod n 10 ltac:(lia)) as Hdm. pose proof (N.mod_lt n 10 ltac:(lia)) as Hm.
  rewrite Nnat.Nat2N.inj_succ, N.pow_succ_r' in Hn.
  simpl. destruct (decide (n < 10)%N) as [Hlt|Hge].
  - simpl. rewrite digit_value_char by done. simpl. rewrite N.mod_small by done.
    by rewrite decide_True by lia.
  - rewrite IH.
    + simpl. rewrite digit_value_char by done. simpl.
      replace (n `div` 10 * 10 + n `mod` 10)%N with n by lia. by rewrite decide_True.
    + by apply N.Div0.div_lt_upper_bound.
    + apply N.Div0.div_le_upper_bound. lia.
Qed.

Lemma parse_digits_zeros k s : parse_digits 0 (of_bytes (replicate k "0"%char) +:+ s) = parse_digits 0 s.
Proof. by induction k as [|k IH]. Qed.

Lemma decimal_go_head fuel n rest :
  fuel ≠ 0 → ∃ d t, (d < 10)%N ∧ decimal_go fuel n rest = String (digit_char d) t.
Proof.
  revert n rest. induction fuel as [|fuel IH]; intros n rest Hf; [done|]. simpl.
  pose proof (N.mod_lt n 10 ltac:(lia)).
  case_decide; [by eauto|]. destruct fuel as [|fuel]; [by eauto|]. by apply IH.
Qed.

Lemma parse_u64_digit_head d t :
  (d < 10)%N → parse_u64 (String (digit_char d) t) = parse_digits 0 (String (digit_char d) t).
Proof. intros Hd. unfold parse_u64. by rewrite decide_False by by apply digit_char_ne_plus. Qed.

Lemma parse_u64_bound s n : parse_u64 s = Some n → (n ≤ U64_MAX)%N.
Proof.
  assert (H : ∀ s acc n, (acc ≤ U64_MAX)%N → parse_digits acc s = Some n → (n ≤ U64_MAX)%N).
  { clear. induction s as [|c s IH]; intros acc n Ha; simpl; [by intros [= <-]|].
    intros (d & _ & Hp)%bind_Some. case_decide; [|done]. by eapply IH. }
  assert (H0 : (0 ≤ U64_MAX)%N) by done.
  unfold parse_u64. destruct s as [|c s]; [done|]. case_decide; [destruct s as [|d s]; [done|]|]; by apply H.
Qed.

(** Parsing inverts zero-padded printing. *)
Lemma parse_u64_zero_pad w n : (n ≤ U64_MAX)%N → parse_u64 (zero_pad w (decimal n)) = Some n.
Proof.
  intros Hn.
  assert (Hp : parse_digits 0 (zero_pad w (decimal n)) = Some n).
  { unfold zero_pad, decimal. rewrite parse_digits_zeros, parse_digits_decimal_go; [done| |done].
    apply N_lt_pow10_size. }
  assert (Hh : ∃ d t, (d < 10)%N ∧ zero_pad w (decimal n) = String (digit_char d) t).
  { unfold zero_pad. destruct (w - _) as [|k].
    - by apply decimal_go_head.
    - exists 0%N. eexists. split; [lia|]. done. }
  destruct Hh as (d & t & Hd & E). rewrite E in *. by rewrite parse_u64_digit_head.
Qed.

Lemma zero_pad_decimal_inj w n m :
  (n ≤ U64_MAX)%N → (m ≤ U64_MAX)%N → zero_pad w (decimal n) = zero_pad w (decimal m) → n = m.
Proof.
  intros Hn Hm E. pose proof (parse_u64_zero_pad w n Hn) as H.
  rewrite E, parse_u64_zero_pad in H by done. by simplify_eq.
Qed.

(** [slice::join]. *)
Definition join (sep : string) (l : list string) : string := String.concat sep l.
(** [Debug for str] on text without characters to escape. *)
Definition quoted (s : string) : string := String "034" (s +:+ String "034" EmptyString).

(** ** UTF-8 validity: what [str::from_utf8] accepts *)
Definition byte_in (b : ascii) (lo hi : N) : bool := bool_decide (lo ≤ N_of_ascii b ≤ hi)%N.
Definition is_cont (b : ascii) : bool := byte_in b 0x80 0xBF.

Fixpoint valid_utf8_bytes (l : list ascii) : bool :=
  match l with
  | [] => true
  | a :: l1 =>
      if byte_in a 0 0x7F then valid_utf8_bytes l1
      else if byte_in a 0xC2 0xDF then
        match l1 with
        | b :: l2 => is_cont b && valid_utf8_bytes l2
        | _ => false
        end
      else if byte_in a 0xE0 0xEF then
        match l1 with
        | b :: c :: l3 =>
            (if byte_in a 0xE0 0xE0 then byte_in b 0xA0 0xBF
             else if byte_in a 0xED 0xED then byte_in b 0x80 0x9F
             else is_cont b) && is_cont c && valid_utf8_bytes l3
        | _ => false
        end
      else if byte_in a 0xF0 0xF4 then
        match l1 with
        | b :: c :: d :: l4 =>
            (if byte_in a 0xF0 0xF0 then byte_in b 0x90 0xBF
             else if byte_in a 0xF4 0xF4 then byte_in b 0x80 0x8F
             else is_cont b) && is_cont c && is_cont d && valid_utf8_bytes l4
        | _ => false
        end
      else false
  end.

(** Whether a byte sequence is a [str]. *)
Definition valid_utf8 (s : string) : bool := valid_utf8_bytes (bytes s).

Example valid_utf8_examples :
  valid_utf8 "s3://bucket/µ" = true ∧ valid_utf8 (String "255" EmptyString) = false ∧
  valid_utf8 (String "237" (String "160" (String "128" EmptyString))) = false.
Proof. by vm_compute. Qed.
