(* ===== verification/Service.v ===== *)
(** * The services of a database ([enum Service] of src/config.rs) *)

From Stdlib Require Import Ascii.
From S2P Require Import Prelude Order Text.

(** Declaration order is the canonical order ([Ord], [Service::ALL]). *)
Inductive Service :=
  | Gc
  | CompactorCoordinator
  | CompactionWorkers
  | Mirror.

#[export] Instance service_eq_dec : EqDecision Service.
Proof. solve_decision. Defined.

(** The derived order: the position of the constructor. *)
Definition service_index (s : Service) : N :=
  match s with Gc => 0 | CompactorCoordinator => 1 | CompactionWorkers => 2 | Mirror => 3 end.

#[export] Instance service_countable : Countable Service.
Proof.
  refine (inj_countable' service_index
    (λ n, if decide (n = 0%N) then Gc else if decide (n = 1%N) then CompactorCoordinator
          else if decide (n = 2%N) then CompactionWorkers else Mirror) _).
  by intros [].
Defined.

Definition service_le (a b : Service) : Prop := (service_index a ≤ service_index b)%N.
#[export] Instance service_key_order : KeyOrder Service.
Proof.
  refine {| key_le := service_le |}; unfold service_le.
  - intros a b. apply _.
  - intros a b. lia.
  - intros a b c. lia.
  - intros [] [] H1 H2; by (done || (exfalso; simpl in *; lia)).
Defined.

#[export] Instance service_le_total : Total service_le := key_le_total.
#[export] Instance service_le_trans : Transitive service_le := key_le_trans.
#[export] Instance service_le_antisymm : AntiSymm (=) service_le := key_le_antisymm.
#[export] Instance service_le_dec : RelDecision service_le := key_le_dec.

(** [Service::as_str]: the kebab-case name. *)
Definition as_str (s : Service) : string :=
  match s with
  | Gc => "gc"
  | CompactorCoordinator => "compactor-coordinator"
  | CompactionWorkers => "compaction-workers"
  | Mirror => "mirror"
  end.

(** [Service::letter]: the service's letter in a heartbeat object name. *)
Definition letter (s : Service) : ascii :=
  match s with
  | Gc => "g"
  | CompactorCoordinator => "c"
  | CompactionWorkers => "w"
  | Mirror => "m"
  end.

(** [Service::from_letter]. *)
Definition from_letter (c : ascii) : option Service :=
  match c with
  | "g" => Some Gc
  | "c" => Some CompactorCoordinator
  | "w" => Some CompactionWorkers
  | "m" => Some Mirror
  | _ => None
  end%char.

(** [Service::ALL]. *)
Definition ALL : list Service := [Gc; CompactorCoordinator; CompactionWorkers; Mirror].

Lemma elem_of_ALL s : s ∈ ALL.
Proof. destruct s; unfold ALL; set_solver. Qed.

Lemma from_letter_letter s : from_letter (letter s) = Some s.
Proof. by destruct s. Qed.

#[export] Instance letter_inj : Inj (=) (=) letter.
Proof. intros s t E. apply (inj Some). by rewrite <-!from_letter_letter, E. Qed.

Lemma from_letter_Some c s : from_letter c = Some s ↔ c = letter s.
Proof.
  split; [|intros ->; apply from_letter_letter].
  intros H. destruct c as [[] [] [] [] [] [] [] []]; try discriminate H;
    injection H as <-; reflexivity.
Qed.

#[export] Hint Resolve elem_of_ALL from_letter_letter : sleet.
