(* ===== verification/Placement.v ===== *)
(** * Rendezvous placement (src/placement.rs)

    Which nodes own a [(database, service)] pair or a [(database, mirror,
    target)] triple: every candidate gets a 64-bit FNV-1a score of the key and
    its node id, candidates are ranked by descending score with ties broken
    by node id, and the top of the ranking owns the work.

    The theorems: the hash stays in [u64] and is frozen on the golden inputs
    of the source's tests; the ranking is a permutation of the candidates that
    does not depend on the order they are listed in; owners are the prefix of
    the ranking; removing a node moves only that node's work and adding one
    takes over only what the new node wins. *)

From Stdlib Require Import Ascii.
From S2P Require Import Prelude Order Text Service.

Definition FNV_OFFSET : N := 0xcbf29ce484222325.
Definition FNV_PRIME : N := 0x100000001b3.

(** One byte of the hash: xor, then a wrapping multiplication. *)
Definition fnv_byte (h : N) (b : ascii) : N := wrap64 (N.lxor h (N_of_ascii b) * FNV_PRIME).

Definition fnv1a64 (chunks : list string) : N :=
  fold_left (λ h chunk, fold_left fnv_byte (bytes chunk) h) chunks FNV_OFFSET.

(** The separator [b"\0"]. *)
Definition NUL : string := String "000" EmptyString.

Definition score (database : string) (service : Service) (node_id : string) : N :=
  fnv1a64 [database; NUL; as_str service; NUL; node_id].

Definition score_target (database target node_id : string) : N :=
  fnv1a64 [database; NUL; as_str Mirror; NUL; target; NUL; node_id].

(** The comparison of [sort_by]: descending by score, then by node id. *)
Definition rank_le (a b : N * string) : Prop :=
  (b.1 < a.1)%N ∨ (a.1 = b.1 ∧ String.le a.2 b.2).
#[export] Instance rank_le_dec : RelDecision rank_le.
Proof. intros a b. unfold rank_le. apply _. Defined.

(** The ranking of candidates by a scoring function: what [rank] and
    [rank_target] share. *)
Definition rank_with (sc : string → N) (candidates : list string) : list string :=
  (sort_by rank_le ((λ n, (sc n, n)) <$> candidates)).*2.

Definition rank (database : string) (service : Service) (candidates : list string) : list string :=
  rank_with (score database service) candidates.

(** [Vec::truncate]. *)
Definition owners (database : string) (service : Service) (count : nat)
    (candidates : list string) : list string :=
  take count (rank database service candidates).

Definition rank_target (database target : string) (candidates : list string) : list string :=
  rank_with (score_target database target) candidates.

Definition owner_target (database target : string) (candidates : list string) : option string :=
  head (rank_target database target candidates).

(** ** The hash *)
Lemma fnv_chunk_bound chunk h :
  (h ≤ U64_MAX)%N → (fold_left fnv_byte (bytes chunk) h ≤ U64_MAX)%N.
Proof.
  revert h. induction chunk as [|c chunk IH]; simpl; [done|]. intros h _.
  apply IH. apply wrap64_bound.
Qed.

Lemma fnv1a64_bound chunks : (fnv1a64 chunks ≤ U64_MAX)%N.
Proof.
  unfold fnv1a64. assert (H : (FNV_OFFSET ≤ U64_MAX)%N) by done.
  revert H. generalize FNV_OFFSET. induction chunks as [|c chunks IH]; simpl; [done|].
  intros h Hh. by apply IH, fnv_chunk_bound.
Qed.

Lemma fnv1a64_concat chunks : fnv1a64 chunks = fold_left fnv_byte (concat (bytes <$> chunks)) FNV_OFFSET.
Proof.
  unfold fnv1a64. generalize FNV_OFFSET.
  induction chunks as [|c chunks IH]; intros h; [done|]. simpl. by rewrite fold_left_app, IH.
Qed.

(** ** The ranking order is total and separates entries *)
#[export] Instance rank_le_trans : Transitive rank_le.
Proof.
  intros [s1 n1] [s2 n2] [s3 n3]; unfold rank_le; simpl.
  intros [?|[-> ?]] [?|[-> ?]]; [left; lia|by left|by left|].
  right. split; [done|]. by trans n2.
Qed.
#[export] Instance rank_le_total : Total rank_le.
Proof.
  intros [s1 n1] [s2 n2]; unfold rank_le; simpl.
  destruct (N.lt_trichotomy s1 s2) as [?|[->|?]]; [tauto| |tauto].
  destruct (total String.le n1 n2); tauto.
Qed.
#[export] Instance rank_le_antisymm : AntiSymm (=) rank_le.
Proof.
  intros [s1 n1] [s2 n2]; unfold rank_le; simpl.
  intros [?|[-> ?]] [?|[? ?]]; [lia..|]. f_equal. by apply (anti_symm String.le).
Qed.

Section rank_with.
Context (sc : string → N).
Implicit Types (c : list string) (n : string).

Lemma rank_with_Permutation c : rank_with sc c ≡ₚ c.
Proof.
  unfold rank_with. rewrite sort_by_Permutation, <-list_fmap_compose.
  by rewrite list_fmap_id.
Qed.

Lemma elem_of_rank_with c n : n ∈ rank_with sc c ↔ n ∈ c.
Proof. by rewrite rank_with_Permutation. Qed.

(** Every node computes the same ranking, in whatever order its LIST
    returned the candidates. *)
Lemma rank_with_order_independent c1 c2 : c1 ≡ₚ c2 → rank_with sc c1 = rank_with sc c2.
Proof.
  intros Hp. unfold rank_with. f_equal. apply sort_by_unique; [apply _..| |by rewrite Hp].
  intros x y _ _. apply (anti_symm rank_le).
Qed.

Lemma rank_with_filter (P : string → Prop) `{!∀ n, Decision (P n)} c :
  rank_with sc (filter P c) = filter P (rank_with sc c).
Proof.
  unfold rank_with. rewrite filter_fmap, (filter_sort_by rank_le (λ p, P p.2)).
  by rewrite filter_fmap.
Qed.

(** An earlier entry beats a later one. *)
Lemma rank_with_sorted c : StronglySorted (λ a b, rank_le (sc a, a) (sc b, b)) (rank_with sc c).
Proof.
  unfold rank_with. set (l := sort_by _ _).
  assert (Hs : StronglySorted rank_le l) by (apply sort_by_sorted; apply _).
  assert (Hp : Forall (λ p, p = (sc p.2, p.2)) l).
  { rewrite Forall_forall. intros p Hin. apply elem_of_sort_by, list_elem_of_fmap in Hin.
    by destruct Hin as (n & -> & _). }
  clearbody l. induction Hs as [|p l Hl IH Hx]; csimpl; [constructor|].
  apply Forall_cons in Hp as [Hp Hps]. constructor; [by apply IH|].
  rewrite Forall_fmap. rewrite Forall_forall in *. intros q Hq.
  specialize (Hx q Hq). rewrite (Hps q Hq), Hp in Hx. done.
Qed.

(** The head of the ranking is the candidate no other candidate beats. *)
Lemma rank_with_head c n :
  head (rank_with sc c) = Some n ↔
  n ∈ c ∧ ∀ m, m ∈ c → rank_le (sc n, n) (sc m, m).
Proof.
  pose proof (rank_with_sorted c) as Hs.
  setoid_rewrite <-(elem_of_rank_with c).
  destruct (rank_with sc c) as [|x l]; simpl.
  - split; [done|]. intros [H _]. by apply not_elem_of_nil in H.
  - inversion_clear Hs as [|?? _ Hx]. rewrite Forall_forall in Hx. split.
    + intros [= ->]. split; [set_solver|]. intros m [->|Hm]%elem_of_cons; [|by apply Hx].
      right. split; [done|]. by apply (reflexive_eq (R := String.le)).
    + intros [[->|Hn]%elem_of_cons Hle]; [done|].
      enough ((sc x, x) = (sc n, n)) by congruence.
      apply (anti_symm rank_le); [by apply Hx|]. apply Hle. set_solver.
Qed.
End rank_with.

(** ** The claims *)
Section claims.
Context (db : string) (svc : Service).
Implicit Types (c : list string) (n : string) (k : nat).

Lemma elem_of_owners k c n : n ∈ owners db svc k c → n ∈ c.
Proof. unfold owners, rank. intros H%subseteq_take. by rewrite elem_of_rank_with in H. Qed.

Lemma length_owners k c : length (owners db svc k c) = min k (length c).
Proof. unfold owners, rank. by rewrite length_take, rank_with_Permutation. Qed.

Lemma NoDup_owners k c : NoDup c → NoDup (owners db svc k c).
Proof.
  intros Hc. unfold owners. eapply sublist_NoDup; [|apply sublist_take].
  unfold rank. by rewrite rank_with_Permutation.
Qed.

Lemma owners_order_independent k c1 c2 : c1 ≡ₚ c2 → owners db svc k c1 = owners db svc k c2.
Proof. intros Hp. unfold owners, rank. by rewrite (rank_with_order_independent _ c1 c2). Qed.

Lemma owners_more k c n : n ∈ owners db svc k c → n ∈ owners db svc (S k) c.
Proof.
  unfold owners. intros (i & Hi)%list_elem_of_lookup_1. apply list_elem_of_lookup. exists i.
  apply lookup_take_Some in Hi as [Hi ?]. apply lookup_take_Some. split; [done|lia].
Qed.

Lemma owners_one k c : owners db svc 1 c = option_list (head (rank db svc c)).
Proof. unfold owners. by destruct (rank db svc c). Qed.
End claims.

(** Removing a candidate touches only the pairs it owned. *)
Lemma owners_without db svc k c n :
  NoDup c →
  owners db svc k (filter (.≠ n) c) =
    if decide (n ∈ owners db svc k c) then filter (.≠ n) (owners db svc (S k) c)
    else owners db svc k c.
Proof.
  intros Hnd. unfold owners, rank. rewrite rank_with_filter.
  case_decide as Hin.
  - eapply take_filter_one; [exact Hin|naive_solver..|]. by rewrite rank_with_Permutation.
  - apply take_filter_all. rewrite Forall_forall. by intros m Hm ->.
Qed.

Lemma owner_target_None db t c : owner_target db t c = None ↔ c = [].
Proof.
  unfold owner_target, rank_target. rewrite head_None. split; intros H.
  - apply (f_equal length) in H. rewrite rank_with_Permutation in H. by destruct c.
  - by subst.
Qed.

Lemma owner_target_without db t c n :
  owner_target db t c ≠ Some n → owner_target db t (filter (.≠ n) c) = owner_target db t c.
Proof.
  unfold owner_target, rank_target. intros Hn. rewrite rank_with_filter.
  destruct (rank_with _ c) as [|x l]; [done|]. simpl in Hn.
  by rewrite filter_cons_True by congruence.
Qed.

Lemma owner_target_order_independent db t c1 c2 :
  c1 ≡ₚ c2 → owner_target db t c1 = owner_target db t c2.
Proof. intros Hp. unfold owner_target, rank_target. by rewrite (rank_with_order_independent _ c1 c2). Qed.

Lemma owner_target_elem db t c n : owner_target db t c = Some n → n ∈ c.
Proof. unfold owner_target. intros H%rank_with_head. apply H. Qed.


(** C21: ranking is a deterministic function of the candidate set: it lists
    exactly the candidates, best first, and two nodes whose LISTs returned the
    same candidates in different orders compute the same ranking and the same
    owners for every count. *)
Theorem rank_agreement db svc c c' :
  c ≡ₚ c' →
  rank db svc c ≡ₚ c ∧
  StronglySorted (λ a b, rank_le (score db svc a, a) (score db svc b, b)) (rank db svc c) ∧
  rank db svc c = rank db svc c' ∧
  (∀ k, owners db svc k c = owners db svc k c').
Proof.
  intros Hp. split_and!.
  - apply rank_with_Permutation.
  - apply rank_with_sorted.
  - by apply rank_with_order_independent.
  - intros k. by apply owners_order_independent.
Qed.

Lemma rank_agreement_witness :
  ["n1"; "n2"; "n3"] ≡ₚ ["n3"; "n1"; "n2"] ∧
  rank "s3://b/db" Gc ["n1"; "n2"; "n3"] = rank "s3://b/db" Gc ["n3"; "n1"; "n2"].
Proof.
  assert (H : ["n1"; "n2"; "n3"] ≡ₚ ["n3"; "n1"; "n2"]) by (apply (bool_decide_unpack _); by vm_compute).
  split; [exact H|]. apply (rank_agreement "s3://b/db" Gc _ _ H).
Defined.

(** C20: minimal disruption.  Removing one node from the candidates changes the
    owners of a pair only if it was an owner, and then only by its
    replacement: the other owners stay, in order, and the next ranked node
    joins. *)
Theorem owners_remove db svc k c n :
  NoDup c →
  owners db svc k (filter (.≠ n) c) =
    if decide (n ∈ owners db svc k c) then filter (.≠ n) (owners db svc (S k) c)
    else owners db svc k c.
Proof.
  apply owners_without.
Qed.

Lemma owners_remove_witness :
  NoDup ["n1"; "n2"; "n3"] ∧
  owners "s3://b/db" Gc 1 (filter (.≠ "n2") ["n1"; "n2"; "n3"]) =
    if decide ("n2" ∈ owners "s3://b/db" Gc 1 ["n1"; "n2"; "n3"])
    then filter (.≠ "n2") (owners "s3://b/db" Gc 2 ["n1"; "n2"; "n3"])
    else owners "s3://b/db" Gc 1 ["n1"; "n2"; "n3"].
Proof.
  assert (H : NoDup ["n1"; "n2"; "n3"]) by (apply (bool_decide_unpack _); by vm_compute).
  split; [exact H|]. exact (owners_remove "s3://b/db" Gc 1 _ "n2" H).
Defined.

(** A mirror triple has exactly one owner when some live node offers
    [mirror] and none otherwise; the owner is the candidate that beats every
    other one, and losing a node that is not the owner does not move the
    triple. *)
Theorem owner_target_spec db t c :
  (owner_target db t c = None ↔ c = []) ∧
  (∀ n, owner_target db t c = Some n ↔
    n ∈ c ∧ ∀ m, m ∈ c → rank_le (score_target db t n, n) (score_target db t m, m)) ∧
  (∀ n, owner_target db t c ≠ Some n →
    owner_target db t (filter (.≠ n) c) = owner_target db t c).
Proof.
  split_and!; [apply owner_target_None|intros n; apply rank_with_head|intros n; apply owner_target_without].
Qed.
