(* ===== verification/Heartbeat.v ===== *)
(** * Heartbeats (src/heartbeat.rs)

    Placement reads node ids and offered services from heartbeat object names
    only.  The file models the id check, the name's encoder and decoder and the
    observability body, and proves the name a lossless encoding of a node id
    and a set of services.  The JSON of the body and its schema are generated
    code. *)

From Stdlib Require Import Ascii.
From S2P Require Import Prelude Order Text Service.

Definition VERSION : N := 1.

Definition node_id_char (c : ascii) : bool :=
  is_ascii_alphanumeric c || bool_decide (c ∈ ["_"; "-"]%char).

Definition validate_node_id (node_id : string) : Result string string :=
  let ok := negb (is_empty node_id) && bool_decide (String.length node_id ≤ 128) &&
            all_bytes node_id_char node_id in
  if ok then Ok node_id else Err "node ids are 1-128 chars of [A-Za-z0-9_-]".

(** [char]s compare by code point. *)
Definition char_le (a b : ascii) : Prop := (N_of_ascii a ≤ N_of_ascii b)%N.
#[export] Instance char_le_dec : RelDecision char_le.
Proof. intros a b. unfold char_le. apply _. Defined.
#[export] Instance char_le_total : Total char_le.
Proof. intros a b. unfold char_le. lia. Qed.
#[export] Instance char_le_trans : Transitive char_le.
Proof. intros a b c. unfold char_le. lia. Qed.
#[export] Instance char_le_antisymm : AntiSymm (=) char_le.
Proof.
  intros a b ??. rewrite <-(ascii_N_embedding a), <-(ascii_N_embedding b).
  f_equal. unfold char_le in *. lia.
Qed.

(** The letters of a name: sorted and deduplicated. *)
Definition service_letters (services : list Service) : list ascii :=
  dedup (sort_by char_le (letter <$> services)).

Definition object_name (node_id : string) (services : list Service) : string :=
  node_id +:+ "." +:+ of_bytes (service_letters services) +:+ ".json".

(** The services of a letter sequence in canonical order, unknown letters
    dropped. *)
Definition services_of_letters (letters : string) : list Service :=
  sort_by service_le (omap from_letter (bytes letters)).

Definition parse_object_name (name : string) : option (string * list Service) :=
  stem ← strip_suffix ".json" name;
  '(node_id, letters) ← rsplit_once "." stem;
  if is_empty node_id then None else Some (node_id, services_of_letters letters).

(** The observability body. *)
Record ServiceSummary := { ss_service : Service; ss_running : N; ss_backoff : N }.
Definition ServiceSummary_empty (service : Service) : ServiceSummary :=
  {| ss_service := service; ss_running := 0; ss_backoff := 0 |}.

Record Heartbeat := {
  hb_version : N;
  hb_node_id : string;
  hb_sleet_version : string;
  hb_slatedb_version : string;
  hb_services : list ServiceSummary;
}.
(** [env!("CARGO_PKG_VERSION")] is fixed by the build. *)
Definition Heartbeat_new (cargo_pkg_version node_id slatedb_version : string)
    (services : list ServiceSummary) : Heartbeat := {|
  hb_version := VERSION;
  hb_node_id := node_id;
  hb_sleet_version := cargo_pkg_version;
  hb_slatedb_version := slatedb_version;
  hb_services := services;
|}.

Example heartbeat_names :
  object_name "sleet-1" [CompactionWorkers; Gc; CompactorCoordinator; Gc] = "sleet-1.cgw.json" ∧
  parse_object_name "sleet-1.cgmw.json" = Some ("sleet-1", ALL) ∧
  parse_object_name "sleet-2.gx.json" = Some ("sleet-2", [Gc]) ∧
  parse_object_name "nodot.json" = None ∧ parse_object_name ".g.json" = None ∧
  parse_object_name "no-extension.cgw" = None.
Proof. by vm_compute. Qed.

(** ** Letters *)
Lemma elem_of_service_letters c services :
  c ∈ service_letters services ↔ ∃ s, c = letter s ∧ s ∈ services.
Proof. unfold service_letters. by rewrite elem_of_dedup, elem_of_sort_by, list_elem_of_fmap. Qed.

Lemma NoDup_service_letters services : NoDup (service_letters services).
Proof. eapply NoDup_dedup, sort_by_sorted; apply _. Qed.

Lemma service_letters_sorted services : StronglySorted char_le (service_letters services).
Proof. apply dedup_sorted, sort_by_sorted; apply _. Qed.

Lemma service_letters_set l k :
  (∀ s, s ∈ l ↔ s ∈ k) → service_letters l = service_letters k.
Proof.
  intros Hlk. apply (StronglySorted_unique char_le); try apply service_letters_sorted.
  apply NoDup_Permutation; try apply NoDup_service_letters.
  intros c. rewrite !elem_of_service_letters. by setoid_rewrite Hlk.
Qed.

Lemma dot_not_in_letters services : "."%char ∉ service_letters services.
Proof. rewrite elem_of_service_letters. by intros ([] & ? & _). Qed.

Lemma elem_of_services_of_letters s letters :
  s ∈ services_of_letters letters ↔ letter s ∈ bytes letters.
Proof.
  unfold services_of_letters. rewrite elem_of_sort_by, list_elem_of_omap. split.
  - intros (c & ? & ->%from_letter_Some). done.
  - intros ?. exists (letter s). by rewrite from_letter_letter.
Qed.

Lemma services_of_letters_sorted letters : StronglySorted service_le (services_of_letters letters).
Proof. apply sort_by_sorted; apply _. Qed.

Lemma NoDup_services_of_letters letters : NoDup (bytes letters) → NoDup (services_of_letters letters).
Proof.
  intros Hnd. apply NoDup_sort_by. induction Hnd as [|c l Hc Hnd IH]; simpl; [constructor|].
  destruct (from_letter c) as [s|] eqn:E; [|done]. apply from_letter_Some in E as ->.
  constructor; [|done]. rewrite list_elem_of_omap.
  by intros (c & ? & ->%from_letter_Some).
Qed.

(** The decoder accepts exactly the names of the documented shape. *)
Lemma parse_object_name_Some name id services :
  parse_object_name name = Some (id, services) ↔
  ∃ letters, name = id +:+ "." +:+ letters +:+ ".json" ∧ id ≠ EmptyString ∧
             "."%char ∉ bytes letters ∧ services = services_of_letters letters.
Proof.
  unfold parse_object_name, is_empty. rewrite bind_Some. split.
  - intros (stem & ->%strip_suffix_spec & Hs). apply bind_Some in Hs as ([i l] & Hr & Hs).
    apply rsplit_once_spec in Hr as [-> Hl]. case_bool_decide; simplify_eq.
    exists l. split_and!; try done. by rewrite !app_assoc.
  - intros (l & -> & Hid & Hl & ->). exists (id +:+ String "." l). split.
    + apply strip_suffix_spec. by rewrite !app_assoc.
    + apply bind_Some. exists (id, l). split; [by apply rsplit_once_spec|].
      by rewrite bool_decide_eq_false_2.
Qed.

(** What a node's own name decodes to. *)
Lemma parse_object_name_own id services :
  id ≠ EmptyString →
  parse_object_name (object_name id services) =
    Some (id, services_of_letters (of_bytes (service_letters services))).
Proof.
  intros Hid. apply parse_object_name_Some. eexists. split_and!; try done.
  rewrite bytes_of_bytes. apply dot_not_in_letters.
Qed.

Lemma elem_of_own_services s services :
  s ∈ services_of_letters (of_bytes (service_letters services)) ↔ s ∈ services.
Proof.
  rewrite elem_of_services_of_letters, bytes_of_bytes, elem_of_service_letters.
  split; [by intros (t & ->%(inj letter) & ?)|eauto].
Qed.

(** ** The claims *)

(** C32: heartbeat names are a lossless encoding: the name written for a
    non-empty node id and any list of services decodes to the same id and to
    the same set of services, listed once each in canonical order; names agree
    exactly when the ids and the service sets do. *)
Theorem heartbeat_name_roundtrip id services :
  id ≠ EmptyString →
  (∃ services', parse_object_name (object_name id services) = Some (id, services') ∧
     (∀ s, s ∈ services' ↔ s ∈ services) ∧ NoDup services' ∧ StronglySorted service_le services') ∧
  (∀ id' services2, id' ≠ EmptyString →
     object_name id services = object_name id' services2 ↔
     id = id' ∧ ∀ s, s ∈ services ↔ s ∈ services2).
Proof.
  intros Hid. split.
  - eexists. split; [by apply parse_object_name_own|]. split; [intros; apply elem_of_own_services|]. split.
    + apply NoDup_services_of_letters. rewrite bytes_of_bytes. apply NoDup_service_letters.
    + apply services_of_letters_sorted.
  - intros id' services2 Hid'. split.
    + intros E. pose proof (parse_object_name_own id services Hid) as H1.
      rewrite E, parse_object_name_own in H1 by done. injection H1 as -> H1. split; [done|].
      intros s. by rewrite <-(elem_of_own_services s services), <-H1, elem_of_own_services.
    + intros [-> Hs]. unfold object_name. by rewrite (service_letters_set _ _ Hs).
Qed.

Lemma heartbeat_name_roundtrip_witness :
  object_name "n" [Gc; Mirror] = object_name "n" [Mirror; Gc; Mirror].
Proof.
  apply (proj2 (heartbeat_name_roundtrip "n" [Gc; Mirror] ltac:(discriminate))); [discriminate|].
  split; [reflexivity|]. intros []; set_solver.
Defined.

(** A node id passes the check exactly when it is 1 to 128 bytes of
    letters, digits, underscore and dash, and comes back unchanged; such an id
    holds neither the name separator nor a path separator, so its heartbeat is
    one object under [nodes/], and the name is read back as that node's. *)
Theorem validate_node_id_spec id r :
  validate_node_id id = Ok r ↔
  r = id ∧ 1 ≤ String.length id ≤ 128 ∧ (∀ c, c ∈ bytes id → node_id_char c = true) ∧
  "."%char ∉ bytes id ∧ "/"%char ∉ bytes id ∧
  (∀ services, "/"%char ∉ bytes (object_name id services) ∧
               fst <$> parse_object_name (object_name id services) = Some id).
Proof.
  unfold validate_node_id, is_empty. split.
  - case_match eqn:Hok; [|done]. intros [= <-].
    apply andb_prop in Hok as [[Hne Hlen]%andb_prop Hall].
    rewrite all_bytes_spec in Hall. apply bool_decide_eq_true in Hlen.
    apply negb_true_iff, bool_decide_eq_false in Hne.
    assert (Hno : ∀ c, node_id_char c = false → c ∉ bytes id).
    { intros c Hc Hin. by rewrite (Hall c Hin) in Hc. }
    split_and!; try done; try by apply Hno.
    + destruct id; simpl; [done|lia].
    + intros services. split.
      * unfold object_name. rewrite !bytes_app, bytes_of_bytes, !elem_of_app.
        rewrite elem_of_service_letters. intros [Hin|[Hin|[([] & ? & _)|Hin]]]; try done.
        -- by apply (Hno "/"%char).
        -- apply list_elem_of_singleton in Hin. done.
        -- simpl in Hin. set_solver.
      * by rewrite parse_object_name_own.
  - intros (-> & Hlen & Hall & _). rewrite (proj2 (all_bytes_spec _ _) Hall).
    rewrite bool_decide_eq_false_2 by (intros ->; simpl in Hlen; lia).
    by rewrite bool_decide_eq_true_2 by lia.
Qed.
