(* ===== verification/Store.v ===== *)
(** * The object store a fleet root lives in

    The [object_store] crate is third-party code: paths and the payload of a
    failure are parameters ([StoreLib]).  What the program inspects of an
    answer is modelled: whether an error is [NotFound] or [AlreadyExists], and
    the listed metadata. *)

From S2P Require Import Prelude.

Class StoreLib := {
  StorePath : Type;
  StorePath_eq_dec :: EqDecision StorePath;
  StorePath_countable :: Countable StorePath;
  (** [Path::filename]: the last segment. *)
  filename : StorePath → option string;
  (** [Path::join]: append one percent-encoded segment. *)
  path_join : StorePath → string → StorePath;
  (** [Path::parse]: [None] where it fails. *)
  path_parse : string → option StorePath;
  (** [Display]. *)
  path_display : StorePath → string;
}.

(** [object_store::Error], by the cases the program tells apart; the rest is
    represented by its message. *)
Inductive StoreError :=
  | NotFound (path : string)
  | AlreadyExists
  | StoreFailure (message : string).

#[export] Instance store_error_eq_dec : EqDecision StoreError.
Proof. solve_decision. Defined.

(** [Display for object_store::Error]: the text carries no meaning for the
    program; it ends up in warnings. *)
Definition display_store_error (e : StoreError) : string :=
  match e with
  | NotFound path => "Object at location " +:+ path +:+ " not found"
  | AlreadyExists => "already exists"
  | StoreFailure message => message
  end.

(** Instants of the store's and the reader's clocks: nanoseconds since the
    epoch, possibly negative ([chrono::DateTime<Utc>]). *)
Abbreviation Instant := Z (only parsing).

Section meta.
Context `{StoreLib}.

(** [ObjectMeta] without the version. *)
Record ObjectMeta := {
  location : StorePath;
  last_modified : Instant;
  size : N;
  e_tag : option string;
}.
End meta.

(** [(now - last_modified).to_std().unwrap_or_default()]: a negative age,
    from clock skew, counts as zero. *)
Definition to_age (now modified : Instant) : Duration :=
  if decide (0 ≤ now - modified)%Z then Z.to_N (now - modified) else 0%N.

Lemma to_age_Z now modified : Z.of_N (to_age now modified) = Z.max 0 (now - modified).
Proof. unfold to_age. case_decide; lia. Qed.

(** Paths as segment lists: an executable instance for the witnesses. *)
Module Concrete.

Fixpoint split_slash (s : string) : list string :=
  match s with
  | EmptyString => [EmptyString]
  | String c s' =>
      if decide (c = Ascii.Ascii true true true true false true false false) then EmptyString :: split_slash s'
      else match split_slash s' with
           | seg :: rest => String c seg :: rest
           | [] => [String c EmptyString]
           end
  end.
#[export] Instance store_lib : StoreLib := {|
  StorePath := list string;
  filename := last;
  path_join p s := p ++ [s];
  path_parse s := Some (split_slash s);
  path_display p := String.concat "/" p;
|}.
End Concrete.
