(* ===== verification/Root.v ===== *)
(** * The fleet root's liveness read (src/root.rs)

    [list_heartbeats] turns a listing of [nodes/] into parsed entries with
    ages, [youngest_per_node] keeps one entry per node and [node_view] the
    live ones.  The theorems say precisely which nodes every reader of the
    same listing sees, and with which services. *)

From S2P Require Import Prelude Order Text Service Heartbeat Store.

Section root.
Context `{StoreLib}.

Record FleetRoot := { fr_prefix : StorePath; fr_url : string }.

Definition config_path (root : FleetRoot) : StorePath := path_join (fr_prefix root) "sleet.toml".
Definition dbs_prefix (root : FleetRoot) : StorePath := path_join (fr_prefix root) "dbs".
Definition nodes_prefix (root : FleetRoot) : StorePath := path_join (fr_prefix root) "nodes".
Definition node_path (root : FleetRoot) (object_name : string) : StorePath :=
  path_join (nodes_prefix root) object_name.

(** LIST a prefix, treating a missing prefix as empty: [answer] is what the
    store's listing stream collected to. *)
Definition list_prefix (answer : Result StoreError (list ObjectMeta))
    : Result StoreError (list ObjectMeta) :=
  match answer with
  | Ok metas => Ok metas
  | Err (NotFound _) => Ok []
  | Err e => Err e
  end.

Record HeartbeatEntry := {
  he_node_id : string;
  he_services : list Service;
  he_age : Duration;
  he_location : StorePath;
}.

(** The loop body of [list_heartbeats]: objects that are not heartbeats are
    skipped. *)
Definition heartbeat_entry (now : Instant) (meta : ObjectMeta) : option HeartbeatEntry :=
  name ← filename (location meta);
  '(node_id, services) ← parse_object_name name;
  Some {| he_node_id := node_id; he_services := services;
          he_age := to_age now (last_modified meta); he_location := location meta |}.

Definition list_heartbeats (now : Instant) (answer : Result StoreError (list ObjectMeta))
    : Result StoreError (list HeartbeatEntry) :=
  match list_prefix answer with
  | Ok metas => Ok (omap (heartbeat_entry now) metas)
  | Err e => Err e
  end.

Record NodeView := {
  nv_node_id : string;
  nv_services : list Service;
  nv_age : Duration;
}.

(** One entry of the fold of [youngest_per_node]. *)
Definition keep_youngest (by_id : gmap string HeartbeatEntry) (entry : HeartbeatEntry)
    : gmap string HeartbeatEntry :=
  match by_id !! he_node_id entry with
  | Some existing =>
      if decide (he_age existing ≤ he_age entry)%N then by_id
      else <[he_node_id entry := entry]> by_id
  | None => <[he_node_id entry := entry]> by_id
  end.

Definition youngest_per_node (entries : list HeartbeatEntry) : gmap string HeartbeatEntry :=
  fold_left keep_youngest entries ∅.

Definition entry_view (e : HeartbeatEntry) : NodeView :=
  {| nv_node_id := he_node_id e; nv_services := he_services e; nv_age := he_age e |}.

Definition node_view (entries : list HeartbeatEntry) (heartbeat_timeout : Duration) : list NodeView :=
  entry_view <$>
    filter (λ e, (he_age e < heartbeat_timeout)%N) (btree_values (youngest_per_node entries)).

(** ** The youngest heartbeat *)

(** [e] is the entry that stands for its node: strictly younger than the
    earlier ones of the listing, no older than the later ones. *)
Definition represents (entries : list HeartbeatEntry) (e : HeartbeatEntry) : Prop :=
  ∃ l1 l2, entries = l1 ++ e :: l2 ∧
    (∀ e', e' ∈ l1 → he_node_id e' = he_node_id e → (he_age e < he_age e')%N) ∧
    (∀ e', e' ∈ l2 → he_node_id e' = he_node_id e → (he_age e ≤ he_age e')%N).

Lemma youngest_snoc entries e :
  youngest_per_node (entries ++ [e]) = keep_youngest (youngest_per_node entries) e.
Proof. unfold youngest_per_node. by rewrite fold_left_app. Qed.

Lemma represents_elem entries e : represents entries e → e ∈ entries.
Proof. intros (l1 & l2 & -> & _). set_solver. Qed.

Lemma represents_youngest entries e e' :
  represents entries e → e' ∈ entries → he_node_id e' = he_node_id e → (he_age e ≤ he_age e')%N.
Proof.
  intros (l1 & l2 & -> & H1 & H2) [Hin|[->|Hin]%elem_of_cons]%elem_of_app Hid; auto.
  by apply N.lt_le_incl, H1.
Qed.

Lemma represents_snoc_old entries e e' :
  represents entries e → (he_node_id e' = he_node_id e → (he_age e ≤ he_age e')%N) →
  represents (entries ++ [e']) e.
Proof.
  intros (l1 & l2 & -> & H1 & H2) Hle. exists l1, (l2 ++ [e']).
  split; [by rewrite <-(assoc_L (++))|]. split; [done|].
  intros e'' [?| ->%list_elem_of_singleton]%elem_of_app; auto.
Qed.

Lemma represents_snoc_new entries e :
  (∀ e', e' ∈ entries → he_node_id e' = he_node_id e → (he_age e < he_age e')%N) →
  represents (entries ++ [e]) e.
Proof. intros Hlt. exists entries, []. split_and!; [done|done|]. intros ? []%elem_of_nil. Qed.

(** A fresh heartbeat stands for its node. *)
Lemma represents_cons_fresh e entries x :
  he_age e = 0%N →
  represents (e :: entries) x ↔ x = e ∨ (he_node_id x ≠ he_node_id e ∧ represents entries x).
Proof.
  intros Hage. split.
  - intros (l1 & l2 & Hl & H1 & H2). destruct l1 as [|e1 l1]; injection Hl as -> Hl; [by left|right].
    split; [|by exists l1, l2; split_and!; auto; intros; apply H1; [set_solver|done]].
    intros Hid. specialize (H1 e1 ltac:(set_solver) (eq_sym Hid)). lia.
  - intros [->|[Hid (l1 & l2 & -> & H1 & H2)]].
    + exists [], entries. split_and!; [done|by intros ? ?%elem_of_nil|intros; lia].
    + exists (e :: l1), l2. split_and!; [done| |done].
      intros e' [->|?]%elem_of_cons ?; [congruence|auto].
Qed.

(** The map holds exactly the representatives, and one for every id. *)
Lemma youngest_per_node_spec entries id :
  match youngest_per_node entries !! id with
  | Some e => he_node_id e = id ∧ represents entries e
  | None => ∀ e, e ∈ entries → he_node_id e ≠ id
  end.
Proof.
  induction entries as [|e entries IH] using rev_ind.
  { unfold youngest_per_node. simpl. rewrite lookup_empty. by intros ? ?%elem_of_nil. }
  rewrite youngest_snoc. unfold keep_youngest.
  destruct (decide (he_node_id e = id)) as [<-|Hne].
  - destruct (youngest_per_node entries !! he_node_id e) as [e0|] eqn:E.
    + destruct IH as [Hid Hrep]. case_decide as Hle.
      * rewrite E. eauto using represents_snoc_old.
      * rewrite lookup_insert_eq. split; [done|]. apply represents_snoc_new. intros e' He' Hid'.
        apply N.nle_gt in Hle. eapply N.lt_le_trans; [done|].
        by eapply represents_youngest; [|done|congruence].
    + rewrite lookup_insert_eq. split; [done|]. apply represents_snoc_new. naive_solver.
  - assert (Hsame : ∀ m : gmap string HeartbeatEntry,
      (<[he_node_id e:=e]> m) !! id = m !! id) by (intros; by apply lookup_insert_ne).
    assert (Hgoal : match youngest_per_node entries !! id with
      | Some e0 => he_node_id e0 = id ∧ represents (entries ++ [e]) e0
      | None => ∀ e0, e0 ∈ entries ++ [e] → he_node_id e0 ≠ id end).
    { destruct (youngest_per_node entries !! id) as [e0|].
      - destruct IH as [<- ?]. split; [done|]. apply represents_snoc_old; [done|congruence].
      - intros e0 [?| ->%list_elem_of_singleton]%elem_of_app; auto. }
    destruct (youngest_per_node entries !! he_node_id e); [case_decide|]; by rewrite ?Hsame.
Qed.

Lemma youngest_lookup entries id e :
  youngest_per_node entries !! id = Some e ↔ he_node_id e = id ∧ represents entries e.
Proof.
  pose proof (youngest_per_node_spec entries id) as Hs. split.
  - intros E. by rewrite E in Hs.
  - intros [<- Hr]. destruct (youngest_per_node entries !! he_node_id e) as [e0|]; cycle 1.
    { exfalso. eapply Hs; [by apply represents_elem|done]. }
    f_equal. destruct Hs as [Hid (k1 & k2 & Hk & K1 & K2)], Hr as (l1 & l2 & Hl & L1 & L2).
    rewrite Hl in Hk. clear Hl.
    destruct (list.app_eq_inv _ _ _ _ Hk) as [(k & -> & Hk')|(k & -> & Hk')];
      destruct k as [|x k]; simplify_eq/=; try done; exfalso.
    + specialize (K2 e ltac:(set_solver) (eq_sym Hid)). specialize (L1 x ltac:(set_solver) Hid). lia.
    + specialize (L2 e0 ltac:(set_solver) Hid). specialize (K1 x ltac:(set_solver) (eq_sym Hid)). lia.
Qed.

Lemma elem_of_node_view entries timeout v :
  v ∈ node_view entries timeout ↔
  ∃ e, represents entries e ∧ (he_age e < timeout)%N ∧ v = entry_view e.
Proof.
  unfold node_view. rewrite list_elem_of_fmap. split.
  - intros (e & -> & [? (id & [_ ?]%youngest_lookup)%elem_of_btree_values]%list_elem_of_filter). eauto.
  - intros (e & ? & ? & ->). exists e. split; [done|]. apply list_elem_of_filter. split; [done|].
    apply elem_of_btree_values. exists (he_node_id e). by apply youngest_lookup.
Qed.

(** The ids of the view are those of the map's entries that are young. *)
Lemma node_view_ids entries timeout :
  nv_node_id <$> node_view entries timeout =
    fst <$> filter (λ p, (he_age p.2 < timeout)%N) (btree_iter (youngest_per_node entries)).
Proof.
  unfold node_view, btree_values. rewrite filter_fmap, <-!list_fmap_compose.
  apply Forall_fmap_ext_1, Forall_forall. intros [id e] [_ Hin]%list_elem_of_filter. simpl.
  apply elem_of_btree_iter, youngest_lookup in Hin. naive_solver.
Qed.

Lemma node_view_sorted entries timeout :
  StronglySorted String.le (nv_node_id <$> node_view entries timeout) ∧
  NoDup (nv_node_id <$> node_view entries timeout).
Proof.
  rewrite node_view_ids. split.
  - apply (StronglySorted_fmap fst entry_le); [by intros [] []|].
    apply StronglySorted_filter, sort_by_sorted; apply _.
  - eapply sublist_NoDup; [apply (NoDup_btree_keys (youngest_per_node entries))|].
    apply fmap_sublist, sublist_filter.
Qed.

(** The live set of a listing: [node_view] returns one view for each node
    with a heartbeat younger than the timeout, in ascending order of ids and
    never twice; the view carries the id, services and age of the node's
    youngest heartbeat, the first one listed when several are equally young. *)
Theorem node_view_spec entries timeout :
  (∀ v, v ∈ node_view entries timeout ↔
     ∃ e, represents entries e ∧ (he_age e < timeout)%N ∧ v = entry_view e) ∧
  (∀ id, id ∈ nv_node_id <$> node_view entries timeout ↔
     ∃ e, e ∈ entries ∧ he_node_id e = id ∧ (he_age e < timeout)%N) ∧
  StronglySorted String.le (nv_node_id <$> node_view entries timeout) ∧
  NoDup (nv_node_id <$> node_view entries timeout).
Proof.
  split; [apply elem_of_node_view|]. split; [|apply node_view_sorted].
  intros id. rewrite list_elem_of_fmap. setoid_rewrite elem_of_node_view. split.
  - intros (? & -> & e & ? & ? & ->). exists e. eauto using represents_elem.
  - intros (e & Hin & <- & Hage). pose proof (youngest_per_node_spec entries (he_node_id e)) as Hs.
    destruct (youngest_per_node entries !! he_node_id e) as [e0|]; [|by destruct (Hs e)].
    destruct Hs as [Hid Hrep]. exists (entry_view e0). split; [done|]. exists e0.
    split_and!; try done. eapply N.le_lt_trans; [|done]. by eapply represents_youngest.
Qed.

(** What a reader gets from a listed object, for a name its node wrote. *)
Lemma heartbeat_entry_own now meta id services :
  id ≠ EmptyString → filename (location meta) = Some (object_name id services) →
  ∃ e, heartbeat_entry now meta = Some e ∧ he_node_id e = id ∧
       (∀ s, s ∈ he_services e ↔ s ∈ services) ∧ he_age e = to_age now (last_modified meta).
Proof.
  intros Hid Hname. unfold heartbeat_entry. rewrite Hname. simpl.
  rewrite parse_object_name_own by done. simpl. eexists. split_and!; try done.
  intros s. apply elem_of_own_services.
Qed.

(** A node that published a heartbeat recently is live for every reader:
    if the listing holds the object the node wrote and its age by the reader's
    clock is below the timeout, the node is in the view, no older than that;
    and when every other heartbeat object of the node in the listing is older
    (it renamed itself after a role change), the view offers exactly the
    services it published, old names notwithstanding. *)
Theorem published_node_seen now metas timeout id services meta :
  id ≠ EmptyString →
  meta ∈ metas →
  filename (location meta) = Some (object_name id services) →
  (to_age now (last_modified meta) < timeout)%N →
  ∃ entries v,
    list_heartbeats now (Ok metas) = Ok entries ∧ v ∈ node_view entries timeout ∧
    nv_node_id v = id ∧ (nv_age v ≤ to_age now (last_modified meta))%N ∧
    ((∀ meta' e', meta' ∈ metas → heartbeat_entry now meta' = Some e' → he_node_id e' = id →
        meta' = meta ∨ (to_age now (last_modified meta) < he_age e')%N) →
     ∀ s, s ∈ nv_services v ↔ s ∈ services).
Proof.
  intros Hid Hin Hname Hage. simpl. eexists. 
  destruct (heartbeat_entry_own now meta id services Hid Hname) as (e & He & Hide & Hsvc & Ha).
  assert (Hmem : e ∈ omap (heartbeat_entry now) metas) by (apply list_elem_of_omap; eauto).
  pose proof (youngest_per_node_spec (omap (heartbeat_entry now) metas) id) as Hs.
  destruct (youngest_per_node _ !! id) as [e0|]; [|by destruct (Hs e)].
  destruct Hs as [Hid0 Hrep].
  assert (Hle : (he_age e0 ≤ he_age e)%N) by (eapply represents_youngest; eauto; congruence).
  exists (entry_view e0). split; [done|]. split.
  { apply elem_of_node_view. exists e0. split_and!; [done|lia|done]. }
  split; [done|]. split; [simpl; lia|].
  intros Hothers. apply represents_elem, list_elem_of_omap in Hrep as (m0 & Hm0 & He0).
  destruct (Hothers m0 e0 Hm0 He0 Hid0) as [->|?]; [|lia]. simplify_eq. apply Hsvc.
Qed.

End root.

(** A role change: node [a] renamed from gc to gc and mirror. *)
Lemma published_node_seen_witness :
  let old := {| location := ["fleet"; "nodes"; "a.g.json"] : @StorePath Store.Concrete.store_lib;
                last_modified := 0; size := 0; e_tag := None |} in
  let new := {| location := ["fleet"; "nodes"; "a.gm.json"] : @StorePath Store.Concrete.store_lib;
                last_modified := 7; size := 0; e_tag := None |} in
  ∃ entries v, list_heartbeats 10 (Ok [old; new]) = Ok entries ∧ v ∈ node_view entries 5 ∧
    nv_node_id v = "a".
Proof.
  intros old new.
  destruct (published_node_seen 10 [old; new] 5 "a" [Mirror; Gc] new
    ltac:(discriminate) ltac:(set_solver) eq_refl eq_refl) as (es & v & ? & ? & ? & _).
  exists es, v. done.
Defined.
