(* ===== verification/Testing.v ===== *)
(** * The instrumented store of the test suites (src/testing.rs)

    [TestStore] decorates an object store with call counters, deterministic
    faults and a simulated [LastModified] that follows a [TestClock].  The
    store it decorates is a parameter ([InnerStore]).  The shared, locked
    parts are threaded as one state; a stream is the list of what it yields
    once consumed.

    The theorems: which calls fail is a function of the calls alone, exactly
    as scripted; the generator behind random faults never gets stuck; and the
    ages that readers compute follow virtual time. *)

From Stdlib Require Import QArith.
From stdpp Require Import gmap.
From S2P Require Import Prelude Text Service Heartbeat Store Root.
#[local] Open Scope nat_scope.

(** [enum Op] *)
Inductive Op := OpGet | OpPut | OpList | OpDelete | OpCopy.
#[export] Instance op_eq_dec : EqDecision Op.
Proof. solve_decision. Defined.
#[export] Instance op_countable : Countable Op.
Proof.
  refine (inj_countable' (λ o, match o with OpGet => 0 | OpPut => 1 | OpList => 2 | OpDelete => 3 | OpCopy => 4 end)
    (λ n, match n with 0 => OpGet | 1 => OpPut | 2 => OpList | 3 => OpDelete | _ => OpCopy end) _).
  by intros [].
Defined.

Definition debug_op (op : Op) : string :=
  match op with OpGet => "Get" | OpPut => "Put" | OpList => "List" | OpDelete => "Delete" | OpCopy => "Copy" end.

Record Counters := { ct_get : N; ct_put : N; ct_list : N; ct_delete : N; ct_copy : N }.
Definition Counters_default : Counters := Build_Counters 0 0 0 0 0.
(** [Counters::cell], read and written. *)
Definition count (c : Counters) (op : Op) : N :=
  match op with
  | OpGet => ct_get c | OpPut => ct_put c | OpList => ct_list c | OpDelete => ct_delete c | OpCopy => ct_copy c
  end.
Definition set_count (c : Counters) (op : Op) (n : N) : Counters :=
  match op with
  | OpGet => Build_Counters n (ct_put c) (ct_list c) (ct_delete c) (ct_copy c)
  | OpPut => Build_Counters (ct_get c) n (ct_list c) (ct_delete c) (ct_copy c)
  | OpList => Build_Counters (ct_get c) (ct_put c) n (ct_delete c) (ct_copy c)
  | OpDelete => Build_Counters (ct_get c) (ct_put c) (ct_list c) n (ct_copy c)
  | OpCopy => Build_Counters (ct_get c) (ct_put c) (ct_list c) (ct_delete c) n
  end.
(** [fetch_add] wraps. *)
Definition bump (c : Counters) (op : Op) : Counters := set_count c op (wrap64 (count c op + 1)).

(** A probability is a rational here: every finite [f64] is one. *)
Record Faults := {
  fa_next : gmap Op N;
  fa_always : gmap Op bool;
  fa_probability : option (Q * N);
  fa_latency : gmap Op Duration;
}.
Definition Faults_default : Faults :=
  {| fa_next := ∅; fa_always := ∅; fa_probability := None; fa_latency := ∅ |}.

(** The three statements of xorshift64 on a [u64]. *)
Definition xorshift (seed : N) : N :=
  let seed := N.lxor seed (wrap64 (N.shiftl seed 13)) in
  let seed := N.lxor seed (N.shiftr seed 7) in
  N.lxor seed (wrap64 (N.shiftl seed 17)).
(** [(seed >> 11) as f64 / (1u64 << 53) as f64]: 53 bits over a power of two,
    so both conversions and the division are exact. *)
Definition roll (seed : N) : Q := Qmake (Z.of_N (N.shiftr seed 11)) (2 ^ 53).
Definition rolls_fault (p : Q) (seed : N) : bool := negb (Qle_bool p (roll seed)).

Definition fault (op : Op) : StoreError := StoreFailure ("injected " +:+ debug_op op +:+ " fault").

(** ** The clock *)

(** The [chrono] crate: conversion of a [std] duration, and [DateTime += Duration];
    [None] where they panic. *)
Class ChronoLib := {
  from_std : Duration → option Z;
  add_duration : Instant → Z → option Instant;
}.
(** [TestClock::advance] on the locked time. *)
Definition advance `{ChronoLib} (now : Instant) (by_ : Duration) : option Instant :=
  d ← from_std by_; add_duration now d.

(** ** The store *)

(** The decorated store: [object_store::ObjectStore]'s methods on a state [S],
    with the crate's types for payloads, options and handles. *)
Class InnerStore `{StoreLib} (S : Type) := {
  PutPayload : Type; PutOptions : Type; PutResult : Type;
  PutMultipartOptions : Type; MultipartUpload : Type;
  GetOptions : Type; GetPayload : Type; ByteRange : Type; Bytes : Type;
  CopyOptions : Type;
  inner_put : StorePath → PutPayload → PutOptions → S → S * Result StoreError PutResult;
  inner_put_multipart : StorePath → PutMultipartOptions → S → S * Result StoreError MultipartUpload;
  inner_get : StorePath → GetOptions → S → Result StoreError (ObjectMeta * GetPayload);
  inner_get_ranges : StorePath → list ByteRange → S → Result StoreError (list Bytes);
  inner_delete_stream : list (Result StoreError StorePath) → S → S * list (Result StoreError StorePath);
  inner_list : option StorePath → S → list (Result StoreError ObjectMeta);
  inner_list_with_offset : option StorePath → StorePath → S → list (Result StoreError ObjectMeta);
  inner_list_with_delimiter : option StorePath → S → Result StoreError (list StorePath * list ObjectMeta);
  inner_copy : StorePath → StorePath → CopyOptions → S → S * Result StoreError unit;
}.

Section store.
Context `{HSL : StoreLib} {S : Type} `{HIS : !InnerStore S}.

(** [ts_clock] is the shared clock's reading, [ts_slept] the time the calls
    spent in [tokio::time::sleep], which does not move that clock. *)
Record TestStore := {
  ts_inner : S;
  ts_counters : Counters;
  ts_faults : Faults;
  ts_clock : option Instant;
  ts_times : gmap StorePath Instant;
  ts_slept : Duration;
}.

(** [TestStore::new], and [in_memory_at] around an empty store. *)
Definition TestStore_new (inner : S) : TestStore :=
  {| ts_inner := inner; ts_counters := Counters_default; ts_faults := Faults_default; ts_clock := None;
     ts_times := ∅; ts_slept := 0 |}.
Definition in_memory_at (empty : S) (clock : Instant) : TestStore :=
  {| ts_inner := empty; ts_counters := Counters_default; ts_faults := Faults_default; ts_clock := Some clock;
     ts_times := ∅; ts_slept := 0 |}.

Definition set_inner (st : TestStore) (inner : S) : TestStore :=
  {| ts_inner := inner; ts_counters := ts_counters st; ts_faults := ts_faults st; ts_clock := ts_clock st;
     ts_times := ts_times st; ts_slept := ts_slept st |}.
Definition set_faults (st : TestStore) (faults : Faults) : TestStore :=
  {| ts_inner := ts_inner st; ts_counters := ts_counters st; ts_faults := faults; ts_clock := ts_clock st;
     ts_times := ts_times st; ts_slept := ts_slept st |}.
Definition set_times (st : TestStore) (times : gmap StorePath Instant) : TestStore :=
  {| ts_inner := ts_inner st; ts_counters := ts_counters st; ts_faults := ts_faults st; ts_clock := ts_clock st;
     ts_times := times; ts_slept := ts_slept st |}.
Definition set_clock (st : TestStore) (now : Instant) : TestStore :=
  {| ts_inner := ts_inner st; ts_counters := ts_counters st; ts_faults := ts_faults st;
     ts_clock := (λ _, now) <$> ts_clock st; ts_times := ts_times st; ts_slept := ts_slept st |}.

(** ** Fault injection *)

(** [None] is the overflow of [+=], which panics where the tests run. *)
Definition fail_next (st : TestStore) (op : Op) (n : N) : option TestStore :=
  let f := ts_faults st in
  let total := (default 0 (fa_next f !! op) + n)%N in
  if decide (total ≤ U64_MAX)%N then
    Some (set_faults st {| fa_next := <[op := total]> (fa_next f); fa_always := fa_always f;
                           fa_probability := fa_probability f; fa_latency := fa_latency f |})
  else None.
Definition fail_all (st : TestStore) (op : Op) : TestStore :=
  let f := ts_faults st in
  set_faults st {| fa_next := fa_next f; fa_always := <[op := true]> (fa_always f);
                   fa_probability := fa_probability f; fa_latency := fa_latency f |}.
Definition fail_probability (st : TestStore) (p : Q) (seed : N) : TestStore :=
  let f := ts_faults st in
  set_faults st {| fa_next := fa_next f; fa_always := fa_always f;
                   fa_probability := Some (p, N.max seed 1); fa_latency := fa_latency f |}.
Definition set_latency (st : TestStore) (op : Op) (by_ : Duration) : TestStore :=
  let f := ts_faults st in
  set_faults st {| fa_next := fa_next f; fa_always := fa_always f;
                   fa_probability := fa_probability f; fa_latency := <[op := by_]> (fa_latency f) |}.
Definition heal (st : TestStore) : TestStore := set_faults st Faults_default.
Definition latency (st : TestStore) (op : Op) : option Duration := fa_latency (ts_faults st) !! op.

(** [check], past the counter: the faults afterwards and whether the call
    fails. *)
Definition draw_fault (f : Faults) (op : Op) : Faults * bool :=
  if default false (fa_always f !! op) then (f, true)
  else
    match fa_next f !! op with
    | Some (Npos _ as n) =>
        ({| fa_next := <[op := N.pred n]> (fa_next f); fa_always := fa_always f;
            fa_probability := fa_probability f; fa_latency := fa_latency f |}, true)
    | _ =>
        match fa_probability f with
        | Some (p, seed) =>
            let seed := xorshift seed in
            ({| fa_next := fa_next f; fa_always := fa_always f;
                fa_probability := Some (p, seed); fa_latency := fa_latency f |}, rolls_fault p seed)
        | None => (f, false)
        end
    end.
Definition check (st : TestStore) (op : Op) : TestStore * Result StoreError unit :=
  let '(f, fails) := draw_fault (ts_faults st) op in
  ({| ts_inner := ts_inner st; ts_counters := bump (ts_counters st) op; ts_faults := f; ts_clock := ts_clock st;
      ts_times := ts_times st; ts_slept := ts_slept st |},
   if fails then Err (fault op) else Ok ()).

(** [check(op)?; k] *)
Definition checked {T} (st : TestStore) (op : Op) (k : TestStore → TestStore * Result StoreError T)
    : TestStore * Result StoreError T :=
  match check st op with
  | (st, Ok _) => k st
  | (st, Err e) => (st, Err e)
  end.
(** [if let Some(by) = self.latency(op) { sleep(by).await; }] *)
Definition delay (st : TestStore) (op : Op) : TestStore :=
  {| ts_inner := ts_inner st; ts_counters := ts_counters st; ts_faults := ts_faults st; ts_clock := ts_clock st;
     ts_times := ts_times st; ts_slept := ts_slept st + default 0%N (latency st op) |}.

(** ** Virtual time *)
Definition stamp (st : TestStore) (location : StorePath) : TestStore :=
  match ts_clock st with
  | Some now => set_times st (<[location := now]> (ts_times st))
  | None => st
  end.
Definition set_modified (st : TestStore) (location : StorePath) (time : Instant) : TestStore :=
  set_times st (<[location := time]> (ts_times st)).
Definition with_time (times : gmap StorePath Instant) (meta : ObjectMeta) : ObjectMeta :=
  match times !! location meta with
  | Some time => {| location := location meta; last_modified := time; size := size meta; e_tag := e_tag meta |}
  | None => meta
  end.
Definition restamp (st : TestStore) (meta : ObjectMeta) : ObjectMeta :=
  match ts_clock st with Some _ => with_time (ts_times st) meta | None => meta end.

(** ** The ObjectStore methods *)

(** [inner.call(..).await?; self.stamp(location); Ok(result)] *)
Definition stamped {T} (st : TestStore) (location : StorePath) (r : S * Result StoreError T)
    : TestStore * Result StoreError T :=
  let st := set_inner st r.1 in
  match r.2 with Ok x => (stamp st location, Ok x) | Err e => (st, Err e) end.

Definition put_opts (st : TestStore) (location : StorePath) (payload : PutPayload) (opts : PutOptions)
    : TestStore * Result StoreError PutResult :=
  checked st OpPut (λ st,
    let st := delay st OpPut in stamped st location (inner_put location payload opts (ts_inner st))).
Definition put_multipart_opts (st : TestStore) (location : StorePath) (opts : PutMultipartOptions)
    : TestStore * Result StoreError MultipartUpload :=
  checked st OpPut (λ st, stamped st location (inner_put_multipart location opts (ts_inner st))).
Definition get_opts (st : TestStore) (location : StorePath) (options : GetOptions)
    : TestStore * Result StoreError (ObjectMeta * GetPayload) :=
  checked st OpGet (λ st,
    let st := delay st OpGet in
    (st, (λ r : ObjectMeta * GetPayload, (restamp st r.1, r.2)) <$> inner_get location options (ts_inner st))).
Definition get_ranges (st : TestStore) (location : StorePath) (ranges : list ByteRange)
    : TestStore * Result StoreError (list Bytes) :=
  checked st OpGet (λ st, (st, inner_get_ranges location ranges (ts_inner st))).

(** A stream of one error when the check fails. *)
Definition checked_stream {T} (st : TestStore) (op : Op) (k : TestStore → TestStore * list (Result StoreError T))
    : TestStore * list (Result StoreError T) :=
  match check st op with
  | (st, Ok _) => k st
  | (st, Err e) => (st, [Err e])
  end.
Definition forget (times : gmap StorePath Instant) (r : Result StoreError StorePath) : gmap StorePath Instant :=
  match r with Ok path => delete path times | Err _ => times end.
Definition delete_stream (st : TestStore) (locations : list (Result StoreError StorePath))
    : TestStore * list (Result StoreError StorePath) :=
  checked_stream st OpDelete (λ st,
    let '(inner, results) := inner_delete_stream locations (ts_inner st) in
    (set_times (set_inner st inner) (fold_left forget results (ts_times st)), results)).
Definition list_ (st : TestStore) (prefix : option StorePath) : TestStore * list (Result StoreError ObjectMeta) :=
  checked_stream st OpList (λ st,
    let times := match ts_clock st with Some _ => ts_times st | None => ∅ end in
    (st, (λ r : Result StoreError ObjectMeta, with_time times <$> r) <$> inner_list prefix (ts_inner st))).
Definition list_with_offset (st : TestStore) (prefix : option StorePath) (offset : StorePath)
    : TestStore * list (Result StoreError ObjectMeta) :=
  checked_stream st OpList (λ st, (st, inner_list_with_offset prefix offset (ts_inner st))).
Definition list_with_delimiter (st : TestStore) (prefix : option StorePath)
    : TestStore * Result StoreError (list StorePath * list ObjectMeta) :=
  checked st OpList (λ st,
    (st, (λ r : list StorePath * list ObjectMeta, (r.1, restamp st <$> r.2)) <$>
           inner_list_with_delimiter prefix (ts_inner st))).
Definition copy_opts (st : TestStore) (from to : StorePath) (options : CopyOptions)
    : TestStore * Result StoreError unit :=
  checked st OpCopy (λ st, stamped st to (inner_copy from to options (ts_inner st))).

(** ** Scripted faults *)

(** The calls of an operation in a sequence. *)
Definition calls (op : Op) (ops : list Op) : N := N.of_nat (length (filter (.= op) ops)).
Definition scripted (f : Faults) (op : Op) : N := default 0%N (fa_next f !! op).
Definition always (f : Faults) (op : Op) : bool := default false (fa_always f !! op).
(** How many of them got past the scripted faults, for one operation and for
    all: these draw from the generator. *)
Definition past_script (f : Faults) (ops : list Op) (op : Op) : N :=
  if always f op then 0%N else (calls op ops - scripted f op)%N.
Definition ALL_OPS : list Op := [OpGet; OpPut; OpList; OpDelete; OpCopy].
Definition sum (l : list N) : N := foldr N.add 0%N l.
Definition drawn (f : Faults) (ops : list Op) : N := sum (past_script f ops <$> ALL_OPS).
(** The generator's state after [n] draws. *)
Definition draws (n : N) (seed : N) : N := N.iter n xorshift seed.

(** Whether the next call of [op] fails, after the calls [ops]. *)
Definition fails_after (f : Faults) (ops : list Op) (op : Op) : bool :=
  always f op || (calls op ops <? scripted f op)%N ||
  match fa_probability f with
  | Some (p, seed) => rolls_fault p (draws (drawn f ops + 1) seed)
  | None => false
  end.

Definition after (st : TestStore) (ops : list Op) : TestStore := fold_left (λ st op, (check st op).1) ops st.

Lemma calls_snoc op ops o : calls op (ops ++ [o]) = (calls op ops + if decide (o = op) then 1 else 0)%N.
Proof.
  unfold calls. rewrite filter_app, List.length_app, filter_cons, filter_nil.
  destruct (decide (o = op)); simpl; lia.
Qed.

Lemma drawn_snoc f ops o :
  drawn f (ops ++ [o]) = (drawn f ops + if always f o || (calls o ops <? scripted f o)%N then 0 else 1)%N.
Proof.
  assert (Hsame : ∀ o', o' ≠ o → past_script f (ops ++ [o]) o' = past_script f ops o').
  { intros o' Hne. unfold past_script. rewrite calls_snoc, decide_False by congruence. by rewrite N.add_0_r. }
  assert (Hone : past_script f (ops ++ [o]) o =
    (past_script f ops o + if always f o || (calls o ops <? scripted f o)%N then 0 else 1)%N).
  { unfold past_script. rewrite calls_snoc, decide_True by done. destruct (always f o); simpl; [done|].
    destruct (N.ltb_spec (calls o ops) (scripted f o)); lia. }
  revert Hone. generalize (if always f o || (calls o ops <? scripted f o)%N then 0%N else 1%N). intros k Hone.
  unfold drawn, ALL_OPS. cbn [fmap list_fmap sum foldr].
  destruct o; rewrite Hone, ?Hsame by done; lia.
Qed.

(** The faults after a sequence of calls. *)
Definition faults_after (f f' : Faults) (ops : list Op) : Prop :=
  fa_always f' = fa_always f ∧
  (∀ op, scripted f' op = if always f op then scripted f op else (scripted f op - calls op ops)%N) ∧
  fa_probability f' = (λ ps, (ps.1, draws (drawn f ops) ps.2)) <$> fa_probability f.

Lemma draw_fault_after f f' ops op :
  faults_after f f' ops →
  (draw_fault f' op).2 = fails_after f ops op ∧ faults_after f (draw_fault f' op).1 (ops ++ [op]).
Proof.
  intros (Ha & Hn & Hp). unfold fails_after.
  assert (Hal : always f' op = always f op) by (unfold always; by rewrite Ha).
  pose proof (Hn op) as Hop. pose proof (drawn_snoc f ops op) as Hd.
  assert (Hrest : ∀ o, op ≠ o → scripted f' o = if always f o then scripted f o else (scripted f o - calls o (ops ++ [op]))%N).
  { intros o Hne. rewrite Hn, calls_snoc, decide_False by done. by rewrite N.add_0_r. }
  unfold draw_fault. fold (always f' op). rewrite Hal.
  destruct (always f op) eqn:Eal; simpl in *.
  { split; [done|]. split; [done|]. rewrite Hd, N.add_0_r. split; [|done].
    intros o. destruct (decide (op = o)) as [<-|Hne]; [by rewrite Eal|auto]. }
  destruct (N.ltb_spec (calls op ops) (scripted f op)) as [Hlt|Hge]; simpl in *.
  - unfold scripted in Hop at 1. destruct (fa_next f' !! op) as [[|q]|] eqn:Eq; simpl in Hop; [lia| |lia].
    split; [done|]. split; [done|]. rewrite Hd, N.add_0_r. split; [|done].
    intros o. unfold scripted at 1. simpl. destruct (decide (op = o)) as [<-|Hne].
    + rewrite lookup_insert_eq, Eal, calls_snoc, decide_True by done. simpl. lia.
    + rewrite lookup_insert_ne by done. by apply Hrest.
  - assert (Hzero : match fa_next f' !! op with Some (Npos _) => False | _ => True end).
    { unfold scripted in Hop at 1. destruct (fa_next f' !! op) as [[|q]|]; [done| |done]. simpl in Hop. lia. }
    assert (Hsc : ∀ o, scripted f' o = if always f o then scripted f o else (scripted f o - calls o (ops ++ [op]))%N).
    { intros o. destruct (decide (op = o)) as [<-|Hne]; [|by apply Hrest].
      rewrite Hop, Eal, calls_snoc, decide_True by done. lia. }
    assert (Hres : match fa_next f' !! op with
      | Some (Npos _ as n) =>
          ({| fa_next := <[op := N.pred n]> (fa_next f'); fa_always := fa_always f';
              fa_probability := fa_probability f'; fa_latency := fa_latency f' |}, true)
      | _ =>
        match fa_probability f' with
        | Some (p, seed) =>
            ({| fa_next := fa_next f'; fa_always := fa_always f';
                fa_probability := Some (p, xorshift seed); fa_latency := fa_latency f' |},
             rolls_fault p (xorshift seed))
        | None => (f', false)
        end
      end = match fa_probability f' with
        | Some (p, seed) =>
            ({| fa_next := fa_next f'; fa_always := fa_always f';
                fa_probability := Some (p, xorshift seed); fa_latency := fa_latency f' |},
             rolls_fault p (xorshift seed))
        | None => (f', false)
        end) by (by destruct (fa_next f' !! op) as [[|q]|]).
    unfold faults_after. rewrite Hd. cbv zeta. rewrite Hres, Hp.
    destruct (fa_probability f) as [[p seed]|] eqn:Ep; simpl.
    + unfold draws. rewrite N.add_1_r, N.iter_succ. split; [done|]. split; [done|]. by split; [exact Hsc|].
    + split; [done|]. split; [done|]. by split; [exact Hsc|rewrite Hp].
Qed.

Lemma after_spec st ops :
  faults_after (ts_faults st) (ts_faults (after st ops)) ops ∧
  (∀ op, wrap64 (count (ts_counters (after st ops)) op) = wrap64 (count (ts_counters st) op + calls op ops)) ∧
  ts_inner (after st ops) = ts_inner st.
Proof.
  induction ops as [|o ops IH] using rev_ind.
  { split; [split; [done|split]|].
    - intros op. destruct (always _ op); [done|]. unfold calls. simpl. lia.
    - simpl. destruct (fa_probability _) as [[p seed]|]; [|done]. simpl. repeat f_equal.
      unfold drawn, past_script. simpl. by destruct (always _ _), (always _ _), (always _ _), (always _ _), (always _ _).
    - split; [|done]. intros op. unfold calls. simpl. by rewrite N.add_0_r. }
  destruct IH as (Hf & Hc & Hi). unfold after in *. rewrite fold_left_app. simpl.
  set (st' := fold_left _ ops st) in *.
  destruct (draw_fault_after _ _ _ o Hf) as [_ Hf']. unfold check.
  destruct (draw_fault (ts_faults st') o) as [f' fails]. simpl in *. split; [done|]. split; [|done].
  intros op. rewrite calls_snoc. specialize (Hc op). unfold bump.
  destruct (decide (o = op)) as [->|Hne].
  - assert (E : count (set_count (ts_counters st') op (wrap64 (count (ts_counters st') op + 1))) op =
      wrap64 (count (ts_counters st') op + 1)) by (by destruct op).
    rewrite E. unfold wrap64 in *. rewrite N.Div0.mod_mod, N.add_assoc.
    rewrite <-(N.Div0.add_mod_idemp_l (count _ op)), Hc. by rewrite N.Div0.add_mod_idemp_l.
  - assert (E : count (set_count (ts_counters st') o (wrap64 (count (ts_counters st') o + 1))) op =
      count (ts_counters st') op) by (by destruct o, op).
    by rewrite E, N.add_0_r.
Qed.

(** C33: injected faults follow the script exactly: after any sequence of
    calls, of any operations, whatever they returned, the next call of [op]
    fails if and only if [op] is failed until healed, or fewer of its calls
    were made than [fail_next] asked for, or the generator's next number,
    which only calls past their script draw, is below the probability; so a
    seed reproduces a run.  The counters count every call, failed ones
    included, and no fault touches the decorated store. *)
Theorem faults_follow_script st ops op :
  let st' := after st ops in
  is_ok (check st' op).2 = negb (fails_after (ts_faults st) ops op) ∧
  wrap64 (count (ts_counters st') op) = wrap64 (count (ts_counters st) op + calls op ops) ∧
  ts_inner st' = ts_inner st ∧
  (∀ n st1, always (ts_faults st) op = false → fa_probability (ts_faults st) = None → fail_next st op n = Some st1 →
     is_ok (check (after st1 ops) op).2 = bool_decide (scripted (ts_faults st) op + n ≤ calls op ops)%N).
Proof.
  intros st'. destruct (after_spec st ops) as (Hf & Hc & Hi). fold st' in Hf, Hc, Hi.
  assert (Hck : ∀ st ops, is_ok (check (after st ops) op).2 = negb (fails_after (ts_faults st) ops op)).
  { intros s os. destruct (after_spec s os) as (Hf' & _). apply (draw_fault_after _ _ _ op) in Hf' as [Hd _].
    rewrite <-Hd. unfold check. by destruct (draw_fault _ op) as [f' []]. }
  split; [apply Hck|]. split; [apply Hc|]. split; [done|].
  intros n st1 Hal Hp Hn. rewrite Hck. unfold fail_next in Hn. case_decide; [|done]. injection Hn as <-.
  unfold fails_after, always, scripted in *. simpl. rewrite Hal, Hp, lookup_insert_eq. simpl.
  rewrite orb_false_r. rewrite <-N.leb_antisym. apply eq_true_iff_eq. by rewrite N.leb_le, bool_decide_eq_true.
Qed.

(** ** The generator *)

Lemma lxor_shl_nonzero x k : (0 < k)%N → x ≠ 0%N → (x ≤ U64_MAX)%N → N.lxor x (wrap64 (N.shiftl x k)) ≠ 0%N.
Proof.
  intros Hk Hx Hle E. apply Hx, N.bits_inj. intros i. rewrite N.bits_0.
  assert (Hbits : ∀ j, N.testbit x j = N.testbit (wrap64 (N.shiftl x k)) j).
  { intros j. apply N.lxor_eq in E. by rewrite <-E. }
  induction i as [i IH] using (well_founded_induction N.lt_wf_0).
  rewrite Hbits. unfold wrap64. change 18446744073709551616%N with (2 ^ 64)%N.
  destruct (N.ltb_spec i 64).
  - rewrite N.mod_pow2_bits_low by done. destruct (N.ltb_spec i k).
    + by rewrite N.shiftl_spec_low.
    + rewrite N.shiftl_spec_high' by done. apply IH. lia.
  - by rewrite N.mod_pow2_bits_high.
Qed.

Lemma lxor_shr_nonzero x k : (0 < k)%N → x ≠ 0%N → N.lxor x (N.shiftr x k) ≠ 0%N.
Proof.
  intros Hk Hx E. apply N.lxor_eq in E. rewrite N.shiftr_div_pow2 in E.
  assert (x / 2 ^ k < x)%N; [|lia]. apply N.div_lt; [lia|]. by apply N.pow_gt_1; lia.
Qed.

Lemma lxor_bound x y : (x ≤ U64_MAX)%N → (y ≤ U64_MAX)%N → (N.lxor x y ≤ U64_MAX)%N.
Proof.
  assert (Hb : ∀ z, (z ≤ U64_MAX)%N ↔ z = 0%N ∨ (N.log2 z < 64)%N).
  { intros z. unfold U64_MAX. destruct (N.eq_dec z 0%N) as [->|Hz]; [lia|].
    change 18446744073709551615%N with (2 ^ 64 - 1)%N. rewrite <-N.log2_lt_pow2 by lia. split; [|intros [?|?]; lia].
    right. lia. }
  rewrite !Hb. intros Hx Hy. destruct (N.eq_dec (N.lxor x y) 0%N) as [|Hz]; [by left|right].
  pose proof (N.log2_lxor x y) as Hl. destruct Hx as [->|Hx], Hy as [->|Hy];
    rewrite ?N.lxor_0_l, ?N.lxor_0_r in *; try done; lia.
Qed.

Definition seed_ok (seed : N) : Prop := (1 ≤ seed ≤ U64_MAX)%N.

Lemma xorshift_ok seed : seed_ok seed → seed_ok (xorshift seed).
Proof.
  intros [Hlo Hhi]. unfold xorshift.
  set (s1 := N.lxor seed (wrap64 (N.shiftl seed 13))).
  assert (H1 : s1 ≠ 0%N ∧ (s1 ≤ U64_MAX)%N).
  { split; [apply lxor_shl_nonzero; lia|apply lxor_bound; [done|apply wrap64_bound]]. }
  set (s2 := N.lxor s1 (N.shiftr s1 7)).
  assert (H2 : s2 ≠ 0%N ∧ (s2 ≤ U64_MAX)%N).
  { split; [apply lxor_shr_nonzero; [lia|apply H1]|]. apply lxor_bound; [apply H1|].
    rewrite N.shiftr_div_pow2. etrans; [apply N.Div0.div_le_upper_bound with (q := s1)|apply H1].
    assert (1 ≤ 2 ^ 7)%N by done. nia. }
  cbv zeta. fold s1. fold s2.
  assert (N.lxor s2 (wrap64 (N.shiftl s2 17)) ≠ 0)%N by (apply lxor_shl_nonzero; [lia|apply H2..]).
  split; [lia|]. apply lxor_bound; [apply H2|apply wrap64_bound].
Qed.

Lemma draws_ok n seed : seed_ok seed → seed_ok (draws n seed).
Proof.
  intros Hs. unfold draws. induction n as [|n IH] using N.peano_ind; [done|].
  rewrite N.iter_succ. by apply xorshift_ok.
Qed.

Lemma roll_range seed : (seed ≤ U64_MAX)%N → (0 <= roll seed)%Q ∧ (roll seed < 1)%Q.
Proof.
  intros Hs. unfold roll, Qle, Qlt. simpl Qnum. simpl Qden.
  assert (N.shiftr seed 11 < 2 ^ 53)%N.
  { rewrite N.shiftr_div_pow2. apply N.Div0.div_lt_upper_bound. unfold U64_MAX in Hs. simpl. lia. }
  simpl in *. lia.
Qed.

(** Random faults are reproducible and never degenerate: whatever the
    seed and however many calls were made, the generator's state stays a
    non-zero 64-bit word (zero would repeat for ever), so its numbers stay in
    [[0, 1)]: probability one or more fails every call and zero or less fails
    none. *)
Theorem generator_never_sticks st p seed ops op :
  (seed ≤ U64_MAX)%N →
  let st' := after (fail_probability (heal st) p seed) ops in
  (∃ s, fa_probability (ts_faults st') = Some (p, s) ∧ (1 ≤ s ≤ U64_MAX)%N) ∧
  ((1 <= p)%Q → is_ok (check st' op).2 = false) ∧
  ((p <= 0)%Q → is_ok (check st' op).2 = true).
Proof.
  intros Hs st'. set (f := ts_faults (fail_probability (heal st) p seed)).
  assert (Hmax : seed_ok (N.max seed 1)) by (unfold seed_ok, U64_MAX in *; lia).
  destruct (after_spec (fail_probability (heal st) p seed) ops) as (Hf & _). fold st' f in Hf.
  assert (Hck : is_ok (check st' op).2 = negb (rolls_fault p (draws (drawn f ops + 1) (N.max seed 1)))).
  { apply (draw_fault_after _ _ _ op) in Hf as [Hd _]. unfold fails_after in Hd.
    assert (Eal : always f op = false) by (unfold always; simpl; by rewrite lookup_empty).
    assert (Esc : scripted f op = 0%N) by (unfold scripted; simpl; by rewrite lookup_empty).
    rewrite Eal, Esc, (proj2 (N.ltb_ge _ _) (N.le_0_l _)) in Hd.
    simpl in Hd. rewrite <-Hd. unfold check. by destruct (draw_fault (ts_faults st') op) as [f' []]. }
  pose proof (draws_ok (drawn f ops + 1) _ Hmax) as [_ Hnext].
  destruct (roll_range _ Hnext) as [Hlo Hhi]. rewrite Hck. unfold rolls_fault. rewrite negb_involutive.
  split; [|split].
  - destruct Hf as (_ & _ & ->). simpl. eexists. split; [reflexivity|]. by apply draws_ok.
  - intros Hp. apply not_true_is_false. rewrite Qle_bool_iff. intros Hle.
    eapply Qlt_irrefl, Qlt_le_trans; [exact Hhi|]. by eapply Qle_trans.
  - intros Hp. apply Qle_bool_iff. by eapply Qle_trans.
Qed.

(** ** Virtual time *)

(** What a test does with a store; [Clock] is the shared clock moved on. *)
Inductive Action :=
  | Put (location : StorePath) (payload : PutPayload) (opts : PutOptions)
  | PutMultipart (location : StorePath) (opts : PutMultipartOptions)
  | Get (location : StorePath) (options : GetOptions)
  | GetRanges (location : StorePath) (ranges : list ByteRange)
  | DeleteAll (locations : list (Result StoreError StorePath))
  | ListAll (prefix : option StorePath)
  | ListFrom (prefix : option StorePath) (offset : StorePath)
  | ListDelimited (prefix : option StorePath)
  | CopyTo (from to : StorePath) (options : CopyOptions)
  | SetModified (location : StorePath) (time : Instant)
  | Clock (now : Instant)
  | Inject (faults : Faults).

Definition act (st : TestStore) (a : Action) : TestStore :=
  match a with
  | Put l p o => (put_opts st l p o).1
  | PutMultipart l o => (put_multipart_opts st l o).1
  | Get l o => (get_opts st l o).1
  | GetRanges l r => (get_ranges st l r).1
  | DeleteAll ls => (delete_stream st ls).1
  | ListAll p => (list_ st p).1
  | ListFrom p o => (list_with_offset st p o).1
  | ListDelimited p => (list_with_delimiter st p).1
  | CopyTo f t o => (copy_opts st f t o).1
  | SetModified l t => set_modified st l t
  | Clock now => set_clock st now
  | Inject f => set_faults st f
  end.

(** It writes, deletes or overrides the object. *)
Definition touches (st : TestStore) (a : Action) (path : StorePath) : Prop :=
  match a with
  | Put l _ _ | PutMultipart l _ | CopyTo _ l _ | SetModified l _ => l = path
  | DeleteAll ls => Ok path ∈ (delete_stream st ls).2
  | _ => False
  end.

Inductive acts (path : StorePath) : TestStore → list Action → TestStore → Prop :=
  | acts_nil st : acts path st [] st
  | acts_cons st a l st' : ¬ touches st a path → acts path (act st a) l st' → acts path st (a :: l) st'.

Lemma stamped_time {T} st l (r : S * Result StoreError T) path :
  l ≠ path →
  ts_times (stamped st l r).1 !! path = ts_times st !! path ∧
  (is_Some (ts_clock (stamped st l r).1) ↔ is_Some (ts_clock st)).
Proof.
  intros Hne. unfold stamped. destruct r.2; [|by split]. unfold stamp, set_inner. simpl.
  destruct (ts_clock st) eqn:E; simpl; rewrite ?E; [|done]. by rewrite lookup_insert_ne.
Qed.

Lemma check_time st op : ts_times (check st op).1 = ts_times st ∧ ts_clock (check st op).1 = ts_clock st.
Proof. unfold check. by destruct (draw_fault _ _). Qed.

(** A checked call leaves alone what its body leaves alone. *)
Lemma checked_time {T} st op (k : TestStore → TestStore * Result StoreError T) path :
  (∀ st, ts_times (k st).1 !! path = ts_times st !! path ∧ (is_Some (ts_clock (k st).1) ↔ is_Some (ts_clock st))) →
  ts_times (checked st op k).1 !! path = ts_times st !! path ∧
  (is_Some (ts_clock (checked st op k).1) ↔ is_Some (ts_clock st)).
Proof.
  intros Hk. unfold checked. destruct (check_time st op) as [Ht Hc].
  destruct (check st op) as [st' [[]|e]]; simpl in *; [rewrite <-Ht, <-Hc; apply Hk|by rewrite Ht, Hc].
Qed.
Lemma checked_stream_time {T} st op (k : TestStore → TestStore * list (Result StoreError T)) path :
  (∀ s, (checked_stream st op k).2 = (k s).2 →
     ts_times (k s).1 !! path = ts_times s !! path ∧ (is_Some (ts_clock (k s).1) ↔ is_Some (ts_clock s))) →
  ts_times (checked_stream st op k).1 !! path = ts_times st !! path ∧
  (is_Some (ts_clock (checked_stream st op k).1) ↔ is_Some (ts_clock st)).
Proof.
  unfold checked_stream. destruct (check_time st op) as [Ht Hc].
  destruct (check st op) as [st' [[]|e]]; simpl in *; intros Hk; [rewrite <-Ht, <-Hc; by apply Hk|by rewrite Ht, Hc].
Qed.

Lemma forget_other path results times :
  Ok path ∉ results → fold_left forget results times !! path = times !! path.
Proof.
  revert times. induction results as [|r results IH]; intros times Hn; [done|]. simpl.
  rewrite IH by set_solver. destruct r as [p|]; simpl; [|done]. apply lookup_delete_ne. set_solver.
Qed.

Lemma act_time st a path :
  ¬ touches st a path →
  ts_times (act st a) !! path = ts_times st !! path ∧ (is_Some (ts_clock (act st a)) ↔ is_Some (ts_clock st)).
Proof.
  destruct a as [l p o|l o|l o|l r|ls|p|p o|p|f t o|l t|now|fs]; simpl; intros Hn.
  - (* Put *) apply checked_time. intros s. by apply (stamped_time (delay s OpPut)).
  - apply checked_time. intros s. by apply stamped_time.
  - by apply checked_time.
  - by apply checked_time.
  - (* DeleteAll *) apply checked_stream_time. intros s Hr. unfold delete_stream in Hn. rewrite Hr in Hn.
    destruct (inner_delete_stream _ _) as [inner results]. simpl in *. split; [|done]. by apply forget_other.
  - by apply checked_stream_time.
  - by apply checked_stream_time.
  - by apply checked_time.
  - apply checked_time. intros s. by apply stamped_time.
  - simpl. by rewrite lookup_insert_ne.
  - split; [done|]. by rewrite fmap_is_Some.
  - done.
Qed.

Lemma acts_time path st l st' :
  acts path st l st' →
  ts_times st' !! path = ts_times st !! path ∧ (is_Some (ts_clock st') ↔ is_Some (ts_clock st)).
Proof.
  induction 1 as [|st a l st' Hn _ [IHt IHc]]; [done|]. destruct (act_time st a path Hn) as [Ht Hc].
  by rewrite IHt, IHc, Ht, Hc.
Qed.

(** A successful PUT stamps its object with the clock. *)
Lemma put_stamps st t l p o r :
  ts_clock st = Some t → (put_opts st l p o).2 = Ok r →
  ts_times (put_opts st l p o).1 !! l = Some t ∧ is_Some (ts_clock (put_opts st l p o).1).
Proof.
  intros Ht. unfold put_opts, checked. destruct (check_time st OpPut) as [_ Hc].
  destruct (check st OpPut) as [st' [[]|e]]; simpl in *; [|done]. unfold stamped.
  destruct (inner_put _ _ _ _) as [inner [x|e]]; simpl; [|done]. intros _. unfold stamp, set_inner, delay. simpl.
  rewrite Hc, Ht. simpl. rewrite lookup_insert_eq. eauto.
Qed.

Lemma with_time_stamped times meta t :
  times !! location meta = Some t →
  with_time times meta = {| location := location meta; last_modified := t; size := size meta; e_tag := e_tag meta |}.
Proof. intros Ht. unfold with_time. by rewrite Ht. Qed.

(** C34: ages follow virtual time: an object put when the test clock read [t]
    is reported with [LastModified = t] by every LIST, by the delimited LIST
    and by GET, after any sequence of other calls, faults and clock changes
    that leaves the object alone, whatever the decorated store's own times
    are; so a reader that lists a heartbeat when the clock reads [now]
    computes the age [now - t]. *)
Theorem ages_follow_virtual_time st t l p o r others st' now prefix :
  ts_clock st = Some t → (put_opts st l p o).2 = Ok r →
  acts l (put_opts st l p o).1 others st' → ts_clock st' = Some now →
  (∀ meta, Ok meta ∈ (list_ st' prefix).2 → location meta = l →
     last_modified meta = t ∧
     ∀ id services, id ≠ EmptyString → filename l = Some (object_name id services) →
       ∃ e, heartbeat_entry now meta = Some e ∧ he_node_id e = id ∧ he_age e = to_age now t) ∧
  (∀ common objects meta, (list_with_delimiter st' prefix).2 = Ok (common, objects) → meta ∈ objects →
     location meta = l → last_modified meta = t) ∧
  (∀ options meta payload, (get_opts st' l options).2 = Ok (meta, payload) →
     location meta = l → last_modified meta = t).
Proof.
  intros Ht Hput Hacts Hnow. destruct (put_stamps st t l p o r Ht Hput) as [Hst _].
  destruct (acts_time _ _ _ _ Hacts) as [Htime _]. rewrite Hst in Htime.
  assert (Hre : ∀ s m, ts_times s = ts_times st' → ts_clock s = ts_clock st' → location (restamp s m) = l →
    last_modified (restamp s m) = t).
  { intros s m Es Ec. unfold restamp. rewrite Es, Ec, Hnow.
    assert (Hloc : location (with_time (ts_times st') m) = location m) by (unfold with_time; by case_match).
    rewrite Hloc. intros <-. by rewrite (with_time_stamped _ _ _ Htime). }
  split; [|split].
  - intros meta Hin Hl. assert (Hm : last_modified meta = t).
    { unfold list_, checked_stream in Hin. destruct (check_time st' OpList) as [Es Ec].
      destruct (check st' OpList) as [s [[]|e]]; simpl in *; [|by apply list_elem_of_singleton in Hin].
      rewrite Ec, Hnow in Hin. apply list_elem_of_fmap in Hin as ([m|e] & Hm & _); [|done].
      injection Hm as ->. specialize (Hre s m Es Ec). unfold restamp in Hre. rewrite Ec, Hnow in Hre. by apply Hre. }
    split; [done|]. intros id services Hid Hname. rewrite <-Hl in Hname.
    destruct (heartbeat_entry_own now meta id services Hid Hname) as (e & He & Hide & _ & Hage).
    exists e. by rewrite <-Hm.
  - intros common objects meta. unfold list_with_delimiter, checked. destruct (check_time st' OpList) as [Es Ec].
    destruct (check st' OpList) as [s [[]|e]]; simpl in *; [|done].
    destruct (inner_list_with_delimiter _ _) as [[c ms]|]; simpl; [|done]. intros [= _ <-].
    intros (m & -> & _)%list_elem_of_fmap. by apply Hre.
  - intros options meta payload. unfold get_opts, checked. destruct (check_time st' OpGet) as [Es Ec].
    destruct (check st' OpGet) as [s [[]|e]]; simpl in *; [|done].
    destruct (inner_get _ _ _) as [[m b]|]; simpl; [|done]. intros [= <- _]. by apply (Hre (delay s OpGet)).
Qed.

(** A call that a fault fails reaches nothing: the decorated store, the times
    and the sleeps are as before. *)
Lemma faulted_put_does_nothing st l p o :
  is_ok (check st OpPut).2 = false →
  (put_opts st l p o).2 = Err (fault OpPut) ∧ ts_inner (put_opts st l p o).1 = ts_inner st ∧
  ts_times (put_opts st l p o).1 = ts_times st ∧ ts_slept (put_opts st l p o).1 = ts_slept st.
Proof.
  unfold put_opts, checked, check. by destruct (draw_fault _ OpPut) as [f []].
Qed.
End store.

(** ** Examples *)
Import Store.Concrete.

(** A store whose objects are bodies with the times of its own clock, which
    stands still. *)
#[local] Instance example_inner : InnerStore (gmap StorePath string) := {|
  PutPayload := string; PutOptions := unit; PutResult := unit;
  PutMultipartOptions := unit; MultipartUpload := unit;
  GetOptions := unit; GetPayload := string; ByteRange := unit; Bytes := string; CopyOptions := unit;
  inner_put l p _ s := (<[l := p]> s, Ok ());
  inner_put_multipart l _ s := (s, Ok ());
  inner_get l _ s := match s !! l with
                     | Some b => Ok ({| location := l; last_modified := 0; size := 0; e_tag := None |}, b)
                     | None => Err (NotFound (path_display l)) end;
  inner_get_ranges l _ s := match s !! l with Some b => Ok [b] | None => Err (NotFound (path_display l)) end;
  inner_delete_stream ls s := (fold_left (λ s r, match r with Ok l => delete l s | Err _ => s end) ls s, ls);
  inner_list _ s := (λ kv, Ok {| location := kv.1; last_modified := 0; size := 0; e_tag := None |}) <$> map_to_list s;
  inner_list_with_offset _ _ s :=
    (λ kv, Ok {| location := kv.1; last_modified := 0; size := 0; e_tag := None |}) <$> map_to_list s;
  inner_list_with_delimiter _ s :=
    Ok ([], (λ kv, {| location := kv.1; last_modified := 0; size := 0; e_tag := None |}) <$> map_to_list s);
  inner_copy f t _ s := match s !! f with
                        | Some b => (<[t := b]> s, Ok ())
                        | None => (s, Err (NotFound (path_display f))) end;
|}.
Definition hb : StorePath := ["fleet"; "nodes"; "n1.g.json"].
Abbreviation Example_Store := (TestStore (S := gmap StorePath string)).
Definition example_store : Example_Store := in_memory_at ∅ 5%Z.
Definition beaten : Example_Store := (put_opts example_store hb "{}" ()).1.

Lemma faults_follow_script_witness :
  match fail_next beaten OpGet 1 with
  | Some st => is_ok (check (after st [OpPut; OpGet]) OpGet).2 = true ∧
               is_ok (check (after st [OpPut]) OpGet).2 = false
  | None => False
  end.
Proof.
  assert (Hs : match fail_next beaten OpGet 1 with Some _ => true | None => false end = true) by (vm_compute; reflexivity).
  destruct (fail_next beaten OpGet 1) as [st|] eqn:E; [|discriminate Hs].
  destruct (faults_follow_script beaten [OpPut; OpGet] OpGet) as (_ & _ & _ & H1).
  destruct (faults_follow_script beaten [OpPut] OpGet) as (_ & _ & _ & H2).
  assert (Hal : always (ts_faults beaten) OpGet = false) by (vm_compute; reflexivity).
  assert (Hp : fa_probability (ts_faults beaten) = None) by (vm_compute; reflexivity).
  split; [exact (H1 1%N st Hal Hp E)|exact (H2 1%N st Hal Hp E)].
Defined.

Lemma generator_never_sticks_witness :
  is_ok (check (after (fail_probability (heal beaten) 1 0) [OpPut; OpGet]) OpList).2 = false.
Proof.
  destruct (generator_never_sticks beaten 1 0 [OpPut; OpGet] OpList) as (_ & Hone & _); [by vm_compute|].
  apply Hone. apply Qle_refl.
Defined.

Lemma ages_follow_virtual_time_witness :
  ∃ meta, Ok meta ∈ (list_ (set_clock beaten 125) None).2 ∧ last_modified meta = 5%Z.
Proof.
  exists {| location := hb; last_modified := 5; size := 0; e_tag := None |}.
  assert (Hm : Ok {| location := hb; last_modified := 5; size := 0; e_tag := None |} ∈
    (list_ (set_clock beaten 125) None).2) by (vm_compute; left).
  split; [exact Hm|].
  refine (proj1 (proj1 (ages_follow_virtual_time example_store 5 hb "{}" () () [Clock 125]
    (set_clock beaten 125) 125 None eq_refl eq_refl _ eq_refl) _ Hm eq_refl)).
  apply acts_cons; [by intros []|apply acts_nil].
Defined.

(** The listing with an offset is the one read that shows the decorated
    store's own times. *)
Theorem offset_listing_not_restamped :
  (list_ beaten None).2 = [Ok {| location := hb; last_modified := 5; size := 0; e_tag := None |}] ∧
  (list_with_offset beaten None ["a"]).2 = [Ok {| location := hb; last_modified := 0; size := 0; e_tag := None |}].
Proof. split; reflexivity. Qed.

(** A latency delays plain GETs and PUTs only: ranged reads, listings,
    deletes and copies of the same operation start at once. *)
Theorem latency_only_delays_get_and_put :
  let slow op := set_latency beaten op 7 in
  ts_slept (get_opts (slow OpGet) hb ()).1 = 7%N ∧ ts_slept (put_opts (slow OpPut) hb "x" ()).1 = 7%N ∧
  ts_slept (copy_opts (slow OpCopy) hb ["to"] ()).1 = 0%N ∧
  ts_slept (get_ranges (slow OpGet) hb []).1 = 0%N ∧
  ts_slept (put_multipart_opts (slow OpPut) hb ()).1 = 0%N ∧
  ts_slept (list_with_delimiter (slow OpList) None).1 = 0%N.
Proof. by vm_compute. Qed.
