(* ===== verification/Registry.v ===== *)
(** * The database registry's names (src/registry.rs)

    A registered database is a file [dbs/<percent-encoded canonical URL>.toml]
    under the fleet root.  This file models the canonicalization of URLs and
    the naming of registry files.

    The [url] and [percent-encoding] crates are parameters: [UrlLib] and
    [PercentLib] are the functions the source calls, [PercentLaws] what their
    documentation promises.  [Concrete] holds an instance of each, on which
    the witnesses evaluate. *)

From Stdlib Require Import Ascii.
From S2P Require Import Prelude Order Text.

(** The functions of the [url] crate that the code calls. *)
Class UrlLib := {
  Url : Type;
  UrlParseError : Type;
  url_parse : string → Result UrlParseError Url;
  url_scheme : Url → string;
  url_host_str : Url → option string;
  url_set_host : Url → option string → Result UrlParseError Url;
  url_as_str : Url → string;
}.

(** The functions of the [percent-encoding] crate that the code calls.  An
    [AsciiSet] is the set of ASCII bytes to encode; decoding yields bytes. *)
Class PercentLib := {
  utf8_percent_encode : (ascii → bool) → string → string;
  percent_decode_str : string → string;
}.

(** Two upper-case hexadecimal digits of a byte. *)
Definition hex_digit (d : N) : ascii :=
  if decide (d < 10)%N then ascii_of_N (48 + d) else ascii_of_N (55 + d).
Definition percent_byte (b : ascii) : string :=
  String "%" (String (hex_digit (N_of_ascii b `div` 16))
    (String (hex_digit (N_of_ascii b `mod` 16)) EmptyString)).

(** Documented behaviour of [percent-encoding]: encoding replaces, byte by
    byte, every non-ASCII byte and every byte of the set; decoding reads the
    escapes back and leaves other bytes alone. *)
Class PercentLaws `{PercentLib} : Prop := {
  encode_nil S : utf8_percent_encode S EmptyString = EmptyString;
  encode_cons S c s :
    utf8_percent_encode S (String c s) =
      (if byte_in c 0x80 0xFF || S c then percent_byte c else String c EmptyString)
        +:+ utf8_percent_encode S s;
  decode_nil : percent_decode_str EmptyString = EmptyString;
  decode_plain c s :
    c ≠ "%"%char → percent_decode_str (String c s) = String c (percent_decode_str s);
  decode_escape b s : percent_decode_str (percent_byte b +:+ s) = String b (percent_decode_str s);
}.

(** ** Canonical URLs *)
Definition URL_SCHEMES : list string :=
  ["s3"; "s3a"; "gs"; "az"; "adl"; "azure"; "abfs"; "abfss"; "file"; "memory"; "http"; "https"].

(** [NON_ALPHANUMERIC] without the four other unreserved characters. *)
Definition ENCODE_SET (c : ascii) : bool :=
  negb (is_ascii_alphanumeric c) && negb (bool_decide (c ∈ ["-"; "."; "_"; "~"]%char)).

Definition MAX_FILE_NAME : N := 900.

(** A URL that cannot be canonicalized or registered; [PE] is the parser's
    error type. *)
Inductive UrlErrorOf (PE : Type) :=
  | Invalid (url : string) (source : PE)
  | UnsupportedScheme (scheme : string)
  | TooLong (len : N).
Arguments Invalid {PE} url source.
Arguments UnsupportedScheme {PE} scheme.
Arguments TooLong {PE} len.
Abbreviation UrlError := (UrlErrorOf UrlParseError).

Section registry.
Context `{UrlLib, PercentLib}.

Definition has_ascii_uppercase (s : string) : bool := existsb is_upper (bytes s).

Definition canonicalize_url (url : string) : Result UrlError string :=
  parsed ← map_err (Invalid url) (url_parse url);
  if negb (bool_decide (url_scheme parsed ∈ URL_SCHEMES))
  then Err (UnsupportedScheme (url_scheme parsed))
  else
    parsed ← match url_host_str parsed with
             | Some host =>
                 if has_ascii_uppercase host
                 then map_err (Invalid url) (url_set_host parsed (Some (to_ascii_lowercase host)))
                 else Ok parsed
             | None => Ok parsed
             end;
    Ok (trim_end_matches "/" (url_as_str parsed)).

(** The registry file name of a canonical database URL. *)
Definition file_name (canonical_url : string) : string :=
  utf8_percent_encode ENCODE_SET canonical_url +:+ ".toml".

Definition canonicalize_database_url (url : string) : Result UrlError string :=
  canonical ← canonicalize_url url;
  let len := N.of_nat (String.length (file_name canonical)) in
  if decide (MAX_FILE_NAME < len)%N then Err (TooLong len) else Ok canonical.

(** The canonical database URL a registry file name encodes, if valid. *)
Definition parse_file_name (name : string) : option string :=
  encoded ← strip_suffix ".toml" name;
  let url := percent_decode_str encoded in
  if valid_utf8 url then Some url else None.

(** A canonical URL never ends with a slash. *)
Lemma canonicalize_url_no_slash url c :
  canonicalize_url url = Ok c → ∀ t, c ≠ t +:+ "/".
Proof.
  unfold canonicalize_url. intros (p & _ & Hp)%result_bind_ok. case_match; [done|].
  apply result_bind_ok in Hp as (q & _ & [= <-]).
  apply (trim_end_matches_spec "/").
Qed.

Lemma canonicalize_url_scheme url c :
  canonicalize_url url = Ok c → ∃ p, url_parse url = Ok p ∧ url_scheme p ∈ URL_SCHEMES.
Proof.
  unfold canonicalize_url. intros (p & Hp & Hc)%result_bind_ok.
  destruct (url_parse url); simplify_eq/=. exists p. split; [done|].
  case_match eqn:E; [done|]. by apply negb_false_iff, bool_decide_eq_true in E.
Qed.

Section laws.
Context `{!PercentLaws}.

Lemma decode_encode s : percent_decode_str (utf8_percent_encode ENCODE_SET s) = s.
Proof.
  induction s as [|c s IH]; [by rewrite encode_nil, decode_nil|].
  rewrite encode_cons. destruct (_ || _) eqn:E.
  - by rewrite decode_escape, IH.
  - rewrite app_cons. change (EmptyString +:+ ?x) with x.
    rewrite decode_plain, IH; [done|]. by intros ->.
Qed.

(** The bytes of a registry file name: unreserved characters and the
    escape's percent sign. *)
Definition file_name_byte (c : ascii) : bool := negb (ENCODE_SET c) || bool_decide (c = "%"%char).

Lemma percent_byte_bytes b : all_bytes file_name_byte (percent_byte b) = true.
Proof. by destruct b as [[] [] [] [] [] [] [] []]. Qed.

Lemma encode_bytes s : all_bytes file_name_byte (utf8_percent_encode ENCODE_SET s) = true.
Proof.
  induction s as [|c s IH]; [by rewrite encode_nil|].
  rewrite encode_cons, all_bytes_app, IH, andb_true_r.
  destruct (_ || _) eqn:E; [apply percent_byte_bytes|].
  apply orb_false_iff in E as [_ E]. rewrite all_bytes_cons. unfold file_name_byte. by rewrite E.
Qed.

Lemma encode_length s :
  String.length s ≤ String.length (utf8_percent_encode ENCODE_SET s) ≤ 3 * String.length s.
Proof.
  induction s as [|c s IH]; [by rewrite encode_nil|].
  rewrite encode_cons, length_app. destruct (_ || _); simpl; lia.
Qed.

Lemma parse_file_name_file_name u : valid_utf8 u = true → parse_file_name (file_name u) = Some u.
Proof.
  intros Hu. unfold parse_file_name, file_name.
  rewrite (proj2 (strip_suffix_spec _ _ _) eq_refl). simpl. by rewrite decode_encode, Hu.
Qed.

Lemma file_name_no_slash u : contains "/" (file_name u) = false.
Proof.
  apply not_true_iff_false. rewrite contains_spec. unfold file_name. rewrite bytes_app.
  intros [Hin|Hin]%elem_of_app; [|set_solver].
  pose proof (proj1 (all_bytes_spec _ _) (encode_bytes u) _ Hin) as Hb. done.
Qed.
End laws.
End registry.

#[export] Hint Resolve canonicalize_url_no_slash : sleet.

(** ** Concrete instances *)
Module Concrete.

(** Percent coding, executable. *)
Fixpoint encode (S : ascii → bool) (s : string) : string :=
  match s with
  | EmptyString => EmptyString
  | String c s =>
      (if byte_in c 0x80 0xFF || S c then percent_byte c else String c EmptyString) +:+ encode S s
  end.
Definition hex_value (c : ascii) : option N :=
  if is_digit c then Some (N_of_ascii c - 48)%N
  else if in_range c "A" "F" then Some (N_of_ascii c - 55)%N
  else if in_range c "a" "f" then Some (N_of_ascii c - 87)%N else None.
Fixpoint decode (s : string) : string :=
  match s with
  | String c s1 =>
      if decide (c = "%"%char) then
        match s1 with
        | String h (String l s2) =>
            match hex_value h, hex_value l with
            | Some h, Some l => String (ascii_of_N (h * 16 + l)) (decode s2)
            | _, _ => String c (decode s1)
            end
        | _ => String c (decode s1)
        end
      else String c (decode s1)
  | EmptyString => EmptyString
  end.
#[export] Instance percent_lib : PercentLib :=
  {| utf8_percent_encode := encode; percent_decode_str := decode |}.

#[export] Instance percent_laws : PercentLaws.
Proof.
  split; try done.
  - intros c s Hc. simpl. by rewrite decide_False.
  - intros b s. by destruct b as [[] [] [] [] [] [] [] []].
Qed.

(** URLs of the form [scheme://host/path]: split, fold the scheme's case,
    keep the rest. *)
Record url := { u_scheme : string; u_host : string; u_path : string }.
Fixpoint split_once (pat s : string) : option (string * string) :=
  match strip_prefix pat s with
  | Some r => Some (EmptyString, r)
  | None => match s with
            | EmptyString => None
            | String c s' => '(l, r) ← split_once pat s'; Some (String c l, r)
            end
  end.
Definition parse (s : string) : Result string url :=
  match split_once "://" s with
  | None => Err "relative URL without a base"
  | Some (scheme, rest) =>
      match split_once "/" rest with
      | Some (h, p) => Ok {| u_scheme := to_ascii_lowercase scheme; u_host := h; u_path := "/" +:+ p |}
      | None => Ok {| u_scheme := to_ascii_lowercase scheme; u_host := rest; u_path := EmptyString |}
      end
  end.
#[export] Instance url_lib : UrlLib := {|
  Url := url;
  UrlParseError := string;
  url_parse := parse;
  url_scheme := u_scheme;
  url_host_str u := if is_empty (u_host u) then None else Some (u_host u);
  url_set_host u h := Ok {| u_scheme := u_scheme u; u_host := default EmptyString h; u_path := u_path u |};
  url_as_str u := u_scheme u +:+ "://" +:+ u_host u +:+ u_path u;
|}.

Example canonicalize_examples :
  canonicalize_url "S3://Bucket/Path/db/" = Ok "s3://bucket/Path/db" ∧
  canonicalize_url "ftp://host/db" = Err (UnsupportedScheme "ftp") ∧
  is_ok (canonicalize_url "not a url") = false ∧
  file_name "s3://bucket/tenants/acme db" = "s3%3A%2F%2Fbucket%2Ftenants%2Facme%20db.toml" ∧
  parse_file_name "README.md" = None ∧ parse_file_name "s3%FF.toml" = None.
Proof. by vm_compute. Qed.
End Concrete.

(** ** The claims *)
Import Concrete.

(** C25: registry file names round-trip: for every URL (a valid [str]) the file
    name decodes to exactly that URL, so two databases never share a registry
    file; the name contains no slash, so it is one object-key segment, and its
    length is at most three times the URL's plus the extension. *)
Theorem registry_roundtrip `{UrlLib, PercentLib, !PercentLaws} u :
  valid_utf8 u = true →
  parse_file_name (file_name u) = Some u ∧
  contains "/" (file_name u) = false ∧
  String.length u + 5 ≤ String.length (file_name u) ≤ 3 * String.length u + 5 ∧
  (∀ u', valid_utf8 u' = true → file_name u' = file_name u → u' = u).
Proof.
  intros Hu. split_and!.
  - by apply parse_file_name_file_name.
  - apply file_name_no_slash.
  - unfold file_name. rewrite length_app. pose proof (encode_length u). simpl. lia.
  - unfold file_name. rewrite length_app. pose proof (encode_length u). simpl. lia.
  - intros u' Hu' E. pose proof (parse_file_name_file_name u' Hu') as H'.
    rewrite E, parse_file_name_file_name in H' by done. by simplify_eq.
Qed.

Lemma registry_roundtrip_witness :
  valid_utf8 "s3://b/µ" = true ∧
  parse_file_name (file_name "s3://b/µ") = Some "s3://b/µ" ∧
  file_name "s3://b/µ" = "s3%3A%2F%2Fb%2F%C2%B5.toml".
Proof.
  split; [reflexivity|]. split; [|reflexivity].
  exact (proj1 (registry_roundtrip "s3://b/µ" eq_refl)).
Defined.

(** What [canonicalize_database_url] accepts: the URL parsed with a
    supported scheme, the result has no trailing slash (so the spellings with
    and without one collapse), and its registry file name fits in 900 bytes;
    a canonical URL that does not fit is reported with the length. *)
Theorem canonicalize_database_url_spec `{UrlLib, PercentLib} u c :
  canonicalize_url u = Ok c →
  (∃ p, url_parse u = Ok p ∧ url_scheme p ∈ URL_SCHEMES) ∧
  (∀ t, c ≠ t +:+ "/") ∧
  (canonicalize_database_url u = Ok c ↔ (N.of_nat (String.length (file_name c)) ≤ MAX_FILE_NAME)%N) ∧
  (∀ len, canonicalize_database_url u = Err (TooLong len) ↔
    len = N.of_nat (String.length (file_name c)) ∧ (MAX_FILE_NAME < len)%N).
Proof.
  intros Hc. split_and!.
  - by eapply canonicalize_url_scheme.
  - by eapply canonicalize_url_no_slash.
  - unfold canonicalize_database_url. rewrite Hc. simpl. case_decide; [|naive_solver lia].
    split; [done|lia].
  - intros len. unfold canonicalize_database_url. rewrite Hc. simpl.
    case_decide; [naive_solver|]. naive_solver.
Qed.

Lemma canonicalize_database_url_spec_witness :
  canonicalize_url "S3://B/db/" = Ok "s3://b/db" ∧
  (∀ t, "s3://b/db" ≠ t +:+ "/").
Proof.
  split; [reflexivity|].
  exact (proj1 (proj2 (canonicalize_database_url_spec "S3://B/db/" "s3://b/db" eq_refl))).
Defined.
