(* ===== verification/Config.v ===== *)
(** * The fleet configuration (src/config.rs): data, layering, resolution

    [SleetConfig] is [sleet.toml]; a [DatabaseConfig] is the [[database]]
    table and, verbatim, the contents of a [dbs/<db>.toml] file.  Every
    override structure has an [apply] that writes its set fields into the
    resolved structure; [resolve] starts from the built-in defaults and applies
    the fleet's table, then the database's file.

    A [HumanDuration] is the [Duration] it wraps.  An [f32] is a [spec_float]
    (the Standard Library's model of IEEE 754 values).  [BTreeMap]s are
    [gmap]s visited in ascending key order. *)

From Corelib Require Import SpecFloat.
From S2P Require Import Prelude Order Text Service.

Abbreviation HumanDuration := Duration (only parsing).
Abbreviation f32 := spec_float (only parsing).

(** [if let Some(v) = o { r = v; }] *)
Abbreviation set o r := (default r o) (only parsing).

(** ** Override layers *)
Inductive CompressionCodec := Snappy | Zlib | Lz4 | Zstd.
Inductive MirrorMode := Continuous | Periodic.
Inductive CopierKind := Builtin | Rclone | External.

Record GcDirectoryOverrides := {
  gdo_enabled : option bool;
  gdo_interval : option HumanDuration;
  gdo_min_age : option HumanDuration;
  gdo_dry_run : option bool;
}.

Record GcDetachOverrides := {
  gto_enabled : option bool;
  gto_interval : option HumanDuration;
}.

Record GcOverrides := {
  gco_manifest : option GcDirectoryOverrides;
  gco_wal : option GcDirectoryOverrides;
  gco_wal_fence : option GcDirectoryOverrides;
  gco_compacted : option GcDirectoryOverrides;
  gco_compactions : option GcDirectoryOverrides;
  gco_detach : option GcDetachOverrides;
}.

Record SchedulerOverrides := {
  sco_min_compaction_sources : option N;
  sco_max_compaction_sources : option N;
  sco_include_size_threshold : option f32;
}.

Record CoordinatorOverrides := {
  cdo_poll_interval : option HumanDuration;
  cdo_manifest_update_timeout : option HumanDuration;
  cdo_max_concurrent_compactions : option N;
  cdo_commit_compacted_interval : option HumanDuration;
  cdo_worker_heartbeat_timeout : option HumanDuration;
  cdo_scheduler : option SchedulerOverrides;
}.

Record WorkersOverrides := {
  wko_count : option N;
  wko_max_concurrent_compactions : option N;
  wko_compactions_poll_interval : option HumanDuration;
  wko_heartbeat_bytes : option N;
  wko_heartbeat_min_interval : option HumanDuration;
  wko_max_sst_size : option N;
  wko_max_fetch_tasks : option N;
  wko_bytes_to_fetch : option N;
  wko_max_subcompactions : option N;
  wko_min_filter_keys : option N;
  wko_compression_codec : option CompressionCodec;
}.

Record RetentionOverrides := { rto_keep : option HumanDuration }.

Record MirrorTargetOverrides := {
  mto_url : option string;
  mto_source_prefix : option string;
  mto_disabled : option bool;
  mto_mode : option MirrorMode;
  mto_copier : option CopierKind;
  mto_poll : option HumanDuration;
  mto_interval : option HumanDuration;
  mto_min_age : option HumanDuration;
  mto_checkpoint_lifetime : option HumanDuration;
  mto_copy_parallelism : option N;
  mto_retention : option RetentionOverrides;
}.

Record MirrorOverrides := { mro_targets : gmap string MirrorTargetOverrides }.

Record DatabaseConfig := {
  dbc_services : option (list Service);
  dbc_gc : option GcOverrides;
  dbc_compactor_coordinator : option CoordinatorOverrides;
  dbc_compaction_workers : option WorkersOverrides;
  dbc_mirror : option MirrorOverrides;
}.

Record NodeConfig := {
  heartbeat_interval : HumanDuration;
  heartbeat_timeout : HumanDuration;
  config_poll : HumanDuration;
}.

Record SleetConfig := {
  cfg_node : NodeConfig;
  cfg_database : DatabaseConfig;
}.

(** The derived and written [Default]s of the layers. *)
Definition WorkersOverrides_default : WorkersOverrides :=
  Build_WorkersOverrides None None None None None None None None None None None.
Definition MirrorTargetOverrides_default : MirrorTargetOverrides :=
  Build_MirrorTargetOverrides None None None None None None None None None None None.
Definition DatabaseConfig_default : DatabaseConfig := Build_DatabaseConfig None None None None None.

Definition default_heartbeat_interval : HumanDuration := from_secs 10.
Definition default_heartbeat_timeout : HumanDuration := from_secs 30.
Definition default_config_poll : HumanDuration := from_secs 60.
Definition NodeConfig_default : NodeConfig := {|
  heartbeat_interval := default_heartbeat_interval;
  heartbeat_timeout := default_heartbeat_timeout;
  config_poll := default_config_poll;
|}.
Definition SleetConfig_default : SleetConfig :=
  {| cfg_node := NodeConfig_default; cfg_database := DatabaseConfig_default |}.

(** ** Resolved settings *)
Record ResolvedGcDirectory := {
  rgd_enabled : bool;
  rgd_interval : Duration;
  rgd_min_age : Duration;
  rgd_dry_run : bool;
}.

Record ResolvedGcDetach := { rgt_enabled : bool; rgt_interval : Duration }.

Record ResolvedGc := {
  rgc_manifest : ResolvedGcDirectory;
  rgc_wal : ResolvedGcDirectory;
  rgc_wal_fence : ResolvedGcDirectory;
  rgc_compacted : ResolvedGcDirectory;
  rgc_compactions : ResolvedGcDirectory;
  rgc_detach : ResolvedGcDetach;
}.

Record ResolvedScheduler := {
  rsc_min_compaction_sources : N;
  rsc_max_compaction_sources : N;
  rsc_include_size_threshold : f32;
}.

Record ResolvedCoordinator := {
  rcd_poll_interval : Duration;
  rcd_manifest_update_timeout : Duration;
  rcd_max_concurrent_compactions : N;
  rcd_commit_compacted_interval : Duration;
  rcd_worker_heartbeat_timeout : Duration;
  rcd_scheduler : ResolvedScheduler;
}.

Record ResolvedWorkers := {
  rwk_count : N;
  rwk_max_concurrent_compactions : N;
  rwk_compactions_poll_interval : Duration;
  rwk_heartbeat_bytes : N;
  rwk_heartbeat_min_interval : Duration;
  rwk_max_sst_size : N;
  rwk_max_fetch_tasks : N;
  rwk_bytes_to_fetch : N;
  rwk_max_subcompactions : N;
  rwk_min_filter_keys : N;
  rwk_compression_codec : option CompressionCodec;
}.

Record ResolvedMirrorTarget := {
  rmt_url : option string;
  rmt_source_prefix : option string;
  rmt_disabled : bool;
  rmt_mode : MirrorMode;
  rmt_copier : CopierKind;
  rmt_poll : Duration;
  rmt_interval : Duration;
  rmt_min_age : Duration;
  rmt_checkpoint_lifetime : Duration;
  rmt_copy_parallelism : N;
  rmt_keep : option Duration;
}.

Record ResolvedMirror := { rmr_targets : gmap string ResolvedMirrorTarget }.

Record ResolvedServices := {
  rs_services : list Service;
  rs_gc : ResolvedGc;
  rs_coordinator : ResolvedCoordinator;
  rs_workers : ResolvedWorkers;
  rs_mirror : ResolvedMirror;
}.

Definition ResolvedMirrorTarget_default : ResolvedMirrorTarget := {|
  rmt_url := None;
  rmt_source_prefix := None;
  rmt_disabled := false;
  rmt_mode := Continuous;
  rmt_copier := Builtin;
  rmt_poll := from_secs 10;
  rmt_interval := from_secs (24 * 60 * 60);
  rmt_min_age := from_secs 300;
  rmt_checkpoint_lifetime := from_secs (15 * 60);
  rmt_copy_parallelism := 8;
  rmt_keep := None;
|}.

Definition ResolvedGcDirectory_default : ResolvedGcDirectory := {|
  rgd_enabled := true;
  rgd_interval := from_secs 60;
  rgd_min_age := from_secs 300;
  rgd_dry_run := false;
|}.

Definition ResolvedGcDetach_default : ResolvedGcDetach :=
  {| rgt_enabled := true; rgt_interval := from_secs 60 |}.

Definition ResolvedGc_default : ResolvedGc :=
  let dir := ResolvedGcDirectory_default in
  {| rgc_manifest := dir;
     rgc_wal := dir;
     rgc_wal_fence := {| rgd_enabled := rgd_enabled dir; rgd_interval := rgd_interval dir;
                         rgd_min_age := rgd_min_age dir; rgd_dry_run := true |};
     rgc_compacted := dir;
     rgc_compactions := dir;
     rgc_detach := ResolvedGcDetach_default |}.

(** [4.0] as a binary32 value. *)
Definition ResolvedScheduler_default : ResolvedScheduler := {|
  rsc_min_compaction_sources := 4;
  rsc_max_compaction_sources := 8;
  rsc_include_size_threshold := S754_finite false 8388608 (-21);
|}.

Definition ResolvedCoordinator_default : ResolvedCoordinator := {|
  rcd_poll_interval := from_secs 5;
  rcd_manifest_update_timeout := from_secs 300;
  rcd_max_concurrent_compactions := 4;
  rcd_commit_compacted_interval := from_secs 1;
  rcd_worker_heartbeat_timeout := from_secs 30;
  rcd_scheduler := ResolvedScheduler_default;
|}.

Definition ResolvedWorkers_default : ResolvedWorkers := {|
  rwk_count := 1;
  rwk_max_concurrent_compactions := 4;
  rwk_compactions_poll_interval := from_secs 5;
  rwk_heartbeat_bytes := 5 * 1024 * 1024;
  rwk_heartbeat_min_interval := from_secs 5;
  rwk_max_sst_size := 256 * 1024 * 1024;
  rwk_max_fetch_tasks := 4;
  rwk_bytes_to_fetch := 2 * 1024 * 1024;
  rwk_max_subcompactions := 4;
  rwk_min_filter_keys := 1000;
  rwk_compression_codec := None;
|}.

Definition ResolvedMirror_default : ResolvedMirror := {| rmr_targets := ∅ |}.

Definition ResolvedServices_default : ResolvedServices := {|
  rs_services := ALL;
  rs_gc := ResolvedGc_default;
  rs_coordinator := ResolvedCoordinator_default;
  rs_workers := ResolvedWorkers_default;
  rs_mirror := ResolvedMirror_default;
|}.

(** ** Applying a layer: the [apply] methods *)
Definition GcDirectoryOverrides_apply (o : GcDirectoryOverrides) (r : ResolvedGcDirectory)
    : ResolvedGcDirectory := {|
  rgd_enabled := set (gdo_enabled o) (rgd_enabled r);
  rgd_interval := set (gdo_interval o) (rgd_interval r);
  rgd_min_age := set (gdo_min_age o) (rgd_min_age r);
  rgd_dry_run := set (gdo_dry_run o) (rgd_dry_run r);
|}.

Definition GcDetachOverrides_apply (o : GcDetachOverrides) (r : ResolvedGcDetach) : ResolvedGcDetach := {|
  rgt_enabled := set (gto_enabled o) (rgt_enabled r);
  rgt_interval := set (gto_interval o) (rgt_interval r);
|}.

(** [if let Some(o) = o { o.apply(t); }] *)
Definition apply_opt {O R} (apply : O → R → R) (o : option O) (r : R) : R :=
  match o with Some o => apply o r | None => r end.

Definition GcOverrides_apply (o : GcOverrides) (r : ResolvedGc) : ResolvedGc := {|
  rgc_manifest := apply_opt GcDirectoryOverrides_apply (gco_manifest o) (rgc_manifest r);
  rgc_wal := apply_opt GcDirectoryOverrides_apply (gco_wal o) (rgc_wal r);
  rgc_wal_fence := apply_opt GcDirectoryOverrides_apply (gco_wal_fence o) (rgc_wal_fence r);
  rgc_compacted := apply_opt GcDirectoryOverrides_apply (gco_compacted o) (rgc_compacted r);
  rgc_compactions := apply_opt GcDirectoryOverrides_apply (gco_compactions o) (rgc_compactions r);
  rgc_detach := apply_opt GcDetachOverrides_apply (gco_detach o) (rgc_detach r);
|}.

Definition SchedulerOverrides_apply (o : SchedulerOverrides) (r : ResolvedScheduler)
    : ResolvedScheduler := {|
  rsc_min_compaction_sources := set (sco_min_compaction_sources o) (rsc_min_compaction_sources r);
  rsc_max_compaction_sources := set (sco_max_compaction_sources o) (rsc_max_compaction_sources r);
  rsc_include_size_threshold := set (sco_include_size_threshold o) (rsc_include_size_threshold r);
|}.

Definition CoordinatorOverrides_apply (o : CoordinatorOverrides) (r : ResolvedCoordinator)
    : ResolvedCoordinator := {|
  rcd_poll_interval := set (cdo_poll_interval o) (rcd_poll_interval r);
  rcd_manifest_update_timeout :=
    set (cdo_manifest_update_timeout o) (rcd_manifest_update_timeout r);
  rcd_max_concurrent_compactions :=
    set (cdo_max_concurrent_compactions o) (rcd_max_concurrent_compactions r);
  rcd_commit_compacted_interval :=
    set (cdo_commit_compacted_interval o) (rcd_commit_compacted_interval r);
  rcd_worker_heartbeat_timeout :=
    set (cdo_worker_heartbeat_timeout o) (rcd_worker_heartbeat_timeout r);
  rcd_scheduler := apply_opt SchedulerOverrides_apply (cdo_scheduler o) (rcd_scheduler r);
|}.

Definition WorkersOverrides_apply (o : WorkersOverrides) (r : ResolvedWorkers) : ResolvedWorkers := {|
  rwk_count := set (wko_count o) (rwk_count r);
  rwk_max_concurrent_compactions :=
    set (wko_max_concurrent_compactions o) (rwk_max_concurrent_compactions r);
  rwk_compactions_poll_interval :=
    set (wko_compactions_poll_interval o) (rwk_compactions_poll_interval r);
  rwk_heartbeat_bytes := set (wko_heartbeat_bytes o) (rwk_heartbeat_bytes r);
  rwk_heartbeat_min_interval := set (wko_heartbeat_min_interval o) (rwk_heartbeat_min_interval r);
  rwk_max_sst_size := set (wko_max_sst_size o) (rwk_max_sst_size r);
  rwk_max_fetch_tasks := set (wko_max_fetch_tasks o) (rwk_max_fetch_tasks r);
  rwk_bytes_to_fetch := set (wko_bytes_to_fetch o) (rwk_bytes_to_fetch r);
  rwk_max_subcompactions := set (wko_max_subcompactions o) (rwk_max_subcompactions r);
  rwk_min_filter_keys := set (wko_min_filter_keys o) (rwk_min_filter_keys r);
  rwk_compression_codec :=
    match wko_compression_codec o with Some v => Some v | None => rwk_compression_codec r end;
|}.

(** [url] and [source_prefix] travel together: a layer that sets either
    overrides both. *)
Definition MirrorTargetOverrides_apply (o : MirrorTargetOverrides) (r : ResolvedMirrorTarget)
    : ResolvedMirrorTarget :=
  let both := bool_decide (is_Some (mto_url o)) || bool_decide (is_Some (mto_source_prefix o)) in {|
  rmt_url := if both then mto_url o else rmt_url r;
  rmt_source_prefix := if both then mto_source_prefix o else rmt_source_prefix r;
  rmt_disabled := set (mto_disabled o) (rmt_disabled r);
  rmt_mode := set (mto_mode o) (rmt_mode r);
  rmt_copier := set (mto_copier o) (rmt_copier r);
  rmt_poll := set (mto_poll o) (rmt_poll r);
  rmt_interval := set (mto_interval o) (rmt_interval r);
  rmt_min_age := set (mto_min_age o) (rmt_min_age r);
  rmt_checkpoint_lifetime := set (mto_checkpoint_lifetime o) (rmt_checkpoint_lifetime r);
  rmt_copy_parallelism := set (mto_copy_parallelism o) (rmt_copy_parallelism r);
  rmt_keep :=
    match mto_retention o with
    | Some retention =>
        match rto_keep retention with Some keep => Some keep | None => rmt_keep r end
    | None => rmt_keep r
    end;
|}.

(** [target.apply(r.targets.entry(name.clone()).or_default())] *)
Definition apply_target (ts : gmap string ResolvedMirrorTarget)
    (e : string * MirrorTargetOverrides) : gmap string ResolvedMirrorTarget :=
  <[e.1 := MirrorTargetOverrides_apply e.2 (set (ts !! e.1) ResolvedMirrorTarget_default)]> ts.

Definition MirrorOverrides_apply (o : MirrorOverrides) (r : ResolvedMirror) : ResolvedMirror :=
  {| rmr_targets := fold_left apply_target (btree_iter (mro_targets o)) (rmr_targets r) |}.

Definition DatabaseConfig_apply (o : DatabaseConfig) (r : ResolvedServices) : ResolvedServices := {|
  rs_services := set (dbc_services o) (rs_services r);
  rs_gc := apply_opt GcOverrides_apply (dbc_gc o) (rs_gc r);
  rs_coordinator :=
    apply_opt CoordinatorOverrides_apply (dbc_compactor_coordinator o) (rs_coordinator r);
  rs_workers := apply_opt WorkersOverrides_apply (dbc_compaction_workers o) (rs_workers r);
  rs_mirror := apply_opt MirrorOverrides_apply (dbc_mirror o) (rs_mirror r);
|}.

(** [SleetConfig::resolve]: built-in defaults, then [[database]], then the
    database's file. *)
Definition resolve (c : SleetConfig) (db : option DatabaseConfig) : ResolvedServices :=
  let r := DatabaseConfig_apply (cfg_database c) ResolvedServices_default in
  match db with
  | Some db => DatabaseConfig_apply db r
  | None => r
  end.

(** ** The merged targets, by name *)
Lemma fold_apply_target_lookup l ts name :
  NoDup l.*1 →
  fold_left apply_target l ts !! name =
    match (list_to_map l : gmap string MirrorTargetOverrides) !! name with
    | Some o => Some (MirrorTargetOverrides_apply o (set (ts !! name) ResolvedMirrorTarget_default))
    | None => ts !! name
    end.
Proof.
  revert ts. induction l as [|[n o] l IH]; intros ts Hnd; csimpl in *; [by rewrite lookup_empty|].
  apply NoDup_cons in Hnd as [Hn Hnd]. rewrite IH by done. unfold apply_target. simpl.
  destruct (decide (n = name)) as [->|Hne].
  - rewrite (not_elem_of_list_to_map_1 l) by done. by rewrite !lookup_insert_eq.
  - by rewrite !lookup_insert_ne by done.
Qed.

Lemma MirrorOverrides_apply_lookup o r name :
  rmr_targets (MirrorOverrides_apply o r) !! name =
    match mro_targets o !! name with
    | Some t => Some (MirrorTargetOverrides_apply t
                        (set (rmr_targets r !! name) ResolvedMirrorTarget_default))
    | None => rmr_targets r !! name
    end.
Proof.
  simpl. rewrite fold_apply_target_lookup by apply NoDup_btree_keys.
  unfold btree_iter. rewrite <-(list_to_map_proper (map_to_list (mro_targets o))).
  - by rewrite list_to_map_to_list.
  - apply NoDup_fst_map_to_list.
  - by rewrite sort_by_Permutation.
Qed.
