(* ===== verification/Layering.v ===== *)
(** * Configuration layering is field-wise, last writer wins

    The abstract specification of [SleetConfig::resolve]: two layers of
    overrides merge into one, field by field, the higher layer's set fields
    winning ([over]); applying the merged layer is applying the lower one and
    then the higher one.  [Layered] states the law once; every override
    structure is an instance, and the composite structures' instances are
    proved from their parts'. *)

From S2P Require Import Prelude Order Text Service Config.

(** Overrides [O] of a resolved structure [R]: how two layers merge, how a
    layer applies, and the law relating them. *)
Class Layered (O R : Type) := {
  over : O → O → O;
  apply : O → R → R;
  apply_over hi lo r : apply (over hi lo) r = apply hi (apply lo r);
}.

(** A field: the higher layer's value if it sets one. *)
Definition over_field {A} (hi lo : option A) : option A :=
  match hi with Some _ => hi | None => lo end.

(** A table: merged when both layers have it. *)
Definition over_table {O} (ov : O → O → O) (hi lo : option O) : option O :=
  match hi, lo with
  | Some h, Some l => Some (ov h l)
  | Some h, None => Some h
  | None, l => l
  end.

Lemma set_over_field {A} (hi lo : option A) (r : A) :
  default r (over_field hi lo) = default (default r lo) hi.
Proof. by destruct hi. Qed.

Lemma apply_opt_over {O R} (ov : O → O → O) (ap : O → R → R) (hi lo : option O) (r : R) :
  (∀ h l r, ap (ov h l) r = ap h (ap l r)) →
  apply_opt ap (over_table ov hi lo) r = apply_opt ap hi (apply_opt ap lo r).
Proof. destruct hi, lo; simpl; auto. Qed.

(** Closes one component of a structure's law: a field or a nested table. *)
Ltac layered_component :=
  first
    [ done
    | apply set_over_field
    | simpl; apply apply_opt_over; let h := fresh in let l := fresh in let r := fresh in intros h l r; exact (apply_over h l r) ].

#[export, refine] Instance layered_gc_directory : Layered GcDirectoryOverrides ResolvedGcDirectory := {|
  over hi lo := {|
    gdo_enabled := over_field (gdo_enabled hi) (gdo_enabled lo);
    gdo_interval := over_field (gdo_interval hi) (gdo_interval lo);
    gdo_min_age := over_field (gdo_min_age hi) (gdo_min_age lo);
    gdo_dry_run := over_field (gdo_dry_run hi) (gdo_dry_run lo) |};
  apply := GcDirectoryOverrides_apply;
|}.
Proof. intros; unfold GcDirectoryOverrides_apply; f_equal; layered_component. Defined.

#[export, refine] Instance layered_gc_detach : Layered GcDetachOverrides ResolvedGcDetach := {|
  over hi lo := {|
    gto_enabled := over_field (gto_enabled hi) (gto_enabled lo);
    gto_interval := over_field (gto_interval hi) (gto_interval lo) |};
  apply := GcDetachOverrides_apply;
|}.
Proof. intros; unfold GcDetachOverrides_apply; f_equal; layered_component. Defined.

#[export, refine] Instance layered_gc : Layered GcOverrides ResolvedGc := {|
  over hi lo := {|
    gco_manifest := over_table over (gco_manifest hi) (gco_manifest lo);
    gco_wal := over_table over (gco_wal hi) (gco_wal lo);
    gco_wal_fence := over_table over (gco_wal_fence hi) (gco_wal_fence lo);
    gco_compacted := over_table over (gco_compacted hi) (gco_compacted lo);
    gco_compactions := over_table over (gco_compactions hi) (gco_compactions lo);
    gco_detach := over_table over (gco_detach hi) (gco_detach lo) |};
  apply := GcOverrides_apply;
|}.
Proof. intros; unfold GcOverrides_apply; f_equal; layered_component. Defined.

#[export, refine] Instance layered_scheduler : Layered SchedulerOverrides ResolvedScheduler := {|
  over hi lo := {|
    sco_min_compaction_sources :=
      over_field (sco_min_compaction_sources hi) (sco_min_compaction_sources lo);
    sco_max_compaction_sources :=
      over_field (sco_max_compaction_sources hi) (sco_max_compaction_sources lo);
    sco_include_size_threshold :=
      over_field (sco_include_size_threshold hi) (sco_include_size_threshold lo) |};
  apply := SchedulerOverrides_apply;
|}.
Proof. intros; unfold SchedulerOverrides_apply; f_equal; layered_component. Defined.

#[export, refine] Instance layered_coordinator : Layered CoordinatorOverrides ResolvedCoordinator := {|
  over hi lo := {|
    cdo_poll_interval := over_field (cdo_poll_interval hi) (cdo_poll_interval lo);
    cdo_manifest_update_timeout :=
      over_field (cdo_manifest_update_timeout hi) (cdo_manifest_update_timeout lo);
    cdo_max_concurrent_compactions :=
      over_field (cdo_max_concurrent_compactions hi) (cdo_max_concurrent_compactions lo);
    cdo_commit_compacted_interval :=
      over_field (cdo_commit_compacted_interval hi) (cdo_commit_compacted_interval lo);
    cdo_worker_heartbeat_timeout :=
      over_field (cdo_worker_heartbeat_timeout hi) (cdo_worker_heartbeat_timeout lo);
    cdo_scheduler := over_table over (cdo_scheduler hi) (cdo_scheduler lo) |};
  apply := CoordinatorOverrides_apply;
|}.
Proof.
  intros; unfold CoordinatorOverrides_apply; f_equal; layered_component.
Defined.

#[export, refine] Instance layered_workers : Layered WorkersOverrides ResolvedWorkers := {|
  over hi lo := {|
    wko_count := over_field (wko_count hi) (wko_count lo);
    wko_max_concurrent_compactions :=
      over_field (wko_max_concurrent_compactions hi) (wko_max_concurrent_compactions lo);
    wko_compactions_poll_interval :=
      over_field (wko_compactions_poll_interval hi) (wko_compactions_poll_interval lo);
    wko_heartbeat_bytes := over_field (wko_heartbeat_bytes hi) (wko_heartbeat_bytes lo);
    wko_heartbeat_min_interval :=
      over_field (wko_heartbeat_min_interval hi) (wko_heartbeat_min_interval lo);
    wko_max_sst_size := over_field (wko_max_sst_size hi) (wko_max_sst_size lo);
    wko_max_fetch_tasks := over_field (wko_max_fetch_tasks hi) (wko_max_fetch_tasks lo);
    wko_bytes_to_fetch := over_field (wko_bytes_to_fetch hi) (wko_bytes_to_fetch lo);
    wko_max_subcompactions := over_field (wko_max_subcompactions hi) (wko_max_subcompactions lo);
    wko_min_filter_keys := over_field (wko_min_filter_keys hi) (wko_min_filter_keys lo);
    wko_compression_codec := over_field (wko_compression_codec hi) (wko_compression_codec lo) |};
  apply := WorkersOverrides_apply;
|}.
Proof.
  intros; unfold WorkersOverrides_apply; f_equal;
    first [layered_component | simpl; by destruct (wko_compression_codec hi)].
Defined.

(** A mirror target: [url] and [source_prefix] form one field, set when
    either is. *)
Definition sets_url (o : MirrorTargetOverrides) : bool :=
  bool_decide (is_Some (mto_url o)) || bool_decide (is_Some (mto_source_prefix o)).

Definition over_retention (hi lo : option RetentionOverrides) : option RetentionOverrides :=
  over_table (λ h l, {| rto_keep := over_field (rto_keep h) (rto_keep l) |}) hi lo.

#[export, refine] Instance layered_mirror_target : Layered MirrorTargetOverrides ResolvedMirrorTarget := {|
  over hi lo := {|
    mto_url := if sets_url hi then mto_url hi else mto_url lo;
    mto_source_prefix := if sets_url hi then mto_source_prefix hi else mto_source_prefix lo;
    mto_disabled := over_field (mto_disabled hi) (mto_disabled lo);
    mto_mode := over_field (mto_mode hi) (mto_mode lo);
    mto_copier := over_field (mto_copier hi) (mto_copier lo);
    mto_poll := over_field (mto_poll hi) (mto_poll lo);
    mto_interval := over_field (mto_interval hi) (mto_interval lo);
    mto_min_age := over_field (mto_min_age hi) (mto_min_age lo);
    mto_checkpoint_lifetime := over_field (mto_checkpoint_lifetime hi) (mto_checkpoint_lifetime lo);
    mto_copy_parallelism := over_field (mto_copy_parallelism hi) (mto_copy_parallelism lo);
    mto_retention := over_retention (mto_retention hi) (mto_retention lo) |};
  apply := MirrorTargetOverrides_apply;
|}.
Proof.
  intros hi lo r. unfold MirrorTargetOverrides_apply, sets_url.
  destruct hi as [[?|] [?|] ???????? [[[?|]]|]], lo as [[?|] [?|] ???????? [[[?|]]|]];
    simpl; f_equal; layered_component.
Defined.

(** The targets table merges name by name. *)
#[export, refine] Instance layered_mirror : Layered MirrorOverrides ResolvedMirror := {|
  over hi lo := {|
    mro_targets := union_with (λ h l, Some (over h l)) (mro_targets hi) (mro_targets lo) |};
  apply := MirrorOverrides_apply;
|}.
Proof.
  intros hi lo r.
  enough (E : rmr_targets (MirrorOverrides_apply
      {| mro_targets := union_with (λ h l, Some (over h l)) (mro_targets hi) (mro_targets lo) |} r)
    = rmr_targets (MirrorOverrides_apply hi (MirrorOverrides_apply lo r))).
  { revert E. unfold MirrorOverrides_apply. simpl. by intros ->. }
  apply map_eq. intros name. rewrite !MirrorOverrides_apply_lookup. simpl mro_targets.
  rewrite lookup_union_with.
  destruct (mro_targets hi !! name) as [h|], (mro_targets lo !! name) as [l|]; simpl; try done.
  f_equal. exact (apply_over h l (default ResolvedMirrorTarget_default (rmr_targets r !! name))).
Defined.

#[export, refine] Instance layered_database : Layered DatabaseConfig ResolvedServices := {|
  over hi lo := {|
    dbc_services := over_field (dbc_services hi) (dbc_services lo);
    dbc_gc := over_table over (dbc_gc hi) (dbc_gc lo);
    dbc_compactor_coordinator :=
      over_table over (dbc_compactor_coordinator hi) (dbc_compactor_coordinator lo);
    dbc_compaction_workers := over_table over (dbc_compaction_workers hi) (dbc_compaction_workers lo);
    dbc_mirror := over_table over (dbc_mirror hi) (dbc_mirror lo) |};
  apply := DatabaseConfig_apply;
|}.
Proof.
  intros; unfold DatabaseConfig_apply; f_equal; layered_component.
Defined.

(** The database's file over the fleet's [[database]] table, as one layer. *)
Definition merged_layer (c : SleetConfig) (db : DatabaseConfig) : DatabaseConfig :=
  over db (cfg_database c).

(** Resolution is field-wise, last writer wins: resolving a database is
    applying one merged layer, the database's file over the fleet's table, to
    the built-in defaults, for every field of every table, mirror targets
    merging by name, then by field, with [url] and [source_prefix] as one
    field; a database without overrides gets the fleet's table. *)
Theorem resolve_layers c db :
  resolve c (Some db) = DatabaseConfig_apply (merged_layer c db) ResolvedServices_default ∧
  resolve c None = resolve c (Some DatabaseConfig_default).
Proof.
  split.
  - symmetry. exact (apply_over db (cfg_database c) ResolvedServices_default).
  - unfold resolve. by destruct (DatabaseConfig_apply (cfg_database c) ResolvedServices_default).
Qed.

(** The pair of a target after a layer. *)
Lemma apply_target_url o r :
  (rmt_url (MirrorTargetOverrides_apply o r), rmt_source_prefix (MirrorTargetOverrides_apply o r)) =
  if sets_url o then (mto_url o, mto_source_prefix o) else (rmt_url r, rmt_source_prefix r).
Proof. unfold MirrorTargetOverrides_apply, sets_url. simpl. by case_match. Qed.

(** What a mirror target resolves to: a name configured nowhere has no
    target; otherwise the [url]/[source_prefix] pair comes whole from the
    highest layer that sets either, and every other field from the highest
    layer that sets it, else from the built-in default. *)
Theorem resolve_mirror_target c db name :
  let layer d := o ← dbc_mirror d; mro_targets o !! name in
  let hi := layer db in
  let lo := layer (cfg_database c) in
  match rmr_targets (rs_mirror (resolve c (Some db))) !! name with
  | None => hi = None ∧ lo = None
  | Some t =>
      (hi ≠ None ∨ lo ≠ None) ∧
      (rmt_url t, rmt_source_prefix t) =
        (match hi, lo with
         | Some h, Some l => if sets_url h then (mto_url h, mto_source_prefix h)
                             else (mto_url l, mto_source_prefix l)
         | Some h, None => (mto_url h, mto_source_prefix h)
         | None, Some l => (mto_url l, mto_source_prefix l)
         | None, None => (None, None)
         end) ∧
      rmt_disabled t = default false (over_field (hi ≫= mto_disabled) (lo ≫= mto_disabled)) ∧
      rmt_mode t = default Continuous (over_field (hi ≫= mto_mode) (lo ≫= mto_mode)) ∧
      rmt_copier t = default Builtin (over_field (hi ≫= mto_copier) (lo ≫= mto_copier)) ∧
      rmt_poll t = default (from_secs 10) (over_field (hi ≫= mto_poll) (lo ≫= mto_poll))
  end.
Proof.
  intros layer hi lo. unfold resolve, DatabaseConfig_apply. simpl rs_mirror.
  assert (Hl : ∀ d r, rmr_targets (apply_opt MirrorOverrides_apply (dbc_mirror d) r) !! name =
    match layer d with
    | Some t => Some (MirrorTargetOverrides_apply t
                        (default ResolvedMirrorTarget_default (rmr_targets r !! name)))
    | None => rmr_targets r !! name
    end).
  { intros d r. unfold layer. destruct (dbc_mirror d) as [o|]; [|done].
    apply MirrorOverrides_apply_lookup. }
  rewrite !Hl. fold hi lo. simpl. rewrite lookup_empty. clearbody hi lo. clear Hl.
  assert (Hnone : ∀ o, sets_url o = false → (mto_url o, mto_source_prefix o) = (None, None)).
  { intros [[?|] [?|]]; by unfold sets_url. }
  destruct hi as [h|], lo as [l|]; cbn [default from_option mbind option_bind id];
    split_and!; rewrite ?apply_target_url; unfold id; rewrite ?apply_target_url; auto; try (simpl; by rewrite ?set_over_field).
  - destruct (sets_url h); [done|]. destruct (sets_url l) eqn:El; [done|]. simpl. by rewrite Hnone.
  - destruct (sets_url h) eqn:Eh; [done|]. simpl. by rewrite Hnone.
  - destruct (sets_url l) eqn:El; [done|]. simpl. by rewrite Hnone.
Qed.
