(* ===== verification/Validate.v ===== *)
(** * Configuration validation and parsing (src/config.rs)

    [validate] checks a [sleet.toml], [validate_database] a [dbs/<db>.toml]
    layered on the fleet config; both collect every error message before
    reporting.  The theorems: validation succeeds exactly on the configs that
    satisfy the stated constraints, and a validated fleet with a validated
    database resolves to settings every service can run with.

    The TOML deserializer, [humantime]'s formatting and the display of a URL
    error are parameters. *)

From Corelib Require Import SpecFloat.
From Stdlib Require Import Ascii.
From S2P Require Import Prelude Order Text Service Registry Config Layering.

(** Third-party functions the configuration loader calls. *)
Class ConfigLib `{UrlLib} := {
  TomlError : Type;
  toml_config : string → Result TomlError SleetConfig;
  toml_database : string → Result TomlError DatabaseConfig;
  format_duration : Duration → string;
  (** [{:?}] of a string: quoted and escaped. *)
  debug_str : string → string;
  (** [Display] of the libraries' errors. *)
  display_url_parse_error : UrlParseError → string;
  display_toml_error : TomlError → string;
}.

(** A config that failed to parse or validate. *)
Inductive ParseErrorOf (TE : Type) :=
  | Toml (e : TE)
  | InvalidConfig (errs : list string).
Arguments Toml {TE} e.
Arguments InvalidConfig {TE} errs.
Abbreviation ParseError := (ParseErrorOf TomlError).

(** The [#[error(..)]] texts. *)
Definition display_url_error `{ConfigLib} (e : UrlError) : string :=
  match e with
  | Invalid url source => "invalid URL " +:+ debug_str url +:+ ": " +:+ display_url_parse_error source
  | UnsupportedScheme scheme =>
      "unsupported URL scheme " +:+ debug_str scheme +:+ " (expected one of " +:+
      join ", " URL_SCHEMES +:+ ")"
  | TooLong len =>
      "database URL too long: its registry file name is " +:+ decimal len +:+
      " bytes (max " +:+ decimal MAX_FILE_NAME +:+ "; object-store keys cap at 1024)"
  end.

Definition display_config_error (errs : list string) : string :=
  let sep := String "010" "  " in
  "invalid config:" +:+ sep +:+ join sep errs.

Definition display_parse_error `{ConfigLib} (e : ParseError) : string :=
  match e with
  | Toml e => "failed to parse config: " +:+ display_toml_error e
  | InvalidConfig errs => display_config_error errs
  end.

(** [field] prefixed with its containing table, if any. *)
Definition loc (at_ field : string) : string :=
  if is_empty at_ then field else at_ +:+ "." +:+ field.

(** [f32::is_finite] and the comparison with [0.0]. *)
Definition is_finite (t : spec_float) : bool :=
  match t with S754_zero _ | S754_finite _ _ _ => true | _ => false end.
Definition positive_number (t : spec_float) : bool := is_finite t && SFltb (S754_zero false) t.

(** [if v == Some(0) { errs.push(..) }], and the same test on durations. *)
Definition zero_error (v : option N) (msg : string) : list string :=
  if decide (v = Some 0%N) then [msg] else [].
Definition must_be_positive (at_ field : string) (v : option N) : list string :=
  zero_error v (loc at_ field +:+ " must be > 0").
Definition must_be_ge_1 (at_ field : string) (v : option N) : list string :=
  zero_error v (loc at_ field +:+ " must be >= 1").

(** [for x in opt { .. }] on an optional table. *)
Definition check_opt {A} (f : A → list string) (o : option A) : list string :=
  match o with Some x => f x | None => [] end.

Definition validate_target_name (name : string) : Result string unit :=
  let ok := negb (is_empty name) && bool_decide (String.length name ≤ 128) &&
            all_bytes (λ c, is_ascii_alphanumeric c || bool_decide (c ∈ ["_"; "-"]%char)) name in
  if ok then Ok () else Err "mirror target names are 1-128 chars of [A-Za-z0-9_-]".

(** The [services] list: every repetition is an error. *)
Fixpoint check_services (at_ : string) (seen : list Service) (services : list Service) : list string :=
  match services with
  | [] => []
  | s :: rest =>
      (if bool_decide (s ∈ seen)
       then [loc at_ "services" +:+ " lists " +:+ quoted (as_str s) +:+ " more than once"]
       else []) ++ check_services at_ (s :: seen) rest
  end.

Definition check_gc (at_ : string) (gc : GcOverrides) : list string :=
  let dir '(name, d) :=
    check_opt (λ d, must_be_positive at_ ("gc." +:+ name +:+ ".interval") (gdo_interval d)) d in
  concat (dir <$> [("manifest", gco_manifest gc); ("wal", gco_wal gc);
                   ("wal_fence", gco_wal_fence gc); ("compacted", gco_compacted gc);
                   ("compactions", gco_compactions gc)]) ++
  check_opt (λ d, must_be_positive at_ "gc.detach.interval" (gto_interval d)) (gco_detach gc).

Definition check_scheduler (at_ cc : string) (s : SchedulerOverrides) : list string :=
  must_be_ge_1 at_ (cc +:+ ".scheduler.min_compaction_sources") (sco_min_compaction_sources s) ++
  must_be_ge_1 at_ (cc +:+ ".scheduler.max_compaction_sources") (sco_max_compaction_sources s) ++
  check_opt (λ t,
    if negb (positive_number t)
    then [loc at_ (cc +:+ ".scheduler.include_size_threshold") +:+ " must be a positive number"]
    else []) (sco_include_size_threshold s).

Definition check_coordinator (at_ : string) (c : CoordinatorOverrides) : list string :=
  let cc := "compactor-coordinator" in
  concat ((λ '(name, d), must_be_positive at_ (cc +:+ "." +:+ name) d) <$>
    [("poll_interval", cdo_poll_interval c);
     ("manifest_update_timeout", cdo_manifest_update_timeout c);
     ("commit_compacted_interval", cdo_commit_compacted_interval c);
     ("worker_heartbeat_timeout", cdo_worker_heartbeat_timeout c)]) ++
  must_be_ge_1 at_ (cc +:+ ".max_concurrent_compactions") (cdo_max_concurrent_compactions c) ++
  check_opt (check_scheduler at_ cc) (cdo_scheduler c).

Definition check_target (at_ : string) (e : string * MirrorTargetOverrides) : list string :=
  let '(name, t) := e in
  let table := "mirror.targets." +:+ name in
  match validate_target_name name with
  | Err e => [loc at_ table +:+ ": " +:+ e]
  | Ok _ => []
  end ++
  concat ((λ '(field, d), must_be_positive at_ (table +:+ "." +:+ field) d) <$>
    [("poll", mto_poll t); ("interval", mto_interval t); ("min_age", mto_min_age t);
     ("checkpoint_lifetime", mto_checkpoint_lifetime t)]) ++
  must_be_ge_1 at_ (table +:+ ".copy_parallelism") (mto_copy_parallelism t) ++
  check_opt (λ r, must_be_positive at_ (table +:+ ".retention.keep") (rto_keep r)) (mto_retention t).

Definition check_workers (at_ : string) (w : WorkersOverrides) : list string :=
  let cw := "compaction-workers" in
  zero_error (wko_count w)
    (loc at_ (cw +:+ ".count") +:+ " must be >= 1 (drop " +:+ quoted "compaction-workers" +:+
     " from services to run none)") ++
  must_be_ge_1 at_ (cw +:+ ".max_concurrent_compactions") (wko_max_concurrent_compactions w) ++
  must_be_positive at_ (cw +:+ ".compactions_poll_interval") (wko_compactions_poll_interval w) ++
  must_be_ge_1 at_ (cw +:+ ".max_fetch_tasks") (wko_max_fetch_tasks w) ++
  concat ((λ '(name, v), must_be_positive at_ (cw +:+ "." +:+ name) v) <$>
    [("max_sst_size", wko_max_sst_size w); ("bytes_to_fetch", wko_bytes_to_fetch w)]).

Definition check_database (o : DatabaseConfig) (at_ : string) : list string :=
  check_opt (check_services at_ []) (dbc_services o) ++
  check_opt (check_gc at_) (dbc_gc o) ++
  check_opt (check_coordinator at_) (dbc_compactor_coordinator o) ++
  check_opt (λ m, concat (check_target at_ <$> btree_iter (mro_targets m))) (dbc_mirror o) ++
  check_opt (check_workers at_) (dbc_compaction_workers o).

Section validate.
Context `{UrlLib, PercentLib, !ConfigLib}.

(** An enabled target of the resolved mirror table. *)
Definition check_resolved_target (at_ : string) (e : string * ResolvedMirrorTarget) : list string :=
  let '(name, target) := e in
  if rmt_disabled target then []
  else
    let table := "mirror.targets." +:+ name in
    match rmt_url target with
    | None => [loc at_ table +:+ ": url is required unless the target is disabled"]
    | Some url =>
        match canonicalize_url url with
        | Err e => [loc at_ table +:+ ".url: " +:+ display_url_error e]
        | Ok _ => []
        end
    end ++
    match rmt_source_prefix target with
    | Some prefix =>
        match canonicalize_url prefix with
        | Err e => [loc at_ table +:+ ".source_prefix: " +:+ display_url_error e]
        | Ok _ => []
        end
    | None => []
    end.

Definition check_resolved (r : ResolvedServices) (at_ : string) : list string :=
  let s := rcd_scheduler (rs_coordinator r) in
  (if decide (rsc_max_compaction_sources s < rsc_min_compaction_sources s)%N
   then [loc at_ "compactor-coordinator.scheduler" +:+ ": min_compaction_sources (" +:+
         decimal (rsc_min_compaction_sources s) +:+ ") exceeds max_compaction_sources (" +:+
         decimal (rsc_max_compaction_sources s) +:+ ")"]
   else []) ++
  concat (check_resolved_target at_ <$> btree_iter (rmr_targets (rs_mirror r))).

Definition validate (c : SleetConfig) : Result (list string) unit :=
  let node := cfg_node c in
  let errs :=
    (if decide (heartbeat_interval node = 0%N)
     then ["node.heartbeat_interval must be > 0"] else []) ++
    (if decide (heartbeat_timeout node ≤ heartbeat_interval node)%N
     then ["node.heartbeat_interval (" +:+ format_duration (heartbeat_interval node) +:+
           ") must be < node.heartbeat_timeout (" +:+ format_duration (heartbeat_timeout node) +:+ ")"]
     else []) ++
    (if decide (config_poll node = 0%N) then ["node.config_poll must be > 0"] else []) ++
    check_database (cfg_database c) "database" ++
    check_resolved (resolve c None) "database" in
  match errs with [] => Ok () | _ => Err errs end.

Definition validate_database (c : SleetConfig) (db : DatabaseConfig) : Result (list string) unit :=
  let errs := check_database db EmptyString ++ check_resolved (resolve c (Some db)) "resolved" in
  match errs with [] => Ok () | _ => Err errs end.

Definition parse_config (toml : string) : Result ParseError SleetConfig :=
  config ← map_err Toml (toml_config toml);
  _ ← map_err InvalidConfig (validate config);
  Ok config.

Definition parse_database (fleet : SleetConfig) (toml : string) : Result ParseError DatabaseConfig :=
  db ← map_err Toml (toml_database toml);
  _ ← map_err InvalidConfig (validate_database fleet db);
  Ok db.
End validate.

(** ** What a valid layer is *)

(** A property of a table, if the layer has it; a setting that is unset or
    not zero. *)
Definition opt_all {A} (P : A → Prop) (o : option A) : Prop :=
  match o with Some x => P x | None => True end.
Definition nonzero (v : option N) : Prop := v ≠ Some 0%N.

Definition target_name_valid (name : string) : Prop :=
  name ≠ EmptyString ∧ String.length name ≤ 128 ∧
  ∀ c, c ∈ bytes name → is_ascii_alphanumeric c = true ∨ c = "_"%char ∨ c = "-"%char.

Definition gc_valid (gc : GcOverrides) : Prop :=
  let dir_valid := opt_all (λ d, nonzero (gdo_interval d)) in
  dir_valid (gco_manifest gc) ∧ dir_valid (gco_wal gc) ∧ dir_valid (gco_wal_fence gc) ∧
  dir_valid (gco_compacted gc) ∧ dir_valid (gco_compactions gc) ∧
  opt_all (λ d, nonzero (gto_interval d)) (gco_detach gc).

Definition scheduler_valid (s : SchedulerOverrides) : Prop :=
  nonzero (sco_min_compaction_sources s) ∧ nonzero (sco_max_compaction_sources s) ∧
  opt_all (λ t, positive_number t = true) (sco_include_size_threshold s).

Definition coordinator_valid (c : CoordinatorOverrides) : Prop :=
  nonzero (cdo_poll_interval c) ∧ nonzero (cdo_manifest_update_timeout c) ∧
  nonzero (cdo_commit_compacted_interval c) ∧ nonzero (cdo_worker_heartbeat_timeout c) ∧
  nonzero (cdo_max_concurrent_compactions c) ∧ opt_all scheduler_valid (cdo_scheduler c).

Definition target_valid (name : string) (t : MirrorTargetOverrides) : Prop :=
  target_name_valid name ∧ nonzero (mto_poll t) ∧ nonzero (mto_interval t) ∧
  nonzero (mto_min_age t) ∧ nonzero (mto_checkpoint_lifetime t) ∧
  nonzero (mto_copy_parallelism t) ∧ opt_all (λ r, nonzero (rto_keep r)) (mto_retention t).

Definition workers_valid (w : WorkersOverrides) : Prop :=
  nonzero (wko_count w) ∧ nonzero (wko_max_concurrent_compactions w) ∧
  nonzero (wko_compactions_poll_interval w) ∧ nonzero (wko_max_fetch_tasks w) ∧
  nonzero (wko_max_sst_size w) ∧ nonzero (wko_bytes_to_fetch w).

Definition database_valid (o : DatabaseConfig) : Prop :=
  opt_all (@NoDup Service) (dbc_services o) ∧
  opt_all gc_valid (dbc_gc o) ∧
  opt_all coordinator_valid (dbc_compactor_coordinator o) ∧
  opt_all (λ m, ∀ name t, mro_targets m !! name = Some t → target_valid name t) (dbc_mirror o) ∧
  opt_all workers_valid (dbc_compaction_workers o).

(** ** The checks report nothing exactly on valid layers *)
Create HintDb checks.

Lemma app_nil_iff {A} (l k : list A) : l ++ k = [] ↔ l = [] ∧ k = [].
Proof. destruct l; naive_solver. Qed.
Lemma concat_nil_iff {A} (ls : list (list A)) : concat ls = [] ↔ ∀ l, l ∈ ls → l = [].
Proof.
  induction ls as [|l ls IH]; simpl; [set_solver|]. rewrite app_nil_iff, IH. set_solver.
Qed.
Lemma zero_error_nil v msg : zero_error v msg = [] ↔ nonzero v.
Proof. unfold zero_error, nonzero. by case_decide. Qed.
Lemma must_be_positive_nil a f v : must_be_positive a f v = [] ↔ nonzero v.
Proof. apply zero_error_nil. Qed.
Lemma must_be_ge_1_nil a f v : must_be_ge_1 a f v = [] ↔ nonzero v.
Proof. apply zero_error_nil. Qed.
Lemma check_opt_nil {A} (f : A → list string) o : check_opt f o = [] ↔ opt_all (λ x, f x = []) o.
Proof. by destruct o. Qed.
Lemma opt_all_iff {A} (P Q : A → Prop) o : (∀ x, P x ↔ Q x) → opt_all P o ↔ opt_all Q o.
Proof. destruct o; simpl; auto. Qed.

Lemma check_opt_positive {A} a f (g : A → option N) o :
  check_opt (λ x, must_be_positive a f (g x)) o = [] ↔ opt_all (λ x, nonzero (g x)) o.
Proof. rewrite check_opt_nil. apply opt_all_iff. intros x. apply must_be_positive_nil. Qed.

Lemma validate_target_name_ok name :
  (∃ u, validate_target_name name = Ok u) ↔ target_name_valid name.
Proof.
  unfold validate_target_name, target_name_valid, is_empty. cbv zeta.
  set (ok := _ && _ && _). assert (Hok : ok = true ↔ name ≠ EmptyString ∧ String.length name ≤ 128 ∧
    (∀ c, c ∈ bytes name → is_ascii_alphanumeric c = true ∨ c = "_"%char ∨ c = "-"%char)).
  { unfold ok. rewrite !andb_true_iff, negb_true_iff, bool_decide_eq_false, bool_decide_eq_true,
      all_bytes_spec.
    assert (Hc : ∀ c, is_ascii_alphanumeric c || bool_decide (c ∈ ["_"; "-"]%char) = true ↔
      is_ascii_alphanumeric c = true ∨ c = "_"%char ∨ c = "-"%char).
    { intros c. rewrite orb_true_iff, bool_decide_eq_true. set_solver. }
    split; [intros [[??] Hb]|intros (?&?&Hb)]; split_and!; try done; intros c Hin; by apply Hc, Hb. }
  rewrite <-Hok. destruct ok; naive_solver.
Qed.

Lemma check_services_nil a seen l :
  check_services a seen l = [] ↔ NoDup l ∧ ∀ s, s ∈ l → s ∉ seen.
Proof.
  revert seen. induction l as [|s l IH]; intros seen; simpl.
  - split; [|done]. intros _. split; [constructor|]. set_solver.
  - rewrite app_nil_iff, IH, NoDup_cons. case_bool_decide; set_solver.
Qed.

Lemma check_gc_nil a gc : check_gc a gc = [] ↔ gc_valid gc.
Proof.
  unfold check_gc, gc_valid. cbv beta zeta.
  simpl concat. rewrite !app_nil_iff, !check_opt_positive. tauto.
Qed.

Lemma check_scheduler_nil a cc s : check_scheduler a cc s = [] ↔ scheduler_valid s.
Proof.
  unfold check_scheduler, scheduler_valid.
  rewrite !app_nil_iff, !must_be_ge_1_nil, check_opt_nil.
  do 2 f_equiv. apply opt_all_iff. intros t. by destruct (positive_number t).
Qed.

Lemma check_coordinator_nil a c : check_coordinator a c = [] ↔ coordinator_valid c.
Proof.
  unfold check_coordinator, coordinator_valid. simpl concat.
  rewrite !app_nil_iff, !must_be_positive_nil, must_be_ge_1_nil, check_opt_nil.
  rewrite (opt_all_iff _ scheduler_valid) by (intros; apply check_scheduler_nil). tauto.
Qed.

Lemma check_target_nil a name t : check_target a (name, t) = [] ↔ target_valid name t.
Proof.
  unfold check_target, target_valid. simpl concat. rewrite <-validate_target_name_ok.
  rewrite !app_nil_iff, !must_be_positive_nil, must_be_ge_1_nil, check_opt_positive.
  destruct (validate_target_name name); naive_solver.
Qed.

Lemma check_workers_nil a w : check_workers a w = [] ↔ workers_valid w.
Proof.
  unfold check_workers, workers_valid. simpl concat.
  rewrite !app_nil_iff, zero_error_nil, !must_be_positive_nil, !must_be_ge_1_nil. tauto.
Qed.

Lemma check_database_nil o a : check_database o a = [] ↔ database_valid o.
Proof.
  unfold check_database, database_valid. rewrite !app_nil_iff, !check_opt_nil.
  rewrite (opt_all_iff _ gc_valid) by (intros; apply check_gc_nil).
  rewrite (opt_all_iff _ coordinator_valid) by (intros; apply check_coordinator_nil).
  rewrite (opt_all_iff _ workers_valid) by (intros; apply check_workers_nil).
  rewrite (opt_all_iff _ (@NoDup Service)); [rewrite (opt_all_iff _ (λ m, ∀ name t,
    mro_targets m !! name = Some t → target_valid name t)); [done|]|].
  - intros m. rewrite concat_nil_iff. split.
    + intros Hm name t Ht. apply (check_target_nil a), Hm, list_elem_of_fmap.
      exists (name, t). by rewrite elem_of_btree_iter.
    + intros Hm l ([name t] & -> & Hin%elem_of_btree_iter)%list_elem_of_fmap.
      apply check_target_nil. auto.
  - intros l. rewrite check_services_nil. set_solver.
Qed.

(** ** What services can run with *)
Definition gc_ok (gc : ResolvedGc) : Prop :=
  rgd_interval (rgc_manifest gc) ≠ 0%N ∧ rgd_interval (rgc_wal gc) ≠ 0%N ∧
  rgd_interval (rgc_wal_fence gc) ≠ 0%N ∧ rgd_interval (rgc_compacted gc) ≠ 0%N ∧
  rgd_interval (rgc_compactions gc) ≠ 0%N ∧ rgt_interval (rgc_detach gc) ≠ 0%N.
Definition scheduler_ok (s : ResolvedScheduler) : Prop :=
  rsc_min_compaction_sources s ≠ 0%N ∧ rsc_max_compaction_sources s ≠ 0%N ∧
  positive_number (rsc_include_size_threshold s) = true.
Definition coordinator_ok (c : ResolvedCoordinator) : Prop :=
  rcd_poll_interval c ≠ 0%N ∧ rcd_manifest_update_timeout c ≠ 0%N ∧
  rcd_commit_compacted_interval c ≠ 0%N ∧ rcd_worker_heartbeat_timeout c ≠ 0%N ∧
  rcd_max_concurrent_compactions c ≠ 0%N ∧ scheduler_ok (rcd_scheduler c).
Definition workers_ok (w : ResolvedWorkers) : Prop :=
  rwk_count w ≠ 0%N ∧ rwk_max_concurrent_compactions w ≠ 0%N ∧
  rwk_compactions_poll_interval w ≠ 0%N ∧ rwk_max_fetch_tasks w ≠ 0%N ∧
  rwk_max_sst_size w ≠ 0%N ∧ rwk_bytes_to_fetch w ≠ 0%N.
Definition target_ok (t : ResolvedMirrorTarget) : Prop :=
  rmt_poll t ≠ 0%N ∧ rmt_interval t ≠ 0%N ∧ rmt_min_age t ≠ 0%N ∧
  rmt_checkpoint_lifetime t ≠ 0%N ∧ rmt_copy_parallelism t ≠ 0%N ∧ rmt_keep t ≠ Some 0%N.

(** Every field within its bounds. *)
Definition resolved_fields_ok (r : ResolvedServices) : Prop :=
  NoDup (rs_services r) ∧ gc_ok (rs_gc r) ∧ coordinator_ok (rs_coordinator r) ∧
  workers_ok (rs_workers r) ∧
  ∀ name t, rmr_targets (rs_mirror r) !! name = Some t → target_name_valid name ∧ target_ok t.

Lemma default_nonzero (o : option N) r : nonzero o → r ≠ 0%N → default r o ≠ 0%N.
Proof. destruct o; simpl; [|done]. unfold nonzero. congruence. Qed.
#[export] Hint Resolve default_nonzero : checks.

(** Splits a conjunction of field bounds and closes each from the layer's and
    the previous value's. *)
Ltac fields_ok := intros; destruct_and?; split_and?; simpl; auto with checks.

Lemma apply_opt_ok {O R} (ap : O → R → R) (V : O → Prop) (K : R → Prop) o r :
  (∀ o r, V o → K r → K (ap o r)) → opt_all V o → K r → K (apply_opt ap o r).
Proof. destruct o; simpl; auto. Qed.

Lemma gc_apply_ok o r : gc_valid o → gc_ok r → gc_ok (GcOverrides_apply o r).
Proof.
  intros (?&?&?&?&?&?) (?&?&?&?&?&?). unfold gc_ok. simpl.
  assert (Hd : ∀ o r, opt_all (λ d, nonzero (gdo_interval d)) o → rgd_interval r ≠ 0%N →
    rgd_interval (apply_opt GcDirectoryOverrides_apply o r) ≠ 0%N).
  { intros [o'|] r' ??; simpl in *; auto with checks. }
  split_and!; auto. destruct (gco_detach o); simpl in *; auto with checks.
Qed.

Lemma scheduler_apply_ok o r : scheduler_valid o → scheduler_ok r → scheduler_ok (SchedulerOverrides_apply o r).
Proof.
  intros (?&?&Ht) (?&?&?). unfold scheduler_ok. fields_ok.
  by destruct (sco_include_size_threshold o).
Qed.

Lemma coordinator_apply_ok o r :
  coordinator_valid o → coordinator_ok r → coordinator_ok (CoordinatorOverrides_apply o r).
Proof.
  intros (?&?&?&?&?&?) (?&?&?&?&?&?). unfold coordinator_ok. split_and!; simpl; auto with checks.
  eapply apply_opt_ok; eauto using scheduler_apply_ok.
Qed.

Lemma workers_apply_ok o r : workers_valid o → workers_ok r → workers_ok (WorkersOverrides_apply o r).
Proof. unfold workers_valid, workers_ok. fields_ok. Qed.

Lemma target_apply_ok name o r : target_valid name o → target_ok r → target_ok (MirrorTargetOverrides_apply o r).
Proof.
  intros (_&?&?&?&?&?&Hk) (?&?&?&?&?&?). unfold target_ok. split_and!; simpl; auto with checks.
  destruct (mto_retention o) as [[[k|]]|]; unfold nonzero in *; simpl in *; done.
Qed.

Lemma database_apply_ok o r :
  database_valid o → resolved_fields_ok r → resolved_fields_ok (DatabaseConfig_apply o r).
Proof.
  intros (Hs & Hg & Hc & Hm & Hw) (?&?&?&?&Ht). unfold resolved_fields_ok. simpl. split_and!.
  - by destruct (dbc_services o).
  - eapply apply_opt_ok; eauto using gc_apply_ok.
  - eapply apply_opt_ok; eauto using coordinator_apply_ok.
  - eapply apply_opt_ok; eauto using workers_apply_ok.
  - destruct (dbc_mirror o) as [m|]; [|exact Ht]. intros name t. unfold apply_opt.
    rewrite MirrorOverrides_apply_lookup. destruct (mro_targets m !! name) as [o'|] eqn:E; [|apply Ht].
    intros [= <-]. specialize (Hm _ _ E). split; [apply Hm|]. eapply target_apply_ok; [done|].
    destruct (rmr_targets _ !! name) eqn:E'; simpl; [by eapply Ht|done].
Qed.

Lemma defaults_ok : resolved_fields_ok ResolvedServices_default.
Proof.
  unfold resolved_fields_ok. split_and!; try done.
  - apply (bool_decide_unpack _). by vm_compute.
Qed.

Lemma resolve_fields_ok c db :
  database_valid (cfg_database c) → opt_all database_valid db → resolved_fields_ok (resolve c db).
Proof.
  intros Hc Hdb. unfold resolve. cbv zeta.
  pose proof (database_apply_ok _ _ Hc defaults_ok). destruct db; [by apply database_apply_ok|done].
Qed.

Section claims.
Context `{UrlLib, PercentLib, !ConfigLib}.

(** The checks on the layered result: the scheduler's bounds are ordered and
    every enabled mirror target can be mapped. *)
Definition resolved_cross_ok (r : ResolvedServices) : Prop :=
  (rsc_min_compaction_sources (rcd_scheduler (rs_coordinator r)) ≤
   rsc_max_compaction_sources (rcd_scheduler (rs_coordinator r)))%N ∧
  ∀ name t, rmr_targets (rs_mirror r) !! name = Some t → rmt_disabled t = false →
    (∃ url c, rmt_url t = Some url ∧ canonicalize_url url = Ok c) ∧
    opt_all (λ p, ∃ c, canonicalize_url p = Ok c) (rmt_source_prefix t).

Definition node_ok (n : NodeConfig) : Prop :=
  (0 < heartbeat_interval n < heartbeat_timeout n)%N ∧ config_poll n ≠ 0%N.

Lemma check_resolved_target_nil a name t :
  check_resolved_target a (name, t) = [] ↔
  (rmt_disabled t = false →
    (∃ url c, rmt_url t = Some url ∧ canonicalize_url url = Ok c) ∧
    opt_all (λ p, ∃ c, canonicalize_url p = Ok c) (rmt_source_prefix t)).
Proof.
  unfold check_resolved_target. destruct (rmt_disabled t); [naive_solver|].
  cbv zeta. rewrite app_nil_iff. split.
  - intros [Hu Hp] _. split.
    + destruct (rmt_url t) as [u|]; [|done]. destruct (canonicalize_url u) eqn:E; [eauto|done].
    + destruct (rmt_source_prefix t) as [p|]; [|done]. simpl.
      destruct (canonicalize_url p) eqn:E; [eauto|done].
  - intros Hn. destruct (Hn eq_refl) as [(u & c & -> & ->) Hp]. split; [done|].
    destruct (rmt_source_prefix t) as [p|]; [|done]. by destruct Hp as [c' ->].
Qed.

Lemma check_resolved_nil r a : check_resolved r a = [] ↔ resolved_cross_ok r.
Proof.
  unfold check_resolved, resolved_cross_ok. cbv zeta. rewrite app_nil_iff, concat_nil_iff.
  case_decide; [split; [by intros [? _]|lia]|]. split.
  - intros [_ Ht]. split; [lia|]. intros name t Hl.
    apply (check_resolved_target_nil a name t), Ht, list_elem_of_fmap.
    exists (name, t). by rewrite elem_of_btree_iter.
  - intros [_ Ht]. split; [done|].
    intros l ([name t] & -> & Hin%elem_of_btree_iter)%list_elem_of_fmap.
    apply check_resolved_target_nil. eauto.
Qed.

Lemma errs_ok (errs : list string) :
  match errs with [] => Ok () | _ => Err errs end = Ok () ↔ errs = [].
Proof. by destruct errs. Qed.

Lemma validate_database_iff c db :
  validate_database c db = Ok () ↔ database_valid db ∧ resolved_cross_ok (resolve c (Some db)).
Proof.
  unfold validate_database. cbv zeta.
  by rewrite errs_ok, app_nil_iff, check_database_nil, check_resolved_nil.
Qed.

Lemma validate_iff c :
  validate c = Ok () ↔
  node_ok (cfg_node c) ∧ database_valid (cfg_database c) ∧ resolved_cross_ok (resolve c None).
Proof.
  unfold validate, node_ok. cbv zeta.
  rewrite errs_ok, !app_nil_iff, check_database_nil, check_resolved_nil.
  repeat case_decide; (split; [intros (?&?&?&?&?)|intros ([??]&?&?)]; split_and?; try done; lia).
Qed.

(** C24: validation is exact: a [sleet.toml] is accepted precisely when the
    heartbeat interval is positive and below the timeout, the config poll is
    positive, every set field of its [[database]] table is in bounds, and the
    settings it resolves to are consistent (scheduler bounds ordered, every
    enabled target with a canonicalizable destination and prefix); a
    [dbs/<db>.toml] precisely when its own fields and the layered result are.
    Anything else is reported with at least one message. *)
Theorem validation_exact c db :
  (validate c = Ok () ↔
    node_ok (cfg_node c) ∧ database_valid (cfg_database c) ∧ resolved_cross_ok (resolve c None)) ∧
  (validate_database c db = Ok () ↔
    database_valid db ∧ resolved_cross_ok (resolve c (Some db))) ∧
  validate c ≠ Err [] ∧ validate_database c db ≠ Err [].
Proof.
  split_and!.
  - apply validate_iff.
  - apply validate_database_iff.
  - unfold validate. cbv zeta. by case_match.
  - unfold validate_database. cbv zeta. by case_match.
Qed.

Lemma parsed_settings_ok fleet_toml db_toml fleet db :
  parse_config fleet_toml = Ok fleet →
  parse_database fleet db_toml = Ok db →
  resolved_fields_ok (resolve fleet (Some db)) ∧
  resolved_cross_ok (resolve fleet (Some db)) ∧
  resolved_fields_ok (resolve fleet None) ∧
  resolved_cross_ok (resolve fleet None) ∧
  node_ok (cfg_node fleet).
Proof.
  unfold parse_config, parse_database.
  intros (c & _ & ([] & Hv & [= ->])%result_bind_ok)%result_bind_ok.
  intros (d & _ & ([] & Hd & [= ->])%result_bind_ok)%result_bind_ok.
  assert (Hv' : validate fleet = Ok ()) by (by destruct (validate fleet) as [[]|]).
  assert (Hd' : validate_database fleet db = Ok ()) by (by destruct (validate_database fleet db) as [[]|]).
  apply validate_iff in Hv' as (?&?&?). apply validate_database_iff in Hd' as [??].
  split_and!; try done; by apply resolve_fields_ok.
Qed.

End claims.

Import Registry.Concrete.

(** A loader over two documents: a fleet with a mirror target, and a database
    that narrows its services. *)
Definition example_fleet : SleetConfig := {|
  cfg_node := NodeConfig_default;
  cfg_database := Build_DatabaseConfig None None None None (Some {| mro_targets := {[
    "backup" := Build_MirrorTargetOverrides (Some "s3://bak") None None None None None None
                  None None None None ]} |});
|}.
Definition example_database : DatabaseConfig :=
  Build_DatabaseConfig (Some [Mirror; Gc]) None None None None.
#[local] Instance example_lib : ConfigLib := {|
  TomlError := unit;
  toml_config := λ _, Ok example_fleet;
  toml_database := λ _, Ok example_database;
  format_duration := decimal;
  debug_str := quoted;
  display_url_parse_error := λ e, e;
  display_toml_error := λ _, "invalid TOML";
|}.

