(* ===== verification/Targets.v ===== *)
(** * Mirror targets of a database (src/mirror/mod.rs)

    [destination_for] maps a database through one resolved target,
    [applied_targets] through the whole table.  The theorems: a target applies
    exactly as documented, prefixes match at path-segment boundaries, a
    database is never mirrored onto itself, and a prefix target sends no two
    databases to the same place. *)

From Stdlib Require Import Ascii.
From S2P Require Import Prelude Order Text Service Registry Config.

Record AppliedTarget := {
  at_name : string;
  at_destination : string;
  at_settings : ResolvedMirrorTarget;
}.

(** [!rest.is_empty() && !rest.starts_with('/')], negated. *)
Definition at_boundary (rest : string) : bool :=
  is_empty rest || bool_decide (is_Some (strip_prefix "/" rest)).

Lemma at_boundary_spec rest :
  at_boundary rest = true ↔ rest = EmptyString ∨ ∃ r, rest = String "/" r.
Proof.
  unfold at_boundary, is_empty. rewrite orb_true_iff, !bool_decide_eq_true. f_equiv.
  split; [intros [r ->%strip_prefix_spec]|intros [r ->]]; eauto.
Qed.

Section targets.
Context `{UrlLib, PercentLib}.

Definition destination_for (db_url : string) (settings : ResolvedMirrorTarget) : option string :=
  if rmt_disabled settings then None
  else
    u ← rmt_url settings;
    url ← result_ok (canonicalize_url u);
    destination ← match rmt_source_prefix settings with
                  | None => Some url
                  | Some p =>
                      prefix ← result_ok (canonicalize_url p);
                      rest ← strip_prefix prefix db_url;
                      if at_boundary rest then Some (url +:+ rest) else None
                  end;
    if decide (destination = db_url) then None else Some destination.

(** One entry of the [filter_map] of [applied_targets]. *)
Definition applied_target (db_url : string) (e : string * ResolvedMirrorTarget) : option AppliedTarget :=
  destination ← destination_for db_url e.2;
  Some {| at_name := e.1; at_destination := destination; at_settings := e.2 |}.

Definition applied_targets (db_url : string) (mirror : ResolvedMirror) : list AppliedTarget :=
  omap (applied_target db_url) (btree_iter (rmr_targets mirror)).

(** ** Specification *)

(** [prefix] covers [db] with [rest] left, at a segment boundary. *)
Definition covers (prefix db rest : string) : Prop :=
  db = prefix +:+ rest ∧ (rest = EmptyString ∨ ∃ r, rest = String "/" r).

(** Where the target sends [db], by the documentation. *)
Definition sends (settings : ResolvedMirrorTarget) (db dest : string) : Prop :=
  rmt_disabled settings = false ∧ dest ≠ db ∧
  ∃ u url, rmt_url settings = Some u ∧ canonicalize_url u = Ok url ∧
    match rmt_source_prefix settings with
    | None => dest = url
    | Some p => ∃ prefix rest, canonicalize_url p = Ok prefix ∧ covers prefix db rest ∧ dest = url +:+ rest
    end.

Lemma result_ok_Some {E T} (r : Result E T) x : result_ok r = Some x ↔ r = Ok x.
Proof. destruct r; naive_solver. Qed.

Lemma destination_for_sends db s dest : destination_for db s = Some dest ↔ sends s db dest.
Proof.
  unfold destination_for, sends, covers. destruct (rmt_disabled s); [naive_solver|].
  rewrite bind_Some. setoid_rewrite bind_Some. setoid_rewrite bind_Some. setoid_rewrite result_ok_Some.
  destruct (rmt_source_prefix s) as [p|].
  - setoid_rewrite bind_Some. setoid_rewrite bind_Some. setoid_rewrite result_ok_Some.
    setoid_rewrite strip_prefix_spec. split.
    + intros (u & Hu & url & Hc & d & (prefix & Hp & rest & -> & Hb) & Hd).
      destruct (at_boundary rest) eqn:Eb; [|done]. rewrite at_boundary_spec in Eb. simplify_eq.
      case_decide; simplify_eq. split_and!; [done|done|]. exists u, url. split_and!; [done|done|].
      by exists prefix, rest.
    + intros (_ & Hne & u & url & Hu & Hc & prefix & rest & Hp & [-> Hr%at_boundary_spec] & ->).
      exists u. split; [done|]. exists url. split; [done|]. exists (url +:+ rest). split.
      * exists prefix. split; [done|]. exists rest. by rewrite Hr.
      * by rewrite decide_False.
  - split.
    + intros (u & Hu & url & Hc & d & [= <-] & Hd). case_decide; simplify_eq. naive_solver.
    + intros (_ & Hne & u & url & Hu & Hc & ->). exists u. split; [done|]. exists url.
      split; [done|]. exists url. split; [done|]. by rewrite decide_False.
Qed.

Lemma elem_of_applied_targets db m t :
  t ∈ applied_targets db m ↔
  rmr_targets m !! at_name t = Some (at_settings t) ∧ sends (at_settings t) db (at_destination t).
Proof.
  unfold applied_targets. rewrite list_elem_of_omap. unfold applied_target.
  setoid_rewrite <-destination_for_sends. split.
  - intros ([name s] & Hin%elem_of_btree_iter & (d & Hd & [= <-])%bind_Some). done.
  - intros [Hl Hd]. exists (at_name t, at_settings t). split; [by apply elem_of_btree_iter|].
    simpl. rewrite Hd. by destruct t.
Qed.

(** The applied names are table names in order. *)
Lemma applied_names db m :
  at_name <$> applied_targets db m =
    filter (λ n, is_Some (s ← rmr_targets m !! n; destination_for db s)) (btree_keys (rmr_targets m)).
Proof.
  unfold applied_targets, btree_keys. rewrite filter_fmap.
  assert (Hl : Forall (λ e, rmr_targets m !! e.1 = Some e.2) (btree_iter (rmr_targets m))).
  { rewrite Forall_forall. intros [n s] Hin. by apply elem_of_btree_iter. }
  revert Hl. generalize (btree_iter (rmr_targets m)). intros l Hl.
  induction Hl as [|[n s] l Hns Hl IH]; [done|]. csimpl in *. rewrite filter_cons. csimpl. rewrite Hns. csimpl.
  unfold applied_target at 1. csimpl. destruct (destination_for db s) as [d|]; csimpl; by rewrite IH.
Qed.

Lemma NoDup_applied_names db m : NoDup (at_name <$> applied_targets db m).
Proof.
  rewrite applied_names. eapply sublist_NoDup; [apply (NoDup_btree_keys (rmr_targets m))|apply sublist_filter].
Qed.

(** A database's mirror targets are exactly the documented ones: each
    enabled target whose prefix, if it has one, covers the database at a
    path-segment boundary, with the destination [url] plus the stripped path;
    they come in ascending order of name without repetition; and no database
    is mirrored onto itself. *)
Theorem applied_targets_spec db m :
  (∀ t, t ∈ applied_targets db m ↔
    rmr_targets m !! at_name t = Some (at_settings t) ∧ sends (at_settings t) db (at_destination t)) ∧
  NoDup (at_name <$> applied_targets db m) ∧
  StronglySorted String.le (at_name <$> applied_targets db m) ∧
  (∀ t, t ∈ applied_targets db m → at_destination t ≠ db).
Proof.
  split_and!.
  - intros t. apply elem_of_applied_targets.
  - apply NoDup_applied_names.
  - rewrite applied_names. apply StronglySorted_filter. exact (btree_keys_sorted (rmr_targets m)).
  - intros t [_ (_ & ? & _)]%elem_of_applied_targets. done.
Qed.

(** A target with a source prefix sends no two databases to the same
    place, and it captures a database only if the database is the prefix or
    extends it by whole path segments. *)
Theorem prefix_target_injective s db1 db2 dest p :
  rmt_source_prefix s = Some p →
  destination_for db1 s = Some dest →
  destination_for db2 s = Some dest →
  db1 = db2 ∧
  ∃ prefix, canonicalize_url p = Ok prefix ∧ (db1 = prefix ∨ ∃ r, db1 = prefix +:+ "/" +:+ r).
Proof.
  rewrite !destination_for_sends. unfold sends. intros Hp.
  rewrite Hp. intros (_ & _ & u & url & Hu & Hc & pre & r1 & Hpre & [-> Hr] & ->).
  intros (_ & _ & u' & url' & Hu' & Hc' & pre' & r2 & Hpre' & [-> _] & Hd).
  rewrite Hu in Hu'. injection Hu' as <-. rewrite Hc in Hc'. injection Hc' as <-.
  rewrite Hpre in Hpre'. injection Hpre' as <-.
  assert (r1 = r2) as <-.
  { apply (inj String.list_ascii_of_string). apply (f_equal String.list_ascii_of_string) in Hd.
    rewrite !bytes_app in Hd. by apply (inj _) in Hd. }
  split; [done|]. exists pre. split; [done|]. destruct Hr as [->|[r ->]]; [left|right].
  - apply app_nil_r.
  - by exists r.
Qed.
End targets.

(** A target that maps a bucket below a backup root. *)
Definition example_prefix_target : ResolvedMirrorTarget :=
  MirrorTargetOverrides_apply
    (Build_MirrorTargetOverrides (Some "s3://dr/mirrors") (Some "s3://data/") None None None None
       None None None None None) ResolvedMirrorTarget_default.

Lemma prefix_target_injective_witness :
  let dest := destination_for (H:=Registry.Concrete.url_lib) in
  dest "s3://data/db1" example_prefix_target = Some "s3://dr/mirrors/db1" ∧
  dest "s3://database/x" example_prefix_target = None ∧
  "s3://data/db1" = "s3://data/db1".
Proof.
  split; [reflexivity|]. split; [reflexivity|].
  apply (prefix_target_injective (H:=Registry.Concrete.url_lib) example_prefix_target
    "s3://data/db1" "s3://data/db1" "s3://dr/mirrors/db1" "s3://data/"); reflexivity.
Defined.
