(* ===== verification/Poller.v ===== *)
(** * The [config_poll] read (struct ConfigPoller of src/root.rs)

    A poll re-reads [sleet.toml] and the registry under [dbs/], keeping the
    last good config on failures and skipping unchanged bodies by ETag.  The
    store's answers to one poll are the argument [reads]: each object is
    fetched at most once per poll, so a function of the path covers every
    interleaving with writers.

    The theorems: the config in use was always validated; one entry per
    canonical URL survives, the canonical spelling before aliases; failures
    keep what was last good; what a poll fetches. *)

From S2P Require Import Prelude Order Text Service Store Root Registry Config Validate.

(** What the store answers during one poll.  [rd_config] is the GET of
    [sleet.toml]: its ETag, and the result of streaming its body. *)
Record PollReads `{StoreLib} := {
  rd_config : Result StoreError (option string * Result StoreError string);
  rd_list : Result StoreError (list ObjectMeta);
  rd_file : StorePath → Result StoreError string;
}.

Record FleetState := {
  fs_config : SleetConfig;
  fs_databases : gmap string DatabaseConfig;
  fs_warnings : list string;
}.

Record CachedFile := {
  cf_etag : option string;
  cf_config : option DatabaseConfig;
}.

Record ConfigPoller := {
  cp_config_etag : option string;
  cp_config : SleetConfig;
  cp_files : gmap string CachedFile;
  cp_databases : gmap string DatabaseConfig;
}.
Definition ConfigPoller_default : ConfigPoller := {|
  cp_config_etag := None;
  cp_config := SleetConfig_default;
  cp_files := ∅;
  cp_databases := ∅;
|}.

Section poller.
Context `{StoreLib, UrlLib, PercentLib, !ConfigLib}.
(** [Utf8Error]'s text for a body. *)
Context (utf8_error : string → string).

(** [str::from_utf8] and the parser, errors as text. *)
Definition parse_body {T} (parse : string → Result ParseError T) (body : string) : Result string T :=
  if valid_utf8 body then map_err display_parse_error (parse body) else Err (utf8_error body).

Definition poll_config (root : FleetRoot) (reads : PollReads) (p : ConfigPoller)
    : ConfigPoller * list string :=
  let path := path_display (config_path root) in
  let read_failed e :=
    "failed to read " +:+ path +:+ ": " +:+ display_store_error e +:+ "; keeping last good config" in
  let set etag config :=
    {| cp_config_etag := etag; cp_config := config; cp_files := cp_files p; cp_databases := cp_databases p |} in
  match rd_config reads with
  | Err (NotFound _) => (set None SleetConfig_default, [])
  | Err e => (p, [read_failed e])
  | Ok (etag, body) =>
      if bool_decide (is_Some etag) && bool_decide (etag = cp_config_etag p) then (p, [])
      else
        match body with
        | Err e => (p, [read_failed e])
        | Ok body =>
            match parse_body parse_config body with
            | Ok config => (set etag config, [])
            | Err e => (p, ["invalid " +:+ path +:+ ": " +:+ e +:+ "; keeping last good config"])
            end
        end
  end.

(** A decoded registry entry: whether it is an alias, its file name, its
    canonical URL and its metadata. *)
Record RegistryEntry := {
  re_alias : bool;
  re_name : string;
  re_url : string;
  re_meta : ObjectMeta;
}.

(** The decoding loop's body: warnings and the entry, if usable. *)
Definition decode_entry (meta : ObjectMeta) : list string * option RegistryEntry :=
  match filename (location meta) with
  | None => ([], None)
  | Some name =>
      match parse_file_name name with
      | None => (["ignoring non-registry object " +:+ path_display (location meta)], None)
      | Some decoded =>
          match canonicalize_database_url decoded with
          | Err e => (["ignoring registry entry " +:+ name +:+ ": " +:+ display_url_error e], None)
          | Ok canonical =>
              (if decide (canonical = decoded) then []
               else ["registry entry " +:+ name +:+ " is not canonical (decodes to " +:+
                     debug_str decoded +:+ ", canonical " +:+ debug_str canonical +:+ ")"],
               Some {| re_alias := negb (bool_decide (canonical = decoded)); re_name := name;
                       re_url := canonical; re_meta := meta |})
          end
      end
  end.

(** [(a.0, &a.1).cmp(&(b.0, &b.1))]: canonical spellings first, then by
    file name. *)
Definition entry_order (a b : RegistryEntry) : Prop :=
  (re_alias a = false ∧ re_alias b = true) ∨ (re_alias a = re_alias b ∧ String.le (re_name a) (re_name b)).
#[export] Instance entry_order_dec : RelDecision entry_order.
Proof. intros a b. unfold entry_order. apply _. Defined.

(** [DatabaseConfig { services: Some(Vec::new()), .. }] *)
Definition disabled_database : DatabaseConfig := Build_DatabaseConfig (Some []) None None None None.

(** Whether the cached body can be used without a GET. *)
Definition cache_hit (files : gmap string CachedFile) (meta : ObjectMeta) (name : string)
    : option DatabaseConfig :=
  cached ← files !! name;
  if bool_decide (is_Some (cf_etag cached)) && bool_decide (cf_etag cached = e_tag meta)
  then cf_config cached else None.

(** [file_config]: the cache afterwards, the effective config, warnings. *)
Definition file_config (fleet : SleetConfig) (reads : PollReads) (files : gmap string CachedFile)
    (meta : ObjectMeta) (name : string) : gmap string CachedFile * DatabaseConfig * list string :=
  if decide (size meta = 0%N) then (files, DatabaseConfig_default, [])
  else
    match cache_hit files meta name with
    | Some config => (files, config, [])
    | None =>
        let parsed :=
          match rd_file reads (location meta) with
          | Err e => Err (display_store_error e)
          | Ok b => parse_body (parse_database fleet) b
          end in
        match parsed with
        | Ok db => (<[name := {| cf_etag := e_tag meta; cf_config := Some db |}]> files, db, [])
        | Err e =>
            match files !! name ≫= cf_config with
            | Some config =>
                (files, config, ["invalid registry entry " +:+ name +:+ ": " +:+ e +:+ "; keeping last good"])
            | None =>
                (files, disabled_database,
                 ["invalid registry entry " +:+ name +:+ ": " +:+ e +:+ "; database disabled"])
            end
        end
    end.

(** The second loop's state. *)
Record Registering := {
  rg_files : gmap string CachedFile;
  rg_databases : gmap string DatabaseConfig;
  rg_seen : gmap string string;
  rg_warnings : list string;
}.

Definition register_entry (fleet : SleetConfig) (reads : PollReads) (s : Registering)
    (e : RegistryEntry) : Registering :=
  match rg_seen s !! re_url e with
  | Some winner =>
      {| rg_files := rg_files s; rg_databases := rg_databases s; rg_seen := rg_seen s;
         rg_warnings := rg_warnings s ++
           ["registry entries " +:+ winner +:+ " and " +:+ re_name e +:+ " alias " +:+ re_url e +:+
            "; using " +:+ winner] |}
  | None =>
      let '(files, db, warnings) := file_config fleet reads (rg_files s) (re_meta e) (re_name e) in
      {| rg_files := files; rg_databases := <[re_url e := db]> (rg_databases s);
         rg_seen := <[re_url e := re_name e]> (rg_seen s); rg_warnings := rg_warnings s ++ warnings |}
  end.

(** The usable entries of a listing, in the order they register. *)
Definition registry_entries (metas : list ObjectMeta) : list RegistryEntry :=
  sort_by entry_order (omap (λ m, (decode_entry m).2) metas).

Definition register_all (fleet : SleetConfig) (reads : PollReads) (p : ConfigPoller)
    (metas : list ObjectMeta) : Registering :=
  fold_left (register_entry fleet reads) (registry_entries metas)
    {| rg_files := cp_files p; rg_databases := ∅; rg_seen := ∅;
       rg_warnings := concat ((λ m, (decode_entry m).1) <$> metas) |}.

Definition poll_registry (reads : PollReads) (p : ConfigPoller)
    : ConfigPoller * gmap string DatabaseConfig * list string :=
  match list_prefix (rd_list reads) with
  | Err e => (p, cp_databases p,
              ["failed to list registry: " +:+ display_store_error e +:+ "; keeping last good"])
  | Ok metas =>
      let s := register_all (cp_config p) reads p metas in
      let names := (map_to_list (rg_seen s)).*2 in
      ({| cp_config_etag := cp_config_etag p; cp_config := cp_config p;
          cp_files := filter (λ kv, kv.1 ∈ names) (rg_files s); cp_databases := rg_databases s |},
       rg_databases s, rg_warnings s)
  end.

Definition poll (root : FleetRoot) (reads : PollReads) (p : ConfigPoller) : ConfigPoller * FleetState :=
  let '(p1, w1) := poll_config root reads p in
  let '(p2, databases, w2) := poll_registry reads p1 in
  (p2, {| fs_config := cp_config p2; fs_databases := databases; fs_warnings := w1 ++ w2 |}).

(** [database_path]: the registry file of a canonical URL; [None] is the
    [expect]'s panic. *)
Definition database_path (root : FleetRoot) (canonical_url : string) : option StorePath :=
  path_parse (path_display (dbs_prefix root) +:+ "/" +:+ file_name canonical_url).

(** ** One entry *)

Lemma decode_entry_Some m e :
  (decode_entry m).2 = Some e ↔
  re_meta e = m ∧ filename (location m) = Some (re_name e) ∧
  ∃ decoded, parse_file_name (re_name e) = Some decoded ∧
    canonicalize_database_url decoded = Ok (re_url e) ∧
    re_alias e = negb (bool_decide (re_url e = decoded)).
Proof.
  unfold decode_entry. destruct (filename (location m)) as [name|]; [|naive_solver].
  destruct (parse_file_name name) as [decoded|] eqn:Ep; [|naive_solver].
  destruct (canonicalize_database_url decoded) as [c|] eqn:Ec; simpl.
  - split; [intros [= <-]; simpl; eauto 10|]. destruct e as [a n u mm]; simpl.
    intros (-> & [= ->] & d & Hd & Hu & ->). rewrite Ep in Hd. injection Hd as <-.
    rewrite Ec in Hu. by injection Hu as <-.
  - split; [done|]. intros (_ & [= <-] & d & Hd & Hu & _). congruence.
Qed.

(** The file's own cached version is all [file_config] consults, and all it
    changes. *)
Lemma file_config_local fleet reads files1 files2 meta name :
  files1 !! name = files2 !! name →
  let r1 := file_config fleet reads files1 meta name in
  let r2 := file_config fleet reads files2 meta name in
  r1.1.2 = r2.1.2 ∧ r1.2 = r2.2 ∧ r1.1.1 !! name = r2.1.1 !! name.
Proof.
  intros E. unfold file_config, cache_hit. rewrite !E. case_decide; [done|].
  repeat (case_match; simpl; try done). by rewrite !lookup_insert_eq.
Qed.

Lemma file_config_frame fleet reads files meta name name' :
  name ≠ name' → (file_config fleet reads files meta name).1.1 !! name' = files !! name'.
Proof.
  intros E. unfold file_config. case_decide; [done|].
  repeat (case_match; simpl; try done). by rewrite lookup_insert_ne.
Qed.

(** ** The registration loop *)

(** The entry that registers a URL: the first in order. *)
Definition winner (l : list RegistryEntry) (url : string) : option RegistryEntry :=
  head (filter (λ e, re_url e = url) l).

(** The config an entry gets from the cache as the poll found it. *)
Definition effective (fleet : SleetConfig) (reads : PollReads) (files : gmap string CachedFile)
    (e : RegistryEntry) : DatabaseConfig :=
  (file_config fleet reads files (re_meta e) (re_name e)).1.2.

Lemma winner_snoc l e url :
  winner (l ++ [e]) url =
    match winner l url with
    | Some w => Some w
    | None => if decide (re_url e = url) then Some e else None
    end.
Proof.
  unfold winner. rewrite filter_app, filter_cons, filter_nil.
  destruct (filter _ l) as [|w l']; [|done]. simpl. by case_decide.
Qed.

Lemma winner_None l url : winner l url = None ↔ ∀ e, e ∈ l → re_url e ≠ url.
Proof.
  unfold winner. induction l as [|e l IH]; [by split; [intros _ ? ?%elem_of_nil|]|].
  rewrite filter_cons. destruct (decide (re_url e = url)) as [He|He].
  - split; [done|]. intros Hn. by destruct (Hn e ltac:(set_solver)).
  - rewrite IH. setoid_rewrite elem_of_cons. naive_solver.
Qed.

(** File names determine URLs. *)
Definition names_functional (l : list RegistryEntry) : Prop :=
  ∀ e e', e ∈ l → e' ∈ l → re_name e = re_name e' → re_url e = re_url e'.

Lemma registry_entries_spec metas e :
  e ∈ registry_entries metas ↔ re_meta e ∈ metas ∧ (decode_entry (re_meta e)).2 = Some e.
Proof.
  unfold registry_entries. rewrite elem_of_sort_by, list_elem_of_omap. split.
  - intros (m & Hm & He). pose proof He as [-> _]%decode_entry_Some. done.
  - intros [??]. eauto.
Qed.

Lemma registry_entries_functional metas : names_functional (registry_entries metas).
Proof.
  intros e e' [_ He]%registry_entries_spec [_ He']%registry_entries_spec Hn.
  apply decode_entry_Some in He as (_ & _ & d & Hd & Hu & _).
  apply decode_entry_Some in He' as (_ & _ & d' & Hd' & Hu' & _).
  rewrite Hn in Hd. congruence.
Qed.

(** The loop's invariant after the entries [l]. *)
Definition registered fleet reads (files : gmap string CachedFile) (l : list RegistryEntry)
    (s : Registering) : Prop :=
  (∀ url, rg_seen s !! url = re_name <$> winner l url) ∧
  (∀ url, rg_databases s !! url = effective fleet reads files <$> winner l url) ∧
  (∀ url e, winner l url = Some e →
     rg_files s !! re_name e = (file_config fleet reads files (re_meta e) (re_name e)).1.1 !! re_name e) ∧
  (∀ name, (∀ e, e ∈ l → re_name e ≠ name) → rg_files s !! name = files !! name).

Lemma winner_elem l url e : winner l url = Some e → e ∈ l ∧ re_url e = url.
Proof.
  unfold winner. destruct (filter _ l) as [|w l'] eqn:E; [done|]. intros [= ->].
  assert (He : e ∈ filter (λ e, re_url e = url) l) by (rewrite E; set_solver).
  apply list_elem_of_filter in He. tauto.
Qed.

Lemma register_entry_inv fleet reads files l s e :
  names_functional (l ++ [e]) →
  registered fleet reads files l s →
  registered fleet reads files (l ++ [e]) (register_entry fleet reads s e).
Proof.
  intros Hfun (Hseen & Hdbs & Hwin & Hrest). unfold register_entry. rewrite Hseen.
  destruct (winner l (re_url e)) as [w|] eqn:Ew; simpl.
  - assert (Hsame : ∀ url, winner (l ++ [e]) url = winner l url).
    { intros url. rewrite winner_snoc. destruct (winner l url) eqn:E; [done|].
      case_decide; [congruence|done]. }
    unfold registered; simpl. repeat setoid_rewrite Hsame. split_and!; try done.
    intros name Hname. apply Hrest. set_solver.
  - assert (Hfresh : ∀ e', e' ∈ l → re_name e' ≠ re_name e).
    { intros e' He' Hn. rewrite winner_None in Ew. apply (Ew e' He'). apply Hfun; set_solver. }
    pose proof (Hrest _ Hfresh) as Hfile.
    destruct (file_config fleet reads (rg_files s) (re_meta e) (re_name e)) as [[files' db] w] eqn:Efc.
    destruct (file_config_local fleet reads (rg_files s) files (re_meta e) (re_name e) Hfile)
      as (Hdb & _ & Hf). rewrite Efc in Hdb, Hf. simpl in Hdb, Hf.
    assert (Hframe : ∀ n, re_name e ≠ n → files' !! n = rg_files s !! n).
    { intros n Hn. pose proof (file_config_frame fleet reads (rg_files s) (re_meta e) _ n Hn) as Hfr.
      by rewrite Efc in Hfr. }
    unfold registered; simpl. split_and!.
    + intros url. rewrite winner_snoc. destruct (decide (re_url e = url)) as [<-|Hne].
      * by rewrite lookup_insert_eq, Ew.
      * rewrite lookup_insert_ne by done. rewrite Hseen. by destruct (winner l url).
    + intros url. rewrite winner_snoc. destruct (decide (re_url e = url)) as [<-|Hne].
      * rewrite lookup_insert_eq, Ew. simpl. by f_equal.
      * rewrite lookup_insert_ne by done. rewrite Hdbs. by destruct (winner l url).
    + intros url w'. rewrite winner_snoc. destruct (winner l url) as [w0|] eqn:E0.
      * intros [= <-]. pose proof (winner_elem _ _ _ E0) as [Hin _].
        rewrite Hframe by (by apply not_eq_sym, Hfresh). eauto.
      * case_decide; [|done]. intros [= <-]. done.
    + intros name Hname. rewrite Hframe by (apply Hname; set_solver). apply Hrest. set_solver.
Qed.

Lemma register_all_inv fleet reads p metas :
  registered fleet reads (cp_files p) (registry_entries metas) (register_all fleet reads p metas).
Proof.
  unfold register_all. pose proof (registry_entries_functional metas) as Hf. revert Hf.
  induction (registry_entries metas) as [|e l IH] using rev_ind; intros Hf.
  - split_and!; simpl; try done; intros; by rewrite lookup_empty.
  - rewrite fold_left_app. simpl. apply register_entry_inv; [done|]. apply IH.
    intros a b Ha Hb. apply Hf; set_solver.
Qed.

#[export] Instance entry_order_trans : Transitive entry_order.
Proof.
  intros a b c. unfold entry_order. intros [[? ?]|[? ?]] [[? ?]|[? ?]]; try (left; split; congruence).
  right. split; [congruence|]. by trans (re_name b).
Qed.
#[export] Instance entry_order_total : Total entry_order.
Proof.
  intros a b. unfold entry_order. destruct (re_alias a), (re_alias b); try tauto;
    destruct (total String.le (re_name a) (re_name b)); tauto.
Qed.

(** The winner precedes every other entry of its URL. *)
Lemma winner_first metas url w e :
  winner (registry_entries metas) url = Some w →
  e ∈ registry_entries metas → re_url e = url → entry_order w e.
Proof.
  unfold winner. intros Hw He Hu.
  assert (Hs : StronglySorted entry_order (filter (λ e, re_url e = url) (registry_entries metas))).
  { apply StronglySorted_filter, sort_by_sorted; apply _. }
  assert (Hin : e ∈ filter (λ e, re_url e = url) (registry_entries metas)).
  { by apply list_elem_of_filter. }
  destruct (filter _ _) as [|w' l]; [done|]. injection Hw as ->.
  inversion_clear Hs as [|?? _ Hx]. rewrite Forall_forall in Hx.
  apply elem_of_cons in Hin as [->|Hin]; [right; split; [done|reflexivity]|by apply Hx].
Qed.

(** ** What was parsed stays in bounds *)
Definition poller_ok (p : ConfigPoller) : Prop :=
  validate (cp_config p) = Ok () ∧
  (∀ name c db, cp_files p !! name = Some c → cf_config c = Some db → database_valid db) ∧
  (∀ url db, cp_databases p !! url = Some db → database_valid db).

Lemma parse_body_ok {T} (parse : string → Result ParseError T) body x :
  parse_body parse body = Ok x → parse body = Ok x.
Proof. unfold parse_body. destruct (valid_utf8 body), (parse body); simpl; try done. by intros [= ->]. Qed.

Lemma parse_config_ok toml c : parse_config toml = Ok c → validate c = Ok ().
Proof.
  unfold parse_config. intros (c' & _ & ([] & Hv & [= ->])%result_bind_ok)%result_bind_ok.
  by destruct (validate c) as [[]|].
Qed.

Lemma parse_database_ok fleet toml db :
  parse_database fleet toml = Ok db → validate_database fleet db = Ok ().
Proof.
  unfold parse_database. intros (c' & _ & ([] & Hv & [= ->])%result_bind_ok)%result_bind_ok.
  by destruct (validate_database fleet db) as [[]|].
Qed.

Lemma database_valid_default : database_valid DatabaseConfig_default.
Proof. by split_and!. Qed.
Lemma database_valid_disabled : database_valid disabled_database.
Proof. split_and!; try done. simpl. constructor. Qed.

Lemma validate_default : validate SleetConfig_default = Ok ().
Proof.
  apply validate_iff. by split_and!.
Qed.

Lemma poller_ok_default : poller_ok ConfigPoller_default.
Proof. split; [apply validate_default|]. split; simpl; intros *; by rewrite lookup_empty. Qed.

Lemma file_config_ok fleet reads files meta name :
  (∀ name c db, files !! name = Some c → cf_config c = Some db → database_valid db) →
  let r := file_config fleet reads files meta name in
  (∀ name c db, r.1.1 !! name = Some c → cf_config c = Some db → database_valid db) ∧
  database_valid r.1.2.
Proof.
  intros Hf. unfold file_config. case_decide; [eauto using database_valid_default|].
  destruct (cache_hit files meta name) as [db|] eqn:Eh; simpl.
  { unfold cache_hit in Eh. apply bind_Some in Eh as (c & Hc & Eh). destruct (_ && _); [|done]. split; [done|by eapply Hf]. }
  destruct (match rd_file reads (location meta) with Ok b => _ | Err e => _ end) as [db|e] eqn:Ep; simpl.
  - assert (Hdb : database_valid db).
    { case_match; [|done]. apply parse_body_ok, parse_database_ok, validate_database_iff in Ep. tauto. }
    split; [|done]. intros n c db'. destruct (decide (name = n)) as [->|Hn].
    + rewrite lookup_insert_eq. by intros [= <-] [= <-].
    + rewrite lookup_insert_ne by done. eauto.
  - destruct (files !! name ≫= cf_config) as [db|] eqn:Ec; simpl; [|eauto using database_valid_disabled].
    apply bind_Some in Ec as (c & ? & ?). eauto.
Qed.

Lemma register_entry_ok fleet reads s e :
  (∀ name c db, rg_files s !! name = Some c → cf_config c = Some db → database_valid db) →
  (∀ url db, rg_databases s !! url = Some db → database_valid db) →
  let s' := register_entry fleet reads s e in
  (∀ name c db, rg_files s' !! name = Some c → cf_config c = Some db → database_valid db) ∧
  (∀ url db, rg_databases s' !! url = Some db → database_valid db).
Proof.
  intros Hf Hd. unfold register_entry. destruct (rg_seen s !! re_url e); [done|].
  pose proof (file_config_ok fleet reads (rg_files s) (re_meta e) (re_name e) Hf) as [Hf' Hdb].
  destruct (file_config _ _ _ _ _) as [[files db] w]; simpl in *. split; [done|].
  intros url db'. destruct (decide (re_url e = url)) as [->|Hn].
  - rewrite lookup_insert_eq. by intros [= <-].
  - rewrite lookup_insert_ne by done. apply Hd.
Qed.

Lemma register_all_ok fleet reads p metas :
  poller_ok p →
  let s := register_all fleet reads p metas in
  (∀ name c db, rg_files s !! name = Some c → cf_config c = Some db → database_valid db) ∧
  (∀ url db, rg_databases s !! url = Some db → database_valid db).
Proof.
  intros (_ & Hf & _). unfold register_all.
  induction (registry_entries metas) as [|e l IH] using rev_ind.
  - split; [done|]. simpl. intros *. by rewrite lookup_empty.
  - rewrite fold_left_app. simpl. apply register_entry_ok; apply IH.
Qed.

Lemma poll_config_cases root reads p :
  let p' := (poll_config root reads p).1 in
  cp_files p' = cp_files p ∧ cp_databases p' = cp_databases p ∧
  (cp_config p' = cp_config p ∨ validate (cp_config p') = Ok ()).
Proof.
  unfold poll_config. destruct (rd_config reads) as [[etag body]|[]]; simpl;
    try by auto using validate_default.
  destruct (_ && _); simpl; [by auto|]. destruct body as [body|e]; simpl; [|by auto].
  destruct (parse_body parse_config body) as [c|e] eqn:E; simpl; [|by auto].
  split_and!; try done. right. by eapply parse_config_ok, parse_body_ok.
Qed.

Lemma poll_ok root reads p : poller_ok p → poller_ok (poll root reads p).1.
Proof.
  intros Hp. pose proof (poll_config_cases root reads p) as (Hf & Hd & Hc).
  unfold poll. destruct (poll_config root reads p) as [p1 w1]. simpl in *.
  assert (Hp1 : poller_ok p1).
  { destruct Hp as (Hv & Hpf & Hpd). unfold poller_ok. rewrite Hf, Hd. split_and!; try done.
    destruct Hc as [->|]; done. }
  unfold poll_registry. destruct (list_prefix (rd_list reads)) as [metas|e]; simpl; [|done].
  pose proof (register_all_ok (cp_config p1) reads p1 metas Hp1) as [Hf' Hd'].
  split_and!; simpl; [apply Hp1| |done].
  intros name c db [Hl _]%map_lookup_filter_Some. eauto.
Qed.

(** The poller's state after a sequence of polls. *)
Definition polls (root : FleetRoot) (rs : list PollReads) : ConfigPoller :=
  fold_left (λ p r, (poll root r p).1) rs ConfigPoller_default.

Lemma polls_ok root rs : poller_ok (polls root rs).
Proof.
  unfold polls. induction rs as [|r rs IH] using rev_ind; [apply poller_ok_default|].
  rewrite fold_left_app. by apply poll_ok.
Qed.

Lemma poll_state root reads p :
  fs_config (poll root reads p).2 = cp_config (poll root reads p).1 ∧
  fs_databases (poll root reads p).2 = cp_databases (poll root reads p).1.
Proof.
  unfold poll. destruct (poll_config root reads p) as [p1 w1].
  unfold poll_registry. by destruct (list_prefix (rd_list reads)).
Qed.

(** ** What a poll fetches *)

(** Answers that agree on the entry's body if it is fetched at all. *)
Definition agree_on (files : gmap string CachedFile) (reads reads' : PollReads) (e : RegistryEntry) : Prop :=
  size (re_meta e) ≠ 0%N → cache_hit files (re_meta e) (re_name e) = None →
  rd_file reads' (location (re_meta e)) = rd_file reads (location (re_meta e)).

Lemma file_config_agree fleet reads reads' files files' e :
  files' !! re_name e = files !! re_name e → agree_on files reads reads' e →
  file_config fleet reads' files' (re_meta e) (re_name e) =
  file_config fleet reads files' (re_meta e) (re_name e).
Proof.
  intros Hf Ha. unfold file_config. case_decide as Hs; [done|].
  assert (Hc : cache_hit files' (re_meta e) (re_name e) = cache_hit files (re_meta e) (re_name e)).
  { unfold cache_hit. by rewrite Hf. }
  destruct (cache_hit files' _ _) eqn:E; [done|]. by rewrite Ha.
Qed.

Lemma register_all_agree fleet reads reads' p metas :
  (∀ e, e ∈ registry_entries metas → agree_on (cp_files p) reads reads' e) →
  register_all fleet reads' p metas = register_all fleet reads p metas.
Proof.
  unfold register_all. pose proof (registry_entries_functional metas) as Hf. revert Hf.
  set (s0 := {| rg_files := _ |}).
  assert (Hinv0 : registered fleet reads (cp_files p) [] s0).
  { split_and!; simpl; try done; intros; by rewrite lookup_empty. }
  clearbody s0. intros Hf Hagree.
  assert (Hgen : fold_left (register_entry fleet reads') (registry_entries metas) s0 =
                 fold_left (register_entry fleet reads) (registry_entries metas) s0 ∧
    registered fleet reads (cp_files p) (registry_entries metas)
      (fold_left (register_entry fleet reads) (registry_entries metas) s0)); [|apply Hgen].
  revert Hf Hagree. induction (registry_entries metas) as [|e l IH] using rev_ind; [done|].
  intros Hf Hagree. rewrite !fold_left_app. simpl.
  destruct IH as [IH1 IH2]; [intros a b ??; apply Hf; set_solver|intros a ?; apply Hagree; set_solver|].
  rewrite IH1. split; [|by apply register_entry_inv].
  set (s := fold_left _ l s0) in *. unfold register_entry.
  destruct IH2 as (Hseen & _ & _ & Hrest). rewrite Hseen.
  destruct (winner l (re_url e)) eqn:Ew; [done|]. simpl.
  rewrite (file_config_agree fleet reads reads' (cp_files p)); [done| |apply Hagree; set_solver].
  apply Hrest. intros e' He' Hn. rewrite winner_None in Ew. apply (Ew e' He'), Hf; set_solver.
Qed.

(** ** The claims *)

(** C27: whatever the store answers, at every poll, and however often reads
    fail or bodies are garbage: the fleet config in use passed validation, and
    the settings of every registered database have all their fields in bounds,
    so the heartbeat interval is below the timeout, no loop runs with a zero
    period, and no count is zero. *)
Theorem polls_settings_ok root rs reads :
  let state := (poll root reads (polls root rs)).2 in
  validate (fs_config state) = Ok () ∧ node_ok (cfg_node (fs_config state)) ∧
  (∀ url db, fs_databases state !! url = Some db →
     resolved_fields_ok (resolve (fs_config state) (Some db))).
Proof.
  cbv zeta. destruct (poll_state root reads (polls root rs)) as [-> ->].
  pose proof (poll_ok root reads _ (polls_ok root rs)) as (Hv & _ & Hd).
  split; [done|]. apply validate_iff in Hv as (? & ? & ?). split; [done|].
  intros url db Hdb. apply resolve_fields_ok; [done|]. by apply (Hd url).
Qed.


(** A registry file on every branch: an empty one means fleet-wide
    settings and is never fetched; one whose ETag is unchanged is served from
    the cache without a GET; one that was fetched and parses is used and
    cached under the listed ETag; one that cannot be read or parsed keeps its
    cached version; and with nothing cached the database runs no service at
    all, whatever the fleet config. *)
Theorem file_config_spec fleet reads files meta name :
  let r := file_config fleet reads files meta name in
  let cached := files !! name ≫= cf_config in
  let body := match rd_file reads (location meta) with
              | Err e => Err (display_store_error e)
              | Ok b => parse_body (parse_database fleet) b end in
  (size meta = 0%N → r = (files, DatabaseConfig_default, [])) ∧
  (size meta ≠ 0%N →
     (∀ tag db, files !! name = Some {| cf_etag := Some tag; cf_config := Some db |} →
        e_tag meta = Some tag → r = (files, db, [])) ∧
     (cache_hit files meta name = None →
        match body with
        | Ok db => r = (<[name := {| cf_etag := e_tag meta; cf_config := Some db |}]> files, db, [])
        | Err _ =>
            r.1.1 = files ∧ length r.2 = 1 ∧
            match cached with
            | Some db => r.1.2 = db
            | None => ∀ f, rs_services (resolve f (Some r.1.2)) = []
            end
        end)).
Proof.
  cbv zeta. unfold file_config. split; intros Hs; [by rewrite decide_True|].
  rewrite decide_False by done. split.
  - intros tag db Hf Ht. unfold cache_hit. rewrite Hf. simpl. rewrite Ht.
    by rewrite bool_decide_eq_true_2.
  - intros ->. destruct (match rd_file reads (location meta) with Ok b => _ | Err e => _ end); [done|].
    by destruct (files !! name ≫= cf_config).
Qed.

(** The read-cost promise: apart from the GET of [sleet.toml] and the
    LIST, a poll depends on the store only through the bodies of non-empty
    registry files whose cached version is missing or has another ETag; every
    other body is never fetched. *)
Theorem poll_fetches_only_changed root reads reads' p metas :
  rd_config reads' = rd_config reads →
  rd_list reads' = rd_list reads →
  list_prefix (rd_list reads) = Ok metas →
  (∀ e, e ∈ registry_entries metas →
     size (re_meta e) ≠ 0%N → cache_hit (cp_files p) (re_meta e) (re_name e) = None →
     rd_file reads' (location (re_meta e)) = rd_file reads (location (re_meta e))) →
  poll root reads' p = poll root reads p.
Proof.
  intros Hc Hl Hm Hagree. unfold poll.
  assert (Hpc : poll_config root reads' p = poll_config root reads p).
  { unfold poll_config. by rewrite Hc. }
  rewrite Hpc. pose proof (poll_config_cases root reads p) as (Hf & _).
  destruct (poll_config root reads p) as [p1 w1]. simpl in Hf.
  unfold poll_registry. rewrite Hl, Hm. rewrite (register_all_agree _ reads reads'); [done|].
  intros e He. unfold agree_on. rewrite Hf. by apply Hagree.
Qed.

Definition not_missing (e : StoreError) : Prop :=
  match e with NotFound _ => False | _ => True end.

(** A store that answers nothing changes nothing: when both reads fail
    for any reason but a missing object, the poller keeps its config, its
    caches and the whole registry view, and reports one warning for each. *)
Theorem failed_poll_keeps_last_good root reads p e1 e2 :
  rd_config reads = Err e1 → not_missing e1 →
  rd_list reads = Err e2 → not_missing e2 →
  (poll root reads p).1 = p ∧
  fs_config (poll root reads p).2 = cp_config p ∧
  fs_databases (poll root reads p).2 = cp_databases p ∧
  length (fs_warnings (poll root reads p).2) = 2.
Proof.
  intros Hc ? Hl ?. unfold poll, poll_config, poll_registry. rewrite Hc, Hl.
  destruct e1; [done|..]; destruct e2; done.
Qed.

End poller.

(** ** Examples *)
Import Store.Concrete Registry.Concrete.

(** A loader whose documents name a scheduler bound: [min=6] and [max=5]. *)
Definition scheduler_config (min max : option N) : DatabaseConfig :=
  Build_DatabaseConfig None None
    (Some (Build_CoordinatorOverrides None None None None None
      (Some (Build_SchedulerOverrides min max None)))) None None.
Definition bounds_of (body : string) : Result string DatabaseConfig :=
  if decide (body = "min=6") then Ok (scheduler_config (Some 6%N) None)
  else if decide (body = "max=5") then Ok (scheduler_config None (Some 5%N))
  else if decide (body = EmptyString) then Ok DatabaseConfig_default
  else Err "unknown field".
#[local] Instance example_lib : ConfigLib := {|
  TomlError := string;
  toml_config := λ body, (λ db, {| cfg_node := NodeConfig_default; cfg_database := db |}) <$> bounds_of body;
  toml_database := bounds_of;
  format_duration := decimal;
  debug_str := quoted;
  display_url_parse_error := λ e, e;
  display_toml_error := λ e, e;
|}.

Definition example_root : FleetRoot := {| fr_prefix := ["fleet"]; fr_url := "s3://b/fleet" |}.
Definition db_meta (size : N) (tag : string) : ObjectMeta :=
  {| location := ["fleet"; "dbs"; "s3%3A%2F%2Fb%2Fdb.toml"]; last_modified := 0; size := size;
     e_tag := Some tag |}.
(** The store with a fleet config and one registry file. *)
Definition example_reads (fleet_body fleet_tag db_body db_tag : string) : PollReads := {|
  rd_config := Ok (Some fleet_tag, Ok fleet_body);
  rd_list := Ok [db_meta (N.of_nat (String.length db_body)) db_tag];
  rd_file := λ _, Ok db_body;
|}.


Lemma poll_fetches_only_changed_witness :
  let reads := example_reads EmptyString "c" EmptyString "t" in
  let reads' := {| rd_config := rd_config reads; rd_list := rd_list reads;
                   rd_file := λ _, Err (StoreFailure "down") |} in
  poll (λ b, b) example_root reads' ConfigPoller_default = poll (λ b, b) example_root reads ConfigPoller_default.
Proof.
  intros reads reads'.
  apply (poll_fetches_only_changed (λ b, b) example_root reads reads' ConfigPoller_default
    [db_meta 0 "t"] eq_refl eq_refl eq_refl).
  intros e [He _]%(registry_entries_spec (λ b, b)). apply list_elem_of_singleton in He. by rewrite He.
Defined.

Lemma failed_poll_keeps_last_good_witness :
  let reads := {| rd_config := Err (StoreFailure "down"); rd_list := Err (StoreFailure "down");
                  rd_file := λ _, Err (StoreFailure "down") |} in
  (poll (λ b, b) example_root reads ConfigPoller_default).1 = ConfigPoller_default.
Proof.
  intros reads.
  apply (failed_poll_keeps_last_good (λ b, b) example_root reads ConfigPoller_default
    (StoreFailure "down") (StoreFailure "down")); done.
Defined.

(** ** Where the checks do not reach *)
Definition states (rs : list PollReads) (last : PollReads) : FleetState :=
  (poll (λ b, b) example_root last (polls (λ b, b) example_root rs)).2.

(** The layered check of a registry file is made when its body is read, not
    when the fleet config under it changes: a database whose file raises the
    minimum to 6 stays registered, without a warning, after the fleet lowers
    the maximum to 5. *)
Theorem cached_file_not_revalidated :
  let before := example_reads EmptyString "c1" "min=6" "t" in
  let after := example_reads "max=5" "c2" "min=6" "t" in
  let state := states [before] after in
  fs_databases state !! "s3://b/db" = Some (scheduler_config (Some 6%N) None) ∧
  fs_warnings state = [] ∧
  is_ok (validate_database (fs_config state) (scheduler_config (Some 6%N) None)) = false.
Proof. by vm_compute. Qed.

(** Emptying a registry file is a good read that is not cached: when the body
    later turns invalid, the version from before the emptying comes back as
    the last good one. *)
Theorem emptied_file_not_last_good :
  let tuned := example_reads EmptyString "c" "min=6" "t1" in
  let emptied := example_reads EmptyString "c" EmptyString "t2" in
  let broken := example_reads EmptyString "c" "nope" "t3" in
  fs_databases (states [tuned] emptied) !! "s3://b/db" = Some DatabaseConfig_default ∧
  fs_databases (states [tuned; emptied] broken) !! "s3://b/db" = Some (scheduler_config (Some 6%N) None).
Proof. by vm_compute. Qed.
