(* ===== verification/Caching.v ===== *)
(** * The poller's caches are transparent (ConfigPoller of src/root.rs)

    [Poller] skips the bodies whose ETag it has seen.  Here: as long as ETags
    identify bodies, what the caches hold is what a GET would return, whatever
    was read, failed or was unparseable before; so once the root holds a
    parseable configuration, one good poll gives every node, however old, the
    view a node that has just started gets, and failed reads do not take it
    away again. *)

From S2P Require Import Prelude Order Text Service Store Root Registry Config Validate Poller.

Section caching.
Context `{StoreLib, UrlLib, PercentLib, !ConfigLib}.
Context (utf8_error : string → string).
(** The body an ETag identifies. *)
Context (body_of : string → string).

(** A poll whose answers respect the ETags: no body changes between the
    listing that names its ETag and the GET. *)
Definition coherent (reads : PollReads) : Prop :=
  (∀ tag body, rd_config reads = Ok (Some tag, Ok body) → body = body_of tag) ∧
  (∀ metas m tag body, rd_list reads = Ok metas → m ∈ metas → e_tag m = Some tag →
     rd_file reads (location m) = Ok body → body = body_of tag).

(** The caches' invariant. *)
Definition honest_file (c : CachedFile) : Prop :=
  ∀ tag db, cf_etag c = Some tag → cf_config c = Some db →
    ∃ fleet, parse_body utf8_error (parse_database fleet) (body_of tag) = Ok db.
Definition honest_files (files : gmap string CachedFile) : Prop := map_Forall (λ _, honest_file) files.
Definition honest (p : ConfigPoller) : Prop :=
  (∀ tag, cp_config_etag p = Some tag → parse_body utf8_error parse_config (body_of tag) = Ok (cp_config p)) ∧
  honest_files (cp_files p).

Lemma honest_default : honest ConfigPoller_default.
Proof. split; [done|apply map_Forall_empty]. Qed.

(** ** Reading bodies *)

(** Validation only filters: under any two fleet configs that accept a file
    it means the same. *)
Lemma parse_database_functional f1 f2 body db1 db2 :
  parse_body utf8_error (parse_database f1) body = Ok db1 →
  parse_body utf8_error (parse_database f2) body = Ok db2 → db1 = db2.
Proof.
  intros (x1 & E1 & (? & _ & [= <-])%result_bind_ok)%parse_body_ok%result_bind_ok
         (x2 & E2 & (? & _ & [= <-])%result_bind_ok)%parse_body_ok%result_bind_ok. congruence.
Qed.

(** What a registry file says under a fleet config, read without a cache. *)
Definition fetched (fleet : SleetConfig) (reads : PollReads) (m : ObjectMeta) : Result string DatabaseConfig :=
  match rd_file reads (location m) with
  | Err e => Err (display_store_error e)
  | Ok b => parse_body utf8_error (parse_database fleet) b
  end.

(** A cache hit is what a GET would return. *)
Lemma cache_hit_honest fleet reads metas files m name db db' :
  coherent reads → rd_list reads = Ok metas → m ∈ metas → honest_files files →
  cache_hit files m name = Some db → fetched fleet reads m = Ok db' → db = db'.
Proof.
  intros [_ Hco] Hl Hm Hh Hc Hf. unfold cache_hit in Hc.
  apply bind_Some in Hc as (c & Hfile & Hc). destruct (bool_decide (is_Some _)) eqn:Es; [|done].
  apply bool_decide_eq_true in Es as [tag Etag]. simpl in Hc. case_bool_decide as Et; [|done].
  destruct (Hh _ _ Hfile tag db Etag Hc) as [fleet0 Hp].
  unfold fetched in Hf. destruct (rd_file reads (location m)) as [b|] eqn:Eb; [|done].
  rewrite (Hco metas m tag b) in Hf by congruence. by eapply parse_database_functional.
Qed.

Lemma file_config_honest fleet reads metas files m name :
  coherent reads → rd_list reads = Ok metas → m ∈ metas → honest_files files →
  honest_files (file_config utf8_error fleet reads files m name).1.1.
Proof.
  intros [_ Hco] Hl Hm Hh. unfold file_config. case_decide; [done|].
  destruct (cache_hit files m name); [done|].
  destruct (rd_file reads (location m)) as [b|e] eqn:Eb; simpl; [|by destruct (files !! name ≫= cf_config)].
  destruct (parse_body utf8_error (parse_database fleet) b) as [db|e] eqn:Ep; simpl;
    [|by destruct (files !! name ≫= cf_config)].
  apply map_Forall_insert_2; [|done]. intros tag db' Et [= <-]. simpl in Et. exists fleet.
  by rewrite <-(Hco metas m tag b).
Qed.

Lemma register_all_honest fleet reads p metas :
  coherent reads → rd_list reads = Ok metas → honest_files (cp_files p) →
  honest_files (rg_files (register_all utf8_error fleet reads p metas)).
Proof.
  intros Hco Hl Hh. unfold register_all.
  assert (Hin : ∀ e, e ∈ registry_entries metas → re_meta e ∈ metas).
  { intros e He. by apply (registry_entries_spec utf8_error) in He as [? _]. }
  revert Hin. generalize (registry_entries metas). intros l. induction l as [|e l IH] using rev_ind; intros Hin; [done|].
  rewrite fold_left_app. simpl.
  assert (IH' : honest_files (rg_files (fold_left (register_entry utf8_error fleet reads) l
    {| rg_files := cp_files p; rg_databases := ∅; rg_seen := ∅;
       rg_warnings := concat ((λ m, (decode_entry m).1) <$> metas) |}))).
  { apply IH. intros. apply Hin. set_solver. }
  revert IH'. generalize (fold_left (register_entry utf8_error fleet reads) l
    {| rg_files := cp_files p; rg_databases := ∅; rg_seen := ∅;
       rg_warnings := concat ((λ m, (decode_entry m).1) <$> metas) |}).
  intros s Hs. unfold register_entry. destruct (rg_seen s !! re_url e); [done|].
  pose proof (file_config_honest fleet reads metas (rg_files s) (re_meta e) (re_name e) Hco Hl
    ltac:(apply Hin; set_solver) Hs) as Hf.
  by destruct (file_config _ _ _ _ _ _) as [[files db] w].
Qed.

Lemma poll_config_honest root reads p :
  coherent reads → honest p → honest (poll_config utf8_error root reads p).1.
Proof.
  intros [Hco _] [Hc Hf]. unfold poll_config.
  destruct (rd_config reads) as [[etag body]|[]] eqn:Er; simpl; try done.
  destruct (bool_decide _ && _); [done|]. destruct body as [body|e]; simpl; [|done].
  destruct (parse_body utf8_error parse_config body) as [c|e] eqn:Ep; simpl; [|done].
  split; simpl; [|done]. intros tag ->. by rewrite <-(Hco tag body).
Qed.

Lemma honest_poll root reads p : coherent reads → honest p → honest (poll utf8_error root reads p).1.
Proof.
  intros Hco Hh. pose proof (poll_config_honest root reads p Hco Hh) as Hh1.
  unfold poll. destruct (poll_config utf8_error root reads p) as [p1 w1]. simpl in Hh1.
  unfold poll_registry. destruct (list_prefix (rd_list reads)) as [metas|e] eqn:El; simpl; [|done].
  destruct Hh1 as [Hc Hf]. split; simpl; [done|].
  apply map_Forall_lookup_2. intros name c [Hl _]%map_lookup_filter_Some.
  destruct (rd_list reads) as [metas'|[]] eqn:Er; simplify_eq/=.
  - eapply (register_all_honest (cp_config p1) reads p1 metas Hco Er Hf); done.
  - (* NotFound: nothing is registered *)
    eapply (Hf name c). exact Hl.
Qed.

(** ** A published configuration *)

(** The root holds a config that parses, or none, and every registry file
    that counts parses under it. *)
Record published (reads : PollReads) (config : SleetConfig) (metas : list ObjectMeta) : Prop := {
  pb_config : match rd_config reads with
              | Ok (_, Ok body) => parse_body utf8_error parse_config body = Ok config
              | Err (NotFound _) => config = SleetConfig_default
              | _ => False
              end;
  pb_list : rd_list reads = Ok metas;
  pb_files : ∀ e, e ∈ registry_entries metas → size (re_meta e) ≠ 0%N →
    ∃ db, fetched config reads (re_meta e) = Ok db;
}.

(** What it says of a database. *)
Definition file_value (config : SleetConfig) (reads : PollReads) (m : ObjectMeta) : DatabaseConfig :=
  if decide (size m = 0%N) then DatabaseConfig_default
  else match fetched config reads m with Ok db => db | Err _ => disabled_database end.
Definition published_database (config : SleetConfig) (reads : PollReads) (metas : list ObjectMeta) (url : string)
    : option DatabaseConfig :=
  file_value config reads ∘ re_meta <$> winner (registry_entries metas) url.

(** A poller that is up to date with it. *)
Record current (reads : PollReads) (config : SleetConfig) (metas : list ObjectMeta) (p : ConfigPoller) : Prop := {
  cu_honest : honest p;
  cu_config : cp_config p = config;
  cu_databases : ∀ url, cp_databases p !! url = published_database config reads metas url;
  cu_files : ∀ url e, winner (registry_entries metas) url = Some e → size (re_meta e) ≠ 0%N →
    cp_files p !! re_name e ≫= cf_config = Some (file_value config reads (re_meta e));
}.

(** Answers of a store that holds [reads] and may fail, any of them. *)
Record partial (reads reads' : PollReads) : Prop := {
  pa_config : rd_config reads' = rd_config reads ∨ (∃ e, rd_config reads' = Err e ∧ not_missing e) ∨
    (∃ etag body e, rd_config reads = Ok (etag, body) ∧ rd_config reads' = Ok (etag, Err e));
  pa_list : rd_list reads' = rd_list reads ∨ (∃ e, rd_list reads' = Err e ∧ not_missing e);
  pa_file : ∀ path, rd_file reads' path = rd_file reads path ∨ ∃ e, rd_file reads' path = Err e;
}.

Lemma partial_refl reads : partial reads reads.
Proof. split; auto. Qed.

Lemma partial_coherent reads reads' : partial reads reads' → coherent reads → coherent reads'.
Proof.
  intros [Hc Hl Hf] [Cc Cf]. split.
  - intros tag body E. destruct Hc as [Hc|[(e & Hc & _)|(? & ? & e & _ & Hc)]]; [|congruence..].
    eapply Cc. congruence.
  - intros metas m tag body E Hm Ht Hb. destruct Hl as [Hl|(e & Hl & _)]; [|congruence].
    destruct (Hf (location m)) as [Hf'|[e Hf']]; [|congruence]. eapply Cf; [|done..|]; congruence.
Qed.

Section publication.
Context (reads : PollReads) (config : SleetConfig) (metas : list ObjectMeta).
Context (Hco : coherent reads) (Hpub : published reads config metas).

Lemma file_value_fetched e :
  e ∈ registry_entries metas → size (re_meta e) ≠ 0%N →
  re_meta e ∈ metas ∧ fetched config reads (re_meta e) = Ok (file_value config reads (re_meta e)).
Proof.
  intros He Hs. split; [by apply (registry_entries_spec utf8_error) in He as [? _]|].
  destruct (pb_files _ _ _ Hpub e He Hs) as [db Hdb]. unfold file_value.
  by rewrite decide_False, Hdb.
Qed.

(** A registry file through a cache: as published, and cached as that, if it
    can be read or was cached already. *)
Lemma file_config_published reads' files e :
  partial reads reads' → honest_files files → e ∈ registry_entries metas →
  (size (re_meta e) ≠ 0%N → files !! re_name e ≫= cf_config = Some (file_value config reads (re_meta e))) ∨
    rd_file reads' (location (re_meta e)) = rd_file reads (location (re_meta e)) →
  let r := file_config utf8_error config reads' files (re_meta e) (re_name e) in
  r.1.2 = file_value config reads (re_meta e) ∧
  (size (re_meta e) ≠ 0%N → r.1.1 !! re_name e ≫= cf_config = Some (file_value config reads (re_meta e))).
Proof.
  intros Hpa Hh He Hor. unfold file_config. case_decide as Hs; [by unfold file_value; rewrite decide_True|].
  destruct (file_value_fetched e He Hs) as [Hm Hf].
  destruct (cache_hit files (re_meta e) (re_name e)) as [db|] eqn:Ec; simpl.
  { pose proof (cache_hit_honest config reads metas files _ _ _ _ Hco (pb_list _ _ _ Hpub) Hm Hh Ec Hf) as ->.
    split; [done|]. intros _. unfold cache_hit in Ec. apply bind_Some in Ec as (c & -> & Ec). simpl.
    by destruct (_ && _). }
  change (match rd_file reads' (location (re_meta e)) with Ok b => _ | Err e0 => _ end)
    with (fetched config reads' (re_meta e)).
  assert (Hcase : fetched config reads' (re_meta e) = Ok (file_value config reads (re_meta e)) ∨
    (is_ok (fetched config reads' (re_meta e)) = false ∧
     files !! re_name e ≫= cf_config = Some (file_value config reads (re_meta e)))).
  { destruct (pa_file _ _ Hpa (location (re_meta e))) as [Hr|[err Hr]].
    - left. rewrite <-Hf. unfold fetched. by rewrite Hr.
    - destruct Hor as [Hor|Hor]; [|left; rewrite <-Hf; unfold fetched; by rewrite Hor].
      right. unfold fetched. rewrite Hr. auto. }
  destruct Hcase as [->|[Hno Hc]].
  - simpl. by rewrite lookup_insert_eq.
  - destruct (fetched config reads' (re_meta e)); [done|]. by rewrite Hc.
Qed.

(** Registration through such files. *)
Lemma poll_registry_published reads' p :
  partial reads reads' → rd_list reads' = rd_list reads → honest_files (cp_files p) → cp_config p = config →
  (∀ url e, winner (registry_entries metas) url = Some e → size (re_meta e) ≠ 0%N →
     cp_files p !! re_name e ≫= cf_config = Some (file_value config reads (re_meta e)) ∨
     rd_file reads' (location (re_meta e)) = rd_file reads (location (re_meta e))) →
  let p' := (poll_registry utf8_error reads' p).1.1 in
  (∀ url, cp_databases p' !! url = published_database config reads metas url) ∧
  (∀ url e, winner (registry_entries metas) url = Some e → size (re_meta e) ≠ 0%N →
     cp_files p' !! re_name e ≫= cf_config = Some (file_value config reads (re_meta e))).
Proof.
  intros Hpa Hl Hh Hc Hor. unfold poll_registry. rewrite Hl, (pb_list _ _ _ Hpub). simpl.
  destruct (register_all_inv utf8_error (cp_config p) reads' p metas) as (Hseen & Hdbs & Hfiles & _).
  rewrite Hc in *.
  assert (Hfile : ∀ url e, winner (registry_entries metas) url = Some e →
    let r := file_config utf8_error config reads' (cp_files p) (re_meta e) (re_name e) in
    r.1.2 = file_value config reads (re_meta e) ∧
    (size (re_meta e) ≠ 0%N → r.1.1 !! re_name e ≫= cf_config = Some (file_value config reads (re_meta e)))).
  { intros url e Hw. pose proof (winner_elem utf8_error _ _ _ Hw) as [He _].
    apply file_config_published; [done..|].
    destruct (decide (size (re_meta e) = 0%N)) as [Hz|Hz]; [by left|].
    destruct (Hor url e Hw Hz); auto. }
  split.
  - intros url. rewrite Hdbs. unfold published_database.
    destruct (winner (registry_entries metas) url) as [e|] eqn:Hw; [|done]. simpl. f_equal.
    by apply (Hfile url).
  - intros url e Hw Hz. destruct (Hfile url e Hw) as [_ Hcached]. specialize (Hcached Hz).
    specialize (Hseen url). rewrite Hw in Hseen. rewrite <-(Hfiles url e Hw) in Hcached.
    rewrite <-Hcached. f_equal. destruct (rg_files _ !! re_name e) as [c|] eqn:Ef; [|apply map_lookup_filter_None; auto].
    apply map_lookup_filter_Some. split; [done|]. simpl. apply list_elem_of_fmap.
    exists (url, re_name e). split; [done|]. by apply elem_of_map_to_list.
Qed.

Lemma poll_config_published root reads' p :
  partial reads reads' → honest p → rd_config reads' = rd_config reads ∨ cp_config p = config →
  cp_config (poll_config utf8_error root reads' p).1 = config.
Proof.
  intros Hpa Hh Hor. pose proof (pb_config _ _ _ Hpub) as Hc. unfold poll_config.
  assert (Hsame : rd_config reads' = rd_config reads → cp_config (poll_config utf8_error root reads' p).1 = config).
  { intros E. unfold poll_config. rewrite E. destruct (rd_config reads) as [[etag [body|]]|[]] eqn:Er; try done.
    destruct (bool_decide (is_Some etag) && _) eqn:Et; simpl; [|by rewrite Hc].
    apply andb_prop in Et as [[tag ->]%bool_decide_eq_true Ee%bool_decide_eq_true].
    pose proof (proj1 Hh tag (eq_sym Ee)) as Hp. rewrite <-(proj1 Hco tag body Er), Hc in Hp. by injection Hp as ->. }
  destruct (pa_config _ _ Hpa) as [Hr|[(e & Hr & He)|(etag & body & e & _ & Hr)]]; [by apply Hsame| |].
  - destruct Hor as [Hor|Hor]; [by apply Hsame|]. rewrite Hr. destruct e; done.
  - destruct Hor as [Hor|Hor]; [by apply Hsame|]. rewrite Hr. by destruct (_ && _).
Qed.

(** One good poll brings an honest poller up to date. *)
Lemma poll_current root p : honest p → current reads config metas (poll utf8_error root reads p).1.
Proof.
  intros Hh. pose proof (honest_poll root reads p Hco Hh) as Hh'.
  pose proof (poll_config_honest root reads p Hco Hh) as [_ Hf1].
  pose proof (poll_config_published root reads p (partial_refl _) Hh ltac:(by left)) as Hc.
  unfold poll in *. destruct (poll_config utf8_error root reads p) as [p1 w1]. simpl in *.
  destruct (poll_registry_published reads p1 (partial_refl _) eq_refl Hf1 Hc ltac:(auto)) as [Hd Hf].
  assert (Hcf : cp_config (poll_registry utf8_error reads p1).1.1 = config).
  { rewrite <-Hc. unfold poll_registry. by destruct (list_prefix _). }
  destruct (poll_registry utf8_error reads p1) as [[p2 dbs] w2]. done.
Qed.

(** And failures leave it there. *)
Lemma poll_stays_current root reads' p :
  partial reads reads' → current reads config metas p → current reads config metas (poll utf8_error root reads' p).1.
Proof.
  intros Hpa [Hh Hc Hd Hf]. pose proof (partial_coherent _ _ Hpa Hco) as Hco'.
  pose proof (honest_poll root reads' p Hco' Hh) as Hh'.
  pose proof (poll_config_honest root reads' p Hco' Hh) as [_ Hf1].
  pose proof (poll_config_published root reads' p Hpa Hh ltac:(by right)) as Hc1.
  pose proof (poll_config_cases utf8_error root reads' p) as (Ef & Ed & _).
  unfold poll in *. destruct (poll_config utf8_error root reads' p) as [p1 w1]. simpl in *.
  assert (Hcf : cp_config (poll_registry utf8_error reads' p1).1.1 = config).
  { rewrite <-Hc1. unfold poll_registry. by destruct (list_prefix _). }
  destruct (pa_list _ _ Hpa) as [Hl|(e & Hl & He)].
  - destruct (poll_registry_published reads' p1 Hpa Hl Hf1 Hc1) as [Hd' Hf'].
    { intros url e Hw Hs. left. rewrite Ef. eauto. }
    destruct (poll_registry utf8_error reads' p1) as [[p2 dbs] w2]. done.
  - assert (Hp2 : (poll_registry utf8_error reads' p1).1.1 = p1).
    { unfold poll_registry. rewrite Hl. by destruct e. }
    destruct (poll_registry utf8_error reads' p1) as [[p2 dbs] w2]. simpl in *. subst p2.
    split; [done..| |]; [by rewrite Ed|by rewrite Ef].
Qed.

Lemma current_unique p p' :
  current reads config metas p → current reads config metas p' →
  cp_config p = cp_config p' ∧ cp_databases p = cp_databases p'.
Proof.
  intros [_ C1 D1 _] [_ C2 D2 _]. split; [congruence|]. apply map_eq. intros url. by rewrite D1, D2.
Qed.
End publication.

(** The polls of a node, from any state. *)
Definition polls_from (root : FleetRoot) (p : ConfigPoller) (rs : list PollReads) : ConfigPoller :=
  fold_left (λ p r, (poll utf8_error root r p).1) rs p.

Lemma polls_from_honest root rs p : Forall coherent rs → honest p → honest (polls_from root p rs).
Proof.
  unfold polls_from. revert p. induction rs as [|r rs IH]; intros p Hrs Hp; [done|].
  inversion_clear Hrs. simpl. apply IH; [done|]. by apply honest_poll.
Qed.

Lemma polls_from_current root reads config metas rs p :
  coherent reads → published reads config metas → Forall (partial reads) rs →
  current reads config metas p → current reads config metas (polls_from root p rs).
Proof.
  intros Hco Hpub. unfold polls_from. revert p. induction rs as [|r rs IH]; intros p Hrs Hp; [done|].
  inversion_clear Hrs. simpl. apply IH; [done|]. by apply poll_stays_current.
Qed.

(** C13: the caches are transparent and configuration changes take effect:
    whatever a node has read before, valid, broken or missing, as long as
    ETags identified bodies, one good poll of a root whose documents parse
    gives it exactly the fleet config and the databases that a node started
    now would get; and no later failure of the store, of any of its reads,
    takes that away. *)
Theorem caching_transparent root history reads config metas later :
  Forall coherent history → coherent reads → published reads config metas → Forall (partial reads) later →
  let fresh := (poll utf8_error root reads ConfigPoller_default).2 in
  let p := polls_from root ConfigPoller_default (history ++ reads :: later) in
  cp_config p = fs_config fresh ∧ cp_databases p = fs_databases fresh ∧
  fs_config fresh = config ∧ ∀ url, fs_databases fresh !! url = published_database config reads metas url.
Proof.
  intros Hh Hco Hpub Hlater fresh p.
  destruct (poll_state utf8_error root reads ConfigPoller_default) as [Efc Efd].
  pose proof (poll_current reads config metas Hco Hpub root _ honest_default) as Hfresh.
  assert (Hp : current reads config metas p).
  { unfold p, polls_from. rewrite fold_left_app. simpl. apply polls_from_current; [done..|].
    apply poll_current; [done..|]. apply polls_from_honest; [done|apply honest_default]. }
  destruct (current_unique _ _ _ _ _ Hp Hfresh) as [Ec Ed]. unfold fresh. rewrite Efc, Efd.
  split_and!; [done|done|apply Hfresh|apply Hfresh].
Qed.
End caching.

(** ** Examples *)
Import Store.Concrete Registry.Concrete.
#[local] Existing Instance Poller.example_lib.
#[local] Abbreviation poll := (poll (λ b, b) example_root).

Definition example_body (tag : string) : string :=
  if decide (tag = "t6") then "min=6" else if decide (tag = "t5") then "max=5"
  else if decide (tag = "t?") then "nope" else EmptyString.

Lemma example_coherent tag db_tag :
  coherent example_body (example_reads (example_body tag) tag (example_body db_tag) db_tag).
Proof.
  split; simpl; [congruence|]. intros metas m t body [= <-] ->%list_elem_of_singleton [= <-] [= <-]. done.
Qed.

Lemma example_published :
  published (λ b, b) (example_reads EmptyString "c" "max=5" "t5") SleetConfig_default [db_meta 5 "t5"].
Proof.
  split; [reflexivity|reflexivity|]. intros e [He _]%(registry_entries_spec (λ b, b)) _.
  apply list_elem_of_singleton in He. rewrite He. by eexists.
Qed.

Lemma caching_transparent_witness :
  let history := [example_reads "min=6" "t6" "max=5" "t5"; example_reads EmptyString "c" "nope" "t?"] in
  let reads := example_reads EmptyString "c" "max=5" "t5" in
  let down := {| rd_config := Err (StoreFailure "down"); rd_list := Err (StoreFailure "down");
                 rd_file := λ _, Err (StoreFailure "down") |} in
  cp_databases (polls_from (λ b, b) example_root ConfigPoller_default (history ++ [reads; down])) =
  fs_databases (poll reads ConfigPoller_default).2.
Proof.
  intros history reads down.
  refine (proj1 (proj2 (caching_transparent (λ b, b) example_body example_root history reads SleetConfig_default
    [db_meta 5 "t5"] [down] _ (example_coherent "c" "t5") example_published _))).
  - constructor; [apply (example_coherent "t6" "t5")|]. constructor; [apply (example_coherent "c" "t?")|constructor].
  - constructor; [|constructor]. split; [right; left; by eexists|right; by eexists|intros; right; by eexists].
Defined.

(** The body is fetched after the listing that names its ETag: one written
    in between and taken back is cached under the old ETag, and then stays in
    force although every later read is good. *)
Theorem raced_read_sticks :
  let raced := {| rd_config := Ok (Some "c", Ok EmptyString); rd_list := Ok [db_meta 5 "t5"];
                  rd_file := λ _, Ok "min=6" |} in
  let reads := example_reads EmptyString "c" "max=5" "t5" in
  let p := polls_from (λ b, b) example_root ConfigPoller_default [raced; reads; reads] in
  cp_databases p !! "s3://b/db" = Some (scheduler_config (Some 6%N) None) ∧
  fs_databases (poll reads ConfigPoller_default).2 !! "s3://b/db" = Some (scheduler_config None (Some 5%N)).
Proof. by vm_compute. Qed.
