(* ===== verification/Daemon.v ===== *)
(** * Ownership (owned_assignments and housekeeping of src/daemon.rs)

    Every tick a node derives from the listing of [nodes/] and the fleet state
    which assignments it owns.  The theorems: ownership is exactly the ranked
    owner per assignment; nodes that read the same listing split the work with
    no gap and no overlap; a node always counts itself live; losing a node
    moves only that node's work; housekeeping deletes no live peer's
    heartbeat. *)

From S2P Require Import Prelude Order Text Service Placement Heartbeat Store Root.
From S2P Require Import Registry Config Validate Targets Poller.

(** A [(database, service)] pair, or a triple with the target's name for
    [Mirror]. *)
Abbreviation Assignment := (string * Service * option string)%type.

(** The candidates of a service: the ids of the nodes that offer it. *)
Definition candidates (nodes : list NodeView) (service : Service) : list string :=
  nv_node_id <$> filter (λ n, service ∈ nv_services n) nodes.

(** How many nodes own a pair. *)
Definition owner_count (resolved : ResolvedServices) (service : Service) : nat :=
  match service with
  | CompactionWorkers => N.to_nat (rwk_count (rs_workers resolved))
  | _ => 1
  end.

(** [nodes.push(..)] of the node itself when the listing has it dead. *)
Definition with_self (node_id : string) (services : list Service) (nodes : list NodeView) : list NodeView :=
  if existsb (λ n, bool_decide (nv_node_id n = node_id)) nodes then nodes
  else nodes ++ [{| nv_node_id := node_id; nv_services := services; nv_age := 0 |}].

Section daemon.
Context `{UrlLib, PercentLib}.

(** What the loop body inserts for one service of one database. *)
Definition service_assignments (node_id : string) (nodes : list NodeView) (url : string)
    (resolved : ResolvedServices) (service : Service) : list Assignment :=
  let cs := candidates nodes service in
  if decide (service = Mirror) then
    omap (λ applied,
      if decide (owner_target url (at_name applied) cs = Some node_id)
      then Some (url, service, Some (at_name applied)) else None)
      (applied_targets url (rs_mirror resolved))
  else if decide (node_id ∈ owners url service (owner_count resolved service) cs)
       then [(url, service, None)] else [].

(** Every insertion of the two loops, in order. *)
Definition database_assignments (node_id : string) (nodes : list NodeView) (config : SleetConfig)
    (e : string * DatabaseConfig) : list (Assignment * ResolvedServices) :=
  let resolved := resolve config (Some e.2) in
  service ← rs_services resolved;
  key ← service_assignments node_id nodes e.1 resolved service;
  [(key, resolved)].

Definition insert_all {K V} `{Countable K} (l : list (K * V)) : gmap K V :=
  fold_left (λ m e, <[e.1 := e.2]> m) l ∅.

Definition owned_by_view (node_id : string) (nodes : list NodeView) (state : FleetState)
    : gmap Assignment ResolvedServices :=
  insert_all (e ← btree_iter (fs_databases state); database_assignments node_id nodes (fs_config state) e).

Definition owned_assignments `{StoreLib} (node_id : string) (services : list Service)
    (entries : list HeartbeatEntry) (state : FleetState) : gmap Assignment ResolvedServices :=
  owned_by_view node_id
    (with_self node_id services
      (node_view entries (heartbeat_timeout (cfg_node (fs_config state)))))
    state.

(** ** Which assignments are owned *)

(** The node is a ranked owner of the assignment among [nodes]. *)
Definition ranked_owner (node_id : string) (nodes : list NodeView) (url : string)
    (resolved : ResolvedServices) (service : Service) (target : option string) : Prop :=
  match target with
  | Some name =>
      service = Mirror ∧ name ∈ at_name <$> applied_targets url (rs_mirror resolved) ∧
      owner_target url name (candidates nodes service) = Some node_id
  | None =>
      service ≠ Mirror ∧
      node_id ∈ owners url service (owner_count resolved service) (candidates nodes service)
  end.

Lemma elem_of_service_assignments n nodes url r svc k :
  k ∈ service_assignments n nodes url r svc ↔
  ∃ tgt, k = (url, svc, tgt) ∧ ranked_owner n nodes url r svc tgt.
Proof.
  unfold service_assignments, ranked_owner. destruct (decide (svc = Mirror)) as [->|Hm].
  - rewrite list_elem_of_omap. split.
    + intros (t & Ht & Hk). case_decide; simplify_eq. eexists. split; [done|]. simpl.
      split_and!; [done| |done]. apply list_elem_of_fmap. eauto.
    + intros ([name|] & -> & Ho); [|by destruct Ho]. destruct Ho as (_ & Hin & Ho).
      apply list_elem_of_fmap in Hin as (t & -> & Ht). exists t. by rewrite decide_True.
  - case_decide as Hin.
    + rewrite list_elem_of_singleton. split; [intros ->; by exists None|].
      by intros ([name|] & -> & [? ?]).
    + split; [by intros ?%elem_of_nil|]. by intros ([name|] & -> & [? ?]).
Qed.

Lemma insert_all_snoc {K V} `{Countable K} (l : list (K * V)) k v :
  insert_all (l ++ [(k, v)]) = <[k := v]> (insert_all l).
Proof. unfold insert_all. by rewrite fold_left_app. Qed.

Lemma insert_all_lookup {K V} `{Countable K} (l : list (K * V)) k v :
  (∀ v1 v2, (k, v1) ∈ l → (k, v2) ∈ l → v1 = v2) →
  insert_all l !! k = Some v ↔ (k, v) ∈ l.
Proof.
  induction l as [|[k' v'] l IH] using rev_ind; intros Hfun.
  { unfold insert_all. simpl. rewrite lookup_empty, elem_of_nil. done. }
  rewrite insert_all_snoc, elem_of_app, list_elem_of_singleton.
  destruct (decide (k' = k)) as [->|Hne].
  - rewrite lookup_insert_eq. split; [naive_solver|]. intros Hin. f_equal.
    apply Hfun; rewrite elem_of_app, list_elem_of_singleton; [by right|].
    destruct Hin as [?|[= ->]]; auto.
  - rewrite lookup_insert_ne by done. rewrite IH; [naive_solver|].
    intros v1 v2 ??. apply Hfun; rewrite elem_of_app; auto.
Qed.

Lemma owned_by_view_spec n nodes state url svc tgt r :
  owned_by_view n nodes state !! (url, svc, tgt) = Some r ↔
  ∃ db, fs_databases state !! url = Some db ∧ r = resolve (fs_config state) (Some db) ∧
        svc ∈ rs_services r ∧ ranked_owner n nodes url r svc tgt.
Proof.
  assert (Helem : ∀ k r', (k, r') ∈ (e ← btree_iter (fs_databases state);
      database_assignments n nodes (fs_config state) e) ↔
    ∃ url db svc tgt, k = (url, svc, tgt) ∧ fs_databases state !! url = Some db ∧
      r' = resolve (fs_config state) (Some db) ∧ svc ∈ rs_services r' ∧
      ranked_owner n nodes url r' svc tgt).
  { intros k r'. rewrite list_elem_of_bind. unfold database_assignments.
    setoid_rewrite list_elem_of_bind. setoid_rewrite list_elem_of_bind.
    setoid_rewrite list_elem_of_singleton. setoid_rewrite elem_of_service_assignments. split.
    - intros ([u db] & (s & (k' & [= -> ->] & t & -> & Ho) & Hs) & He%elem_of_btree_iter).
      by exists u, db, s, t.
    - intros (u & db & s & t & -> & Hdb & -> & Hs & Ho). exists (u, db).
      split; [|by apply elem_of_btree_iter]. exists s. split; [|done].
      exists (u, s, t). split; [done|]. by exists t. }
  unfold owned_by_view. rewrite insert_all_lookup, Helem.
  - split; [intros (u & db & s & t & [= <- <- <-] & ?); eauto|].
    intros (db & ?). by exists url, db, svc, tgt.
  - intros r1 r2 (? & ? & ? & ? & [= <- <- <-] & H1 & -> & _)%Helem
      (? & ? & ? & ? & [= <- <- <-] & H2 & -> & _)%Helem. congruence.
Qed.

(** ** Candidates *)
Lemma elem_of_candidates nodes svc n :
  n ∈ candidates nodes svc ↔ ∃ v, v ∈ nodes ∧ nv_node_id v = n ∧ svc ∈ nv_services v.
Proof.
  unfold candidates. rewrite list_elem_of_fmap. setoid_rewrite list_elem_of_filter. naive_solver.
Qed.

Lemma NoDup_candidates nodes svc : NoDup (nv_node_id <$> nodes) → NoDup (candidates nodes svc).
Proof. intros Hn. eapply sublist_NoDup; [done|]. apply fmap_sublist, sublist_filter. Qed.

Lemma candidates_perm nodes1 nodes2 svc :
  nodes1 ≡ₚ nodes2 → candidates nodes1 svc ≡ₚ candidates nodes2 svc.
Proof. intros Hp. unfold candidates. by rewrite Hp. Qed.

Lemma candidates_without nodes svc d :
  candidates (filter (λ v, nv_node_id v ≠ d) nodes) svc = filter (.≠ d) (candidates nodes svc).
Proof.
  unfold candidates. rewrite filter_fmap. f_equal. rewrite !list_filter_filter.
  apply list_filter_iff. tauto.
Qed.

Lemma ranked_owner_candidate n nodes url r svc tgt :
  ranked_owner n nodes url r svc tgt → n ∈ candidates nodes svc.
Proof.
  destruct tgt; simpl; [|intros [_ ?]; by eapply elem_of_owners].
  intros (_ & _ & ?). by eapply owner_target_elem.
Qed.

(** Ranking looks at the candidates only, in any order. *)
Lemma ranked_owner_candidates n nodes1 nodes2 url r svc tgt :
  candidates nodes1 svc ≡ₚ candidates nodes2 svc →
  ranked_owner n nodes1 url r svc tgt ↔ ranked_owner n nodes2 url r svc tgt.
Proof.
  intros Hc. destruct tgt; simpl.
  - by rewrite (owner_target_order_independent _ _ _ _ Hc).
  - by rewrite (owners_order_independent _ _ _ _ _ Hc).
Qed.

Lemma ranked_owner_perm n nodes1 nodes2 url r svc tgt :
  nodes1 ≡ₚ nodes2 → ranked_owner n nodes1 url r svc tgt ↔ ranked_owner n nodes2 url r svc tgt.
Proof. intros Hp. by apply ranked_owner_candidates, candidates_perm. Qed.

(** The order of the nodes does not matter. *)
Lemma owned_by_view_perm n nodes1 nodes2 state :
  nodes1 ≡ₚ nodes2 → owned_by_view n nodes1 state = owned_by_view n nodes2 state.
Proof.
  intros Hp. apply map_eq. intros [[url svc] tgt]. apply option_eq. intros r.
  rewrite !owned_by_view_spec. by setoid_rewrite (ranked_owner_perm n nodes1 nodes2).
Qed.

(** Only ids and offered services of the nodes matter. *)
Definition roster (v : NodeView) : string * list Service := (nv_node_id v, nv_services v).

Lemma candidates_roster nodes svc :
  candidates nodes svc = (filter (λ p, svc ∈ p.2) (roster <$> nodes)).*1.
Proof. unfold candidates. rewrite filter_fmap, <-list_fmap_compose. done. Qed.

Lemma node_ids_roster nodes : nv_node_id <$> nodes = (roster <$> nodes).*1.
Proof. by rewrite <-list_fmap_compose. Qed.

Lemma candidates_roster_without nodes nodes' svc d :
  roster <$> nodes' = filter (λ p, p.1 ≠ d) (roster <$> nodes) →
  candidates nodes' svc = filter (.≠ d) (candidates nodes svc).
Proof.
  intros Hr. rewrite !candidates_roster, Hr. generalize (roster <$> nodes). intros l.
  rewrite filter_fmap, !list_filter_filter. f_equal.
  apply list_filter_iff. tauto.
Qed.

Section listing.
Context `{StoreLib}.

Lemma with_self_present n services nodes :
  n ∈ nv_node_id <$> nodes → with_self n services nodes = nodes.
Proof.
  intros (v & -> & Hv)%list_elem_of_fmap. unfold with_self.
  rewrite (proj2 (existsb_exists _ _)); [done|]. exists v.
  rewrite <-list_elem_of_In, bool_decide_eq_true. done.
Qed.

Lemma with_self_absent n services nodes :
  n ∉ nv_node_id <$> nodes →
  with_self n services nodes =
    nodes ++ [{| nv_node_id := n; nv_services := services; nv_age := 0 |}].
Proof.
  intros Hn. unfold with_self. destruct (existsb _ nodes) eqn:E; [|done].
  apply existsb_exists in E as (v & Hv & Hid%bool_decide_eq_true).
  apply list_elem_of_In in Hv. destruct Hn. apply list_elem_of_fmap. eauto.
Qed.

Lemma NoDup_view_ids entries timeout : NoDup (nv_node_id <$> node_view entries timeout).
Proof. apply node_view_sorted. Qed.

Lemma NoDup_view entries timeout : NoDup (node_view entries timeout).
Proof. eapply NoDup_fmap_1, NoDup_view_ids. Qed.

(** The view with a fresh heartbeat of an absent node. *)
Lemma node_view_cons_fresh e entries timeout :
  he_age e = 0%N → (0 < timeout)%N →
  he_node_id e ∉ nv_node_id <$> node_view entries timeout →
  node_view (e :: entries) timeout ≡ₚ node_view entries timeout ++ [entry_view e].
Proof.
  intros Hage Ht Habs. apply NoDup_Permutation.
  - apply NoDup_view.
  - apply NoDup_app. split_and!; [apply NoDup_view| |apply NoDup_singleton].
    intros v Hv ->%list_elem_of_singleton. destruct Habs. apply list_elem_of_fmap. by exists (entry_view e).
  - intros v. rewrite elem_of_app, list_elem_of_singleton, !elem_of_node_view.
    setoid_rewrite (represents_cons_fresh e); [|done]. split.
    + intros (x & [->|[? ?]] & ? & ->); [by right|left; eauto].
    + intros [(x & Hx & ? & ->)| ->]; [|exists e; split_and!; auto; lia].
      exists x. split_and!; try done. right. split; [|done]. intros Hid. destruct Habs.
      rewrite <-Hid. apply list_elem_of_fmap. exists (entry_view x). split; [done|].
      apply elem_of_node_view. eauto.
Qed.

(** ** The claims *)

(** The nodes a listing shows live under the fleet's timeout. *)
Definition live_view (entries : list HeartbeatEntry) (state : FleetState) : list NodeView :=
  node_view entries (heartbeat_timeout (cfg_node (fs_config state))).

Lemma owned_live n services entries state :
  n ∈ nv_node_id <$> live_view entries state →
  owned_assignments n services entries state = owned_by_view n (live_view entries state) state.
Proof. intros Hn. unfold owned_assignments. by rewrite with_self_present. Qed.

(** Ownership is the ranking: a node owns an assignment exactly when the
    database is registered, its resolved settings (which travel with the
    assignment) run the service, and the node is among the top ranked live
    nodes that offer it: one for gc and the coordinator, [count] for workers,
    and for [Mirror] the best ranked for each target that applies. *)
Theorem owned_assignments_spec n services entries state url svc tgt r :
  owned_assignments n services entries state !! (url, svc, tgt) = Some r ↔
  ∃ db, fs_databases state !! url = Some db ∧ r = resolve (fs_config state) (Some db) ∧
        svc ∈ rs_services r ∧
        ranked_owner n (with_self n services (live_view entries state)) url r svc tgt.
Proof. apply owned_by_view_spec. Qed.

(** The owners among nodes with distinct ids: as many as asked for, or one
    per target. *)
Lemma ranked_partition nodes url r svc :
  NoDup (nv_node_id <$> nodes) →
  let cs := candidates nodes svc in
  (svc ≠ Mirror →
     ∃ os, NoDup os ∧ length os = min (owner_count r svc) (length cs) ∧
           ∀ n, n ∈ os ↔ ranked_owner n nodes url r svc None) ∧
  (svc = Mirror → cs ≠ [] → ∀ t, t ∈ applied_targets url (rs_mirror r) →
     ∃ o, ∀ n, n = o ↔ ranked_owner n nodes url r svc (Some (at_name t))).
Proof.
  intros Hnd cs. split.
  - intros Hm. exists (owners url svc (owner_count r svc) cs). split_and!.
    + by apply NoDup_owners, NoDup_candidates.
    + apply length_owners.
    + intros n. split; [done|by intros [_ ?]].
  - intros -> Hcs t Ht. destruct (owner_target url (at_name t) cs) as [o|] eqn:Eo; cycle 1.
    { by apply owner_target_None in Eo. }
    exists o. intros n. split.
    + intros ->. split_and!; [done| |done]. apply list_elem_of_fmap. eauto.
    + intros (_ & _ & Ho). unfold cs in Eo. congruence.
Qed.

Lemma ranked_owner_live n nodes url r svc tgt :
  ranked_owner n nodes url r svc tgt → n ∈ nv_node_id <$> nodes.
Proof.
  intros (v & ? & <- & _)%ranked_owner_candidate%elem_of_candidates. apply list_elem_of_fmap. eauto.
Qed.

(** No gap and no overlap: for nodes that are live in the listing they
    share, every configured service of every registered database is owned by
    exactly [min count candidates] of them, so by exactly one for gc and the
    coordinator as soon as one live node offers it; and every applied mirror
    target by exactly one. *)
Theorem assignments_partitioned entries state url db svc (offered : string → list Service) :
  fs_databases state !! url = Some db →
  svc ∈ rs_services (resolve (fs_config state) (Some db)) →
  let r := resolve (fs_config state) (Some db) in
  let live := nv_node_id <$> live_view entries state in
  let cs := candidates (live_view entries state) svc in
  let owns n tgt := is_Some (owned_assignments n (offered n) entries state !! (url, svc, tgt)) in
  (svc ≠ Mirror →
     ∃ os, NoDup os ∧ length os = min (owner_count r svc) (length cs) ∧
           ∀ n, n ∈ os ↔ n ∈ live ∧ owns n None) ∧
  (svc = Mirror → cs ≠ [] → ∀ t, t ∈ applied_targets url (rs_mirror r) →
     ∃ o, ∀ n, n = o ↔ n ∈ live ∧ owns n (Some (at_name t))).
Proof.
  intros Hdb Hsvc r live cs owns.
  assert (Howns : ∀ n tgt, n ∈ live ∧ owns n tgt ↔ ranked_owner n (live_view entries state) url r svc tgt).
  { intros n tgt. split.
    - intros [Hn Ho]. unfold owns in Ho. rewrite owned_live in Ho by done.
      destruct Ho as [r' (db' & Hdb' & -> & _ & Ho)%owned_by_view_spec]. by simplify_eq.
    - intros Ho. pose proof (ranked_owner_live _ _ _ _ _ _ Ho) as Hn. split; [done|].
      unfold owns. rewrite owned_live by done. exists r. apply owned_by_view_spec. eauto. }
  setoid_rewrite Howns. by apply ranked_partition, NoDup_view_ids.
Qed.

(** A node never runs what it does not offer: an owned assignment's
    service is one the node published in its live heartbeat, or, when the
    listing has the node dead, one it was started with. *)
Theorem owned_services_offered n services entries state url svc tgt r :
  owned_assignments n services entries state !! (url, svc, tgt) = Some r →
  (∃ v, v ∈ live_view entries state ∧ nv_node_id v = n ∧ svc ∈ nv_services v) ∨
  (n ∉ nv_node_id <$> live_view entries state ∧ svc ∈ services).
Proof.
  intros (db & _ & _ & _ & Ho)%owned_by_view_spec. apply ranked_owner_candidate in Ho.
  destruct (decide (n ∈ nv_node_id <$> live_view entries state)) as [Hin|Hin].
  - rewrite with_self_present in Ho by done. apply elem_of_candidates in Ho. eauto.
  - rewrite with_self_absent in Ho by done. apply elem_of_candidates in Ho as (v & Hv & Hid & ?).
    apply elem_of_app in Hv as [?| ->%list_elem_of_singleton]; [left; by exists v|by right].
Qed.

(** A node always counts itself live: when its own heartbeat reads as
    dead or missing it owns exactly what it would own had the listing shown a
    heartbeat just written, so it keeps its share instead of dropping it. *)
Theorem node_counts_itself_live n services entries state e :
  he_node_id e = n → he_services e = services → he_age e = 0%N →
  (0 < heartbeat_timeout (cfg_node (fs_config state)))%N →
  n ∉ nv_node_id <$> live_view entries state →
  owned_assignments n services entries state = owned_assignments n services (e :: entries) state.
Proof.
  intros <- <- Hage Ht Habs. unfold owned_assignments.
  rewrite (with_self_absent _ _ _ Habs).
  pose proof (node_view_cons_fresh e entries _ Hage Ht Habs) as Hp.
  rewrite with_self_present.
  - apply owned_by_view_perm. rewrite Hp. unfold entry_view. by rewrite Hage.
  - rewrite Hp, fmap_app, elem_of_app. right. simpl. set_solver.
Qed.

(** C26: losing a node moves only its work: when the live roster loses node
    [d], every other node keeps all it owned, and whatever it newly owns is
    something [d] owned. *)
Theorem node_loss_moves_only_its_work d n services services_d entries entries' state url svc tgt r :
  roster <$> live_view entries' state = filter (λ p, p.1 ≠ d) (roster <$> live_view entries state) →
  n ∈ nv_node_id <$> live_view entries state → n ≠ d →
  let k := (url, svc, tgt) in
  let before m s := owned_assignments m s entries state !! k = Some r in
  let after m s := owned_assignments m s entries' state !! k = Some r in
  (before n services → after n services) ∧
  (after n services → before n services ∨ before d services_d).
Proof.
  intros Hr Hn Hd k before after. unfold before, after, k.
  assert (Hn' : n ∈ nv_node_id <$> live_view entries' state).
  { rewrite node_ids_roster, Hr. rewrite node_ids_roster in Hn.
    apply list_elem_of_fmap in Hn as (p & -> & Hp). apply list_elem_of_fmap. exists p.
    split; [done|]. by apply list_elem_of_filter. }
  pose proof (candidates_roster_without _ _ svc _ Hr) as Hc.
  pose proof (NoDup_candidates _ svc (NoDup_view_ids entries
    (heartbeat_timeout (cfg_node (fs_config state))))) as Hnd. fold (live_view entries state) in Hnd.
  rewrite !owned_live, !owned_by_view_spec by done. split.
  - intros (db & Hdb & Hres & Hs & Ho). exists db. split_and!; try done.
    destruct tgt as [name|]; simpl in *; rewrite Hc.
    + destruct Ho as (? & ? & Ho). split_and!; try done. rewrite owner_target_without; congruence.
    + destruct Ho as (? & Ho). split; [done|]. rewrite owners_without by done.
      case_decide; [|done]. apply list_elem_of_filter. split; [done|]. by apply owners_more.
  - intros (db & Hdb & Hres & Hs & Ho).
    assert (Hcase : ranked_owner n (live_view entries state) url r svc tgt ∨
                    ranked_owner d (live_view entries state) url r svc tgt).
    { destruct tgt as [name|]; simpl in *; rewrite Hc in Ho.
      - destruct Ho as (? & ? & Ho).
        destruct (decide (owner_target url name (candidates (live_view entries state) svc) = Some d)) as [?|Hnd'].
        + by right.
        + left. split_and!; try done. by rewrite owner_target_without in Ho.
      - destruct Ho as (? & Ho). rewrite owners_without in Ho by done.
        case_decide; [by right|by left]. }
    destruct Hcase as [?|Hod]; [left; eauto|right].
    assert (Hdl : d ∈ nv_node_id <$> live_view entries state).
    { apply ranked_owner_candidate, elem_of_candidates in Hod as (v & ? & <- & _).
      apply list_elem_of_fmap. eauto. }
    rewrite owned_live by done. apply owned_by_view_spec. eauto.
Qed.

(** ** Housekeeping *)

(** The heartbeats a tick deletes: this node's old names, and anything dead
    for ten timeouts.  [None] is the panic of [Duration * 10] on overflow; a
    failed DELETE only logs. *)
Definition housekeeping (own : StorePath) (node_id : string) (entries : list HeartbeatEntry)
    (timeout : Duration) : option (list StorePath) :=
  long_dead ← duration_mul timeout 10;
  Some (he_location <$> filter (λ e,
    (he_node_id e = node_id ∧ he_location e ≠ own) ∨ (long_dead ≤ he_age e)%N) entries).

Lemma elem_of_housekeeping own n entries timeout dels l :
  housekeeping own n entries timeout = Some dels →
  l ∈ dels ↔ ∃ e, e ∈ entries ∧ l = he_location e ∧
    ((he_node_id e = n ∧ l ≠ own) ∨ (timeout * 10 ≤ he_age e)%N).
Proof.
  unfold housekeeping, duration_mul. case_decide; [|done]. simpl. intros [= <-].
  rewrite list_elem_of_fmap. setoid_rewrite list_elem_of_filter. split.
  - intros (e & -> & ? & ?). eauto.
  - intros (e & ? & -> & ?). eauto.
Qed.

(** C30: housekeeping never endangers a live node: the objects it deletes are
    this node's own old names and heartbeats at least ten timeouts old, so no
    other node that is live in the listing loses its heartbeat, and this
    node's current heartbeat is kept unless it reads that old itself; all such
    objects are deleted. *)
Theorem housekeeping_spares_live own n entries state dels :
  (0 < heartbeat_timeout (cfg_node (fs_config state)))%N →
  housekeeping own n entries (heartbeat_timeout (cfg_node (fs_config state))) = Some dels →
  let timeout := heartbeat_timeout (cfg_node (fs_config state)) in
  (∀ l, l ∈ dels ↔ ∃ e, e ∈ entries ∧ l = he_location e ∧
     ((he_node_id e = n ∧ l ≠ own) ∨ (timeout * 10 ≤ he_age e)%N)) ∧
  (∀ e, e ∈ entries → represents entries e → (he_age e < timeout)%N → he_node_id e ≠ n →
     (∀ e', e' ∈ entries → he_location e' = he_location e → e' = e) → he_location e ∉ dels) ∧
  (∀ e, e ∈ entries → he_location e = own → (he_age e < timeout * 10)%N →
     (∀ e', e' ∈ entries → he_location e' = he_location e → e' = e) → own ∉ dels).
Proof.
  intros Ht Hh timeout. fold timeout in Ht, Hh.
  assert (Hspec := elem_of_housekeeping own n entries timeout dels). split; [by intros; apply Hspec|]. split.
  - intros e He _ Ha Hid Huniq (e' & He' & Hl & Hc)%(Hspec _ Hh).
    assert (e' = e) as -> by auto. destruct Hc as [[? ?]|?]; [done|lia].
  - intros e He Hl Ha Huniq (e' & He' & Hl' & Hc)%(Hspec _ Hh).
    assert (e' = e) as -> by (apply Huniq; congruence). destruct Hc as [[? ?]|?]; [done|lia].
Qed.

(** The one way a tick can stop the daemon: a heartbeat timeout so large that
    ten of them overflow a [Duration]. *)
Lemma housekeeping_total own n entries timeout :
  is_Some (housekeeping own n entries timeout) ↔ (timeout * 10 ≤ DURATION_MAX)%N.
Proof.
  unfold housekeeping, duration_mul. case_decide; simpl; split; try done; eauto.
Qed.
End listing.
End daemon.

(** ** Examples *)
Import Store.Concrete Registry.Concrete.

Definition beat (id : string) (age : Duration) : HeartbeatEntry :=
  {| he_node_id := id; he_services := ALL; he_age := age;
     he_location := ["fleet"; "nodes"; object_name id ALL] |}.
Definition two_nodes : list HeartbeatEntry := [beat "n1" 1; beat "n2" 2].
(** A database with a mirror target, under the default fleet config. *)
Definition mirrored : DatabaseConfig :=
  Build_DatabaseConfig None None None None (Some {| mro_targets := {[
    "backup" := Build_MirrorTargetOverrides (Some "s3://bak") None None None None None None
                  None None None None ]} |}).
Definition one_database : FleetState :=
  {| fs_config := SleetConfig_default; fs_databases := {[ "s3://b/db" := mirrored ]}; fs_warnings := [] |}.

Lemma assignments_partitioned_witness :
  ∃ o, ∀ n, n = o ↔ n ∈ nv_node_id <$> live_view two_nodes one_database ∧
    is_Some (owned_assignments n ALL two_nodes one_database !! ("s3://b/db", Mirror, Some "backup")).
Proof.
  destruct (assignments_partitioned two_nodes one_database "s3://b/db" mirrored Mirror (λ _, ALL))
    as [_ Hm]; [reflexivity|apply elem_of_ALL|].
  specialize (Hm eq_refl ltac:(vm_compute; discriminate)).
  refine (Hm {| at_name := "backup"; at_destination := "s3://bak"; at_settings := _ |} _).
  apply elem_of_applied_targets. split; [reflexivity|].
  apply destination_for_sends. reflexivity.
Defined.

Lemma owned_services_offered_witness :
  ∃ v, v ∈ live_view two_nodes one_database ∧ nv_node_id v = "n2" ∧ Gc ∈ nv_services v.
Proof.
  destruct (owned_services_offered "n2" ALL two_nodes one_database "s3://b/db" Gc None
    (resolve SleetConfig_default (Some mirrored))) as [Hv|[Hn _]]; [vm_compute; reflexivity|exact Hv|].
  destruct Hn. apply (bool_decide_unpack _). vm_compute. constructor.
Defined.

Lemma node_counts_itself_live_witness :
  owned_assignments "n3" [Gc] two_nodes one_database =
  owned_assignments "n3" [Gc]
    ({| he_node_id := "n3"; he_services := [Gc]; he_age := 0; he_location := ["n3"] |} :: two_nodes)
    one_database.
Proof.
  apply (node_counts_itself_live "n3" [Gc] two_nodes one_database); try reflexivity.
  apply (bool_decide_unpack _). vm_compute. constructor.
Defined.

Lemma node_loss_moves_only_its_work_witness :
  let k := ("s3://b/db", CompactorCoordinator, None) in
  let r := resolve SleetConfig_default (Some mirrored) in
  owned_assignments "n1" ALL two_nodes one_database !! k = Some r ∨
  owned_assignments "n2" ALL two_nodes one_database !! k = Some r.
Proof.
  intros k r.
  refine (proj2 (node_loss_moves_only_its_work "n2" "n1" ALL ALL two_nodes [beat "n1" 3] one_database
    "s3://b/db" CompactorCoordinator None r _ _ _) _); [vm_compute; reflexivity| |discriminate|vm_compute; reflexivity].
  apply (bool_decide_unpack _). vm_compute. constructor.
Defined.

Lemma housekeeping_spares_live_witness :
  let own := he_location (beat "n1" 1) in
  housekeeping own "n1" two_nodes (heartbeat_timeout (cfg_node (fs_config one_database))) = Some [] ∧
  own ∉ [].
Proof.
  intros own. split; [reflexivity|].
  refine (proj2 (proj2 (housekeeping_spares_live own "n1" two_nodes one_database
    [] eq_refl eq_refl)) (beat "n1" 1) _ eq_refl eq_refl _); [set_solver|].
  intros e' [->|[->|[]%elem_of_nil]%elem_of_cons]%elem_of_cons; [reflexivity|discriminate].
Defined.

(** Validation bounds the heartbeat timeout only from below: a config that
    passes it can make the first tick panic. *)
Theorem huge_timeout_panics :
  let node := {| heartbeat_interval := from_secs 10; heartbeat_timeout := from_secs 10000000000000000000;
                 config_poll := from_secs 60 |} in
  node_ok node ∧ (heartbeat_timeout node ≤ DURATION_MAX)%N ∧
  housekeeping ["own"] "n1" two_nodes (heartbeat_timeout node) = None.
Proof. by vm_compute. Qed.
