(* ===== verification/Supervise.v ===== *)
(** * Task supervision (reconcile, supervise_with, the task states and the
    heartbeat summaries of src/daemon.rs)

    [reconcile] makes the running tasks exactly the owned assignments;
    [supervise_with] restarts one task with backoff; the supervisors of a key
    share an entry of the state table, tagged with the instance that wrote it.
    The theorems: reconciliation is exact and restarts only what changed; the
    delays are bounded, double on failures and are one heartbeat interval on a
    fence; in every interleaving of two generations of supervisors the newer
    one's entry survives the older one's writes and shutdown. *)

From S2P Require Import Prelude Order Text Service Config Daemon Heartbeat.

(** ** Reconciliation *)

(** A spawned task: [rt_id] stands for its token and join handle. *)
Record RunningTask := { rt_id : N; rt_fingerprint : N }.
Abbreviation Tasks := (gmap Assignment RunningTask).

Section reconcile.
(** The hash of a config's debug text; and which handles have finished by the
    time the tasks are reaped. *)
Context (fingerprint : ResolvedServices → N) (is_finished : N → bool).

(** The tasks whose assignment is gone or whose settings changed. *)
Definition must_stop (owned : gmap Assignment ResolvedServices) (key : Assignment) (task : RunningTask) : Prop :=
  match owned !! key with
  | Some resolved => fingerprint resolved ≠ rt_fingerprint task
  | None => True
  end.
#[export] Instance must_stop_dec owned key task : Decision (must_stop owned key task).
Proof. unfold must_stop. destruct (owned !! key); apply _. Defined.

(** The tasks after the stop loop and the reaping. *)
Definition kept_tasks (tasks : Tasks) (owned : gmap Assignment ResolvedServices) : Tasks :=
  filter (λ kt, is_finished (rt_id kt.2) = false)
    (filter (λ kt, ¬ must_stop owned kt.1 kt.2) tasks).

(** One iteration of the starting loop: the tasks and the next task id. *)
Definition start_task (s : Tasks * N) (e : Assignment * ResolvedServices) : Tasks * N :=
  let '(tasks, next) := s in
  match tasks !! e.1 with
  | Some _ => (tasks, next)
  | None => (<[e.1 := {| rt_id := next; rt_fingerprint := fingerprint e.2 |}]> tasks, N.succ next)
  end.

Record Reconciled := {
  rc_tasks : Tasks;
  rc_next : N;
  (** The tasks whose token is cancelled. *)
  rc_cancelled : list RunningTask;
}.

Definition reconcile (tasks : Tasks) (owned : gmap Assignment ResolvedServices) (next : N) : Reconciled :=
  let '(tasks', next') := fold_left start_task (map_to_list owned) (kept_tasks tasks owned, next) in
  {| rc_tasks := tasks'; rc_next := next';
     rc_cancelled := (map_to_list (filter (λ kt, must_stop owned kt.1 kt.2) tasks)).*2 |}.

Lemma kept_tasks_lookup tasks owned key task :
  kept_tasks tasks owned !! key = Some task ↔
  tasks !! key = Some task ∧ is_finished (rt_id task) = false ∧
  fingerprint <$> owned !! key = Some (rt_fingerprint task).
Proof.
  unfold kept_tasks. rewrite !map_lookup_filter_Some. simpl. unfold must_stop.
  destruct (owned !! key) as [r|]; simpl.
  - split; [intros [[? Hf%dec_stable] ?]; by rewrite Hf|].
    intros (? & ? & [= ->]). split_and!; try done. by intros [].
  - split; [intros [[_ []] _]; done|by intros (? & ? & ?)].
Qed.

(** Starting everything in a list of assignments with distinct keys. *)
Lemma start_tasks_lookup l tasks next :
  NoDup l.*1 →
  let '(tasks', next') := fold_left start_task l (tasks, next) in
  (next ≤ next')%N ∧
  (∀ key task, tasks !! key = Some task → tasks' !! key = Some task) ∧
  (∀ key, tasks !! key = None → key ∉ l.*1 → tasks' !! key = None) ∧
  (∀ key r, tasks !! key = None → (key, r) ∈ l →
     ∃ id, tasks' !! key = Some {| rt_id := id; rt_fingerprint := fingerprint r |} ∧
           (next ≤ id < next')%N).
Proof.
  revert tasks next. induction l as [|[k r] l IH]; intros tasks next Hnd; csimpl.
  { split_and!; [lia|done|done|]. intros ? ? ? []%elem_of_nil. }
  csimpl in Hnd. apply NoDup_cons in Hnd as [Hk Hnd].
  destruct (tasks !! k) as [t|] eqn:Et.
  - specialize (IH tasks next Hnd). destruct (fold_left _ l _) as [tasks' next'].
    destruct IH as (? & H1 & H2 & H3). split_and!; try done.
    + intros key ? ?. apply H2; [done|]. set_solver.
    + intros key r' ? [[= -> ->]|?]%elem_of_cons; [congruence|by apply H3].
  - specialize (IH (<[k:={| rt_id := next; rt_fingerprint := fingerprint r |}]> tasks) (N.succ next) Hnd).
    destruct (fold_left _ l _) as [tasks' next']. destruct IH as (? & H1 & H2 & H3).
    split_and!; [lia| | |].
    + intros key task Hkt. apply H1. rewrite lookup_insert_ne; [done|]. by intros ->; simplify_eq.
    + intros key Hkt Hin. apply H2; [|set_solver]. rewrite lookup_insert_ne; [done|set_solver].
    + intros key r' Hkt [[= -> ->]|Hin]%elem_of_cons.
      * exists next. split; [|lia]. apply H1. apply lookup_insert_eq.
      * destruct (H3 key r') as (id & ? & ?); [|done|].
        -- rewrite lookup_insert_ne; [done|]. intros ->. destruct Hk. apply list_elem_of_fmap.
           by exists (key, r').
        -- exists id. split; [done|lia].
Qed.

Lemma reconcile_spec tasks owned next :
  (∀ key task, tasks !! key = Some task → (rt_id task < next)%N) →
  let rc := reconcile tasks owned next in
  (∀ key, fingerprint <$> owned !! key = rt_fingerprint <$> rc_tasks rc !! key) ∧
  (∀ key task, tasks !! key = Some task →
     (rc_tasks rc !! key = Some task ↔
        fingerprint <$> owned !! key = Some (rt_fingerprint task) ∧ is_finished (rt_id task) = false)) ∧
  (∀ key task, rc_tasks rc !! key = Some task → tasks !! key = Some task ∨ (next ≤ rt_id task)%N) ∧
  (∀ task, task ∈ rc_cancelled rc ↔
     ∃ key, tasks !! key = Some task ∧ fingerprint <$> owned !! key ≠ Some (rt_fingerprint task)) ∧
  (∀ key task, rc_tasks rc !! key = Some task → (rt_id task < rc_next rc)%N).
Proof.
  intros Hnext. unfold reconcile.
  pose proof (start_tasks_lookup (map_to_list owned) (kept_tasks tasks owned) next
    (NoDup_fst_map_to_list owned)) as Hst.
  destruct (fold_left _ _ _) as [tasks' next']. simpl. destruct Hst as (Hle & Hkeep & Hnone & Hnew).
  assert (Hcase : ∀ key, match kept_tasks tasks owned !! key, owned !! key with
    | Some t, _ => tasks' !! key = Some t
    | None, None => tasks' !! key = None
    | None, Some r => ∃ id, tasks' !! key = Some {| rt_id := id; rt_fingerprint := fingerprint r |} ∧
                            (next ≤ id < next')%N end).
  { intros key. destruct (kept_tasks tasks owned !! key) as [t|] eqn:Ek; [by apply Hkeep|].
    destruct (owned !! key) as [r|] eqn:Eo.
    - apply Hnew; [done|]. by apply elem_of_map_to_list.
    - apply Hnone; [done|]. intros ([k r] & -> & Hin%elem_of_map_to_list)%list_elem_of_fmap.
      simpl in *. congruence. }
  split_and!.
  - intros key. specialize (Hcase key). destruct (kept_tasks tasks owned !! key) as [t|] eqn:Ek.
    + rewrite Hcase. simpl. by apply kept_tasks_lookup in Ek as (_ & _ & ->).
    + destruct (owned !! key); [destruct Hcase as (id & -> & _)|rewrite Hcase]; done.
  - intros key task Ht. specialize (Hcase key). split.
    + intros Ht'. destruct (kept_tasks tasks owned !! key) as [t|] eqn:Ek.
      * rewrite Ht' in Hcase. injection Hcase as <-. apply kept_tasks_lookup in Ek. tauto.
      * destruct (owned !! key); [|congruence]. destruct Hcase as (id & Hid & ?).
        rewrite Ht' in Hid. injection Hid as ->. specialize (Hnext _ _ Ht). simpl in Hnext. lia.
    + intros [? ?]. rewrite (proj2 (kept_tasks_lookup tasks owned key task)) in Hcase; done.
  - intros key task Ht'. specialize (Hcase key).
    destruct (kept_tasks tasks owned !! key) as [t|] eqn:Ek.
    + rewrite Ht' in Hcase. injection Hcase as <-. apply kept_tasks_lookup in Ek. tauto.
    + destruct (owned !! key); [|congruence]. destruct Hcase as (id & Hid & ?). simplify_eq. right; simpl; lia.
  - intros task. rewrite list_elem_of_fmap. split.
    + intros ([k t] & -> & [Hl Hs]%elem_of_map_to_list%map_lookup_filter_Some). simpl in *.
      exists k. split; [done|]. unfold must_stop in Hs. by destruct (owned !! k); simpl; [congruence|].
    + intros (key & Ht & Hne). exists (key, task). split; [done|].
      apply elem_of_map_to_list, map_lookup_filter_Some. split; [done|]. unfold must_stop. simpl.
      destruct (owned !! key); simpl in *; [congruence|done].
  - intros key task Ht'. specialize (Hcase key).
    destruct (kept_tasks tasks owned !! key) as [t|] eqn:Ek.
    + rewrite Ht' in Hcase. injection Hcase as <-. apply kept_tasks_lookup in Ek as (Hl & _).
      specialize (Hnext _ _ Hl). lia.
    + destruct (owned !! key); [|congruence]. destruct Hcase as (id & Hid & ?). simplify_eq. simpl. lia.
Qed.

(** Reconciliation leaves exactly the owned assignments running, each
    with its current settings: a live task whose settings did not change is
    left alone, never restarted; every other owned assignment gets a fresh
    task; and precisely the tasks that are no longer owned or whose settings
    changed are cancelled. *)
Theorem reconcile_exact tasks owned next :
  (∀ key task, tasks !! key = Some task → (rt_id task < next)%N) →
  let rc := reconcile tasks owned next in
  (∀ key, fingerprint <$> owned !! key = rt_fingerprint <$> rc_tasks rc !! key) ∧
  (∀ key task, tasks !! key = Some task →
     (rc_tasks rc !! key = Some task ↔
        fingerprint <$> owned !! key = Some (rt_fingerprint task) ∧ is_finished (rt_id task) = false)) ∧
  (∀ key task, rc_tasks rc !! key = Some task → tasks !! key = Some task ∨ (next ≤ rt_id task)%N) ∧
  (∀ task, task ∈ rc_cancelled rc ↔
     ∃ key, tasks !! key = Some task ∧ fingerprint <$> owned !! key ≠ Some (rt_fingerprint task)) ∧
  (∀ key task, rc_tasks rc !! key = Some task → (rt_id task < rc_next rc)%N).
Proof. apply reconcile_spec. Qed.
End reconcile.

(** A changed task and a removed one. *)
Lemma reconcile_exact_witness :
  let key : Assignment := ("s3://b/db", Gc, None) in
  let tasks : Tasks := {[ key := {| rt_id := 0; rt_fingerprint := 1 |} ]} in
  let rc := reconcile (λ _, 2%N) (λ _, false) tasks {[ key := ResolvedServices_default ]} 5 in
  rt_fingerprint <$> rc_tasks rc !! key = Some 2%N.
Proof.
  intros key tasks rc.
  rewrite <-(proj1 (reconcile_exact (λ _, 2%N) (λ _, false) tasks {[ key := ResolvedServices_default ]} 5
    ltac:(by intros k t [<- <-]%lookup_singleton_Some))).
  reflexivity.
Defined.

(** ** The supervision loop *)

(** How a run of the task ended: [Ok(())], an error with [is_fenced], any
    other error. *)
Inductive RunResult := RunOk | RunFenced | RunFailed.

Inductive TaskState := Running | Backoff.
#[export] Instance task_state_eq_dec : EqDecision TaskState.
Proof. solve_decision. Defined.

(** A write to the shared state table. *)
Inductive StateOp := SetState (s : TaskState) | ClearState.

(** Where the supervisor is: inside [run], sleeping, or past the loop. *)
Inductive Phase :=
  | InRun (backoff : Duration)
  | Sleeping (backoff delay : Duration)
  | Stopped.

(** What it observes next: the task returning (with the token's state then),
    or the [select!] between the token and the timer. *)
Inductive Event :=
  | Returned (cancelled : bool) (result : RunResult)
  | Cancelled
  | Elapsed.

Definition INITIAL_BACKOFF : Duration := from_secs 1.
Definition MAX_BACKOFF : Duration := from_secs 60.

(** The delay and the next backoff after a result; [None] is a clean exit or
    the overflow panic of [backoff * 2]. *)
Definition next_delay (heartbeat_interval backoff : Duration) (result : RunResult)
    : option (Duration * Duration) :=
  match result with
  | RunOk => None
  | RunFenced => Some (INITIAL_BACKOFF, heartbeat_interval)
  | RunFailed =>
      doubled ← duration_mul backoff 2;
      let backoff := N.min doubled MAX_BACKOFF in
      Some (backoff, backoff)
  end.

(** One step: the new phase and the writes it makes.  [None]: the event does
    not apply. *)
Definition supervise_step (heartbeat_interval : Duration) (p : Phase) (e : Event)
    : option (Phase * list StateOp) :=
  match p, e with
  | InRun backoff, Returned cancelled result =>
      if cancelled then Some (Stopped, [ClearState])
      else
        match next_delay heartbeat_interval backoff result with
        | None => Some (Stopped, [ClearState])
        | Some (backoff, delay) => Some (Sleeping backoff delay, [SetState Backoff])
        end
  | Sleeping _ _, Cancelled => Some (Stopped, [ClearState])
  | Sleeping backoff _, Elapsed => Some (InRun backoff, [SetState Running])
  | _, _ => None
  end.

(** A run of the supervisor from its first iteration. *)
Definition supervise_start : Phase * list StateOp := (InRun INITIAL_BACKOFF, [SetState Running]).
Definition supervise (heartbeat_interval : Duration) (events : list Event) : option (Phase * list StateOp) :=
  foldl (λ s e, '(p, ops) ← s; '(p', ops') ← supervise_step heartbeat_interval p e; Some (p', ops ++ ops'))
    (Some supervise_start) events.

(** The results of the uncancelled runs, in order. *)
Definition results (events : list Event) : list RunResult :=
  omap (λ e, match e with Returned false r => Some r | _ => None end) events.

(** Failures since the start or the last fence. *)
Definition failure_streak (rs : list RunResult) : nat :=
  fold_left (λ k r, match r with RunFailed => S k | _ => 0 end) rs 0.

(** [min (2^k) 60] seconds. *)
Definition backoff_for (k : nat) : Duration := N.min (from_secs (2 ^ N.of_nat k)) MAX_BACKOFF.

Lemma backoff_double k : next_delay 0 (backoff_for k) RunFailed = Some (backoff_for (S k), backoff_for (S k)).
Proof.
  unfold next_delay, duration_mul, backoff_for, MAX_BACKOFF, from_secs, NANOS.
  rewrite decide_True.
  - simpl. do 2 f_equal; rewrite Nat2N.inj_succ, N.pow_succ_r'; lia.
  - transitivity (60 * 1000000000 * 2)%N; [lia|]. vm_compute. discriminate.
Qed.

Lemma supervise_snoc hb events e :
  supervise hb (events ++ [e]) =
    ('(p, ops) ← supervise hb events; '(p', ops') ← supervise_step hb p e; Some (p', ops ++ ops')).
Proof. unfold supervise. by rewrite foldl_app. Qed.

Lemma results_snoc events e :
  results (events ++ [e]) = results events ++ match e with Returned false r => [r] | _ => [] end.
Proof.
  unfold results. rewrite omap_app. f_equal. destruct e as [[] r| |]; done.
Qed.

Lemma failure_streak_snoc rs r :
  failure_streak (rs ++ [r]) = match r with RunFailed => S (failure_streak rs) | _ => 0 end.
Proof. unfold failure_streak. by rewrite fold_left_app. Qed.

(** The phase after any run, by the results so far. *)
Lemma supervise_phase hb events p ops :
  supervise hb events = Some (p, ops) →
  match p with
  | InRun b => b = backoff_for (failure_streak (results events))
  | Sleeping b d =>
      b = backoff_for (failure_streak (results events)) ∧
      ∃ rs, (results events = rs ++ [RunFenced] ∧ d = hb) ∨
            (results events = rs ++ [RunFailed] ∧ d = b)
  | Stopped => True
  end.
Proof.
  revert p ops. induction events as [|e events IH] using rev_ind; intros p ops.
  { unfold supervise. simpl. intros [= <- <-]. done. }
  rewrite supervise_snoc. intros ([p0 ops0] & Hs & H)%bind_Some.
  apply bind_Some in H as ([p1 ops1] & Hst & [= <- <-]). specialize (IH _ _ Hs).
  rewrite results_snoc. destruct p0 as [b|b d|], e as [[] r| |]; simplify_eq/=; try done.
  - rewrite failure_streak_snoc. destruct r; simplify_eq/=; [done| |].
    + split; [done|]. exists (results events). auto.
    + pose proof (backoff_double (failure_streak (results events))) as Hb. simpl in Hb.
      destruct (duration_mul _ 2) as [d2|]; [|done]. simplify_eq/=. split; [congruence|].
      exists (results events). auto.
  - rewrite (right_id_L [] (++)). by destruct IH as [-> _].
Qed.

(** Restart delays: while the supervisor sleeps, the delay is one
    heartbeat interval if the last run was fenced; otherwise it is
    [min (2^k) 60] seconds after the [k]-th consecutive failure since the start
    or the last fence, so the first failure waits two seconds, the sixth and
    every later one a minute, and no computation overflows. *)
Theorem restart_delays hb events backoff delay ops :
  supervise hb events = Some (Sleeping backoff delay, ops) →
  ∃ rs r, results events = rs ++ [r] ∧
    match r with
    | RunOk => False
    | RunFenced => delay = hb
    | RunFailed =>
        let k := failure_streak (results events) in
        1 ≤ k ∧ delay = backoff_for k ∧ (from_secs 2 ≤ delay ≤ from_secs 60)%N ∧
        (6 ≤ k → delay = from_secs 60)
    end.
Proof.
  intros H. apply supervise_phase in H as (-> & rs & [[-> ->]|[Hr ->]]).
  - by exists rs, RunFenced.
  - exists rs, RunFailed. split; [done|]. rewrite Hr, failure_streak_snoc. cbv zeta.
    generalize (failure_streak rs). intros k. unfold backoff_for, MAX_BACKOFF, from_secs, NANOS.
    rewrite Nat2N.inj_succ, N.pow_succ_r'.
    pose proof (N.pow_le_mono_r 2 0 (N.of_nat k) ltac:(lia) ltac:(lia)) as H1.
    change (2 ^ 0)%N with 1%N in H1. split_and!; try lia.
    intros Hk. pose proof (N.pow_le_mono_r 2 5 (N.of_nat k) ltac:(lia) ltac:(lia)) as H5.
    change (2 ^ 5)%N with 32%N in H5. lia.
Qed.

Lemma restart_delays_witness :
  let fail := [Returned false RunFailed; Elapsed] in
  ∃ delay ops, supervise 7 (fail ++ fail ++ [Returned false RunFailed]) =
    Some (Sleeping delay delay, ops) ∧ (from_secs 2 ≤ delay ≤ from_secs 60)%N.
Proof.
  intros fail. eexists _, _. split; [reflexivity|].
  destruct (restart_delays 7 (fail ++ fail ++ [Returned false RunFailed]) _ _ _ eq_refl)
    as (rs & r & Hr & Hd).
  assert (r = RunFailed) as ->.
  { apply (f_equal last) in Hr. rewrite last_snoc in Hr. by injection Hr. }
  apply Hd.
Defined.

(** The writes of a supervisor: it starts by reporting [Running], and its
    last write is the removal of its entry exactly when it has stopped. *)
Lemma supervise_ops hb events p ops :
  supervise hb events = Some (p, ops) →
  (∃ ops', ops = SetState Running :: ops') ∧
  match p with
  | InRun _ => last ops = Some (SetState Running)
  | Sleeping _ _ => last ops = Some (SetState Backoff)
  | Stopped => last ops = Some ClearState
  end.
Proof.
  revert p ops. induction events as [|e events IH] using rev_ind; intros p ops.
  { unfold supervise. simpl. intros [= <- <-]. split; [by eexists|done]. }
  rewrite supervise_snoc. intros ([p0 ops0] & Hs & H)%bind_Some.
  apply bind_Some in H as ([p1 ops1] & Hst & [= <- <-]).
  destruct (IH _ _ Hs) as [(ops' & ->) _]. split; [by eexists|].
  unfold supervise_step in Hst.
  destruct p0 as [b|b d|], e as [c r| |]; simplify_eq/=; rewrite ?app_comm_cons, ?last_snoc; try done.
  destruct c; simplify_eq/=; rewrite ?app_comm_cons, ?last_snoc; [done|].
  destruct (next_delay hb b r) as [[b' d']|]; simplify_eq/=; by rewrite app_comm_cons, last_snoc.
Qed.

(** ** The shared state table *)
Abbreviation TaskStates := (gmap Assignment (N * TaskState)).

(** Write a state unless a newer instance owns the entry. *)
Definition set_state (states : TaskStates) (key : Assignment) (instance_ : N) (state : TaskState) : TaskStates :=
  match states !! key with
  | Some (id, _) => if decide (instance_ < id)%N then states else <[key := (instance_, state)]> states
  | None => <[key := (instance_, state)]> states
  end.

(** Remove only one's own entry. *)
Definition clear_state (states : TaskStates) (key : Assignment) (instance_ : N) : TaskStates :=
  match states !! key with
  | Some (id, _) => if decide (id = instance_) then delete key states else states
  | None => states
  end.

(** A write by one supervisor instance.  The mutex makes each one atomic, so
    every execution of any number of supervisors is a sequence of these. *)
Record Write := { w_key : Assignment; w_instance : N; w_op : StateOp }.
Definition apply_write (states : TaskStates) (w : Write) : TaskStates :=
  match w_op w with
  | SetState s => set_state states (w_key w) (w_instance w) s
  | ClearState => clear_state states (w_key w) (w_instance w)
  end.
Definition replay (h : list Write) : TaskStates := fold_left apply_write h ∅.

(** The writes of one instance to one key. *)
Definition writes_of (h : list Write) (key : Assignment) (i : N) : list StateOp :=
  w_op <$> filter (λ w, w_key w = key ∧ w_instance w = i) h.

Lemma replay_snoc h w : replay (h ++ [w]) = apply_write (replay h) w.
Proof. unfold replay. by rewrite fold_left_app. Qed.

Lemma writes_of_snoc h w key i :
  writes_of (h ++ [w]) key i =
    writes_of h key i ++ (if decide (w_key w = key ∧ w_instance w = i) then [w_op w] else []).
Proof.
  unfold writes_of. rewrite filter_app, fmap_app, filter_cons, filter_nil. by case_decide.
Qed.

(** One write, seen at one key. *)
Lemma apply_write_lookup states w key :
  apply_write states w !! key =
    if decide (w_key w = key) then
      match w_op w, states !! key with
      | SetState s, Some (id, s') => if decide (w_instance w < id)%N then Some (id, s') else Some (w_instance w, s)
      | SetState s, None => Some (w_instance w, s)
      | ClearState, Some (id, s') => if decide (id = w_instance w) then None else Some (id, s')
      | ClearState, None => None
      end
    else states !! key.
Proof.
  unfold apply_write, set_state, clear_state. destruct (decide (w_key w = key)) as [<-|Hne].
  - destruct (w_op w), (states !! w_key w) as [[id s']|] eqn:E; repeat case_decide;
      rewrite ?lookup_insert_eq, ?lookup_delete_eq; done.
  - destruct (w_op w), (states !! w_key w) as [[id s']|]; repeat case_decide;
      rewrite ?lookup_insert_ne, ?lookup_delete_ne; done.
Qed.

(** An entry is the last write of the instance it is tagged with. *)
Lemma replay_entry h key i s :
  replay h !! key = Some (i, s) → last (writes_of h key i) = Some (SetState s).
Proof.
  revert i s. induction h as [|w h IH] using rev_ind; intros i s; [by unfold replay; simpl; rewrite lookup_empty|].
  rewrite replay_snoc, apply_write_lookup, writes_of_snoc.
  destruct (decide (w_key w = key)) as [Hk|Hk]; cycle 1.
  { intros Hl. rewrite decide_False by naive_solver. rewrite (right_id_L [] (++)). by apply IH. }
  assert (Hown : ∀ s', w_op w = SetState s' → last (writes_of h key (w_instance w) ++
    (if decide (w_key w = key ∧ w_instance w = w_instance w) then [w_op w] else [])) = Some (SetState s')).
  { intros s' Hs'. by rewrite Hs', decide_True, last_snoc. }
  assert (Hother : ∀ j s', w_instance w ≠ j → replay h !! key = Some (j, s') →
    last (writes_of h key j ++ (if decide (w_key w = key ∧ w_instance w = j) then [w_op w] else [])) =
    Some (SetState s')).
  { intros j s' Hj Hl. rewrite decide_False by naive_solver. rewrite (right_id_L [] (++)). by apply IH. }
  destruct (w_op w) as [s0|], (replay h !! key) as [[id s']|].
  - destruct (decide (w_instance w < id)%N); intros [= <- <-]; [apply Hother; [lia|done]|by apply Hown].
  - intros [= <- <-]. by apply Hown.
  - destruct (decide (id = w_instance w)); [done|]. intros [= <- <-]. by apply Hother.
  - done.
Qed.

(** C28: generations of supervisors: a key's entry is always the last write of
    the instance it is tagged with, so it never reports a task that has shut
    down; once a newer instance has written, no interleaving of writes and
    shutdowns of older instances changes or removes its entry; and when every
    supervisor of a key has stopped the entry is gone. *)
Theorem newest_state_survives h key :
  (∀ i s, replay h !! key = Some (i, s) → last (writes_of h key i) = Some (SetState s)) ∧
  (∀ h1 h2 j s, h = h1 ++ {| w_key := key; w_instance := j; w_op := SetState s |} :: h2 →
     (∀ w, w ∈ h1 → w_key w = key → (w_instance w ≤ j)%N) →
     (∀ w, w ∈ h2 → w_key w = key → (w_instance w < j)%N) →
     replay h !! key = Some (j, s)) ∧
  ((∀ i, last (writes_of h key i) = None ∨ last (writes_of h key i) = Some ClearState) →
   replay h !! key = None).
Proof.
  split_and!.
  - intros i s. apply replay_entry.
  - intros h1 h2 j s -> H1 H2. induction h2 as [|w h2 IH] using rev_ind.
    + rewrite replay_snoc, apply_write_lookup, decide_True by done. simpl.
      destruct (replay h1 !! key) as [[id s']|] eqn:E; [|done].
      apply replay_entry in E. rewrite decide_False; [done|].
      unfold writes_of in E. destruct (filter _ h1) as [|w l] eqn:Ef; [done|].
      assert (Hw : w ∈ filter (λ w, w_key w = key ∧ w_instance w = id) h1) by (rewrite Ef; set_solver).
      apply list_elem_of_filter in Hw as [[Hk <-] Hin]. specialize (H1 w Hin Hk). lia.
    + rewrite app_comm_cons, (assoc_L (++)), replay_snoc, apply_write_lookup.
      rewrite IH by (intros; apply H2; set_solver). case_decide as Hk; [|done].
      specialize (H2 w ltac:(set_solver) Hk). destruct (w_op w); case_decide; (done || lia).
  - intros Hstop. destruct (replay h !! key) as [[i s]|] eqn:E; [|done].
    apply replay_entry in E. destruct (Hstop i) as [Hn|Hn]; congruence.
Qed.

(** ** Heartbeat summaries *)

Definition summary_entry (m : gmap Service ServiceSummary) (s : Service) : ServiceSummary :=
  default (ServiceSummary_empty s) (m !! s).

(** One task state counted. *)
Definition count_state (m : gmap Service ServiceSummary) (e : Assignment * (N * TaskState))
    : gmap Service ServiceSummary :=
  let service := e.1.1.2 in
  let old := summary_entry m service in
  <[service := match e.2.2 with
               | Running => {| ss_service := ss_service old; ss_running := ss_running old + 1; ss_backoff := ss_backoff old |}
               | Backoff => {| ss_service := ss_service old; ss_running := ss_running old; ss_backoff := ss_backoff old + 1 |}
               end]> m.

(** The order of [sort_by_key(|s| s.service.letter())]. *)
Definition summary_le (a b : ServiceSummary) : Prop := char_le (letter (ss_service a)) (letter (ss_service b)).
#[export] Instance summary_le_dec : RelDecision summary_le.
Proof. intros a b. unfold summary_le. apply _. Defined.

(** The [services] field of the heartbeat body. *)
Definition summaries (services : list Service) (states : TaskStates) : list ServiceSummary :=
  let empty := list_to_map ((λ s, (s, ServiceSummary_empty s)) <$> services) in
  sort_by summary_le ((map_to_list (fold_left count_state (map_to_list states) empty)).*2).

Definition heartbeat_body (cargo_pkg_version node_id slatedb_version : string) (services : list Service)
    (states : TaskStates) : Heartbeat :=
  Heartbeat_new cargo_pkg_version node_id slatedb_version (summaries services states).

(** How many entries of a service are in a state. *)
Definition count_in (l : list (Assignment * (N * TaskState))) (s : Service) (st : TaskState) : N :=
  N.of_nat (length (filter (λ e, e.1.1.2 = s ∧ e.2.2 = st) l)).

Lemma count_in_snoc l e s st :
  count_in (l ++ [e]) s st = (count_in l s st + (if decide (e.1.1.2 = s ∧ e.2.2 = st) then 1 else 0))%N.
Proof.
  unfold count_in. rewrite filter_app, List.length_app, filter_cons, filter_nil. case_decide; simpl; lia.
Qed.

#[export] Instance summary_le_trans : Transitive summary_le.
Proof. intros a b c. unfold summary_le. apply transitivity. Qed.
#[export] Instance summary_le_total : Total summary_le.
Proof. intros a b. unfold summary_le. apply total, _. Qed.

(** What the loop has counted after the entries [l]. *)
Definition counted (services : list Service) (l : list (Assignment * (N * TaskState)))
    (m : gmap Service ServiceSummary) : Prop :=
  ∀ s, m !! s =
    if decide (s ∈ services ∨ s ∈ (λ e, e.1.1.2) <$> l)
    then Some {| ss_service := s; ss_running := count_in l s Running; ss_backoff := count_in l s Backoff |}
    else None.

Lemma counted_init services :
  counted services [] (list_to_map ((λ s, (s, ServiceSummary_empty s)) <$> services)).
Proof.
  intros s. induction services as [|s' services IH]; csimpl.
  - apply lookup_empty.
  - destruct (decide (s' = s)) as [->|Hne].
    + rewrite lookup_insert_eq, decide_True by set_solver. done.
    + rewrite lookup_insert_ne, IH by done. apply decide_ext. set_solver.
Qed.

Lemma count_in_none l s st : s ∉ (λ e, e.1.1.2) <$> l → count_in l s st = 0%N.
Proof.
  induction l as [|e l IH] using rev_ind; [done|]. rewrite fmap_app, not_elem_of_app. intros [Hl He].
  rewrite count_in_snoc, IH, decide_False; [done|set_solver|done].
Qed.

Lemma counted_step services l m e :
  counted services l m → counted services (l ++ [e]) (count_state m e).
Proof.
  intros Hc s. unfold count_state. set (svc := e.1.1.2).
  assert (Hold : summary_entry m svc = {| ss_service := svc; ss_running := count_in l svc Running;
                                          ss_backoff := count_in l svc Backoff |}).
  { unfold summary_entry. rewrite Hc. case_decide as Hd; [done|]. simpl.
    rewrite !count_in_none; [done|tauto..]. }
  rewrite !Hold, !count_in_snoc. simpl.
  assert (Hin : svc ∈ (λ e0 : Assignment * (N * TaskState), e0.1.1.2) <$> l ++ [e]).
  { rewrite fmap_app. set_solver. }
  destruct (decide (svc = s)) as [<-|Hne].
  - rewrite lookup_insert_eq, (decide_True (P:=svc ∈ services ∨ _)) by (by right).
    fold svc. destruct (e.2.2); repeat case_decide; rewrite ?N.add_0_r; naive_solver.
  - rewrite lookup_insert_ne, Hc by done. rewrite !(decide_False (P:=_ = s ∧ _)) by naive_solver.
    rewrite !N.add_0_r. apply decide_ext. rewrite fmap_app. set_solver.
Qed.

(** The heartbeat's summary counts are exact: the body lists each service
    the node offers, or still has a task of, once, in letter order, and its
    [running] and [backoff] are the numbers of entries of that service in
    those states. *)
Theorem summaries_exact services states :
  StronglySorted summary_le (summaries services states) ∧
  NoDup (ss_service <$> summaries services states) ∧
  (∀ x, x ∈ summaries services states →
     ss_running x = count_in (map_to_list states) (ss_service x) Running ∧
     ss_backoff x = count_in (map_to_list states) (ss_service x) Backoff) ∧
  (∀ s, s ∈ ss_service <$> summaries services states ↔
     s ∈ services ∨ ∃ key v, states !! key = Some v ∧ key.1.2 = s).
Proof.
  unfold summaries. set (m := fold_left count_state _ _).
  assert (Hm : counted services (map_to_list states) m).
  { unfold m. generalize (map_to_list states). intros l.
    induction l as [|e l IH] using rev_ind; [apply counted_init|].
    rewrite fold_left_app. by apply counted_step. }
  assert (Hval : ∀ s x, m !! s = Some x → ss_service x = s).
  { intros s x. rewrite Hm. case_decide; [|done]. by intros [= <-]. }
  split_and!.
  - apply sort_by_sorted; apply _.
  - rewrite sort_by_Permutation. assert (Hf : (ss_service <$> (map_to_list m).*2) = (map_to_list m).*1).
    { rewrite <-list_fmap_compose. apply Forall_fmap_ext_1, Forall_forall.
      intros [s x] Hx%elem_of_map_to_list. simpl. by apply Hval. }
    rewrite Hf. apply NoDup_fst_map_to_list.
  - intros x Hx. rewrite elem_of_sort_by in Hx.
    apply list_elem_of_fmap in Hx as ([s y] & -> & Hx%elem_of_map_to_list). simpl.
    pose proof (Hval _ _ Hx) as Hs. rewrite Hm in Hx. case_decide; [|done]. by injection Hx as <-.
  - intros s. rewrite list_elem_of_fmap. setoid_rewrite elem_of_sort_by. setoid_rewrite list_elem_of_fmap.
    assert (Hdom : is_Some (m !! s) ↔ s ∈ services ∨ ∃ key v, states !! key = Some v ∧ key.1.2 = s).
    { rewrite Hm. assert (Hk : s ∈ (λ e : Assignment * (N * TaskState), e.1.1.2) <$> map_to_list states ↔
        ∃ key v, states !! key = Some v ∧ key.1.2 = s).
      { rewrite list_elem_of_fmap. split.
        - intros ([k v] & -> & Hin%elem_of_map_to_list). eauto.
        - intros (k & v & Hl & <-). exists (k, v). split; [done|]. by apply elem_of_map_to_list. }
      rewrite <-Hk. case_decide; split; try done; eauto. }
    rewrite <-Hdom. split.
    + intros (x & -> & [s' y] & -> & Hx%elem_of_map_to_list). simpl. rewrite (Hval _ _ Hx). eauto.
    + intros [x Hx]. exists x. split; [by rewrite (Hval _ _ Hx)|]. exists (s, x). split; [done|].
      by apply elem_of_map_to_list.
Qed.
