(* ===== verification/Slate.v ===== *)
(** * SlateDB as the mirror sees it

    SlateDB is third-party code.  [SlateLib] lists the accessors the program
    uses on a decoded manifest as parameters; checkpoints and SST ids are
    public data.  The names of the objects under a database root are the
    program's own ([mirror/layout.rs]). *)

From Stdlib Require Import Ascii.
From S2P Require Import Prelude Order Text.

(** [slatedb::manifest::SsTableId]. *)
Inductive SsTableId :=
  | Compacted (ulid : string)
  | Wal (id : N).

Abbreviation Uuid := N (only parsing).

(** [slatedb::Checkpoint]; instants are nanoseconds since the epoch. *)
Record Checkpoint := {
  cp_id : Uuid;
  cp_manifest_id : N;
  cp_expire_time : option Z;
  cp_create_time : Z;
  cp_name : option string;
}.

(** [slatedb::VersionedManifest] through its public accessors, and the bytes
    of the manifest object it is stored as. *)
Class SlateLib := {
  VersionedManifest : Type;
  m_id : VersionedManifest → N;
  m_l0 : VersionedManifest → list SsTableId;
  m_compacted : VersionedManifest → list (list SsTableId);
  m_segments : VersionedManifest → list (list SsTableId * list (list SsTableId));
  m_replay_after_wal_id : VersionedManifest → N;
  m_next_wal_sst_id : VersionedManifest → N;
  m_checkpoints : VersionedManifest → list Checkpoint;
  m_external_dbs : VersionedManifest → list string;
  m_wal_object_store_uri : VersionedManifest → option string;
  m_last_l0_seq : VersionedManifest → N;
  (** [sequence_tracker().find_ts(seq, RoundDown)] *)
  m_find_ts : VersionedManifest → N → option Z;
  manifest_bytes : VersionedManifest → string;
}.

(** Distinct manifests have distinct encodings. *)
Class SlateLaws `{SlateLib} : Prop := { manifest_bytes_inj :: Inj (=) (=) manifest_bytes }.

(** The root tree, then every segment's. *)
Definition manifest_ssts `{SlateLib} (m : VersionedManifest) : list SsTableId :=
  concat ((λ '(l0, runs), l0 ++ concat runs) <$> ((m_l0 m, m_compacted m) :: m_segments m)).

(** ** Object names under a database root *)
Definition MANIFEST_DIR : string := "manifest".
Definition WAL_DIR : string := "wal".
Definition COMPACTED_DIR : string := "compacted".

Definition manifest_name (id : N) : string := zero_pad 20 (decimal id) +:+ ".manifest".
Definition wal_name (id : N) : string := zero_pad 20 (decimal id) +:+ ".sst".
Definition manifest_rel (id : N) : string := MANIFEST_DIR +:+ "/" +:+ manifest_name id.
Definition wal_rel (id : N) : string := WAL_DIR +:+ "/" +:+ wal_name id.
Definition compacted_rel (ulid : string) : string := COMPACTED_DIR +:+ "/" +:+ ulid +:+ ".sst".

Definition parse_manifest_name (name : string) : option N :=
  s ← strip_suffix ".manifest" name; parse_u64 s.
Definition parse_wal_name (name : string) : option N :=
  s ← strip_suffix ".sst" name; parse_u64 s.
Definition parse_compacted_name (name : string) : option string :=
  ulid ← strip_suffix ".sst" name;
  if bool_decide (String.length ulid = 26) && all_bytes is_ascii_alphanumeric ulid
  then Some ulid else None.

Lemma parse_manifest_name_name id :
  (id ≤ U64_MAX)%N → parse_manifest_name (manifest_name id) = Some id.
Proof.
  intros Hid. unfold parse_manifest_name. apply bind_Some. exists (zero_pad 20 (decimal id)).
  split; [by apply strip_suffix_spec|by apply parse_u64_zero_pad].
Qed.

Lemma parse_wal_name_name id : (id ≤ U64_MAX)%N → parse_wal_name (wal_name id) = Some id.
Proof.
  intros Hid. unfold parse_wal_name. apply bind_Some. exists (zero_pad 20 (decimal id)).
  split; [by apply strip_suffix_spec|by apply parse_u64_zero_pad].
Qed.

Lemma parse_wal_name_bound name id : parse_wal_name name = Some id → (id ≤ U64_MAX)%N.
Proof. intros (s & _ & Hp)%bind_Some. by eapply parse_u64_bound. Qed.

Lemma manifest_rel_inj i j :
  (i ≤ U64_MAX)%N → (j ≤ U64_MAX)%N → manifest_rel i = manifest_rel j → i = j.
Proof.
  intros Hi Hj E. apply (inj Some). rewrite <-!parse_manifest_name_name by done. f_equal.
  unfold manifest_rel in E. simpl in E. by injection E.
Qed.

Lemma wal_rel_inj i j : (i ≤ U64_MAX)%N → (j ≤ U64_MAX)%N → wal_rel i = wal_rel j → i = j.
Proof.
  intros Hi Hj E. apply (inj Some). rewrite <-!parse_wal_name_name by done. f_equal.
  unfold wal_rel in E. simpl in E. by injection E.
Qed.

Lemma compacted_rel_inj u v : compacted_rel u = compacted_rel v → u = v.
Proof. unfold compacted_rel. simpl. intros E. injection E as E. by apply (inj (λ s, s +:+ ".sst")). Qed.

(** Golden names of the layout, from SlateDB's paths. *)
Example layout_names :
  manifest_rel 42 = "manifest/00000000000000000042.manifest" ∧
  wal_rel 7 = "wal/00000000000000000007.sst" ∧
  compacted_rel "01J79C21YKR31J2BS1EFXJZ7MR" = "compacted/01J79C21YKR31J2BS1EFXJZ7MR.sst" ∧
  parse_manifest_name "00000000000000000042.manifest" = Some 42%N ∧
  parse_manifest_name "42.manifest.tmp" = None ∧ parse_compacted_name "short.sst" = None.
Proof. by vm_compute. Qed.

(** The frozen layout is unambiguous: every 64-bit manifest and WAL id is
    read back from its file name, ULIDs from theirs; and no two objects of a
    database share a name, across the three directories. *)
Theorem layout_names_unambiguous i j u v :
  (i ≤ U64_MAX)%N → (j ≤ U64_MAX)%N →
  parse_manifest_name (manifest_name i) = Some i ∧
  parse_wal_name (wal_name i) = Some i ∧
  (String.length u = 26 → all_bytes is_ascii_alphanumeric u = true →
     parse_compacted_name (u +:+ ".sst") = Some u) ∧
  (manifest_rel i = manifest_rel j → i = j) ∧
  (wal_rel i = wal_rel j → i = j) ∧
  (compacted_rel u = compacted_rel v → u = v) ∧
  manifest_rel i ≠ wal_rel j ∧ manifest_rel i ≠ compacted_rel u ∧ wal_rel i ≠ compacted_rel u.
Proof.
  intros Hi Hj. split_and!; try done.
  - by apply parse_manifest_name_name.
  - by apply parse_wal_name_name.
  - intros Hl Ha. unfold parse_compacted_name. apply bind_Some. exists u.
    split; [by apply strip_suffix_spec|]. by rewrite Ha, bool_decide_eq_true_2.
  - by apply manifest_rel_inj.
  - by apply wal_rel_inj.
  - apply compacted_rel_inj.
Qed.

Lemma layout_names_unambiguous_witness :
  manifest_rel 1 ≠ wal_rel 2 ∧ parse_manifest_name (manifest_name 1) = Some 1%N.
Proof.
  destruct (layout_names_unambiguous 1 2 "a" "b") as (? & _ & _ & _ & _ & _ & ? & _); [done|done|].
  split; assumption.
Defined.
