(* ===== verification/Effects.v ===== *)
(** * Effectful code of the mirror: calls, programs, worlds

    The mirror's functions are sequences of calls to two object stores, to
    SlateDB's admin API and to the clocks.  A [prog] is such a computation as
    a tree of calls; between any two of them the rest of the world may move.
    [handle] says what each call can answer and do, over-approximating the
    third-party code: any call may fail, a failed write may have landed, and
    the source may lose any object at any time.  [wp] is the rely-guarantee
    weakest precondition, sound for any number of programs running
    concurrently and stopped at any point. *)

From S2P Require Import Prelude Order Text Store Slate.

(** ** Calls and programs *)

(** The two databases a mirror task holds handles of. *)
Inductive Site := Source | Dest.

(** What a GET returned before its body was streamed. *)
Record GetResult := { gr_size : N; gr_bytes : Result StoreError string }.

(** An object of a directory listing: its name in it, and its mtime. *)
Record Listed := { li_name : string; li_modified : Z }.

(** An error of SlateDB, by its message. *)
Definition SlateError : Type := string.

(** [CheckpointOptions] with the fields the program sets. *)
Record CheckpointOptions := { co_lifetime : Duration; co_name : string }.

Inductive call `{SlateLib} : Type → Type :=
  | ReadManifest (db : Site) (id : option N) : call (Result SlateError (option VersionedManifest))
  | CreateCheckpoint (db : Site) (o : CheckpointOptions) : call (Result SlateError (Uuid * N))
  | RefreshCheckpoint (db : Site) (id : Uuid) (lifetime : Duration) : call (Result SlateError unit)
  | DeleteCheckpoint (db : Site) (id : Uuid) : call (Result SlateError unit)
  | ListCheckpoints (db : Site) (name : string) : call (Result SlateError (list Checkpoint))
  | Get (db : Site) (rel : string) : call (Result StoreError GetResult)
  | Head (db : Site) (rel : string) : call (Result StoreError unit)
  | ListDir (db : Site) (dir : string) : call (Result StoreError (list Listed))
  | ListRoot (db : Site) : call (Result StoreError bool)
  | Put (db : Site) (rel bytes : string) : call (Result StoreError unit)
  | PutCreate (db : Site) (rel bytes : string) : call (Result StoreError unit)
  | StartMultipart (db : Site) (rel : string) : call (Result StoreError unit)
  | FinishMultipart (db : Site) (rel bytes : string) : call (Result StoreError unit)
  | Delete (db : Site) (rel : string) : call (Result StoreError unit)
  | Rclone (names : list string) : call (Result string unit)
  | UtcNow : call Z
  | InstantNow : call Z
  | TimerFires (due : Z) : call nat
  (* Which of the [n] futures polled together makes progress next. *)
  | Schedule (n : nat) : call nat
  (* Of the task itself: its cancellation token, a permit of the node-wide
     job semaphore and a sleep, both raced against cancellation. *)
  | IsCancelled : call bool
  | AcquirePermit : call bool
  | Sleep (d : Duration) : call bool.

Inductive prog `{SlateLib} (A : Type) : Type :=
  | Ret (a : A)
  | Call {R : Type} (c : call R) (k : R → prog A).
Arguments Ret {_ A} a.
Arguments Call {_ A R} c k.

Section prog.
Context `{SlateLib}.

Fixpoint bind {A B} (p : prog A) (f : A → prog B) : prog B :=
  match p with
  | Ret a => f a
  | Call c k => Call c (λ r, bind (k r) f)
  end.
Definition ask {R} (c : call R) : prog R := Call c Ret.

(** The [?] operator: continue with the value or return the error,
    converted. *)
Definition try {E F A B} (conv : E → F) (p : prog (Result E A)) (f : A → prog (Result F B))
    : prog (Result F B) :=
  bind p (λ r, match r with Ok a => f a | Err e => Ret (Err (conv e)) end).
End prog.

Declare Scope prog_scope.
Delimit Scope prog_scope with prog.
Notation "x <- p ;; q" := (bind p (λ x, q)) (at level 100, p at next level, right associativity) : prog_scope.
Notation "' pat <- p ;; q" := (bind p (λ pat, q))
  (at level 100, pat pattern, p at next level, right associativity) : prog_scope.
Notation "x <-?{ conv } p ;; q" := (try conv p (λ x, q))
  (at level 100, p at next level, right associativity, format "x  <-?{ conv }  p  ;;  '/' q") : prog_scope.
Notation "' pat <-?{ conv } p ;; q" := (try conv p (λ pat, q))
  (at level 100, pat pattern, p at next level, right associativity) : prog_scope.
Notation "x <-? p ;; q" := (try (λ e, e) p (λ x, q))
  (at level 100, p at next level, right associativity) : prog_scope.
Notation "' pat <-? p ;; q" := (try (λ e, e) p (λ pat, q))
  (at level 100, pat pattern, p at next level, right associativity) : prog_scope.
Open Scope prog_scope.

(** ** Worlds *)

(** Every manifest the source has committed (ids are immutable; source GC may
    have deleted the objects), the immutable body of every data object it has
    written, the objects at the target by relative name, and the time. *)
Record world `{SlateLib} := {
  w_hist : gmap N VersionedManifest;
  w_content : gmap string string;
  w_dest : gmap string string;
  w_time : Z;
}.

Section worlds.
Context `{SlateLib}.
Implicit Types (w : world) (m : VersionedManifest).

Definition set_dest w (d : gmap string string) : world :=
  {| w_hist := w_hist w; w_content := w_content w; w_dest := d; w_time := w_time w |}.

(** The newest committed manifest. *)
Definition latest w m : Prop :=
  w_hist w !! m_id m = Some m ∧ ∀ id, is_Some (w_hist w !! id) → (id ≤ m_id m)%N.

(** The body a source object with this name has, if it still exists. *)
Definition source_has w (rel bytes : string) : Prop :=
  w_content w !! rel = Some bytes ∨
  ∃ id m, rel = manifest_rel id ∧ w_hist w !! id = Some m ∧ bytes = manifest_bytes m.

(** A checkpoint that does not expire before [t]. *)
Definition outlives (cp : Checkpoint) (t : Z) : Prop :=
  match cp_expire_time cp with Some e => (t < e)%Z | None => True end.
#[export] Instance outlives_dec cp t : Decision (outlives cp t).
Proof. unfold outlives. destruct (cp_expire_time cp); apply _. Defined.

(** What SlateDB guarantees of a database's history: manifests are stored
    under their 64-bit ids; a checkpoint pins a manifest no newer than the one
    carrying the entry; an id, once gone from the newest manifest, never comes
    back, always pins the same manifest, and is only ever extended.  WAL ids
    are 64 bits wide, and no data object lies under [manifest/]. *)
Record wf_source w : Prop := {
  wf_ids : ∀ id m, w_hist w !! id = Some m → m_id m = id ∧ (id ≤ U64_MAX)%N;
  wf_pins : ∀ id m cp, w_hist w !! id = Some m → cp ∈ m_checkpoints m → (cp_manifest_id cp ≤ id)%N;
  wf_persist : ∀ i j k mi mj mk cpi cpk,
    w_hist w !! i = Some mi → w_hist w !! j = Some mj → w_hist w !! k = Some mk →
    (i ≤ j ≤ k)%N → cpi ∈ m_checkpoints mi → cpk ∈ m_checkpoints mk → cp_id cpi = cp_id cpk →
    ∃ cpj, cpj ∈ m_checkpoints mj ∧ cp_id cpj = cp_id cpi;
  wf_stable : ∀ i j mi mj cpi cpj,
    w_hist w !! i = Some mi → w_hist w !! j = Some mj → (i ≤ j)%N →
    cpi ∈ m_checkpoints mi → cpj ∈ m_checkpoints mj → cp_id cpi = cp_id cpj →
    cp_manifest_id cpi = cp_manifest_id cpj ∧ ∀ t, outlives cpi t → outlives cpj t;
  wf_names : ∀ name, w_content w !! (MANIFEST_DIR +:+ "/" +:+ name) = None;
  wf_wals : ∀ id m wal, w_hist w !! id = Some m → Wal wal ∈ manifest_ssts m → (wal ≤ U64_MAX)%N;
  wf_next : ∀ id m, w_hist w !! id = Some m → (m_next_wal_sst_id m ≤ U64_MAX)%N;
}.

(** The source moves on: its history and the clock only grow. *)
Record source_step w w' : Prop := {
  ss_hist : w_hist w ⊆ w_hist w';
  ss_content : w_content w ⊆ w_content w';
  ss_time : (w_time w ≤ w_time w')%Z;
  ss_wf : wf_source w';
  ss_dest : w_dest w' = w_dest w;
}.

(** ** What each call may do *)

Definition is_manifest_name (rel : string) : Prop := ∃ id, rel = manifest_rel id.

(** The newest manifest object at the target. *)
Definition dest_latest w (id : N) : Prop :=
  (id ≤ U64_MAX)%N ∧ is_Some (w_dest w !! manifest_rel id) ∧
  ∀ id', (id' ≤ U64_MAX)%N → is_Some (w_dest w !! manifest_rel id') → (id' ≤ id)%N.

(** Reading an object at a database: whether its body can be [bytes]. *)
Definition can_read (db : Site) w (rel bytes : string) : Prop :=
  match db with
  | Source => source_has w rel bytes
  | Dest => w_dest w !! rel = Some bytes
  end.

(** A write that failed may still have landed. *)
Definition wrote w (rel bytes : string) w' (r : Result StoreError unit) : Prop :=
  w' = set_dest w (<[rel := bytes]> (w_dest w)) ∨ (w' = w ∧ ∃ e, r = Err e).

Definition handle {R} (c : call R) : world → R → world → Prop :=
  match c in call R return world → R → world → Prop with
  | ReadManifest Source None => λ w r w',
      w' = w ∧ match r with
               | Ok (Some m) => latest w m
               | Ok None => w_hist w = ∅
               | Err _ => True end
  | ReadManifest Source (Some id) => λ w r w',
      w' = w ∧ match r with Ok (Some m) => w_hist w !! id = Some m | _ => True end
  | ReadManifest Dest None => λ w r w',
      w' = w ∧ match r with
               | Ok (Some m) => dest_latest w (m_id m) ∧ w_dest w !! manifest_rel (m_id m) = Some (manifest_bytes m)
               | Ok None => ∀ id, (id ≤ U64_MAX)%N → w_dest w !! manifest_rel id = None
               | Err _ => True end
  | ReadManifest Dest (Some id) => λ w r w',
      w' = w ∧ match r with
               | Ok (Some m) => m_id m = id ∧ w_dest w !! manifest_rel id = Some (manifest_bytes m)
               | Ok None => w_dest w !! manifest_rel id = None
               | Err _ => True end
  | CreateCheckpoint Source _ => λ w r w',
      source_step w w' ∧
      match r with Ok (_, id) => ∃ m, latest w' m ∧ m_id m = id | Err _ => True end
  | RefreshCheckpoint Source _ _ => λ w _ w', source_step w w'
  | DeleteCheckpoint Source _ => λ w _ w', source_step w w'
  | ListCheckpoints _ _ => λ w _ w', w' = w
  | Get db rel => λ w r w',
      w' = w ∧ match r with
               | Ok g => ∀ b, gr_bytes g = Ok b → can_read db w rel b
               | Err (NotFound _) => db = Dest → w_dest w !! rel = None
               | Err _ => True end
  | Head db rel => λ w r w',
      w' = w ∧ match db, r with
               | Dest, Ok _ => is_Some (w_dest w !! rel)
               | Dest, Err (NotFound _) => w_dest w !! rel = None
               | _, _ => True end
  | ListDir db dir => λ w r w',
      w' = w ∧ match db, r with
               | Dest, Ok l => ∀ name, is_Some (w_dest w !! (dir +:+ "/" +:+ name)) ↔ name ∈ li_name <$> l
               | Dest, Err (NotFound _) => ∀ name, w_dest w !! (dir +:+ "/" +:+ name) = None
               | _, _ => True end
  | ListRoot db => λ w r w',
      w' = w ∧ match db, r with Dest, Ok false => w_dest w = ∅ | _, _ => True end
  | Put Dest rel bytes => λ w r w', wrote w rel bytes w' r
  | FinishMultipart Dest rel bytes => λ w r w', wrote w rel bytes w' r
  | PutCreate Dest rel bytes => λ w r w',
      match r with
      | Ok _ => w_dest w !! rel = None ∧ w' = set_dest w (<[rel := bytes]> (w_dest w))
      | Err AlreadyExists => w' = w ∧ is_Some (w_dest w !! rel)
      | Err _ => w' = w ∨ (w_dest w !! rel = None ∧ w' = set_dest w (<[rel := bytes]> (w_dest w)))
      end
  | Delete Dest rel => λ w r w',
      match r with
      | Ok _ => w' = set_dest w (delete rel (w_dest w))
      | Err (NotFound _) => w' = w ∧ w_dest w !! rel = None
      | Err _ => w' = w ∨ w' = set_dest w (delete rel (w_dest w))
      end
  | StartMultipart _ _ => λ w _ w', w' = w
  | Rclone names => λ w r w',
      w_hist w' = w_hist w ∧ w_content w' = w_content w ∧ w_time w' = w_time w ∧
      w_dest w ⊆ w_dest w' ∧
      (∀ rel b, w_dest w' !! rel = Some b → w_dest w !! rel = Some b ∨ (rel ∈ names ∧ source_has w rel b)) ∧
      match r with Ok _ => ∀ rel, rel ∈ names → is_Some (w_dest w' !! rel) | Err _ => True end
  | UtcNow => λ w r w', w' = w ∧ r = w_time w
  | InstantNow => λ w r w', w' = w
  | TimerFires _ => λ w r w', w' = w
  | Schedule _ => λ w r w', w' = w
  | IsCancelled => λ w r w', w' = w
  | AcquirePermit => λ w r w', w' = w
  | Sleep _ => λ w r w', w' = w
  (* Writes to the source and checkpoints at the target: anything may happen,
     so whatever is proved shows that the program makes no such call. *)
  | _ => λ w _ w', True
  end.

End worlds.
