(* ===== verification/Concurrent.v ===== *)
(** * Futures polled together

    [StreamExt::buffer_unordered] and [TryStreamExt::try_for_each_concurrent]:
    at most [limit] futures of a list run at once, the next one starts when
    one finishes, and the first error ends them all.  Which of the running
    ones takes the next step is an answer of the environment ([Schedule]).

    A pool is the list of futures that have not finished; its first [limit]
    are the running ones.  Every step takes a call off one future or removes
    it, which is well founded without a bound on the calls a future makes. *)

From S2P Require Import Prelude Effects Slate.

(** The [i]-th element of [x :: after], or the last, with what is around it. *)
Fixpoint focus {T} (i : nat) (before : list T) (x : T) (after : list T) : list T * T * list T :=
  match i, after with
  | S i, y :: after => focus i (before ++ [x]) y after
  | _, _ => (before, x, after)
  end.

Lemma focus_spec {T} i (before : list T) x after b y a :
  focus i before x after = (b, y, a) → before ++ x :: after = b ++ y :: a.
Proof.
  revert i before x. induction after as [|z after IH]; intros [|i] before x; simpl; try by intros [= -> -> ->].
  intros E. rewrite <-(IH _ _ _ E), <-(assoc_L (++)). done.
Qed.

(** The running ones are the first of the list. *)
Lemma focus_limit {T} i (before : list T) x after b y a :
  focus i before x after = (b, y, a) → length b ≤ length before + i.
Proof.
  revert i before x. induction after as [|z after IH]; intros [|i] before x; simpl; try by (intros [= <- <- <-]; lia).
  intros E%IH. rewrite length_app in E. simpl in E. lia.
Qed.

Lemma fold_snoc {T} (l acc : list T) : fold_left (λ l x, l ++ [x]) l acc = acc ++ l.
Proof.
  revert acc. induction l as [|x l IH]; intros acc; simpl; [by rewrite app_nil_r|].
  by rewrite IH, <-(assoc_L (++)).
Qed.

Section pool.
Context `{SlateLib} {E A : Type}.
Abbreviation task := (prog (Result E A)).

(** [q] is what is left of [p] after its next call. *)
Definition next (p q : task) : Prop :=
  match p with Ret _ => False | Call c k => ∃ r, q = k r end.
Definition less (l' l : list task) : Prop :=
  ∃ before p after, l = before ++ p :: after ∧
    (l' = before ++ after ∨ ∃ q, next p q ∧ l' = before ++ q :: after).

Lemma next_wf (p : task) : Acc (λ q p, next p q) p.
Proof. induction p as [a|R c k IH]; constructor; [done|]. by intros q [r ->]. Qed.

Lemma less_cons (p : task) l l' :
  less l' (p :: l) → l' = l ∨ (∃ q, next p q ∧ l' = q :: l) ∨ ∃ l1, less l1 l ∧ l' = p :: l1.
Proof.
  intros ([|p' before] & q & after & [= -> ->] & Hl).
  - destruct Hl as [->|(q' & Hq & ->)]; [by left|right; left; eauto].
  - right; right. destruct Hl as [->|(q' & Hq & ->)]; eexists; (split; [|done]);
      exists before, q, after; eauto.
Qed.

Lemma less_wf : well_founded less.
Proof.
  intros l. induction l as [|p l IHl].
  { constructor. intros l' (before & p & after & Hl & _). by destruct before. }
  revert l IHl. induction (next_wf p) as [p _ IHp]. intros l Hl.
  induction Hl as [l Hacc IHl]. constructor. intros l' [->|[(q & Hq & ->)|(l1 & Hl1 & ->)]]%less_cons.
  - by constructor.
  - apply IHp; [done|]. by constructor.
  - by apply IHl.
Qed.

Context {B : Type} (combine : B → A → B) (limit : nat).

(** One turn of the pool: the chosen running future finishes, fails or makes
    its next call. *)
Inductive Turn :=
  | Idle
  | Finishes (a : A) (rest : list task)
  | Fails (e : E)
  | Asks {R : Type} (c : call R) (rest : R → list task).
Definition turn (i : nat) (l : list task) : Turn :=
  match l with
  | [] => Idle
  | p :: ps =>
      let '(before, q, after) := focus (Nat.min i (pred limit)) [] p ps in
      match q with
      | Ret (Ok a) => Finishes a (before ++ after)
      | Ret (Err e) => Fails e
      | Call c k => Asks c (λ r, before ++ k r :: after)
      end
  end.

Definition shrinks (l : list task) (t : Turn) : Prop :=
  match t with
  | Finishes _ rest => less rest l
  | Asks _ rest => ∀ r, less (rest r) l
  | _ => True
  end.
Lemma turn_shrinks i l : shrinks l (turn i l).
Proof.
  destruct l as [|p ps]; [done|]. simpl.
  destruct (focus _ [] p ps) as [[before q] after] eqn:Ef. apply focus_spec in Ef. simpl in Ef. rewrite Ef.
  destruct q as [[a|e]|R c k]; simpl; [|done|intros r]; eexists before, _, after; eauto.
  split; [done|]. right. exists (k r). by split; [exists r|].
Qed.

Fixpoint run_all (l : list task) (acc : Acc less l) (x : B) {struct acc} : prog (Result E B) :=
  match l with
  | [] => Ret (Ok x)
  | _ =>
      Call (Schedule (Nat.min limit (length l))) (λ i,
        match turn i l as t return shrinks l t → prog (Result E B) with
        | Idle => λ _, Ret (Ok x)
        | Finishes a rest => λ Hless, run_all rest (Acc_inv acc Hless) (combine x a)
        | Fails e => λ _, Ret (Err e)
        | Asks c rest => λ Hless, Call c (λ r, run_all (rest r) (Acc_inv acc (Hless r)) x)
        end (turn_shrinks i l))
  end.

(** The guard lets it evaluate on small pools; no property depends on it. *)
Definition concurrently (tasks : list task) (x : B) : prog (Result E B) :=
  run_all tasks (Acc_intro_generator 6 less_wf tasks) x.

(** Reasoning about a pool: whatever holds of the empty one and is kept by
    each step of a running future holds. *)
Section induction.
Context (P : list task → B → prog (Result E B) → Prop).
Definition pool_step (l : list task) (x : B) (body : prog (Result E B)) : Prop :=
  ∃ before q after, l = before ++ q :: after ∧ length before < Nat.max 1 limit ∧
    match q with
    | Ret (Ok a) => P (before ++ after) (combine x a) body
    | Ret (Err e) => body = Ret (Err e)
    | Call c k => ∃ k', body = Call c k' ∧ ∀ r, P (before ++ k r :: after) x (k' r)
    end.
Context (Hdone : ∀ x, P [] x (Ret (Ok x))).
Context (Hstep : ∀ l x n body, (∀ i, pool_step l x (body i)) → P l x (Call (Schedule n) body)).

Lemma run_all_ind l acc x : P l x (run_all l acc x).
Proof.
  revert l acc x. fix IH 2. intros l [acc] x. destruct l as [|p ps]; [apply Hdone|].
  cbn [run_all]. apply Hstep. intros i. generalize (turn_shrinks i (p :: ps)). cbn [turn].
  destruct (focus (Nat.min i (pred limit)) [] p ps) as [[before q] after] eqn:Ef.
  pose proof (focus_spec _ _ _ _ _ _ _ Ef) as Hl. pose proof (focus_limit _ _ _ _ _ _ _ Ef) as Hn.
  intros Hless. exists before, q, after. split; [exact Hl|]. split; [simpl in Hn; lia|].
  destruct q as [[a|e]|R c k]; [apply IH|done|]. eexists. split; [done|]. intros r. apply IH.
Qed.

Lemma concurrently_ind l x : P l x (concurrently l x).
Proof. apply run_all_ind. Qed.
End induction.
End pool.
