(* ===== verification/Layout.v ===== *)
(** * Manifests and closures (src/mirror/layout.rs)

    What a manifest references, the closure of a head manifest, and the
    listing and probing helpers the pass and the pruner share. *)

From Stdlib Require Import Ascii.
From S2P Require Import Prelude Order Text Store Slate Effects Concurrent.

(** [MirrorError]; [UE] is the URL error. *)
Inductive MirrorError :=
  | MUrl (message : string)
  | MStore (e : StoreError)
  | MSlateDb (e : SlateError)
  | NotADatabase (url : string)
  | ExcludedSource (url reason : string)
  | Diverged (destination : string) (dest_id source_id : N)
  | Stalled (target reason : string)
  | MRclone (message : string)
  | DestinationNotEmpty (url : string)
  | NoRestorePoint (at_ reason : string).

(** A handle's URL, by site. *)
Record Urls := { source_url : string; dest_url : string }.
Definition url_of (u : Urls) (db : Site) : string :=
  match db with Source => source_url u | Dest => dest_url u end.

(** The data objects one manifest references. *)
Record ManifestObjects := { mo_compacted : gset string; mo_wal : gset N }.
#[export] Instance manifest_objects_empty : Empty ManifestObjects :=
  {| mo_compacted := ∅; mo_wal := ∅ |}.

Definition mo_difference (a b : ManifestObjects) : ManifestObjects :=
  {| mo_compacted := mo_compacted a ∖ mo_compacted b; mo_wal := mo_wal a ∖ mo_wal b |}.
Definition mo_extend (a b : ManifestObjects) : ManifestObjects :=
  {| mo_compacted := mo_compacted a ∪ mo_compacted b; mo_wal := mo_wal a ∪ mo_wal b |}.
Definition mo_is_empty (a : ManifestObjects) : bool :=
  bool_decide (mo_compacted a = ∅) && bool_decide (mo_wal a = ∅).
Definition mo_len (a : ManifestObjects) : nat := set_size (mo_compacted a) + set_size (mo_wal a).

(** A [BTreeSet] in ascending order. *)
Definition ascending {K} `{Countable K, !KeyOrder K} (s : gset K) : list K := sort_by key_le (elements s).

Definition mo_rel_names (a : ManifestObjects) : list string :=
  (wal_rel <$> ascending (mo_wal a)) ++ (compacted_rel <$> ascending (mo_compacted a)).

(** The per-pass cache of decoded manifests, threaded. *)
Abbreviation ManifestCache := (gmap N VersionedManifest).

Section layout.
Context `{SlateLib}.

(** [add]: one SST of a tree. *)
Definition add_sst (o : ManifestObjects) (sst : SsTableId) : ManifestObjects :=
  match sst with
  | Compacted ulid => {| mo_compacted := {[ulid]} ∪ mo_compacted o; mo_wal := mo_wal o |}
  | Wal id => {| mo_compacted := mo_compacted o; mo_wal := {[id]} ∪ mo_wal o |}
  end.

(** The replay window; [replay_after_wal_id + 1] wraps in release builds. *)
Definition manifest_objects (m : VersionedManifest) : ManifestObjects :=
  let trees := fold_left add_sst (manifest_ssts m) ∅ in
  {| mo_compacted := mo_compacted trees;
     mo_wal := mo_wal trees ∪
       list_to_set (rangeN (wrap64 (m_replay_after_wal_id m + 1)) (m_next_wal_sst_id m)) |}.

(** [expire_time.is_none_or(|t| t > now)] *)
Definition checkpoint_live (cp : Checkpoint) (now : Z) : bool :=
  match cp_expire_time cp with None => true | Some t => bool_decide (now < t)%Z end.

Definition check_source (url : string) (m : VersionedManifest) : Result MirrorError unit :=
  match m_external_dbs m with
  | _ :: _ => Err (ExcludedSource url "it is a clone (external_dbs is set)")
  | [] =>
      match m_wal_object_store_uri m with
      | Some _ => Err (ExcludedSource url "it uses a separate WAL object store")
      | None => Ok ()
      end
  end.

(** ** Reads *)

Definition head_miss {T} (db : Site) (rel : T → string) (item : T) : prog (Result MirrorError (option T)) :=
  r <- ask (Head db (rel item));;
  match r with
  | Ok _ => Ret (Ok None)
  | Err (NotFound _) => Ret (Ok (Some item))
  | Err e => Ret (Err (MStore e))
  end.

Definition HEAD_PARALLELISM : nat := 16.

(** [head_misses]: in the order the probes finish. *)
Definition head_misses {T} (db : Site) (items : list T) (rel : T → string)
    : prog (Result MirrorError (list T)) :=
  misses <-? concurrently (λ l miss, l ++ [miss]) HEAD_PARALLELISM (head_miss db rel <$> items) [];;
  Ret (Ok (omap id misses)).

Definition list_dir (db : Site) (dir : string) : prog (Result MirrorError (list Listed)) :=
  r <- ask (ListDir db dir);;
  match r with
  | Ok metas => Ret (Ok metas)
  | Err (NotFound _) => Ret (Ok [])
  | Err e => Ret (Err (MStore e))
  end.

(** [sort_by_key(|(id, _)| *id)] *)
Definition by_id (a b : N * Listed) : Prop := (a.1 ≤ b.1)%N.
#[export] Instance by_id_dec : RelDecision by_id.
Proof. intros a b. unfold by_id. apply _. Defined.
#[export] Instance by_id_trans : Transitive by_id.
Proof. intros a b c. unfold by_id. lia. Qed.
#[export] Instance by_id_total : Total by_id.
Proof. intros a b. unfold by_id. lia. Qed.

Definition parse_listing {K} (parse : string → option K) (metas : list Listed) : list (K * Listed) :=
  omap (λ meta, id ← parse (li_name meta); Some (id, meta)) metas.

Definition list_manifests (db : Site) : prog (Result MirrorError (list (N * Listed))) :=
  metas <-? list_dir db MANIFEST_DIR;;
  Ret (Ok (sort_by by_id (parse_listing parse_manifest_name metas))).

Definition max_manifest_id (db : Site) : prog (Result MirrorError (option N)) :=
  l <-? list_manifests db;;
  Ret (Ok (fst <$> last l)).

Definition list_wals (db : Site) : prog (Result MirrorError (list (N * Listed))) :=
  metas <-? list_dir db WAL_DIR;;
  Ret (Ok (sort_by by_id (parse_listing parse_wal_name metas))).

Definition list_compacted (db : Site) : prog (Result MirrorError (list (string * Listed))) :=
  metas <-? list_dir db COMPACTED_DIR;;
  Ret (Ok (parse_listing parse_compacted_name metas)).

Definition cache_read (db : Site) (cache : ManifestCache) (id : N)
    : prog (Result MirrorError (ManifestCache * option VersionedManifest)) :=
  match cache !! id with
  | Some m => Ret (Ok (cache, Some m))
  | None =>
      r <-?{MSlateDb} ask (ReadManifest db (Some id));;
      match r with
      | Some m => Ret (Ok (<[id := m]> cache, Some m))
      | None => Ret (Ok (cache, None))
      end
  end.

(** ** Closures *)
Record Closure := { cl_head : N; cl_manifests : gmap N ManifestObjects }.

Definition closure_objects (c : Closure) : ManifestObjects :=
  fold_left mo_extend (btree_values (cl_manifests c)) ∅.

(** The loop over the head's checkpoints. *)
Fixpoint closure_loop (db : Site) (head_id : N) (now : Z) (cps : list Checkpoint)
    (cache : ManifestCache) (manifests : gmap N ManifestObjects)
    : prog (Result MirrorError (ManifestCache * option (gmap N ManifestObjects))) :=
  match cps with
  | [] => Ret (Ok (cache, Some manifests))
  | cp :: cps =>
      if negb (checkpoint_live cp now) || bool_decide (cp_manifest_id cp = head_id)
      then closure_loop db head_id now cps cache manifests
      else
        '(cache, pinned) <-? cache_read db cache (cp_manifest_id cp);;
        match pinned with
        | Some pinned =>
            closure_loop db head_id now cps cache
              (<[cp_manifest_id cp := manifest_objects pinned]> manifests)
        | None => Ret (Ok (cache, None))
        end
  end.

Definition closure (db : Site) (head : VersionedManifest) (now : Z) (cache : ManifestCache)
    : prog (Result MirrorError (ManifestCache * option Closure)) :=
  '(cache, manifests) <-? closure_loop db (m_id head) now (m_checkpoints head) cache
    {[ m_id head := manifest_objects head ]};;
  Ret (Ok (cache, (λ ms, {| cl_head := m_id head; cl_manifests := ms |}) <$> manifests)).

(** ** Lemmas on the pure parts *)

Lemma checkpoint_live_outlives cp now : checkpoint_live cp now = true ↔ outlives cp now.
Proof.
  unfold checkpoint_live, outlives. destruct (cp_expire_time cp); [apply bool_decide_eq_true|done].
Qed.
End layout.

Lemma elem_of_ascending {K} `{Countable K, !KeyOrder K} (s : gset K) k : k ∈ ascending s ↔ k ∈ s.
Proof. unfold ascending. by rewrite elem_of_sort_by, elem_of_elements. Qed.

Lemma elem_of_rel_names o rel :
  rel ∈ mo_rel_names o ↔
  (∃ id, id ∈ mo_wal o ∧ rel = wal_rel id) ∨ (∃ u, u ∈ mo_compacted o ∧ rel = compacted_rel u).
Proof.
  unfold mo_rel_names. rewrite elem_of_app, !list_elem_of_fmap.
  setoid_rewrite elem_of_ascending. naive_solver.
Qed.

Lemma rel_names_not_manifest o rel id : rel ∈ mo_rel_names o → rel ≠ manifest_rel id.
Proof. rewrite elem_of_rel_names. by intros [(? & _ & ->)|(? & _ & ->)]. Qed.

Lemma elem_of_fold_extend (l : list ManifestObjects) o :
  (∀ id, id ∈ mo_wal (fold_left mo_extend l o) ↔ id ∈ mo_wal o ∨ ∃ x, x ∈ l ∧ id ∈ mo_wal x) ∧
  (∀ u, u ∈ mo_compacted (fold_left mo_extend l o) ↔ u ∈ mo_compacted o ∨ ∃ x, x ∈ l ∧ u ∈ mo_compacted x).
Proof.
  revert o. induction l as [|x l IH]; intros o; simpl.
  - split; intros; split; auto; intros [?|(? & ?%elem_of_nil & _)]; done.
  - destruct (IH (mo_extend o x)) as [Hw Hu]. split; intros y; [rewrite Hw|rewrite Hu]; simpl;
      rewrite elem_of_union; setoid_rewrite elem_of_cons; naive_solver.
Qed.

(** The closure's objects are those of its members. *)
Lemma elem_of_closure_names c rel :
  rel ∈ mo_rel_names (closure_objects c) ↔
  ∃ id o, cl_manifests c !! id = Some o ∧ rel ∈ mo_rel_names o.
Proof.
  unfold closure_objects. rewrite elem_of_rel_names.
  destruct (elem_of_fold_extend (btree_values (cl_manifests c)) ∅) as [Hw Hu].
  setoid_rewrite Hw. setoid_rewrite Hu. setoid_rewrite elem_of_btree_values.
  setoid_rewrite elem_of_rel_names. split.
  - intros [(id & [?%elem_of_empty|(o & (i & Hi) & Hin)] & ->)|(u & [?%elem_of_empty|(o & (i & Hi) & Hin)] & ->)];
      try done; exists i, o; eauto.
  - intros (i & o & Hi & [(id & Hin & ->)|(u & Hin & ->)]); [left|right]; eauto 10.
Qed.

(** What a difference leaves out is in the subtrahend. *)
Lemma difference_names a b rel :
  rel ∈ mo_rel_names a → rel ∈ mo_rel_names (mo_difference a b) ∨ rel ∈ mo_rel_names b.
Proof.
  rewrite !elem_of_rel_names. simpl. intros [(id & Hin & ->)|(u & Hin & ->)].
  - destruct (decide (id ∈ mo_wal b)); [right; eauto|]. left. left. exists id. set_solver.
  - destruct (decide (u ∈ mo_compacted b)); [right; eauto|]. left. right. exists u. set_solver.
Qed.

Lemma elem_of_concat {A} (ls : list (list A)) x : x ∈ concat ls ↔ ∃ l, x ∈ l ∧ l ∈ ls.
Proof.
  induction ls as [|l ls IH]; simpl; [split; [by intros ?%elem_of_nil|by intros (? & _ & ?%elem_of_nil)]|].
  rewrite elem_of_app, IH. setoid_rewrite elem_of_cons. naive_solver.
Qed.

Lemma fold_add_sst `{SlateLib} (l : list SsTableId) o :
  (∀ u, u ∈ mo_compacted (fold_left add_sst l o) ↔ u ∈ mo_compacted o ∨ Compacted u ∈ l) ∧
  (∀ id, id ∈ mo_wal (fold_left add_sst l o) ↔ id ∈ mo_wal o ∨ Wal id ∈ l).
Proof.
  revert o. induction l as [|sst l IH]; intros o; simpl.
  - split; intros; split; auto; intros [?|?%elem_of_nil]; done.
  - destruct (IH (add_sst o sst)) as [Hu Hw]. split; intros x; [rewrite Hu|rewrite Hw];
      rewrite elem_of_cons; destruct sst; simpl; set_solver.
Qed.

Lemma elem_of_manifest_ssts `{SlateLib} m sst :
  sst ∈ manifest_ssts m ↔
  ∃ tree, tree ∈ (m_l0 m, m_compacted m) :: m_segments m ∧
    (sst ∈ tree.1 ∨ ∃ run, run ∈ tree.2 ∧ sst ∈ run).
Proof.
  unfold manifest_ssts. rewrite elem_of_concat. setoid_rewrite list_elem_of_fmap. split.
  - intros (l & Hs & ([l0 runs] & -> & Ht)). exists (l0, runs). split; [done|].
    apply elem_of_app in Hs as [?|(run & ? & ?)%elem_of_concat]; simpl; eauto.
  - intros ([l0 runs] & Ht & Hs). exists (l0 ++ concat runs). split; [|by eexists (_, _)].
    apply elem_of_app. destruct Hs as [?|(run & ? & ?)]; [by left|right]. apply elem_of_concat. eauto.
Qed.

(** The data objects of a manifest are exactly the compacted SSTs of its
    trees, the root's and every segment's, in L0 and in the sorted runs, and
    the WALs named by a tree or in the replay window: after the last WAL
    replayed and below the next one, the sum wrapping at 64 bits. *)
Theorem manifest_objects_exact `{SlateLib} m :
  let names sst := ∃ tree, tree ∈ (m_l0 m, m_compacted m) :: m_segments m ∧
    (sst ∈ tree.1 ∨ ∃ run, run ∈ tree.2 ∧ sst ∈ run) in
  (∀ u, u ∈ mo_compacted (manifest_objects m) ↔ names (Compacted u)) ∧
  (∀ id, id ∈ mo_wal (manifest_objects m) ↔
     names (Wal id) ∨ (wrap64 (m_replay_after_wal_id m + 1) ≤ id < m_next_wal_sst_id m)%N) ∧
  (∀ rel, rel ∈ mo_rel_names (manifest_objects m) ↔
     (∃ id, id ∈ mo_wal (manifest_objects m) ∧ rel = wal_rel id) ∨
     (∃ u, u ∈ mo_compacted (manifest_objects m) ∧ rel = compacted_rel u)).
Proof.
  intros names. destruct (fold_add_sst (manifest_ssts m) ∅) as [Hu Hw]. split_and!.
  - intros u. unfold names. rewrite <-elem_of_manifest_ssts. simpl. rewrite Hu.
    split; [by intros [?%elem_of_empty|]|by right].
  - intros id. unfold names. rewrite <-elem_of_manifest_ssts. simpl.
    rewrite elem_of_union, Hw, elem_of_list_to_set, elem_of_rangeN.
    split; [intros [[?%elem_of_empty|]|]|intros [|]]; auto; done.
  - apply elem_of_rel_names.
Qed.

Lemma sorted_last_max (l : list (N * Listed)) x y :
  StronglySorted by_id l → last l = Some x → y ∈ l → (y.1 ≤ x.1)%N.
Proof.
  induction 1 as [|a l Hs IH Ha]; [done|]. destruct l as [|b l].
  - simpl. intros [= <-] ->%list_elem_of_singleton. done.
  - intros Hl [->|Hin]%elem_of_cons; [|by apply IH].
    rewrite Forall_forall in Ha. apply (Ha x). apply last_Some in Hl as [l' Hl].
    change (a :: b :: l) with ([a] ++ b :: l) in Hl. destruct l' as [|c l']; [done|].
    injection Hl as <- Hl. rewrite Hl. set_solver.
Qed.
