(* ===== verification/Services.v ===== *)
(** * The per-database services (src/services.rs)

    Opening a database, the options each service hands to SlateDB, and the
    dispatch of an assignment to its runner.  The runners themselves are
    SlateDB's ([slatedb::admin]); a [ServiceCall] names the one called and
    with what. *)

From S2P Require Import Prelude Order Text Service Store Registry Config Validate Effects Layout.

(** ** Errors *)

(** [slatedb::Error::kind] compared with [Closed(CloseReason::Fenced)]; and
    opening a store from a URL, which reads the process environment
    ([store.rs]). *)
Class ServiceLib `{UrlLib} := {
  kind_is_fenced : SlateError → bool;
  StoreRoot : Type;
  store_parse_url : Url → Result StoreError StoreRoot;
}.

Inductive ServiceErrorOf (PE : Type) :=
  | ServiceUrl (e : UrlErrorOf PE)
  | ServiceStore (e : StoreError)
  | ServiceSlateDb (e : SlateError)
  | ServiceMirror (e : MirrorError).
Arguments ServiceUrl {PE} e.
Arguments ServiceStore {PE} e.
Arguments ServiceSlateDb {PE} e.
Arguments ServiceMirror {PE} e.
Abbreviation ServiceError := (ServiceErrorOf UrlParseError).

(** ** Options handed to SlateDB *)

(** [slatedb::config], the fields the program sets. *)
Record GarbageCollectorDirectoryOptions := {
  gdo_opt_interval : option Duration;
  gdo_opt_min_age : Duration;
  gdo_opt_dry_run : bool;
}.
Record GarbageCollectorOptions := {
  gco_manifest_options : option GarbageCollectorDirectoryOptions;
  gco_wal_options : option GarbageCollectorDirectoryOptions;
  gco_wal_fence_options : option GarbageCollectorDirectoryOptions;
  gco_compacted_options : option GarbageCollectorDirectoryOptions;
  gco_compactions_options : option GarbageCollectorDirectoryOptions;
  gco_detach_options : option (option Duration);
  gco_metric_level : option unit;
}.
Record SizeTieredCompactionSchedulerOptions := {
  sto_min_compaction_sources : N;
  sto_max_compaction_sources : N;
  sto_include_size_threshold : f32;
}.
Record CompactorOptions := {
  cto_poll_interval : Duration;
  cto_manifest_update_timeout : Duration;
  cto_max_concurrent_compactions : N;
  cto_scheduler_options : SizeTieredCompactionSchedulerOptions;
  (** The embedded worker's options. *)
  cto_worker : option unit;
  cto_metric_level : option unit;
  cto_commit_compacted_interval : Duration;
  cto_worker_heartbeat_timeout : Duration;
}.
Inductive SlateCodec := SlateSnappy | SlateZlib | SlateLz4 | SlateZstd.
Record CompactionWorkerOptions := {
  wko_max_concurrent_compactions : N;
  wko_compactions_poll_interval : Duration;
  wko_heartbeat_bytes : N;
  wko_heartbeat_min_interval : Duration;
  wko_max_sst_size : N;
  wko_max_fetch_tasks : N;
  wko_bytes_to_fetch : N;
  wko_max_subcompactions : N;
  wko_min_filter_keys : N;
  wko_compression_codec : option SlateCodec;
  wko_metric_level : option unit;
}.

(** [as usize] on a 64-bit target. *)
Abbreviation as_usize := wrap64 (only parsing).

Definition gc_directory (dir : ResolvedGcDirectory) : option GarbageCollectorDirectoryOptions :=
  if rgd_enabled dir
  then Some {| gdo_opt_interval := Some (rgd_interval dir); gdo_opt_min_age := rgd_min_age dir;
               gdo_opt_dry_run := rgd_dry_run dir |}
  else None.

Definition gc_options (resolved : ResolvedGc) : GarbageCollectorOptions := {|
  gco_manifest_options := gc_directory (rgc_manifest resolved);
  gco_wal_options := gc_directory (rgc_wal resolved);
  gco_wal_fence_options := gc_directory (rgc_wal_fence resolved);
  gco_compacted_options := gc_directory (rgc_compacted resolved);
  gco_compactions_options := gc_directory (rgc_compactions resolved);
  gco_detach_options :=
    if rgt_enabled (rgc_detach resolved) then Some (Some (rgt_interval (rgc_detach resolved))) else None;
  gco_metric_level := None;
|}.

(** [scheduler.into()] turns the scheduler's options into SlateDB's string
    map; the map's reader gets these three back. *)
Definition coordinator_options (resolved : ResolvedCoordinator) : CompactorOptions :=
  let scheduler := {|
    sto_min_compaction_sources := as_usize (rsc_min_compaction_sources (rcd_scheduler resolved));
    sto_max_compaction_sources := as_usize (rsc_max_compaction_sources (rcd_scheduler resolved));
    sto_include_size_threshold := rsc_include_size_threshold (rcd_scheduler resolved) |} in
  {| cto_poll_interval := rcd_poll_interval resolved;
     cto_manifest_update_timeout := rcd_manifest_update_timeout resolved;
     cto_max_concurrent_compactions := as_usize (rcd_max_concurrent_compactions resolved);
     cto_scheduler_options := scheduler;
     cto_worker := None;
     cto_metric_level := None;
     cto_commit_compacted_interval := rcd_commit_compacted_interval resolved;
     cto_worker_heartbeat_timeout := rcd_worker_heartbeat_timeout resolved |}.

Definition codec (codec : CompressionCodec) : SlateCodec :=
  match codec with
  | Snappy => SlateSnappy
  | Zlib => SlateZlib
  | Lz4 => SlateLz4
  | Zstd => SlateZstd
  end.

Definition worker_options (resolved : ResolvedWorkers) : CompactionWorkerOptions := {|
  wko_max_concurrent_compactions := as_usize (rwk_max_concurrent_compactions resolved);
  wko_compactions_poll_interval := rwk_compactions_poll_interval resolved;
  wko_heartbeat_bytes := rwk_heartbeat_bytes resolved;
  wko_heartbeat_min_interval := rwk_heartbeat_min_interval resolved;
  wko_max_sst_size := as_usize (rwk_max_sst_size resolved);
  wko_max_fetch_tasks := as_usize (rwk_max_fetch_tasks resolved);
  wko_bytes_to_fetch := as_usize (rwk_bytes_to_fetch resolved);
  wko_max_subcompactions := as_usize (rwk_max_subcompactions resolved);
  wko_min_filter_keys := rwk_min_filter_keys resolved;
  wko_compression_codec := codec <$> rwk_compression_codec resolved;
  wko_metric_level := None;
|}.

(** ** Dispatch *)

(** The [slatedb::admin] runner called. *)
Inductive ServiceCall :=
  | RunGcWithOptions (o : GarbageCollectorOptions)
  | RunCompactorWithOptions (o : CompactorOptions)
  | RunCompactionWorkerWithOptions (o : CompactionWorkerOptions).

Definition run_gc (resolved : ResolvedGc) : ServiceCall := RunGcWithOptions (gc_options resolved).
Definition run_coordinator (resolved : ResolvedCoordinator) : ServiceCall :=
  RunCompactorWithOptions (coordinator_options resolved).
Definition run_workers (resolved : ResolvedWorkers) : ServiceCall :=
  RunCompactionWorkerWithOptions (worker_options resolved).

(** [None] is the panic of [unreachable!]. *)
Definition run_service (service : Service) (resolved : ResolvedServices) : option ServiceCall :=
  match service with
  | Gc => Some (run_gc (rs_gc resolved))
  | CompactorCoordinator => Some (run_coordinator (rs_coordinator resolved))
  | CompactionWorkers => Some (run_workers (rs_workers resolved))
  | Mirror => None
  end.

(** ** Queue depth *)

(** [slatedb::compactor::CompactionStatus]; the statuses the program does not
    tell apart are one. *)
Inductive CompactionStatus := Submitted | Scheduled | RunningJob | OtherStatus.

Record QueueDepth := { qd_claimable : N; qd_running : N }.
Definition QueueDepth_default : QueueDepth := {| qd_claimable := 0; qd_running := 0 |}.

Definition count_compaction (depth : QueueDepth) (status : CompactionStatus) : QueueDepth :=
  match status with
  | Submitted | Scheduled => {| qd_claimable := qd_claimable depth + 1; qd_running := qd_running depth |}
  | RunningJob => {| qd_claimable := qd_claimable depth; qd_running := qd_running depth + 1 |}
  | OtherStatus => depth
  end.

(** [read] is [admin.read_compactions(None)]: the recent compactions. *)
Definition queue_depth (read : Result SlateError (option (list CompactionStatus)))
    : Result SlateError QueueDepth :=
  compactions ← read;
  match compactions with
  | None => Ok QueueDepth_default
  | Some l => Ok (fold_left count_compaction l QueueDepth_default)
  end.

(** ** Opening a database *)
Section open.
Context `{UrlLib, PercentLib, !ServiceLib}.

Definition is_fenced (e : ServiceError) : bool :=
  match e with
  | ServiceSlateDb e => kind_is_fenced e
  | _ => false
  end.

(** The admin API and the store are those of [dh_root]. *)
Record DatabaseHandle := { dh_url : string; dh_root : StoreRoot }.

(** [None] is the panic of [expect("canonical URL reparses")]. *)
Definition DatabaseHandle_open (url : string) : option (Result ServiceError DatabaseHandle) :=
  match canonicalize_database_url url with
  | Err e => Some (Err (ServiceUrl e))
  | Ok canonical =>
      match url_parse canonical with
      | Err _ => None
      | Ok parsed =>
          Some (root ← map_err ServiceStore (store_parse_url parsed);
                Ok {| dh_url := url; dh_root := root |})
      end
  end.
End open.

(** ** What SlateDB is asked to run *)

(** Numbers that fit the 64-bit machine's [usize]. *)
Definition widths_fit (r : ResolvedServices) : Prop :=
  Forall (λ n, n ≤ U64_MAX)%N
    [rsc_min_compaction_sources (rcd_scheduler (rs_coordinator r));
     rsc_max_compaction_sources (rcd_scheduler (rs_coordinator r));
     rcd_max_concurrent_compactions (rs_coordinator r);
     rwk_max_concurrent_compactions (rs_workers r); rwk_max_sst_size (rs_workers r);
     rwk_max_fetch_tasks (rs_workers r); rwk_bytes_to_fetch (rs_workers r)].

(** A directory is collected exactly when it is enabled, with its own
    settings and a positive interval. *)
Definition collects (dir : ResolvedGcDirectory) (o : option GarbageCollectorDirectoryOptions) : Prop :=
  match o with
  | None => rgd_enabled dir = false
  | Some o => rgd_enabled dir = true ∧ rgd_interval dir ≠ 0%N ∧
      o = {| gdo_opt_interval := Some (rgd_interval dir); gdo_opt_min_age := rgd_min_age dir;
             gdo_opt_dry_run := rgd_dry_run dir |}
  end.

Lemma gc_directory_collects dir : rgd_interval dir ≠ 0%N → collects dir (gc_directory dir).
Proof. intros Hi. unfold gc_directory. by destruct (rgd_enabled dir) eqn:E. Qed.

(** What a call must look like for these settings. *)
Definition call_ok (r : ResolvedServices) (svc : Service) (call : ServiceCall) : Prop :=
  match call with
  | RunGcWithOptions o =>
      svc = Gc ∧
      collects (rgc_manifest (rs_gc r)) (gco_manifest_options o) ∧
      collects (rgc_wal (rs_gc r)) (gco_wal_options o) ∧
      collects (rgc_wal_fence (rs_gc r)) (gco_wal_fence_options o) ∧
      collects (rgc_compacted (rs_gc r)) (gco_compacted_options o) ∧
      collects (rgc_compactions (rs_gc r)) (gco_compactions_options o) ∧
      (is_Some (gco_detach_options o) ↔ rgt_enabled (rgc_detach (rs_gc r)) = true) ∧
      (∀ i, gco_detach_options o = Some i → i = Some (rgt_interval (rgc_detach (rs_gc r))) ∧ i ≠ Some 0%N)
  | RunCompactorWithOptions o =>
      svc = CompactorCoordinator ∧ cto_worker o = None ∧
      (0 < sto_min_compaction_sources (cto_scheduler_options o) ≤
         sto_max_compaction_sources (cto_scheduler_options o))%N ∧
      positive_number (sto_include_size_threshold (cto_scheduler_options o)) = true ∧
      (0 < cto_max_concurrent_compactions o)%N ∧ (0 < cto_poll_interval o)%N ∧
      (0 < cto_manifest_update_timeout o)%N ∧ (0 < cto_commit_compacted_interval o)%N ∧
      (0 < cto_worker_heartbeat_timeout o)%N
  | RunCompactionWorkerWithOptions o =>
      svc = CompactionWorkers ∧ (0 < wko_max_concurrent_compactions o)%N ∧
      (0 < wko_compactions_poll_interval o)%N ∧ (0 < wko_max_sst_size o)%N ∧
      (0 < wko_max_fetch_tasks o)%N ∧ (0 < wko_bytes_to_fetch o)%N
  end.

Lemma wrap64_pos n : (n ≤ U64_MAX)%N → n ≠ 0%N → (0 < wrap64 n)%N.
Proof. intros ??. rewrite wrap64_small by done. lia. Qed.

Lemma options_ok r svc :
  resolved_fields_ok r → (rsc_min_compaction_sources (rcd_scheduler (rs_coordinator r)) ≤
    rsc_max_compaction_sources (rcd_scheduler (rs_coordinator r)))%N →
  widths_fit r → svc ≠ Mirror → ∃ call, run_service svc r = Some call ∧ call_ok r svc call.
Proof.
  intros (_ & Hg & Hc & Hw & _) Hle Hfit Hm. unfold widths_fit in Hfit. rewrite !Forall_cons in Hfit.
  destruct Hfit as (?&?&?&?&?&?&?&_).
  destruct svc; [| | |done]; (eexists; split; [reflexivity|]); split; try done.
  - destruct Hg as (?&?&?&?&?&?). split_and!; try by apply gc_directory_collects.
    + simpl. destruct (rgt_enabled _); split; try done.
    + simpl. destruct (rgt_enabled _); intros i [= <-]. split; congruence.
  - destruct Hc as (?&?&?&?&?&?&?&?). simpl. rewrite !wrap64_small by done. split_and!; try done; lia.
  - destruct Hw as (?&?&?&?&?&?). simpl. split_and!; try (by apply wrap64_pos); lia.
Qed.


Import Registry.Concrete.
#[local] Existing Instance Validate.example_lib.

