(* ===== verification/Node.v ===== *)
(** * The node (fn run, impl Node and fn supervise of src/daemon.rs)

    One node's loop: heartbeat, poll, list, housekeeping, ownership,
    reconciliation.  A [tick] is one iteration, as a function of what the node
    observes in it; [boot] and a list of ticks are a run.  [task_body] is what
    a supervised task runs.  The theorems compose [Root], [Poller], [Daemon]
    and [Supervise]: what a node runs, and that the nodes of a fleet together
    run everything. *)

From S2P Require Import Prelude Order Text Service Placement Heartbeat Store Root.
From S2P Require Import Registry Config Validate Targets Poller Daemon Supervise Services.

Record NodeOptions := {
  no_node_id : string;
  no_services : list Service;
  no_max_mirror_jobs : N;
  no_rclone : option string;
}.

(** [parallelism] is [std::thread::available_parallelism]. *)
Definition NodeOptions_default (parallelism : option N) : NodeOptions := {|
  no_node_id := EmptyString; no_services := ALL;
  no_max_mirror_jobs := default 4%N parallelism; no_rclone := None |}.
Definition NodeOptions_new (parallelism : option N) (node_id : string) : NodeOptions :=
  let d := NodeOptions_default parallelism in
  {| no_node_id := node_id; no_services := no_services d;
     no_max_mirror_jobs := no_max_mirror_jobs d; no_rclone := no_rclone d |}.
Definition with_services (o : NodeOptions) (services : list Service) : NodeOptions :=
  {| no_node_id := no_node_id o; no_services := services;
     no_max_mirror_jobs := no_max_mirror_jobs o; no_rclone := no_rclone o |}.
Definition with_max_mirror_jobs (o : NodeOptions) (jobs : N) : NodeOptions :=
  {| no_node_id := no_node_id o; no_services := no_services o;
     no_max_mirror_jobs := N.max jobs 1; no_rclone := no_rclone o |}.
Definition with_rclone (o : NodeOptions) (rclone : string) : NodeOptions :=
  {| no_node_id := no_node_id o; no_services := no_services o;
     no_max_mirror_jobs := no_max_mirror_jobs o; no_rclone := Some rclone |}.

Section node.
Context `{StoreLib, UrlLib, PercentLib, !ConfigLib}.
(** [Utf8Error]'s text, the hash of a config's debug text, and the versions
    compiled in. *)
Context (utf8_error : string → string) (fingerprint : ResolvedServices → N).
Context (cargo_pkg_version SLATEDB_VERSION : string).

Record Node := {
  nd_options : NodeOptions;
  nd_object_name : string;
  nd_root : FleetRoot;
  (** The permits of the mirror-job semaphore. *)
  nd_mirror_jobs : N;
}.

(** [run], up to the loop: the node, or [DaemonError::NodeId]. *)
Definition start (root : FleetRoot) (options : NodeOptions) : Result string Node :=
  _ ← validate_node_id (no_node_id options);
  Ok {| nd_options := options; nd_object_name := object_name (no_node_id options) (no_services options);
        nd_root := root; nd_mirror_jobs := N.max (no_max_mirror_jobs options) 1 |}.

(** The locals of [Node::run]; [ns_next] numbers the tasks spawned. *)
Record NodeState := {
  ns_poller : ConfigPoller;
  ns_state : FleetState;
  ns_last_poll : Z;
  ns_tasks : Tasks;
  ns_next : N;
}.

(** What one iteration observes: the shared task states, the clock and the
    answers of a poll, the listing of [nodes/] and the clock it is read
    against, and which tasks have finished. *)
Record Tick := {
  tk_states : TaskStates;
  tk_elapsed_at : Z;
  tk_reads : PollReads;
  tk_polled_at : Z;
  tk_nodes : Result StoreError (list ObjectMeta);
  tk_now : Instant;
  tk_finished : N → bool;
}.

(** What it does to the rest of the world; failed writes only log. *)
Record TickEffects := {
  te_put : StorePath * Heartbeat;
  te_delete : list StorePath;
  te_cancel : list RunningTask;
  te_sleep : Duration;
}.

Definition own_path (n : Node) : StorePath := node_path (nd_root n) (nd_object_name n).
Definition node_config (s : NodeState) : NodeConfig := cfg_node (fs_config (ns_state s)).

Definition put_heartbeat (n : Node) (states : TaskStates) : StorePath * Heartbeat :=
  (own_path n, heartbeat_body cargo_pkg_version (no_node_id (nd_options n)) SLATEDB_VERSION
                 (no_services (nd_options n)) states).

(** Before the loop. *)
Definition boot (n : Node) (reads : PollReads) (now : Z) : NodeState :=
  let '(poller, state) := poll utf8_error (nd_root n) reads ConfigPoller_default in
  {| ns_poller := poller; ns_state := state; ns_last_poll := now; ns_tasks := ∅; ns_next := 0 |}.

(** [last_poll.elapsed() >= config_poll]; [elapsed] saturates at zero. *)
Definition poll_due (s : NodeState) (now : Z) : bool :=
  bool_decide (Z.of_N (config_poll (node_config s)) ≤ Z.max 0 (now - ns_last_poll s))%Z.

Definition refresh (n : Node) (s : NodeState) (t : Tick) : NodeState :=
  if poll_due s (tk_elapsed_at t) then
    let '(poller, state) := poll utf8_error (nd_root n) (tk_reads t) (ns_poller s) in
    {| ns_poller := poller; ns_state := state; ns_last_poll := tk_polled_at t;
       ns_tasks := ns_tasks s; ns_next := ns_next s |}
  else s.

(** The assignments the node owns by a listing. *)
Definition owned (n : Node) (entries : list HeartbeatEntry) (state : FleetState)
    : gmap Assignment ResolvedServices :=
  owned_assignments (no_node_id (nd_options n)) (no_services (nd_options n)) entries state.

(** From the listing on: [None] is the panic in [housekeeping]. *)
Definition follow (n : Node) (s : NodeState) (t : Tick) : option (NodeState * list StorePath * list RunningTask) :=
  match list_heartbeats (tk_now t) (tk_nodes t) with
  | Err _ => Some (s, [], [])
  | Ok entries =>
      deletes ← housekeeping (own_path n) (no_node_id (nd_options n)) entries
                  (heartbeat_timeout (node_config s));
      let rc := reconcile fingerprint (tk_finished t) (ns_tasks s) (owned n entries (ns_state s)) (ns_next s) in
      Some ({| ns_poller := ns_poller s; ns_state := ns_state s; ns_last_poll := ns_last_poll s;
               ns_tasks := rc_tasks rc; ns_next := rc_next rc |}, deletes, rc_cancelled rc)
  end.

(** One iteration of the loop, up to the sleep. *)
Definition tick (n : Node) (s : NodeState) (t : Tick) : option (NodeState * TickEffects) :=
  let put := put_heartbeat n (tk_states t) in
  '(s, deletes, cancelled) ← follow n (refresh n s t) t;
  Some (s, {| te_put := put; te_delete := deletes; te_cancel := cancelled;
              te_sleep := heartbeat_interval (node_config s) |}).

(** The loop: the state after the iterations. *)
Fixpoint ticks (n : Node) (s : NodeState) (ts : list Tick) : option NodeState :=
  match ts with
  | [] => Some s
  | t :: ts => '(s, _) ← tick n s t; ticks n s ts
  end.

(** After the loop: the tasks cancelled and the object deleted. *)
Definition shutdown (n : Node) (s : NodeState) : list RunningTask * StorePath :=
  ((map_to_list (ns_tasks s)).*2, own_path n).
End node.

(** ** What a task runs *)
Section task.
Context `{UrlLib, PercentLib, !ServiceLib}.

Inductive TaskBody :=
  | NothingToRun
  | OpenFails (e : ServiceError)
  | RunsMirror (source dest : DatabaseHandle) (applied : AppliedTarget)
  | RunsService (db : DatabaseHandle) (call : ServiceCall).

(** [DatabaseHandle::open(..)?] *)
Definition with_open (url : string) (k : DatabaseHandle → option TaskBody) : option TaskBody :=
  opened ← DatabaseHandle_open url;
  match opened with Err e => Some (OpenFails e) | Ok db => k db end.

(** The closure [run] of [supervise]; [None] is a panic. *)
Definition task_body (key : Assignment) (resolved : ResolvedServices) : option TaskBody :=
  let '(url, service, target) := key in
  if decide (service = Mirror) then
    name ← target;
    match List.find (λ t, bool_decide (at_name t = name)) (applied_targets url (rs_mirror resolved)) with
    | None => Some NothingToRun
    | Some applied =>
        with_open url (λ source, with_open (at_destination applied) (λ dest,
          Some (RunsMirror source dest applied)))
    end
  else with_open url (λ db, call ← run_service service resolved; Some (RunsService db call)).

(** How [supervise_with] reads a body's result. *)
Definition run_result (r : Result ServiceError unit) : RunResult :=
  match r with
  | Ok _ => RunOk
  | Err e => if is_fenced e then RunFenced else RunFailed
  end.
End task.

(** ** One node *)
Section claims.
Context `{StoreLib, UrlLib, PercentLib, !ConfigLib}.
Context (utf8_error : string → string) (fingerprint : ResolvedServices → N).
Context (cargo_pkg_version SLATEDB_VERSION : string).
#[local] Abbreviation tick := (tick utf8_error fingerprint cargo_pkg_version SLATEDB_VERSION).
#[local] Abbreviation ticks := (ticks utf8_error fingerprint cargo_pkg_version SLATEDB_VERSION).

(** The loop's invariant: task numbers are fresh, and the state in force is
    the poller's. *)
Definition node_inv (s : NodeState) : Prop :=
  (∀ key task, ns_tasks s !! key = Some task → (rt_id task < ns_next s)%N) ∧
  poller_ok (ns_poller s) ∧
  fs_config (ns_state s) = cp_config (ns_poller s) ∧
  fs_databases (ns_state s) = cp_databases (ns_poller s).

Lemma boot_inv n reads now : node_inv (boot utf8_error n reads now).
Proof.
  unfold boot. pose proof (poll_ok utf8_error (nd_root n) reads _ poller_ok_default) as Hok.
  pose proof (poll_state utf8_error (nd_root n) reads ConfigPoller_default) as Hst.
  destruct (poll _ _ _ _) as [p st]. split; [by simpl; intros key task; rewrite lookup_empty|done].
Qed.

Lemma refresh_inv n s t :
  node_inv s →
  node_inv (refresh utf8_error n s t) ∧ ns_tasks (refresh utf8_error n s t) = ns_tasks s ∧
  ns_next (refresh utf8_error n s t) = ns_next s.
Proof.
  intros (Hid & Hok & Hst). unfold refresh. destruct (poll_due _ _); [|done].
  pose proof (poll_ok utf8_error (nd_root n) (tk_reads t) _ Hok) as Hok'.
  pose proof (poll_state utf8_error (nd_root n) (tk_reads t) (ns_poller s)) as Hst'.
  destruct (poll _ _ _ _) as [p st]. done.
Qed.

(** What following a listing does to the tasks. *)
Definition followed (n : Node) (t : Tick) (s s' : NodeState) (cancelled : list RunningTask) : Prop :=
  match list_heartbeats (tk_now t) (tk_nodes t) with
  | Ok entries =>
      let owned := owned n entries (ns_state s') in
      (∀ key, fingerprint <$> owned !! key = rt_fingerprint <$> ns_tasks s' !! key) ∧
      (∀ key task, ns_tasks s !! key = Some task →
         (ns_tasks s' !! key = Some task ↔
            fingerprint <$> owned !! key = Some (rt_fingerprint task) ∧ tk_finished t (rt_id task) = false)) ∧
      (∀ task, task ∈ cancelled ↔
         ∃ key, ns_tasks s !! key = Some task ∧ fingerprint <$> owned !! key ≠ Some (rt_fingerprint task))
  | Err _ => ns_tasks s' = ns_tasks s ∧ cancelled = []
  end.

Lemma follow_spec n s t s' deletes cancelled :
  node_inv s → follow fingerprint n s t = Some (s', deletes, cancelled) →
  node_inv s' ∧ ns_state s' = ns_state s ∧ followed n t s s' cancelled.
Proof.
  intros Hi Hf. unfold follow, followed in *. destruct (list_heartbeats _ _) as [entries|e].
  - apply bind_Some in Hf as (dels & _ & [= <- <- <-]). simpl.
    destruct (reconcile_spec fingerprint (tk_finished t) (ns_tasks s) (owned n entries (ns_state s)) (ns_next s))
      as (Hexact & Hkeep & _ & Hcancel & Hfresh); [apply Hi|].
    split; [split; [exact Hfresh|apply Hi]|done].
  - injection Hf as <- <- <-. done.
Qed.

Lemma tick_spec n s t s' e :
  node_inv s → tick n s t = Some (s', e) →
  node_inv s' ∧ ns_state s' = ns_state (refresh utf8_error n s t) ∧
  te_sleep e = heartbeat_interval (node_config s') ∧ followed n t s s' (te_cancel e).
Proof.
  intros Hi Ht. destruct (refresh_inv n s t Hi) as (Hi1 & Htasks & _).
  apply bind_Some in Ht as ([[s1 dels] cancelled] & Hf & [= <- <-]).
  destruct (follow_spec _ _ _ _ _ _ Hi1 Hf) as (Hi' & Hst & Hfol). split_and!; [done|done|done|].
  unfold followed in *. by rewrite Htasks in Hfol.
Qed.

Lemma ticks_inv n ts : ∀ s s', node_inv s → ticks n s ts = Some s' → node_inv s'.
Proof.
  induction ts as [|t ts IH]; intros s s' Hi; [by intros [= <-]|].
  intros ([s1 e] & Ht & Hs)%bind_Some. eapply IH; [|exact Hs]. by eapply tick_spec.
Qed.

(** C14: every iteration of a node's loop, however the store has answered since
    it started: the settings in force passed validation and are those of the
    latest poll, made when [config_poll] has elapsed; after a successful
    listing the running tasks are exactly the assignments owned by it, each
    started with its current settings, unchanged ones untouched, the others
    cancelled; after a failed listing nothing changes; and the node sleeps
    less than the heartbeat timeout. *)
Theorem ticks_run_owned n reads now ts t s s' e :
  ticks n (boot utf8_error n reads now) ts = Some s → tick n s t = Some (s', e) →
  validate (fs_config (ns_state s')) = Ok () ∧
  (0 < te_sleep e < heartbeat_timeout (node_config s'))%N ∧
  ns_state s' = (if poll_due s (tk_elapsed_at t)
                 then (poll utf8_error (nd_root n) (tk_reads t) (ns_poller s)).2 else ns_state s) ∧
  followed n t s s' (te_cancel e).
Proof.
  intros Hs Ht. pose proof (ticks_inv _ _ _ _ (boot_inv n reads now) Hs) as Hi.
  destruct (tick_spec _ _ _ _ _ Hi Ht) as ((_ & (Hv & _) & Hc & _) & Hst & Hsleep & Hf).
  rewrite <-Hc in Hv. pose proof (proj1 (proj1 (validate_iff _) Hv)) as [Hnode _].
  split; [done|]. split; [rewrite Hsleep; apply Hnode|]. split; [|done].
  rewrite Hst. unfold refresh. destruct (poll_due _ _); [|done]. by destruct (poll _ _ _ _).
Qed.
(** ** The fleet *)

(** A node whose last iteration listed [entries]. *)
Definition ticked (n : Node) (s : NodeState) (entries : list HeartbeatEntry) : Prop :=
  ∃ reads now ts s0 t e,
    ticks n (boot utf8_error n reads now) ts = Some s0 ∧ tick n s0 t = Some (s, e) ∧
    list_heartbeats (tk_now t) (tk_nodes t) = Ok entries.

Lemma ticked_owned n s entries :
  ticked n s entries →
  ∀ key, fingerprint <$> owned n entries (ns_state s) !! key = rt_fingerprint <$> ns_tasks s !! key.
Proof.
  intros (reads & now & ts & s0 & t & e & Hs & Ht & Hl).
  pose proof (ticks_inv _ _ _ _ (boot_inv n reads now) Hs) as Hi.
  destruct (tick_spec _ _ _ _ _ Hi Ht) as (_ & _ & _ & Hf). unfold followed in Hf. rewrite Hl in Hf. apply Hf.
Qed.

(** The nodes of a roster, as a view. *)
Definition member_view (m : string * list Service) : NodeView :=
  {| nv_node_id := m.1; nv_services := m.2; nv_age := 0 |}.

Lemma candidates_members members nodes svc :
  roster <$> nodes ≡ₚ members → candidates nodes svc ≡ₚ candidates (member_view <$> members) svc.
Proof.
  intros Hp. rewrite !candidates_roster, <-list_fmap_compose.
  assert (Hid : (roster ∘ member_view) <$> members = members).
  { rewrite <-(list_fmap_id members) at 2. by apply list_fmap_ext; intros ? [] _. }
  by rewrite Hid, Hp.
Qed.

Lemma length_candidates_members members svc :
  length (candidates (member_view <$> members) svc) = length (filter (λ m, svc ∈ m.2) members).
Proof. unfold candidates. by rewrite filter_fmap, !length_fmap. Qed.

(** The id of a fleet's element. *)
Definition id_of (ns : Node * NodeState) : string := no_node_id (nd_options ns.1).
Definition runs_task (key : Assignment) (ns : Node * NodeState) : Prop := is_Some (ns_tasks ns.2 !! key).
#[local] Instance runs_task_dec key ns : Decision (runs_task key ns).
Proof. unfold runs_task. apply _. Defined.

Section fleet.
Context (fleet : list (Node * NodeState)) (members : list (string * list Service)).
Context (config : SleetConfig) (databases : gmap string DatabaseConfig).

(** A node runs its share: what the ranking among [members] gives it. *)
Definition runs_share (ns : Node * NodeState) : Prop := ∀ url svc tgt,
  runs_task (url, svc, tgt) ns ↔ ∃ db, databases !! url = Some db ∧
    svc ∈ rs_services (resolve config (Some db)) ∧
    ranked_owner (id_of ns) (member_view <$> members) url (resolve config (Some db)) svc tgt.

Definition distinct : Prop := NoDup members.*1 ∧ id_of <$> fleet ≡ₚ members.*1.

Lemma NoDup_members : distinct → NoDup (nv_node_id <$> (member_view <$> members)).
Proof. intros [Hnd _]. by rewrite <-list_fmap_compose. Qed.

Lemma count_runs key os :
  distinct → NoDup os → (∀ n, n ∈ os → n ∈ members.*1) →
  (∀ ns, ns ∈ fleet → runs_task key ns ↔ id_of ns ∈ os) →
  length (filter (runs_task key) fleet) = length os.
Proof.
  intros (Hnd & Hids) Hos Hsub Hruns.
  apply (length_filter_keys _ id_of); [done|by rewrite Hids| |done]. intros k Hk. rewrite Hids. auto.
Qed.

(** Shares make a whole: every service on as many nodes as configured. *)
Definition everything_runs (url : string) (svc : Service) : Prop :=
  let offering := length (filter (λ m, svc ∈ m.2) members) in
  let runners tgt := length (filter (runs_task (url, svc, tgt)) fleet) in
  (∀ db, databases !! url = Some db →
     let r := resolve config (Some db) in
     svc ∈ rs_services r →
     (svc ≠ Mirror → runners None = min (owner_count r svc) offering) ∧
     (svc = Mirror → 0 < offering → ∀ t, t ∈ applied_targets url (rs_mirror r) →
        runners (Some (at_name t)) = 1)) ∧
  (∀ tgt, 0 < runners tgt → ∃ db, databases !! url = Some db ∧
     svc ∈ rs_services (resolve config (Some db)) ∧
     (svc = Mirror ↔ is_Some tgt)).

Lemma shares_run_everything url svc :
  distinct → (∀ ns, ns ∈ fleet → runs_share ns) → everything_runs url svc.
Proof.
  clear utf8_error fingerprint cargo_pkg_version SLATEDB_VERSION. intros Hag Hshare. unfold everything_runs. cbv zeta.
  set (offering := length (filter (λ m, svc ∈ m.2) members)).
  set (runners := λ tgt, length (filter (runs_task (url, svc, tgt)) fleet)). split.
  - intros db Hdb Hsvc. set (r := resolve config (Some db)) in *.
    destruct (ranked_partition (member_view <$> members) url r svc (NoDup_members Hag)) as [Hone Htgt].
    assert (Hruns : ∀ tgt os, (∀ n, n ∈ os ↔ ranked_owner n (member_view <$> members) url r svc tgt) →
      NoDup os → runners tgt = length os).
    { intros tgt os Hos Hnd. apply count_runs; [done|done| |].
      - intros n Hn%Hos%ranked_owner_live. by rewrite <-list_fmap_compose in Hn.
      - intros ns Hns. etrans; [exact (Hshare ns Hns url svc tgt)|]. rewrite Hos. split; [|by exists db].
        intros (db' & Hdb' & _ & Ho). by simplify_eq. }
    split.
    + intros Hm. destruct (Hone Hm) as (os & Hnd & Hlen & Hos). unfold offering.
      rewrite <-length_candidates_members, <-Hlen. by apply Hruns.
    + intros Hm Hoff t Ht. destruct (Htgt Hm) with (t := t) as [o Ho]; [|done|].
      { intros Hnil. unfold offering in Hoff. rewrite <-length_candidates_members, Hnil in Hoff. simpl in Hoff. lia. }
      apply (Hruns _ [o]); [|by apply NoDup_singleton]. intros n. rewrite list_elem_of_singleton. apply Ho.
  - intros tgt Hrun. destruct (filter (runs_task (url, svc, tgt)) fleet) as [|ns l] eqn:E.
    { simpl in Hrun. lia. }
    assert (Hns : ns ∈ filter (runs_task (url, svc, tgt)) fleet) by (rewrite E; by left).
    apply list_elem_of_filter in Hns as [Hns Hin]. apply Hshare in Hns as (db & ? & ? & Ho); [|done].
    exists db. split_and!; [done|done|]. destruct tgt; simpl in Ho; split; try done; try tauto.
Qed.

(** The nodes agree on who is live and on the configuration. *)
Definition agreed : Prop :=
  distinct ∧
  ∀ ns, ns ∈ fleet → ∃ entries, ticked ns.1 ns.2 entries ∧
    roster <$> live_view entries (ns_state ns.2) ≡ₚ members ∧
    fs_config (ns_state ns.2) = config ∧ fs_databases (ns_state ns.2) = databases.
End fleet.

(** What ownership by a listing that shows [members] comes to. *)
Lemma owned_share n s entries members config databases key :
  no_node_id (nd_options n) ∈ members.*1 →
  roster <$> live_view entries (ns_state s) ≡ₚ members →
  fs_config (ns_state s) = config → fs_databases (ns_state s) = databases →
  ∀ r, owned n entries (ns_state s) !! key = Some r ↔
    let '(url, svc, tgt) := key in
    ∃ db, databases !! url = Some db ∧ r = resolve config (Some db) ∧ svc ∈ rs_services r ∧
      ranked_owner (no_node_id (nd_options n)) (member_view <$> members) url r svc tgt.
Proof.
  intros Hid Hr <- <- r. destruct key as [[url svc] tgt].
  assert (Hlive : no_node_id (nd_options n) ∈ nv_node_id <$> live_view entries (ns_state s)).
  { by rewrite node_ids_roster, Hr. }
  unfold owned. rewrite owned_live, owned_by_view_spec by done.
  assert (Hiff : ∀ rs, ranked_owner (no_node_id (nd_options n)) (live_view entries (ns_state s)) url rs svc tgt ↔
    ranked_owner (no_node_id (nd_options n)) (member_view <$> members) url rs svc tgt).
  { intros rs. by apply ranked_owner_candidates, candidates_members. }
  by setoid_rewrite Hiff.
Qed.

Lemma agreed_share fleet members config databases :
  agreed fleet members config databases → ∀ ns, ns ∈ fleet → runs_share members config databases ns.
Proof.
  intros [[_ Hids] Hag] ns Hin url svc tgt. destruct (Hag ns Hin) as (entries & Ht & Hr & Hc & Hd).
  unfold runs_task. rewrite <-(fmap_is_Some rt_fingerprint), <-(ticked_owned _ _ _ Ht), fmap_is_Some.
  pose proof (owned_share ns.1 ns.2 entries members config databases (url, svc, tgt)) as Hown.
  simpl in Hown. unfold is_Some. setoid_rewrite Hown; [|rewrite <-Hids; apply list_elem_of_fmap; eauto|done..].
  naive_solver.
Qed.

(** Nodes that agree on who is live and on the configuration together run
    everything, and nothing twice: once each of them has completed an
    iteration, every configured service of every registered database runs on
    exactly [min count offering] nodes, hence on exactly one for gc and the
    coordinator as soon as one live node offers it; every applied mirror
    target on exactly one; and whatever runs is configured. *)
Theorem fleet_runs_everything fleet members config databases url svc :
  agreed fleet members config databases → everything_runs fleet members config databases url svc.
Proof.
  intros Hag. apply shares_run_everything; [apply Hag|by apply agreed_share].
Qed.
End claims.

(** ** The task of an owned assignment *)
Section task_claims.
Context `{StoreLib, UrlLib, PercentLib, !ServiceLib}.

(** The [url] crate parses what it serialized; the canonical form only drops
    trailing slashes. *)
Definition reparses (u : string) : Prop :=
  ∀ c, canonicalize_database_url u = Ok c → ∃ p, url_parse c = Ok p.

Lemma open_total url : reparses url → is_Some (DatabaseHandle_open url).
Proof.
  intros Hp. unfold DatabaseHandle_open. destruct (canonicalize_database_url url) as [c|e] eqn:E; [|done].
  by destruct (Hp c) as [p ->].
Qed.

Lemma open_url url db : DatabaseHandle_open url = Some (Ok db) → dh_url db = url.
Proof.
  unfold DatabaseHandle_open. destruct (canonicalize_database_url url); [|done].
  destruct (url_parse _) as [p|]; [|done]. by destruct (store_parse_url p); intros [= <-].
Qed.

Lemma with_open_cases url k body :
  with_open url k = Some body →
  (∃ e, DatabaseHandle_open url = Some (Err e) ∧ body = OpenFails e) ∨
  (∃ db, DatabaseHandle_open url = Some (Ok db) ∧ dh_url db = url ∧ k db = Some body).
Proof.
  unfold with_open. intros ([db|e] & Ho & Hb)%bind_Some; [right; eauto using open_url|left].
  injection Hb as <-. eauto.
Qed.

Lemma with_open_total url k :
  reparses url → (∀ db, is_Some (k db)) → is_Some (with_open url k).
Proof.
  intros Hp Hk. unfold with_open. destruct (open_total url Hp) as [[db|e] ->]; simpl; [apply Hk|done].
Qed.

End task_claims.

(** ** Examples *)
Import Store.Concrete Registry.Concrete.
#[local] Existing Instance Poller.example_lib.
#[local] Instance example_services : ServiceLib := {|
  kind_is_fenced _ := false; StoreRoot := string; store_parse_url u := Ok (u_host u) |}.


(** Two nodes, each one iteration after it started. *)
Definition example_node (id : string) : Node := {|
  nd_options := with_services (NodeOptions_new None id) ALL;
  nd_object_name := object_name id ALL; nd_root := example_root; nd_mirror_jobs := 4 |}.
Definition beat_meta (id : string) : ObjectMeta :=
  {| location := ["fleet"; "nodes"; object_name id ALL]; last_modified := 0; size := 2; e_tag := None |}.
Definition fleet_reads : PollReads := example_reads EmptyString "c" EmptyString "t".
Definition example_tick : Tick := {|
  tk_states := ∅; tk_elapsed_at := 0; tk_reads := fleet_reads; tk_polled_at := 0;
  tk_nodes := Ok [beat_meta "n1"; beat_meta "n2"]; tk_now := 1; tk_finished _ := false |}.
Definition example_run (id : string) : option (NodeState * TickEffects) :=
  tick (λ b, b) (λ _, 7%N) "0.1" "0.14" (example_node id) (boot (λ b, b) (example_node id) fleet_reads 0) example_tick.

Lemma ticks_run_owned_witness :
  match example_run "n1" with
  | Some (s, e) => ns_state s = (poll (λ b, b) example_root fleet_reads ConfigPoller_default).2 ∧
                   (0 < te_sleep e < heartbeat_timeout (node_config s))%N
  | None => False
  end.
Proof.
  destruct (example_run "n1") as [[s e]|] eqn:E; [|discriminate E].
  destruct (ticks_run_owned (λ b, b) (λ _, 7%N) "0.1" "0.14" (example_node "n1") fleet_reads 0 [] example_tick
    _ s e eq_refl E) as (_ & Hs & Hst & _).
  split; [|exact Hs]. rewrite Hst. reflexivity.
Defined.

Definition state_of (id : string) : NodeState :=
  match example_run id with Some (s, _) => s | None => boot (λ b, b) (example_node id) fleet_reads 0 end.
Definition example_fleet : list (Node * NodeState) :=
  [(example_node "n1", state_of "n1"); (example_node "n2", state_of "n2")].

Lemma example_ticked id :
  is_Some (example_run id) →
  ticked (λ b, b) (λ _, 7%N) "0.1" "0.14" (example_node id) (state_of id)
    (omap (heartbeat_entry 1) [beat_meta "n1"; beat_meta "n2"]).
Proof.
  intros [[s e] E]. exists fleet_reads, 0%Z, [], (boot (λ b, b) (example_node id) fleet_reads 0), example_tick, e.
  unfold state_of. rewrite E. split; [reflexivity|]. split; [exact E|reflexivity].
Qed.

Lemma fleet_runs_everything_witness :
  length (filter (runs_task ("s3://b/db", Gc, None)) example_fleet) = 1.
Proof.
  destruct (fleet_runs_everything (λ b, b) (λ _, 7%N) "0.1" "0.14" example_fleet [("n1", ALL); ("n2", ALL)]
    SleetConfig_default {[ "s3://b/db" := DatabaseConfig_default ]} "s3://b/db" Gc) as [Hrun _].
  - split; [split; [apply (bool_decide_unpack _); vm_compute; constructor|reflexivity]|].
    intros ns [->|[->|[]%elem_of_nil]%elem_of_cons]%elem_of_cons;
      (eexists; split; [apply example_ticked; vm_compute; eexists; reflexivity|];
       split; [apply reflexive_eq; vm_compute; reflexivity|split; vm_compute; reflexivity]).
  - refine (proj1 (Hrun DatabaseConfig_default _ _) _); [vm_compute; reflexivity| |discriminate].
    apply (bool_decide_unpack _). vm_compute. constructor.
Defined.
