(* ===== verification/Cluster.v ===== *)
(** * The cluster: nodes, their heartbeats and time

    The nodes of [Node] around the objects under [nodes/]: heartbeats appear
    when a node PUTs one, age while time passes, and go when a node's
    housekeeping or shutdown deletes them; nodes join, crash and stop.  An
    [Event] is one such step, and any interleaving of them is a run.  What
    polls read is a parameter of the runs: here the configuration under the
    root does not change ([Reconfigure] lets it); the store may fail any
    single call.

    The theorem is the point of the protocol: without a leader and without
    the nodes talking to each other, once no node has come or gone for
    [heartbeat_timeout] and each has listed [nodes/] once more, every service
    runs exactly as often as configured, and stays that way. *)

From Stdlib Require Import Ascii.
From S2P Require Import Prelude Order Text Service Placement Heartbeat Store Root.
From S2P Require Import Registry Config Validate Targets Poller Caching Daemon Supervise Services Node.

Section cluster.
Context `{StoreLib, UrlLib, PercentLib, !ConfigLib}.
Context (utf8_error : string → string) (fingerprint : ResolvedServices → N).
Context (cargo_pkg_version SLATEDB_VERSION : string).
#[local] Abbreviation tick := (tick utf8_error fingerprint cargo_pkg_version SLATEDB_VERSION).
#[local] Abbreviation put_heartbeat := (put_heartbeat cargo_pkg_version SLATEDB_VERSION).

Context (root : FleetRoot).

Record Cluster := {
  cl_now : Instant;
  (** The objects under [nodes/], with their modification times. *)
  cl_beats : gmap StorePath Instant;
  cl_fleet : list (Node * NodeState);
  (** DELETEs that were issued and have not landed. *)
  cl_deletes : list StorePath;
}.

(** What the store may answer to a LIST of [nodes/]. *)
Definition listing (c : Cluster) (answer : Result StoreError (list ObjectMeta)) : Prop :=
  match answer with
  | Ok metas => (λ m, (location m, last_modified m)) <$> metas ≡ₚ map_to_list (cl_beats c)
  | Err e => not_missing e ∨ cl_beats c = ∅
  end.

Inductive Event :=
  | Waits (now : Instant)
  | Beats (i : nat) (states : TaskStates)
  | Iterates (i : nat) (t : Tick)
  | Deletes (path : StorePath)
  | Joins (options : NodeOptions)
  | Crashes (i : nat)
  | Stops (i : nat)
  | Strays (path : StorePath).

(** Nobody comes or goes. *)
Definition quiet (e : Event) : bool :=
  match e with Joins _ | Crashes _ | Stops _ | Strays _ => false | _ => true end.

Definition set_beats (c : Cluster) (beats : gmap StorePath Instant) : Cluster :=
  {| cl_now := cl_now c; cl_beats := beats; cl_fleet := cl_fleet c; cl_deletes := cl_deletes c |}.
Definition set_fleet (c : Cluster) (fleet : list (Node * NodeState)) : Cluster :=
  {| cl_now := cl_now c; cl_beats := cl_beats c; cl_fleet := fleet; cl_deletes := cl_deletes c |}.

(** What a poll may read, what a starting node's first one does, and how far
    time may pass. *)
Section events.
Context {answers boots : PollReads → Prop} {timely : Cluster → Instant → Prop}.

Inductive happens : Cluster → Event → Cluster → Prop :=
  | ev_wait c now : (cl_now c ≤ now)%Z → timely c now →
      happens c (Waits now)
        {| cl_now := now; cl_beats := cl_beats c; cl_fleet := cl_fleet c; cl_deletes := cl_deletes c |}
  (** A node's PUT of its heartbeat lands. *)
  | ev_beat c i n s states : cl_fleet c !! i = Some (n, s) →
      happens c (Beats i states) (set_beats c (<[(put_heartbeat n states).1 := cl_now c]> (cl_beats c)))
  (** A node's iteration: it polls if that is due, lists, and follows. *)
  | ev_iterate c i n s t s' e : cl_fleet c !! i = Some (n, s) → tick n s t = Some (s', e) →
      tk_now t = cl_now c → answers (tk_reads t) → listing c (tk_nodes t) →
      happens c (Iterates i t)
        {| cl_now := cl_now c; cl_beats := cl_beats c; cl_fleet := <[i := (n, s')]> (cl_fleet c);
           cl_deletes := cl_deletes c ++ te_delete e |}
  (** A DELETE lands. *)
  | ev_delete c path l1 l2 : cl_deletes c = l1 ++ path :: l2 →
      happens c (Deletes path)
        {| cl_now := cl_now c; cl_beats := delete path (cl_beats c); cl_fleet := cl_fleet c;
           cl_deletes := l1 ++ l2 |}
  (** A node starts: it polls the root and its first PUT lands.  Its id is
      not in use, and no DELETE of its heartbeat's name is under way. *)
  | ev_join c options n first : start root options = Ok n → boots first →
      no_node_id options ∉ id_of <$> cl_fleet c → own_path n ∉ cl_deletes c →
      happens c (Joins options)
        {| cl_now := cl_now c; cl_beats := <[own_path n := cl_now c]> (cl_beats c);
           cl_fleet := cl_fleet c ++ [(n, boot utf8_error n first (cl_now c))]; cl_deletes := cl_deletes c |}
  (** A node dies, and its heartbeat stays. *)
  | ev_crash c i : happens c (Crashes i) (set_fleet c (delete i (cl_fleet c)))
  (** A node shuts down and its heartbeat's DELETE lands. *)
  | ev_stop c i n s : cl_fleet c !! i = Some (n, s) →
      happens c (Stops i)
        {| cl_now := cl_now c; cl_beats := delete (shutdown n s).2 (cl_beats c);
           cl_fleet := delete i (cl_fleet c); cl_deletes := cl_deletes c |}
  (** A PUT lands that was under way when its node died, or any other. *)
  | ev_stray c path : happens c (Strays path) (set_beats c (<[path := cl_now c]> (cl_beats c))).

Inductive unfolds : Cluster → list Event → Cluster → Prop :=
  | run_nil c : unfolds c [] c
  | run_cons c1 e c2 es c3 : happens c1 e c2 → unfolds c2 es c3 → unfolds c1 (e :: es) c3.

Lemma quiet_nodes c e c' : happens c e c' → quiet e = true → (cl_fleet c').*1 = (cl_fleet c).*1.
Proof.
  intros Hev Hq. destruct Hev as [c|c|c i n s t s' e Hi|c|c|c|c|c]; try done. simpl.
  rewrite list_fmap_insert, list_insert_id; [done|]. by rewrite list_lookup_fmap, Hi.
Qed.

Lemma event_now c e c' : happens c e c' → (cl_now c ≤ cl_now c')%Z.
Proof. by intros []. Qed.

Lemma run_now c es c' : unfolds c es c' → (cl_now c ≤ cl_now c')%Z.
Proof. induction 1 as [|c1 e c2 es c3 He _ IH]; [lia|]. pose proof (event_now _ _ _ He). lia. Qed.

Lemma run_app c1 es1 c2 es2 c3 : unfolds c1 es1 c2 → unfolds c2 es2 c3 → unfolds c1 (es1 ++ es2) c3.
Proof. induction 1; simpl; [done|]. intros. eapply run_cons; eauto. Qed.

Lemma run_one c e c' : happens c e c' → unfolds c [e] c'.
Proof. intros He. eapply run_cons; [exact He|apply run_nil]. Qed.

(** The nodes PUT their heartbeats, one after the other. *)
Lemma all_beat c k :
  k ≤ length (cl_fleet c) →
  ∃ es c', unfolds c es c' ∧ Forall (λ e, quiet e = true) es ∧
    cl_now c' = cl_now c ∧ cl_fleet c' = cl_fleet c ∧ cl_deletes c' = cl_deletes c ∧
    ∀ i ns, i < k → cl_fleet c !! i = Some ns → cl_beats c' !! own_path ns.1 = Some (cl_now c).
Proof.
  induction k as [|k IH]; intros Hk.
  - exists [], c. split; [apply run_nil|]. split_and!; [done..|]. intros; lia.
  - destruct IH as (es & c' & Hr & Hq & Hnow & Hf & Hd & Hb); [lia|].
    destruct (lookup_lt_is_Some_2 (cl_fleet c) k ltac:(lia)) as [[n s] Hn].
    exists (es ++ [Beats k ∅]), (set_beats c' (<[own_path n := cl_now c']> (cl_beats c'))). split_and!; simpl; try done.
    + eapply run_app; [exact Hr|]. apply run_one.
      apply ev_beat with (n := n) (s := s). by rewrite Hf.
    + apply Forall_app. by repeat constructor.
    + intros i ns Hi Hns. destruct (decide (own_path n = own_path ns.1)) as [->|Hne].
      * by rewrite lookup_insert_eq, Hnow.
      * rewrite lookup_insert_ne by done. apply (Hb i); [|done].
        destruct (decide (i = k)) as [->|]; [|lia]. rewrite Hn in Hns. by injection Hns as <-.
Qed.

End events.

(** A root that no node runs for yet, with whatever objects and DELETEs
    earlier ones left. *)
Definition vacant (c : Cluster) : Prop :=
  cl_fleet c = [] ∧ map_Forall (λ _ m, (m ≤ cl_now c)%Z) (cl_beats c).

(** ** A settled configuration *)

(** What a poll of the root reads: a node that starts reads it, a running one
    may fail to, and time passes no longer than running nodes take to renew. *)
Context (reads : PollReads).
Definition published_state : FleetState := (poll utf8_error root reads ConfigPoller_default).2.
Definition timeout : Duration := heartbeat_timeout (cfg_node (fs_config published_state)).

(** Every running node has a heartbeat younger than the timeout at [now]. *)
Definition renewed (c : Cluster) (now : Instant) : Prop :=
  ∀ ns, ns ∈ cl_fleet c → ∃ m, cl_beats c !! own_path ns.1 = Some m ∧ (now - m < Z.of_N timeout)%Z.

#[local] Abbreviation event := (happens (answers := partial reads) (boots := eq reads) (timely := renewed)).
#[local] Abbreviation run := (unfolds (answers := partial reads) (boots := eq reads) (timely := renewed)).

(** ** The calm invariant *)

(** What holds in every run: ids are distinct; every node is up to date with
    the root and its heartbeat is fresh, and nobody is about to delete it. *)
Context (body_of : string → string) (config : SleetConfig) (metas : list ObjectMeta).
Context (Hco : coherent body_of reads) (Hpub : published utf8_error reads config metas).
(** The last segment of a path is the one joined to it. *)
Context (Hjoin : ∀ dir name, "/"%char ∉ bytes name → filename (path_join dir name) = Some name).

#[local] Abbreviation current := (current utf8_error body_of reads config metas).

Definition well_started (n : Node) : Prop := ∃ options, start root options = Ok n.
Definition up_to_date (s : NodeState) : Prop := node_inv s ∧ current (ns_poller s).

Record calm (c : Cluster) : Prop := {
  ca_ids : NoDup (id_of <$> cl_fleet c);
  ca_nodes : Forall (λ ns, well_started ns.1 ∧ up_to_date ns.2) (cl_fleet c);
  ca_fresh : renewed c (cl_now c);
  ca_past : map_Forall (λ _ m, (m ≤ cl_now c)%Z) (cl_beats c);
  ca_deletes : ∀ ns, ns ∈ cl_fleet c → own_path ns.1 ∉ cl_deletes c;
}.

Lemma started n options :
  start root options = Ok n →
  nd_options n = options ∧ nd_root n = root ∧ no_node_id options ≠ EmptyString ∧
  filename (own_path n) = Some (object_name (no_node_id options) (no_services options)).
Proof.
  unfold start. intros (id & Hid & [= <-])%result_bind_ok. do 2 (split; [done|]).
  apply validate_node_id_spec in Hid as (_ & Hlen & _ & _ & _ & Hname). split.
  - intros E. rewrite E in Hlen. simpl in Hlen. lia.
  - apply Hjoin, Hname.
Qed.

(** A heartbeat's path tells whose it is. *)
Lemma own_path_inj n1 n2 :
  well_started n1 → well_started n2 → own_path n1 = own_path n2 →
  no_node_id (nd_options n1) = no_node_id (nd_options n2).
Proof.
  intros [o1 (-> & _ & Hid1 & Hf1)%started] [o2 (-> & _ & Hid2 & Hf2)%started] E.
  rewrite E, Hf2 in Hf1. injection Hf1 as Hn.
  pose proof (parse_object_name_own (no_node_id o1) (no_services o1) Hid1) as P1.
  rewrite <-Hn, parse_object_name_own in P1 by done. by injection P1.
Qed.

Lemma up_to_date_state s :
  up_to_date s →
  fs_config (ns_state s) = fs_config (published_state) ∧
  fs_databases (ns_state s) = fs_databases (published_state).
Proof.
  intros [(_ & _ & -> & ->) Hc]. unfold published_state.
  destruct (poll_state utf8_error root reads ConfigPoller_default) as [-> ->].
  eapply current_unique; [exact Hc|]. apply poll_current; [done..|apply honest_default].
Qed.

Lemma boot_up_to_date n now : nd_root n = root → up_to_date (boot utf8_error n reads now).
Proof.
  intros Hr. split; [apply boot_inv|]. unfold boot.
  pose proof (poll_current utf8_error body_of reads config metas Hco Hpub (nd_root n) _
    (honest_default utf8_error body_of)) as Hc.
  by destruct (poll _ _ _ _).
Qed.

Lemma refresh_up_to_date n s t :
  up_to_date s → partial reads (tk_reads t) → up_to_date (refresh utf8_error n s t).
Proof.
  intros [Hi Hc] Hpa. split; [by apply refresh_inv|]. unfold refresh. destruct (poll_due _ _); [|done].
  pose proof (poll_stays_current utf8_error body_of reads config metas Hco Hpub (nd_root n) (tk_reads t) _ Hpa Hc) as Hc'.
  by destruct (poll _ _ _ _).
Qed.

Lemma tick_poller n s t s' e : tick n s t = Some (s', e) → ns_poller s' = ns_poller (refresh utf8_error n s t).
Proof.
  intros ([[s1 dels] cancelled] & Hfo & [= <- <-])%bind_Some.
  unfold follow in Hfo. destruct (list_heartbeats _ _); [|by injection Hfo as <-].
  by apply bind_Some in Hfo as (? & _ & [= <-]).
Qed.

Lemma tick_up_to_date n s t s' e :
  up_to_date s → partial reads (tk_reads t) → tick n s t = Some (s', e) →
  up_to_date s' ∧ followed fingerprint n t s s' (te_cancel e).
Proof.
  intros Hup Hpa Ht. destruct (tick_spec _ _ _ _ _ _ _ _ _ (proj1 Hup) Ht) as (Hi' & _ & _ & Hf).
  split; [|done]. split; [done|]. rewrite (tick_poller _ _ _ _ _ Ht). by apply refresh_up_to_date.
Qed.

(** ** What a listing shows *)

(** The entry a reader at [now] gets from the object at [path]. *)
Definition entry_of (now : Instant) (path : StorePath) (modified : Instant) (e : HeartbeatEntry) : Prop :=
  he_location e = path ∧ he_age e = to_age now modified ∧
  ∃ name, filename path = Some name ∧ parse_object_name name = Some (he_node_id e, he_services e).

Lemma listed_entries c now answer entries e :
  listing c answer → list_heartbeats now answer = Ok entries →
  e ∈ entries ↔ ∃ path m, cl_beats c !! path = Some m ∧ entry_of now path m e.
Proof.
  intros Hl He.
  assert (∃ ms, entries = omap (heartbeat_entry now) ms ∧
    (λ m, (location m, last_modified m)) <$> ms ≡ₚ map_to_list (cl_beats c)) as (ms & -> & Hms).
  { unfold list_heartbeats in He. destruct answer as [ms|err]; simpl in *; [injection He as <-; eauto|].
    destruct err; [|done..]. injection He as <-. exists []. split; [done|].
    destruct Hl as [[]|Hl]. by rewrite Hl, map_to_list_empty. }
  rewrite list_elem_of_omap. unfold entry_of, heartbeat_entry. split.
  - intros (m & Hm & (name & Hn & ([id svcs] & Hp & [= <-])%bind_Some)%bind_Some).
    exists (location m), (last_modified m). split; [|simpl; eauto].
    apply elem_of_map_to_list. rewrite <-Hms. apply list_elem_of_fmap. eauto.
  - intros (path & mt & Hb%elem_of_map_to_list & Hloc & Hage & name & Hn & Hp).
    rewrite <-Hms in Hb. apply list_elem_of_fmap in Hb as (m & [= -> ->] & Hm). exists m. split; [done|].
    rewrite Hn. simpl. rewrite Hp. simpl. destruct e; simpl in *. by subst.
Qed.

(** The services a node's name offers, as readers decode them. *)
Definition own_services (n : Node) : list Service :=
  services_of_letters (of_bytes (service_letters (no_services (nd_options n)))).

Lemma own_entry now n m e :
  well_started n → entry_of now (own_path n) m e ↔
  e = {| he_node_id := no_node_id (nd_options n); he_services := own_services n;
         he_age := to_age now m; he_location := own_path n |}.
Proof.
  intros [o (Eo & _ & Hid & Hf)%started]. unfold entry_of, own_services. rewrite Hf. split.
  - intros (Hloc & Hage & name & [= <-] & Hp). rewrite parse_object_name_own in Hp by done.
    injection Hp as Hi Hs. destruct e; simpl in *. by subst.
  - intros ->. simpl. split_and!; [done|done|]. eexists. split; [done|].
    rewrite parse_object_name_own by done. by rewrite Eo.
Qed.

Lemma fresh_age c ns m :
  calm c → ns ∈ cl_fleet c → cl_beats c !! own_path ns.1 = Some m → (to_age (cl_now c) m < timeout)%N.
Proof.
  intros Hc Hns Hm. destruct (ca_fresh _ Hc ns Hns) as (m' & Hm' & Hlt). simplify_eq.
  pose proof (ca_past _ Hc _ _ Hm) as Hle. simpl in Hle. pose proof (to_age_Z (cl_now c) m). lia.
Qed.

Lemma calm_node c ns : calm c → ns ∈ cl_fleet c → well_started ns.1 ∧ up_to_date ns.2.
Proof. intros Hc Hns. by pose proof (proj1 (Forall_forall _ _) (ca_nodes _ Hc) ns Hns). Qed.

(** Ids identify nodes, hence paths do. *)
Lemma calm_path_inj c ns1 ns2 :
  calm c → ns1 ∈ cl_fleet c → ns2 ∈ cl_fleet c → own_path ns1.1 = own_path ns2.1 → id_of ns1 = id_of ns2.
Proof. intros Hc H1' H2' E. apply own_path_inj; [by eapply calm_node..|done]. Qed.
Lemma calm_id_inj c ns1 ns2 :
  calm c → ns1 ∈ cl_fleet c → ns2 ∈ cl_fleet c → id_of ns1 = id_of ns2 → ns1 = ns2.
Proof.
  intros Hc [i Hi]%list_elem_of_lookup [j Hj]%list_elem_of_lookup E.
  assert (i = j) as ->; [|congruence].
  eapply (NoDup_lookup (id_of <$> cl_fleet c)); [apply Hc|by rewrite list_lookup_fmap, Hi|by rewrite list_lookup_fmap, Hj, E].
Qed.

(** An up-to-date node's housekeeping deletes no running node's heartbeat. *)
Lemma tick_deletes c n s t s' e ns :
  calm c → (n, s) ∈ cl_fleet c → partial reads (tk_reads t) → tk_now t = cl_now c → listing c (tk_nodes t) →
  tick n s t = Some (s', e) → ns ∈ cl_fleet c → own_path ns.1 ∉ te_delete e.
Proof.
  intros Hc Hin Hpa Hnow Hl Ht Hns Hd. destruct (calm_node _ _ Hc Hin) as [_ Hup].
  destruct (tick_up_to_date _ _ _ _ _ Hup Hpa Ht) as [Hup' _].
  apply bind_Some in Ht as ([[s1 dels] cancelled] & Hf & [= <- <-]). simpl in *.
  unfold follow in Hf. destruct (list_heartbeats _ _) as [entries|] eqn:El; cycle 1.
  { injection Hf as <- <- <-. by apply elem_of_nil in Hd. }
  apply bind_Some in Hf as (dels' & Hh & [= <- <- <-]). rewrite Hnow in El.
  assert (Hto : heartbeat_timeout (node_config (refresh utf8_error n s t)) = timeout).
  { unfold timeout. rewrite <-(proj1 (up_to_date_state _ Hup')). done. }
  rewrite Hto in Hh. apply (elem_of_housekeeping _ _ _ _ _ _ Hh) in Hd as (x & Hx & Hloc & Hcase).
  rewrite (listed_entries _ _ _ _ _ Hl El) in Hx. destruct Hx as (path & m & Hm & Hent).
  assert (path = own_path ns.1) as -> by (by destruct Hent as [<- _]).
  destruct (calm_node _ _ Hc Hns) as [Hstart _]. apply own_entry in Hent as ->; [|done]. simpl in *.
  destruct Hcase as [[Hid Hne]|Hold].
  - assert (E : ns = (n, s)) by (by apply (calm_id_inj c)). by subst ns.
  - pose proof (fresh_age _ _ _ Hc Hns Hm). lia.
Qed.

(** ** Calm is kept *)
Lemma elem_of_update_fleet {A} (l : list A) i x y : y ∈ <[i := x]> l → y = x ∨ y ∈ l.
Proof.
  intros (j & Hj)%list_elem_of_lookup. apply list_lookup_insert_Some in Hj as [(_ & -> & _)|[_ Hj]]; [by left|].
  right. by eapply list_elem_of_lookup_2.
Qed.

Lemma timeout_pos : (0 < timeout)%N.
Proof.
  pose proof (poll_ok utf8_error root reads _ poller_ok_default) as (Hv & _).
  unfold timeout, published_state. rewrite (proj1 (poll_state _ _ _ _)).
  apply validate_iff in Hv as [[? _] _]. lia.
Qed.

(** A PUT refreshes one heartbeat and ages none. *)
Lemma renewed_put c path (ns : Node * NodeState) :
  (∃ m, cl_beats c !! own_path ns.1 = Some m ∧ (cl_now c - m < Z.of_N timeout)%Z) ∨ own_path ns.1 = path →
  ∃ m, <[path := cl_now c]> (cl_beats c) !! own_path ns.1 = Some m ∧ (cl_now c - m < Z.of_N timeout)%Z.
Proof.
  pose proof timeout_pos. intros Hor. destruct (decide (path = own_path ns.1)) as [->|Hne].
  - rewrite lookup_insert_eq. eexists. split; [done|lia].
  - rewrite lookup_insert_ne by done. destruct Hor as [Hor|Hor]; [exact Hor|congruence].
Qed.

Lemma past_put c path :
  map_Forall (λ _ m, (m ≤ cl_now c)%Z) (cl_beats c) →
  map_Forall (λ _ m, (m ≤ cl_now c)%Z) (<[path := cl_now c]> (cl_beats c)).
Proof. intros. by apply map_Forall_insert_2. Qed.

Lemma calm_put c path : calm c → calm (set_beats c (<[path := cl_now c]> (cl_beats c))).
Proof.
  intros Hc. split; simpl; try apply Hc; [|by apply past_put, Hc].
  intros ns Hns. apply renewed_put. left. by apply (ca_fresh _ Hc).
Qed.

(** Losing nodes, heartbeats that are nobody's, and DELETEs done. *)
Lemma calm_less c beats fleet deletes :
  calm c → fleet `sublist_of` cl_fleet c → beats ⊆ cl_beats c →
  (∀ ns, ns ∈ fleet → beats !! own_path ns.1 = cl_beats c !! own_path ns.1) →
  (∀ p, p ∈ deletes → p ∈ cl_deletes c) →
  calm {| cl_now := cl_now c; cl_beats := beats; cl_fleet := fleet; cl_deletes := deletes |}.
Proof.
  intros Hc Hsub Hb Hown Hd.
  assert (Hin : ∀ ns, ns ∈ fleet → ns ∈ cl_fleet c) by (intros; by eapply elem_of_sublist).
  split; simpl.
  - eapply sublist_NoDup; [apply Hc|by apply fmap_sublist].
  - apply Forall_forall. intros ns Hns. by eapply calm_node, Hin.
  - intros ns Hns. simpl. rewrite Hown by done. by apply (ca_fresh _ Hc), Hin.
  - intros path m Hm. apply (ca_past _ Hc path). by eapply lookup_weaken.
  - intros ns Hns ?%Hd. by eapply (ca_deletes _ Hc); [apply Hin|].
Qed.

Lemma calm_iterate c i n s t s' e :
  calm c → cl_fleet c !! i = Some (n, s) → tick n s t = Some (s', e) →
  tk_now t = cl_now c → partial reads (tk_reads t) → listing c (tk_nodes t) →
  calm {| cl_now := cl_now c; cl_beats := cl_beats c; cl_fleet := <[i := (n, s')]> (cl_fleet c);
          cl_deletes := cl_deletes c ++ te_delete e |}.
Proof.
  intros Hc Hi Ht Hnow Hpa Hl. pose proof (list_elem_of_lookup_2 _ _ _ Hi) as Hin.
  destruct (calm_node _ _ Hc Hin) as [Hstart Hup].
  destruct (tick_up_to_date _ _ _ _ _ Hup Hpa Ht) as [Hup' _].
  assert (Hold : ∀ ns, ns ∈ <[i := (n, s')]> (cl_fleet c) → ∃ ns0, ns0 ∈ cl_fleet c ∧ ns0.1 = ns.1).
  { intros ns [->|Hns]%elem_of_update_fleet; eauto. }
  split; simpl; try apply Hc.
  - rewrite list_fmap_insert. rewrite list_insert_id; [apply Hc|]. by rewrite list_lookup_fmap, Hi.
  - apply Forall_forall. intros ns [->|Hns]%elem_of_update_fleet; [done|by eapply calm_node].
  - intros ns (ns0 & Hns & <-)%Hold. by apply (ca_fresh _ Hc).
  - intros ns (ns0 & Hns & <-)%Hold [Hd|Hd]%elem_of_app; [by eapply (ca_deletes _ Hc)|].
    by eapply tick_deletes.
Qed.

Lemma calm_event c e c' : calm c → event c e c' → calm c'.
Proof.
  intros Hc Hev.
  destruct Hev as [c now Hle Hr|c i n s states Hi|c i n s t s' e Hi Ht Hnow Hpa Hl|c path l1 l2 Hdel
    |c options n first Hs <- Hfresh Hnd|c i|c i n s Hi|c path].
  - (* Waits *) split; simpl; try apply Hc; [done|].
    eapply map_Forall_impl; [apply Hc|]. simpl. intros; lia.
  - (* Beats *) by apply calm_put.
  - (* Iterates *) by eapply calm_iterate.
  - (* Deletes *) apply calm_less; [done|done|apply delete_subseteq| |rewrite Hdel; set_solver].
    intros ns Hns. apply lookup_delete_ne. intros ->. apply (ca_deletes _ Hc _ Hns). rewrite Hdel. set_solver.
  - (* Joins *) destruct (started _ _ Hs) as (Eo & Er & _). split; simpl.
    + rewrite fmap_app. apply NoDup_app. split_and!; [apply Hc| |apply NoDup_singleton].
      intros id Hid ->%list_elem_of_singleton. change (no_node_id (nd_options n) ∈ id_of <$> cl_fleet c) in Hid.
      by rewrite Eo in Hid.
    + apply Forall_app. split; [apply Hc|]. constructor; [|constructor]. split; [by eexists|].
      by apply boot_up_to_date.
    + intros ns [Hns| ->%list_elem_of_singleton]%elem_of_app; apply renewed_put; [left|by right].
      by apply (ca_fresh _ Hc).
    + by apply past_put, Hc.
    + intros ns [Hns| ->%list_elem_of_singleton]%elem_of_app; [by apply (ca_deletes _ Hc)|done].
  - (* Crashes *) apply calm_less; try done. apply sublist_delete.
  - (* Stops *) apply calm_less; [done|apply sublist_delete|apply delete_subseteq| |done].
    intros ns Hns. apply lookup_delete_ne. simpl. intros E.
    pose proof (ca_ids _ Hc) as Hnd. rewrite (delete_Permutation _ _ _ Hi) in Hnd.
    apply NoDup_cons in Hnd as [Hnew _]. apply Hnew, list_elem_of_fmap. exists ns. split; [|done].
    eapply (calm_path_inj c (n, s) ns Hc); [by eapply list_elem_of_lookup_2| |done].
    eapply elem_of_sublist; [exact Hns|apply sublist_delete].
  - (* Strays *) by apply calm_put.
Qed.

(** ** Quiet runs *)

(** Only running nodes have written a heartbeat since [t0]. *)
Definition quiet_since (t0 : Instant) (c : Cluster) : Prop :=
  ∀ path m, cl_beats c !! path = Some m → (m ≤ t0)%Z ∨ path ∈ own_path <$> (cl_fleet c).*1.

Lemma quiet_since_now c : calm c → quiet_since (cl_now c) c.
Proof. intros Hc path m Hm. left. by apply (ca_past _ Hc path). Qed.

Lemma quiet_since_event t0 c e c' :
  quiet_since t0 c → event c e c' → quiet e = true → quiet_since t0 c'.
Proof.
  intros Hs Hev Hq path m Hm. rewrite (quiet_nodes _ _ _ Hev Hq).
  destruct Hev as [c now|c i n s states Hi|c i n s t s' e|c path' l1 l2| | | |]; simpl in *; try done; [by apply Hs| |by apply Hs|].
  - apply lookup_insert_Some in Hm as [[<- _]|[_ Hm]]; [right|by apply Hs].
    apply list_elem_of_fmap. exists n. split; [done|]. apply list_elem_of_fmap. exists (n, s).
    split; [done|]. by eapply list_elem_of_lookup_2.
  - apply lookup_delete_Some in Hm as [_ Hm]. by apply Hs.
Qed.

(** The nodes of the cluster as readers see them. *)
Definition members (c : Cluster) : list (string * list Service) :=
  (λ n, (no_node_id (nd_options n), own_services n)) <$> (cl_fleet c).*1.

Lemma members_ids c : (members c).*1 = id_of <$> cl_fleet c.
Proof. unfold members. by rewrite <-!list_fmap_compose. Qed.

(** Once the others' heartbeats have run out, every listing shows exactly the
    running nodes and what they offer. *)
Lemma live_roster c t0 answer entries :
  calm c → quiet_since t0 c → (t0 + Z.of_N timeout ≤ cl_now c)%Z →
  listing c answer → list_heartbeats (cl_now c) answer = Ok entries →
  roster <$> node_view entries timeout ≡ₚ members c.
Proof.
  intros Hc Hq Ht Hl He.
  assert (Hyoung : ∀ e, e ∈ entries → (he_age e < timeout)%N →
    ∃ ns, ns ∈ cl_fleet c ∧ he_node_id e = id_of ns ∧ he_services e = own_services ns.1).
  { intros e Hin Hage. apply (listed_entries _ _ _ _ _ Hl He) in Hin as (path & m & Hm & Hent).
    destruct (Hq _ _ Hm) as [Hold|Hown].
    - destruct Hent as (_ & Ha & _). pose proof (to_age_Z (cl_now c) m). lia.
    - apply list_elem_of_fmap in Hown as (n & -> & (ns & -> & Hns)%list_elem_of_fmap).
      exists ns. split; [done|]. destruct (calm_node _ _ Hc Hns) as [Hst _]. by apply own_entry in Hent as ->. }
  apply NoDup_Permutation.
  - apply (NoDup_fmap_1 fst). rewrite <-node_ids_roster. apply NoDup_view_ids.
  - apply (NoDup_fmap_1 fst). rewrite members_ids. apply Hc.
  - intros [id svcs]. unfold members. rewrite !list_elem_of_fmap. setoid_rewrite elem_of_node_view. split.
    + intros (v & Hv & e & Hrep & Hage & ->). unfold roster in Hv. simpl in Hv. injection Hv as -> ->.
      destruct (Hyoung e (represents_elem _ _ Hrep) Hage) as (ns & Hns & -> & ->).
      exists ns.1. split; [done|]. apply list_elem_of_fmap. eauto.
    + intros (n & [= -> ->] & (ns & -> & Hns)%list_elem_of_fmap).
      destruct (ca_fresh _ Hc ns Hns) as (m & Hm & _).
      destruct (calm_node _ _ Hc Hns) as [Hst _].
      pose proof (proj2 (own_entry (cl_now c) ns.1 m _ Hst) eq_refl) as Hent.
      assert (Hin := proj2 (listed_entries _ _ _ _ _ Hl He) (ex_intro _ _ (ex_intro _ _ (conj Hm Hent)))).
      pose proof (youngest_per_node_spec entries (no_node_id (nd_options ns.1))) as Hy.
      destruct (youngest_per_node _ !! _) as [e0|]; [|by destruct (Hy _ Hin)]. destruct Hy as [Hid Hrep].
      pose proof (represents_youngest _ _ _ Hrep Hin (eq_sym Hid)) as Hle. simpl in Hle.
      pose proof (fresh_age _ _ _ Hc Hns Hm) as Hfr.
      destruct (Hyoung e0 (represents_elem _ _ Hrep) ltac:(lia)) as (ns' & Hns' & Hid' & Hsv).
      assert (ns' = ns) as -> by (apply (calm_id_inj c); [done..|unfold id_of in *; congruence]).
      exists (entry_view e0). split; [unfold roster; simpl; by rewrite Hid, Hsv|]. exists e0. split; [done|]. split; [lia|done].
Qed.

(** A node runs its share of the cluster's work, with the settings published. *)
Definition placed (ms : list (string * list Service)) (ns : Node * NodeState) : Prop :=
  runs_share ms (fs_config published_state) (fs_databases published_state) ns ∧
  ∀ url svc tgt task, ns_tasks ns.2 !! (url, svc, tgt) = Some task →
    ∃ db, fs_databases published_state !! url = Some db ∧
      rt_fingerprint task = fingerprint (resolve (fs_config published_state) (Some db)).

Lemma tick_places c t0 i n s t s' e :
  calm c → quiet_since t0 c → (t0 + Z.of_N timeout ≤ cl_now c)%Z →
  cl_fleet c !! i = Some (n, s) → tick n s t = Some (s', e) →
  tk_now t = cl_now c → partial reads (tk_reads t) → listing c (tk_nodes t) →
  if is_ok (list_heartbeats (tk_now t) (tk_nodes t)) then placed (members c) (n, s')
  else ns_tasks s' = ns_tasks s.
Proof.
  intros Hc Hq Hto Hi Ht Hnow Hpa Hl. pose proof (list_elem_of_lookup_2 _ _ _ Hi) as Hin.
  destruct (calm_node _ _ Hc Hin) as [_ Hup].
  destruct (tick_up_to_date _ _ _ _ _ Hup Hpa Ht) as [Hup' Hf]. unfold followed in Hf.
  destruct (list_heartbeats _ _) as [entries|] eqn:El; [|by destruct Hf]. simpl. destruct Hf as [Hf _].
  rewrite Hnow in El. pose proof (live_roster _ _ _ _ Hc Hq Hto Hl El) as Hr.
  destruct (up_to_date_state _ Hup') as [Ecfg Edb].
  assert (Hid : no_node_id (nd_options n) ∈ (members c).*1).
  { rewrite members_ids. apply list_elem_of_fmap. by exists (n, s). }
  assert (Hr' : roster <$> live_view entries (ns_state s') ≡ₚ members c).
  { unfold live_view. by rewrite Ecfg. }
  pose proof (λ key, owned_share n s' entries (members c) _ _ key Hid Hr' Ecfg Edb) as Hown.
  split.
  - intros url svc tgt. unfold runs_task. simpl. rewrite <-(fmap_is_Some rt_fingerprint), <-Hf, fmap_is_Some.
    unfold is_Some. setoid_rewrite (Hown (url, svc, tgt)). naive_solver.
  - intros url svc tgt task Htask. simpl in Htask. specialize (Hf (url, svc, tgt)). rewrite Htask in Hf.
    simpl in Hf. apply fmap_Some in Hf as (r & Ho & ->). apply (Hown (url, svc, tgt)) in Ho as (db & Hdb & -> & _).
    eauto.
Qed.

Lemma placed_tasks ms n s s' : ns_tasks s' = ns_tasks s → placed ms (n, s) → placed ms (n, s').
Proof.
  intros E [Hshare Hset]. unfold placed, runs_share, runs_task in *. simpl in *. by rewrite E.
Qed.

Definition lists (i : nat) (e : Event) : Prop := ∃ t, e = Iterates i t ∧ is_ok (list_prefix (tk_nodes t)) = true.
Definition placed_at (c : Cluster) (i : nat) : Prop := ∀ ns, cl_fleet c !! i = Some ns → placed (members c) ns.

(** One quiet event: whoever lists is placed, whoever was placed stays so. *)
Lemma event_places c t0 e c' i :
  calm c → quiet_since t0 c → (t0 + Z.of_N timeout ≤ cl_now c)%Z → event c e c' → quiet e = true →
  placed_at c i ∨ lists i e → placed_at c' i.
Proof.
  intros Hc Hq Hto Hev Hqe Hor ns Hns.
  assert (Hms : members c' = members c) by (unfold members; by rewrite (quiet_nodes _ _ _ Hev Hqe)).
  rewrite Hms. destruct Hev as [c now|c j n s states|c j n s t s' e Hj Ht Hnow Hpa Hl|c path l1 l2| | | |]; try done;
    try (destruct Hor as [Hp|(? & [=] & _)]; by apply Hp).
  pose proof (tick_places _ _ _ _ _ _ _ _ Hc Hq Hto Hj Ht Hnow Hpa Hl) as Htp. simpl in Hns.
  apply list_lookup_insert_Some in Hns as [(-> & <- & _)|[Hne Hns]].
  - unfold list_heartbeats in Htp. destruct (list_prefix (tk_nodes t)) as [l|] eqn:El; [exact Htp|].
    eapply placed_tasks; [exact Htp|]. destruct Hor as [Hp|(t' & [= <-] & Hok)]; [by apply Hp|].
    by rewrite El in Hok.
  - destruct Hor as [Hp|(t' & [= -> _] & _)]; [by apply Hp|done].
Qed.

Lemma calm_run c es c' : run c es c' → calm c → calm c'.
Proof. induction 1; eauto using calm_event. Qed.

Lemma quiet_run c es c' t0 :
  run c es c' → Forall (λ e, quiet e = true) es → quiet_since t0 c →
  quiet_since t0 c' ∧ (cl_fleet c').*1 = (cl_fleet c).*1.
Proof.
  induction 1 as [c|c1 e c2 es c3 He _ IH]; intros Hes Hq; [done|].
  inversion_clear Hes as [|?? Hqe Hqes].
  destruct IH as [IHq IHn]; [done|by eapply quiet_since_event|].
  split; [done|]. by rewrite IHn, (quiet_nodes _ _ _ He Hqe).
Qed.

Lemma run_places c t0 es c' i :
  run c es c' → Forall (λ e, quiet e = true) es →
  calm c → quiet_since t0 c → (t0 + Z.of_N timeout ≤ cl_now c)%Z →
  placed_at c i ∨ Exists (lists i) es → placed_at c' i.
Proof.
  induction 1 as [c|c1 e c2 es c3 He _ IH]; intros Hes Hc Hq Hto Hor.
  - by destruct Hor as [?|?%Exists_nil].
  - inversion_clear Hes as [|?? Hqe Hqes]. pose proof (event_now _ _ _ He) as Hnow.
    apply IH; [done|by eapply calm_event|by eapply quiet_since_event|lia|].
    rewrite Exists_cons in Hor. destruct Hor as [Hp|[Hp|Hp]]; [left|left|by right];
      by eapply event_places; eauto.
Qed.

Lemma calm_vacant c : vacant c → calm c.
Proof.
  intros [Hf Hp]. split; [by rewrite Hf; constructor|by rewrite Hf| | |]; [|done|];
    intros ns; rewrite Hf; by intros ?%elem_of_nil.
Qed.

(** Readers' decoded services are the offered ones. *)
Lemma members_offering c svc :
  length (filter (λ m, svc ∈ m.2) (members c)) =
  length (filter (λ ns, svc ∈ no_services (nd_options ns.1)) (cl_fleet c)).
Proof.
  unfold members. rewrite <-list_fmap_compose, filter_fmap, length_fmap. f_equal.
  apply list_filter_iff. intros ns. simpl. apply elem_of_own_services.
Qed.

(** The assignments a service of a database has. *)
Definition names_target (url : string) (r : ResolvedServices) (svc : Service) (tgt : option string) : Prop :=
  match tgt with
  | Some name => svc = Mirror ∧ name ∈ at_name <$> applied_targets url (rs_mirror r)
  | None => svc ≠ Mirror
  end.

(** Whoever owns something offers it. *)
Lemma owner_offers c ns url r svc tgt :
  calm c → ns ∈ cl_fleet c → ranked_owner (id_of ns) (member_view <$> members c) url r svc tgt →
  svc ∈ no_services (nd_options ns.1) ∧ names_target url r svc tgt.
Proof.
  intros Hc Hns Ho. split; [|by destruct tgt; destruct Ho as (? & ?); [naive_solver|]].
  apply ranked_owner_candidate, list_elem_of_fmap in Ho as (v & Hid & [Hsvc Hv]%list_elem_of_filter).
  apply list_elem_of_fmap in Hv as (m & -> & (n & -> & (ns' & -> & Hns')%list_elem_of_fmap)%list_elem_of_fmap).
  simpl in Hid, Hsvc. rewrite (calm_id_inj c ns ns' Hc Hns Hns' Hid). by apply elem_of_own_services.
Qed.

(** Every service runs as often as configured, and nothing else does. *)
Definition converged (c : Cluster) : Prop :=
  let databases := fs_databases published_state in
  let settings db := resolve (fs_config published_state) (Some db) in
  let runners key := length (filter (runs_task key) (cl_fleet c)) in
  let offering svc := length (filter (λ ns, svc ∈ no_services (nd_options ns.1)) (cl_fleet c)) in
  (∀ url db svc, databases !! url = Some db → svc ∈ rs_services (settings db) →
     (svc ≠ Mirror → runners (url, svc, None) = min (owner_count (settings db) svc) (offering svc)) ∧
     (svc = Mirror → 0 < offering svc → ∀ t, t ∈ applied_targets url (rs_mirror (settings db)) →
        runners (url, svc, Some (at_name t)) = 1)) ∧
  (∀ ns url svc tgt task, ns ∈ cl_fleet c → ns_tasks ns.2 !! (url, svc, tgt) = Some task →
     ∃ db, databases !! url = Some db ∧ svc ∈ rs_services (settings db) ∧
       svc ∈ no_services (nd_options ns.1) ∧ names_target url (settings db) svc tgt ∧
       rt_fingerprint task = fingerprint (settings db)).

Lemma placed_converged c : calm c → (∀ ns, ns ∈ cl_fleet c → placed (members c) ns) → converged c.
Proof.
  intros Hc Hplaced.
  assert (Hdist : distinct (cl_fleet c) (members c)) by (split; rewrite members_ids; [apply Hc|done]).
  split.
  - intros url db svc Hdb Hsvc. rewrite <-members_offering.
    eapply shares_run_everything; [exact Hdist|intros ns Hns; by apply (Hplaced ns Hns)|done|done].
  - intros ns url svc tgt task Hns Htask. destruct (Hplaced ns Hns) as [Hshare Hset].
    destruct (Hset _ _ _ _ Htask) as (db & Hdb & Hfp). exists db.
    destruct (proj1 (Hshare url svc tgt)) as (db' & Hdb' & Hsvc & Ho); [unfold runs_task; by rewrite Htask|].
    simplify_eq. destruct (owner_offers c ns _ _ _ _ Hc Hns Ho) as [Hof Hn]. done.
Qed.

(** Waiting and listing converges. *)
Lemma settle_converges c1 lapse c2 settle c3 :
  calm c1 → run c1 lapse c2 → run c2 settle c3 →
  Forall (λ e, quiet e = true) lapse → Forall (λ e, quiet e = true) settle →
  (cl_now c1 + Z.of_N timeout ≤ cl_now c2)%Z →
  (∀ i, i < length (cl_fleet c1) → Exists (lists i) settle) →
  converged c3.
Proof.
  intros Hc1 R1 R2 Hq1 Hq2 Hto Hlists.
  pose proof (calm_run _ _ _ R1 Hc1) as Hc2. pose proof (calm_run _ _ _ R2 Hc2) as Hc3.
  destruct (quiet_run _ _ _ _ R1 Hq1 (quiet_since_now _ Hc1)) as [Hs2 Hn2].
  destruct (quiet_run _ _ _ _ R2 Hq2 Hs2) as [_ Hn3].
  apply placed_converged; [done|].
  intros ns [i Hi]%list_elem_of_lookup. eapply run_places; [exact R2|done..| |exact Hi]. right. apply Hlists.
  apply (f_equal length) in Hn2, Hn3. rewrite !length_fmap in Hn2, Hn3.
  apply lookup_lt_Some in Hi. congruence.
Qed.


(** ** It can always settle *)

(** Time passes by less than the timeout. *)
Lemma renew_and_wait c d :
  (0 ≤ d < Z.of_N timeout)%Z →
  ∃ es c', run c es c' ∧ Forall (λ e, quiet e = true) es ∧ cl_now c' = (cl_now c + d)%Z ∧ cl_fleet c' = cl_fleet c.
Proof.
  intros Hd. destruct (all_beat (answers := partial reads) (boots := eq reads) (timely := renewed) c _ (le_n _)) as (es & c' & Hr & Hq & Hnow & Hf & _ & Hb).
  eexists (es ++ [Waits (cl_now c + d)]), _. split.
  - eapply run_app; [exact Hr|]. apply run_one, ev_wait; [lia|].
    intros ns [i Hi]%list_elem_of_lookup. rewrite Hf in Hi. exists (cl_now c). split; [|lia].
    apply (Hb i); [by eapply lookup_lt_Some|done].
  - split_and!; [apply Forall_app; by repeat constructor|done|done].
Qed.

(** An iteration in which every call succeeds. *)
Definition beat_meta_of (b : StorePath * Instant) : ObjectMeta :=
  {| location := b.1; last_modified := b.2; size := 0; e_tag := None |}.
Definition good_tick (c : Cluster) (elapsed_at : Z) : Tick := {|
  tk_states := ∅; tk_elapsed_at := elapsed_at; tk_reads := reads; tk_polled_at := 0;
  tk_nodes := Ok (beat_meta_of <$> map_to_list (cl_beats c)); tk_now := cl_now c; tk_finished _ := false |}.

Lemma good_listing c ea : listing c (tk_nodes (good_tick c ea)).
Proof.
  simpl. rewrite <-list_fmap_compose. rewrite <-(list_fmap_id (map_to_list (cl_beats c))) at 2.
  apply reflexive_eq, list_fmap_ext. by intros ? [] _.
Qed.

Lemma good_tick_works c n s ea :
  up_to_date (refresh utf8_error n s (good_tick c ea)) → (timeout * 10 ≤ DURATION_MAX)%N →
  is_Some (tick n s (good_tick c ea)).
Proof.
  intros Hup' Hmax. unfold Node.tick, follow. cbv [list_heartbeats]. simpl list_prefix. cbv iota beta.
  assert (Hto : heartbeat_timeout (node_config (refresh utf8_error n s (good_tick c ea))) = timeout).
  { unfold timeout. by rewrite <-(proj1 (up_to_date_state _ Hup')). }
  rewrite Hto. set (entries := omap _ _).
  destruct (proj2 (housekeeping_total (own_path n) (no_node_id (nd_options n)) entries timeout) Hmax) as [dels ->].
  by eexists.
Qed.

Lemma all_list c k :
  calm c → (timeout * 10 ≤ DURATION_MAX)%N → k ≤ length (cl_fleet c) →
  ∃ es c', run c es c' ∧ Forall (λ e, quiet e = true) es ∧ (cl_fleet c').*1 = (cl_fleet c).*1 ∧
    ∀ i, i < k → Exists (lists i) es.
Proof.
  intros Hc Hmax. induction k as [|k IH]; intros Hk.
  - exists [], c. split; [apply run_nil|]. split_and!; [done..|]. intros; lia.
  - destruct IH as (es & c' & Hr & Hq & Hf & Hl); [lia|]. pose proof (calm_run _ _ _ Hr Hc) as Hc'.
    assert (Hlen : length (cl_fleet c') = length (cl_fleet c)).
    { apply (f_equal length) in Hf. by rewrite !length_fmap in Hf. }
    destruct (lookup_lt_is_Some_2 (cl_fleet c') k ltac:(lia)) as [[n s] Hn].
    destruct (calm_node c' (n, s) Hc' ltac:(by eapply list_elem_of_lookup_2)) as [_ Hup].
    destruct (good_tick_works c' n s 0 ltac:(by apply refresh_up_to_date, partial_refl) Hmax) as [[s' e] Ht].
    pose proof (ev_iterate (boots := eq reads) (timely := renewed) c' k n s (good_tick c' 0) s' e
      Hn Ht eq_refl (partial_refl reads) (good_listing c' 0)) as Hev.
    eexists (es ++ [Iterates k (good_tick c' 0)]), _. split; [eapply run_app; [exact Hr|by apply run_one]|].
    split; [apply Forall_app; by repeat constructor|]. split; [by rewrite (quiet_nodes _ _ _ Hev)|].
    intros i Hi. apply Exists_app. destruct (decide (i = k)) as [->|]; [right|left; apply Hl; lia].
    apply Exists_cons_hd. by exists (good_tick c' 0).
Qed.

Lemma timeout_two : (2 ≤ timeout)%N.
Proof.
  pose proof (poll_ok utf8_error root reads _ poller_ok_default) as (Hv & _).
  unfold timeout, published_state. rewrite (proj1 (poll_state _ _ _ _)).
  apply validate_iff in Hv as [[? _] _]. lia.
Qed.

(** From a calm state the nodes can settle by their own steps. *)
Lemma calm_settles c1 :
  calm c1 → (timeout * 10 ≤ DURATION_MAX)%N →
  ∃ es c2, run c1 es c2 ∧ Forall (λ e, quiet e = true) es ∧ (cl_fleet c2).*1 = (cl_fleet c1).*1 ∧ converged c2.
Proof.
  intros Hc1 Hmax. pose proof timeout_two as H2'.
  destruct (renew_and_wait c1 (Z.of_N timeout - 1) ltac:(lia)) as (es1 & c2 & R1 & Q1 & N1 & F1).
  destruct (renew_and_wait c2 1 ltac:(lia)) as (es2 & c3 & R2 & Q2 & N2 & F2).
  pose proof (run_app _ _ _ _ _ R1 R2) as R12. pose proof (calm_run _ _ _ R12 Hc1) as Hc3.
  destruct (all_list c3 _ Hc3 Hmax (le_n _)) as (es3 & c4 & R3 & Q3 & F3 & Hlists).
  exists ((es1 ++ es2) ++ es3), c4. split; [by eapply run_app|].
  assert (Q12 : Forall (λ e, quiet e = true) (es1 ++ es2)) by (by apply Forall_app).
  split; [by apply Forall_app|]. split; [by rewrite F3, F2, F1|].
  eapply settle_converges; [exact Hc1|exact R12|exact R3|done|done|lia|].
  rewrite F2, F1 in Hlists. exact Hlists.
Qed.

(** Convergence never depends on luck: from every state that any churn
    and any failures can lead to, nodes that renew their heartbeats, wait, and
    each complete one iteration reach a state where every service runs as
    configured, by their own steps alone; the only condition is that ten
    heartbeat timeouts fit a [Duration]. *)
Theorem cluster_can_settle c0 churn c1 :
  vacant c0 → run c0 churn c1 → (timeout * 10 ≤ DURATION_MAX)%N →
  ∃ es c2, run c1 es c2 ∧ Forall (λ e, quiet e = true) es ∧ (cl_fleet c2).*1 = (cl_fleet c1).*1 ∧
    converged c2.
Proof. intros Hv R0. apply calm_settles. by eapply calm_run, calm_vacant. Qed.
End cluster.

(** ** Examples *)
Import Store.Concrete Registry.Concrete.
#[local] Existing Instance Poller.example_lib.
#[local] Abbreviation example_event reads :=
  (happens (λ b, b) (λ _, 7%N) "0.1" "0.14" example_root (answers := partial reads) (boots := eq reads)
     (timely := renewed (λ b, b) example_root reads)).
#[local] Abbreviation example_run reads :=
  (unfolds (λ b, b) (λ _, 7%N) "0.1" "0.14" example_root (answers := partial reads) (boots := eq reads)
     (timely := renewed (λ b, b) example_root reads)).

Definition cluster_reads : PollReads := example_reads EmptyString "c" "max=5" "t5".
Definition beat_object (id : string) (modified : Instant) : ObjectMeta :=
  {| location := ["fleet"; "nodes"; object_name id ALL]; last_modified := modified; size := 2; e_tag := None |}.
(** The heartbeat of a node that crashed at time 0. *)
Definition left_behind : Cluster := {|
  cl_now := 0; cl_beats := {[ ["fleet"; "nodes"; "n3.cgmw.json"] := 0%Z ]}; cl_fleet := []; cl_deletes := [] |}.
Lemma left_behind_vacant : vacant left_behind.
Proof.
  split; [reflexivity|]. intros path m Hm. unfold left_behind in Hm. cbn [cl_beats] in Hm.
  apply lookup_singleton_Some in Hm as [_ <-]. done.
Qed.
Definition seconds (n : Z) : Instant := n * 1000000000.
Definition cluster_tick : Tick := {|
  tk_states := ∅; tk_elapsed_at := 0; tk_reads := cluster_reads; tk_polled_at := 0;
  tk_nodes := Ok [beat_object "n3" 0; beat_object "n1" (seconds 29); beat_object "n2" (seconds 29)];
  tk_now := seconds 30; tk_finished _ := false |}.
Definition joining (id : string) : NodeOptions := NodeOptions_new None id.

(** The running nodes of the example, before and after an iteration. *)
Definition joined (id : string) : NodeState := boot (λ b, b) (example_node id) cluster_reads 0.
Definition example_tick_of (id : string) (t : Tick) (s : NodeState) : option (NodeState * TickEffects) :=
  tick (λ b, b) (λ _, 7%N) "0.1" "0.14" (example_node id) s t.
Definition iterated (id : string) (t : Tick) (s : NodeState) : NodeState :=
  match example_tick_of id t s with Some (s', _) => s' | None => s end.
(** The iteration works and deletes nothing. *)
Definition harmless (id : string) (t : Tick) (s : NodeState) : bool :=
  match example_tick_of id t s with Some (_, e) => bool_decide (te_delete e = []) | None => false end.
Definition example_beats (m : Instant) : gmap StorePath Instant :=
  <[own_path (example_node "n2") := m]> (<[own_path (example_node "n1") := m]> (cl_beats left_behind)).
Definition example_cluster (now m : Instant) (s1 s2 : NodeState) : Cluster :=
  {| cl_now := now; cl_beats := example_beats m;
     cl_fleet := [(example_node "n1", s1); (example_node "n2", s2)]; cl_deletes := [] |}.

Lemma example_joins :
  example_run cluster_reads left_behind [Joins (joining "n1"); Joins (joining "n2")]
    (example_cluster 0 0 (joined "n1") (joined "n2")).
Proof.
  eapply run_cons; [eapply ev_join; [vm_compute; reflexivity|reflexivity|apply not_elem_of_nil|apply not_elem_of_nil]|].
  eapply run_cons; [|apply run_nil].
  refine (ev_join _ _ _ _ _ _ (joining "n2") (example_node "n2") cluster_reads _ eq_refl _ _);
    [reflexivity| |apply not_elem_of_nil].
  apply (bool_decide_unpack _). vm_compute. constructor.
Qed.

Lemma example_renewed m now s1 s2 :
  (now - m < seconds 30)%Z → renewed (λ b, b) example_root cluster_reads (example_cluster m m s1 s2) now.
Proof.
  intros Hlt ns Hns. exists m. split; [|exact Hlt]. unfold example_cluster, example_beats in *. cbn [cl_beats cl_fleet] in *.
  apply elem_of_cons in Hns as [->|[->|[]%elem_of_nil]%elem_of_cons]; [|by rewrite lookup_insert_eq].
  rewrite lookup_insert_ne by done. by rewrite lookup_insert_eq.
Qed.

Lemma example_lapse s1 s2 :
  example_run cluster_reads (example_cluster 0 0 s1 s2)
    [Waits (seconds 29); Beats 0 ∅; Beats 1 ∅; Waits (seconds 30)]
    (example_cluster (seconds 30) (seconds 29) s1 s2).
Proof.
  eapply run_cons; [apply ev_wait; [by vm_compute|by apply example_renewed]|].
  eapply run_cons; [by eapply ev_beat|]. eapply run_cons; [by eapply ev_beat|].
  eapply run_cons; [|apply run_nil].
  assert (E : ∀ c, c = example_cluster (seconds 29) (seconds 29) s1 s2 →
    example_event cluster_reads c (Waits (seconds 30)) (example_cluster (seconds 30) (seconds 29) s1 s2)).
  { intros c ->. apply (ev_wait _ _ _ _ _ (example_cluster (seconds 29) (seconds 29) _ _)); [by vm_compute|].
    by apply example_renewed. }
  apply E. unfold set_beats, example_cluster. simpl. f_equal.
Qed.

Lemma harmless_ticks id t s :
  harmless id t s = true → ∃ e, example_tick_of id t s = Some (iterated id t s, e) ∧ te_delete e = [].
Proof.
  unfold harmless, iterated. destruct (example_tick_of _ _ _) as [[s' e]|]; [|done].
  intros Hd%bool_decide_eq_true. by exists e.
Qed.

(** Either node's iteration. *)
Lemma example_iterates timely now m t s1 s2 :
  tk_now t = now → partial cluster_reads (tk_reads t) → listing (example_cluster now m s1 s2) (tk_nodes t) →
  (harmless "n1" t s1 = true →
   happens (λ b, b) (λ _, 7%N) "0.1" "0.14" example_root (answers := partial cluster_reads)
     (boots := eq cluster_reads) (timely := timely)
     (example_cluster now m s1 s2) (Iterates 0 t) (example_cluster now m (iterated "n1" t s1) s2)) ∧
  (harmless "n2" t s2 = true →
   happens (λ b, b) (λ _, 7%N) "0.1" "0.14" example_root (answers := partial cluster_reads)
     (boots := eq cluster_reads) (timely := timely)
     (example_cluster now m s1 s2) (Iterates 1 t) (example_cluster now m s1 (iterated "n2" t s2))).
Proof.
  intros Hnow Hpa Hl.
  split; intros (e & T & D)%harmless_ticks.
  - pose proof (ev_iterate (λ b, b) (λ _, 7%N) "0.1" "0.14" example_root (boots := eq cluster_reads) (timely := timely)
      (example_cluster now m s1 s2) 0 (example_node "n1") s1 t _ e eq_refl T Hnow Hpa Hl) as Hev.
    by rewrite D in Hev.
  - pose proof (ev_iterate (λ b, b) (λ _, 7%N) "0.1" "0.14" example_root (boots := eq cluster_reads) (timely := timely)
      (example_cluster now m s1 s2) 1 (example_node "n2") s2 t _ e eq_refl T Hnow Hpa Hl) as Hev.
    by rewrite D in Hev.
Qed.

Definition settled (s1 s2 : NodeState) : Cluster :=
  example_cluster (seconds 30) (seconds 29) (iterated "n1" cluster_tick s1) (iterated "n2" cluster_tick s2).

Lemma example_settle s1 s2 :
  harmless "n1" cluster_tick s1 = true → harmless "n2" cluster_tick s2 = true →
  example_run cluster_reads (example_cluster (seconds 30) (seconds 29) s1 s2)
    [Iterates 0 cluster_tick; Iterates 1 cluster_tick] (settled s1 s2).
Proof.
  intros H1 H2.
  assert (Hl : ∀ s1 s2, listing (example_cluster (seconds 30) (seconds 29) s1 s2) (tk_nodes cluster_tick)).
  { intros. simpl. apply (bool_decide_unpack _). vm_compute. constructor. }
  pose proof (partial_refl cluster_reads : partial cluster_reads (tk_reads cluster_tick)) as Hpa.
  eapply run_cons; [apply example_iterates; [reflexivity|exact Hpa|apply Hl|exact H1]|].
  apply run_one, example_iterates; [reflexivity|exact Hpa|apply Hl|exact H2].
Qed.

Lemma example_lists i : i < 2 → Exists (lists i) [Iterates 0 cluster_tick; Iterates 1 cluster_tick].
Proof.
  intros Hi. destruct i as [|[|i]]; [| |lia]; [apply Exists_cons_hd|apply Exists_cons_tl, Exists_cons_hd];
    (eexists; split; reflexivity).
Qed.


Lemma cluster_can_settle_witness :
  ∃ es c2, example_run cluster_reads (example_cluster 0 0 (joined "n1") (joined "n2")) es c2 ∧
    length (cl_fleet c2) = 2 ∧ converged (λ b, b) (λ _, 7%N) example_root cluster_reads c2.
Proof.
  destruct (cluster_can_settle (λ b, b) (λ _, 7%N) "0.1" "0.14" example_root cluster_reads example_body
    SleetConfig_default [db_meta 5 "t5"] (example_coherent "c" "t5") example_published
    (λ dir name _, last_snoc name dir) left_behind _ _ left_behind_vacant example_joins)
    as (es & c2 & Hr & _ & Hf & Hc); [by vm_compute|].
  exists es, c2. split; [exact Hr|]. split; [|exact Hc].
  apply (f_equal length) in Hf. rewrite !length_fmap in Hf. exact Hf.
Defined.
