(* ===== verification/Reconfigure.v ===== *)
(** * Editing the configuration of a running cluster

    [Cluster] settles under one configuration.  Here the root is edited while
    the nodes run: polls read any version, or fail; nodes follow different
    versions for a while, with different timeouts, and may delete each other's
    heartbeats; time passes without bound.  Then the documents parse and stay
    as they are, and the cluster settles under them. *)

From Stdlib Require Import Ascii.
From S2P Require Import Prelude Order Text Service Placement Heartbeat Store Root.
From S2P Require Import Registry Config Validate Targets Poller Caching Daemon Supervise Services Node Cluster.

Section reconfigure.
Context `{StoreLib, UrlLib, PercentLib, !ConfigLib}.
Context (utf8_error : string → string) (fingerprint : ResolvedServices → N).
Context (cargo_pkg_version SLATEDB_VERSION : string) (root : FleetRoot).
(** The root as it is in the end. *)
Context (reads : PollReads) (body_of : string → string) (config : SleetConfig) (metas : list ObjectMeta).
Context (Hco : coherent body_of reads) (Hpub : published utf8_error reads config metas).
Context (Hjoin : ∀ dir name, "/"%char ∉ bytes name → filename (path_join dir name) = Some name).

#[local] Abbreviation tick := (tick utf8_error fingerprint cargo_pkg_version SLATEDB_VERSION).
#[local] Abbreviation happens a b t :=
  (happens utf8_error fingerprint cargo_pkg_version SLATEDB_VERSION root (answers := a) (boots := b) (timely := t)).
#[local] Abbreviation unfolds a b t :=
  (unfolds utf8_error fingerprint cargo_pkg_version SLATEDB_VERSION root (answers := a) (boots := b) (timely := t)).
#[local] Abbreviation current := (current utf8_error body_of reads config metas).
#[local] Abbreviation calm := (calm utf8_error root reads body_of config metas).
#[local] Abbreviation renewed := (renewed utf8_error root reads).

Definition any_time (c : Cluster) (now : Instant) : Prop := True.
(** Events while the root is edited, events once it is not, and those of
    [Cluster]. *)
#[local] Abbreviation edited := (unfolds (coherent body_of) (coherent body_of) any_time).
#[local] Abbreviation reload_event := (happens (partial reads) (eq reads) any_time).
#[local] Abbreviation reload := (unfolds (partial reads) (eq reads) any_time).
#[local] Abbreviation run := (unfolds (partial reads) (eq reads) renewed).

(** What holds whatever the nodes have read. *)
Record orderly (c : Cluster) : Prop := {
  or_ids : NoDup (id_of <$> cl_fleet c);
  or_nodes : Forall (λ ns, well_started root ns.1 ∧ node_inv ns.2 ∧ honest utf8_error body_of (ns_poller ns.2)) (cl_fleet c);
  or_past : map_Forall (λ _ m, (m ≤ cl_now c)%Z) (cl_beats c);
}.

Lemma refresh_honest n s t :
  coherent body_of (tk_reads t) → honest utf8_error body_of (ns_poller s) →
  honest utf8_error body_of (ns_poller (refresh utf8_error n s t)).
Proof.
  intros Hr Hh. unfold refresh. destruct (poll_due _ _); [|done].
  pose proof (honest_poll utf8_error body_of (nd_root n) (tk_reads t) _ Hr Hh) as Hh'. by destruct (poll _ _ _ _).
Qed.
Lemma boot_honest n first now :
  coherent body_of first → honest utf8_error body_of (ns_poller (boot utf8_error n first now)).
Proof.
  intros Hr. unfold boot.
  pose proof (honest_poll utf8_error body_of (nd_root n) first _ Hr (honest_default utf8_error body_of)) as Hh'.
  by destruct (poll _ _ _ _).
Qed.

Lemma orderly_event (answers boots : PollReads → Prop) timely c e c' :
  (∀ r, answers r → coherent body_of r) → (∀ r, boots r → coherent body_of r) →
  orderly c → happens answers boots timely c e c' → orderly c'.
Proof.
  intros Ha Hb [Hids Hnodes Hpast] Hev.
  destruct Hev as [c now Hle _|c i n s states Hi|c i n s t s' e Hi Ht Hnow Hr Hl|c path l1 l2 Hdel
    |c options n first Hs Hf Hfresh Hnd|c i|c i n s Hi|c path]; split; simpl; try done.
  - eapply map_Forall_impl; [exact Hpast|]. simpl. intros; lia.
  - by apply past_put.
  - rewrite list_fmap_insert, list_insert_id; [done|]. by rewrite list_lookup_fmap, Hi.
  - apply Forall_insert; [done|]. simpl. pose proof (Forall_lookup_1 _ _ _ _ Hnodes Hi) as (Hst & Hinv & Hh).
    split_and!; [done|by eapply tick_spec|]. rewrite (tick_poller _ _ _ _ _ _ _ _ _ Ht). apply refresh_honest; auto.
  - by apply map_Forall_delete.
  - rewrite fmap_app. apply NoDup_app. split_and!; [done| |apply NoDup_singleton].
    intros id Hid ->%list_elem_of_singleton. destruct (started root Hjoin _ _ Hs) as (Eo & _).
    unfold id_of in Hid at 1. simpl in Hid. by rewrite Eo in Hid.
  - apply Forall_app. split; [done|]. constructor; [|constructor]. simpl.
    split_and!; [by eexists|apply boot_inv|apply boot_honest; auto].
  - by apply past_put.
  - eapply sublist_NoDup; [exact Hids|apply fmap_sublist, sublist_delete].
  - by apply Forall_delete.
  - eapply sublist_NoDup; [exact Hids|apply fmap_sublist, sublist_delete].
  - by apply Forall_delete.
  - by apply map_Forall_delete.
  - by apply past_put.
Qed.

Lemma orderly_run (answers boots : PollReads → Prop) timely c es c' :
  (∀ r, answers r → coherent body_of r) → (∀ r, boots r → coherent body_of r) →
  unfolds answers boots timely c es c' → orderly c → orderly c'.
Proof. intros Ha Hb. induction 1; eauto using orderly_event. Qed.

Lemma orderly_vacant c : vacant c → orderly c.
Proof. intros [Hf Hp]. split; rewrite ?Hf; [constructor|constructor|done]. Qed.

Lemma orderly_edited c0 churn c1 : vacant c0 → edited c0 churn c1 → orderly c1.
Proof. intros ? R. eapply orderly_run; [| |exact R|by apply orderly_vacant]; auto. Qed.

Lemma reload_coherent r : partial reads r → coherent body_of r.
Proof. intros Hpa. by eapply partial_coherent. Qed.
Lemma orderly_reload c es c' : reload c es c' → orderly c → orderly c'.
Proof. apply orderly_run; [apply reload_coherent|by intros ? <-]. Qed.

(** ** Reading the final documents *)

(** Node [i] polls in this event, and every call of its poll succeeds. *)
Definition fetches (i : nat) (c : Cluster) (e : Event) : Prop :=
  ∃ t ns, e = Iterates i t ∧ tk_reads t = reads ∧ cl_fleet c !! i = Some ns ∧ poll_due ns.2 (tk_elapsed_at t) = true.

(** It does somewhere in the run. *)
Definition reloads (i : nat) (c : Cluster) (es : list Event) (c' : Cluster) : Prop :=
  ∃ es1 ca e cb es2, es = es1 ++ e :: es2 ∧
    reload c es1 ca ∧ reload_event ca e cb ∧ fetches i ca e ∧ reload cb es2 c'.

(** Node [i] follows them. *)
Definition current_at (c : Cluster) (i : nat) : Prop :=
  ∀ ns, cl_fleet c !! i = Some ns → current (ns_poller ns.2).

Lemma refresh_fetches n s t :
  honest utf8_error body_of (ns_poller s) → tk_reads t = reads → poll_due s (tk_elapsed_at t) = true →
  current (ns_poller (refresh utf8_error n s t)).
Proof.
  intros Hh Hr Hd. unfold refresh. rewrite Hd, Hr.
  pose proof (poll_current utf8_error body_of reads config metas Hco Hpub (nd_root n) _ Hh) as Hc.
  by destruct (poll _ _ _ _).
Qed.

Lemma refresh_stays_current n s t :
  partial reads (tk_reads t) → current (ns_poller s) → current (ns_poller (refresh utf8_error n s t)).
Proof.
  intros Hpa Hc. unfold refresh. destruct (poll_due _ _); [|done].
  pose proof (poll_stays_current utf8_error body_of reads config metas Hco Hpub (nd_root n) (tk_reads t) _ Hpa Hc) as Hc'.
  by destruct (poll _ _ _ _).
Qed.

(** One quiet event: whoever fetches is current, whoever was stays so. *)
Lemma event_current c e c' i :
  orderly c → reload_event c e c' → quiet e = true → current_at c i ∨ fetches i c e → current_at c' i.
Proof.
  intros Ho Hev Hq Hor ns Hns.
  destruct Hev as [c now|c j n s states|c j n s t s' e Hj Ht Hnow Hpa Hl|c path l1 l2| | | |]; try done;
    try (destruct Hor as [Hp|(? & ? & [=] & _)]; by apply Hp).
  simpl in Hns. apply list_lookup_insert_Some in Hns as [(-> & <- & _)|[Hne Hns]].
  - simpl. rewrite (tick_poller _ _ _ _ _ _ _ _ _ Ht).
    pose proof (Forall_lookup_1 _ _ _ _ (or_nodes _ Ho) Hj) as (_ & _ & Hh).
    destruct Hor as [Hc|(t' & ns & [= <-] & Hr & Hns & Hd)].
    + apply refresh_stays_current; [done|by apply (Hc (n, s))].
    + rewrite Hj in Hns. injection Hns as <-. by apply refresh_fetches.
  - destruct Hor as [Hp|(? & ? & [= -> _] & _)]; [by apply Hp|done].
Qed.

Lemma quiet_current c es c' i :
  reload c es c' → Forall (λ e, quiet e = true) es → orderly c → current_at c i → current_at c' i.
Proof.
  induction 1 as [c|c1 e c2 es c3 He R IH]; [done|]. intros [Hq Hqs]%Forall_cons Ho Hc.
  apply IH; [done|by apply (orderly_reload _ [e] _ (run_one _ _ _ _ _ _ _ _ He))|]. eapply event_current; eauto.
Qed.

Lemma reloads_current c es c' i :
  Forall (λ e, quiet e = true) es → orderly c → reloads i c es c' → current_at c' i.
Proof.
  intros Hq Ho (es1 & ca & e & cb & es2 & -> & R1 & He & Hf & R2).
  apply Forall_app in Hq as [_ [Hqe Hq2]%Forall_cons].
  pose proof (orderly_reload _ _ _ R1 Ho) as Hoa.
  eapply quiet_current; [exact R2|done|by apply (orderly_reload _ [e] _ (run_one _ _ _ _ _ _ _ _ He))|].
  eapply event_current; eauto.
Qed.

(** Once all follow them, and no node counts as dead, the cluster is calm. *)
Lemma orderly_calm c :
  orderly c → (∀ i, i < length (cl_fleet c) → current_at c i) → renewed c (cl_now c) →
  (∀ ns, ns ∈ cl_fleet c → own_path ns.1 ∉ cl_deletes c) → calm c.
Proof.
  intros [Hids Hnodes Hpast] Hcur Hren Hdel. split; [done| |done..].
  apply Forall_lookup. intros i ns Hi. pose proof (Forall_lookup_1 _ _ _ _ Hnodes Hi) as (Hst & Hinv & _).
  split; [done|]. split; [done|]. eapply Hcur; [by eapply lookup_lt_Some|done].
Qed.

Lemma reload_fleet c es c' :
  reload c es c' → Forall (λ e, quiet e = true) es → (cl_fleet c').*1 = (cl_fleet c).*1.
Proof.
  induction 1 as [|c1 e c2 es c3 He _ IH]; [done|]. intros [Hq Hqs]%Forall_cons.
  by rewrite IH, (quiet_nodes _ _ _ _ _ _ _ _ He).
Qed.
Lemma reload_length c es c' :
  reload c es c' → Forall (λ e, quiet e = true) es → length (cl_fleet c') = length (cl_fleet c).
Proof. intros R Hq. rewrite <-!(length_fmap fst). by rewrite (reload_fleet _ _ _ R Hq). Qed.

(** C4: the root may be edited while the nodes run: whatever versions of its
    documents their polls saw (valid or not, each body the one its ETag names),
    however the nodes disagreed on timeouts and owners, whatever they deleted
    from one another, once the documents stay as they are and each running node
    has polled them, no running node's heartbeat is overdue or being deleted,
    and the timeout then in force passes as in [Cluster], every service runs as
    often as the final documents say, with their settings, and nothing else
    runs. *)
Theorem cluster_reconfigures c0 churn c1 es c2 lapse c3 settle c4 :
  vacant c0 → edited c0 churn c1 → reload c1 es c2 →
  (∀ i, i < length (cl_fleet c1) → reloads i c1 es c2) →
  renewed c2 (cl_now c2) → (∀ ns, ns ∈ cl_fleet c2 → own_path ns.1 ∉ cl_deletes c2) →
  run c2 lapse c3 → run c3 settle c4 →
  Forall (λ e, quiet e = true) es → Forall (λ e, quiet e = true) lapse → Forall (λ e, quiet e = true) settle →
  (cl_now c2 + Z.of_N (timeout utf8_error root reads) ≤ cl_now c3)%Z →
  (∀ i, i < length (cl_fleet c2) → Exists (lists i) settle) →
  converged utf8_error fingerprint root reads c4.
Proof.
  intros Hv R0 R1 Hre Hren Hdel R2 R3 Q1 Q2 Q3 Hto Hlists.
  pose proof (orderly_edited _ _ _ Hv R0) as Ho1.
  apply (settle_converges utf8_error fingerprint cargo_pkg_version SLATEDB_VERSION root reads body_of config metas
    Hco Hpub Hjoin c2 lapse c3 settle c4); try done.
  apply orderly_calm; [by eapply orderly_reload| |done|done].
  intros i Hi. rewrite (reload_length _ _ _ R1 Q1) in Hi. eapply reloads_current; [exact Q1|done|by apply Hre].
Qed.

(** ** It can always follow an edit *)

(** Late enough for the node's next poll. *)
Definition due_at (s : NodeState) : Z := ns_last_poll s + Z.of_N (config_poll (node_config s)).
Lemma due_at_due s : poll_due s (due_at s) = true.
Proof. unfold poll_due, due_at. apply bool_decide_eq_true. lia. Qed.

Lemma all_fetch c k :
  orderly c → (timeout utf8_error root reads * 10 ≤ DURATION_MAX)%N → k ≤ length (cl_fleet c) →
  ∃ es c', reload c es c' ∧ Forall (λ e, quiet e = true) es ∧ ∀ i, i < k → current_at c' i.
Proof.
  intros Ho Hmax. induction k as [|k IH]; intros Hk.
  - exists [], c. split; [apply run_nil|]. split; [done|]. intros; lia.
  - destruct IH as (es & c' & R & Q & Hcur); [lia|]. pose proof (orderly_reload _ _ _ R Ho) as Ho'.
    rewrite <-(reload_length _ _ _ R Q) in Hk.
    destruct (lookup_lt_is_Some_2 (cl_fleet c') k ltac:(lia)) as [[n s] Hn].
    pose proof (Forall_lookup_1 _ _ _ _ (or_nodes _ Ho') Hn) as (Hst & Hinv & Hh). simpl in Hinv, Hh.
    pose proof (refresh_fetches n s (good_tick reads c' (due_at s)) Hh eq_refl (due_at_due s)) as Hc'.
    destruct (good_tick_works utf8_error fingerprint cargo_pkg_version SLATEDB_VERSION root reads body_of config metas
      Hco Hpub c' n s (due_at s)) as [[s' e] Ht]; [|done|].
    { split; [by apply refresh_inv|done]. }
    pose proof (ev_iterate utf8_error fingerprint cargo_pkg_version SLATEDB_VERSION root
      (boots := eq reads) (timely := any_time) c' k n s (good_tick reads c' (due_at s)) s' e
      Hn Ht eq_refl (partial_refl reads) (good_listing reads c' (due_at s))) as Hev.
    eexists (es ++ [_]), _. split; [eapply run_app; [exact R|by apply run_one]|].
    split; [apply Forall_app; by repeat constructor|]. intros i Hi.
    apply (event_current _ _ _ i Ho' Hev eq_refl).
    destruct (decide (i = k)) as [->|]; [right|left; apply Hcur; lia].
    exists (good_tick reads c' (due_at s)), (n, s). split_and!; [done|done|done|apply due_at_due].
Qed.

(** The DELETEs under way land. *)
Lemma all_land deletes c :
  cl_deletes c = deletes →
  ∃ es c', reload c es c' ∧ Forall (λ e, quiet e = true) es ∧
    cl_deletes c' = [] ∧ cl_fleet c' = cl_fleet c ∧ cl_now c' = cl_now c.
Proof.
  revert c. induction deletes as [|path l IH]; intros c Hd.
  - exists [], c. split; [apply run_nil|done].
  - pose proof (ev_delete utf8_error fingerprint cargo_pkg_version SLATEDB_VERSION root
      (answers := partial reads) (boots := eq reads) (timely := any_time) c path [] l Hd) as Hev.
    destruct (IH {| cl_now := cl_now c; cl_beats := delete path (cl_beats c); cl_fleet := cl_fleet c;
      cl_deletes := [] ++ l |} eq_refl) as (es & c' & R & Q & E).
    eexists (Deletes path :: es), c'. split; [by eapply run_cons|]. split; [by constructor|done].
Qed.

(** C12: an edit never leaves the cluster stuck: from every state that edits,
    churn and failures can lead to, the nodes reach one where every service
    runs as the final documents say by their own steps alone: they poll, the
    DELETEs under way land, they renew their heartbeats, wait out the timeout
    and list; the only condition is that ten of the final timeouts fit a
    [Duration]. *)
Theorem cluster_can_reconfigure c0 churn c1 :
  vacant c0 → edited c0 churn c1 → (timeout utf8_error root reads * 10 ≤ DURATION_MAX)%N →
  ∃ es c2 es' c3, reload c1 es c2 ∧ run c2 es' c3 ∧ Forall (λ e, quiet e = true) (es ++ es') ∧
    (cl_fleet c3).*1 = (cl_fleet c1).*1 ∧ converged utf8_error fingerprint root reads c3.
Proof.
  intros Hv R0 Hmax. pose proof (orderly_edited _ _ _ Hv R0) as Ho1.
  destruct (all_fetch c1 _ Ho1 Hmax (le_n _)) as (es1 & ca & Ra & Qa & Hcur).
  destruct (all_land _ ca eq_refl) as (es2 & cb & Rb & Qb & Hdb & Hfb & _).
  destruct (all_beat utf8_error fingerprint cargo_pkg_version SLATEDB_VERSION root
    (answers := partial reads) (boots := eq reads) (timely := any_time) cb _ (le_n _))
    as (es3 & c2 & Rc & Qc & Hnow & Hf & Hd & Hb).
  pose proof (run_app _ _ _ _ _ _ _ _ _ _ Ra (run_app _ _ _ _ _ _ _ _ _ _ Rb Rc)) as R.
  assert (Q : Forall (λ e, quiet e = true) (es1 ++ es2 ++ es3)) by (by rewrite !Forall_app).
  assert (Hcalm : calm c2).
  { apply orderly_calm; [by eapply orderly_reload| | |].
    - intros i Hi ns. rewrite Hf, Hfb. apply Hcur.
      by rewrite (reload_length _ _ _ R Q) in Hi.
    - intros ns [i Hi]%list_elem_of_lookup. rewrite Hf in Hi. exists (cl_now cb).
      split; [by eapply Hb; [eapply lookup_lt_Some|]|]. pose proof (timeout_pos utf8_error root reads). lia.
    - intros ns _. rewrite Hd, Hdb. apply not_elem_of_nil. }
  destruct (calm_settles utf8_error fingerprint cargo_pkg_version SLATEDB_VERSION root reads body_of config metas
    Hco Hpub Hjoin c2 Hcalm Hmax) as (es' & c3 & R' & Q' & Hf' & Hc).
  exists (es1 ++ es2 ++ es3), c2, es', c3. split_and!; [done|done|by apply Forall_app| |done].
  by rewrite Hf', (reload_fleet _ _ _ R Q).
Qed.
End reconfigure.

(** ** Examples *)
Import Store.Concrete Registry.Concrete.
#[local] Existing Instance Poller.example_lib.

(** One node starts under documents that are edited before the other does. *)
Definition stale_reads : PollReads := example_reads "min=6" "t6" EmptyString "old".
Definition stale : NodeState := boot (λ b, b) (example_node "n1") stale_reads 0.
Definition reload_tick : Tick := {|
  tk_states := ∅; tk_elapsed_at := seconds 60; tk_reads := cluster_reads; tk_polled_at := seconds 60;
  tk_nodes := Ok [beat_object "n3" 0; beat_object "n1" 0; beat_object "n2" 0];
  tk_now := 0; tk_finished _ := false |}.
Definition reloaded (id : string) (s : NodeState) : NodeState := iterated id reload_tick s.

#[local] Abbreviation example_unfolds answering booting time :=
  (unfolds (λ b, b) (λ _, 7%N) "0.1" "0.14" example_root (answers := answering) (boots := booting) (timely := time)).
#[local] Abbreviation example_edited :=
  (example_unfolds (coherent example_body) (coherent example_body) any_time).
#[local] Abbreviation example_reload := (example_unfolds (partial cluster_reads) (eq cluster_reads) any_time).

Lemma example_edits :
  example_edited left_behind [Joins (joining "n1"); Joins (joining "n2")] (example_cluster 0 0 stale (joined "n2")).
Proof.
  eapply run_cons.
  { refine (ev_join _ _ _ _ _ _ (joining "n1") (example_node "n1") stale_reads _ _ _ _);
      [reflexivity|apply (example_coherent "t6" "old")|apply not_elem_of_nil|apply not_elem_of_nil]. }
  eapply run_cons; [|apply run_nil].
  refine (ev_join _ _ _ _ _ _ (joining "n2") (example_node "n2") cluster_reads _ (example_coherent "c" "t5") _ _);
    [reflexivity| |apply not_elem_of_nil].
  apply (bool_decide_unpack _). vm_compute. constructor.
Qed.

Lemma reload_lists s1 s2 : listing (example_cluster 0 0 s1 s2) (tk_nodes reload_tick).
Proof. simpl. apply (bool_decide_unpack _). vm_compute. constructor. Qed.

Lemma example_reloads :
  let c1 := example_cluster 0 0 stale (joined "n2") in
  let ca := example_cluster 0 0 (reloaded "n1" stale) (joined "n2") in
  let c2 := example_cluster 0 0 (reloaded "n1" stale) (reloaded "n2" (joined "n2")) in
  let es := [Iterates 0 reload_tick; Iterates 1 reload_tick] in
  example_reload c1 es c2 ∧
  ∀ i, i < 2 → reloads (λ b, b) (λ _, 7%N) "0.1" "0.14" example_root cluster_reads i c1 es c2.
Proof.
  intros c1 ca c2 es. pose proof (partial_refl cluster_reads : partial cluster_reads (tk_reads reload_tick)) as Hpa.
  pose proof (proj1 (example_iterates any_time 0 0 reload_tick stale (joined "n2") eq_refl Hpa (reload_lists _ _))
    ltac:(vm_compute; reflexivity)) as H1.
  pose proof (proj2 (example_iterates any_time 0 0 reload_tick (reloaded "n1" stale) (joined "n2") eq_refl Hpa
    (reload_lists _ _)) ltac:(vm_compute; reflexivity)) as H2.
  split; [by eapply run_cons; [exact H1|apply run_one]|].
  intros [|[|i]] Hi; [| |lia].
  - exists [], c1, (Iterates 0 reload_tick), ca, [Iterates 1 reload_tick].
    split; [done|]. split; [apply run_nil|]. split; [exact H1|]. split; [|by apply run_one].
    exists reload_tick, (example_node "n1", stale). split_and!; [done|done|done|by vm_compute].
  - exists [Iterates 0 reload_tick], ca, (Iterates 1 reload_tick), c2, [].
    split; [done|]. split; [by apply run_one|]. split; [exact H2|]. split; [|apply run_nil].
    exists reload_tick, (example_node "n2", joined "n2"). split_and!; [done|done|done|by vm_compute].
Qed.

Lemma cluster_reconfigures_witness :
  let s1 := reloaded "n1" stale in
  let s2 := reloaded "n2" (joined "n2") in
  fs_databases (ns_state stale) !! "s3://b/db" ≠ fs_databases (ns_state s1) !! "s3://b/db" ∧
  length (filter (runs_task ("s3://b/db", Gc, None)) (cl_fleet (settled s1 s2))) = 1.
Proof.
  intros s1 s2. split; [by vm_compute|]. destruct example_reloads as [Hreload Hre].
  pose proof (example_settle s1 s2 ltac:(vm_compute; reflexivity) ltac:(vm_compute; reflexivity)) as Hsettle.
  pose proof (example_lapse s1 s2) as Hlapse.
  assert (Hren : renewed (λ b, b) example_root cluster_reads (example_cluster 0 0 s1 s2) 0) by (by apply example_renewed).
  destruct (cluster_reconfigures (λ b, b) (λ _, 7%N) "0.1" "0.14" example_root cluster_reads example_body
    SleetConfig_default [db_meta 5 "t5"] (example_coherent "c" "t5") example_published
    (λ dir name _, last_snoc name dir) left_behind _ _ _ _ _ _ _ _
    left_behind_vacant example_edits Hreload Hre Hren (λ ns _, not_elem_of_nil _) Hlapse Hsettle) as [Hruns _].
  - by repeat constructor.
  - by repeat constructor.
  - by repeat constructor.
  - by vm_compute.
  - apply example_lists.
  - refine (proj1 (Hruns "s3://b/db" (scheduler_config None (Some 5%N)) Gc _ _) _);
      [vm_compute; reflexivity| |discriminate].
    apply (bool_decide_unpack _). vm_compute. constructor.
Defined.

Lemma cluster_can_reconfigure_witness :
  ∃ c3, length (cl_fleet c3) = 2 ∧ converged (λ b, b) (λ _, 7%N) example_root cluster_reads c3.
Proof.
  destruct (cluster_can_reconfigure (λ b, b) (λ _, 7%N) "0.1" "0.14" example_root cluster_reads example_body
    SleetConfig_default [db_meta 5 "t5"] (example_coherent "c" "t5") example_published
    (λ dir name _, last_snoc name dir) left_behind _ _ left_behind_vacant example_edits)
    as (es & c2 & es' & c3 & _ & _ & _ & Hf & Hc); [by vm_compute|].
  exists c3. split; [|exact Hc]. apply (f_equal length) in Hf. rewrite !length_fmap in Hf. exact Hf.
Defined.
