(* ===== verification/Writers.v ===== *)
(** * Who writes to a mirror target

    The mirror's theorems ([Alone], [PruneSafety]) let one task write to a
    target.  Here [Cluster]'s convergence gives them that task: when the
    configured targets are apart, no two assignments have one destination, and
    the cluster runs each assignment once. *)

From Stdlib Require Import Ascii.
From S2P Require Import Prelude Order Text Service Placement Heartbeat Store Root.
From S2P Require Import Registry Config Validate Targets Poller Caching Daemon Supervise Services Node Cluster.

(** The only element that satisfies [P] is in one place. *)
Lemma filter_one_index {A} (P : A → Prop) `{∀ x, Decision (P x)} (l : list A) i j x y :
  length (filter P l) = 1 → l !! i = Some x → P x → l !! j = Some y → P y → i = j.
Proof.
  assert (Hlt : ∀ i j x y, length (filter P l) = 1 → l !! i = Some x → P x → l !! j = Some y → P y → ¬ i < j).
  { clear. intros i j x y Hone Hi Hx Hj Hy Hlt.
    rewrite <-(take_drop j l), filter_app, List.length_app in Hone.
    assert (Hnil : ∀ z k, z ∈ k → P z → 0 < length (filter P k)).
    { intros z k Hz Pz. assert (Hin : z ∈ filter P k) by (by apply list_elem_of_filter).
      destruct (filter P k); [by apply elem_of_nil in Hin|simpl; lia]. }
    pose proof (Hnil x (take j l)) as H1. pose proof (Hnil y (drop j l)) as H2.
    rewrite <-(Nat.add_0_r j), <-lookup_drop in Hj. rewrite <-(lookup_take_lt l j i Hlt) in Hi.
    apply list_elem_of_lookup_2 in Hi, Hj. specialize (H1 Hi Hx). specialize (H2 Hj Hy). lia. }
  intros Hone Hi Hx Hj Hy. destruct (Nat.lt_total i j) as [Hij|[Hij|Hij]]; [exfalso|done|exfalso].
  - exact (Hlt i j x y Hone Hi Hx Hj Hy Hij).
  - exact (Hlt j i y x Hone Hj Hy Hi Hx Hij).
Qed.

Section writers.
Context `{StoreLib, UrlLib, PercentLib, !ConfigLib, !ServiceLib}.
Context (utf8_error : string → string) (fingerprint : ResolvedServices → N).
Context (root : FleetRoot) (reads : PollReads).
#[local] Abbreviation published_state := (published_state utf8_error root reads).
#[local] Abbreviation converged := (converged utf8_error fingerprint root reads).

(** The settings the root gives a database. *)
Definition configured (url : string) (r : ResolvedServices) : Prop :=
  ∃ db, fs_databases published_state !! url = Some db ∧ r = resolve (fs_config published_state) (Some db).
Definition target_of (url : string) (t : AppliedTarget) : Prop :=
  ∃ r, configured url r ∧ t ∈ applied_targets url (rs_mirror r).

(** Neither root is the other or lies below it. *)
Definition roots_apart (s1 s2 : ResolvedMirrorTarget) : Prop :=
  ∀ u1 u2 c1 c2 rest, rmt_url s1 = Some u1 → rmt_url s2 = Some u2 →
    canonicalize_url u1 = Ok c1 → canonicalize_url u2 = Ok c2 → ¬ covers c1 c2 rest ∧ ¬ covers c2 c1 rest.

(** The targets are apart: what two databases, or two targets, send to roots
    that are not apart is one target's mapping of a prefix; a target without a
    prefix is one database's. *)
Definition separate_targets : Prop :=
  ∀ url1 t1 url2 t2, target_of url1 t1 → target_of url2 t2 →
    (at_name t1 = at_name t2 ∧ rmt_url (at_settings t1) = rmt_url (at_settings t2) ∧
     rmt_source_prefix (at_settings t1) = rmt_source_prefix (at_settings t2) ∧
     (rmt_source_prefix (at_settings t1) = None → url1 = url2)) ∨
    roots_apart (at_settings t1) (at_settings t2).

(** Two ways to write one destination: a root covers the other. *)
Lemma common_extension (a b r1 r2 : string) :
  a +:+ r1 = b +:+ r2 → (r1 = EmptyString ∨ ∃ r, r1 = String "/" r) → (r2 = EmptyString ∨ ∃ r, r2 = String "/" r) →
  (∃ rest, covers a b rest) ∨ ∃ rest, covers b a rest.
Proof.
  unfold covers. revert b. induction a as [|x a IH]; intros b E Hb1 Hb2.
  - left. exists b. split; [done|]. simpl in E. destruct b as [|y b]; [by left|right].
    destruct Hb1 as [->|[r ->]]; [done|]. injection E as <- _. by exists b.
  - destruct b as [|y b].
    + right. exists (String x a). split; [done|]. destruct Hb2 as [->|[r ->]]; [done|].
      injection E as -> _. right. by exists a.
    + injection E as -> E. destruct (IH b E Hb1 Hb2) as [(rest & -> & Hr)|(rest & -> & Hr)];
        [left|right]; by exists rest.
Qed.

(** A destination is its target's root, extended by whole segments. *)
Lemma destination_extends url t :
  target_of url t →
  ∃ u c rest, rmt_url (at_settings t) = Some u ∧ canonicalize_url u = Ok c ∧ at_destination t = c +:+ rest ∧
    (rest = EmptyString ∨ ∃ r, rest = String "/" r) ∧
    (∀ p, rmt_source_prefix (at_settings t) = Some p → ∃ pre, canonicalize_url p = Ok pre ∧ url = pre +:+ rest).
Proof.
  intros (r & _ & Ht). apply elem_of_applied_targets in Ht as (_ & _ & _ & u & c & Hu & Hc & Hd).
  destruct (rmt_source_prefix _) as [p|].
  - destruct Hd as (pre & rest & Hpre & [-> Hr] & Hd). exists u, c, rest. split_and!; try done.
    intros p' [= <-]. by exists pre.
  - exists u, c, EmptyString. split_and!; [done|done|by rewrite app_nil_r|by left|done].
Qed.

(** One destination, one assignment. *)
Lemma destination_names_target url1 t1 url2 t2 :
  separate_targets → target_of url1 t1 → target_of url2 t2 → at_destination t1 = at_destination t2 →
  url1 = url2 ∧ at_name t1 = at_name t2.
Proof.
  intros Hse T1 T2 E.
  destruct (destination_extends _ _ T1) as (u1 & c1 & r1 & Hu1 & Hc1 & D1 & Hr1 & Hp1).
  destruct (destination_extends _ _ T2) as (u2 & c2 & r2 & Hu2 & Hc2 & D2 & Hr2 & Hp2).
  rewrite D1, D2 in E. destruct (Hse _ _ _ _ T1 T2) as [(En & Eu & Ep & Hexact)|Hapart].
  - split; [|done]. rewrite Hu1, Hu2 in Eu. injection Eu as <-. rewrite Hc1 in Hc2. injection Hc2 as <-.
    apply (f_equal String.list_ascii_of_string) in E. rewrite !bytes_app in E. apply (inj _) in E.
    apply (inj String.list_ascii_of_string) in E. rewrite <-E, <-Ep in *.
    destruct (rmt_source_prefix _) as [p|]; [|by apply Hexact].
    destruct (Hp1 p eq_refl) as (pre1 & Hpre1 & ->), (Hp2 p eq_refl) as (pre2 & Hpre2 & ->). congruence.
  - exfalso. destruct (common_extension _ _ _ _ E Hr1 Hr2) as [[rest Hcov]|[rest Hcov]];
      by destruct (Hapart _ _ _ _ rest Hu1 Hu2 Hc1 Hc2).
Qed.

(** The [i]th node runs the assignment, whose task mirrors to [dest]. *)
Definition writes (c : Cluster) (i : nat) (key : Assignment) (dest : string) : Prop :=
  ∃ ns r source d t, cl_fleet c !! i = Some ns ∧ runs_task key ns ∧ configured key.1.1 r ∧
    task_body key r = Some (RunsMirror source d t) ∧ dh_url d = dest.

(** What a mirror task's body says of its assignment. *)
Lemma mirror_body_names url svc tgt r source d t :
  task_body (url, svc, tgt) r = Some (RunsMirror source d t) →
  svc = Mirror ∧ tgt = Some (at_name t) ∧ t ∈ applied_targets url (rs_mirror r) ∧ dh_url d = at_destination t.
Proof.
  unfold task_body. case_decide as Hm.
  - intros (name & -> & Hb)%bind_Some. destruct (List.find _ _) as [t'|] eqn:Ef; [|done].
    apply List.find_some in Ef as [Ht%list_elem_of_In Hn%bool_decide_eq_true].
    apply with_open_cases in Hb as [(e & _ & [=])|(src & _ & _ & Hb)].
    apply with_open_cases in Hb as [(e & _ & [=])|(dst & _ & Hd & Hb)].
    injection Hb as <- <- <-. by rewrite Hn.
  - intros [(e & _ & [=])|(h & _ & _ & Hb)]%with_open_cases. by apply bind_Some in Hb as (call & _ & [=]).
Qed.

(** C8: in a converged cluster whose targets are apart, nothing has two
    writers: if two running tasks mirror to the same root, they are one task on
    one node; and no mirror task runs on a node that does not offer the mirror
    service.  (A cancelled task is not counted, though it may still be
    finishing its copies.) *)
Theorem mirrors_have_one_writer c dest i1 key1 i2 key2 :
  converged c → separate_targets → writes c i1 key1 dest → writes c i2 key2 dest →
  i1 = i2 ∧ key1 = key2 ∧
  ∃ ns, cl_fleet c !! i1 = Some ns ∧ Mirror ∈ no_services (nd_options ns.1).
Proof.
  intros [Hruns Hown] Hse (ns1 & r1 & s1 & d1 & t1 & Hi1 & Hr1 & Hcf1 & Hb1 & Hd1)
    (ns2 & r2 & s2 & d2 & t2 & Hi2 & Hr2 & Hcf2 & Hb2 & Hd2).
  destruct key1 as [[url1 svc1] tgt1], key2 as [[url2 svc2] tgt2]. simpl in Hcf1, Hcf2.
  apply mirror_body_names in Hb1 as (-> & -> & Ht1 & E1). apply mirror_body_names in Hb2 as (-> & -> & Ht2 & E2).
  destruct (destination_names_target url1 t1 url2 t2) as [<- En];
    [done|by exists r1|by exists r2|congruence|]. rewrite <-En in *.
  destruct Hr1 as [task1 Htask1].
  destruct (Hown ns1 _ _ _ _ ltac:(by eapply list_elem_of_lookup_2) Htask1) as (db & Hdb & Hsvc & Hof & _).
  destruct Hcf1 as (db' & Hdb' & ->). assert (db' = db) as -> by congruence.
  assert (Hone : length (filter (runs_task (url1, Mirror, Some (at_name t1))) (cl_fleet c)) = 1).
  { apply (proj2 (Hruns url1 db Mirror Hdb Hsvc) eq_refl); [|done].
    assert (Hin : ns1 ∈ filter (λ ns, Mirror ∈ no_services (nd_options ns.1)) (cl_fleet c)).
    { apply list_elem_of_filter. split; [done|]. by eapply list_elem_of_lookup_2. }
    destruct (filter _ _); [by apply elem_of_nil in Hin|simpl; lia]. }
  split_and!; [|done|eauto].
  eapply (filter_one_index _ (cl_fleet c)); [exact Hone|exact Hi1| |exact Hi2|done]. by eexists.
Qed.
End writers.

(** ** Examples *)
Import Store.Concrete Registry.Concrete.
#[local] Instance writers_services : ServiceLib := {|
  kind_is_fenced _ := false; StoreRoot := string; store_parse_url u := Ok (u_host u) |}.

(** A fleet that mirrors the databases of a bucket below a backup root. *)
Definition backup_target : MirrorTargetOverrides :=
  Build_MirrorTargetOverrides (Some "s3://dr/mirrors") (Some "s3://b/") None None None None None None None None None.
Definition backed_up : SleetConfig := {|
  cfg_node := NodeConfig_default;
  cfg_database := Build_DatabaseConfig None None None None (Some {| mro_targets := {[ "backup" := backup_target ]} |}) |}.
#[local] Instance writers_config : ConfigLib := {|
  TomlError := string;
  toml_config _ := Ok backed_up;
  toml_database _ := Ok DatabaseConfig_default;
  format_duration := decimal;
  debug_str := quoted;
  display_url_parse_error e := e;
  display_toml_error e := e;
|}.
Definition writers_reads : PollReads := example_reads EmptyString "c" EmptyString "t".
Definition no_cluster : Cluster := {| cl_now := 0; cl_beats := ∅; cl_fleet := []; cl_deletes := [] |}.

#[local] Abbreviation example_state := (published_state (λ b, b) example_root writers_reads).
#[local] Abbreviation example_targets := (target_of (λ b, b) example_root writers_reads).

Lemma example_databases : fs_databases example_state = {[ "s3://b/db" := DatabaseConfig_default ]}.
Proof. vm_compute. reflexivity. Qed.

Lemma example_target url t :
  example_targets url t → at_name t = "backup" ∧
    rmt_url (at_settings t) = Some "s3://dr/mirrors" ∧ rmt_source_prefix (at_settings t) = Some "s3://b/".
Proof.
  intros (r & (db & Hdb & ->) & Ht). rewrite example_databases in Hdb. apply lookup_singleton_Some in Hdb as [<- <-].
  apply (list_elem_of_fmap_2 (λ t, (at_name t, rmt_url (at_settings t), rmt_source_prefix (at_settings t)))) in Ht.
  assert (E : (λ t, (at_name t, rmt_url (at_settings t), rmt_source_prefix (at_settings t))) <$>
    applied_targets "s3://b/db" (rs_mirror (resolve (fs_config example_state) (Some DatabaseConfig_default))) =
    [("backup", Some "s3://dr/mirrors", Some "s3://b/")]) by (vm_compute; reflexivity).
  rewrite E in Ht. clear E. apply list_elem_of_singleton in Ht. injection Ht as E1 E2 E3. split_and!; assumption.
Qed.

Lemma example_separate : separate_targets (λ b, b) example_root writers_reads.
Proof.
  intros url1 t1 url2 t2 T1 T2. left.
  destruct (example_target _ _ T1) as (E1 & U1 & P1), (example_target _ _ T2) as (E2 & U2 & P2).
  split_and!; congruence.
Qed.

Lemma example_coherent_reads : coherent (λ _, EmptyString) writers_reads.
Proof. split; simpl; [by intros tag body [= <- <-]|by intros ms m tag body _ _ _ [= <-]]. Qed.
Lemma example_published_reads : published (λ b, b) writers_reads backed_up [db_meta 0 "t"].
Proof.
  split; [vm_compute; reflexivity|reflexivity|]. intros e [He _]%(registry_entries_spec (λ b, b)) Hs.
  apply list_elem_of_singleton in He. by rewrite He in Hs.
Qed.

#[local] Abbreviation backup_key := ("s3://b/db", Mirror, Some "backup").
Lemma example_body_mirrors :
  ∃ source d t, task_body backup_key (resolve (fs_config example_state) (Some DatabaseConfig_default)) =
    Some (RunsMirror source d t) ∧ dh_url d = "s3://dr/mirrors/db".
Proof.
  set (body := task_body _ _). vm_compute in body. do 3 eexists. split; reflexivity.
Qed.
Lemma example_applied :
  ∃ t, t ∈ applied_targets "s3://b/db" (rs_mirror (resolve (fs_config example_state) (Some DatabaseConfig_default))) ∧
    at_name t = "backup".
Proof. eexists. split; [vm_compute; apply list_elem_of_here|reflexivity]. Qed.
Lemma example_serves : Mirror ∈ rs_services (resolve (fs_config example_state) (Some DatabaseConfig_default)).
Proof. apply (bool_decide_unpack _). vm_compute. constructor. Qed.

(** The node runs the mirror once the cluster has converged. *)
Lemma example_writes c :
  converged (λ b, b) (λ _, 7%N) example_root writers_reads c → (cl_fleet c).*1 = [example_node "n1"] →
  writes (λ b, b) example_root writers_reads c 0 backup_key "s3://dr/mirrors/db".
Proof.
  intros [Hruns _] Hf. destruct c as [now beats fleet dels]. cbn [cl_fleet] in *.
  destruct fleet as [|[n s] []]; [discriminate Hf| |discriminate Hf]. injection Hf as ->.
  assert (Hdb : fs_databases example_state !! "s3://b/db" = Some DatabaseConfig_default)
    by (rewrite example_databases; apply lookup_singleton_eq).
  destruct example_applied as (t & Ht & Hn).
  pose proof (proj2 (Hruns _ _ Mirror Hdb example_serves) eq_refl ltac:(cbn [cl_fleet]; vm_compute; lia) t Ht) as Hone.
  rewrite Hn in Hone. cbn [cl_fleet] in Hone. rewrite filter_cons in Hone. case_decide as Hrun; [|done].
  destruct example_body_mirrors as (source & d & t' & Hb & Hd).
  exists (example_node "n1", s), (resolve (fs_config example_state) (Some DatabaseConfig_default)), source, d, t'.
  split; [reflexivity|]. split; [exact Hrun|].
  split; [exact (ex_intro _ DatabaseConfig_default (conj Hdb eq_refl))|]. split; [exact Hb|exact Hd].
Qed.

Lemma mirrors_have_one_writer_witness :
  ∃ c i key, writes (λ b, b) example_root writers_reads c i key "s3://dr/mirrors/db" ∧
    ∀ i' key', writes (λ b, b) example_root writers_reads c i' key' "s3://dr/mirrors/db" → i = i' ∧ key = key'.
Proof.
  assert (Hjoin : ∀ dir name, "/"%char ∉ bytes name → filename (path_join dir name) = Some name)
    by (intros dir name _; apply last_snoc).
  assert (Hv : vacant no_cluster) by (split; [reflexivity|apply map_Forall_empty]).
  pose proof (ev_join (λ b, b) (λ _, 7%N) "0.1" "0.14" example_root (answers := partial writers_reads)
    (boots := eq writers_reads) (timely := renewed (λ b, b) example_root writers_reads)
    no_cluster (joining "n1") (example_node "n1") writers_reads eq_refl eq_refl
    (not_elem_of_nil _) (not_elem_of_nil _)) as Hev.
  pose proof (calm_event (λ b, b) (λ _, 7%N) "0.1" "0.14" example_root writers_reads (λ _, EmptyString) backed_up
    [db_meta 0 "t"] example_coherent_reads example_published_reads Hjoin _ _ _ ltac:(by apply calm_vacant) Hev) as Hcalm.
  destruct (calm_settles (λ b, b) (λ _, 7%N) "0.1" "0.14" example_root writers_reads (λ _, EmptyString) backed_up
    [db_meta 0 "t"] example_coherent_reads example_published_reads Hjoin _ Hcalm ltac:(by vm_compute))
    as (es & c & _ & _ & Hf & Hconv).
  pose proof (example_writes c Hconv Hf) as Hw. exists c, 0, backup_key. split; [exact Hw|]. intros i' key' Hw'.
  destruct (mirrors_have_one_writer (λ b, b) (λ _, 7%N) example_root writers_reads c _ _ _ _ _
    Hconv example_separate Hw Hw') as (Hi & Hk & _).
  by split.
Defined.
