(* ===== verification/Response.v ===== *)
(** * Responses of the one-shot subcommands (src/response.rs) *)

From S2P Require Import Prelude Service.

Record NodeStatus := {
  nst_node_id : string;
  nst_live : bool;
  nst_heartbeat_age : Duration;
  nst_services : list Service;
  nst_sleet_version : option string;
  nst_slatedb_version : option string;
}.

Record QueueStatus := { qs_claimable : N; qs_running : N }.

Record ServicePlacement := { sp_service : Service; sp_nodes : list string }.

Record DatabaseStatus := {
  ds_url : string;
  ds_services : list ServicePlacement;
  ds_queue : option QueueStatus;
}.

Record MirrorStatus := {
  ms_database : string;
  ms_target : string;
  ms_destination : string;
  ms_source_manifest_id : option N;
  ms_dest_manifest_id : option N;
  ms_manifests_behind : option N;
  ms_wal_behind : option N;
  ms_seconds_behind : option N;
  ms_error : option string;
}.

Record StatusResponse := {
  sr_nodes : list NodeStatus;
  sr_databases : list DatabaseStatus;
  sr_mirrors : list MirrorStatus;
  sr_warnings : list string;
}.

Record RegisterResponse := { rr_url : string; rr_file : string; rr_created : bool }.

Record MirrorSyncResponse := {
  msr_database : string;
  msr_target : string;
  msr_destination : string;
  msr_head : N;
  msr_committed : bool;
  msr_manifests_committed : N;
  msr_objects_copied : N;
  msr_bytes_copied : N;
  msr_pruned_manifests : N;
  msr_pruned_objects : N;
}.

Record MirrorRestoreResponse := {
  mrr_backup : string;
  mrr_destination : string;
  mrr_manifest_id : N;
  mrr_manifests_committed : N;
  mrr_objects_copied : N;
  mrr_bytes_copied : N;
}.

(** One variant per subcommand. *)
Inductive Response :=
  | ResponseStatus (r : StatusResponse)
  | ResponseRegister (r : RegisterResponse)
  | ResponseMirrorSync (r : MirrorSyncResponse)
  | ResponseMirrorRestore (r : MirrorRestoreResponse).
