(* ===== verification/Ops.v ===== *)
(** * Operator operations on the fleet root (src/ops.rs)

    [register] writes a registry file, [status] derives the fleet's state from
    one reading of the root.  Both are functions of the store's answers.  The
    theorems: a registered database is in every later poll that lists its
    file; the placement [status] reports is what the nodes run. *)

From Stdlib Require Import Ascii.
From S2P Require Import Prelude Order Text Service Placement Heartbeat Store Root.
From S2P Require Import Registry Config Validate Targets Poller Daemon Services Layout Response.

Inductive OpsErrorOf (PE : Type) :=
  | OpsUrl (e : UrlErrorOf PE)
  | OpsStore (e : StoreError)
  | NotRegistered (url : string)
  | NoSuchTarget (target url : string)
  | OpsService (e : ServiceErrorOf PE)
  | OpsMirror (e : MirrorError).
Arguments OpsUrl {PE} e.
Arguments OpsStore {PE} e.
Arguments NotRegistered {PE} url.
Arguments NoSuchTarget {PE} target url.
Arguments OpsService {PE} e.
Arguments OpsMirror {PE} e.
Abbreviation OpsError := (OpsErrorOf UrlParseError).

Definition STATUS_PROBE_TIMEOUT : Duration := from_secs 10.

(** [Vec<String>::sort]. *)
Definition sort_strings (l : list string) : list string := sort_by String.le l.

Section ops.
Context `{StoreLib, UrlLib, PercentLib, !ConfigLib}.
Context (utf8_error : string → string).

(** ** Registering *)

(** [put] is the store's answer to the create-only PUT of an empty object;
    [None] is the panic of [database_path]. *)
Definition register (root : FleetRoot) (url : string) (put : StorePath → Result StoreError unit)
    : option (Result OpsError RegisterResponse) :=
  match canonicalize_database_url url with
  | Err e => Some (Err (OpsUrl e))
  | Ok canonical =>
      path ← database_path root canonical;
      let response created :=
        {| rr_url := canonical; rr_file := "dbs/" +:+ file_name canonical; rr_created := created |} in
      Some match put path with
           | Ok _ => Ok (response true)
           | Err AlreadyExists => Ok (response false)
           | Err e => Err (OpsStore e)
           end
  end.

(** ** Status *)

(** [node_statuses]: [body] is the GET of a heartbeat, decoded. *)
Definition node_status (timeout : Duration) (body : StorePath → option Heartbeat) (entry : HeartbeatEntry)
    : NodeStatus :=
  let b := body (he_location entry) in
  {| nst_node_id := he_node_id entry;
     nst_live := bool_decide (he_age entry < timeout)%N;
     nst_heartbeat_age := from_secs (as_secs (he_age entry));
     nst_services := he_services entry;
     nst_sleet_version := hb_sleet_version <$> b;
     nst_slatedb_version := hb_slatedb_version <$> b |}.
Definition node_statuses (entries : list HeartbeatEntry) (timeout : Duration) (body : StorePath → option Heartbeat)
    : list NodeStatus :=
  node_status timeout body <$> btree_values (youngest_per_node entries).

(** The locals of the database loop. *)
Record Derived := {
  dv_probes : list (string * AppliedTarget);
  dv_destinations : gmap string (list string);
  dv_unoffered : list Service;
  dv_warnings : list string;
}.
Definition Derived_default (warnings : list string) : Derived :=
  {| dv_probes := []; dv_destinations := ∅; dv_unoffered := []; dv_warnings := warnings |}.

Definition add_unoffered (d : Derived) (service : Service) (unoffered : bool) : Derived :=
  {| dv_probes := dv_probes d; dv_destinations := dv_destinations d;
     dv_unoffered := if unoffered then service :: dv_unoffered d else dv_unoffered d;
     dv_warnings := dv_warnings d |}.

(** One applied target of one database. *)
Definition place_target (mirrors : bool) (url : string) (cs : list string)
    (s : Derived * list ServicePlacement) (target : AppliedTarget) : Derived * list ServicePlacement :=
  let owner := owner_target url (at_name target) cs in
  let d := add_unoffered s.1 Mirror (bool_decide (owner = None)) in
  (if mirrors
   then {| dv_probes := dv_probes d ++ [(url, target)];
           dv_destinations :=
             <[at_destination target :=
                 default [] (dv_destinations d !! at_destination target) ++
                   [url +:+ " target " +:+ at_name target]]> (dv_destinations d);
           dv_unoffered := dv_unoffered d; dv_warnings := dv_warnings d |}
   else d,
   s.2 ++ [{| sp_service := Mirror; sp_nodes := option_list owner |}]).

Definition warn (d : Derived) (w : list string) : Derived :=
  {| dv_probes := dv_probes d; dv_destinations := dv_destinations d;
     dv_unoffered := dv_unoffered d; dv_warnings := dv_warnings d ++ w |}.

(** One service of one database. *)
Definition place_service (mirrors : bool) (live : list NodeView) (url : string) (resolved : ResolvedServices)
    (s : Derived * list ServicePlacement) (service : Service) : Derived * list ServicePlacement :=
  let cs := candidates live service in
  if decide (service = Mirror) then
    let applied := applied_targets url (rs_mirror resolved) in
    let d := if mirrors && bool_decide (applied = [])
             then warn s.1 [url +:+ " has mirror enabled but no applicable target"] else s.1 in
    fold_left (place_target mirrors url cs) applied (d, s.2)
  else
    let os := owners url service (owner_count resolved service) cs in
    (add_unoffered s.1 service (bool_decide (os = [])),
     s.2 ++ [{| sp_service := service; sp_nodes := os |}]).

Definition place_database (mirrors : bool) (config : SleetConfig) (live : list NodeView)
    (s : Derived * list DatabaseStatus) (e : string * DatabaseConfig) : Derived * list DatabaseStatus :=
  let resolved := resolve config (Some e.2) in
  let '(d, placements) :=
    fold_left (place_service mirrors live e.1 resolved) (rs_services resolved) (s.1, []) in
  (d, s.2 ++ [{| ds_url := e.1; ds_services := placements; ds_queue := None |}]).

Definition place_all (mirrors : bool) (state : FleetState) (live : list NodeView) (warnings : list string)
    : Derived * list DatabaseStatus :=
  fold_left (place_database mirrors (fs_config state) live) (btree_iter (fs_databases state))
    (Derived_default warnings, []).

(** [queue_status]: [read] is the answer of [read_compactions]; [None] is the
    panic of [DatabaseHandle::open]. *)
Definition queue_status `{!ServiceLib} (service_error : ServiceError → string) (slate_error : string → string)
    (read : Result string (option (list CompactionStatus))) (url : string) : option (Result string QueueStatus) :=
  opened ← DatabaseHandle_open url;
  Some match opened with
       | Err e => Err (service_error e)
       | Ok _ =>
           match queue_depth read with
           | Err e => Err (slate_error e)
           | Ok depth => Ok {| qs_claimable := qd_claimable depth; qs_running := qd_running depth |}
           end
       end.

(** One queue probe; [None] when the deadline passed first. *)
Definition queue_probe (answer : option (Result string QueueStatus)) : Result string QueueStatus :=
  default (Err ("timed out after " +:+ decimal (as_secs STATUS_PROBE_TIMEOUT) +:+ "s")) answer.

(** The queue loop: [queue] is each database's probe, by URL. *)
Definition add_queue (queue : string → Result string QueueStatus) (db : DatabaseStatus)
    : DatabaseStatus * list string :=
  match queue (ds_url db) with
  | Ok q => ({| ds_url := ds_url db; ds_services := ds_services db; ds_queue := Some q |}, [])
  | Err e => (db, ["failed to read compactions for " +:+ ds_url db +:+ ": " +:+ e])
  end.

Definition destination_warnings (databases : gmap string DatabaseConfig) (e : string * list string) : list string :=
  (if bool_decide (1 < length e.2)
   then ["mirror destinations collide: " +:+ join " and " e.2 +:+ " all map to " +:+ e.1] else []) ++
  (if bool_decide (is_Some (databases !! e.1))
   then ["mirror destination " +:+ e.1 +:+ " is itself a registered database; its services will fork the " +:+
         "mirror's history"] else []).

(** What [status] reads besides the poll: the listing of [nodes/] and its
    clock, the heartbeat bodies, and the two kinds of probes. *)
Record StatusReads := {
  st_nodes : Result StoreError (list ObjectMeta);
  st_now : Instant;
  st_body : StorePath → option Heartbeat;
  st_mirror : string * AppliedTarget → MirrorStatus;
  st_queue : string → option (Result string QueueStatus);
}.

(** [for service in unoffered] iterates a hash set in any order; the sort
    that follows makes it immaterial. *)
Definition unoffered_warnings (unoffered : list Service) : list string :=
  (λ s, "no live node offers " +:+ as_str s) <$> filter (.∈ unoffered) ALL.

Definition status (root : FleetRoot) (reads : PollReads) (r : StatusReads) (compactions mirrors : bool)
    : Result OpsError StatusResponse :=
  let state := (poll utf8_error root reads ConfigPoller_default).2 in
  entries ← map_err OpsStore (list_heartbeats (st_now r) (st_nodes r));
  let timeout := heartbeat_timeout (cfg_node (fs_config state)) in
  let '(d, databases) := place_all mirrors state (node_view entries timeout) (fs_warnings state) in
  let queued := if compactions then add_queue (λ url, queue_probe (st_queue r url)) <$> databases else (λ db, (db, [])) <$> databases in
  Ok {| sr_nodes := node_statuses entries timeout (st_body r);
        sr_databases := queued.*1;
        sr_mirrors := st_mirror r <$> dv_probes d;
        sr_warnings := sort_strings (dv_warnings d ++ concat queued.*2 ++
          concat (destination_warnings (fs_databases state) <$> btree_iter (dv_destinations d)) ++
          unoffered_warnings (dv_unoffered d)) |}.

(** ** Resolving a target *)
Definition applied_target (root : FleetRoot) (reads : PollReads) (db_url target_name : string)
    : Result OpsError (string * AppliedTarget) :=
  canonical ← map_err OpsUrl (canonicalize_database_url db_url);
  let state := (poll utf8_error root reads ConfigPoller_default).2 in
  match fs_databases state !! canonical with
  | None => Err (NotRegistered canonical)
  | Some db =>
      let resolved := resolve (fs_config state) (Some db) in
      match List.find (λ t, bool_decide (at_name t = target_name)) (applied_targets canonical (rs_mirror resolved)) with
      | None => Err (NoSuchTarget target_name canonical)
      | Some applied => Ok (canonical, applied)
      end
  end.
(** ** A registered database is seen *)

Lemma register_inv root url put resp :
  register root url put = Some (Ok resp) →
  canonicalize_database_url url = Ok (rr_url resp) ∧
  ∃ path, database_path root (rr_url resp) = Some path ∧
    put path = (if rr_created resp then Ok () else Err AlreadyExists).
Proof.
  unfold register. destruct (canonicalize_database_url url) as [c|e]; [|done].
  intros (path & Hp & Hr)%bind_Some. injection Hr as Hr.
  destruct (put path) as [[]|[]] eqn:Eput; try done; injection Hr as <-; simpl; eauto.
Qed.

Lemma file_name_not_empty u : file_name u ≠ EmptyString.
Proof. unfold file_name. intros E%(f_equal String.length). rewrite length_app in E. simpl in E. lia. Qed.

Lemma canonicalize_database_url_canonical url c :
  canonicalize_database_url url = Ok c → canonicalize_url c = Ok c → canonicalize_database_url c = Ok c.
Proof.
  unfold canonicalize_database_url. destruct (canonicalize_url url) as [c'|]; [|done]. simpl.
  case_decide; [done|]. intros [= ->] ->. simpl. by rewrite decide_False.
Qed.

(** The databases of a poll whose LIST succeeded. *)
Lemma poll_databases root reads p metas url :
  list_prefix (rd_list reads) = Ok metas →
  let state := (poll utf8_error root reads p).2 in
  fs_databases state !! url =
    effective utf8_error (fs_config state) reads (cp_files (poll_config utf8_error root reads p).1) <$>
      winner (registry_entries metas) url.
Proof.
  intros Hl. unfold poll. destruct (poll_config _ _ _ _) as [p1 w1]. unfold poll_registry. rewrite Hl. simpl.
  apply (register_all_inv utf8_error (cp_config p1) reads p1 metas).
Qed.


(** ** What the loops collect *)

(** The placements of one service. *)
Definition service_placements (live : list NodeView) (url : string) (resolved : ResolvedServices)
    (service : Service) : list ServicePlacement :=
  let cs := candidates live service in
  if decide (service = Mirror)
  then (λ t, {| sp_service := Mirror; sp_nodes := option_list (owner_target url (at_name t) cs) |}) <$>
         applied_targets url (rs_mirror resolved)
  else [{| sp_service := service; sp_nodes := owners url service (owner_count resolved service) cs |}].

(** Every empty placement so far has its service among the unoffered. *)
Definition unoffered_known (d : Derived) (ps : list ServicePlacement) : Prop :=
  ∀ p, p ∈ ps → sp_nodes p = [] → sp_service p ∈ dv_unoffered d.

Lemma unoffered_known_app d ps p :
  unoffered_known d ps → (sp_nodes p = [] → sp_service p ∈ dv_unoffered d) → unoffered_known d (ps ++ [p]).
Proof. intros Hps Hp q [?| ->%list_elem_of_singleton]%elem_of_app; auto. Qed.

Lemma elem_of_add_unoffered d service b s :
  s ∈ dv_unoffered (add_unoffered d service b) ↔ s ∈ dv_unoffered d ∨ (b = true ∧ s = service).
Proof. destruct b; simpl; rewrite ?elem_of_cons; naive_solver. Qed.

(** The loops only add to the unoffered services. *)
Definition grows (d d' : Derived) : Prop := ∀ s, s ∈ dv_unoffered d → s ∈ dv_unoffered d'.

Lemma unoffered_known_grows d d' ps : grows d d' → unoffered_known d ps → unoffered_known d' ps.
Proof. intros Hg Hk p Hp Hn. by apply Hg, Hk. Qed.

Lemma place_targets_spec mirrors url cs l s :
  let s' := fold_left (place_target mirrors url cs) l s in
  s'.2 = s.2 ++ ((λ t, {| sp_service := Mirror; sp_nodes := option_list (owner_target url (at_name t) cs) |}) <$> l) ∧
  grows s.1 s'.1 ∧ (unoffered_known s.1 s.2 → unoffered_known s'.1 s'.2).
Proof.
  revert s. induction l as [|t l IH]; intros s; csimpl; [rewrite (right_id_L [] (++)); split; [done|split; [by intros x|by intros Hs]]|].
  destruct (IH (place_target mirrors url cs s t)) as (Hps & Hg & Hk).
  assert (Hun : ∀ x, x ∈ dv_unoffered (place_target mirrors url cs s t).1 ↔
    x ∈ dv_unoffered s.1 ∨ (owner_target url (at_name t) cs = None ∧ x = Mirror)).
  { intros x. rewrite <-(bool_decide_eq_true (owner_target url (at_name t) cs = None)), <-elem_of_add_unoffered.
    unfold place_target. by destruct mirrors. }
  split; [rewrite Hps; simpl; by rewrite <-(assoc_L (++))|]. split; [intros x Hx; apply Hg, Hun; by left|].
  intros Hs. apply Hk. simpl. apply unoffered_known_app.
  - intros p Hp Hn. apply Hun. left. by apply Hs.
  - simpl. intros Hn. apply Hun. right. split; [|done]. by destruct (owner_target _ _ _).
Qed.

Lemma place_service_spec mirrors live url resolved s svc :
  let s' := place_service mirrors live url resolved s svc in
  s'.2 = s.2 ++ service_placements live url resolved svc ∧
  grows s.1 s'.1 ∧ (unoffered_known s.1 s.2 → unoffered_known s'.1 s'.2).
Proof.
  unfold place_service, service_placements. destruct (decide (svc = Mirror)) as [->|Hm].
  - set (d := if _ : bool then warn _ _ else _).
    assert (Hd : dv_unoffered d = dv_unoffered s.1) by (unfold d; by destruct (_ && _)).
    destruct (place_targets_spec mirrors url (candidates live Mirror) (applied_targets url (rs_mirror resolved)) (d, s.2))
      as (Hps & Hg & Hk). split; [exact Hps|]. unfold grows, unoffered_known in *. simpl in *.
    split; [intros x Hx; apply Hg; by rewrite Hd|]. intros Hs. apply Hk. by rewrite Hd.
  - simpl. split; [done|]. split; [intros x Hx; apply elem_of_add_unoffered; by left|].
    intros Hs. apply unoffered_known_app.
    + intros p Hp Hn. apply elem_of_add_unoffered. left. by apply Hs.
    + simpl. intros Hn. apply elem_of_add_unoffered. right. by rewrite bool_decide_eq_true_2.
Qed.

Lemma place_services_spec mirrors live url resolved svcs s :
  let s' := fold_left (place_service mirrors live url resolved) svcs s in
  s'.2 = s.2 ++ (svcs ≫= service_placements live url resolved) ∧
  grows s.1 s'.1 ∧ (unoffered_known s.1 s.2 → unoffered_known s'.1 s'.2).
Proof.
  revert s. induction svcs as [|svc svcs IH]; intros s; csimpl; [rewrite (right_id_L [] (++)); split; [done|split; [by intros x|by intros Hs]]|].
  destruct (place_service_spec mirrors live url resolved s svc) as (Hps & Hg & Hk).
  destruct (IH (place_service mirrors live url resolved s svc)) as (Hps' & Hg' & Hk').
  split; [by rewrite Hps', Hps, <-(assoc_L (++))|]. split; [intros x Hx; by apply Hg', Hg|auto].
Qed.

Definition database_status (config : SleetConfig) (live : list NodeView) (e : string * DatabaseConfig) : DatabaseStatus :=
  let resolved := resolve config (Some e.2) in
  {| ds_url := e.1; ds_services := rs_services resolved ≫= service_placements live e.1 resolved; ds_queue := None |}.

Lemma place_databases_spec mirrors config live l s :
  let s' := fold_left (place_database mirrors config live) l s in
  s'.2 = s.2 ++ (database_status config live <$> l) ∧ grows s.1 s'.1 ∧
  ((∀ d, d ∈ s.2 → unoffered_known s.1 (ds_services d)) → ∀ d, d ∈ s'.2 → unoffered_known s'.1 (ds_services d)).
Proof.
  revert s. induction l as [|e l IH]; intros s; csimpl; [rewrite (right_id_L [] (++)); split; [done|split; [by intros x|by intros Hs]]|].
  assert (Hone : place_database mirrors config live s e =
    ((fold_left (place_service mirrors live e.1 (resolve config (Some e.2)))
        (rs_services (resolve config (Some e.2))) (s.1, [])).1, s.2 ++ [database_status config live e]) ∧
    grows s.1 (place_database mirrors config live s e).1 ∧
    unoffered_known (place_database mirrors config live s e).1 (ds_services (database_status config live e))).
  { pose proof (place_services_spec mirrors live e.1 (resolve config (Some e.2))
      (rs_services (resolve config (Some e.2))) (s.1, [])) as (Hps & Hg & Hk).
    unfold place_database, database_status. destruct (fold_left _ _ _) as [d ps]. simpl in *. subst ps.
    split_and!; [done|done|]. apply Hk. by intros p ?%elem_of_nil. }
  destruct Hone as (Heq & Hg & Hk). destruct (IH (place_database mirrors config live s e)) as (Hps & Hg' & Hk').
  split; [rewrite Hps, Heq; simpl; by rewrite <-(assoc_L (++))|].
  split; [intros x Hx; by apply Hg', Hg|]. intros Hs. apply Hk'. intros d Hd. rewrite Heq in Hd. simpl in Hd.
  apply elem_of_app in Hd as [Hd| ->%list_elem_of_singleton]; [|done]. eapply unoffered_known_grows; [done|auto].
Qed.

Lemma place_all_spec mirrors state live warnings :
  let s := place_all mirrors state live warnings in
  s.2 = database_status (fs_config state) live <$> btree_iter (fs_databases state) ∧
  ∀ d, d ∈ s.2 → unoffered_known s.1 (ds_services d).
Proof.
  destruct (place_databases_spec mirrors (fs_config state) live (btree_iter (fs_databases state))
    (Derived_default warnings, [])) as (Hps & _ & Hk). split; [exact Hps|]. apply Hk. by intros d ?%elem_of_nil.
Qed.

Lemma elem_of_service_placements live url resolved svc p :
  p ∈ service_placements live url resolved svc →
  sp_service p = svc ∧ ∃ tgt, ∀ n, n ∈ sp_nodes p ↔ ranked_owner n live url resolved svc tgt.
Proof.
  unfold service_placements. destruct (decide (svc = Mirror)) as [->|Hm].
  - intros (t & -> & Ht)%list_elem_of_fmap. split; [done|]. exists (Some (at_name t)). intros n. simpl.
    rewrite elem_of_option_list. split; [|by intros (_ & _ & ?)]. intros ?. split_and!; [done| |done].
    apply list_elem_of_fmap. eauto.
  - intros ->%list_elem_of_singleton. split; [done|]. exists None. intros n. simpl. naive_solver.
Qed.

Lemma service_placement_owner live url resolved svc :
  svc ≠ Mirror →
  ∃ p, p ∈ service_placements live url resolved svc ∧ sp_service p = svc ∧
       ∀ n, n ∈ sp_nodes p ↔ ranked_owner n live url resolved svc None.
Proof.
  intros Hm. unfold service_placements. rewrite decide_False by done. eexists.
  split; [by apply list_elem_of_singleton|]. split; [done|]. intros n. simpl. naive_solver.
Qed.

Lemma target_placement_owner live url resolved t :
  t ∈ applied_targets url (rs_mirror resolved) →
  ∃ p, p ∈ service_placements live url resolved Mirror ∧ sp_service p = Mirror ∧
       ∀ n, n ∈ sp_nodes p ↔ ranked_owner n live url resolved Mirror (Some (at_name t)).
Proof.
  intros Ht. unfold service_placements. rewrite decide_True by done. eexists.
  split; [apply list_elem_of_fmap; eauto|]. split; [done|]. intros n. simpl.
  rewrite elem_of_option_list. split; [|by intros (_ & _ & ?)]. intros ?. split_and!; [done| |done].
  apply list_elem_of_fmap. eauto.
Qed.

Lemma live_youngest entries state e :
  e ∈ btree_values (youngest_per_node entries) →
  he_node_id e ∈ nv_node_id <$> live_view entries state ↔
  (he_age e < heartbeat_timeout (cfg_node (fs_config state)))%N.
Proof.
  intros (id & [<- He]%youngest_lookup)%elem_of_btree_values. rewrite list_elem_of_fmap. split.
  - intros (v & Hid & (e' & He' & Hage & ->)%elem_of_node_view). simpl in Hid.
    assert (e' = e) as -> by (apply (inj Some); rewrite <-(proj2 (youngest_lookup entries (he_node_id e) e)) by done;
      symmetry; by apply youngest_lookup). done.
  - intros Hage. exists (entry_view e). split; [done|]. apply elem_of_node_view. eauto.
Qed.

(** The response, taken apart. *)
Lemma status_inv root reads r compactions mirrors resp :
  status root reads r compactions mirrors = Ok resp →
  let state := (poll utf8_error root reads ConfigPoller_default).2 in
  ∃ entries, list_heartbeats (st_now r) (st_nodes r) = Ok entries ∧
    sr_nodes resp = node_statuses entries (heartbeat_timeout (cfg_node (fs_config state))) (st_body r) ∧
    ((λ d, (ds_url d, ds_services d)) <$> sr_databases resp) =
      ((λ e, (e.1, ds_services (database_status (fs_config state) (live_view entries state) e))) <$>
         btree_iter (fs_databases state)) ∧
    ∀ d p, d ∈ sr_databases resp → p ∈ ds_services d → sp_nodes p = [] →
      "no live node offers " +:+ as_str (sp_service p) ∈ sr_warnings resp.
Proof.
  intros Hs state. unfold status in Hs. cbv zeta in Hs. fold state in Hs.
  apply result_bind_ok in Hs as (entries & Hl & Hr). exists entries.
  split; [by destruct (list_heartbeats _ _); simpl in Hl; simplify_eq|].
  pose proof (place_all_spec mirrors state (live_view entries state) (fs_warnings state))
    as [Hdbs Hk]. unfold live_view in Hdbs, Hk. destruct (place_all _ _ _ _) as [d dbs]. simpl in Hdbs, Hk.
  set (queued := if compactions then _ else _) in Hr. injection Hr as <-. simpl. split; [done|].
  assert (Hq : (λ d, (ds_url d, ds_services d)) <$> queued.*1 = (λ d, (ds_url d, ds_services d)) <$> dbs).
  { unfold queued. destruct compactions; rewrite <-!list_fmap_compose; apply list_fmap_ext; intros i db _; simpl; [|done].
    unfold add_queue. by destruct (queue_probe _). }
  split; [by rewrite Hq, Hdbs, <-list_fmap_compose|].
  intros db p Hdb Hp Hn. apply elem_of_sort_by. rewrite !elem_of_app. right. right. right.
  apply list_elem_of_fmap. exists (sp_service p). split; [done|]. apply list_elem_of_filter. split; [|apply elem_of_ALL].
  apply (list_elem_of_fmap_2 (λ d, (ds_url d, ds_services d))) in Hdb. rewrite Hq in Hdb.
  apply list_elem_of_fmap in Hdb as (db' & [= _ Hs] & Hdb'). rewrite Hs in Hp. by eapply Hk.
Qed.

(** C16: what [status] reports is what the nodes do: it lists exactly the
    registered databases; a node is in a placement exactly when it is live and
    owns, by the listing and configuration [status] read, that service of that
    database, or that mirror target; every configured service and applied
    target has a placement; a node is called live exactly when the others
    count it; and a placement with no node comes with a warning. *)
Theorem status_reports_ownership root reads r compactions mirrors resp (offered : string → list Service) :
  status root reads r compactions mirrors = Ok resp →
  let state := (poll utf8_error root reads ConfigPoller_default).2 in
  ∃ entries, list_heartbeats (st_now r) (st_nodes r) = Ok entries ∧
    let live n := n ∈ nv_node_id <$> live_view entries state in
    let owns n url svc tgt := live n ∧ is_Some (owned_assignments n (offered n) entries state !! (url, svc, tgt)) in
    (ds_url <$> sr_databases resp = btree_keys (fs_databases state)) ∧
    (∀ x, x ∈ sr_nodes resp → nst_live x = true ↔ live (nst_node_id x)) ∧
    ∀ d, d ∈ sr_databases resp → ∃ db, fs_databases state !! ds_url d = Some db ∧
      let rs := resolve (fs_config state) (Some db) in
      let shows svc tgt := ∃ p, p ∈ ds_services d ∧ sp_service p = svc ∧
        ∀ n, n ∈ sp_nodes p ↔ owns n (ds_url d) svc tgt in
      (∀ svc, svc ≠ Mirror → svc ∈ rs_services rs → shows svc None) ∧
      (∀ t, Mirror ∈ rs_services rs → t ∈ applied_targets (ds_url d) (rs_mirror rs) →
         shows Mirror (Some (at_name t))) ∧
      (∀ p, p ∈ ds_services d → sp_service p ∈ rs_services rs ∧
         (∃ tgt, ∀ n, n ∈ sp_nodes p ↔ owns n (ds_url d) (sp_service p) tgt) ∧
         (sp_nodes p = [] → "no live node offers " +:+ as_str (sp_service p) ∈ sr_warnings resp)).
Proof.
  intros Hs state. destruct (status_inv _ _ _ _ _ _ Hs) as (entries & Hl & Hnodes & Hdbs & Hwarn).
  fold state in Hnodes, Hdbs. exists entries. split; [done|]. intros live owns.
  assert (Hurls : ds_url <$> sr_databases resp = btree_keys (fs_databases state)).
  { apply (f_equal (fmap fst)) in Hdbs. by rewrite <-!list_fmap_compose in Hdbs. }
  split; [done|]. split.
  { intros x Hx. rewrite Hnodes in Hx. unfold node_statuses in Hx.
    apply list_elem_of_fmap in Hx as (e & -> & He). simpl. rewrite bool_decide_eq_true.
    symmetry. by apply live_youngest. }
  intros d Hd. pose proof (list_elem_of_fmap_2 (λ d, (ds_url d, ds_services d)) _ _ Hd) as Hd'. simpl in Hd'.
  rewrite Hdbs in Hd'. apply list_elem_of_fmap in Hd' as ([url db] & [= Hurl Hsvcs] & Hin%elem_of_btree_iter).
  exists db. split; [by rewrite Hurl|]. intros rs shows.
  assert (Howns : ∀ svc tgt, svc ∈ rs_services rs → ∀ n,
    owns n url svc tgt ↔ ranked_owner n (live_view entries state) url rs svc tgt).
  { intros svc tgt Hsvc n. unfold owns, live. split.
    - intros [Hn Ho]. rewrite owned_live in Ho by done.
      destruct Ho as [r' (db' & Hdb' & -> & _ & Ho)%owned_by_view_spec]. by simplify_eq.
    - intros Ho. pose proof (ranked_owner_live _ _ _ _ _ _ Ho) as Hn. split; [done|].
      rewrite owned_live by done. exists rs. apply owned_by_view_spec. eauto. }
  assert (Hshow : ∀ svc tgt, svc ∈ rs_services rs →
    (∃ p, p ∈ service_placements (live_view entries state) url rs svc ∧ sp_service p = svc ∧
       ∀ n, n ∈ sp_nodes p ↔ ranked_owner n (live_view entries state) url rs svc tgt) → shows svc tgt).
  { intros svc tgt Hsvc (p & Hp & Hps & Hn). exists p. split; [rewrite Hsvcs; apply list_elem_of_bind; eauto|].
    split; [done|]. intros n. by rewrite Hurl, Howns, Hn. }
  split; [|split].
  - intros svc Hm Hsvc. by apply Hshow, service_placement_owner.
  - intros t Hm Ht. rewrite Hurl in Ht. by apply Hshow, target_placement_owner.
  - intros p Hp. pose proof Hp as Hp'. rewrite Hsvcs in Hp'.
    apply list_elem_of_bind in Hp' as (svc & Hp' & Hsvc).
    destruct (elem_of_service_placements _ _ _ _ _ Hp') as [-> [tgt Hn]].
    split; [done|]. split; [exists tgt; intros n; by rewrite Hurl, Howns|]. intros Hnil.
    pose proof (elem_of_service_placements _ _ _ _ _ Hp') as [<- _]. by eapply Hwarn.
Qed.
End ops.

(** ** Examples *)
Import Store.Concrete Registry.Concrete.
#[local] Existing Instance Poller.example_lib.

Definition example_beat (id : string) : ObjectMeta :=
  {| location := ["fleet"; "nodes"; object_name id ALL]; last_modified := 0; size := 2; e_tag := None |}.
Definition example_beats : list ObjectMeta := [example_beat "n1"; example_beat "n2"].
Definition example_status_reads : StatusReads := {|
  st_nodes := Ok example_beats; st_now := 1; st_body _ := None;
  st_mirror p := {| ms_database := p.1; ms_target := at_name p.2; ms_destination := at_destination p.2;
                    ms_source_manifest_id := None; ms_dest_manifest_id := None; ms_manifests_behind := None;
                    ms_wal_behind := None; ms_seconds_behind := None; ms_error := None |};
  st_queue _ := None |}.

Lemma status_reports_ownership_witness :
  match status (λ b, b) example_root (example_reads EmptyString "c" EmptyString "t") example_status_reads false false with
  | Ok resp => ds_url <$> sr_databases resp = ["s3://b/db"] ∧
      ∃ d p, sr_databases resp = [d] ∧ p ∈ ds_services d ∧ sp_service p = Gc
  | Err _ => False
  end.
Proof.
  destruct (status (λ b, b) example_root _ example_status_reads false false) as [resp|e] eqn:E;
    [|apply (f_equal (λ r, match r with Ok _ => true | Err _ => false end)) in E; vm_compute in E; discriminate E].
  destruct (status_reports_ownership (λ b, b) example_root _ example_status_reads false false resp (λ _, ALL) E)
    as (entries & _ & Hurls & _ & Hdbs).
  assert (Hkeys : ds_url <$> sr_databases resp = ["s3://b/db"]) by (rewrite Hurls; vm_compute; reflexivity).
  split; [exact Hkeys|]. destruct (sr_databases resp) as [|d [|? ?]]; try discriminate Hkeys.
  injection Hkeys as Hd. destruct (Hdbs d) as (db & Hdb & Hsvc & _ & _); [by apply list_elem_of_singleton|].
  destruct (Hsvc Gc) as (p & Hp & Hps & _); [discriminate| |].
  - rewrite Hd in Hdb. vm_compute in Hdb. injection Hdb as <-. apply (bool_decide_unpack _). vm_compute. constructor.
  - exists d, p. split; [reflexivity|]. split; [exact Hp|exact Hps].
Defined.

(** The concrete store's paths keep the last segment. *)
Lemma split_slash_single name : contains "/"%char name = false → split_slash name = [name].
Proof.
  induction name as [|c name IH]; [done|]. unfold contains in *. simpl.
  intros [Hc Hn]%orb_false_iff. apply bool_decide_eq_false in Hc. rewrite decide_False by done. by rewrite IH.
Qed.
Lemma split_slash_cons dir name : ∃ seg segs, split_slash (dir +:+ "/" +:+ name) = seg :: segs ++ split_slash name.
Proof.
  induction dir as [|c dir IH].
  - by exists EmptyString, [].
  - destruct IH as (seg & segs & E). simpl. case_decide; rewrite E; [|by eexists _, _].
    exists EmptyString, (seg :: segs). done.
Qed.
Lemma concrete_filename dir name q :
  name ≠ EmptyString → contains "/"%char name = false →
  path_parse (dir +:+ "/" +:+ name) = Some q → filename q = Some name.
Proof.
  intros _ Hn [= <-]. destruct (split_slash_cons dir name) as (seg & segs & E). simpl in *. rewrite E.
  rewrite (split_slash_single name Hn). by rewrite app_comm_cons, last_snoc.
Qed.


(** A file whose name escapes a letter that needs no escape decodes to the
    canonical URL, is not taken for an alias, and sorts first: here it
    disables the registered database. *)
Definition shadow_meta : ObjectMeta :=
  {| location := ["fleet"; "dbs"; "%733%3A%2F%2Fb%2Fdb.toml"]; last_modified := 0; size := 4; e_tag := Some "s" |}.
Example overescaped_name_shadows :
  let reads := {| rd_config := Ok (Some "c", Ok EmptyString); rd_list := Ok [db_meta 0 "t"; shadow_meta];
                  rd_file := λ _, Ok "nope" |} in
  let state := (poll (λ b, b) example_root reads ConfigPoller_default).2 in
  (rs_services <$> ((λ db, resolve (fs_config state) (Some db)) <$> fs_databases state !! "s3://b/db")) = Some [] ∧
  rs_services (resolve (fs_config state) (Some DatabaseConfig_default)) ≠ [].
Proof. vm_compute. split; [reflexivity|discriminate]. Qed.
