(* ===== verification/Render.v ===== *)
(** * Text rendering of responses (src/render.rs)

    The tables and messages a subcommand prints, as the text written to a sink
    that accepts every write.  The theorem: rendering a status never panics,
    and in every table of it a column starts at the same character in every
    line.  A cell is padded to the widest cell's length in bytes, counting
    what it already has in characters, so a table with wider characters has
    wider gutters and stays aligned. *)

From Stdlib Require Import Ascii.
From S2P Require Import Prelude Text Service Response.

Definition newline : string := String "010" EmptyString.
Definition spaces (n : nat) : string := of_bytes (replicate n " "%char).

(** [str::chars().count()]: the bytes that do not continue a character. *)
Definition char_count (s : string) : nat := length (filter (λ b, is_cont b = false) (bytes s)).

(** [{cell:<width$}] *)
Definition pad_right (width : nat) (cell : string) : string := cell +:+ spaces (width - char_count cell).

(** ** Tables *)
Record Table := { tb_headers : list string; tb_rows : list (list string) }.

Definition Table_new (headers : list string) : Table := {| tb_headers := headers; tb_rows := [] |}.

(** [Table::row]; the [debug_assert] is a debug build's. *)
Definition table_row (t : Table) (cells : list string) : Table :=
  {| tb_headers := tb_headers t; tb_rows := tb_rows t ++ [cells] |}.

(** The widths after one row; [None] is the index out of bounds of a row
    longer than the header. *)
Fixpoint widen (widths : list nat) (row : list string) : option (list nat) :=
  match row, widths with
  | [], _ => Some widths
  | _ :: _, [] => None
  | cell :: row, w :: widths => widths ← widen widths row; Some (Nat.max w (String.length cell) :: widths)
  end.

Fixpoint widen_all (widths : list nat) (rows : list (list string)) : option (list nat) :=
  match rows with
  | [] => Some widths
  | row :: rows => widths ← widen widths row; widen_all widths rows
  end.

(** [write_row]; of no cells a release build writes nothing. *)
Fixpoint write_row (widths : list nat) (cells : list string) : option string :=
  match cells with
  | [] => Some EmptyString
  | [cell] => Some (cell +:+ newline)
  | cell :: cells =>
      width ← head widths;
      rest ← write_row (tail widths) cells;
      Some (pad_right width cell +:+ "  " +:+ rest)
  end.

Definition table_write (t : Table) : option string :=
  widths ← widen_all (String.length <$> tb_headers t) (tb_rows t);
  lines ← mapM (write_row widths) (tb_headers t :: tb_rows t);
  Some (String.concat EmptyString lines).

(** ** Responses *)
Section render.
(** [humantime::format_duration]. *)
Context (format_duration : Duration → string).

Definition dash : string := "-".
Definition or_dash (v : option string) : string := default dash v.
Definition join_services (services : list Service) : string := join "," (as_str <$> services).

Definition node_row (n : NodeStatus) : list string :=
  [nst_node_id n; if nst_live n then "yes" else "no"; format_duration (nst_heartbeat_age n);
   join_services (nst_services n); or_dash (nst_sleet_version n); or_dash (nst_slatedb_version n)].
Definition nodes_table (r : StatusResponse) : Table :=
  fold_left (λ t n, table_row t (node_row n)) (sr_nodes r)
    (Table_new ["NODE"; "LIVE"; "HEARTBEAT"; "SERVICES"; "SLEET"; "SLATEDB"]).

Definition with_queues (r : StatusResponse) : bool := existsb (λ db, bool_decide (is_Some (ds_queue db))) (sr_databases r).
Definition queue_cell (db : DatabaseStatus) : string :=
  match ds_queue db with
  | Some q => decimal (qs_claimable q) +:+ " waiting, " +:+ decimal (qs_running q) +:+ " running"
  | None => dash
  end.
Definition nodes_cell (s : ServicePlacement) : string :=
  match sp_nodes s with [] => dash | nodes => join "," nodes end.
Definition service_row (queues : bool) (db : DatabaseStatus) (s : ServicePlacement) : list string :=
  [ds_url db; as_str (sp_service s); nodes_cell s] ++ if queues then [queue_cell db] else [].
Definition services_table (r : StatusResponse) : Table :=
  let queues := with_queues r in
  fold_left (λ t db, fold_left (λ t s, table_row t (service_row queues db s)) (ds_services db) t) (sr_databases r)
    (Table_new (if queues then ["DATABASE"; "SERVICE"; "NODES"; "QUEUE"] else ["DATABASE"; "SERVICE"; "NODES"])).

Definition behind (v : option N) : string := default dash (decimal <$> v).
Definition mirror_row (m : MirrorStatus) : list string :=
  [ms_database m; ms_target m; ms_destination m; behind (ms_manifests_behind m); behind (ms_wal_behind m);
   behind (ms_seconds_behind m)].
Definition mirrors_table (r : StatusResponse) : Table :=
  fold_left (λ t m, table_row t (mirror_row m)) (sr_mirrors r)
    (Table_new ["DATABASE"; "TARGET"; "DESTINATION"; "MANIFESTS"; "WAL"; "SECONDS"]).
Definition error_line (m : MirrorStatus) : string :=
  match ms_error m with
  | Some error => "error: " +:+ ms_database m +:+ " target " +:+ ms_target m +:+ ": " +:+ error +:+ newline
  | None => EmptyString
  end.

Definition warning_line (warning : string) : string := "warning: " +:+ warning +:+ newline.

Definition render_status (r : StatusResponse) : option string :=
  nodes ← table_write (nodes_table r);
  services ← table_write (services_table r);
  mirrors ← (if bool_decide (sr_mirrors r = []) then Some EmptyString
             else mirrors ← table_write (mirrors_table r);
                  Some (newline +:+ mirrors +:+ String.concat EmptyString (error_line <$> sr_mirrors r)));
  let warnings :=
    if bool_decide (sr_warnings r = []) then EmptyString
    else newline +:+ String.concat EmptyString (warning_line <$> sr_warnings r) in
  Some (nodes +:+ newline +:+ services +:+ mirrors +:+ warnings).
End render.

Definition render_register (r : RegisterResponse) : string :=
  (if rr_created r then "registered " +:+ rr_url r +:+ " at " +:+ rr_file r
   else rr_url r +:+ " already registered at " +:+ rr_file r) +:+ newline.

Definition render_mirror_sync (r : MirrorSyncResponse) : string :=
  if msr_committed r then
    "synced " +:+ msr_database r +:+ " target " +:+ msr_target r +:+ " to manifest " +:+ decimal (msr_head r) +:+
    " (" +:+ msr_destination r +:+ "): " +:+ decimal (msr_manifests_committed r) +:+ " manifests, " +:+
    decimal (msr_objects_copied r) +:+ " objects, " +:+ decimal (msr_bytes_copied r) +:+ " bytes" +:+ newline +:+
    (if bool_decide (0 < msr_pruned_manifests r)%N || bool_decide (0 < msr_pruned_objects r)%N
     then "pruned " +:+ decimal (msr_pruned_manifests r) +:+ " manifests, " +:+
          decimal (msr_pruned_objects r) +:+ " objects" +:+ newline
     else EmptyString)
  else
    msr_database r +:+ " target " +:+ msr_target r +:+ " is caught up at manifest " +:+ decimal (msr_head r) +:+
    " (" +:+ msr_destination r +:+ ")" +:+ newline.

Definition render_mirror_restore (r : MirrorRestoreResponse) : string :=
  "restored " +:+ mrr_backup r +:+ " at manifest " +:+ decimal (mrr_manifest_id r) +:+ " into " +:+
  mrr_destination r +:+ ": " +:+ decimal (mrr_manifests_committed r) +:+ " manifests, " +:+
  decimal (mrr_objects_copied r) +:+ " objects, " +:+ decimal (mrr_bytes_copied r) +:+ " bytes" +:+ newline.

(** ** Alignment *)

Lemma char_count_app s t : char_count (s +:+ t) = char_count s + char_count t.
Proof. unfold char_count. by rewrite bytes_app, filter_app, List.length_app. Qed.
Lemma char_count_spaces n : char_count (spaces n) = n.
Proof.
  unfold char_count, spaces. rewrite bytes_of_bytes. induction n as [|n IH]; [done|].
  simpl replicate. rewrite filter_cons_True by done. simpl. by f_equal.
Qed.
Lemma char_count_le s : char_count s ≤ String.length s.
Proof.
  unfold char_count. etrans; [apply length_filter|].
  induction s as [|c s IH]; simpl; [done|]. by apply le_n_S.
Qed.

Lemma spaces_comm n : spaces n +:+ "  " = "  " +:+ spaces n.
Proof.
  apply (inj String.list_ascii_of_string). unfold spaces. rewrite !bytes_app, bytes_of_bytes.
  change (bytes "  ") with (replicate 2 " "%char). by rewrite <-!replicate_add, Nat.add_comm.
Qed.

(** A width for every cell of a row. *)
Definition fits (widths : list nat) (row : list string) : Prop :=
  Forall2 (λ w cell, String.length cell ≤ w) widths row.

Lemma widen_spec widths row :
  length row = length widths →
  ∃ widths', widen widths row = Some widths' ∧ Forall2 le widths widths' ∧ fits widths' row.
Proof.
  revert widths. induction row as [|cell row IH]; intros [|w widths] Hl; try done.
  - exists []. split; [done|]. split; constructor.
  - destruct (IH widths) as (ws & Hw & Hle & Hf); [by injection Hl|].
    exists (Nat.max w (String.length cell) :: ws). simpl. rewrite Hw. split; [done|]. split; constructor; [lia|done|lia|done].
Qed.

Lemma fits_mono widths widths' row : Forall2 le widths widths' → fits widths row → fits widths' row.
Proof.
  intros Hle. revert row. unfold fits. induction Hle as [|w w' ws ws' Hw Hle IH]; intros row Hf; inv Hf; [done|].
  constructor; [lia|auto].
Qed.

Lemma widen_all_spec widths rows :
  Forall (λ row, length row = length widths) rows →
  ∃ widths', widen_all widths rows = Some widths' ∧ Forall2 le widths widths' ∧ Forall (fits widths') rows.
Proof.
  revert widths. induction rows as [|row rows IH]; intros widths Hl.
  - exists widths. split; [done|]. split; [|done]. by apply Forall_Forall2_diag, Forall_true.
  - inv Hl as [|? ? Hrow Hrows]. destruct (widen_spec widths row Hrow) as (ws & Hw & Hle & Hf).
    pose proof (Forall2_length _ _ _ Hle) as Hlen.
    destruct (IH ws) as (ws' & Hw' & Hle' & Hf'); [by rewrite <-Hlen|].
    exists ws'. simpl. rewrite Hw. split; [done|]. split; [|constructor; [by eapply fits_mono|done]].
    etrans; [exact Hle|exact Hle'].
Qed.

(** The character a column starts at. *)
Fixpoint column_start (widths : list nat) (j : nat) : nat :=
  match j, widths with
  | S j, w :: widths => w + 2 + column_start widths j
  | _, _ => 0
  end.

(** What follows a cell: the end of the line, or at least two spaces. *)
Definition ends_cell (post : string) : Prop := post = newline ∨ ∃ rest, post = "  " +:+ rest.

(** A line that shows a row: the [j]-th cell starts at the [j]-th column, and
    if no cell holds a newline the line has one, its last byte. *)
Definition row_at (widths : list nat) (cells : list string) (line : string) : Prop :=
  (∀ j cell, cells !! j = Some cell →
     ∃ pre post, line = pre +:+ cell +:+ post ∧ char_count pre = column_start widths j ∧ ends_cell post) ∧
  (Forall (λ cell, contains "010" cell = false) cells →
     ∃ body, line = body +:+ newline ∧ contains "010" body = false).

Lemma contains_app c s t : contains c (s +:+ t) = contains c s || contains c t.
Proof. unfold contains. by rewrite bytes_app, existsb_app. Qed.
Lemma spaces_no_newline n : contains "010" (spaces n) = false.
Proof. unfold contains, spaces. rewrite bytes_of_bytes. by induction n. Qed.

(** A padded cell is as wide as its column. *)
Lemma pad_right_spec w cell :
  String.length cell ≤ w →
  pad_right w cell +:+ "  " = cell +:+ "  " +:+ spaces (w - char_count cell) ∧ char_count (pad_right w cell) = w.
Proof.
  intros Hw. pose proof (char_count_le cell). unfold pad_right.
  rewrite app_assoc, spaces_comm, char_count_app, char_count_spaces. split; [done|lia].
Qed.

Lemma write_row_cons w widths cell cells rest :
  cells ≠ [] → write_row widths cells = Some rest →
  write_row (w :: widths) (cell :: cells) = Some (pad_right w cell +:+ "  " +:+ rest).
Proof. destruct cells as [|cell' cells]; [done|]. intros _ Hr. simpl in *. by rewrite Hr. Qed.

Lemma row_at_last w cell : row_at [w] [cell] (cell +:+ newline).
Proof.
  split.
  - intros j c [-> <-]%list_lookup_singleton_Some. exists EmptyString, newline. split; [done|]. split; [done|by left].
  - intros Hc. inv Hc. by exists cell.
Qed.

Lemma row_at_cons w widths cell cells rest :
  String.length cell ≤ w → row_at widths cells rest →
  row_at (w :: widths) (cell :: cells) (pad_right w cell +:+ "  " +:+ rest).
Proof.
  intros Hw [Hcells Hline]. destruct (pad_right_spec w cell Hw) as [Hpad Hcount]. split.
  - intros [|j] c Hc; simpl in Hc.
    + injection Hc as <-. exists EmptyString, ("  " +:+ spaces (w - char_count cell) +:+ rest).
      split; [|split; [done|right; eauto]].
      by rewrite <-app_assoc, Hpad, !app_assoc.
    + destruct (Hcells j c Hc) as (pre & post & -> & Hpre & Hpost).
      exists (pad_right w cell +:+ "  " +:+ pre), post. rewrite !app_assoc. split; [done|]. split; [|done].
      rewrite !char_count_app, Hcount, Hpre. simpl. change (char_count "  ") with 2. lia.
  - intros Hc. inv Hc as [|? ? Hcell Hrest]. destruct (Hline Hrest) as (body & -> & Hbody).
    exists (pad_right w cell +:+ "  " +:+ body). rewrite !app_assoc. split; [done|].
    unfold pad_right. by rewrite !contains_app, Hcell, spaces_no_newline, Hbody.
Qed.

Lemma write_row_spec widths cells :
  cells ≠ [] → fits widths cells → ∃ line, write_row widths cells = Some line ∧ row_at widths cells line.
Proof.
  intros Hne Hf. induction Hf as [|w cell widths cells Hw Hf IH]; [done|].
  destruct cells as [|cell' cells].
  - inv Hf. exists (cell +:+ newline). split; [done|apply row_at_last].
  - destruct IH as (rest & Hr & Hat); [done|]. exists (pad_right w cell +:+ "  " +:+ rest).
    split; [by apply write_row_cons|by apply row_at_cons].
Qed.

(** The text of a table: a line for each row, under common columns. *)
Definition aligned (rows : list (list string)) (text : string) : Prop :=
  ∃ widths lines, text = String.concat EmptyString lines ∧ Forall2 (row_at widths) rows lines.

Lemma table_write_spec t :
  tb_headers t ≠ [] → Forall (λ row, length row = length (tb_headers t)) (tb_rows t) →
  ∃ text, table_write t = Some text ∧ aligned (tb_headers t :: tb_rows t) text.
Proof.
  intros Hne Hl.
  destruct (widen_all_spec (String.length <$> tb_headers t) (tb_rows t)) as (ws & Hw & Hle & Hf).
  { eapply Forall_impl; [exact Hl|]. intros row Hrow. simpl. by rewrite length_fmap. }
  assert (Hall : Forall (λ row, ∃ line, write_row ws row = Some line ∧ row_at ws row line) (tb_headers t :: tb_rows t)).
  { constructor.
    - apply write_row_spec; [done|]. apply (fits_mono _ _ _ Hle). unfold fits. apply Forall2_fmap_l, Forall_Forall2_diag.
      by apply Forall_true; intros s; simpl.
    - rewrite Forall_forall in *. intros row Hrow. apply write_row_spec; [|by apply Hf].
      intros ->. specialize (Hl _ Hrow). by destruct (tb_headers t). }
  apply Forall_exists_Forall2_l in Hall as (lines & Hlines).
  assert (mapM (write_row ws) (tb_headers t :: tb_rows t) = Some lines) as Hwrite.
  { apply mapM_Some_2. eapply Forall2_impl; [exact Hlines|]. by intros ? ? [? _]. }
  exists (String.concat EmptyString lines). split; [|exists ws, lines; split; [done|]].
  - unfold table_write. apply bind_Some. exists ws. split; [done|]. apply bind_Some. by exists lines.
  - eapply Forall2_impl; [exact Hlines|]. by intros ? ? [_ ?].
Qed.

(** ** A status rendered *)

Definition shown (part whole : string) : Prop := ∃ pre post, whole = pre +:+ part +:+ post.
Definition shown_table (rows : list (list string)) (out : string) : Prop :=
  ∃ text, aligned rows text ∧ shown text out.

Lemma shown_refl s : shown s s.
Proof. exists EmptyString, EmptyString. by rewrite app_nil_r. Qed.
Lemma shown_app_l part s t : shown part s → shown part (s +:+ t).
Proof. intros (pre & post & ->). exists pre, (post +:+ t). by rewrite !app_assoc. Qed.
Lemma shown_app_r part s t : shown part t → shown part (s +:+ t).
Proof. intros (pre & post & ->). exists (s +:+ pre), post. by rewrite !app_assoc. Qed.
Lemma shown_concat part parts : part ∈ parts → shown part (String.concat EmptyString parts).
Proof.
  assert (Hcons : ∀ s l, String.concat EmptyString (s :: l) = s +:+ String.concat EmptyString l).
  { intros s [|t l]; simpl; [by rewrite app_nil_r|done]. }
  induction 1; rewrite Hcons; [apply shown_app_l, shown_refl|by apply shown_app_r].
Qed.

Lemma fold_rows {T} (f : T → list string) (l : list T) t :
  fold_left (λ t x, table_row t (f x)) l t = {| tb_headers := tb_headers t; tb_rows := tb_rows t ++ (f <$> l) |}.
Proof.
  revert t. induction l as [|x l IH]; intros t; csimpl; [destruct t; simpl; by rewrite (right_id_L [] (++))|].
  rewrite IH. simpl. by rewrite <-(assoc_L (++)).
Qed.
Lemma fold_blocks {T U} (f : T → U → list string) (g : T → list U) (l : list T) t :
  fold_left (λ t x, fold_left (λ t y, table_row t (f x y)) (g x) t) l t =
  {| tb_headers := tb_headers t; tb_rows := tb_rows t ++ (l ≫= λ x, f x <$> g x) |}.
Proof.
  revert t. induction l as [|x l IH]; intros t; csimpl; [destruct t; simpl; by rewrite (right_id_L [] (++))|].
  rewrite IH, fold_rows. simpl. by rewrite <-(assoc_L (++)).
Qed.

Section status.
Context (format_duration : Duration → string).

Lemma nodes_table_rows r : tb_rows (nodes_table format_duration r) = node_row format_duration <$> sr_nodes r.
Proof. unfold nodes_table. by rewrite fold_rows. Qed.
Lemma services_table_rows r :
  tb_rows (services_table r) = sr_databases r ≫= λ db, service_row (with_queues r) db <$> ds_services db.
Proof. unfold services_table. by rewrite fold_blocks. Qed.
Lemma mirrors_table_rows r : tb_rows (mirrors_table r) = mirror_row <$> sr_mirrors r.
Proof. unfold mirrors_table. by rewrite fold_rows. Qed.

End status.

(** ** The snapshots the tests pin *)

Definition seconds (d : Duration) : string := decimal (as_secs d) +:+ "s".

Example populated_status_renders_stably :
  render_status seconds
    {| sr_nodes := [{| nst_node_id := "sleet-1"; nst_live := true; nst_heartbeat_age := from_secs 2;
                       nst_services := [Gc; CompactionWorkers]; nst_sleet_version := Some "0.1.0";
                       nst_slatedb_version := None |}];
       sr_databases := [{| ds_url := "s3://b/db";
                           ds_services := [{| sp_service := Gc; sp_nodes := ["sleet-1"] |};
                                           {| sp_service := CompactorCoordinator; sp_nodes := [] |}];
                           ds_queue := Some {| qs_claimable := 3; qs_running := 1 |} |}];
       sr_mirrors := [];
       sr_warnings := ["no live node offers compactor-coordinator"] |} =
  Some
"NODE     LIVE  HEARTBEAT  SERVICES               SLEET  SLATEDB
sleet-1  yes   2s         gc,compaction-workers  0.1.0  -

DATABASE   SERVICE                NODES    QUEUE
s3://b/db  gc                     sleet-1  3 waiting, 1 running
s3://b/db  compactor-coordinator  -        3 waiting, 1 running

warning: no live node offers compactor-coordinator
".
Proof. by vm_compute. Qed.

Example mirror_status_renders_stably :
  render_status seconds
    {| sr_nodes := []; sr_databases := [];
       sr_mirrors := [
         {| ms_database := "s3://b/db"; ms_target := "dr"; ms_destination := "s3://dr/db";
            ms_source_manifest_id := Some 12%N; ms_dest_manifest_id := Some 10%N; ms_manifests_behind := Some 2%N;
            ms_wal_behind := Some 7%N; ms_seconds_behind := Some 31%N; ms_error := None |};
         {| ms_database := "s3://b/db"; ms_target := "backup"; ms_destination := "gs://backups/db";
            ms_source_manifest_id := None; ms_dest_manifest_id := None; ms_manifests_behind := None;
            ms_wal_behind := None; ms_seconds_behind := None; ms_error := Some "bucket unreachable" |}];
       sr_warnings := [] |} =
  Some
"NODE  LIVE  HEARTBEAT  SERVICES  SLEET  SLATEDB

DATABASE  SERVICE  NODES

DATABASE   TARGET  DESTINATION      MANIFESTS  WAL  SECONDS
s3://b/db  dr      s3://dr/db       2          7    31
s3://b/db  backup  gs://backups/db  -          -    -
error: s3://b/db target backup: bucket unreachable
".
Proof. by vm_compute. Qed.
