(* ===== verification/Copier.v ===== *)
(** * Data-object copiers (src/mirror/copier.rs)

    Who moves the [wal/] and [compacted/] objects of a pass: sleet itself, an
    rclone process, or replication outside sleet whose misses are backfilled.
    Running rclone is a call ([Rclone]); the files-from list and the process
    plumbing are not modelled. *)

From S2P Require Import Prelude Order Text Store Slate Effects Concurrent Config Registry Layout.

Definition MULTIPART_THRESHOLD : N := 8 * 1024 * 1024.

Record Copied := { cd_objects : N; cd_bytes : N }.
Definition Copied_default : Copied := {| cd_objects := 0; cd_bytes := 0 |}.

(** The parts of a parsed URL [rclone_remote] reads. *)
Class RemoteLib `{UrlLib} := {
  url_path : Url → string;
  to_file_path : Url → option string;
  debug_string : string → string;
}.

(** [str::trim_start_matches('/')]. *)
Fixpoint trim_start_slash (s : string) : string :=
  match strip_prefix "/" s with
  | Some _ => match s with String _ s' => trim_start_slash s' | EmptyString => s end
  | None => s
  end.

Section copier.
Context `{SlateLib, UrlLib, !RemoteLib}.

Definition rclone_remote (url : string) : Result MirrorError string :=
  match url_parse url with
  | Err _ => Err (MRclone ("cannot map " +:+ debug_string url +:+ " to an rclone remote"))
  | Ok parsed =>
      let host := default EmptyString (url_host_str parsed) in
      let path := trim_start_slash (url_path parsed) in
      let scheme := url_scheme parsed in
      let remote backend := Ok (backend +:+ ":" +:+ host +:+ "/" +:+ path) in
      if decide (scheme ∈ ["s3"; "s3a"]) then remote ":s3,env_auth"
      else if decide (scheme = "gs") then remote ":gcs,env_auth"
      else if decide (scheme ∈ ["az"; "azure"; "abfs"; "abfss"; "adl"]) then remote ":azureblob,env_auth"
      else if decide (scheme = "file") then
        match to_file_path parsed with
        | Some p => Ok p
        | None => Err (MRclone ("bad file URL " +:+ debug_string url))
        end
      else Err (MRclone ("no rclone backend for scheme " +:+ debug_string scheme))
  end.

Record Copier := { cr_kind : CopierKind; cr_parallelism : N; cr_urls : Urls }.

Definition Copier_new (settings : ResolvedMirrorTarget) (urls : Urls) : Copier :=
  {| cr_kind := rmt_copier settings; cr_parallelism := N.max 1 (rmt_copy_parallelism settings);
     cr_urls := urls |}.

Definition plan_compacted (copier : Copier) (candidates : list string) (seeding : bool)
    : prog (Result MirrorError (list string)) :=
  match cr_kind copier with
  | Builtin | Rclone => Ret (Ok candidates)
  | External =>
      if seeding then
        listed <-? list_compacted Dest;;
        let present : gset string := list_to_set listed.*1 in
        Ret (Ok (filter (λ ulid, ulid ∉ present) candidates))
      else head_misses Dest candidates compacted_rel
  end.

(** Copy one object by relative name, large ones through a multipart
    upload, which becomes visible when it is finished. *)
Definition copy_object (rel : string) : prog (Result MirrorError N) :=
  get <-?{MStore} ask (Get Source rel);;
  if bool_decide (gr_size get ≤ MULTIPART_THRESHOLD)%N then
    bytes <-?{MStore} Ret (gr_bytes get);;
    _ <-?{MStore} ask (Put Dest rel bytes);;
    Ret (Ok (gr_size get))
  else
    _ <-?{MStore} ask (StartMultipart Dest rel);;
    bytes <-?{MStore} Ret (gr_bytes get);;
    _ <-?{MStore} ask (FinishMultipart Dest rel bytes);;
    Ret (Ok (gr_size get)).

(** [try_for_each_concurrent]; [fetch_add] wraps. *)
Definition copy_builtin (copier : Copier) (names : list string) : prog (Result MirrorError Copied) :=
  bytes <-? concurrently (λ bytes copied, wrap64 (bytes + copied)) (N.to_nat (cr_parallelism copier))
              (copy_object <$> names) 0%N;;
  Ret (Ok {| cd_objects := N.of_nat (length names); cd_bytes := bytes |}).

Definition copy_rclone (urls : Urls) (names : list string) : prog (Result MirrorError Copied) :=
  _ <-? Ret (rclone_remote (source_url urls));;
  _ <-? Ret (rclone_remote (dest_url urls));;
  _ <-?{MRclone} ask (Effects.Rclone names);;
  Ret (Ok {| cd_objects := N.of_nat (length names); cd_bytes := 0 |}).

Definition copy (copier : Copier) (names : list string) : prog (Result MirrorError Copied) :=
  match names with
  | [] => Ret (Ok Copied_default)
  | _ =>
      match cr_kind copier with
      | Builtin | External => copy_builtin copier names
      | Rclone => copy_rclone (cr_urls copier) names
      end
  end.
End copier.
