(* ===== verification/InFlight.v ===== *)
(** * Copies in flight (src/mirror/copier.rs)

    [copy_parallelism] bounds what a pass holds in memory: a copy is in flight
    from its GET of the source to its PUT, or the finish of its upload, at the
    target. *)

From S2P Require Import Prelude Order Text Store Slate Effects Concurrent Config Registry Layout Copier.

Section in_flight.
Context `{SlateLib, UrlLib, !RemoteLib}.

(** The copies in flight after a call. *)
Definition flight {R} (c : call R) (copies : gset string) : gset string :=
  match c with
  | Get Source rel => {[rel]} ∪ copies
  | Put Dest rel _ | FinishMultipart Dest rel _ => copies ∖ {[rel]}
  | _ => copies
  end.

(** At every moment of every run of [p], begun with [copies] in flight, there
    are at most [n]. *)
Fixpoint in_flight_at_most {A} (n : nat) (copies : gset string) (p : prog A) : Prop :=
  set_size copies ≤ n ∧
  match p with
  | Ret _ => True
  | Call c k => ∀ r, in_flight_at_most n (flight c copies) (k r)
  end.

Lemma in_flight_size {A} n copies (p : prog A) : in_flight_at_most n copies p → set_size copies ≤ n.
Proof. by destruct p; intros [? _]. Qed.

Lemma in_flight_bind {A B} n copies (p : prog A) (f : A → prog B) :
  in_flight_at_most n copies p → (∀ a copies', set_size copies' ≤ n → in_flight_at_most n copies' (f a)) →
  in_flight_at_most n copies (bind p f).
Proof.
  unfold bind. revert copies. induction p as [a|R c k IH]; intros copies [Hn Hk] Hf; simpl; [by apply Hf|].
  split; [done|]. intros r. by apply IH.
Qed.

(** ** One copy *)

(** What is left of a copy after its GET. *)
Inductive copying (name : string) : prog (Result MirrorError N) → Prop :=
  | copying_failed e : copying name (Ret (Err e))
  | copying_start k : (∀ r, copying name (k r)) → copying name (Call (StartMultipart Dest name) k)
  | copying_put b k : (∀ r, ∃ x, k r = Ret x) → copying name (Call (Put Dest name b) k)
  | copying_finish b k : (∀ r, ∃ x, k r = Ret x) → copying name (Call (FinishMultipart Dest name b) k).

Lemma copy_object_get name :
  ∃ k, copy_object name = Call (Get Source name) k ∧ ∀ r, copying name (k r).
Proof.
  eexists. split; [reflexivity|]. intros [g|e]; [|constructor]. simpl.
  destruct (bool_decide _).
  - destruct (gr_bytes g); constructor. intros [[]|]; by eexists.
  - constructor. intros [[]|]; [|constructor]. simpl. destruct (gr_bytes g); constructor. intros [[]|]; by eexists.
Qed.

Inductive Stage := Waiting | Copying | Over.
Definition at_stage (name : string) (s : Stage) (p : prog (Result MirrorError N)) : Prop :=
  match s with
  | Waiting => p = copy_object name
  | Copying => copying name p
  | Over => ∃ x, p = Ret x
  end.

(** ** The pool *)

(** The stages of a pool's copies and those in flight: copies under way are
    among the first [limit]. *)
Definition tracked (limit : nat) (stages : list (string * Stage)) (copies : gset string) : Prop :=
  (∀ i name, stages !! i = Some (name, Copying) → i < limit) ∧
  ∀ name, name ∈ copies → (name, Copying) ∈ stages.

Lemma size_list_le (l : list string) : base.size (list_to_set l : gset string) ≤ length l.
Proof.
  induction l as [|x l IH]; simpl; [done|]. rewrite size_union_alt, size_singleton.
  etrans; [apply Nat.add_le_mono_l, subseteq_size, subseteq_difference_l; done|]. lia.
Qed.

Lemma tracked_size limit stages copies : tracked limit stages copies → set_size copies ≤ limit.
Proof.
  intros [Hfirst Hall]. etrans; [apply (subseteq_size copies (list_to_set (take limit stages).*1))|].
  - intros name (i & Hi)%Hall%list_elem_of_lookup. apply elem_of_list_to_set, list_elem_of_fmap.
    exists (name, Copying). split; [done|]. apply list_elem_of_lookup. exists i.
    by rewrite lookup_take_lt by (by eapply Hfirst).
  - etrans; [apply size_list_le|]. rewrite length_fmap, length_take. lia.
Qed.

(** The chosen copy moves to the stage [to]. *)
Lemma tracked_move limit before name from to after copies copies' :
  tracked limit (before ++ (name, from) :: after) copies → length before < limit →
  (∀ x, x ∈ copies' → (x, Copying) ∈ before ++ (name, to) :: after) →
  tracked limit (before ++ (name, to) :: after) copies'.
Proof.
  intros [Hfirst _] Hb Hnew. split; [|done].
  intros i x Hi. destruct (decide (i = length before)) as [->|Hne]; [done|]. apply (Hfirst i x).
  rewrite lookup_app in Hi |- *. destruct (before !! i) eqn:E; [done|]. apply lookup_ge_None in E.
  destruct (i - length before) as [|j] eqn:Ej; [lia|done].
Qed.

Lemma tracked_end limit before name after copies :
  tracked limit (before ++ (name, Copying) :: after) copies → length before < limit →
  tracked limit (before ++ (name, Over) :: after) (copies ∖ {[name]}).
Proof.
  intros Htr Hb. eapply tracked_move; [done..|]. intros x [Hx Hne]%elem_of_difference.
  apply (proj2 Htr) in Hx. rewrite elem_of_app, elem_of_cons in Hx |- *.
  destruct Hx as [?|[[= ->]|?]]; [by left|set_solver|by right; right].
Qed.

Lemma tracked_drop limit before name after copies :
  tracked limit (before ++ (name, Over) :: after) copies → tracked limit (before ++ after) copies.
Proof.
  intros [Hfirst Hall]. split.
  - intros i x Hi. destruct (before !! i) as [y|] eqn:E.
    + apply (Hfirst i x). rewrite (lookup_app_l_Some _ _ _ _ E). by rewrite (lookup_app_l_Some _ _ _ _ E) in Hi.
    + apply lookup_ge_None in E. rewrite lookup_app_r in Hi by done.
      enough (S i < limit) by lia. apply (Hfirst (S i) x).
      rewrite lookup_app_r by lia. by replace (S i - length before) with (S (i - length before)) by lia.
  - intros x Hx. specialize (Hall x Hx). rewrite elem_of_app, elem_of_cons in Hall. rewrite elem_of_app. naive_solver.
Qed.

Lemma copies_bounded limit (combine : N → N → N) names x :
  in_flight_at_most (Nat.max 1 limit) ∅ (concurrently combine limit (copy_object <$> names) x).
Proof.
  assert (Hst : Forall2 (λ s p, at_stage s.1 s.2 p) ((λ name, (name, Waiting)) <$> names) (copy_object <$> names)).
  { apply Forall2_fmap, Forall_Forall2_diag. by apply Forall_forall. }
  assert (Htr : tracked (Nat.max 1 limit) ((λ name, (name, Waiting)) <$> names) ∅).
  { split; [|set_solver]. intros i name. rewrite list_lookup_fmap. by destruct (names !! i). }
  revert Hst Htr. generalize ((λ name, (name, Waiting)) <$> names), (∅ : gset string).
  apply (concurrently_ind combine limit (λ l _ p, ∀ stages copies,
    Forall2 (λ s p, at_stage s.1 s.2 p) stages l → tracked (Nat.max 1 limit) stages copies →
    in_flight_at_most (Nat.max 1 limit) copies p)); clear.
  - intros x stages copies _ Htr. split; [by eapply tracked_size|done].
  - intros l x n body Hstep stages copies Hst Htr. split; [by eapply tracked_size|]. intros i. simpl.
    destruct (Hstep i) as (before & q & after & -> & Hb & Hq).
    apply Forall2_app_inv_r in Hst as (Sb & Sr & Hsb & ([name s] & Sa & Hs & Hsa & ->)%Forall2_cons_inv_r & ->).
    rewrite <-(Forall2_length _ _ _ Hsb) in Hb. simpl in Hs.
    destruct s; simpl in Hs.
    + destruct (copy_object_get name) as (k & Hk & Hcopying). rewrite Hk in Hs. subst q.
      destruct Hq as (k' & -> & Hk'). split; [by eapply tracked_size|]. intros r.
      apply (Hk' r (Sb ++ (name, Copying) :: Sa)); [by apply Forall2_app; [|constructor; [apply Hcopying|]]|].
      eapply tracked_move; [done..|]. destruct Htr as [_ Hall]. simpl. set_solver.
    + destruct Hs as [e|k Hk|b k Hk|b k Hk]; [by rewrite Hq; split; [eapply tracked_size|]|..];
        destruct Hq as (k' & -> & Hk'); (split; [by eapply tracked_size|]); intros r.
      * apply (Hk' r (Sb ++ (name, Copying) :: Sa)); [by apply Forall2_app; [|constructor; [apply Hk|]]|done].
      * apply (Hk' r (Sb ++ (name, Over) :: Sa)); [by apply Forall2_app; [|constructor; [apply Hk|]]|by apply tracked_end].
      * apply (Hk' r (Sb ++ (name, Over) :: Sa)); [by apply Forall2_app; [|constructor; [apply Hk|]]|by apply tracked_end].
    + destruct Hs as [[a|e] ->]; [|by rewrite Hq; split; [eapply tracked_size|]].
      eapply Hq; [by apply Forall2_app|by eapply tracked_drop].
Qed.

(** C38: a pass never has more copies in flight than its target's
    [copy_parallelism] (one when that is 0): whatever the objects, the order
    in which copies make progress and what the stores answer, at every moment
    of [copy] the source objects read and not yet written at the target are
    at most that many. *)
Theorem copies_in_flight settings urls names :
  in_flight_at_most (Nat.max 1 (N.to_nat (rmt_copy_parallelism settings))) ∅ (copy (Copier_new settings urls) names).
Proof.
  assert (Hb : in_flight_at_most (Nat.max 1 (N.to_nat (rmt_copy_parallelism settings))) ∅
    (copy_builtin (Copier_new settings urls) names)).
  { apply in_flight_bind; [|by intros [|]]. simpl.
    replace (Nat.max 1 (N.to_nat (rmt_copy_parallelism settings)))
      with (Nat.max 1 (N.to_nat (N.max 1 (rmt_copy_parallelism settings)))) by lia.
    apply copies_bounded. }
  assert (Hempty : set_size (∅ : gset string) = 0) by done.
  unfold copy. destruct names; [by split; [rewrite Hempty; lia|]|]. destruct (cr_kind _); [exact Hb| |exact Hb].
  unfold copy_rclone. apply in_flight_bind; [by split; [rewrite Hempty; lia|]|].
  intros [?|] c1 H1'; [|by split]. apply in_flight_bind; [by split|].
  intros [?|] c2 H2'; [|by split]. apply in_flight_bind; [by repeat split|]. by intros [[]|] c3 H3.
Qed.
End in_flight.
