(* ===== verification/Pass.v ===== *)
(** * The sync pass and the WAL tail (src/mirror/pass.rs)

    One pass brings the target's watermark to the source's latest manifest:
    recover the watermark, read the head, diff the closures, copy what may be
    missing under a pin checkpoint, commit the closure's manifests in
    ascending order, unpin.  This file is the code; what it guarantees is
    proved in [MirrorSafety]. *)

From S2P Require Import Prelude Order Text Store Slate Effects Config Registry Layout Copier.

Definition MAX_RESTARTS : nat := 5.

Definition pin_name (target_name : string) : string := "sleet-mirror:" +:+ target_name.

Record PassOutcome := {
  po_head : N;
  po_next_wal_sst_id : N;
  po_committed : bool;
  po_manifests_committed : N;
  po_copied : Copied;
}.

Inductive PassError :=
  | PRestart (reason : string)
  | Fatal (e : MirrorError).
Definition fatal_store (e : StoreError) : PassError := Fatal (MStore e).
Definition fatal_slate (e : SlateError) : PassError := Fatal (MSlateDb e).

(** The diff of the head's closure against the watermark's. *)
Record Diff := {
  df_closure : Closure;
  df_candidates : ManifestObjects;
  df_present_manifests : gset N;
}.

(** The pin checkpoint. *)
Record Pin := {
  pin_id : Uuid;
  pin_manifest_id : N;
  pin_lifetime : Duration;
  pin_refresh_due : Z;
  pin_deadline : Z;
}.

(** [?] where the cache lives on: the error leaves the cache as it is. *)
Definition tryc `{SlateLib} {S E F A B} (s : S) (conv : E → F) (p : prog (Result E A))
    (f : A → prog (S * Result F B)) : prog (S * Result F B) :=
  bind p (λ r, match r with Ok a => f a | Err e => Ret (s, Err (conv e)) end).
Notation "x <-?[ s ]{ conv } p ;; q" := (tryc s conv p (λ x, q))
  (at level 100, p at next level, right associativity) : prog_scope.
Notation "' pat <-?[ s ]{ conv } p ;; q" := (tryc s conv p (λ pat, q))
  (at level 100, pat pattern, p at next level, right associativity) : prog_scope.

Section pass.
Context `{SlateLib, UrlLib, !RemoteLib}.

(** ** The diff *)

(** The watermark's checkpoints: what they prove present. *)
Definition prove_checkpoint (now : Z) (live_in_head : gset Uuid) (manifests : gmap N ManifestObjects)
    (acc : ManifestObjects * gset N) (cp : Checkpoint) : ManifestObjects * gset N :=
  if negb (checkpoint_live cp now) || negb (bool_decide (cp_id cp ∈ live_in_head)) then acc
  else
    match manifests !! cp_manifest_id cp with
    | Some objects => (mo_extend acc.1 objects, {[cp_manifest_id cp]} ∪ acc.2)
    | None => acc
    end.

(** The objects and manifests the watermark proves present. *)
Definition proven_by (now : Z) (head : VersionedManifest) (manifests : gmap N ManifestObjects)
    (watermark : option VersionedManifest) : ManifestObjects * gset N :=
  match watermark with
  | None => (∅, ∅)
  | Some w =>
      let live_in_head : gset Uuid :=
        list_to_set (cp_id <$> filter (λ cp, checkpoint_live cp now = true) (m_checkpoints head)) in
      fold_left (prove_checkpoint now live_in_head manifests) (m_checkpoints w)
        (mo_extend ∅ (manifest_objects w), {[m_id w]})
  end.

Definition diff_against_watermark (head : VersionedManifest) (watermark : option VersionedManifest)
    (cache : ManifestCache) : prog (ManifestCache * Result PassError Diff) :=
  now <- ask UtcNow;;
  '(cache, closure) <-?[cache]{Fatal} closure Source head now cache;;
  match closure with
  | None => Ret (cache, Err (PRestart "a live checkpoint's pinned manifest vanished mid-diff"))
  | Some closure =>
      let '(proven, present_manifests) := proven_by now head (cl_manifests closure) watermark in
      Ret (cache, Ok {| df_closure := closure;
                        df_candidates := mo_difference (closure_objects closure) proven;
                        df_present_manifests := present_manifests |})
  end.

(** HEAD-checked WAL candidates, ascending. *)
Definition wal_misses (wal : gset N) : prog (Result MirrorError (list N)) :=
  misses <-? head_misses Dest (ascending wal) wal_rel;;
  Ret (Ok (sort_by key_le misses)).

Definition plan_work (copier : Copier) (diff : Diff) (seeding : bool)
    : prog (Result PassError (list string)) :=
  compacted <-?{Fatal} plan_compacted copier (ascending (mo_compacted (df_candidates diff))) seeding;;
  wal <-?{Fatal} wal_misses (mo_wal (df_candidates diff));;
  Ret (Ok ((compacted_rel <$> compacted) ++ (wal_rel <$> wal))).

(** ** The commit *)

(** One manifest of the closure: the number of manifests written. *)
Definition commit_one (u : Urls) (head_id id : N) : prog (Result PassError N) :=
  r <- ask (Get Source (manifest_rel id));;
  match r with
  | Err (NotFound _) => Ret (Err (PRestart ("source manifest " +:+ decimal id +:+ " vanished before commit")))
  | Err e => Ret (Err (fatal_store e))
  | Ok get =>
      bytes <-?{fatal_store} Ret (gr_bytes get);;
      put <- ask (PutCreate Dest (manifest_rel id) bytes);;
      match put with
      | Ok _ => Ret (Ok 1%N)
      | Err AlreadyExists =>
          existing <-?{fatal_store} ask (Get Dest (manifest_rel id));;
          existing <-?{fatal_store} Ret (gr_bytes existing);;
          if bool_decide (existing = bytes) then Ret (Ok 0%N)
          else Ret (Err (Fatal (Diverged (dest_url u) id head_id)))
      | Err e => Ret (Err (fatal_store e))
      end
  end.

Fixpoint commit_loop (u : Urls) (head_id : N) (present : gset N) (ids : list N) (committed : N)
    : prog (Result PassError N) :=
  match ids with
  | [] => Ret (Ok committed)
  | id :: ids =>
      if bool_decide (id ∈ present) then commit_loop u head_id present ids committed
      else
        n <-? commit_one u head_id id;;
        commit_loop u head_id present ids (committed + n)
  end.

Definition commit (u : Urls) (diff : Diff) (head : VersionedManifest) (copied : Copied)
    : prog (Result PassError PassOutcome) :=
  committed <-? commit_loop u (m_id head) (df_present_manifests diff)
    (btree_keys (cl_manifests (df_closure diff))) 0;;
  Ret (Ok {| po_head := m_id head; po_next_wal_sst_id := m_next_wal_sst_id head; po_committed := true;
             po_manifests_committed := committed; po_copied := copied |}).

(** ** The pin *)
Definition Pin_create (target_name : string) (lifetime : Duration) : prog (Result MirrorError Pin) :=
  '(id, manifest_id) <-?{MSlateDb}
    ask (CreateCheckpoint Source {| co_lifetime := lifetime; co_name := pin_name target_name |});;
  now <- ask InstantNow;;
  Ret (Ok {| pin_id := id; pin_manifest_id := manifest_id; pin_lifetime := lifetime;
             pin_refresh_due := now + Z.of_N (lifetime / 2); pin_deadline := now + Z.of_N lifetime |}).

Definition Pin_refresh (pin : Pin) : prog (Result PassError Pin) :=
  r <- ask (RefreshCheckpoint Source (pin_id pin) (pin_lifetime pin));;
  match r with
  | Ok _ =>
      now <- ask InstantNow;;
      Ret (Ok {| pin_id := pin_id pin; pin_manifest_id := pin_manifest_id pin;
                 pin_lifetime := pin_lifetime pin;
                 pin_refresh_due := now + Z.of_N (pin_lifetime pin / 2);
                 pin_deadline := now + Z.of_N (pin_lifetime pin) |})
  | Err e => Ret (Err (PRestart ("pin refresh failed: " +:+ e)))
  end.

Definition Pin_lapsed (pin : Pin) : prog bool :=
  now <- ask InstantNow;; Ret (bool_decide (pin_deadline pin ≤ now)%Z).

(** Best effort: a failure only logs. *)
Definition Pin_delete (pin : Pin) : prog unit :=
  _ <- ask (DeleteCheckpoint Source (pin_id pin));; Ret ().

(** ** Copying under the pin *)

Definition copy_error (e : MirrorError) : PassError :=
  match e with
  | MStore (NotFound path) => PRestart (path +:+ " vanished mid-copy")
  | other => Fatal other
  end.

Fixpoint refresh_times (n : nat) (pin : Pin) : prog (Result PassError Pin) :=
  match n with
  | 0 => Ret (Ok pin)
  | S n => pin <-? Pin_refresh pin;; refresh_times n pin
  end.

(** The [select!] loop: before each of its calls completes, the copy may lose
    to the timer any number of times; a failed refresh abandons it. *)
Fixpoint under_pin {A} (pin : Pin) (p : prog A) : prog (Result PassError (Pin * A)) :=
  match p with
  | Ret a => Ret (Ok (pin, a))
  | Call c k =>
      Call (TimerFires (pin_refresh_due pin)) (λ n,
        bind (refresh_times n pin) (λ r,
          match r with
          | Err e => Ret (Err e)
          | Ok pin => Call c (λ x, under_pin pin (k x))
          end))
  end.

Definition copy_under_pin (copier : Copier) (work : list string) (pin : Pin)
    : prog (Result PassError (Pin * Copied)) :=
  '(pin, result) <-? under_pin pin (copy copier work);;
  Ret (match result with Ok copied => Ok (pin, copied) | Err e => Err (copy_error e) end).

(** ** The pass *)

(** Steps 4 to 6, once the pin exists and its manifest is adopted. *)
Definition copy_and_commit (u : Urls) (copier : Copier) (diff : Diff) (head : VersionedManifest)
    (work : list string) (pin : Pin) : prog (Result PassError PassOutcome) :=
  '(pin, copied) <-? copy_under_pin copier work pin;;
  lapsed <- Pin_lapsed pin;;
  if lapsed : bool then Ret (Err (PRestart "pin lapsed before commit"))
  else commit u diff head copied.

Definition pinned_pass (u : Urls) (target_name : string) (settings : ResolvedMirrorTarget)
    (copier : Copier) (watermark : option VersionedManifest) (seeding : bool) (cache : ManifestCache)
    : prog (ManifestCache * Result PassError PassOutcome) :=
  pin <-?[cache]{Fatal} Pin_create target_name (rmt_checkpoint_lifetime settings);;
  '(cache, adopted) <-?[cache]{Fatal} cache_read Source cache (pin_manifest_id pin);;
  match adopted with
  | None =>
      _ <- Pin_delete pin;;
      Ret (cache, Err (PRestart "the pin's own manifest already vanished"))
  | Some head =>
      '(cache, diff) <- diff_against_watermark head watermark cache;;
      match diff with
      | Err e => Ret (cache, Err e)
      | Ok diff =>
          work <-?[cache]{λ e, e} plan_work copier diff seeding;;
          result <- copy_and_commit u copier diff head work pin;;
          _ <- Pin_delete pin;;
          Ret (cache, result)
      end
  end.

(** Steps 1 and 2: the watermark and the head, or an early return. *)
Definition read_heads (u : Urls)
    : prog (Result PassError (option VersionedManifest * VersionedManifest)) :=
  watermark <-?{fatal_slate} ask (ReadManifest Dest None);;
  head <-?{fatal_slate} ask (ReadManifest Source None);;
  match head with
  | None => Ret (Err (Fatal (NotADatabase (source_url u))))
  | Some head =>
      match check_source (source_url u) head with
      | Err e => Ret (Err (Fatal e))
      | Ok _ =>
          match watermark with
          | Some w =>
              if bool_decide (m_id head < m_id w)%N
              then Ret (Err (Fatal (Diverged (dest_url u) (m_id w) (m_id head))))
              else Ret (Ok (watermark, head))
          | None => Ret (Ok (watermark, head))
          end
      end
  end.

Definition caught_up (head : VersionedManifest) : PassOutcome :=
  {| po_head := m_id head; po_next_wal_sst_id := m_next_wal_sst_id head; po_committed := false;
     po_manifests_committed := 0; po_copied := Copied_default |}.

Definition pass_once (u : Urls) (target_name : string) (settings : ResolvedMirrorTarget)
    (copier : Copier) (cache : ManifestCache) : prog (ManifestCache * Result PassError PassOutcome) :=
  '(watermark, head) <-?[cache]{λ e, e} read_heads u;;
  if bool_decide (m_id <$> watermark = Some (m_id head)) then Ret (cache, Ok (caught_up head))
  else
    let seeding := bool_decide (watermark = None) in
    '(cache, diff) <- diff_against_watermark head watermark cache;;
    match diff with
    | Err e => Ret (cache, Err e)
    | Ok diff =>
        work <-?[cache]{λ e, e} plan_work copier diff seeding;;
        match work with
        | [] =>
            result <- commit u diff head Copied_default;;
            Ret (cache, result)
        | _ => pinned_pass u target_name settings copier watermark seeding cache
        end
    end.

(** The restart loop. *)
Fixpoint sync_loop (u : Urls) (target_name : string) (settings : ResolvedMirrorTarget)
    (copier : Copier) (attempts : nat) (cache : ManifestCache) (last_reason : string)
    : prog (Result MirrorError PassOutcome) :=
  match attempts with
  | 0 => Ret (Err (Stalled target_name last_reason))
  | S attempts =>
      '(cache, r) <- pass_once u target_name settings copier cache;;
      match r with
      | Ok outcome => Ret (Ok outcome)
      | Err (PRestart reason) => sync_loop u target_name settings copier attempts cache reason
      | Err (Fatal e) => Ret (Err e)
      end
  end.

Definition sync_pass (u : Urls) (target_name : string) (settings : ResolvedMirrorTarget)
    : prog (Result MirrorError PassOutcome) :=
  sync_loop u target_name settings (Copier_new settings u) MAX_RESTARTS ∅ EmptyString.

(** ** The WAL tail *)
Record Tail := { tail_next : N }.

(** [m + 1] is exact: a [u64] WAL id is far from the maximum. *)
Definition Tail_start (floor : N) : prog (Result MirrorError Tail) :=
  wals <-? list_wals Dest;;
  Ret (Ok {| tail_next := match last wals with
                          | Some (m, _) => N.max (wrap64 (m + 1)) floor
                          | None => floor end |}).

Definition advance_floor (t : Tail) (floor : N) : Tail := {| tail_next := N.max (tail_next t) floor |}.

(** One iteration of [Tail::step]: whether a WAL was copied. *)
Definition tail_copy (next : N) : prog (Result MirrorError bool) :=
  let rel := wal_rel next in
  r <- ask (Get Source rel);;
  match r with
  | Err (NotFound _) => Ret (Ok false)
  | Err e => Ret (Err (MStore e))
  | Ok get =>
      bytes <-?{MStore} Ret (gr_bytes get);;
      _ <-?{MStore} ask (Put Dest rel bytes);;
      Ret (Ok true)
  end.

(** [Tail::step]: the loop ends when the source has no next WAL; [fuel] bounds
    the iterations one call observes. *)
Fixpoint tail_step (fuel : nat) (t : Tail) (copied : N) : prog (Tail * Result MirrorError N) :=
  match fuel with
  | 0 => Ret (t, Ok copied)
  | S fuel =>
      more <-?[t]{λ e, e} tail_copy (tail_next t);;
      if more : bool then tail_step fuel {| tail_next := wrap64 (tail_next t + 1) |} (copied + 1)
      else Ret (t, Ok copied)
  end.
End pass.
