(* ===== verification/Prune.v ===== *)
(** * Restore-point retention (src/mirror/prune.rs)

    The pruner: what it keeps, the two guards, and the deletions, manifests
    before data objects.  What it preserves is proved in [PruneSafety]. *)

From S2P Require Import Prelude Order Text Store Slate Effects Config Registry Layout Pass.

Record PruneReport := {
  pr_kept_manifests : N;
  pr_deleted_manifests : N;
  pr_deleted_objects : N;
  pr_data_deletion_ran : bool;
}.
Definition PruneReport_default : PruneReport :=
  {| pr_kept_manifests := 0; pr_deleted_manifests := 0; pr_deleted_objects := 0;
     pr_data_deletion_ran := false |}.

(** [ObjectMeta::location] of a listed object, relative to the root. *)
Definition location (dir : string) (meta : Listed) : string := dir +:+ "/" +:+ li_name meta.

Section prune.
Context `{SlateLib}.

(** ** The source's closure *)

(** The loop over the latest manifest's checkpoint entries, expired or not. *)
Fixpoint source_closure_loop (latest_id : N) (cps : list Checkpoint) (seen : gset N) (objects : ManifestObjects)
    : prog (Result MirrorError ManifestObjects) :=
  match cps with
  | [] => Ret (Ok objects)
  | cp :: cps =>
      if bool_decide (cp_manifest_id cp = latest_id) || bool_decide (cp_manifest_id cp ∈ seen)
      then source_closure_loop latest_id cps seen objects
      else
        let seen := {[cp_manifest_id cp]} ∪ seen in
        pinned <-?{MSlateDb} ask (ReadManifest Source (Some (cp_manifest_id cp)));;
        source_closure_loop latest_id cps seen
          match pinned with Some m => mo_extend objects (manifest_objects m) | None => objects end
  end.

Definition source_closure (u : Urls) : prog (Result MirrorError ManifestObjects) :=
  latest <-?{MSlateDb} ask (ReadManifest Source None);;
  match latest with
  | None => Ret (Err (NotADatabase (source_url u)))
  | Some latest => source_closure_loop (m_id latest) (m_checkpoints latest) ∅ (manifest_objects latest)
  end.

(** ** What is kept *)
Definition restore_points (now : Z) (keep : Duration) (latest : N) (manifests : list (N * Listed)) : list N :=
  fst <$> filter (λ e : N * Listed, e.1 = latest ∨ (now - li_modified e.2 < Z.of_N keep)%Z) manifests.

(** The manifests the live checkpoints of a restore point pin, if listed. *)
Definition supported (now : Z) (dest_ids : gset N) (m : VersionedManifest) : gset N :=
  filter (λ id, id ∈ dest_ids)
    (list_to_set (cp_manifest_id <$> filter (λ cp, checkpoint_live cp now = true) (m_checkpoints m))).

Fixpoint keep_loop (now : Z) (dest_ids : gset N) (points : list N) (decoded : ManifestCache) (kept : gset N)
    : prog (Result MirrorError (ManifestCache * gset N)) :=
  match points with
  | [] => Ret (Ok (decoded, kept))
  | id :: points =>
      let kept := {[id]} ∪ kept in
      '(decoded, manifest) <-? cache_read Dest decoded id;;
      match manifest with
      | None => keep_loop now dest_ids points decoded kept
      | Some m => keep_loop now dest_ids points decoded (supported now dest_ids m ∪ kept)
      end
  end.

(** The objects of the kept manifests, and whether all of them decoded. *)
Fixpoint kept_objects_loop (ids : list N) (decoded : ManifestCache) (objects : ManifestObjects) (all : bool)
    : prog (Result MirrorError (ManifestCache * ManifestObjects * bool)) :=
  match ids with
  | [] => Ret (Ok (decoded, objects, all))
  | id :: ids =>
      '(decoded, manifest) <-? cache_read Dest decoded id;;
      match manifest with
      | Some m => kept_objects_loop ids decoded (mo_extend objects (manifest_objects m)) all
      | None => kept_objects_loop ids decoded objects false
      end
  end.

(** ** Deletions *)

(** Delete these objects in order, counting; a missing one is deleted. *)
Fixpoint delete_all (rels : list string) (deleted : N) : prog (Result MirrorError N) :=
  match rels with
  | [] => Ret (Ok deleted)
  | rel :: rels =>
      r <- ask (Delete Dest rel);;
      match r with
      | Ok _ | Err (NotFound _) => delete_all rels (deleted + 1)
      | Err e => Ret (Err (MStore e))
      end
  end.

Definition guarded (now : Z) (min_age : Duration) (floor : option Z) (modified : Z) : bool :=
  bool_decide (now - modified ≤ Z.of_N min_age)%Z ||
  match floor with Some f => bool_decide (f ≤ modified)%Z | None => false end.

Definition stale_manifests (kept : gset N) (manifests : list (N * Listed)) : list string :=
  (λ e : N * Listed, manifest_rel e.1) <$> filter (λ e : N * Listed, e.1 ∉ kept) manifests.

Definition stale_compacted (kept spared : ManifestObjects) (guarded : Z → bool) (l : list (string * Listed))
    : list string :=
  (λ e : string * Listed, location COMPACTED_DIR e.2) <$>
    filter (λ e : string * Listed, e.1 ∉ mo_compacted kept ∧ e.1 ∉ mo_compacted spared ∧
      guarded (li_modified e.2) = false) l.

Definition stale_wals (tail_floor : N) (kept spared : ManifestObjects) (guarded : Z → bool) (l : list (N * Listed))
    : list string :=
  (λ e : N * Listed, location WAL_DIR e.2) <$>
    filter (λ e : N * Listed, (e.1 < tail_floor)%N ∧ e.1 ∉ mo_wal kept ∧ e.1 ∉ mo_wal spared ∧
      guarded (li_modified e.2) = false) l.

(** Guard 2: [create_time - min_age] of the oldest checkpoint named for the
    target; none when the listing fails. *)
Definition pin_floor (target_name : string) (min_age : Duration) : prog (option Z) :=
  r <- ask (ListCheckpoints Source (pin_name target_name));;
  Ret match r with
      | Ok pins =>
          foldr (λ cp acc, Some match acc with
            | Some f => Z.min (cp_create_time cp - Z.of_N min_age) f
            | None => cp_create_time cp - Z.of_N min_age end)%Z None pins
      | Err _ => None
      end.

(** ** The prune pass *)

(** From the manifest deletions on. *)
Definition prune_deletions (now : Z) (min_age : Duration) (manifests : list (N * Listed))
    (compacted : list (string * Listed)) (wals : list (N * Listed)) (spared : Result MirrorError ManifestObjects)
    (floor : option Z) (kept : gset N) (kept_objects : ManifestObjects) (kept_decoded : bool) (tail_floor : N)
    : prog (Result MirrorError PruneReport) :=
  let report deleted objects :=
    {| pr_kept_manifests := N.of_nat (set_size kept); pr_deleted_manifests := deleted;
       pr_deleted_objects := objects;
       pr_data_deletion_ran := match spared with Ok _ => kept_decoded | Err _ => false end |} in
  deleted <-? delete_all (stale_manifests kept manifests) 0%N;;
  match spared with
  | Err _ => Ret (Ok (report deleted 0%N))
  | Ok spared =>
      if negb kept_decoded then Ret (Ok (report deleted 0%N))
      else
        n <-? delete_all (stale_compacted kept_objects spared (guarded now min_age floor) compacted) 0%N;;
        n <-? delete_all (stale_wals tail_floor kept_objects spared (guarded now min_age floor) wals) n;;
        Ret (Ok (report deleted n))
  end.

(** [chrono::Duration::from_std] is exact in the range its [expect] allows. *)
Definition prune_at (u : Urls) (target_name : string) (settings : ResolvedMirrorTarget) (now : Z)
    : prog (Result MirrorError PruneReport) :=
  match rmt_keep settings with
  | None => Ret (Ok PruneReport_default)
  | Some keep =>
      let min_age := rmt_min_age settings in
      manifests <-? list_manifests Dest;;
      match last manifests with
      | None => Ret (Ok PruneReport_default)
      | Some (latest, _) =>
          compacted <-? list_compacted Dest;;
          wals <-? list_wals Dest;;
          spared <- source_closure u;;
          floor <- match spared with Ok _ => pin_floor target_name min_age | Err _ => Ret None end;;
          let dest_ids : gset N := list_to_set manifests.*1 in
          '(decoded, kept) <-? keep_loop now dest_ids (restore_points now keep latest manifests) ∅ ∅;;
          '(decoded, kept_objects, kept_decoded) <-? kept_objects_loop (ascending kept) decoded ∅ true;;
          '(decoded, head) <-? cache_read Dest decoded latest;;
          let tail_floor := match head with Some m => m_next_wal_sst_id m | None => 0%N end in
          prune_deletions now min_age manifests compacted wals spared floor kept kept_objects kept_decoded
            tail_floor
      end
  end.

Definition prune (u : Urls) (target_name : string) (settings : ResolvedMirrorTarget)
    : prog (Result MirrorError PruneReport) :=
  now <- ask UtcNow;;
  prune_at u target_name settings now.
End prune.
