(* ===== verification/Restore.v ===== *)
(** * Restoring a backup (src/mirror/restore.rs)

    A one-shot copy of a chosen restore point's closure into an empty root.
    In the calls the backup is the [Source] site and the new root the
    [Dest]. *)

From S2P Require Import Prelude Order Text Store Slate Effects Config Registry Layout Copier Pass.

(** Times as text: the [chrono] crate. *)
Class ChronoLib := {
  parse_from_rfc3339 : string → option Z;
  to_rfc3339 : Z → string;
  debug_time : Z → string;
}.

Inductive RestorePoint :=
  | PointLatest
  | PointManifest (id : N)
  | PointTime (ts : Z).

Record RestoreOutcome := {
  ro_manifest_id : N;
  ro_manifests_committed : N;
  ro_copied_objects : N;
  ro_copied_bytes : N;
}.

Section restore.
Context `{SlateLib, UrlLib, !RemoteLib, ChronoLib}.

(** [RestorePoint::parse] *)
Definition RestorePoint_parse (at_ : string) : Result string RestorePoint :=
  match parse_u64 at_ with
  | Some id => Ok (PointManifest id)
  | None =>
      match parse_from_rfc3339 at_ with
      | Some t => Ok (PointTime t)
      | None => Err ("--at " +:+ debug_string at_ +:+ " is neither a manifest id nor an RFC 3339 timestamp")
      end
  end.

(** [#[derive(Debug)]] *)
Definition debug_point (p : RestorePoint) : string :=
  match p with
  | PointLatest => "Latest"
  | PointManifest id => "Manifest(" +:+ decimal id +:+ ")"
  | PointTime ts => "Time(" +:+ debug_time ts +:+ ")"
  end.

(** The loop over the listed manifests, newest first. *)
Fixpoint newest_within (head : VersionedManifest) (ts : Z) (ids : list N) : prog (Result MirrorError N) :=
  match ids with
  | [] => Ret (Err (NoRestorePoint (to_rfc3339 ts) "the timestamp predates the backup's tracked history"))
  | id :: ids =>
      m <-?{MSlateDb} ask (ReadManifest Source (Some id));;
      match m ≫= (λ m, m_find_ts head (m_last_l0_seq m)) with
      | Some m_ts => if bool_decide (m_ts ≤ ts)%Z then Ret (Ok id) else newest_within head ts ids
      | None => newest_within head ts ids
      end
  end.

(** [manifests] is not empty: [latest] is its last id. *)
Definition resolve_point (u : Urls) (manifests : list (N * Listed)) (latest : N) (point : RestorePoint)
    : prog (Result MirrorError N) :=
  match point with
  | PointLatest => Ret (Ok latest)
  | PointManifest id =>
      if bool_decide (id ∈ manifests.*1) then Ret (Ok id)
      else Ret (Err (NoRestorePoint (decimal id) ("the backup has no manifest " +:+ decimal id)))
  | PointTime ts =>
      head <-?{MSlateDb} ask (ReadManifest Source (Some latest));;
      match head with
      | None => Ret (Err (NotADatabase (source_url u)))
      | Some head => newest_within head ts (reverse manifests.*1)
      end
  end.

(** The loop over the chosen manifest's checkpoints. *)
Fixpoint members_loop (point : RestorePoint) (chosen : N) (now : Z) (cps : list Checkpoint)
    (members : gmap N ManifestObjects) : prog (Result MirrorError (gmap N ManifestObjects)) :=
  match cps with
  | [] => Ret (Ok members)
  | cp :: cps =>
      if negb (checkpoint_live cp now) || bool_decide (cp_manifest_id cp = chosen)
      then members_loop point chosen now cps members
      else
        pinned <-?{MSlateDb} ask (ReadManifest Source (Some (cp_manifest_id cp)));;
        match pinned with
        | Some pinned =>
            members_loop point chosen now cps (<[cp_manifest_id cp := manifest_objects pinned]> members)
        | None =>
            Ret (Err (NoRestorePoint (debug_point point)
              ("manifest " +:+ decimal chosen +:+ " is closure support, not a restore point: its live " +:+
               "checkpoint pins manifest " +:+ decimal (cp_manifest_id cp) +:+ ", which the backup no longer has")))
        end
  end.

(** Commit the members in ascending id order; any failure fails the restore. *)
Fixpoint commit_members (ids : list N) (committed : N) : prog (Result MirrorError N) :=
  match ids with
  | [] => Ret (Ok committed)
  | id :: ids =>
      get <-?{MStore} ask (Get Source (manifest_rel id));;
      bytes <-?{MStore} Ret (gr_bytes get);;
      _ <-?{MStore} ask (PutCreate Dest (manifest_rel id) bytes);;
      commit_members ids (committed + 1)
  end.

(** The settings of a restore's copies: the defaults and the builtin copier,
    which is the default too. *)
Definition restore_settings : ResolvedMirrorTarget := ResolvedMirrorTarget_default.

(** From the chosen manifest on. *)
Definition restore_closure (u : Urls) (point : RestorePoint) (chosen : N) (manifest : VersionedManifest)
    : prog (Result MirrorError RestoreOutcome) :=
  now <- ask UtcNow;;
  members <-? members_loop point chosen now (m_checkpoints manifest) {[ chosen := manifest_objects manifest ]};;
  let objects := fold_left mo_extend (btree_values members) ∅ in
  copied <-? copy (Copier_new restore_settings u) (mo_rel_names objects);;
  committed <-? commit_members (btree_keys members) 0;;
  Ret (Ok {| ro_manifest_id := chosen; ro_manifests_committed := committed;
             ro_copied_objects := cd_objects copied; ro_copied_bytes := cd_bytes copied |}).

Definition restore (u : Urls) (point : RestorePoint) : prog (Result MirrorError RestoreOutcome) :=
  existing <-?{MStore} ask (ListRoot Dest);;
  if existing : bool then Ret (Err (DestinationNotEmpty (dest_url u)))
  else
    manifests <-? list_manifests Source;;
    match last manifests with
    | None => Ret (Err (NotADatabase (source_url u)))
    | Some (latest, _) =>
        chosen <-? resolve_point u manifests latest point;;
        manifest <-?{MSlateDb} ask (ReadManifest Source (Some chosen));;
        match manifest with
        | None => Ret (Err (NoRestorePoint (debug_point point)
                    ("manifest " +:+ decimal chosen +:+ " vanished from the backup")))
        | Some manifest => restore_closure u point chosen manifest
        end
    end.
End restore.
