(* ===== verification/Loops.v ===== *)
(** * The mirror task's loops (src/mirror/mod.rs)

    One [(database, target)] assignment: the continuous loop (pass when the
    source's head moved, prune, tail, back off while idle) and the periodic
    one (a pass when the target's newest manifest is an interval old). *)

From S2P Require Import Prelude Order Text Store Slate Effects Config Registry.
From S2P Require Import Layout Copier Pass Targets Prune.

Definition IDLE_POLL_MAX : Duration := from_secs 300.
Definition IDLE_PRUNE_EVERY : Duration := from_secs 600.

(** [idle * 2] panics beyond [Duration::MAX]; [poll] is far below it. *)
Definition next_idle (poll idle : Duration) (active : bool) : Duration :=
  if active then poll else N.min (idle * 2) (N.max IDLE_POLL_MAX poll).

(** [(interval / 20).clamp(60 s, 3600 s)] *)
Definition check_every (interval : Duration) : Duration :=
  N.max (from_secs 60) (N.min (interval / 20) (from_secs 3600)).

(** The wait for a target whose newest manifest is [age < interval] old; a
    negative age (clock skew) waits one interval. *)
Definition until_due (interval : Duration) (age : Z) : Duration :=
  N.min (Z.to_N (Z.of_N interval - age)) interval.

(** What the continuous loop keeps between iterations. *)
Record LoopState := {
  ls_idle : Duration;
  ls_watermark : option N;
  ls_tail : option Tail;
  ls_last_prune : Z;
}.

Section loops.
Context `{SlateLib, UrlLib, !RemoteLib}.

(** A handle pair and the applied target. *)
Record Assigned := { as_urls : Urls; as_target : AppliedTarget }.
Definition settings_of (a : Assigned) : ResolvedMirrorTarget := at_settings (as_target a).

Definition sync_target (a : Assigned) : prog (Result MirrorError PassOutcome) :=
  sync_pass (as_urls a) (at_name (as_target a)) (settings_of a).
Definition prune_target (a : Assigned) : prog (Result MirrorError PruneReport) :=
  prune (as_urls a) (at_name (as_target a)) (settings_of a).

Definition sync_once (a : Assigned) : prog (Result MirrorError (PassOutcome * PruneReport)) :=
  outcome <-? sync_target a;;
  report <-? prune_target a;;
  Ret (Ok (outcome, report)).

(** [last_prune.elapsed() >= IDLE_PRUNE_EVERY] *)
Definition prune_due (last_prune : Z) : prog bool :=
  now <- ask InstantNow;;
  Ret (bool_decide (Z.of_N IDLE_PRUNE_EVERY ≤ now - last_prune)%Z).

(** Prune and note when. *)
Definition prune_now (a : Assigned) : prog (Result MirrorError Z) :=
  _ <-? prune_target a;;
  now <- ask InstantNow;;
  Ret (Ok now).

(** The pass of one iteration: the new state and whether it committed. *)
Definition sync_and_prune (a : Assigned) (s : LoopState) : prog (Result MirrorError (LoopState * bool)) :=
  outcome <-? sync_target a;;
  tail <-? match ls_tail s with
           | Some t => Ret (Ok (advance_floor t (po_next_wal_sst_id outcome)))
           | None => Tail_start (po_next_wal_sst_id outcome)
           end;;
  due <- (if po_committed outcome then Ret true else prune_due (ls_last_prune s));;
  last_prune <-? (if due : bool then prune_now a else Ret (Ok (ls_last_prune s)));;
  Ret (Ok ({| ls_idle := ls_idle s; ls_watermark := Some (po_head outcome); ls_tail := Some tail;
              ls_last_prune := last_prune |}, po_committed outcome)).

(** Up to the tail: [None] when cancelled while waiting for a permit. *)
Definition iterate (a : Assigned) (s : LoopState) : prog (Result MirrorError (option (LoopState * bool))) :=
  source_head <-? max_manifest_id Source;;
  if bool_decide (is_Some source_head) && negb (bool_decide (source_head = ls_watermark s)) then
    granted <- ask AcquirePermit;;
    if granted : bool then
      r <-? sync_and_prune a s;;
      Ret (Ok (Some r))
    else Ret (Ok None)
  else
    due <- match rmt_keep (settings_of a) with Some _ => prune_due (ls_last_prune s) | None => Ret false end;;
    if due : bool then
      granted <- ask AcquirePermit;;
      if granted : bool then
        last_prune <-? prune_now a;;
        Ret (Ok (Some ({| ls_idle := ls_idle s; ls_watermark := ls_watermark s; ls_tail := ls_tail s;
                          ls_last_prune := last_prune |}, false)))
      else Ret (Ok None)
    else Ret (Ok (Some (s, false))).

(** [tail.step(..) > 0], when there is a tail. *)
Definition step_tail (fuel : nat) (s : LoopState) : prog (Result MirrorError (LoopState * bool)) :=
  match ls_tail s with
  | None => Ret (Ok (s, false))
  | Some t =>
      '(t, copied) <- tail_step fuel t 0;;
      match copied with
      | Err e => Ret (Err e)
      | Ok copied =>
          Ret (Ok ({| ls_idle := ls_idle s; ls_watermark := ls_watermark s; ls_tail := Some t;
                      ls_last_prune := ls_last_prune s |}, bool_decide (0 < copied)%N))
      end
  end.

Definition with_idle (s : LoopState) (idle : Duration) : LoopState :=
  {| ls_idle := idle; ls_watermark := ls_watermark s; ls_tail := ls_tail s; ls_last_prune := ls_last_prune s |}.

(** The loop; [fuel] bounds the iterations observed, and in each the tail's. *)
Fixpoint continuous_loop (fuel : nat) (a : Assigned) (s : LoopState) : prog (Result MirrorError unit) :=
  match fuel with
  | 0 => Ret (Ok ())
  | S fuel =>
      cancelled <- ask IsCancelled;;
      if cancelled : bool then Ret (Ok ())
      else
        r <-? iterate a s;;
        match r with
        | None => Ret (Ok ())
        | Some (s, committed) =>
            '(s, copied) <-? step_tail fuel s;;
            let idle := next_idle (rmt_poll (settings_of a)) (ls_idle s) (committed || copied) in
            cancelled <- ask (Sleep idle);;
            if cancelled : bool then Ret (Ok ()) else continuous_loop fuel a (with_idle s idle)
        end
  end.

Definition run_continuous (fuel : nat) (a : Assigned) : prog (Result MirrorError unit) :=
  now <- ask InstantNow;;
  continuous_loop fuel a
    {| ls_idle := rmt_poll (settings_of a); ls_watermark := None; ls_tail := None; ls_last_prune := now |}.

(** The age of the target's newest manifest, if it has one. *)
Definition newest_age : prog (Result MirrorError (option Z)) :=
  manifests <-? list_manifests Dest;;
  match last manifests with
  | None => Ret (Ok None)
  | Some (_, meta) =>
      now <- ask UtcNow;;
      Ret (Ok (Some (now - li_modified meta)%Z))
  end.

(** A due pass: how long to sleep after it, or [None] when cancelled while
    waiting for a permit. *)
Definition periodic_pass (a : Assigned) : prog (Result MirrorError (option Duration)) :=
  let interval := rmt_interval (settings_of a) in
  granted <- ask AcquirePermit;;
  if granted : bool then
    '(outcome, _) <-? sync_once a;;
    Ret (Ok (Some (if po_committed outcome then interval else N.min (check_every interval) interval)))
  else Ret (Ok None).

Definition periodic_turn (a : Assigned) (age : option Z) : prog (Result MirrorError (option Duration)) :=
  let interval := rmt_interval (settings_of a) in
  match age with
  | Some age => if bool_decide (age < Z.of_N interval)%Z then Ret (Ok (Some (until_due interval age))) else periodic_pass a
  | None => periodic_pass a
  end.

Fixpoint periodic_loop (fuel : nat) (a : Assigned) : prog (Result MirrorError unit) :=
  match fuel with
  | 0 => Ret (Ok ())
  | S fuel =>
      cancelled <- ask IsCancelled;;
      if cancelled : bool then Ret (Ok ())
      else
        age <-? newest_age;;
        sleep <-? periodic_turn a age;;
        match sleep with
        | None => Ret (Ok ())
        | Some sleep =>
            cancelled <- ask (Sleep sleep);;
            if cancelled : bool then Ret (Ok ()) else periodic_loop fuel a
        end
  end.

Definition run_mirror (fuel : nat) (a : Assigned) : prog (Result MirrorError unit) :=
  match rmt_mode (settings_of a) with
  | Continuous => run_continuous fuel a
  | Periodic => periodic_loop fuel a
  end.
End loops.
