(* ===== verification/Rely.v ===== *)
(** * Rely-guarantee reasoning about mirror programs

    The target's invariant, what every mirror task may do to the world
    ([rely]), the weakest precondition [wp] of a program under it, and its
    soundness for any number of tasks interleaved with the source. *)

From S2P Require Import Prelude Order Text Store Slate Effects Concurrent Layout.

Section rely.
Context `{SlateLib, !SlateLaws}.
Implicit Types (w : world) (m : VersionedManifest).

Definition carries m (cp : Checkpoint) : Prop :=
  ∃ cp', cp' ∈ m_checkpoints m ∧ cp_id cp' = cp_id cp.
Definition at_dest w (rel : string) : Prop := is_Some (w_dest w !! rel).
Definition objects_at_dest w m : Prop :=
  ∀ rel, rel ∈ mo_rel_names (manifest_objects m) → at_dest w rel.

(** The target is a faithful, complete mirror: its objects are the source's
    with the source's bytes; every manifest has its own data objects; and the
    newest one has, for every checkpoint in it that is live and not deleted at
    the source, the pinned manifest. *)
Record Inv w : Prop := {
  inv_wf : wf_source w;
  inv_faithful : ∀ rel b, w_dest w !! rel = Some b → source_has w rel b;
  inv_complete : ∀ id m, w_hist w !! id = Some m → at_dest w (manifest_rel id) → objects_at_dest w m;
  inv_closed : ∀ id m cp l,
    dest_latest w id → w_hist w !! id = Some m → cp ∈ m_checkpoints m →
    outlives cp (w_time w) → latest w l → carries l cp →
    at_dest w (manifest_rel (cp_manifest_id cp));
}.

(** What the source, the clock and other mirror tasks may have done. *)
Record rely w w' : Prop := {
  rl_hist : w_hist w ⊆ w_hist w';
  rl_content : w_content w ⊆ w_content w';
  rl_time : (w_time w ≤ w_time w')%Z;
  rl_dest : w_dest w ⊆ w_dest w';
  rl_inv : Inv w';
}.

#[export] Instance rely_trans : Transitive rely.
Proof. intros w1 w2 w3 [] []. split; try done; try by etrans. Qed.

Lemma rely_refl w : Inv w → rely w w.
Proof. intros. by split. Qed.

(** An empty target is a mirror. *)
Lemma empty_target_inv w : wf_source w → w_dest w = ∅ → Inv w.
Proof.
  intros Hwf Hd. split; unfold dest_latest, at_dest; rewrite ?Hd; try done.
  - intros id m _ [b Hb]. by rewrite lookup_empty in Hb.
  - intros id m cp l (_ & [b Hb] & _). by rewrite lookup_empty in Hb.
Qed.

(** ** Stable facts *)
Lemma at_dest_mono w w' rel : w_dest w ⊆ w_dest w' → at_dest w rel → at_dest w' rel.
Proof. intros Hs [b Hb]. exists b. by eapply lookup_weaken. Qed.

Lemma at_dest_rely w w' rel : rely w w' → at_dest w rel → at_dest w' rel.
Proof. intros Hr. apply at_dest_mono, Hr. Qed.

Lemma hist_rely w w' id m : rely w w' → w_hist w !! id = Some m → w_hist w' !! id = Some m.
Proof. intros Hr ?. eapply lookup_weaken; [done|apply Hr]. Qed.

Lemma source_has_mono w w' rel b :
  w_hist w ⊆ w_hist w' → w_content w ⊆ w_content w' → source_has w rel b → source_has w' rel b.
Proof.
  intros Hh Hc [?|(id & m & -> & ? & ->)]; [left|right; exists id, m; split_and!; try done];
    by eapply lookup_weaken.
Qed.

Lemma outlives_mono cp t t' : (t ≤ t')%Z → outlives cp t' → outlives cp t.
Proof. unfold outlives. destruct (cp_expire_time cp); [lia|done]. Qed.

Lemma source_has_manifest w id b :
  wf_source w → (id ≤ U64_MAX)%N → source_has w (manifest_rel id) b →
  ∃ m, w_hist w !! id = Some m ∧ b = manifest_bytes m.
Proof.
  intros Hwf Hid [Hc|(i & m & Hrel & Hm & ->)].
  - unfold manifest_rel in Hc. by rewrite (wf_names _ Hwf) in Hc.
  - destruct (wf_ids _ Hwf _ _ Hm) as [_ Hi]. apply manifest_rel_inj in Hrel as ->; [|done..]. eauto.
Qed.

Lemma source_has_data w rel b :
  source_has w rel b → ¬ is_manifest_name rel → w_content w !! rel = Some b.
Proof. intros [?|(id & m & -> & _)]; [done|]. intros []. by exists id. Qed.

Lemma names_not_manifest o rel : rel ∈ mo_rel_names o → ¬ is_manifest_name rel.
Proof. intros Hr [id ->]. by eapply rel_names_not_manifest. Qed.

(** A manifest at the target is one the source committed. *)
Lemma dest_manifest w id b :
  Inv w → (id ≤ U64_MAX)%N → w_dest w !! manifest_rel id = Some b →
  ∃ m, w_hist w !! id = Some m ∧ b = manifest_bytes m.
Proof. intros [Hwf Hf _ _] Hid Hb. by apply source_has_manifest, Hf. Qed.

(** A nonempty history has a newest manifest. *)
Lemma latest_exists w id m : wf_source w → w_hist w !! id = Some m → ∃ l, latest w l.
Proof.
  intros Hwf Hm.
  destruct (maximum_exists (elements (dom (w_hist w))) id) as (x & Hx & Hy).
  { apply elem_of_elements, elem_of_dom. eauto. }
  apply elem_of_elements, elem_of_dom in Hx as [l Hl].
  destruct (wf_ids _ Hwf _ _ Hl) as [Hid _]. exists l. split; [by rewrite Hid|].
  intros i Hi. rewrite Hid. by apply Hy, elem_of_elements, elem_of_dom.
Qed.

Lemma latest_le w l id m : latest w l → w_hist w !! id = Some m → (id ≤ m_id l)%N.
Proof. intros [_ Hl] Hm. apply Hl. eauto. Qed.

(** An entry carried by a later newest manifest was carried by the newest one
    before. *)
Lemma carried_before w w' id m cp l l' :
  w_hist w ⊆ w_hist w' → wf_source w' →
  w_hist w !! id = Some m → cp ∈ m_checkpoints m →
  latest w l → latest w' l' → carries l' cp → carries l cp.
Proof.
  intros Hh Hwf Hm Hcp Hl Hl' (cp' & Hcp' & Hid).
  destruct (wf_persist _ Hwf id (m_id l) (m_id l') m l l' cp cp') as (cpj & ? & ?); try done.
  - by eapply lookup_weaken.
  - eapply lookup_weaken; [apply Hl|done].
  - apply Hl'.
  - split; [by eapply latest_le|]. eapply latest_le; [done|]. eapply lookup_weaken; [apply Hl|done].
  - by exists cpj.
Qed.

(** ** The guarantees of single steps *)

(** The source moving on. *)
Lemma source_step_rely w w' : Inv w → source_step w w' → rely w w'.
Proof.
  intros Hi [Hh Hc Ht Hwf Hd]. pose proof Hi as [Hwf0 Hf Hcomp Hcl].
  assert (Hback : ∀ id m, w_hist w' !! id = Some m → at_dest w (manifest_rel id) → w_hist w !! id = Some m).
  { intros id m Hm [b Hb]. destruct (wf_ids _ Hwf _ _ Hm) as [_ Hid].
    destruct (dest_manifest _ _ _ Hi Hid Hb) as (m' & Hm' & _).
    pose proof (lookup_weaken _ _ _ _ Hm' Hh). congruence. }
  split; try done; [by rewrite Hd|]. split; [done|..].
  - intros rel b. rewrite Hd. intros Hb. eapply source_has_mono; eauto.
  - intros id m Hm. unfold at_dest, objects_at_dest, at_dest. rewrite Hd. intros Hat.
    eapply Hcomp; eauto.
  - intros id m cp l' Hdl Hm Hcp Hlive Hl' Hcar. unfold at_dest. rewrite Hd.
    assert (Hdl0 : dest_latest w id) by (by unfold dest_latest in *; rewrite <-Hd).
    pose proof (Hback id m Hm ltac:(apply Hdl0)) as Hm0.
    destruct (latest_exists _ _ _ Hwf0 Hm0) as [l Hl].
    eapply Hcl; eauto using outlives_mono. by eapply carried_before.
Qed.

(** Data objects of the source landing at the target. *)
Lemma write_data_rely w w' :
  Inv w → w_hist w' = w_hist w → w_content w' = w_content w → w_time w' = w_time w →
  w_dest w ⊆ w_dest w' →
  (∀ rel b, w_dest w' !! rel = Some b →
     w_dest w !! rel = Some b ∨ (¬ is_manifest_name rel ∧ source_has w rel b)) →
  rely w w'.
Proof.
  intros [Hwf Hf Hcomp Hcl] Hh Hc Ht Hd Hnew.
  assert (Hman : ∀ id, at_dest w' (manifest_rel id) ↔ at_dest w (manifest_rel id)).
  { intros id. split; [|by apply at_dest_mono]. intros [b Hb].
    destruct (Hnew _ _ Hb) as [?|[Hn _]]; [by eexists|]. destruct Hn. by exists id. }
  assert (Hsrc : ∀ rel b, source_has w rel b → source_has w' rel b).
  { intros rel b. apply source_has_mono; by rewrite ?Hh, ?Hc. }
  split; rewrite ?Hh, ?Hc, ?Ht; try done. split.
  - destruct Hwf. split; rewrite ?Hh, ?Hc; try done.
  - intros rel b Hb. destruct (Hnew _ _ Hb) as [?|[_ ?]]; apply Hsrc; auto.
  - intros id m. rewrite Hh, Hman. intros Hm Hat rel Hrel. eapply at_dest_mono; [done|].
    by eapply Hcomp.
  - intros id m cp l. rewrite Hh, Ht. intros (Hid & Hat & Hmax) Hm Hcp Hlive [Hl Hlmax] Hcar.
    rewrite Hh in Hl, Hlmax. eapply at_dest_mono; [done|]. eapply (Hcl id m cp l); try done.
    split_and!; [done|by apply Hman|]. intros id' ? ?. apply Hmax; [done|]. by apply Hman.
Qed.

Lemma put_data_rely w rel b :
  Inv w → ¬ is_manifest_name rel → source_has w rel b →
  rely w (set_dest w (<[rel := b]> (w_dest w))).
Proof.
  intros Hi Hrel Hb. apply write_data_rely; try done; simpl.
  - apply map_subseteq_spec. intros r x Hx. destruct (decide (rel = r)) as [<-|Hne].
    + rewrite lookup_insert_eq. f_equal. apply (inv_faithful _ Hi) in Hx.
      apply source_has_data in Hx; [|done]. apply source_has_data in Hb; [|done]. congruence.
    + by rewrite lookup_insert_ne.
  - intros r x. destruct (decide (rel = r)) as [<-|Hne].
    + rewrite lookup_insert_eq. intros [= <-]. by right.
    + rewrite lookup_insert_ne by done. by left.
Qed.

(** Committing a manifest whose closure is there. *)
Lemma put_manifest_rely w id m :
  Inv w → w_hist w !! id = Some m → w_dest w !! manifest_rel id = None →
  objects_at_dest w m →
  (∀ cp l, cp ∈ m_checkpoints m → outlives cp (w_time w) → latest w l → carries l cp →
     cp_manifest_id cp = id ∨ at_dest w (manifest_rel (cp_manifest_id cp))) →
  rely w (set_dest w (<[manifest_rel id := manifest_bytes m]> (w_dest w))).
Proof.
  intros [Hwf Hf Hcomp Hcl] Hm Hnone Hobj Hpins.
  set (w' := set_dest _ _).
  assert (Hd : w_dest w ⊆ w_dest w') by by apply insert_subseteq.
  destruct (wf_ids _ Hwf _ _ Hm) as [_ Hid].
  assert (Hold : ∀ i, (i ≤ U64_MAX)%N → i ≠ id →
    at_dest w' (manifest_rel i) → at_dest w (manifest_rel i)).
  { intros i Hi Hne. unfold at_dest. simpl. rewrite lookup_insert_ne; [done|].
    intros E. apply manifest_rel_inj in E; congruence. }
  split; try done. split.
  - by destruct Hwf.
  - intros rel b. simpl. destruct (decide (manifest_rel id = rel)) as [<-|Hne].
    + rewrite lookup_insert_eq. intros [= <-]. right. by exists id, m.
    + rewrite lookup_insert_ne by done. apply Hf.
  - intros i m' Hm' Hat rel Hrel. simpl in Hm'. eapply at_dest_mono; [done|].
    destruct (decide (i = id)) as [->|Hne].
    + assert (m' = m) as -> by congruence. by apply Hobj.
    + destruct (wf_ids _ Hwf _ _ Hm') as [_ ?]. eapply Hcomp; eauto.
  - intros i m' cp l (Hi & Hat & Hmax) Hm' Hcp Hlive Hl Hcar. simpl in Hm', Hlive.
    destruct (decide (i = id)) as [->|Hne].
    + assert (m' = m) as -> by congruence.
      destruct (Hpins cp l Hcp Hlive Hl Hcar) as [->|?]; [|by eapply at_dest_mono].
      exists (manifest_bytes m). apply lookup_insert_eq.
    + eapply at_dest_mono; [done|]. eapply (Hcl i m' cp l); try done.
      split_and!; [done|by apply Hold|]. intros i' ? Hi'. apply Hmax; [done|]. by eapply at_dest_mono.
Qed.

(** ** Weakest preconditions *)
Fixpoint wp {A} (p : prog A) (Q : A → world → Prop) w : Prop :=
  match p with
  | Ret a => Q a w
  | Call c k =>
      ∀ w1 r w2, rely w w1 → handle c w1 r w2 → rely w1 w2 ∧ wp (k r) Q w2
  end.

Lemma wp_conseq {A} (p : prog A) (Q Q' : A → world → Prop) w :
  Inv w → wp p Q w → (∀ a w', rely w w' → Q a w' → Q' a w') → wp p Q' w.
Proof.
  revert w. induction p as [a|R c k IH]; intros w Hi Hp HQ; simpl in *.
  - apply HQ; [by apply rely_refl|done].
  - intros w1 r w2 H1 Hh. destruct (Hp w1 r w2 H1 Hh) as [H2 Hk]. split; [done|].
    apply IH; [apply H2|done|]. intros a w' H3. apply HQ. by do 2 (etrans; [done|]).
Qed.

Lemma wp_bind {A B} (p : prog A) (f : A → prog B) Q w :
  wp p (λ a w', wp (f a) Q w') w → wp (bind p f) Q w.
Proof.
  revert w. induction p as [a|R c k IH]; intros w Hp; simpl in *; [done|].
  intros w1 r w2 H1 Hh. destruct (Hp w1 r w2 H1 Hh). auto.
Qed.

(** The usual step: run [p], keep what is stable, continue. *)
Lemma wp_then {A B} (p : prog A) (f : A → prog B) (P : A → world → Prop) Q w :
  Inv w → wp p P w → (∀ a w', rely w w' → P a w' → wp (f a) Q w') → wp (bind p f) Q w.
Proof. intros Hi Hp Hf. apply wp_bind. by eapply wp_conseq. Qed.

Lemma wp_try {E F A B} (conv : E → F) (p : prog (Result E A)) (f : A → prog (Result F B)) P Q w :
  Inv w → wp p P w →
  (∀ a w', rely w w' → P (Ok a) w' → wp (f a) Q w') →
  (∀ e w', rely w w' → P (Err e) w' → Q (Err (conv e)) w') →
  wp (try conv p f) Q w.
Proof. intros Hi Hp Ho He. eapply wp_then; [done..|]. intros [a|e] w' Hr HP; simpl; eauto. Qed.

Lemma wp_ret {A} (a : A) Q w : Q a w → wp (Ret a) Q w.
Proof. done. Qed.

Lemma wp_ask {R} (c : call R) Q w :
  (∀ w1 r w2, rely w w1 → handle c w1 r w2 → rely w1 w2 ∧ Q r w2) → wp (ask c) Q w.
Proof. done. Qed.

Lemma wp_stable {A} (p : prog A) Q w w' : rely w w' → (∀ a, p ≠ Ret a) → wp p Q w → wp p Q w'.
Proof.
  intros Hr Hp. destruct p as [a|R c k]; [by destruct (Hp a)|]. simpl.
  intros Hc w1 r w2 H1 Hh. apply (Hc w1 r w2); [by etrans|done].
Qed.

(** ** Futures polled together *)

(** What a task of a pool establishes, whoever runs in between. *)
Definition yields {E A} (G : A → world → Prop) (p : prog (Result E A)) w : Prop :=
  wp p (λ r w', match r with Ok a => G a w' | Err _ => True end) w.
Definition stable {A} (G : A → world → Prop) : Prop := ∀ a w w', rely w w' → G a w → G a w'.

Lemma yields_stable {E A} (G : A → world → Prop) (p : prog (Result E A)) w w' :
  stable G → rely w w' → yields G p w → yields G p w'.
Proof.
  intros HG Hr. destruct p as [[a|e]|R c k]; [by apply HG|done|]. by apply wp_stable.
Qed.

Lemma yields_all_stable {E A} (Gs : list (A → world → Prop)) (l : list (prog (Result E A))) w w' :
  Forall stable Gs → rely w w' → Forall2 (λ p G, yields G p w) l Gs → Forall2 (λ p G, yields G p w') l Gs.
Proof.
  intros HGs Hr Hl. induction Hl; inversion HGs; constructor; [by eapply yields_stable|auto].
Qed.

(** Each task of the pool has done its part by the time the pool succeeds,
    with what it returned combined in the order they finished. *)
Definition all_done {A B} (combine : B → A → B) (x : B) (Gs : list (A → world → Prop)) (y : B) w : Prop :=
  ∃ d : list (A * (A → world → Prop)), d.*2 ≡ₚ Gs ∧ y = fold_left combine d.*1 x ∧ ∀ a G, (a, G) ∈ d → G a w.

Lemma wp_concurrently {E A B} (combine : B → A → B) limit (tasks : list (prog (Result E A))) x Gs w :
  Inv w → Forall stable Gs → Forall2 (λ p G, yields G p w) tasks Gs →
  wp (concurrently combine limit tasks x) (λ r w', match r with
    | Ok y => all_done combine x Gs y w' | Err _ => True end) w.
Proof.
  intros Hi HGs Htasks.
  cut (∀ w rest d, Inv w → Forall2 (λ p G, yields G p w) tasks rest → (∀ a G, (a, G) ∈ d → G a w) →
    Forall stable (rest ++ d.*2) → rest ++ d.*2 ≡ₚ Gs →
    wp (concurrently combine limit tasks (fold_left combine d.*1 x)) (λ r w', match r with
      | Ok y => all_done combine x Gs y w' | Err _ => True end) w).
  { intros Hgen. apply (Hgen w Gs []); simpl; rewrite ?(right_id_L [] (++)); try done. by intros a G ?%elem_of_nil. }
  clear w Hi HGs Htasks. intros w rest d. remember (fold_left combine d.*1 x) as y eqn:Hy. revert w rest d Hy.
  apply (concurrently_ind combine limit (λ tasks y p, ∀ w rest d, y = fold_left combine d.*1 x → Inv w →
    Forall2 (λ p G, yields G p w) tasks rest → (∀ a G, (a, G) ∈ d → G a w) →
    Forall stable (rest ++ d.*2) → rest ++ d.*2 ≡ₚ Gs →
    wp p (λ r w', match r with Ok y => all_done combine x Gs y w' | Err _ => True end) w)).
  - intros y0 w0 rest0 d0 -> Hi ->%Forall2_nil_inv_l Hd _ Hperm. by exists d0.
  - intros l y1 n body Hstep w rest d -> Hi Hrest Hd Hst Hperm w1 i w2 H1 ->.
    split; [apply rely_refl, H1|].
    destruct (Hstep i) as (before & q & after & -> & _ & Hq).
    apply Forall2_app_inv_l in Hrest as (Gb & Gr & Hb & (G & Ga & HG & Ha & ->)%Forall2_cons_inv_l & ->).
    assert (Hmove : ∀ w2, rely w w2 →
      Forall2 (λ p G, yields G p w2) before Gb ∧ yields G q w2 ∧ Forall2 (λ p G, yields G p w2) after Ga ∧
      ∀ a G, (a, G) ∈ d → G a w2).
    { intros w2 H2'. rewrite !Forall_app, Forall_cons in Hst. destruct Hst as [(Hsb & Hs & Hsa) Hsd].
      split_and!; [by eapply yields_all_stable|by eapply yields_stable|by eapply yields_all_stable|].
      intros a G' Hin. rewrite Forall_forall in Hsd. eapply (Hsd G'); [|done|by apply Hd].
      apply list_elem_of_fmap. by exists (a, G'). }
    destruct q as [[a|e]|R c k].
    + destruct (Hmove w1 H1) as (Hb1 & HG1 & Ha1 & Hd1).
      assert (Hmoved : (Gb ++ Ga) ++ (d ++ [(a, G)]).*2 ≡ₚ (Gb ++ G :: Ga) ++ d.*2)
        by (rewrite fmap_app; simpl; solve_Permutation).
      apply (Hq _ (Gb ++ Ga) (d ++ [(a, G)])); [by rewrite fmap_app, fold_left_app|apply H1|by apply Forall2_app| |by rewrite Hmoved|by rewrite Hmoved].
      intros a' G' [?|[= -> ->]%list_elem_of_singleton]%elem_of_app; [by apply Hd1|done].
    + by rewrite Hq.
    + destruct Hq as (k' & -> & Hk). intros w3 r w4 H3 Hh.
      destruct (Hmove w3) as (_ & HG3 & _ & _); [by etrans|].
      destruct (HG3 w3 r w4 (rely_refl _ (rl_inv _ _ H3)) Hh) as [H4 Hr].
      split; [done|]. destruct (Hmove w4) as (Hb4 & _ & Ha4 & Hd4); [by do 2 (etrans; [done|])|].
      eapply (Hk r w4 (Gb ++ G :: Ga) d); [done|apply H4|by apply Forall2_app; [|constructor]|done|done|done].
Qed.

(** ** Soundness *)

(** A system: the world and the programs still to run. *)
Definition system {A} : Type := world * list (prog A).

(** One atomic step: the source moves, or some task makes its next call; a
    task that never runs again has crashed. *)
Inductive step {A} : @system A → @system A → Prop :=
  | step_source w w' ps : source_step w w' → step (w, ps) (w', ps)
  | step_call w w' ps i R (c : call R) k r :
      ps !! i = Some (Call c k) → handle c w r w' → step (w, ps) (w', <[i := k r]> ps).

(** Every task has a proof, and the target is a faithful mirror. *)
Definition safe {A} (s : @system A) : Prop :=
  Inv s.1 ∧ ∀ i p, s.2 !! i = Some p → wp p (λ _ _, True) s.1.

Lemma wp_safe_stable {A} (p : prog A) w w' :
  rely w w' → wp p (λ _ _, True) w → wp p (λ _ _, True) w'.
Proof. intros Hr. destruct p as [a|R c k]; [done|]. by apply wp_stable. Qed.

Lemma step_safe {A} (s s' : @system A) : step s s' → safe s → safe s' ∧ rely s.1 s'.1.
Proof.
  destruct 1 as [w w' ps Hs|w w' ps i R c k r Hi Hh]; intros [Hinv Hps]; simpl in *.
  - pose proof (source_step_rely _ _ Hinv Hs) as Hr. split; [|done].
    split; [apply Hr|]. intros j p Hj. eapply wp_safe_stable; eauto.
  - pose proof (Hps _ _ Hi) as Hwp. simpl in Hwp.
    destruct (Hwp w r w' (rely_refl _ Hinv) Hh) as [Hr Hk]. split; [|done].
    split; [apply Hr|]. simpl. intros j p Hj. destruct (decide (i = j)) as [<-|Hne].
    + rewrite list_lookup_insert_eq in Hj by (by eapply lookup_lt_Some). by injection Hj as <-.
    + rewrite list_lookup_insert_ne in Hj by done. eapply wp_safe_stable; eauto.
Qed.

Lemma steps_safe {A} (s s' : @system A) : rtc step s s' → safe s → safe s'.
Proof. induction 1; [done|]. intros Hs. apply IHrtc. by eapply step_safe. Qed.

(** ** Runs *)

(** What the calls answer in a run: [any] constrains nothing. *)
Definition answers : Type := ∀ R, call R → R → Prop.
Definition any : answers := λ _ _ _, True.

(** A single task run to its result between the steps of its environment,
    every call answered as [S] says. *)
Inductive runs {A} (S : answers) : world → prog A → world → A → Prop :=
  | runs_ret w a : runs S w (Ret a) w a
  | runs_call {R} w w1 w2 w' (c : call R) k r a :
      rely w w1 → handle c w1 r w2 → S _ c r → runs S w2 (k r) w' a → runs S w (Call c k) w' a.

Lemma wp_runs {A} S (p : prog A) w w' a Q :
  runs S w p w' a → Inv w → wp p Q w → Q a w' ∧ rely w w'.
Proof.
  induction 1 as [|R w w1 w2 w' c k r a H1 Hh HS Hrun IH]; intros Hi Hp; [split; [done|by apply rely_refl]|].
  simpl in Hp. destruct (Hp w1 r w2 H1 Hh) as [H2 Hk]. destruct (IH (rl_inv _ _ H2) Hk) as [HQ H3].
  split; [done|]. by do 2 (etrans; [done|]).
Qed.

(** A run with nothing between the calls. *)
Inductive executes {A} (S : answers) : world → prog A → world → A → Prop :=
  | executes_ret w a : executes S w (Ret a) w a
  | executes_call {R} w w1 w' (c : call R) k r a :
      handle c w r w1 → S _ c r → executes S w1 (k r) w' a → executes S w (Call c k) w' a.

Lemma executes_runs {A} S (p : prog A) Q w w' a :
  executes S w p w' a → Inv w → wp p Q w → runs S w p w' a.
Proof.
  induction 1 as [|R w w1 w' c k r a Hh HS Hx IH]; intros Hi Hp; [constructor|].
  destruct (Hp w r w1 (rely_refl _ Hi) Hh) as [H1 Hk].
  eapply runs_call; [by apply rely_refl|done|done|]. apply IH; [apply H1|done].
Qed.

Lemma executes_any {A} S (p : prog A) w w' a : executes S w p w' a → executes any w p w' a.
Proof. induction 1; [constructor|]. by econstructor. Qed.

Lemma executes_bind {A B} S (p : prog A) (f : A → prog B) w w1 w2 a b :
  executes S w p w1 a → executes S w1 (f a) w2 b → executes S w (bind p f) w2 b.
Proof. unfold bind. induction 1; [done|]. intros. econstructor; eauto. Qed.

Lemma executes_steps_at {A} S i (p : prog A) ps w w' a :
  executes S w p w' a → ps !! i = Some p → rtc step (w, ps) (w', <[i := Ret a]> ps).
Proof.
  intros Hx. revert ps. induction Hx as [w a|R w w1 w' c k r a Hh HS Hx IH]; intros ps Hi.
  - by rewrite list_insert_id.
  - eapply rtc_l; [by eapply step_call|]. rewrite <-(list_insert_insert_eq ps i (Ret a) (k r)). apply IH.
    by rewrite list_lookup_insert_eq by (by eapply lookup_lt_Some).
Qed.
Lemma executes_steps_beside {A} S (p : prog A) w w' a ps :
  executes S w p w' a → rtc step (w, p :: ps) (w', Ret a :: ps).
Proof. intros Hx. by apply (executes_steps_at S 0 p (p :: ps)). Qed.
Lemma executes_steps {A} S (p : prog A) w w' a :
  executes S w p w' a → rtc step (w, [p]) (w', [Ret a]).
Proof. apply executes_steps_beside. Qed.

(** [post S p P]: [p] can only return results in [P] when every call is
    answered as [S] says, whatever the world. *)
Fixpoint post {A} (S : answers) (p : prog A) (P : A → Prop) : Prop :=
  match p with
  | Ret a => P a
  | Call c k => ∀ r, S _ c r → post S (k r) P
  end.

Lemma runs_post {A} S (p : prog A) w w' a P : runs S w p w' a → post S p P → P a.
Proof. induction 1; simpl; auto. Qed.

Lemma post_mono {A} S (p : prog A) (P Q : A → Prop) : post S p P → (∀ a, P a → Q a) → post S p Q.
Proof. induction p; simpl; auto. Qed.

Lemma post_bind {A B} S (p : prog A) (f : A → prog B) P Q :
  post S p P → (∀ a, P a → post S (f a) Q) → post S (bind p f) Q.
Proof. unfold bind. induction p; simpl; auto. Qed.

Lemma post_try {E F A B} S (conv : E → F) (p : prog (Result E A)) (f : A → prog (Result F B)) P Q :
  post S p P → (∀ a, P (Ok a) → post S (f a) Q) → (∀ e, P (Err e) → Q (Err (conv e))) →
  post S (try conv p f) Q.
Proof. intros Hp Ho He. unfold try. eapply post_bind; [done|]. intros [a|e] ?; simpl; auto. Qed.

Lemma post_concurrently {E A B} S (combine : B → A → B) limit (tasks : list (prog (Result E A))) x
    (P : Result E A → Prop) (Q : Result E B → Prop) :
  (∀ p, p ∈ tasks → post S p P) → (∀ y, Q (Ok y)) → (∀ e, P (Err e) → Q (Err e)) →
  post S (concurrently combine limit tasks x) Q.
Proof.
  intros Ht HOk HErr. revert Ht.
  apply (concurrently_ind combine limit (λ tasks _ p, (∀ q, q ∈ tasks → post S q P) → post S p Q)); [by intros; apply HOk|].
  intros l y n body Hstep Hl i _. destruct (Hstep i) as (before & q & after & -> & _ & Hq).
  assert (Hin : q ∈ before ++ q :: after) by set_solver.
  destruct q as [[a|e]|R c k]; [|rewrite Hq; apply HErr, (Hl _ Hin)|].
  - apply Hq. intros q Hqin. apply Hl. set_solver.
  - destruct Hq as (k' & -> & Hk). intros r Hr. apply Hk. intros q. rewrite elem_of_app, elem_of_cons.
    intros [?|[->|?]]; [apply Hl; set_solver|by apply (Hl _ Hin)|apply Hl; set_solver].
Qed.

Lemma wp_post {A} (p : prog A) P Q w :
  wp p Q w → post any p P → wp p (λ a w', Q a w' ∧ P a) w.
Proof.
  revert w. induction p as [a|R c k IH]; intros w Hp HP; [done|].
  intros w1 r w2 H1 Hh. destruct (Hp w1 r w2 H1 Hh) as [H2 Hk]. split; [done|].
  apply (IH r w2 Hk). by apply HP.
Qed.
End rely.

Arguments wp : simpl never.
Arguments bind : simpl never.
Arguments try : simpl never.

(** A call that only reads leaves the world to the invariant. *)
Ltac wp_read :=
  let w1 := fresh "w1" in let r := fresh "r" in let Hr := fresh "Hr" in let Hres := fresh "Hres" in
  apply wp_ask; intros w1 r ? Hr Hres; simpl in Hres;
  (destruct Hres as [-> Hres] || subst); split; [apply rely_refl, Hr|].
