(* ===== verification/MirrorSafety.v ===== *)
(** * What mirroring guarantees

    The sync pass and the WAL tail under interference: the source evolves,
    other mirror tasks write to the same target, any call fails (a failed
    write may have landed) and any task may stop at any point.  The target
    stays a faithful, complete mirror throughout ([Inv]), and a pass that
    returns has brought it at least to the head the source had when the pass
    began.  The assumptions are those of [Rely] and [Effects]: SlateDB's
    history laws, object immutability, one clock, and no deletion at the
    target while tasks overlap. *)

From S2P Require Import Prelude Order Text Store Slate Effects Concurrent Config Registry.
From S2P Require Import Layout Copier Pass Rely.

Section safety.
Context `{SL : SlateLib, SW : !SlateLaws, UL : UrlLib, RL : !RemoteLib}.
Implicit Types (w : world) (m : VersionedManifest).

(** ** Probes and listings *)
Lemma wp_head_miss {T} (item : T) rel w :
  Inv w →
  wp (head_miss Dest rel item) (λ r w', match r with
    | Ok None => at_dest w' (rel item)
    | Ok (Some x) => x = item
    | Err _ => True end) w.
Proof.
  intros Hi. unfold head_miss. eapply (wp_then _ _ (λ r w', match r with
    | Ok _ => at_dest w' (rel item) | Err _ => True end)); [done| |].
  - wp_read. by destruct r.
  - by intros [[]|[]] w' Hr HP; apply wp_ret.
Qed.

(** What the probe of [item] says. *)
Definition probe_says {T} (rel : T → string) (item : T) (miss : option T) w : Prop :=
  match miss with Some y => y = item | None => at_dest w (rel item) end.

Lemma wp_head_misses {T} (items : list T) rel w :
  Inv w →
  wp (head_misses Dest items rel) (λ r w', match r with
    | Ok l => (∀ x, x ∈ l → x ∈ items) ∧ ∀ x, x ∈ items → x ∈ l ∨ at_dest w' (rel x)
    | Err _ => True end) w.
Proof.
  intros Hi. unfold head_misses. eapply wp_try; [done|apply (wp_concurrently _ _ _ _ (probe_says rel <$> items)); [done|..]| |done].
  - apply Forall_fmap, Forall_forall. intros item _ [y|] w1 w2 Hr; [done|by apply at_dest_rely].
  - apply Forall2_fmap, Forall_Forall2_diag, Forall_forall. intros item _. by apply wp_head_miss.
  - intros l w1 H1 (d & Hd & -> & HG). apply wp_ret. rewrite fold_snoc. simpl. split.
    + intros x (o & ([a G] & -> & Hin)%list_elem_of_fmap & Hx)%list_elem_of_omap. simpl in Hx. unfold id in Hx. subst a.
      assert (Hg : G ∈ probe_says rel <$> items) by (rewrite <-Hd; apply list_elem_of_fmap; by exists (Some x, G)).
      apply list_elem_of_fmap in Hg as (item & -> & Hitem). by rewrite (HG _ _ Hin : x = item).
    + intros x Hx. assert (Hg : probe_says rel x ∈ d.*2) by (rewrite Hd; by apply list_elem_of_fmap_2).
      apply list_elem_of_fmap in Hg as ([a G] & HGx & Hin). simpl in HGx. subst G. pose proof (HG _ _ Hin) as Hp.
      destruct a as [y|]; [left|by right]. simpl in Hp. subst y.
      apply list_elem_of_omap. exists (Some x). split; [|done]. apply list_elem_of_fmap. by exists (Some x, probe_says rel x).
Qed.

Lemma wp_list_compacted w :
  Inv w →
  wp (list_compacted Dest) (λ r w', match r with
    | Ok l => ∀ u, u ∈ l.*1 → at_dest w' (compacted_rel u)
    | Err _ => True end) w.
Proof.
  intros Hi. unfold list_compacted. eapply (wp_try _ _ _ (λ r w', match r with
    | Ok l => ∀ name, name ∈ li_name <$> l → at_dest w' (COMPACTED_DIR +:+ "/" +:+ name)
    | Err _ => True end)); [done| | |done].
  - unfold list_dir. eapply (wp_then _ _ (λ r w', match r with
      | Ok l => ∀ name, name ∈ li_name <$> l → at_dest w' (COMPACTED_DIR +:+ "/" +:+ name)
      | Err _ => True end)); [done| |].
    + wp_read. destruct r; [|done]. intros name ?. by apply Hres.
    + intros [l|[]] w' Hr HP; apply wp_ret; try done. by intros name ?%elem_of_nil.
  - intros l w' Hr HP. apply wp_ret. intros u ([u' meta] & -> & Hu)%list_elem_of_fmap. simpl.
    unfold parse_listing in Hu. apply list_elem_of_omap in Hu as (meta' & Hin & Hp).
    apply bind_Some in Hp as (u'' & Hp & [= <- <-]). unfold parse_compacted_name in Hp.
    apply bind_Some in Hp as (v & Hv%strip_suffix_spec & Hp). case_match; simplify_eq.
    unfold compacted_rel. rewrite <-Hv. apply HP. apply list_elem_of_fmap. eauto.
Qed.

(** ** Reading manifests *)
Definition cache_ok w (cache : ManifestCache) : Prop :=
  ∀ id m, cache !! id = Some m → w_hist w !! id = Some m.

Lemma cache_ok_rely w w' cache : rely w w' → cache_ok w cache → cache_ok w' cache.
Proof. intros Hr Hc id m Hm. eapply hist_rely; eauto. Qed.

Lemma wp_cache_read cache id w :
  Inv w → cache_ok w cache →
  wp (cache_read Source cache id) (λ r w', match r with
    | Ok (cache', om) => cache_ok w' cache' ∧
        match om with Some m => w_hist w' !! id = Some m | None => True end
    | Err _ => True end) w.
Proof.
  intros Hi Hc. unfold cache_read. destruct (cache !! id) as [m|] eqn:E; [apply wp_ret; eauto|].
  eapply (wp_try _ _ _ (λ r w', match r with
    | Ok (Some m) => w_hist w' !! id = Some m | _ => True end)); [done| | |done].
  - wp_read. by destruct r as [[]|].
  - intros [m|] w' Hr HP; apply wp_ret; [|split; [by eapply cache_ok_rely|done]].
    split; [|done]. intros i m'. destruct (decide (id = i)) as [<-|Hne].
    + rewrite lookup_insert_eq. by intros [= <-].
    + rewrite lookup_insert_ne by done. by eapply cache_ok_rely.
Qed.

(** ** Closures *)
Definition members_ok w (ms : gmap N ManifestObjects) : Prop :=
  ∀ id o, ms !! id = Some o → ∃ m, w_hist w !! id = Some m ∧ o = manifest_objects m.

Lemma members_ok_rely w w' ms : rely w w' → members_ok w ms → members_ok w' ms.
Proof. intros Hr Hm id o Ho. destruct (Hm id o Ho) as (m & ? & ?). eauto using hist_rely. Qed.

Lemma wp_closure_loop head_id now cps cache ms w :
  Inv w → cache_ok w cache → members_ok w ms → is_Some (ms !! head_id) →
  wp (closure_loop Source head_id now cps cache ms) (λ r w', match r with
    | Ok (cache', Some ms') => cache_ok w' cache' ∧ members_ok w' ms' ∧
        (∀ id, is_Some (ms !! id) → is_Some (ms' !! id)) ∧
        (∀ cp, cp ∈ cps → outlives cp now → is_Some (ms' !! cp_manifest_id cp)) ∧
        (∀ id, is_Some (ms' !! id) → is_Some (ms !! id) ∨ ∃ cp, cp ∈ cps ∧ id = cp_manifest_id cp)
    | Ok (cache', None) => cache_ok w' cache'
    | Err _ => True end) w.
Proof.
  revert cache ms w. induction cps as [|cp cps IH]; intros cache ms w Hi Hc Hm Hhead; simpl.
  { apply wp_ret. split_and!; try done; [by intros ? ?%elem_of_nil|by left]. }
  destruct (negb (checkpoint_live cp now) || bool_decide (cp_manifest_id cp = head_id)) eqn:Eskip.
  - eapply wp_conseq; [done|by apply IH|]. intros [[cache' [ms'|]]|e] w' Hr; try done.
    intros (? & ? & Hkeep & Hlive & Honly). split_and!; try done.
    + intros cp' [->|Hin]%elem_of_cons Hout; [|by apply Hlive].
      apply orb_prop in Eskip as [En|Eh].
      * apply negb_true_iff in En. apply checkpoint_live_outlives in Hout. congruence.
      * apply bool_decide_eq_true in Eh as ->. by apply Hkeep.
    + intros id Hid. destruct (Honly id Hid) as [?|(cp' & ? & ->)]; [by left|].
      right. exists cp'. split; [by right|done].
  - eapply wp_try; [done|by apply wp_cache_read| |done].
    intros [cache1 [pinned|]] w1 H1 [Hc1 Hp]; [|done].
    assert (Hm1 : members_ok w1 (<[cp_manifest_id cp:=manifest_objects pinned]> ms)).
    { intros i o. destruct (decide (cp_manifest_id cp = i)) as [<-|Hne].
      - rewrite lookup_insert_eq. intros [= <-]. eauto.
      - rewrite lookup_insert_ne by done. by apply (members_ok_rely _ _ _ H1). }
    eapply wp_conseq; [apply H1|apply IH; [apply H1|done|done|]|].
    + destruct (decide (cp_manifest_id cp = head_id)) as [->|]; [rewrite lookup_insert_eq; eauto|].
      by rewrite lookup_insert_ne.
    + intros [[cache' [ms'|]]|e] w' Hr; try done. intros (? & ? & Hkeep & Hlive & Honly).
      split_and!; try done.
      * intros id [o Ho]. apply Hkeep. destruct (decide (cp_manifest_id cp = id)) as [->|].
        -- rewrite lookup_insert_eq. eauto.
        -- rewrite lookup_insert_ne by done. eauto.
      * intros cp' [->|Hin]%elem_of_cons Hout; [|by apply Hlive].
        apply Hkeep. rewrite lookup_insert_eq. eauto.
      * intros id Hid. destruct (Honly id Hid) as [Hins|(cp' & ? & ->)].
        -- destruct (decide (cp_manifest_id cp = id)) as [<-|].
           ++ right. exists cp. split; [by left|done].
           ++ rewrite lookup_insert_ne in Hins by done. by left.
        -- right. exists cp'. split; [by right|done].
Qed.

(** What a closure read at [now] is, for the head it was read for. *)
Record closure_ok w (head : VersionedManifest) (now : Z) (c : Closure) : Prop := {
  co_hist : w_hist w !! m_id head = Some head;
  co_now : (now ≤ w_time w)%Z;
  co_members : members_ok w (cl_manifests c);
  co_head : is_Some (cl_manifests c !! m_id head);
  co_pins : ∀ cp, cp ∈ m_checkpoints head → outlives cp now → is_Some (cl_manifests c !! cp_manifest_id cp);
  co_below : ∀ id, is_Some (cl_manifests c !! id) → (id ≤ m_id head)%N;
}.

Lemma closure_ok_rely w w' head now c : rely w w' → closure_ok w head now c → closure_ok w' head now c.
Proof.
  intros Hr []. split; eauto using hist_rely, members_ok_rely. pose proof (rl_time _ _ Hr). lia.
Qed.

Lemma wp_closure head now cache w :
  Inv w → cache_ok w cache → w_hist w !! m_id head = Some head → (now ≤ w_time w)%Z →
  wp (closure Source head now cache) (λ r w', match r with
    | Ok (cache', oc) => cache_ok w' cache' ∧
        match oc with Some c => closure_ok w' head now c | None => True end
    | Err _ => True end) w.
Proof.
  intros Hi Hc Hh Hnow. unfold closure. eapply wp_try; [done|apply wp_closure_loop; try done| |done].
  - intros id o [<- <-]%lookup_singleton_Some. eauto.
  - rewrite lookup_singleton_eq. eauto.
  - intros [cache' [ms|]] w' Hr HP; apply wp_ret; simpl; [|done]. destruct HP as (? & ? & Hkeep & Hlive & Honly).
    split; [done|]. pose proof (rl_time _ _ Hr). pose proof (hist_rely _ _ _ _ Hr Hh).
    split; simpl; try done; [lia|apply Hkeep; rewrite lookup_singleton_eq; eauto|].
    intros id Hid. destruct (Honly id Hid) as [[o [<- _]%lookup_singleton_Some]|(cp & Hcp & ->)]; [done|].
    eapply (wf_pins _ (inv_wf _ (rl_inv _ _ Hr))); eauto.
Qed.

(** ** The watermark *)

(** What a pass knows of the watermark it read: it is complete, and what it
    pins is there unless deleted at the source. *)
Definition watermark_ok w (wm : VersionedManifest) : Prop :=
  w_hist w !! m_id wm = Some wm ∧ at_dest w (manifest_rel (m_id wm)) ∧
  ∀ cp l, cp ∈ m_checkpoints wm → outlives cp (w_time w) → latest w l → carries l cp →
    at_dest w (manifest_rel (cp_manifest_id cp)).

Lemma watermark_ok_rely w w' wm : Inv w → rely w w' → watermark_ok w wm → watermark_ok w' wm.
Proof.
  intros Hi Hr (Hh & Hat & Hpin). split_and!; [by eapply hist_rely|by eapply at_dest_rely|].
  intros cp l' Hcp Hout Hl' Hcar. eapply at_dest_rely; [done|].
  destruct (latest_exists _ _ _ (inv_wf _ Hi) Hh) as [l Hl].
  eapply Hpin; [done| |done|].
  - eapply outlives_mono; [apply Hr|done].
  - by eapply (carried_before w w'); [apply Hr|apply (rl_inv _ _ Hr)|..].
Qed.

Lemma watermark_read w wm :
  Inv w → dest_latest w (m_id wm) →
  w_dest w !! manifest_rel (m_id wm) = Some (manifest_bytes wm) → watermark_ok w wm.
Proof.
  intros Hi Hdl Hb. pose proof Hdl as (Hid & Hat & _).
  destruct (dest_manifest _ _ _ Hi Hid Hb) as (m & Hm & E%(inj manifest_bytes)). subst m.
  split_and!; [done|done|]. intros cp l Hcp Hout Hl Hcar. by eapply (inv_closed _ Hi).
Qed.

(** What the watermark proves once the head is known. *)
Definition pins_proven w (wm head : VersionedManifest) : Prop :=
  w_hist w !! m_id wm = Some wm ∧ at_dest w (manifest_rel (m_id wm)) ∧
  ∀ cp, cp ∈ m_checkpoints wm → outlives cp (w_time w) → carries head cp →
    at_dest w (manifest_rel (cp_manifest_id cp)).

Lemma pins_proven_rely w w' wm head : rely w w' → pins_proven w wm head → pins_proven w' wm head.
Proof.
  intros Hr (Hh & Hat & Hpin). split_and!; [by eapply hist_rely|by eapply at_dest_rely|].
  intros cp Hcp Hout Hcar. eapply at_dest_rely; [done|]. apply Hpin; try done.
  eapply outlives_mono; [apply Hr|done].
Qed.

Lemma watermark_proves w wm head : watermark_ok w wm → latest w head → pins_proven w wm head.
Proof. intros (? & ? & Hpin) Hl. split_and!; try done. intros; eapply Hpin; eauto. Qed.

(** ** The diff *)
Definition opt_proven w (watermark : option VersionedManifest) (head : VersionedManifest) : Prop :=
  match watermark with Some wm => pins_proven w wm head | None => True end.

Lemma opt_proven_rely w w' watermark head :
  rely w w' → opt_proven w watermark head → opt_proven w' watermark head.
Proof. destruct watermark; [apply pins_proven_rely|done]. Qed.

Record diff_ok w (head : VersionedManifest) (now : Z) (d : Diff) : Prop := {
  do_closure : closure_ok w head now (df_closure d);
  do_present : ∀ id, id ∈ df_present_manifests d → at_dest w (manifest_rel id);
  do_candidates : ∀ id o rel, cl_manifests (df_closure d) !! id = Some o → rel ∈ mo_rel_names o →
    rel ∈ mo_rel_names (df_candidates d) ∨ at_dest w rel;
}.

Lemma diff_ok_rely w w' head now d : rely w w' → diff_ok w head now d → diff_ok w' head now d.
Proof.
  intros Hr [Hc Hp Hcand]. split; [by eapply closure_ok_rely|eauto using at_dest_rely|].
  intros id o rel Ho Hrel. destruct (Hcand id o rel Ho Hrel); [by left|right; by eapply at_dest_rely].
Qed.

Lemma extend_names a b rel :
  rel ∈ mo_rel_names (mo_extend a b) → rel ∈ mo_rel_names a ∨ rel ∈ mo_rel_names b.
Proof. rewrite !elem_of_rel_names. simpl. set_solver. Qed.

Lemma empty_names rel : rel ∉ mo_rel_names ∅.
Proof. rewrite elem_of_rel_names. set_solver. Qed.

Lemma proven_by_ok w watermark head now c :
  Inv w → closure_ok w head now c →
  (∀ wm, watermark = Some wm → w_hist w !! m_id wm = Some wm ∧ at_dest w (manifest_rel (m_id wm)) ∧
     ∀ cp, cp ∈ m_checkpoints wm → outlives cp now → carries head cp →
       at_dest w (manifest_rel (cp_manifest_id cp))) →
  let '(proven, present) := proven_by now head (cl_manifests c) watermark in
  (∀ rel, rel ∈ mo_rel_names proven → at_dest w rel) ∧
  (∀ id, id ∈ present → at_dest w (manifest_rel id)).
Proof.
  intros Hi Hc Hwm. unfold proven_by. destruct watermark as [wm|]; cycle 1.
  { split; [intros rel Hrel; by apply empty_names in Hrel|set_solver]. }
  destruct (Hwm wm eq_refl) as (Hh & Hat & Hpin). clear Hwm.
  set (live := list_to_set _ : gset N).
  assert (Hlive : ∀ cp : Checkpoint, cp_id cp ∈ live → carries head cp).
  { unfold live. intros cp Hin. apply elem_of_list_to_set, list_elem_of_fmap in Hin as (cp' & Hid & Hin).
    apply list_elem_of_filter in Hin as [_ Hin]. by exists cp'. }
  set (acc0 := (mo_extend ∅ (manifest_objects wm), {[m_id wm]} : gset N)).
  set (good := λ acc : ManifestObjects * gset N,
    (∀ rel, rel ∈ mo_rel_names acc.1 → at_dest w rel) ∧ (∀ id, id ∈ acc.2 → at_dest w (manifest_rel id))).
  assert (Hgood0 : good acc0).
  { split; simpl.
    - intros rel [Hrel|Hrel]%extend_names; [by apply empty_names in Hrel|].
      by eapply (inv_complete _ Hi).
    - intros id ->%elem_of_singleton. done. }
  assert (Hgood : good (fold_left (prove_checkpoint now live (cl_manifests c)) (m_checkpoints wm) acc0)).
  { clearbody acc0. revert acc0 Hgood0 Hpin. induction (m_checkpoints wm) as [|cp cps IH]; [done|].
    intros acc Hacc Hpin. simpl. apply IH; [|intros; apply Hpin; [by right|done..]].
    unfold prove_checkpoint. destruct (negb (checkpoint_live cp now)) eqn:El; [done|].
    destruct (bool_decide (cp_id cp ∈ live)) eqn:Eh; [|done]. simpl.
    destruct (cl_manifests c !! cp_manifest_id cp) as [o|] eqn:Eo; [|done].
    assert (Hpinned : at_dest w (manifest_rel (cp_manifest_id cp))).
    { apply Hpin; [by left| |apply Hlive; by apply bool_decide_eq_true in Eh].
      apply checkpoint_live_outlives. by apply negb_false_iff. }
    destruct (co_members _ _ _ _ Hc _ _ Eo) as (mp & Hmp & ->).
    destruct Hacc as [Ha1 Ha2]. split; simpl.
    - intros rel [?|?]%extend_names; [by apply Ha1|]. by eapply (inv_complete _ Hi).
    - intros id [->%elem_of_singleton|?]%elem_of_union; [done|by apply Ha2]. }
  by destruct (fold_left _ _ _).
Qed.

Lemma wp_diff head watermark cache w :
  Inv w → cache_ok w cache → w_hist w !! m_id head = Some head → opt_proven w watermark head →
  wp (diff_against_watermark head watermark cache) (λ r w',
    cache_ok w' r.1 ∧
    match r.2 with Ok d => ∃ now, diff_ok w' head now d | Err _ => True end) w.
Proof.
  intros Hi Hc Hh Hp. unfold diff_against_watermark.
  eapply (wp_then _ _ (λ now w', now = w_time w')); [done|by wp_read|].
  intros now w1 H1 ->. pose proof (rl_inv _ _ H1) as Hi1.
  assert (Hp1 : opt_proven w1 watermark head) by (by eapply opt_proven_rely).
  unfold tryc. eapply wp_then; [done|eapply (wp_closure head (w_time w1) cache);
    [done|by eapply cache_ok_rely|by eapply hist_rely|done]|].
  intros [[cache2 [c|]]|e] w2 H2 HP.
  - destruct HP as [Hc2 Hcl].
    pose proof (proven_by_ok w2 watermark head (w_time w1) c (rl_inv _ _ H2) Hcl) as Hpr.
    destruct (proven_by (w_time w1) head (cl_manifests c) watermark) as [proven present].
    destruct Hpr as [Hproven Hpresent].
    { intros wm ->. destruct Hp1 as (? & ? & Hpin). split_and!; eauto using hist_rely, at_dest_rely. }
    apply wp_ret. split; [done|]. exists (w_time w1). split; simpl; [done|done|].
    intros id o rel Ho Hrel.
    destruct (difference_names (closure_objects c) proven rel) as [?|?]; [|by left|right; auto].
    apply elem_of_closure_names. eauto.
  - apply wp_ret. split; [apply HP|done].
  - apply wp_ret. split; [|done]. eapply cache_ok_rely; [done|]. by eapply cache_ok_rely.
Qed.

(** ** The work list *)

(** Everything in [names] lands at the target or is in [work], and [work] is
    drawn from [names]. *)
Definition planned w (names work : list string) : Prop :=
  (∀ rel, rel ∈ work → rel ∈ names) ∧ (∀ rel, rel ∈ names → rel ∈ work ∨ at_dest w rel).

Lemma wp_plan_compacted copier us seeding w :
  Inv w →
  wp (plan_compacted copier us seeding) (λ r w', match r with
    | Ok l => (∀ u, u ∈ l → u ∈ us) ∧ ∀ u, u ∈ us → u ∈ l ∨ at_dest w' (compacted_rel u)
    | Err _ => True end) w.
Proof.
  intros Hi. unfold plan_compacted. destruct (cr_kind copier); [apply wp_ret; auto..|].
  destruct seeding; [|by apply wp_head_misses].
  eapply wp_try; [done|by apply wp_list_compacted| |done]. intros l w' Hr HP. apply wp_ret. split.
  - intros u [_ ?]%list_elem_of_filter. done.
  - intros u Hu. destruct (decide (u ∈ l.*1)); [right; auto|].
    left. apply list_elem_of_filter. split; [|done]. by rewrite elem_of_list_to_set.
Qed.

Lemma wp_wal_misses wal w :
  Inv w →
  wp (wal_misses wal) (λ r w', match r with
    | Ok l => (∀ x, x ∈ l → x ∈ wal) ∧ ∀ x, x ∈ wal → x ∈ l ∨ at_dest w' (wal_rel x)
    | Err _ => True end) w.
Proof.
  intros Hi. unfold wal_misses. eapply wp_try; [done|by apply wp_head_misses| |done].
  intros l w' Hr [Hsub Hall]. apply wp_ret. split.
  - intros x. rewrite elem_of_sort_by. intros ?%Hsub. by apply elem_of_ascending.
  - intros x Hx. rewrite elem_of_sort_by. apply Hall. by apply elem_of_ascending.
Qed.

Lemma wp_plan_work copier d seeding w :
  Inv w →
  wp (plan_work copier d seeding) (λ r w', match r with
    | Ok work => planned w' (mo_rel_names (df_candidates d)) work
    | Err _ => True end) w.
Proof.
  intros Hi. unfold plan_work. eapply wp_try; [done|by apply wp_plan_compacted| |done].
  intros us w1 H1 [Hsub Hall]. eapply wp_try; [apply H1|apply wp_wal_misses, H1| |done].
  intros ws w2 H2 [Hwsub Hwall]. apply wp_ret. split.
  - intros rel. rewrite elem_of_app, !list_elem_of_fmap, elem_of_rel_names.
    intros [(u & -> & Hu%Hsub)|(x & -> & Hx%Hwsub)]; [right|left]; [|eauto].
    exists u. by rewrite elem_of_ascending in Hu.
  - intros rel. rewrite elem_of_app, !list_elem_of_fmap, elem_of_rel_names.
    intros [(x & Hx & ->)|(u & Hu & ->)].
    + destruct (Hwall x Hx); [left; right; eauto|by right].
    + destruct (Hall u ltac:(by apply elem_of_ascending)); [left; left; eauto|right].
      by eapply at_dest_rely.
Qed.

(** ** Copying *)
Definition data_name (rel : string) : Prop := ¬ is_manifest_name rel.

(** A write of an object the source has, whether or not it reports success. *)
Lemma wrote_data w rel b w' r :
  Inv w → data_name rel → source_has w rel b → wrote w rel b w' r →
  rely w w' ∧ match r with Ok _ => at_dest w' rel | Err _ => True end.
Proof.
  intros Hi Hrel Hb [->|[-> [e ->]]]; [|split; [by apply rely_refl|done]].
  split; [by apply put_data_rely|]. destruct r; [|done]. exists b. apply lookup_insert_eq.
Qed.

Lemma source_has_rely w w' rel b : rely w w' → source_has w rel b → source_has w' rel b.
Proof. intros []. by apply source_has_mono. Qed.

Lemma wp_get_source rel w :
  Inv w →
  wp (ask (Get Source rel)) (λ r w', match r with
    | Ok g => ∀ b, gr_bytes g = Ok b → source_has w' rel b
    | Err _ => True end) w.
Proof. intros Hi. wp_read. by destruct r. Qed.

Lemma wp_put_data rel b w :
  Inv w → data_name rel → source_has w rel b →
  wp (ask (Put Dest rel b)) (λ r w', match r with Ok _ => at_dest w' rel | Err _ => True end) w.
Proof.
  intros Hi Hrel Hb. apply wp_ask. intros w1 r w2 H1 Hw.
  eapply wrote_data; [apply H1|done|by eapply source_has_rely|done].
Qed.

Lemma wp_copy_object rel w :
  Inv w → data_name rel →
  wp (copy_object rel) (λ r w', match r with Ok _ => at_dest w' rel | Err _ => True end) w.
Proof.
  intros Hi Hrel. unfold copy_object.
  eapply wp_try; [done|by apply wp_get_source| |done]. intros g w1 H1 Hg.
  destruct (bool_decide _).
  - eapply (wp_try _ _ _ (λ r w', ∀ b, r = Ok b → source_has w' rel b)); [apply H1|by apply wp_ret| |done].
    intros b w2 H2 Hb. eapply wp_try; [apply H2|apply wp_put_data; [apply H2|done|by apply Hb]| |done].
    intros [] w3 H3 ?. by apply wp_ret.
  - eapply (wp_try _ _ _ (λ r w', ∀ b, gr_bytes g = Ok b → source_has w' rel b)); [apply H1| | |done].
    + wp_read. intros b Hb. eapply source_has_rely; [done|by apply Hg].
    + intros [] w2 H2 Hg2.
      eapply (wp_try _ _ _ (λ r w', ∀ b, r = Ok b → source_has w' rel b)); [apply H2|by apply wp_ret| |done].
      intros b w3 H3 Hb. eapply (wp_try _ _ _ (λ r w', match r with Ok _ => at_dest w' rel | Err _ => True end));
        [apply H3| | |done].
      * apply wp_ask. intros w4 r w5 H4 Hw.
        eapply wrote_data; [apply H4|done| |done]. eapply source_has_rely; [done|by apply Hb].
      * intros [] w4 H4 ?. by apply wp_ret.
Qed.

Lemma wp_copy_builtin copier names w :
  Inv w → (∀ rel, rel ∈ names → data_name rel) →
  wp (copy_builtin copier names) (λ r w', match r with
    | Ok _ => ∀ rel, rel ∈ names → at_dest w' rel | Err _ => True end) w.
Proof.
  intros Hi Hn. unfold copy_builtin.
  eapply wp_try; [done|apply (wp_concurrently _ _ _ _ ((λ rel _ w, at_dest w rel) <$> names)); [done|..]| |done].
  - apply Forall_fmap, Forall_forall. intros rel _ a w1 w2. apply at_dest_rely.
  - apply Forall2_fmap, Forall_Forall2_diag, Forall_forall. intros rel Hrel. apply wp_copy_object; [done|by apply Hn].
  - intros bytes w1 H1 (d & Hd & _ & HG). apply wp_ret. intros rel Hrel.
    assert (Hg : (λ (_ : N) w, at_dest w rel) ∈ d.*2) by (rewrite Hd; by apply (list_elem_of_fmap_2 (λ rel _ w, at_dest w rel))).
    apply list_elem_of_fmap in Hg as ([a G] & HGx & Hin). simpl in HGx. subst G. by apply (HG _ _ Hin).
Qed.

Lemma wp_copy copier names w :
  Inv w → (∀ rel, rel ∈ names → data_name rel) →
  wp (copy copier names) (λ r w', match r with
    | Ok _ => ∀ rel, rel ∈ names → at_dest w' rel | Err _ => True end) w.
Proof.
  intros Hi Hn. unfold copy. destruct names as [|name names']; [apply wp_ret; by intros ? ?%elem_of_nil|].
  set (names := name :: names') in *. pose proof (wp_copy_builtin copier names w Hi Hn) as Hb.
  destruct (cr_kind copier); try exact Hb. unfold copy_rclone.
  eapply (wp_try _ _ _ (λ _ _, True)); [done|by apply wp_ret| |done]. intros _ w1 H1 _.
  eapply (wp_try _ _ _ (λ _ _, True)); [apply H1|by apply wp_ret| |done]. intros _ w2 H2 _.
  eapply (wp_try _ _ _ (λ r w', match r with
    | Ok _ => ∀ rel, rel ∈ names → at_dest w' rel | Err _ => True end)); [apply H2| | |done].
  - apply wp_ask. intros w3 r w4 H3 (Hh & Hc & Ht & Hd & Hnew & Hr). split; [|by destruct r].
    apply write_data_rely; try done; [apply H3|]. intros rel b Hl.
    destruct (Hnew rel b Hl) as [?|[Hin ?]]; [by left|right]. split; [by apply Hn|done].
  - intros [] w3 H3 ?. by apply wp_ret.
Qed.

(** ** Under the pin *)

(** A call that makes the source write a manifest. *)
Lemma wp_source_call {R} (c : call R) w :
  Inv w → (∀ w1 r w2, handle c w1 r w2 → source_step w1 w2) → wp (ask c) (λ _ _, True) w.
Proof.
  intros Hi Hc. apply wp_ask. intros w1 r w2 H1 Hh. split; [|done].
  apply source_step_rely; [apply H1|by eapply Hc].
Qed.

Lemma wp_refresh_times n pin w : Inv w → wp (refresh_times n pin) (λ _ _, True) w.
Proof.
  revert pin w. induction n as [|n IH]; intros pin w Hi; [by apply wp_ret|].
  cbn [refresh_times]. eapply (wp_try _ _ _ (λ _ _, True)); [done| | |done].
  - unfold Pin_refresh. eapply wp_then; [done|by apply wp_source_call|].
    intros [[]|e] w1 H1 _; [|by apply wp_ret].
    eapply (wp_then _ _ (λ _ _, True)); [apply H1|by wp_read|]. intros. by apply wp_ret.
  - intros p w1 H1 _. apply IH, H1.
Qed.

Lemma wp_under_pin {A} pin (p : prog A) P w :
  Inv w → wp p P w →
  wp (under_pin pin p) (λ r w', match r with Ok (_, a) => P a w' | Err _ => True end) w.
Proof.
  revert pin w. induction p as [a|R c k IH]; intros pin w Hi Hp; cbn [under_pin]; [exact Hp|].
  intros w1 n w2 H1 Hh. simpl in Hh. subst w2. split; [apply rely_refl, H1|].
  change (wp (bind (refresh_times n pin) (λ r, match r with
    | Ok pin => Call c (λ x, under_pin pin (k x)) | Err e => Ret (Err e) end))
    (λ r w', match r with Ok (_, a) => P a w' | Err _ => True end) w1).
  eapply wp_then; [apply H1|apply wp_refresh_times, H1|].
  intros [pin'|e] w2 H2 _; [|by apply wp_ret].
  intros w3 r w4 H3 Hh. destruct (Hp w3 r w4) as [H4 Hk]; [|done|].
  { by do 2 (etrans; [done|]). }
  split; [done|]. apply IH; [apply H4|done].
Qed.

Lemma wp_copy_under_pin copier work pin w :
  Inv w → (∀ rel, rel ∈ work → data_name rel) →
  wp (copy_under_pin copier work pin) (λ r w', match r with
    | Ok _ => ∀ rel, rel ∈ work → at_dest w' rel | Err _ => True end) w.
Proof.
  intros Hi Hn. unfold copy_under_pin. eapply wp_try; [done|by apply wp_under_pin, wp_copy| |done].
  intros [pin' [copied|e]] w1 H1 HP; by apply wp_ret.
Qed.

(** ** The commit *)

(** All data of the closure is at the target. *)
Definition ready w (c : Closure) : Prop :=
  ∀ id o rel, cl_manifests c !! id = Some o → rel ∈ mo_rel_names o → at_dest w rel.

Lemma ready_rely w w' c : rely w w' → ready w c → ready w' c.
Proof. intros Hr Hd id o rel Ho Hrel. eapply at_dest_rely; [done|]. by eapply Hd. Qed.

(** Once the planned work is there, the closure is. *)
Lemma planned_ready w head now d work :
  diff_ok w head now d → planned w (mo_rel_names (df_candidates d)) work →
  (∀ rel, rel ∈ work → at_dest w rel) → ready w (df_closure d).
Proof.
  intros [_ _ Hcand] [_ Hall] Hwork id o rel Ho Hrel.
  destruct (Hcand id o rel Ho Hrel) as [Hc|]; [|done]. destruct (Hall rel Hc); auto.
Qed.

(** An error of a store, of SlateDB or of rclone: what the helpers of a pass
    fail with. *)
Definition io_error (e : MirrorError) : Prop :=
  match e with MStore _ | MSlateDb _ | MRclone _ => True | _ => False end.
Definition calm (e : PassError) : Prop := match e with Fatal e => io_error e | PRestart _ => True end.

(** What is at the target under a source manifest's name is that manifest. *)
Lemma dest_manifest_bytes w id m b :
  Inv w → w_hist w !! id = Some m → w_dest w !! manifest_rel id = Some b → b = manifest_bytes m.
Proof.
  intros Hi Hm Hb. destruct (wf_ids _ (inv_wf _ Hi) _ _ Hm) as [_ Hid].
  destruct (dest_manifest _ _ _ Hi Hid Hb) as (m' & Hm' & ->). congruence.
Qed.

(** Committing a member of a closure whose data and older members are there
    keeps the target a mirror: what its live checkpoints pin, as far as the
    source still has them, the head pins too, so it is an older member. *)
Lemma put_member_rely w head now c id m :
  Inv w → closure_ok w head now c → ready w c →
  w_hist w !! id = Some m → is_Some (cl_manifests c !! id) →
  (∀ k, is_Some (cl_manifests c !! k) → (k < id)%N → at_dest w (manifest_rel k)) →
  w_dest w !! manifest_rel id = None →
  rely w (set_dest w (<[manifest_rel id:=manifest_bytes m]> (w_dest w))).
Proof.
  intros Hi Hcl Hready Hm [o Ho] Hbelow Hnone. apply put_manifest_rely; try done.
  - intros rel Hrel. destruct (co_members _ _ _ _ Hcl _ _ Ho) as (m' & Hm' & ->).
    assert (m' = m) as -> by congruence. by eapply Hready.
  - intros cp l Hcp Hout Hl Hcar. pose proof (inv_wf _ Hi) as Hwf.
    pose proof (wf_pins _ Hwf _ _ _ Hm Hcp) as Hle.
    destruct (decide (cp_manifest_id cp = id)) as [?|Hne]; [by left|right].
    apply Hbelow; [|lia]. pose proof (co_hist _ _ _ _ Hcl) as Hhead.
    assert (Hidh : (id ≤ m_id head)%N) by (eapply co_below; [done|by eexists]).
    destruct (decide (id = m_id head)) as [->|Hlt].
    { assert (m = head) as -> by congruence. eapply co_pins; [done..|].
      eapply outlives_mono; [apply Hcl|done]. }
    destruct Hcar as (cp' & Hcp' & Hid').
    destruct (wf_persist _ Hwf id (m_id head) (m_id l) m head l cp cp') as (cph & Hcph & Heq); try done.
    { apply Hl. } { split; [done|by eapply latest_le]. }
    destruct (wf_stable _ Hwf id (m_id head) m head cp cph) as [Hpin Hext]; try done.
    rewrite Hpin. eapply co_pins; [done..|]. eapply outlives_mono; [apply Hcl|by apply Hext].
Qed.

(** [PUT] with create of such a member. *)
Lemma wp_put_member head now c id m w :
  Inv w → closure_ok w head now c → ready w c →
  w_hist w !! id = Some m → is_Some (cl_manifests c !! id) →
  (∀ k, is_Some (cl_manifests c !! k) → (k < id)%N → at_dest w (manifest_rel k)) →
  wp (ask (PutCreate Dest (manifest_rel id) (manifest_bytes m))) (λ r w', match r with
    | Ok _ | Err AlreadyExists => at_dest w' (manifest_rel id) | Err _ => True end) w.
Proof.
  intros Hi Hcl Hready Hm Hin Hbelow. apply wp_ask. intros w1 r w2 H1 Hh.
  assert (Hput : w_dest w1 !! manifest_rel id = None →
    rely w1 (set_dest w1 (<[manifest_rel id:=manifest_bytes m]> (w_dest w1)))).
  { apply (put_member_rely w1 head now c); [apply H1|by eapply closure_ok_rely|by eapply ready_rely
      |by eapply hist_rely|done|]. intros k Hk Hlt. eapply at_dest_rely; [done|auto]. }
  destruct r as [[]|[]].
  - destruct Hh as [Hnone ->]. split; [by apply Hput|]. exists (manifest_bytes m). apply lookup_insert_eq.
  - split; [|done]. destruct Hh as [->|[Hnone ->]]; [apply rely_refl, H1|by apply Hput].
  - destruct Hh as [-> ?]. split; [apply rely_refl, H1|done].
  - split; [|done]. destruct Hh as [->|[Hnone ->]]; [apply rely_refl, H1|by apply Hput].
Qed.

(** The body of a manifest of the source, read back. *)
Lemma manifest_body w w1 id m g :
  rely w w1 → w_hist w !! id = Some m →
  (∀ b, gr_bytes g = Ok b → source_has w1 (manifest_rel id) b) → ∀ b, gr_bytes g = Ok b → b = manifest_bytes m.
Proof.
  intros H1 Hm Hg b Hb. pose proof (hist_rely _ _ _ _ H1 Hm) as Hm1.
  destruct (source_has_manifest w1 id b) as (m' & Hm' & ->); [apply H1| |by apply Hg|congruence].
  by eapply wf_ids; [apply H1|].
Qed.

Lemma wp_commit_one u head now d id m w :
  Inv w → diff_ok w head now d → ready w (df_closure d) →
  w_hist w !! id = Some m → is_Some (cl_manifests (df_closure d) !! id) →
  (∀ k, is_Some (cl_manifests (df_closure d) !! k) → (k < id)%N → at_dest w (manifest_rel k)) →
  wp (commit_one u (m_id head) id) (λ r w', match r with
    | Ok _ => at_dest w' (manifest_rel id) | Err e => calm e end) w.
Proof.
  intros Hi Hdiff Hready Hm Hin Hbelow. unfold commit_one.
  eapply wp_then; [done|by apply wp_get_source|]. intros [g|e] w1 H1 Hg; cycle 1.
  { destruct e; by apply wp_ret. }
  eapply (wp_try _ _ _ (λ r w', ∀ b, r = Ok b → b = manifest_bytes m)); [apply H1|apply wp_ret| |done].
  { by eapply manifest_body. }
  intros b w2 H2 Hb. rewrite (Hb b eq_refl). clear Hb. assert (H02 : rely w w2) by (by etrans).
  eapply wp_then; [apply H2|apply (wp_put_member head now (df_closure d)); [apply H2|..]|].
  { eapply closure_ok_rely; [done|apply Hdiff]. } { by eapply ready_rely. } { by eapply hist_rely. }
  { done. } { intros k Hk Hlt. eapply at_dest_rely; [done|auto]. }
  intros [[]|[]] w3 H3 Hat; try by apply wp_ret.
  eapply (wp_try _ _ _ (λ r w', at_dest w' (manifest_rel id) ∧
    ∀ g b', r = Ok g → gr_bytes g = Ok b' → b' = manifest_bytes m)); [apply H3| | |done].
  { wp_read. split; [by eapply at_dest_rely|]. intros g' b' -> Hb'. simpl in Hres.
    eapply dest_manifest_bytes; [apply Hr| |by apply Hres].
    eapply (hist_rely w); [by do 2 (etrans; [done|])|done]. }
  intros g' w4 H4 [Hat4 Hsame]. eapply (wp_try _ _ _ (λ r w', at_dest w' (manifest_rel id) ∧
    ∀ b', r = Ok b' → b' = manifest_bytes m)); [apply H4|apply wp_ret; eauto| |done].
  intros b' w5 H5 [Hat5 Hb']. rewrite (Hb' b' eq_refl). rewrite bool_decide_eq_true_2 by done. by apply wp_ret.
Qed.

Lemma wp_commit_loop u head now d ids n w :
  Inv w → diff_ok w head now d → ready w (df_closure d) →
  StronglySorted N.le ids →
  (∀ k, k ∈ ids → is_Some (cl_manifests (df_closure d) !! k)) →
  (∀ k, is_Some (cl_manifests (df_closure d) !! k) → k ∈ ids ∨ at_dest w (manifest_rel k)) →
  wp (commit_loop u (m_id head) (df_present_manifests d) ids n) (λ r w', match r with
    | Ok _ => ∀ k, is_Some (cl_manifests (df_closure d) !! k) → at_dest w' (manifest_rel k)
    | Err e => calm e end) w.
Proof.
  revert n w. induction ids as [|id ids IH]; intros n w Hi Hdiff Hready Hsorted Hkeys Hdone.
  { apply wp_ret. intros k Hk. destruct (Hdone k Hk) as [?%elem_of_nil|]; done. }
  cbn [commit_loop]. inversion_clear Hsorted as [|?? Hs Hle]. rewrite Forall_forall in Hle.
  destruct (bool_decide (id ∈ df_present_manifests d)) eqn:Ep.
  - apply bool_decide_eq_true in Ep. apply IH; try done.
    + intros k ?. apply Hkeys. by right.
    + intros k Hk. destruct (Hdone k Hk) as [[->|?]%elem_of_cons|?]; [right|by left|by right].
      by eapply do_present.
  - destruct (Hkeys id ltac:(by left)) as [o Ho].
    destruct (co_members _ _ _ _ (do_closure _ _ _ _ Hdiff) _ _ Ho) as (m & Hm & _).
    eapply wp_try; [done|eapply (wp_commit_one u head now d id m); try done| |done].
    { intros k Hk Hlt. destruct (Hdone k Hk) as [[->|Hin]%elem_of_cons|?]; [lia| |done].
      specialize (Hle k Hin). lia. }
    intros x w1 H1 Hat. apply IH; try done; [apply H1|by eapply diff_ok_rely|by eapply ready_rely|..].
    + intros k ?. apply Hkeys. by right.
    + intros k Hk. destruct (Hdone k Hk) as [[->|?]%elem_of_cons|?]; [by right|by left|right].
      by eapply at_dest_rely.
Qed.

(** What a finished pass has established: the manifest it reports is at the
    target, and is at least as new as every manifest of [w0]. *)
Definition outcome_ok w0 (o : PassOutcome) w : Prop :=
  at_dest w (manifest_rel (po_head o)) ∧
  (∃ head, w_hist w !! po_head o = Some head ∧ po_next_wal_sst_id o = m_next_wal_sst_id head) ∧
  ∀ id, is_Some (w_hist w0 !! id) → (id ≤ po_head o)%N.

Lemma wp_commit u d head now copied w0 w :
  Inv w → diff_ok w head now d → ready w (df_closure d) →
  (∀ id, is_Some (w_hist w0 !! id) → (id ≤ m_id head)%N) →
  wp (commit u d head copied) (λ r w', match r with
    | Ok o => outcome_ok w0 o w' | Err e => calm e end) w.
Proof.
  intros Hi Hdiff Hready Hnew. unfold commit.
  eapply wp_try; [done|eapply wp_commit_loop; try done| |done].
  - exact (btree_keys_sorted (cl_manifests (df_closure d))).
  - intros k. by rewrite elem_of_btree_keys.
  - intros k Hk. left. by apply elem_of_btree_keys.
  - intros n w1 H1 Hall. apply wp_ret. pose proof (do_closure _ _ _ _ Hdiff) as Hcl.
    split_and!; simpl; [apply Hall, Hcl|exists head; split; [|done]|done].
    eapply hist_rely; [done|apply Hcl].
Qed.

(** ** What a faithful mirror is good for *)

(** A manifest the target can be opened at: its own bytes, and every object
    it references with the bytes the source wrote. *)
Definition restorable w m : Prop :=
  w_dest w !! manifest_rel (m_id m) = Some (manifest_bytes m) ∧
  ∀ rel, rel ∈ mo_rel_names (manifest_objects m) →
    ∃ b, w_dest w !! rel = Some b ∧ w_content w !! rel = Some b.

(** Every manifest at the target is the source's and restorable; and so is
    what the newest one's live checkpoints pin, unless the source has dropped
    the checkpoint since. *)
Definition mirrored w : Prop :=
  (∀ id, (id ≤ U64_MAX)%N → at_dest w (manifest_rel id) → ∃ m, w_hist w !! id = Some m ∧ restorable w m) ∧
  (∀ m cp l, w_hist w !! m_id m = Some m → dest_latest w (m_id m) → cp ∈ m_checkpoints m →
     outlives cp (w_time w) → latest w l → carries l cp →
     ∃ p, w_hist w !! cp_manifest_id cp = Some p ∧ restorable w p).

Lemma inv_restorable w id : Inv w → (id ≤ U64_MAX)%N → at_dest w (manifest_rel id) →
  ∃ m, w_hist w !! id = Some m ∧ restorable w m.
Proof.
  intros Hi Hid [b Hb]. destruct (dest_manifest _ _ _ Hi Hid Hb) as (m & Hm & ->). exists m. split; [done|].
  destruct (wf_ids _ (inv_wf _ Hi) _ _ Hm) as [Hmid _]. split; [by rewrite Hmid|]. intros rel Hrel.
  destruct (inv_complete _ Hi id m Hm ltac:(by eexists) rel Hrel) as [x Hx]. exists x. split; [done|].
  apply source_has_data; [by apply (inv_faithful _ Hi)|by eapply names_not_manifest].
Qed.

Lemma inv_mirrored w : Inv w → mirrored w.
Proof.
  intros Hi. split; [intros; by apply inv_restorable|].
  intros m cp l Hm Hd Hcp Hout Hl Hcar. apply inv_restorable; [done| |by eapply (inv_closed _ Hi)].
  pose proof (wf_pins _ (inv_wf _ Hi) _ _ _ Hm Hcp). destruct (wf_ids _ (inv_wf _ Hi) _ _ Hm). lia.
Qed.

End safety.
