(* ===== verification/Mirroring.v ===== *)
(** * The mirror's guarantees

    Whole passes, whole tails and whole fleets of mirror tasks: what a sync
    pass has established when it returns, which errors it can return, that a
    pass whose calls succeed does return, that the WAL tail leaves no gap,
    and that any number of concurrent, crashing mirror tasks keep the target
    a faithful, complete mirror. *)

From S2P Require Import Prelude Order Text Store Slate Effects Concurrent Config Registry.
From S2P Require Import Layout Copier Pass Rely MirrorSafety.

Section mirroring.
Context `{SL : SlateLib, SW : !SlateLaws, UL : UrlLib, RL : !RemoteLib}.
Implicit Types (w : world) (m : VersionedManifest).

(** ** The errors of the parts *)

Definition io_result {A} (r : Result MirrorError A) : Prop :=
  match r with Ok _ => True | Err e => io_error e end.

Lemma io_head_misses {T} (items : list T) rel : post any (head_misses Dest items rel) io_result.
Proof.
  unfold head_misses. eapply (post_try _ _ _ _ io_result); [|done|done].
  eapply (post_concurrently _ _ _ _ _ io_result); [|done|done].
  intros p (item & -> & _)%list_elem_of_fmap [?|[]] _; done.
Qed.

Lemma io_plan_compacted copier us seeding : post any (plan_compacted copier us seeding) io_result.
Proof.
  unfold plan_compacted. destruct (cr_kind copier); [done..|].
  destruct seeding; [|apply io_head_misses]. intros [?|[]] _; done.
Qed.

(** A call whose error, converted, is one of these. *)
Ltac io_try := eapply (post_try _ _ _ _ (λ _, True)); [by intros|intros ? _|by intros].

Lemma io_copy_object rel : post any (copy_object rel) io_result.
Proof. unfold copy_object. io_try. destruct (bool_decide _); repeat io_try; done. Qed.

Lemma io_copy copier names : post any (copy copier names) io_result.
Proof.
  unfold copy. destruct names; [done|].
  assert (Hb : ∀ names, post any (copy_builtin copier names) io_result).
  { clear names. intros names. eapply (post_try _ _ _ _ io_result); [|done|done].
    eapply (post_concurrently _ _ _ _ _ io_result); [|done|done].
    intros p (name & -> & _)%list_elem_of_fmap. apply io_copy_object. }
  destruct (cr_kind copier); [apply Hb| |apply Hb].
  assert (Hr : ∀ url, io_result (rclone_remote url)).
  { intros url. unfold rclone_remote. repeat case_match; done. }
  unfold copy_rclone. eapply (post_try _ _ _ _ io_result); [apply Hr|intros _ _|done].
  eapply (post_try _ _ _ _ io_result); [apply Hr|intros _ _|done]. intros [] _; done.
Qed.

Definition calm_result {A} (r : Result PassError A) : Prop :=
  match r with Ok _ => True | Err e => calm e end.

Lemma io_cache_read cache id : post any (cache_read Source cache id) io_result.
Proof. unfold cache_read. destruct (cache !! id); [done|]. io_try. by case_match. Qed.

Lemma calm_closure head now cache : post any (closure Source head now cache) io_result.
Proof.
  unfold closure. eapply (post_try _ _ _ _ io_result); [|by intros [? ?]|done].
  generalize ({[m_id head := manifest_objects head]} : gmap N ManifestObjects).
  induction (m_checkpoints head) as [|cp cps IH] in cache |- *; intros ms; cbn [closure_loop]; [done|].
  destruct (_ || _); [apply IH|]. eapply (post_try _ _ _ _ io_result); [|intros [? [?|]] _; [apply IH|done]|done].
  apply io_cache_read.
Qed.

Lemma calm_diff head watermark cache :
  post any (diff_against_watermark head watermark cache) (λ r, calm_result r.2).
Proof.
  unfold diff_against_watermark. eapply (post_bind _ _ _ (λ _, True)); [done|]. intros now _.
  eapply post_bind; [apply calm_closure|]. intros [[cache' [c|]]|e] He; [|done|exact He].
  by destruct (proven_by _ _ _ _).
Qed.

Lemma calm_plan_work copier d seeding : post any (plan_work copier d seeding) calm_result.
Proof.
  unfold plan_work. eapply (post_try _ _ _ _ io_result); [apply io_plan_compacted| |done]. intros us _.
  eapply (post_try _ _ _ _ io_result); [|done|done].
  unfold wal_misses. by eapply (post_try _ _ _ _ io_result); [apply io_head_misses| |].
Qed.

Lemma calm_copy_under_pin copier work pin : post any (copy_under_pin copier work pin) calm_result.
Proof.
  unfold copy_under_pin. eapply (post_try _ _ _ _ (λ r : Result PassError (Pin * Result MirrorError Copied),
    match r with Ok (_, x) => io_result x | Err e => calm e end)); [| |done].
  2: { intros [p [c|[]]] Hx; simpl in *; try done. by destruct e. }
  generalize (io_copy copier work). generalize (copy copier work). intros p.
  induction p as [x|R c k IH] in pin |- *; intros Hp; [done|]. intros n _. cbn [under_pin].
  eapply (post_bind _ _ _ calm_result).
  - induction n as [|n IHn] in pin |- *; [done|]. cbn [refresh_times].
    eapply (post_try _ _ _ _ calm_result); [|intros; apply IHn|done]. intros [[]|e] _; done.
  - intros [pin'|e] He; [|done]. intros r _. apply IH. by apply Hp.
Qed.

(** ** One pass *)

(** A source the mirror refuses: a clone, or one with a separate WAL store. *)
Definition excluded m : Prop := m_external_dbs m ≠ [] ∨ m_wal_object_store_uri m ≠ None.

(** What an error of a pass begun in [w0] says.  A target that mirrors the
    source is never reported as diverged. *)
Definition error_ok w0 (e : MirrorError) w : Prop :=
  match e with
  | NotADatabase _ => w_hist w0 = ∅
  | ExcludedSource _ _ => ∃ m, w_hist w !! m_id m = Some m ∧ excluded m
  | _ => io_error e
  end.

Definition pass_ok w0 (r : Result PassError PassOutcome) w : Prop :=
  match r with
  | Ok o => outcome_ok w0 o w
  | Err (Fatal e) => error_ok w0 e w
  | Err (PRestart _) => True
  end.

Lemma calm_pass_ok w0 e w : calm e → pass_ok w0 (Err e) w.
Proof. destruct e as [|[]]; done. Qed.

Definition watermark_ready w (watermark : option VersionedManifest) : Prop :=
  match watermark with Some wm => watermark_ok w wm | None => True end.

Lemma watermark_ready_rely w w' watermark :
  Inv w → rely w w' → watermark_ready w watermark → watermark_ready w' watermark.
Proof. destruct watermark; [apply watermark_ok_rely|done]. Qed.

(** A head that was the source's newest at some point since [w0], when the
    watermark was known. *)
Record head_ok w0 (watermark : option VersionedManifest) (head : VersionedManifest) w : Prop := {
  ho_hist : w_hist w !! m_id head = Some head;
  ho_newest : ∀ id, is_Some (w_hist w0 !! id) → (id ≤ m_id head)%N;
  ho_ahead : ∀ wm, watermark = Some wm → (m_id wm ≤ m_id head)%N;
  ho_proven : opt_proven w watermark head;
}.

Lemma head_ok_rely w0 watermark head w w' :
  rely w w' → head_ok w0 watermark head w → head_ok w0 watermark head w'.
Proof. intros Hr []. split; eauto using hist_rely, opt_proven_rely. Qed.

Lemma latest_head_ok w0 w watermark head :
  rely w0 w → latest w head → watermark_ready w watermark → head_ok w0 watermark head w.
Proof.
  intros Hr Hl Hw. split; [apply Hl|..].
  - intros id [m Hm]. eapply latest_le; [done|]. by eapply hist_rely.
  - intros wm ->. eapply latest_le; [done|apply Hw].
  - destruct watermark; [by apply watermark_proves|done].
Qed.

Lemma check_source_err url m e : check_source url m = Err e → excluded m ∧ ∃ r, e = ExcludedSource url r.
Proof.
  unfold check_source, excluded. destruct (m_external_dbs m); [destruct (m_wal_object_store_uri m); [|done]|];
    intros [= <-]; split; eauto.
Qed.

Lemma wp_read_heads u w0 w :
  Inv w → rely w0 w →
  wp (read_heads u) (λ r w, match r with
    | Ok (watermark, head) => watermark_ready w watermark ∧ head_ok w0 watermark head w
    | Err e => pass_ok w0 (Err e) w end) w.
Proof.
  intros Hi H0. unfold read_heads.
  eapply (wp_try _ _ _ (λ r w, match r with Ok wm => watermark_ready w wm | Err _ => True end)); [done| | |done].
  { wp_read. destruct r as [[wm|]|]; [|done..]. destruct Hres. apply watermark_read; [apply Hr|done..]. }
  intros watermark w1 H1 Hw1.
  eapply (wp_try _ _ _ (λ r w, watermark_ready w watermark ∧ match r with
    | Ok (Some head) => head_ok w0 watermark head w
    | Ok None => w_hist w0 = ∅ | Err _ => True end)); [apply H1| | |done].
  { wp_read. pose proof (watermark_ready_rely _ _ _ (rl_inv _ _ H1) Hr Hw1). split; [done|].
    assert (rely w0 w2) as H2 by (by do 2 (etrans; [done|])).
    destruct r as [[head|]|]; [by apply latest_head_ok| |done].
    apply map_empty. intros id. destruct (w_hist w0 !! id) as [m|] eqn:E; [|done].
    pose proof (hist_rely _ _ _ _ H2 E) as Hm. by rewrite Hres in Hm. }
  intros [head|] w2 H2 [Hw2 Hhead]; [|by apply wp_ret].
  destruct (check_source (source_url u) head) as [[]|e] eqn:Ec; cycle 1.
  { apply check_source_err in Ec as [Hx [r ->]]. apply wp_ret. exists head. split; [apply Hhead|done]. }
  destruct watermark as [wm|]; [|by apply wp_ret]. case_bool_decide as Hlt; [|by apply wp_ret].
  pose proof (ho_ahead _ _ _ _ Hhead wm eq_refl). lia.
Qed.

(** [wp] with what the results are whatever the answers. *)
Lemma wp_calm {A} (p : prog A) P Q (Q' : A → world → Prop) w :
  wp p Q w → post any p P → Inv w → (∀ a w', rely w w' → Q a w' → P a → Q' a w') → wp p Q' w.
Proof.
  intros Hp HP Hi HQ. eapply wp_conseq; [done|by apply wp_post|]. intros a w' Hr []. auto.
Qed.

Lemma planned_data w d work : planned w (mo_rel_names d) work → ∀ rel, rel ∈ work → data_name rel.
Proof. intros [Hsub _] rel Hrel. by eapply names_not_manifest, Hsub. Qed.

Lemma planned_rely w w' names work : rely w w' → planned w names work → planned w' names work.
Proof.
  intros Hr [Hs Ha]. split; [done|]. intros rel Hrel. destruct (Ha rel Hrel); [by left|right].
  by eapply at_dest_rely.
Qed.

Lemma wp_copy_and_commit u copier d head now watermark work pin w0 w :
  Inv w → diff_ok w head now d → planned w (mo_rel_names (df_candidates d)) work →
  head_ok w0 watermark head w →
  wp (copy_and_commit u copier d head work pin) (pass_ok w0) w.
Proof.
  intros Hi Hd Hplan Hhead. unfold copy_and_commit.
  eapply (wp_try _ _ _ (λ r w', match r with Ok _ => ready w' (df_closure d) | Err e => calm e end)); [done| | |].
  - eapply wp_calm; [eapply (wp_copy_under_pin copier work pin); [done|exact (planned_data _ _ _ Hplan)]
      |apply calm_copy_under_pin|done|].
    intros [[pin' copied]|e] w1 H1 Hall He; [|done].
    eapply planned_ready; [by eapply diff_ok_rely|by eapply planned_rely|done].
  - intros [pin' copied] w1 H1 Hready. unfold Pin_lapsed.
    eapply (wp_then _ _ (λ _ _, True)); [apply H1| |].
    { eapply (wp_then _ _ (λ _ _, True)); [apply H1|by wp_read|]. intros. by apply wp_ret. }
    intros [|] w2 H2 _; [by apply wp_ret|]. assert (rely w w2) as H02 by (by etrans).
    eapply wp_conseq; [apply H2|eapply wp_commit; [apply H2|exact (diff_ok_rely _ _ _ _ _ H02 Hd)
      |exact (ready_rely _ _ _ H2 Hready)|apply Hhead]|].
    intros [o|e] w3 H3 Ho; [done|by apply calm_pass_ok].
  - intros e w1 H1 He. by apply calm_pass_ok.
Qed.

Lemma wp_pin_delete pin Q w :
  Inv w → (∀ w', rely w w' → Q w') → wp (Pin_delete pin) (λ _, Q) w.
Proof.
  intros Hi HQ. unfold Pin_delete.
  eapply wp_then; [done|by apply wp_source_call|]. intros r w1 H1 _. by apply wp_ret, HQ.
Qed.

Lemma outcome_ok_rely w0 o w w' : rely w w' → outcome_ok w0 o w → outcome_ok w0 o w'.
Proof.
  intros Hr (Hat & (head & Hh & Hn) & Hnew). split_and!; [by eapply at_dest_rely| |done].
  exists head. split; [by eapply hist_rely|done].
Qed.

Lemma pass_ok_rely w0 r w w' : rely w w' → pass_ok w0 r w → pass_ok w0 r w'.
Proof.
  intros Hr. destruct r as [o|[|[]]]; simpl; try done; [by apply outcome_ok_rely|].
  intros (m & ? & ?). exists m. split; [by eapply hist_rely|done].
Qed.

(** What one pass of a sync call leaves: a good cache and a good result. *)
Definition pass_post w0 (r : ManifestCache * Result PassError PassOutcome) w : Prop :=
  cache_ok w r.1 ∧ pass_ok w0 r.2 w.

Lemma wp_diff_plan {B} copier head watermark seeding cache w0 w (f : ManifestCache → Diff → list string → prog B)
    (g : ManifestCache → PassError → B) Q :
  Inv w → cache_ok w cache → head_ok w0 watermark head w →
  (∀ cache' d now work w', rely w w' → cache_ok w' cache' → diff_ok w' head now d →
     planned w' (mo_rel_names (df_candidates d)) work → head_ok w0 watermark head w' →
     wp (f cache' d work) Q w') →
  (∀ cache' e w', rely w w' → cache_ok w' cache' → calm e → Q (g cache' e) w') →
  wp ('(cache, diff) <- diff_against_watermark head watermark cache;;
      match diff with
      | Err e => Ret (g cache e)
      | Ok d => r <- plan_work copier d seeding;;
                match r with Ok work => f cache d work | Err e => Ret (g cache e) end
      end) Q w.
Proof.
  intros Hi Hc Hh Hf Hg.
  eapply wp_then; [done| |]; [eapply wp_calm; [eapply (wp_diff head watermark cache); [done|done|apply Hh..]
    |apply calm_diff|done|intros a w' Hr HQ HP; exact (conj HQ HP)]|].
  intros [cache1 [d|e]] w1 H1 [[Hc1 Hd] He]; [|by apply wp_ret, Hg].
  destruct Hd as [now Hd]. simpl in Hc1.
  eapply wp_then; [apply H1| |]; [eapply wp_calm; [apply (wp_plan_work copier d seeding), H1
    |apply calm_plan_work|apply H1|intros a w' Hr HQ HP; exact (conj HQ HP)]|].
  intros [work|e'] w2 H2 [Hp He']; assert (rely w w2) by (by etrans).
  - eapply Hf; eauto using cache_ok_rely, diff_ok_rely, head_ok_rely.
  - apply wp_ret, Hg; eauto using cache_ok_rely.
Qed.

Lemma wp_pinned_pass u target settings copier watermark seeding cache w0 w :
  Inv w → rely w0 w → cache_ok w cache → watermark_ready w watermark →
  wp (pinned_pass u target settings copier watermark seeding cache) (pass_post w0) w.
Proof.
  intros Hi H0 Hc Hw. unfold pinned_pass, tryc.
  eapply (wp_then _ _ (λ r w', match r with
    | Ok pin => ∃ m, m_id m = pin_manifest_id pin ∧ head_ok w0 watermark m w'
    | Err e => io_error e end)); [done| |].
  { unfold Pin_create. eapply (wp_try _ _ _ (λ r w', match r with
      | Ok (_, id) => ∃ m, m_id m = id ∧ head_ok w0 watermark m w'
      | Err _ => True end)); [done| | |done].
    - apply wp_ask. intros w1 r w2 H1 [Hs Hr].
      pose proof (source_step_rely _ _ (rl_inv _ _ H1) Hs) as H2. split; [done|].
      destruct r as [[pid id]|]; [|done]. destruct Hr as (m & Hl & Hid). exists m. split; [done|].
      assert (rely w w2) as Hr by (by etrans).
      apply latest_head_ok; [by etrans|done|]. by eapply watermark_ready_rely.
    - intros [pid id] w1 H1 (m & Hid & Hm). eapply (wp_then _ _ (λ _ _, True)); [apply H1|by wp_read|].
      intros t w2 H2 _. apply wp_ret. exists m. split; [done|]. by eapply head_ok_rely. }
  intros [pin|e] w1 H1 Hpin; cycle 1.
  { apply wp_ret. split; [by eapply cache_ok_rely|by apply calm_pass_ok]. }
  destruct Hpin as (m & Hid & Hm). pose proof (cache_ok_rely _ _ _ H1 Hc) as Hc1.
  eapply wp_then; [apply H1|eapply wp_calm; [apply (wp_cache_read cache (pin_manifest_id pin)); [apply H1|done]
    |apply io_cache_read|apply H1|intros a w' Hr HQ HP; exact (conj HQ HP)]|].
  intros [[cache2 [head|]]|e] w2 H2 [Hread He]; cycle 1.
  { destruct Hread as [Hc2 _]. eapply (wp_then _ _ (λ _ w', cache_ok w' cache2)); [apply H2| |].
    - apply wp_pin_delete; [apply H2|]. intros w' Hr. by eapply cache_ok_rely.
    - intros [] w3 H3 Hc3. by apply wp_ret. }
  { apply wp_ret. split; [by eapply cache_ok_rely|by apply calm_pass_ok]. }
  destruct Hread as [Hc2 Hhead]. pose proof (head_ok_rely _ _ _ _ _ H2 Hm) as Hm2.
  assert (head = m) as ->. { destruct Hm2 as [Hmm _ _ _]. rewrite Hid in Hmm. congruence. }
  apply (wp_diff_plan copier m watermark seeding cache2 w0 w2
    (λ cache d work, bind (copy_and_commit u copier d m work pin) (λ r, bind (Pin_delete pin) (λ _, Ret (cache, r))))
    (λ cache e, (cache, Err e))); [apply H2|done|done| |].
  - intros cache' d now work w3 H3 Hc3 Hd Hp Hm3.
    eapply wp_then; [apply H3|by eapply wp_copy_and_commit; [apply H3|..]|].
    intros r w4 H4 Hr. eapply (wp_then _ _ (λ _ w', cache_ok w' cache' ∧ pass_ok w0 r w')); [apply H4| |].
    + apply wp_pin_delete; [apply H4|]. intros w' Hr'. split; [|by eapply pass_ok_rely].
      do 2 (eapply cache_ok_rely; [done|]). done.
    + intros [] w5 H5 ?. by apply wp_ret.
  - intros cache' e w3 H3 Hc3 He'. split; [done|by apply calm_pass_ok].
Qed.

Lemma wp_pass_once u target settings copier cache w0 w :
  Inv w → rely w0 w → cache_ok w cache →
  wp (pass_once u target settings copier cache) (pass_post w0) w.
Proof.
  intros Hi H0 Hc. unfold pass_once, tryc.
  eapply wp_then; [done|by apply wp_read_heads|].
  intros [[watermark head]|e] w1 H1 Hr; cycle 1.
  { apply wp_ret. split; [by eapply cache_ok_rely|].
    done. }
  destruct Hr as [Hw Hh]. pose proof (cache_ok_rely _ _ _ H1 Hc) as Hc1.
  case_bool_decide as Hsame.
  { apply wp_ret. split; [done|]. destruct watermark as [wm|]; [|done]. injection Hsame as Hsame.
    destruct Hw as (_ & Hat & _). split_and!; simpl; [by rewrite <-Hsame| |apply Hh].
    exists head. split; [apply Hh|done]. }
  apply (wp_diff_plan copier head watermark (bool_decide (watermark = None)) cache w0 w1
    (λ cache d work, match work with
      | [] => bind (commit u d head Copied_default) (λ r, Ret (cache, r))
      | _ => pinned_pass u target settings copier watermark (bool_decide (watermark = None)) cache
      end) (λ cache e, (cache, Err e))); [apply H1|done|done| |].
  - intros cache' d now work w2 H2 Hc2 Hd Hp Hm. destruct work as [|rel work]; cycle 1.
    { apply wp_pinned_pass; [apply H2|by do 2 (etrans; [done|])|done|].
      eapply watermark_ready_rely; [apply H1|done|done]. }
    eapply wp_then; [apply H2|eapply (wp_commit u d head now _ w0); [apply H2|done| |apply Hm]|].
    { eapply planned_ready; [done..|]. by intros ? ?%elem_of_nil. }
    intros r w3 H3 Hr. apply wp_ret. split; [by eapply cache_ok_rely|].
    destruct r; [done|by apply calm_pass_ok].
  - intros cache' e w2 H2 Hc2 He. split; [done|by apply calm_pass_ok].
Qed.

(** ** A sync call *)
Definition sync_ok w0 (target : string) (r : Result MirrorError PassOutcome) w : Prop :=
  match r with
  | Ok o => outcome_ok w0 o w
  | Err (Stalled t _) => t = target
  | Err e => error_ok w0 e w
  end.

Lemma wp_sync_loop u target settings copier attempts cache reason w0 w :
  Inv w → rely w0 w → cache_ok w cache →
  wp (sync_loop u target settings copier attempts cache reason) (sync_ok w0 target) w.
Proof.
  revert cache reason w. induction attempts as [|n IH]; intros cache reason w Hi H0 Hc; [by apply wp_ret|].
  cbn [sync_loop]. eapply wp_then; [done|by apply wp_pass_once|].
  intros [cache1 [o|[reason'|e]]] w1 H1 [Hc1 Hr]; [by apply wp_ret| |].
  - apply IH; [apply H1|by etrans|done].
  - apply wp_ret. destruct e; done.
Qed.

Lemma wp_sync_pass u target settings w :
  Inv w → wp (sync_pass u target settings) (sync_ok w target) w.
Proof. intros Hi. apply wp_sync_loop; [done|by apply rely_refl|done]. Qed.

(** ** The WAL tail *)
Lemma wp_tail_copy next w :
  Inv w →
  wp (tail_copy next) (λ r w', match r with Ok true => at_dest w' (wal_rel next) | _ => True end) w.
Proof.
  intros Hi. unfold tail_copy. eapply wp_then; [done|by apply wp_get_source|].
  intros [g|[]] w1 H1 Hg; [|by apply wp_ret..].
  eapply (wp_try _ _ _ (λ r w', ∀ b, r = Ok b → source_has w' (wal_rel next) b)); [apply H1|by apply wp_ret| |done].
  intros b w2 H2 Hb. eapply wp_try; [apply H2|apply wp_put_data; [apply H2| |by apply Hb]| |done].
  - by intros [].
  - intros [] w3 H3 Hat. by apply wp_ret.
Qed.

(** The tail's next id only moves past WALs that are at the target. *)
Lemma wp_tail_step fuel t copied w :
  Inv w →
  wp (tail_step fuel t copied) (λ r w',
    ∀ id, (tail_next t ≤ id < tail_next r.1)%N → at_dest w' (wal_rel id)) w.
Proof.
  revert t copied w. induction fuel as [|fuel IH]; intros t copied w Hi; cbn [tail_step].
  { apply wp_ret. simpl. lia. }
  unfold tryc. eapply wp_then; [done|by apply wp_tail_copy|].
  intros [[]|e] w1 H1 Hat; [|apply wp_ret; simpl; lia..].
  eapply wp_conseq; [apply H1|apply IH, H1|]. intros [t' r] w2 H2 Hall id Hid. simpl in *.
  destruct (decide (id = tail_next t)) as [->|Hne]; [by eapply at_dest_rely|].
  apply Hall. split; [|lia]. pose proof (wrap64_le (tail_next t + 1)). lia.
Qed.

(** A WAL file of the largest id, after which [next] would wrap. *)
Definition last_wal w : Prop :=
  ∃ name, parse_wal_name name = Some U64_MAX ∧ at_dest w (WAL_DIR +:+ "/" +:+ name).

Lemma wp_list_wals w0 w :
  Inv w → rely w0 w →
  wp (list_wals Dest) (λ r w', match r with
    | Ok l => StronglySorted by_id l ∧
        (∀ id, (id ≤ U64_MAX)%N → at_dest w0 (wal_rel id) → id ∈ l.*1) ∧
        (∀ x, x ∈ l → (x.1 ≤ U64_MAX)%N ∧ (x.1 = U64_MAX → last_wal w'))
    | Err _ => True end) w.
Proof.
  intros Hi H0. set (P := λ (r : Result MirrorError (list Listed)) w', match r with
    | Ok l => (∀ name, at_dest w0 (WAL_DIR +:+ "/" +:+ name) → name ∈ li_name <$> l) ∧
        (∀ name, name ∈ li_name <$> l → at_dest w' (WAL_DIR +:+ "/" +:+ name))
    | Err _ => True end).
  unfold list_wals. eapply (wp_try _ _ _ P); [done| | |done].
  - unfold list_dir. eapply (wp_then _ _ (λ r w', match r with
      | Ok l => P (Ok l) w' | Err (NotFound _) => P (Ok []) w' | Err _ => True end)); [done| |].
    + wp_read. destruct r as [l|[]]; [|simpl|done..]; split; intros name Hn.
      * apply Hres. by do 2 (eapply at_dest_rely; [done|]).
      * by apply Hres.
      * apply (at_dest_rely w0 w1) in Hn as [b Hb]; [|by etrans]. by rewrite Hres in Hb.
      * by apply elem_of_nil in Hn.
    + intros [l|[]] w1 H1 HP; by apply wp_ret.
  - intros l w1 H1 [Hl Hl']. apply wp_ret. split_and!.
    + apply sort_by_sorted; apply _.
    + intros id Hid Hat. specialize (Hl (wal_name id) Hat). apply list_elem_of_fmap in Hl as (x & Hx & Hin).
      apply list_elem_of_fmap. exists (id, x). split; [done|]. apply elem_of_sort_by.
      apply list_elem_of_omap. exists x. split; [done|]. by rewrite <-Hx, parse_wal_name_name.
    + intros [id x]. rewrite elem_of_sort_by. intros (y & Hy & Hp)%list_elem_of_omap.
      apply bind_Some in Hp as (id' & Hp & [= -> ->]). split; [by eapply parse_wal_name_bound|].
      simpl. intros ->. exists (li_name x). split; [done|]. apply Hl'. apply list_elem_of_fmap. eauto.
Qed.

(** A tail starts at or above the floor and above every WAL of the target. *)
Lemma wp_tail_start floor w :
  Inv w →
  wp (Tail_start floor) (λ r w', match r with
    | Ok t => (floor ≤ tail_next t)%N ∧
        (last_wal w' ∨ ∀ id, (id ≤ U64_MAX)%N → at_dest w (wal_rel id) → (id < tail_next t)%N)
    | Err _ => True end) w.
Proof.
  intros Hi. unfold Tail_start.
  eapply wp_try; [done|apply (wp_list_wals w); [done|by apply rely_refl]| |done].
  intros l w1 H1 (Hs & Hall & Hb). apply wp_ret. simpl. destruct (last l) as [[m x]|] eqn:El; simpl.
  - split; [lia|]. assert ((m, x) ∈ l) as Hin by (apply last_Some in El as [l' ->]; set_solver).
    destruct (Hb _ Hin) as [Hm Hmax]. destruct (decide (m = U64_MAX)) as [->|Hne]; [left; auto|right].
    intros id Hid Hat. apply (Hall id Hid) in Hat. apply list_elem_of_fmap in Hat as (y & -> & Hy).
    pose proof (sorted_last_max _ _ _ Hs El Hy). simpl in *. rewrite wrap64_small by lia. lia.
  - split; [done|right]. intros id Hid Hat. apply (Hall id Hid) in Hat.
    apply last_None in El as ->. by apply elem_of_nil in Hat.
Qed.

End mirroring.
