(* ===== verification/Progress.v ===== *)
(** * Passes get done

    A sync pass whose calls succeed finishes on its first attempt: no
    restart, no error of its own making.  Nothing is asked of the source but
    to answer, so it may write and checkpoint all along. *)

From S2P Require Import Prelude Order Text Store Slate Effects Concurrent Config Registry.
From S2P Require Import Layout Copier Pass Rely MirrorSafety Mirroring.

Definition succeeds {E A} (r : Result E A) : Prop := ∃ a, r = Ok a.

Section progress.
Context `{SL : SlateLib, SW : !SlateLaws, UL : UrlLib, RL : !RemoteLib}.

(** Every call succeeds: reads of a manifest by id find it, GETs stream their
    body, probes hit or miss, and the process clock stays within one pin
    lifetime of [t0]. *)
Definition smooth (t0 : Z) (lifetime : Duration) : answers := λ R c,
  match c in call R return R → Prop with
  | ReadManifest _ None => succeeds
  | ReadManifest _ (Some _) => λ r, ∃ m, r = Ok (Some m)
  | Get _ _ => λ r, ∃ g b, r = Ok g ∧ gr_bytes g = Ok b
  | Head _ _ => λ r, r = Ok () ∨ ∃ path, r = Err (NotFound path)
  | PutCreate _ _ _ => λ r, r = Ok () ∨ r = Err AlreadyExists
  | CreateCheckpoint _ _ => succeeds
  | RefreshCheckpoint _ _ _ => succeeds
  | DeleteCheckpoint _ _ => succeeds
  | ListCheckpoints _ _ => succeeds
  | ListDir _ _ => succeeds
  | ListRoot _ => succeeds
  | Put _ _ _ => succeeds
  | StartMultipart _ _ => succeeds
  | FinishMultipart _ _ _ => succeeds
  | Delete _ _ => succeeds
  | Effects.Rclone _ => succeeds
  | InstantNow => λ t, (t0 ≤ t < t0 + Z.of_N lifetime)%Z
  | _ => λ _, True
  end.

Section smooth.
Context (t0 : Z) (lifetime : Duration).
Abbreviation S := (smooth t0 lifetime).

Lemma ok_try {E F A B} (conv : E → F) (p : prog (Result E A)) (f : A → prog (Result F B)) P Q :
  post S p (λ r, ∃ a, r = Ok a ∧ P a) → (∀ a, P a → post S (f a) Q) → post S (try conv p f) Q.
Proof. intros Hp Hf. eapply post_try; [done| |by intros e (? & ? & _)]. intros a (? & [= <-] & ?). auto. Qed.

Lemma ok_then {E F A B} (conv : E → F) (p : prog (Result E A)) (f : A → prog (Result F B)) Q :
  post S p succeeds → (∀ a, post S (f a) Q) → post S (try conv p f) Q.
Proof. intros Hp Hf. eapply post_try; [done|auto|]. by intros e []. Qed.

Lemma ok_ask {R E} (c : call (Result E R)) : (∀ r, S _ c r → succeeds r) → post S (ask c) succeeds.
Proof. done. Qed.

Lemma ok_concurrently {E A B} (combine : B → A → B) limit (tasks : list (prog (Result E A))) x :
  (∀ p, p ∈ tasks → post S p succeeds) → post S (concurrently combine limit tasks x) succeeds.
Proof. intros Ht. eapply post_concurrently; [exact Ht|by eexists|by intros e []]. Qed.

Lemma ok_head_misses {T} (items : list T) rel : post S (head_misses Dest items rel) succeeds.
Proof.
  unfold head_misses. apply ok_then; [|intros l; by eexists].
  apply ok_concurrently. intros p (item & -> & _)%list_elem_of_fmap r [->|[path ->]]; by eexists.
Qed.

Lemma ok_plan_work copier d seeding : post S (plan_work copier d seeding) succeeds.
Proof.
  unfold plan_work. apply ok_then; [|intros us; apply ok_then; [|intros ws; by eexists]].
  - unfold plan_compacted. destruct (cr_kind copier); [by eexists..|].
    destruct seeding; [|apply ok_head_misses]. intros r [l ->]. by eexists.
  - unfold wal_misses. apply ok_then; [apply ok_head_misses|]. intros l. by eexists.
Qed.

Lemma ok_cache_read cache id :
  post S (cache_read Source cache id) (λ r, ∃ cm, r = Ok cm ∧ is_Some cm.2).
Proof.
  unfold cache_read. destruct (cache !! id); [by eexists (_, Some _)|].
  intros r [m ->]. by eexists (_, Some _).
Qed.

Lemma ok_diff head watermark cache :
  post S (diff_against_watermark head watermark cache) (λ r, succeeds r.2).
Proof.
  intros now _. simpl. eapply (post_bind _ _ _ (λ r, ∃ cc, r = Ok cc ∧ is_Some cc.2)).
  - unfold closure. eapply (ok_try _ _ _ (λ cc, is_Some cc.2)); [|intros [? ?] []; simpl in *; subst; by eexists (_, Some _)].
    generalize ({[m_id head := manifest_objects head]} : gmap N ManifestObjects).
    induction (m_checkpoints head) as [|cp cps IH] in cache |- *; intros ms; cbn [closure_loop]; [by eexists (_, Some _)|].
    destruct (_ || _); [apply IH|]. eapply ok_try; [apply ok_cache_read|]. intros [? ?] [? ?]; simpl in *; subst. apply IH.
  - intros r ([cache' c] & -> & [c' Hc]). simpl in Hc. subst c. destruct (proven_by _ _ _ _). by eexists.
Qed.

(** Copying succeeds when rclone, if used, has a backend for both URLs. *)
Definition can_copy (copier : Copier) : Prop :=
  cr_kind copier = Config.Rclone →
  succeeds (rclone_remote (source_url (cr_urls copier))) ∧ succeeds (rclone_remote (dest_url (cr_urls copier))).

Lemma ok_copy copier names : can_copy copier → post S (copy copier names) succeeds.
Proof.
  intros Hcan.
  assert (Hb : ∀ names, post S (copy_builtin copier names) succeeds).
  { intros ns. apply ok_then; [|intros b; by eexists].
    apply ok_concurrently. intros p (n & -> & _)%list_elem_of_fmap. unfold copy_object. eapply (ok_try _ _ _ (λ g, succeeds (gr_bytes g))).
    { intros r (g & x & -> & Hg). exists g. split; [done|by exists x]. }
    intros g Hg. destruct (bool_decide _);
      [|apply ok_then; [by apply ok_ask|intros _]];
      (apply ok_then; [exact Hg|intros x; apply ok_then; [by apply ok_ask|intros; by eexists]]). }
  unfold copy. destruct names as [|n names]; [by eexists|].
  unfold can_copy in Hcan. destruct (cr_kind copier); [apply Hb| |apply Hb].
  destruct (Hcan eq_refl). apply ok_then; [done|intros _]. apply ok_then; [done|intros _].
  apply ok_then; [by apply ok_ask|]. intros _. by eexists.
Qed.

(** A pin whose lifetime covers the clock. *)
Definition fresh (pin : Pin) : Prop :=
  pin_lifetime pin = lifetime ∧ (t0 + Z.of_N lifetime ≤ pin_deadline pin)%Z.

Lemma ok_refresh pin : fresh pin → post S (Pin_refresh pin) (λ r, ∃ pin', r = Ok pin' ∧ fresh pin').
Proof.
  intros [Hl _] r [[] ->] now Hnow. simpl in *. eexists. split; [done|]. split; simpl; [done|]. rewrite Hl. lia.
Qed.

Lemma ok_under_pin {A} pin (p : prog A) P :
  fresh pin → post S p P →
  post S (under_pin pin p) (λ r, ∃ x, r = Ok x ∧ fresh x.1 ∧ P x.2).
Proof.
  intros Hpin Hp. induction p as [a|R c k IH] in pin, Hpin, Hp |- *; [by eexists (_, _)|].
  cbn [under_pin]. intros n _. eapply (post_bind _ _ _ (λ r, ∃ pin', r = Ok pin' ∧ fresh pin')).
  - induction n as [|n IHn] in pin, Hpin |- *; [by eexists|]. cbn [refresh_times].
    eapply ok_try; [by apply ok_refresh|]. intros pin' ?. by apply IHn.
  - intros r (pin' & -> & Hp') x Hx. apply IH; [done|]. by apply Hp.
Qed.

(** What is left to fail: the source cannot be mirrored, or the target is not
    its mirror. *)
Definition refused (e : PassError) : Prop :=
  match e with Fatal (Diverged _ _ _ | NotADatabase _ | ExcludedSource _ _) => True | _ => False end.
Definition settled {A} (r : Result PassError A) : Prop :=
  match r with Ok _ => True | Err e => refused e end.

Lemma settled_commit u d head copied : post S (commit u d head copied) settled.
Proof.
  unfold commit. eapply (post_try _ _ _ _ settled); [|done|done].
  generalize 0%N. induction (btree_keys _) as [|id ids IH]; intros n; cbn [commit_loop]; [done|].
  destruct (bool_decide _); [apply IH|]. eapply (post_try _ _ _ _ settled); [|auto|done].
  set (got := λ r : Result StoreError GetResult, ∃ g, r = Ok g ∧ succeeds (gr_bytes g)).
  assert (Hget : ∀ db rel, post S (ask (Get db rel)) got).
  { intros db rel r (g & b & -> & Hb). exists g. split; [done|by exists b]. }
  eapply post_bind; [apply Hget|]. intros r (g & -> & Hb).
  apply ok_then; [exact Hb|intros bytes].
  eapply (post_bind _ _ _ (λ r, r = Ok () ∨ r = Err AlreadyExists)); [exact (λ r Hr, Hr)|]. intros r [-> | ->]; [done|].
  eapply ok_try; [apply Hget|]. intros g' Hb'.
  apply ok_then; [exact Hb'|intros b']. by destruct (bool_decide _).
Qed.

Lemma settled_copy_and_commit u copier d head work pin :
  can_copy copier → fresh pin → post S (copy_and_commit u copier d head work pin) settled.
Proof.
  intros Hc Hpin. unfold copy_and_commit. eapply (ok_try _ _ _ (λ x, fresh x.1)).
  - unfold copy_under_pin. eapply (ok_try _ _ _ (λ x : Pin * Result MirrorError Copied, fresh x.1 ∧ succeeds x.2)).
    + by apply ok_under_pin, ok_copy.
    + intros [pin' r] [Hp [cp Hr]]. simpl in Hp, Hr. subst r. by eexists (_, _).
  - intros [pin' copied] [_ Hd]. simpl in Hd. eapply (post_bind _ _ _ (λ lapsed, lapsed = false)).
    + intros now Hnow. simpl in Hnow. apply bool_decide_eq_false_2. lia.
    + intros lapsed ->. apply settled_commit.
Qed.

Lemma settled_pinned_pass u target settings copier watermark seeding cache :
  rmt_checkpoint_lifetime settings = lifetime → can_copy copier →
  post S (pinned_pass u target settings copier watermark seeding cache) (λ r, settled r.2).
Proof.
  intros Hl Hc. unfold pinned_pass, tryc. eapply (post_bind _ _ _ (λ r, ∃ pin, r = Ok pin ∧ fresh pin)).
  { intros r [[id mid] ->] now Hnow. simpl in *. eexists. split; [done|]. split; [done|]. simpl. rewrite Hl. lia. }
  intros r (pin & -> & Hpin). eapply post_bind; [apply ok_cache_read|].
  intros r ([cache1 head] & -> & [m Hm]). simpl in Hm. subst head.
  eapply post_bind; [apply ok_diff|]. intros [cache2 r] [d Hd]. simpl in Hd. subst r.
  eapply post_bind; [apply ok_plan_work|]. intros r [work ->].
  eapply post_bind; [by apply settled_copy_and_commit|]. intros r Hr. by intros x [].
Qed.

Lemma settled_pass_once u target settings copier cache :
  rmt_checkpoint_lifetime settings = lifetime → can_copy copier →
  post S (pass_once u target settings copier cache) (λ r, settled r.2).
Proof.
  intros Hl Hc. unfold pass_once, tryc. eapply (post_bind _ _ _ settled).
  { unfold read_heads. apply ok_then; [by apply ok_ask|intros watermark].
    apply ok_then; [by apply ok_ask|intros [head|]; [|done]].
    destruct (check_source (source_url u) head) as [|e] eqn:Ec; [|by apply check_source_err in Ec as [_ [? ->]]].
    destruct watermark as [wm|]; [|done]. by destruct (bool_decide _). }
  intros [[watermark head]|e] Hr; [|done]. destruct (bool_decide _); [done|].
  eapply post_bind; [apply ok_diff|]. intros [cache2 r] [d Hd]. simpl in Hd. subst r.
  eapply post_bind; [apply ok_plan_work|]. intros r [[|rel work] ->].
  - eapply post_bind; [apply settled_commit|]. done.
  - by apply settled_pinned_pass.
Qed.

(** With every call succeeding the first attempt is the last. *)
Lemma settled_sync_pass u target settings :
  rmt_checkpoint_lifetime settings = lifetime → can_copy (Copier_new settings u) →
  post S (sync_pass u target settings) (λ r, match r with
    | Ok _ => True
    | Err (Diverged _ _ _ | NotADatabase _ | ExcludedSource _ _) => True
    | Err _ => False end).
Proof.
  intros Hl Hc. unfold sync_pass, MAX_RESTARTS. cbn [sync_loop].
  eapply post_bind; [by apply settled_pass_once|]. intros [cache r] Hr. simpl in Hr.
  by destruct r as [|[|[]]].
Qed.
End smooth.
End progress.
