(* ===== verification/Scenario.v ===== *)
(** * A concrete source for the mirror's witnesses

    Three manifests of a small database: the second adds a checkpoint of
    itself (a pin), the third drops it again.  All three reference
    the WAL SSTs 4 and 5. *)

From Stdlib Require Import Ascii.
From S2P Require Import Prelude Order Text Store Slate Effects Config Registry.
From S2P Require Import Layout Copier Pass Targets Prune Loops Rely MirrorSafety Mirroring Progress.

Module Demo.
Import Registry.Concrete.

Definition pin_cp : Checkpoint :=
  {| cp_id := 7; cp_manifest_id := 2; cp_expire_time := None; cp_create_time := 0; cp_name := Some "sleet-mirror:dr" |}.

(** A manifest is its id; its encoding is as many letters. *)
#[export] Instance slate : SlateLib := {|
  VersionedManifest := N;
  m_id n := n;
  m_l0 _ := [];
  m_compacted _ := [];
  m_segments _ := [];
  m_replay_after_wal_id _ := 3%N;
  m_next_wal_sst_id _ := 6%N;
  m_checkpoints n := if decide (n = 2)%N then [pin_cp] else [];
  m_external_dbs _ := [];
  m_wal_object_store_uri _ := None;
  m_last_l0_seq _ := 0%N;
  m_find_ts _ _ := None;
  manifest_bytes n := of_bytes (replicate (N.to_nat n) "m"%char);
|}.

#[export] Instance slate_laws : SlateLaws.
Proof.
  constructor. intros a b E. apply (f_equal (λ s, List.length (bytes s))) in E.
  simpl in E. rewrite !bytes_of_bytes, !length_replicate in E. lia.
Qed.

Definition content : gmap string string := {[ wal_rel 4 := "four"; wal_rel 5 := "five" ]}.

(** The first [n] manifests. *)
Definition history (n : N) : gmap N N :=
  list_to_map ((λ i, (i, i)) <$> rangeN 1 (n + 1)).

Definition source_at (n : N) (dest : gmap string string) : world :=
  {| w_hist := history n; w_content := content; w_dest := dest; w_time := 100 |}.

Lemma history_lookup n id m : history n !! id = Some m ↔ m = id ∧ (1 ≤ id ≤ n)%N.
Proof.
  unfold history. rewrite <-elem_of_list_to_map.
  - rewrite list_elem_of_fmap. setoid_rewrite elem_of_rangeN. split.
    + intros (i & [= -> ->] & ?). split; [done|lia].
    + intros [-> ?]. exists id. split; [done|lia].
  - rewrite <-list_fmap_compose. rewrite (list_fmap_ext _ (λ i, i)), list_fmap_id by done.
    unfold rangeN. apply NoDup_fmap; [|apply NoDup_seq]. intros i j. lia.
Qed.

Lemma history_mono n n' : (n ≤ n')%N → history n ⊆ history n'.
Proof.
  intros Hn. apply map_subseteq_spec. intros id m. rewrite !history_lookup. lia.
Qed.

Lemma source_wf n dest : (n ≤ 3)%N → wf_source (source_at n dest).
Proof.
  intros Hn.
  assert (Hpin : ∀ (i : N) cp, cp ∈ m_checkpoints i → i = 2%N ∧ cp = pin_cp).
  { intros i cp. simpl. case_decide as E; [by intros ->%list_elem_of_singleton|by intros ?%elem_of_nil]. }
  split; simpl.
  - intros id m [-> ?]%history_lookup. split; [done|]. unfold U64_MAX. lia.
  - intros id m cp [-> ?]%history_lookup Hcp. by destruct (Hpin _ _ Hcp) as [-> ->].
  - intros i j k mi mj mk cpi cpk [-> ?]%history_lookup [-> ?]%history_lookup [-> ?]%history_lookup ? Hi Hk _.
    destruct (Hpin _ _ Hi) as [-> ->], (Hpin _ _ Hk) as [-> _]. assert (j = 2%N) as -> by lia.
    exists pin_cp. split; [by left|done].
  - intros i j mi mj cpi cpj [-> ?]%history_lookup [-> ?]%history_lookup ? Hi Hj _.
    by destruct (Hpin _ _ Hi) as [-> ->], (Hpin _ _ Hj) as [_ ->].
  - intros name. unfold content. by rewrite lookup_insert_ne, lookup_singleton_ne.
  - intros id m wal _. by intros ?%elem_of_nil.
  - intros id m _. simpl. unfold U64_MAX. lia.
Qed.

Lemma source_moves n n' dest : (n ≤ n' ≤ 3)%N → source_step (source_at n dest) (source_at n' dest).
Proof. intros Hn. split; simpl; try done; [apply history_mono; lia|apply source_wf; lia]. Qed.

Lemma source_latest n dest : (1 ≤ n)%N → latest (source_at n dest) n.
Proof.
  intros Hn. split; simpl; [apply history_lookup; lia|]. intros id [m Hm%history_lookup]. lia.
Qed.

(** ** A run of a seeding pass *)
#[export] Instance remote_lib : RemoteLib := {|
  url_path := u_path; to_file_path _ := None; debug_string s := s |}.

Definition urls : Urls := {| source_url := "s3://data/db"; dest_url := "s3://dr/db" |}.
Definition settings : ResolvedMirrorTarget := {|
  rmt_url := Some "s3://dr/db"; rmt_source_prefix := None; rmt_disabled := false;
  rmt_mode := Periodic; rmt_copier := Builtin; rmt_poll := from_secs 10; rmt_interval := from_secs 3600;
  rmt_min_age := from_secs 300; rmt_checkpoint_lifetime := from_secs 900; rmt_copy_parallelism := 8;
  rmt_keep := None |}.
Definition assigned : Assigned :=
  {| as_urls := urls; as_target := {| at_name := "dr"; at_destination := "s3://dr/db"; at_settings := settings |} |}.
Definition seeded : PassOutcome :=
  {| po_head := 2; po_next_wal_sst_id := 6; po_committed := true; po_manifests_committed := 1;
     po_copied := {| cd_objects := 2; cd_bytes := 8 |} |}.
Definition full_target : gmap string string :=
  <[manifest_rel 2 := "mm"]> (<[wal_rel 5 := "five"]> {[ wal_rel 4 := "four" ]}).

Lemma empty_inv n : (n ≤ 3)%N → Inv (source_at n ∅).
Proof. intros Hn. apply empty_target_inv; [by apply source_wf|done]. Qed.

(** One call of a run: its answer and the world after it. *)
Ltac answer r w2 :=
  match goal with
  | |- executes _ _ ?p _ _ => let p' := eval lazy head in p in change p with p'
  end;
  refine (executes_call _ _ w2 _ _ _ r _ _ _ _).
Ltac quiet := split; [reflexivity|].

Ltac pick i w := answer (i : nat) w; [done|done|].
(** A turn of a copy: the pin's timer has not fired, then the choice, then it
    has not fired again. *)
Ltac turn i w := pick 0 w; pick i w; pick 0 w.

Definition object (body : string) : GetResult :=
  {| gr_size := N.of_nat (String.length body); gr_bytes := Ok body |}.

(** The pass's probes and copies overlap: the second copy lands first. *)
Lemma seeding_run :
  executes (smooth 0 (rmt_checkpoint_lifetime settings)) (source_at 1 ∅) (sync_pass urls "dr" settings)
    (source_at 3 full_target) (Ok seeded).
Proof.
  set (d1 := {[ wal_rel 5 := "five" ]} : gmap string string).
  set (d2 := <[wal_rel 4 := "four"]> d1).
  answer (Ok None : Result SlateError (option N)) (source_at 1 ∅);
    [quiet; intros id _; apply lookup_empty|by eexists|].
  answer (Ok (Some 1%N) : Result SlateError (option N)) (source_at 1 ∅);
    [quiet; by apply source_latest|by eexists|].
  answer 100%Z (source_at 1 ∅); [done|done|].
  pick 1 (source_at 1 ∅).
  answer (Err (NotFound "absent") : Result StoreError ()) (source_at 1 ∅); [quiet; apply lookup_empty|by right; eexists|].
  pick 0 (source_at 1 ∅).
  answer (Err (NotFound "absent") : Result StoreError ()) (source_at 1 ∅); [quiet; apply lookup_empty|by right; eexists|].
  pick 0 (source_at 1 ∅). pick 0 (source_at 1 ∅).
  answer (Ok (7%N, 2%N) : Result SlateError (N * N)) (source_at 2 ∅);
    [split; [by apply source_moves|exists 2%N; split; [by apply source_latest|done]]|by eexists|].
  answer 0%Z (source_at 2 ∅); [done|done|].
  answer (Ok (Some 2%N) : Result SlateError (option N)) (source_at 2 ∅);
    [quiet; by apply history_lookup|by eexists|].
  answer 100%Z (source_at 2 ∅); [done|done|].
  pick 0 (source_at 2 ∅).
  answer (Err (NotFound "absent") : Result StoreError ()) (source_at 2 ∅); [quiet; apply lookup_empty|by right; eexists|].
  pick 1 (source_at 2 ∅).
  answer (Err (NotFound "absent") : Result StoreError ()) (source_at 2 ∅); [quiet; apply lookup_empty|by right; eexists|].
  pick 0 (source_at 2 ∅). pick 0 (source_at 2 ∅).
  turn 0 (source_at 2 ∅).
  answer (Ok (object "four") : Result StoreError GetResult) (source_at 2 ∅);
    [quiet; intros b [= <-]; by left|by eexists _, _|].
  turn 1 (source_at 2 ∅).
  answer (Ok (object "five") : Result StoreError GetResult) (source_at 2 ∅);
    [quiet; intros b [= <-]; by left|by eexists _, _|].
  turn 1 (source_at 2 ∅).
  answer (Ok () : Result StoreError ()) (source_at 2 d1); [by left|by eexists|].
  turn 0 (source_at 2 d1).
  answer (Ok () : Result StoreError ()) (source_at 2 d2); [by left|by eexists|].
  pick 0 (source_at 2 d2). pick 0 (source_at 2 d2).
  pick 0 (source_at 2 d2). pick 0 (source_at 2 d2).
  answer 1%Z (source_at 2 d2); [done|done|].
  answer (Ok (object "mm") : Result StoreError GetResult) (source_at 2 d2);
    [quiet; intros b [= <-]; right; exists 2%N, 2%N; split; [done|split; [by apply history_lookup|done]]
    |by eexists _, _|].
  answer (Ok () : Result StoreError ()) (source_at 2 full_target); [split; done|by left|].
  answer (Ok () : Result SlateError ()) (source_at 3 full_target); [by apply source_moves|by eexists|].
  match goal with |- executes _ _ ?p _ _ => let p' := eval vm_compute in p in change p with p' end.
  constructor.
Qed.

(** A periodic task's first iteration: the target is empty, a pass is due. *)
Lemma mirror_run :
  executes any (source_at 1 ∅) (run_mirror 1 assigned) (source_at 3 full_target) (Ok ()).
Proof.
  answer false (source_at 1 ∅); [done|done|].
  answer (Ok [] : Result StoreError (list Listed)) (source_at 1 ∅);
    [quiet; intros name; split; [by intros []|by intros ?%elem_of_nil]|done|].
  answer true (source_at 1 ∅); [done|done|].
  eapply executes_bind; [eapply executes_bind; [eapply executes_bind; [exact (executes_any _ _ _ _ _ seeding_run)|]|]|].
  { cbn beta iota. answer 100%Z (source_at 3 full_target); [done|done|]. constructor. }
  { constructor. }
  answer true (source_at 3 full_target); [done|done|].
  constructor.
Qed.
End Demo.
