(* ===== verification/Requests.v ===== *)
(** * Mirror requests (mirror_lag, mirror_sync and mirror_restore of src/ops.rs)

    The one-shot operations that call the stores: a status probe of one mirror
    with its deadline, one sync and one restore.  The theorems: a probe tells
    the truth about the target, whenever it is cut off; and [mirror sync]
    works on the very pair and settings the node that owns the target uses. *)

From S2P Require Import Prelude Order Text Service Store Root Registry Config Validate Targets Poller Daemon.
From S2P Require Import Slate Effects Layout Copier Pass Prune Restore Loops Services Node Response Ops Rely MirrorSafety Mirroring Progress Scenario.

(** How a probe ended. *)
Inductive LagEnd `{UrlLib} :=
  | LagDone
  | LagFailed (e : OpsError)
  | LagTimedOut.

(** Assignments to fields of the status. *)
Definition set_source (s : MirrorStatus) (id : N) : MirrorStatus := {|
  ms_database := ms_database s; ms_target := ms_target s; ms_destination := ms_destination s;
  ms_source_manifest_id := Some id; ms_dest_manifest_id := ms_dest_manifest_id s;
  ms_manifests_behind := ms_manifests_behind s; ms_wal_behind := ms_wal_behind s;
  ms_seconds_behind := ms_seconds_behind s; ms_error := ms_error s |}.
Definition set_dest_head (s : MirrorStatus) (id : option N) (behind : N) : MirrorStatus := {|
  ms_database := ms_database s; ms_target := ms_target s; ms_destination := ms_destination s;
  ms_source_manifest_id := ms_source_manifest_id s; ms_dest_manifest_id := id;
  ms_manifests_behind := Some behind; ms_wal_behind := ms_wal_behind s;
  ms_seconds_behind := ms_seconds_behind s; ms_error := ms_error s |}.
Definition set_lags (s : MirrorStatus) (wal seconds : option N) : MirrorStatus := {|
  ms_database := ms_database s; ms_target := ms_target s; ms_destination := ms_destination s;
  ms_source_manifest_id := ms_source_manifest_id s; ms_dest_manifest_id := ms_dest_manifest_id s;
  ms_manifests_behind := ms_manifests_behind s; ms_wal_behind := wal;
  ms_seconds_behind := seconds; ms_error := ms_error s |}.
Definition set_error (s : MirrorStatus) (error : string) : MirrorStatus := {|
  ms_database := ms_database s; ms_target := ms_target s; ms_destination := ms_destination s;
  ms_source_manifest_id := ms_source_manifest_id s; ms_dest_manifest_id := ms_dest_manifest_id s;
  ms_manifests_behind := ms_manifests_behind s; ms_wal_behind := ms_wal_behind s;
  ms_seconds_behind := ms_seconds_behind s; ms_error := Some error |}.
Definition fresh_status (url : string) (target : AppliedTarget) : MirrorStatus := {|
  ms_database := url; ms_target := at_name target; ms_destination := at_destination target;
  ms_source_manifest_id := None; ms_dest_manifest_id := None; ms_manifests_behind := None;
  ms_wal_behind := None; ms_seconds_behind := None; ms_error := None |}.

Section requests.
Context `{SlateLib, UrlLib, PercentLib, !ServiceLib}.

(** ** Lag *)

(** One awaited read, the [k]-th; the deadline passes before the answer to
    the read numbered [deadline]. *)
Definition probed {R} (deadline k : nat) (s : MirrorStatus) (p : prog (Result MirrorError R))
    (f : R → prog (MirrorStatus * LagEnd)) : prog (MirrorStatus * LagEnd) :=
  if bool_decide (deadline ≤ k) then Ret (s, LagTimedOut)
  else
    r <- p;;
    match r with
    | Ok x => f x
    | Err e => Ret (s, LagFailed (OpsMirror e))
    end.

Definition read_head (db : Site) : prog (Result MirrorError (option VersionedManifest)) :=
  head <-?{MSlateDb} ask (ReadManifest db None);;
  Ret (Ok head).

(** [list_wals(..).await?.last().map(|(id, _)| *id)] *)
Definition last_wal_id (db : Site) : prog (Result MirrorError (option N)) :=
  wals <-? list_wals db;;
  Ret (Ok (fst <$> last wals)).

(** [(source_ts - dest_ts).num_seconds().max(0)], when both are known. *)
Definition seconds_behind (source_head dest_head : VersionedManifest) : option N :=
  source_ts ← m_find_ts source_head (m_last_l0_seq source_head);
  dest_ts ← m_find_ts source_head (m_last_l0_seq dest_head);
  Some (Z.to_N (Z.max 0 (Z.quot (source_ts - dest_ts) 1000000000))).

(** After the two heads: the WAL ids and the sequence tracker. *)
Definition mirror_wal_lag (deadline : nat) (source_head dest_head : VersionedManifest) (s : MirrorStatus)
    : prog (MirrorStatus * LagEnd) :=
  probed deadline 2 s (last_wal_id Source) (λ source_wal,
    probed deadline 3 s (last_wal_id Dest) (λ dest_wal,
      let wal := (λ id, id - default 0 dest_wal)%N <$> source_wal in
      Ret (set_lags s wal (seconds_behind source_head dest_head), LagDone))).

(** [mirror_lag] after the two handles are open. *)
Definition mirror_heads (deadline : nat) (url : string) (s : MirrorStatus) : prog (MirrorStatus * LagEnd) :=
  probed deadline 0 s (read_head Source) (λ source_head,
    match source_head with
    | None => Ret (s, LagFailed (OpsMirror (NotADatabase url)))
    | Some source_head =>
        let s := set_source s (m_id source_head) in
        probed deadline 1 s (read_head Dest) (λ dest_head,
          match dest_head with
          | None => Ret (set_dest_head s None (m_id source_head), LagDone)
          | Some dest_head =>
              let s := set_dest_head s (Some (m_id dest_head)) (m_id source_head - m_id dest_head) in
              mirror_wal_lag deadline source_head dest_head s
          end)
    end).

(** Two handles opened one after the other, each with [?]; [None] is a panic
    of [DatabaseHandle::open]. *)
Definition open_pair (source dest : string) : option (Result ServiceError (DatabaseHandle * DatabaseHandle)) :=
  source ← DatabaseHandle_open source;
  match source with
  | Err e => Some (Err e)
  | Ok source => dest ← DatabaseHandle_open dest; Some (dest ← dest; Ok (source, dest))
  end.

Definition mirror_lag (deadline : nat) (url : string) (target : AppliedTarget) (s : MirrorStatus)
    : option (prog (MirrorStatus * LagEnd)) :=
  handles ← open_pair url (at_destination target);
  Some match handles with
       | Err e => Ret (s, LagFailed (OpsService e))
       | Ok _ => mirror_heads deadline url s
       end.

(** [e.to_string()] of an [OpsError], which quotes third-party errors. *)
Context (ops_error_string : OpsError → string).

Definition settle (r : MirrorStatus * LagEnd) : MirrorStatus :=
  match r.2 with
  | LagDone => r.1
  | LagFailed e => set_error r.1 (ops_error_string e)
  | LagTimedOut =>
      set_error r.1 ("lag read timed out after " +:+ decimal (as_secs STATUS_PROBE_TIMEOUT) +:+ "s")
  end.

Definition mirror_status (deadline : nat) (url : string) (target : AppliedTarget) : option (prog MirrorStatus) :=
  lag ← mirror_lag deadline url target (fresh_status url target);
  Some (r <- lag;; Ret (settle r)).

(** ** Sync and restore *)

Context `{StoreLib, !ConfigLib, !RemoteLib}.
Context (utf8_error : string → string).

Definition sync_response (canonical : string) (target : AppliedTarget) (r : PassOutcome * PruneReport)
    : MirrorSyncResponse :=
  let '(outcome, pruned) := r in {|
  msr_database := canonical; msr_target := at_name target; msr_destination := at_destination target;
  msr_head := po_head outcome; msr_committed := po_committed outcome;
  msr_manifests_committed := po_manifests_committed outcome;
  msr_objects_copied := cd_objects (po_copied outcome); msr_bytes_copied := cd_bytes (po_copied outcome);
  msr_pruned_manifests := pr_deleted_manifests pruned; msr_pruned_objects := pr_deleted_objects pruned |}.

(** The handles' URLs, for the programs that run over them. *)
Definition urls_of (handles : DatabaseHandle * DatabaseHandle) : Urls :=
  {| source_url := dh_url handles.1; dest_url := dh_url handles.2 |}.

Definition mirror_sync (root : FleetRoot) (reads : PollReads) (db_url target_name : string)
    : option (prog (Result OpsError MirrorSyncResponse)) :=
  match applied_target utf8_error root reads db_url target_name with
  | Err e => Some (Ret (Err e))
  | Ok (canonical, target) =>
      handles ← open_pair canonical (at_destination target);
      Some match handles with
           | Err e => Ret (Err (OpsService e))
           | Ok handles =>
               r <-?{OpsMirror} sync_once {| as_urls := urls_of handles; as_target := target |};;
               Ret (Ok (sync_response canonical target r))
           end
  end.

Context `{!ChronoLib}.

Definition restore_response (handles : DatabaseHandle * DatabaseHandle) (r : RestoreOutcome) : MirrorRestoreResponse := {|
  mrr_backup := dh_url handles.1; mrr_destination := dh_url handles.2; mrr_manifest_id := ro_manifest_id r;
  mrr_manifests_committed := ro_manifests_committed r; mrr_objects_copied := ro_copied_objects r;
  mrr_bytes_copied := ro_copied_bytes r |}.

Definition mirror_restore (backup_url dest_url : string) (at_ : RestorePoint)
    : option (prog (Result OpsError MirrorRestoreResponse)) :=
  handles ← open_pair backup_url dest_url;
  Some match handles with
       | Err e => Ret (Err (OpsService e))
       | Ok handles =>
           r <-?{OpsMirror} restore (urls_of handles) at_;;
           Ret (Ok (restore_response handles r))
       end.
End requests.

(** ** What a probe reports *)
Section lag.
Context `{SlateLib, !SlateLaws, UrlLib, PercentLib, !ServiceLib}.
Implicit Types (w : world) (s : MirrorStatus).

(** The fields set so far, against the world [w0] the probe began in. *)
Record reported w0 s w : Prop := {
  rp_source : ∀ i, ms_source_manifest_id s = Some i →
    is_Some (w_hist w !! i) ∧ ∀ id, is_Some (w_hist w0 !! id) → (id ≤ i)%N;
  rp_dest : ∀ j, ms_dest_manifest_id s = Some j →
    (j ≤ U64_MAX)%N ∧ at_dest w (manifest_rel j) ∧
    ∀ id, (id ≤ U64_MAX)%N → at_dest w0 (manifest_rel id) → (id ≤ j)%N;
  rp_behind : ∀ b, ms_manifests_behind s = Some b → ∃ i, ms_source_manifest_id s = Some i ∧
    match ms_dest_manifest_id s with
    | Some j => b = (i - j)%N
    | None => b = i ∧ ∀ id, (id ≤ U64_MAX)%N → ¬ at_dest w0 (manifest_rel id)
    end;
}.

Lemma reported_fresh url target w0 w : reported w0 (fresh_status url target) w.
Proof. by split. Qed.

Lemma reported_rely w0 s w w' : rely w w' → reported w0 s w → reported w0 s w'.
Proof.
  intros Hr [Hs Hd Hb]. split; [| |done].
  - intros i Hi. destruct (Hs i Hi) as [[m Hm] ?]. split; [|done]. exists m. by eapply hist_rely.
  - intros j Hj. destruct (Hd j Hj) as (? & ? & ?). split_and!; [done|by eapply at_dest_rely|done].
Qed.

Lemma reported_ext w0 s s' w :
  ms_source_manifest_id s' = ms_source_manifest_id s → ms_dest_manifest_id s' = ms_dest_manifest_id s →
  ms_manifests_behind s' = ms_manifests_behind s → reported w0 s w → reported w0 s' w.
Proof. intros E1 E2 E3 [Hs Hd Hb]. split; rewrite ?E1, ?E2, ?E3; done. Qed.

(** A finished probe has read both heads. *)
Definition probe_ok w0 (r : MirrorStatus * LagEnd) w : Prop :=
  reported w0 r.1 w ∧ (r.2 = LagDone → is_Some (ms_manifests_behind r.1)).

Lemma wp_probed {R} deadline k s (p : prog (Result MirrorError R)) f P w0 w :
  Inv w → reported w0 s w → wp p P w →
  (∀ x w', rely w w' → P (Ok x) w' → wp (f x) (probe_ok w0) w') →
  wp (probed deadline k s p f) (probe_ok w0) w.
Proof.
  intros Hi Hs Hp Hf. unfold probed. case_bool_decide; [by apply wp_ret|].
  eapply wp_then; [done|exact Hp|]. intros [x|e] w' Hr HP; [by apply Hf|].
  apply wp_ret. split; [by eapply reported_rely|done].
Qed.

Lemma wp_last_wal_id db w : Inv w → wp (last_wal_id db) (λ _ _, True) w.
Proof.
  intros Hi. unfold last_wal_id, list_wals, list_dir.
  eapply (wp_try _ _ _ (λ _ _, True)); [done| |intros; by apply wp_ret|done].
  eapply (wp_try _ _ _ (λ _ _, True)); [done| |intros; by apply wp_ret|done].
  eapply (wp_then _ _ (λ _ _, True)); [done|by wp_read|]. intros [|[]] w1 _ _; by apply wp_ret.
Qed.

Lemma wp_wal_lag deadline source_head dest_head s w0 w :
  Inv w → reported w0 s w → is_Some (ms_manifests_behind s) →
  wp (mirror_wal_lag deadline source_head dest_head s) (probe_ok w0) w.
Proof.
  intros Hi Hs Hb. unfold mirror_wal_lag.
  eapply wp_probed; [done|done|by apply wp_last_wal_id|]. intros source_wal w1 Hw1 _.
  eapply wp_probed; [apply Hw1|by eapply reported_rely|apply wp_last_wal_id, Hw1|]. intros dest_wal w2 Hw2 _.
  apply wp_ret. split; [|done]. eapply (reported_ext w0 s); [done..|]. by do 2 (eapply reported_rely; [done|]).
Qed.

Lemma wp_read_source w0 w :
  Inv w → rely w0 w →
  wp (read_head Source) (λ r w', match r with
    | Ok (Some m) => w_hist w' !! m_id m = Some m ∧ ∀ id, is_Some (w_hist w0 !! id) → (id ≤ m_id m)%N
    | _ => True end) w.
Proof.
  intros Hi Hw0. unfold read_head. eapply (wp_try _ _ _ (λ r w', match r with
    | Ok (Some m) => w_hist w' !! m_id m = Some m ∧ ∀ id, is_Some (w_hist w0 !! id) → (id ≤ m_id m)%N
    | _ => True end)); [done| |intros; by apply wp_ret|done].
  wp_read. destruct r as [[m|]|]; [|done..]. destruct Hres as [Hm Hl]. split; [done|].
  intros id [x Hx]. apply Hl. exists x. do 2 (eapply hist_rely; [done|]). done.
Qed.

Lemma wp_read_dest w0 w :
  Inv w → rely w0 w →
  wp (read_head Dest) (λ r w', match r with
    | Ok (Some m) => (m_id m ≤ U64_MAX)%N ∧ at_dest w' (manifest_rel (m_id m)) ∧
        ∀ id, (id ≤ U64_MAX)%N → at_dest w0 (manifest_rel id) → (id ≤ m_id m)%N
    | Ok None => ∀ id, (id ≤ U64_MAX)%N → ¬ at_dest w0 (manifest_rel id)
    | Err _ => True end) w.
Proof.
  intros Hi Hw0. unfold read_head. eapply (wp_try _ _ _ (λ r w', match r with
    | Ok (Some m) => (m_id m ≤ U64_MAX)%N ∧ at_dest w' (manifest_rel (m_id m)) ∧
        ∀ id, (id ≤ U64_MAX)%N → at_dest w0 (manifest_rel id) → (id ≤ m_id m)%N
    | Ok None => ∀ id, (id ≤ U64_MAX)%N → ¬ at_dest w0 (manifest_rel id)
    | Err _ => True end)); [done| |intros; by apply wp_ret|done].
  wp_read. assert (Hw2 : rely w0 w1) by (by etrans). destruct r as [[m|]|]; [| |done].
  - destruct Hres as [(Hid & Hat & Hmax) _]. split_and!; [done|done|].
    intros id Hle Hx. apply Hmax; [done|]. by apply (at_dest_rely w0).
  - intros id Hle Hx. apply (at_dest_rely w0 w1) in Hx as [b Hb]; [|done]. by rewrite Hres in Hb.
Qed.

Lemma wp_mirror_heads deadline url target w :
  Inv w → wp (mirror_heads deadline url (fresh_status url target)) (probe_ok w) w.
Proof.
  intros Hi. pose proof (rely_refl w Hi) as Hw0. unfold mirror_heads.
  eapply wp_probed; [done|apply reported_fresh|by eapply wp_read_source|].
  intros [source_head|] w1 Hw1 Hsource; [|apply wp_ret; split; [apply reported_fresh|done]].
  assert (Hs1 : reported w (set_source (fresh_status url target) (m_id source_head)) w1).
  { split; [|done|done]. intros i [= <-]. destruct Hsource. split; [by eexists|done]. }
  eapply wp_probed; [apply Hw1|done|eapply wp_read_dest; [apply Hw1|done]|].
  intros dest_head w2 Hw2 Hdest. apply (reported_rely _ _ _ _ Hw2) in Hs1.
  destruct dest_head as [dest_head|].
  - apply wp_wal_lag; [apply Hw2| |by eexists]. split; [apply Hs1|by intros j [= <-]|].
    intros b [= <-]. by exists (m_id source_head).
  - apply wp_ret. split; [|by eexists]. split; [apply Hs1|done|].
    intros b [= <-]. by exists (m_id source_head).
Qed.
End lag.

(** ** The claims *)
Section claims.
Context `{SlateLib, !SlateLaws, UrlLib, PercentLib, !ServiceLib}.
Implicit Types (w : world).


Context `{StoreLib, !ConfigLib, !RemoteLib}.
Context (utf8_error : string → string).

(** Opening the pair of a mirror task. *)
Lemma task_body_mirror url name resolved applied :
  List.find (λ t, bool_decide (at_name t = name)) (applied_targets url (rs_mirror resolved)) = Some applied →
  task_body (url, Mirror, Some name) resolved =
    (handles ← open_pair url (at_destination applied);
     Some match handles with Err e => OpenFails e | Ok handles => RunsMirror handles.1 handles.2 applied end).
Proof.
  intros Hf. unfold task_body, open_pair, with_open. simpl. rewrite Hf.
  destruct (DatabaseHandle_open url) as [[source|e]|]; [|done..]. simpl.
  by destruct (DatabaseHandle_open (at_destination applied)) as [[dest|e]|].
Qed.

(** [applied_target] with its [?]s written out. *)
Lemma applied_target_eq root reads db_url name :
  applied_target utf8_error root reads db_url name =
  let state := (poll utf8_error root reads ConfigPoller_default).2 in
  match canonicalize_database_url db_url with
  | Err e => Err (OpsUrl e)
  | Ok url =>
      match fs_databases state !! url with
      | None => Err (NotRegistered url)
      | Some db =>
          match List.find (λ t, bool_decide (at_name t = name))
                  (applied_targets url (rs_mirror (resolve (fs_config state) (Some db)))) with
          | None => Err (NoSuchTarget name url)
          | Some applied => Ok (url, applied)
          end
      end
  end.
Proof. unfold applied_target. by destruct (canonicalize_database_url db_url). Qed.

(** C19: [mirror sync] on every branch, against the same reading of the fleet
    root: a bad URL, an unregistered database and a target that does not apply
    are refused before any store of a database is touched; otherwise it does
    what the owning node's task would start with: it fails to open, or panics,
    exactly when the task does, and else it runs one sync and prune over the
    very source, destination and target settings of the task. *)
Theorem mirror_sync_is_the_task root reads db_url name :
  let state := (poll utf8_error root reads ConfigPoller_default).2 in
  match canonicalize_database_url db_url with
  | Err e => mirror_sync utf8_error root reads db_url name = Some (Ret (Err (OpsUrl e)))
  | Ok url =>
      match fs_databases state !! url with
      | None => mirror_sync utf8_error root reads db_url name = Some (Ret (Err (NotRegistered url)))
      | Some db =>
          let resolved := resolve (fs_config state) (Some db) in
          (name ∉ at_name <$> applied_targets url (rs_mirror resolved) →
             mirror_sync utf8_error root reads db_url name = Some (Ret (Err (NoSuchTarget name url)))) ∧
          (name ∈ at_name <$> applied_targets url (rs_mirror resolved) →
             match task_body (url, Mirror, Some name) resolved with
             | Some (RunsMirror source dest target) =>
                 at_name target = name ∧ target ∈ applied_targets url (rs_mirror resolved) ∧
                 mirror_sync utf8_error root reads db_url name = Some (
                   r <-?{OpsMirror} sync_once {| as_urls := urls_of (source, dest); as_target := target |};;
                   Ret (Ok (sync_response url target r)))
             | Some (OpenFails e) => mirror_sync utf8_error root reads db_url name = Some (Ret (Err (OpsService e)))
             | None => mirror_sync utf8_error root reads db_url name = None
             | _ => False
             end)
      end
  end.
Proof.
  intros state. unfold mirror_sync. rewrite applied_target_eq. fold state. cbv zeta.
  destruct (canonicalize_database_url db_url) as [url|e]; [|done].
  destruct (fs_databases state !! url) as [db|]; [|done]. set (resolved := resolve (fs_config state) (Some db)).
  destruct (List.find (λ t, bool_decide (at_name t = name)) (applied_targets url (rs_mirror resolved)))
    as [applied|] eqn:Hf.
  - destruct (List.find_some _ _ Hf) as [Hin Hname%bool_decide_eq_true]. apply list_elem_of_In in Hin.
    split; [intros Hn; destruct Hn; rewrite <-Hname; by apply list_elem_of_fmap_2|]. intros _.
    rewrite (task_body_mirror _ _ _ _ Hf). destruct (open_pair url (at_destination applied)) as [[[s d]|e]|]; done.
  - split; [done|]. intros (t & -> & Ht)%list_elem_of_fmap. apply list_elem_of_In in Ht.
    pose proof (List.find_none _ _ Hf t Ht) as Hne. simpl in Hne. by rewrite bool_decide_eq_false in Hne.
Qed.
End claims.

(** ** Examples *)
Import Store.Concrete Registry.Concrete Scenario.Demo.
#[local] Existing Instance Poller.example_lib.
#[local] Instance example_services : ServiceLib := {|
  kind_is_fenced _ := false; StoreRoot := string; store_parse_url u := Ok (u_host u) |}.

(** One manifest at the source, nothing at the target. *)
Definition behind_status : MirrorStatus :=
  set_dest_head (set_source (fresh_status "s3://data/db" (as_target assigned)) 1) None 1.


Lemma mirror_sync_is_the_task_witness :
  mirror_sync (λ b, b) example_root (example_reads EmptyString "c" EmptyString "t") "s3://b/db" "dr" =
    Some (Ret (Err (NoSuchTarget "dr" "s3://b/db"))).
Proof.
  pose proof (mirror_sync_is_the_task (λ b, b) example_root (example_reads EmptyString "c" EmptyString "t")
    "s3://b/db" "dr") as Hsync. cbv zeta in Hsync.
  set (state := (poll _ _ _ _).2) in Hsync.
  assert (Hurl : canonicalize_database_url "s3://b/db" = Ok "s3://b/db") by (vm_compute; reflexivity).
  assert (Hdb : ∃ db, fs_databases state !! "s3://b/db" = Some db ∧
    applied_targets "s3://b/db" (rs_mirror (resolve (fs_config state) (Some db))) = []).
  { eexists. split; vm_compute; reflexivity. }
  destruct Hdb as (db & Hdb & Hnone). rewrite Hurl, Hdb in Hsync. apply Hsync. rewrite Hnone. apply not_elem_of_nil.
Defined.
