(* ===== verification/Api.v ===== *)
(** * The programmatic API and the command line (src/api.rs, src/main.rs)

    [Fleet]'s operations over those of [Ops], [Requests] and [Node], their
    errors, and what each subcommand asks of them.  The theorem: which node a
    command line starts, and why it refuses to. *)

From S2P Require Import Prelude Order Text Service Heartbeat Store Root Registry Config Validate Targets Poller Daemon.
From S2P Require Import Slate Effects Layout Copier Pass Prune Restore Services Node Response Ops Requests.

Inductive OpenErrorOf (PE : Type) :=
  | OpenUrl (e : UrlErrorOf PE)
  | OpenStore (e : StoreError).
Arguments OpenUrl {PE} e.
Arguments OpenStore {PE} e.

Inductive DaemonErrorOf (PE : Type) :=
  | DaemonNodeId (reason : string)
  | DaemonRoot (e : OpenErrorOf PE).
Arguments DaemonNodeId {PE} reason.
Arguments DaemonRoot {PE} e.

Inductive ErrorOf (PE : Type) :=
  | FleetRootUrl (e : UrlErrorOf PE)
  | FleetRootStore (e : StoreError)
  | ErrorUrl (e : UrlErrorOf PE)
  | ErrorStore (e : StoreError)
  | ErrorNotRegistered (url : string)
  | NoSuchMirrorTarget (target url : string)
  | ErrorService (e : ServiceErrorOf PE)
  | ErrorMirror (e : MirrorError)
  | InvalidNodeId (reason : string)
  | DuplicateService (service : Service).
Arguments FleetRootUrl {PE} e.
Arguments FleetRootStore {PE} e.
Arguments ErrorUrl {PE} e.
Arguments ErrorStore {PE} e.
Arguments ErrorNotRegistered {PE} url.
Arguments NoSuchMirrorTarget {PE} target url.
Arguments ErrorService {PE} e.
Arguments ErrorMirror {PE} e.
Arguments InvalidNodeId {PE} reason.
Arguments DuplicateService {PE} service.
Abbreviation Error := (ErrorOf UrlParseError).

(** The [From] conversions. *)
Definition from_open {PE} (e : OpenErrorOf PE) : ErrorOf PE :=
  match e with OpenUrl e => FleetRootUrl e | OpenStore e => FleetRootStore e end.
Definition from_ops {PE} (e : OpsErrorOf PE) : ErrorOf PE :=
  match e with
  | OpsUrl e => ErrorUrl e
  | OpsStore e => ErrorStore e
  | NotRegistered url => ErrorNotRegistered url
  | NoSuchTarget target url => NoSuchMirrorTarget target url
  | OpsService e => ErrorService e
  | OpsMirror e => ErrorMirror e
  end.
Definition from_daemon {PE} (e : DaemonErrorOf PE) : ErrorOf PE :=
  match e with DaemonNodeId reason => InvalidNodeId reason | DaemonRoot e => from_open e end.

Record StatusOptions := { so_compactions : bool; so_mirrors : bool }.
Definition StatusOptions_default : StatusOptions := {| so_compactions := false; so_mirrors := false |}.
Definition with_compactions (o : StatusOptions) (enabled : bool) : StatusOptions :=
  {| so_compactions := enabled; so_mirrors := so_mirrors o |}.
Definition with_mirrors (o : StatusOptions) (enabled : bool) : StatusOptions :=
  {| so_compactions := so_compactions o; so_mirrors := enabled |}.

(** [services.iter().find(..)] with the set's [insert]. *)
Fixpoint find_duplicate (seen : gset Service) (services : list Service) : option Service :=
  match services with
  | [] => None
  | s :: services => if decide (s ∈ seen) then Some s else find_duplicate ({[s]} ∪ seen) services
  end.

Section api.
Context `{SlateLib, UrlLib, PercentLib, !ServiceLib, StoreLib, !ConfigLib, !RemoteLib, !ChronoLib}.
(** The path [object_store::parse_url_opts] returns with the store. *)
Context (root_path : StoreRoot → StorePath) (utf8_error : string → string).

(** [FleetRoot::open]; [None] is the panic of [expect("canonical URL reparses")]. *)
Definition FleetRoot_open (url : string) : option (Result (OpenErrorOf UrlParseError) FleetRoot) :=
  match canonicalize_url url with
  | Err e => Some (Err (OpenUrl e))
  | Ok canonical =>
      match url_parse canonical with
      | Err _ => None
      | Ok parsed =>
          Some (store ← map_err OpenStore (store_parse_url parsed);
                Ok {| fr_prefix := root_path store; fr_url := canonical |})
      end
  end.

(** A [Fleet] is its root. *)
Definition Fleet_open (url : string) : option (Result Error FleetRoot) :=
  root ← FleetRoot_open url; Some (map_err from_open root).

Definition Fleet_register (root : FleetRoot) (database_url : string) (put : StorePath → Result StoreError unit)
    : option (Result Error RegisterResponse) :=
  r ← register root database_url put; Some (map_err from_ops r).

Definition Fleet_status (root : FleetRoot) (reads : PollReads) (r : StatusReads) (options : StatusOptions)
    : Result Error StatusResponse :=
  map_err from_ops (status utf8_error root reads r (so_compactions options) (so_mirrors options)).

Definition Fleet_sync_mirror (root : FleetRoot) (reads : PollReads) (database_url target : string)
    : option (prog (Result Error MirrorSyncResponse)) :=
  p ← mirror_sync utf8_error root reads database_url target; Some (r <- p;; Ret (map_err from_ops r)).

(** The node [run_node] runs, unless it refuses. *)
Definition run_node (root : FleetRoot) (options : NodeOptions) : Result Error Node :=
  match find_duplicate ∅ (no_services options) with
  | Some duplicate => Err (DuplicateService duplicate)
  | None => map_err (from_daemon ∘ DaemonNodeId) (start root options)
  end.

Definition api_mirror_restore (backup_url destination_url : string) (point : RestorePoint)
    : option (prog (Result Error MirrorRestoreResponse)) :=
  p ← mirror_restore backup_url destination_url point; Some (r <- p;; Ret (map_err from_ops r)).

(** ** The command line *)

Inductive Format := FormatText | FormatJson.

(** A parsed command line. *)
Inductive Command :=
  | Run (root node_id : string) (services : list Service) (max_mirror_jobs : option N) (rclone : option string)
  | Status (root : string) (compactions mirrors : bool) (format : Format)
  | Register (root db : string) (format : Format)
  | MirrorSync (root db target : string) (rclone : option string) (format : Format)
  | MirrorRestore (backup dest : string) (at_ : option string) (format : Format).

(** What it asks for: a failure printed, or an operation and how to print its
    response. *)
Inductive Action :=
  | FailDuplicate (service : Service)
  | FailPoint (message : string)
  | FailError (e : Error)
  | RunNode (node : Node)
  | AskStatus (root : FleetRoot) (options : StatusOptions) (format : Format)
  | AskRegister (root : FleetRoot) (db : string) (format : Format)
  | AskSync (root : FleetRoot) (db target : string) (rclone : option string) (format : Format)
  | AskRestore (backup dest : string) (at_ : RestorePoint) (format : Format).

Definition opened (url : string) (k : FleetRoot → Action) : option Action :=
  fleet ← Fleet_open url;
  Some match fleet with Err e => FailError e | Ok root => k root end.

(** The options of [Run]; [parallelism] is the machine's. *)
Definition run_options (parallelism : option N) (node_id : string) (services : list Service)
    (max_mirror_jobs : option N) (rclone : option string) : NodeOptions :=
  let options := with_services (NodeOptions_new parallelism node_id) services in
  let options := match max_mirror_jobs with Some jobs => with_max_mirror_jobs options jobs | None => options end in
  match rclone with Some rclone => with_rclone options rclone | None => options end.

Definition main (parallelism : option N) (command : Command) : option Action :=
  match command with
  | Run root node_id services max_mirror_jobs rclone =>
      match find_duplicate ∅ services with
      | Some dup => Some (FailDuplicate dup)
      | None =>
          let options := run_options parallelism node_id services max_mirror_jobs rclone in
          opened root (λ fleet, match run_node fleet options with Ok node => RunNode node | Err e => FailError e end)
      end
  | Status root compactions mirrors format =>
      let options := with_mirrors (with_compactions StatusOptions_default compactions) mirrors in
      opened root (λ fleet, AskStatus fleet options format)
  | Register root db format => opened root (λ fleet, AskRegister fleet db format)
  | MirrorSync root db target rclone format => opened root (λ fleet, AskSync fleet db target rclone format)
  | MirrorRestore backup dest at_ format =>
      match at_ with
      | None => Some (AskRestore backup dest PointLatest format)
      | Some at_ =>
          Some match RestorePoint_parse at_ with
               | Ok point => AskRestore backup dest point format
               | Err e => FailPoint e
               end
      end
  end.
End api.

(** ** Which node a command line starts *)

Lemma find_duplicate_spec seen services :
  match find_duplicate seen services with
  | Some s => ∃ pre post, services = pre ++ s :: post ∧ NoDup pre ∧ (∀ x, x ∈ pre → x ∉ seen) ∧ (s ∈ pre ∨ s ∈ seen)
  | None => NoDup services ∧ ∀ x, x ∈ services → x ∉ seen
  end.
Proof.
  revert seen. induction services as [|s services IH]; intros seen; simpl.
  { split; [constructor|]. by intros x ?%elem_of_nil. }
  case_decide as Hs.
  { exists [], services. split; [done|]. split; [constructor|]. split; [by intros x ?%elem_of_nil|by right]. }
  specialize (IH ({[s]} ∪ seen)). destruct (find_duplicate _ services) as [d|].
  - destruct IH as (pre & post & -> & Hnd & Hfresh & Hd). exists (s :: pre), post. split; [done|].
    assert (Hns : s ∉ pre) by (intros Hin; specialize (Hfresh s Hin); set_solver).
    split; [by constructor|]. split; [|set_solver]. intros x [->|Hx]%elem_of_cons; [done|].
    specialize (Hfresh x Hx). set_solver.
  - destruct IH as [Hnd Hfresh]. split.
    + constructor; [|done]. intros Hin. specialize (Hfresh s Hin). set_solver.
    + intros x [->|Hx]%elem_of_cons; [done|]. specialize (Hfresh x Hx). set_solver.
Qed.

Section claims.
Context `{UrlLib, PercentLib, !ServiceLib, StoreLib, !ConfigLib, !RemoteLib, !ChronoLib}.
Context (root_path : StoreRoot → StorePath).

Definition valid_id (id : string) : Prop :=
  1 ≤ String.length id ≤ 128 ∧ ∀ c, c ∈ bytes id → node_id_char c = true.

Lemma start_spec root options :
  match start root options with
  | Ok node => valid_id (no_node_id options) ∧ nd_options node = options ∧ nd_root node = root ∧
      nd_object_name node = object_name (no_node_id options) (no_services options) ∧
      nd_mirror_jobs node = N.max (no_max_mirror_jobs options) 1
  | Err _ => ¬ valid_id (no_node_id options)
  end.
Proof.
  unfold start, validate_node_id, valid_id, is_empty.
  destruct (negb _ && _ && _) eqn:Hok; simpl.
  - apply andb_prop in Hok as [[Hne Hlen]%andb_prop Hall]. rewrite all_bytes_spec in Hall.
    apply bool_decide_eq_true in Hlen. apply negb_true_iff, bool_decide_eq_false in Hne.
    split; [|done]. split; [|done]. destruct (no_node_id options); simpl in *; [done|lia].
  - intros [Hlen Hall]. apply andb_false_iff in Hok as [Hok|Hok].
    + apply andb_false_iff in Hok as [Hok|Hok].
      * apply negb_false_iff, bool_decide_eq_true in Hok. rewrite Hok in Hlen. simpl in Hlen. lia.
      * apply bool_decide_eq_false in Hok. lia.
    + by rewrite (proj2 (all_bytes_spec _ _) Hall) in Hok.
Qed.

Lemma run_options_fields parallelism id services jobs rclone :
  let o := run_options parallelism id services jobs rclone in
  no_node_id o = id ∧ no_services o = services ∧ no_rclone o = rclone ∧
  no_max_mirror_jobs o = match jobs with Some jobs => N.max jobs 1 | None => default 4%N parallelism end.
Proof. by destruct jobs, rclone. Qed.

End claims.

(** ** Examples *)
Import Store.Concrete Registry.Concrete Scenario.Demo.
#[local] Existing Instance Poller.example_lib.
#[local] Instance example_services : ServiceLib := {|
  kind_is_fenced _ := false; StoreRoot := string; store_parse_url u := Ok (u_host u) |}.
#[local] Instance example_chrono : ChronoLib := {|
  parse_from_rfc3339 _ := None; to_rfc3339 _ := EmptyString; debug_time _ := EmptyString |}.

Definition bucket_root (bucket : StoreRoot) : StorePath := [bucket].

