(* ===== verification/Cli.v ===== *)
(** * What a command line prints and exits with (src/main.rs, src/store.rs)

    [main] of [Api] up to the operation a command line asks for; here what
    becomes of its answer: the texts of the errors, [emit] and [fail].  Also
    the environment options a store is opened with. *)

From S2P Require Import Prelude Order Text Service Heartbeat Store Root Registry Config Validate Targets Poller Daemon.
From S2P Require Import Slate Effects Layout Copier Pass Prune Restore Services Node Response Ops Render Requests Api.

(** [parse_url] of store.rs: the variables whose name and value are Unicode,
    in the environment's order; [into_string] is [OsString::into_string]. *)
Section environment.
Context {OsString : Type} (into_string : OsString → option string).
Definition env_options (vars : list (OsString * OsString)) : list (string * string) :=
  omap (λ kv, key ← into_string kv.1; value ← into_string kv.2; Some (key, value)) vars.
Definition store_open {Url Opened} (parse_url_opts : Url → list (string * string) → Opened)
    (vars : list (OsString * OsString)) (url : Url) : Opened :=
  parse_url_opts url (env_options vars).

Lemma elem_of_env_options vars k v :
  (k, v) ∈ env_options vars ↔ ∃ kv, kv ∈ vars ∧ into_string kv.1 = Some k ∧ into_string kv.2 = Some v.
Proof.
  unfold env_options. rewrite list_elem_of_omap. split.
  - intros (kv & ? & (k' & ? & (v' & ? & [= <- <-])%bind_Some)%bind_Some). eauto.
  - intros (kv & ? & Hk & Hv). exists kv. by rewrite Hk, Hv.
Qed.
End environment.

Inductive ExitCode := SUCCESS | FAILURE.
Record Exit := { ex_code : ExitCode; ex_stdout : string; ex_stderr : string }.

Section cli.
Context `{SlateLib, UrlLib, PercentLib, !ServiceLib, StoreLib, !ConfigLib, !RemoteLib, !ChronoLib}.
(** [humantime::format_duration] and [serde_json::to_string_pretty]. *)
Context (format_duration : Duration → string) (to_json : Response → string).

(** The [#[error(..)]] texts. *)
Definition display_mirror_error (e : MirrorError) : string :=
  match e with
  | MUrl message => message
  | MStore e => "object store error: " +:+ display_store_error e
  | MSlateDb e => e
  | NotADatabase url => url +:+ " is not a SlateDB database (no manifest)"
  | ExcludedSource url reason => url +:+ " cannot be a mirror source: " +:+ reason
  | Diverged destination dest_id source_id =>
      "destination " +:+ destination +:+ " has diverged: its manifest " +:+ decimal dest_id +:+
      " is ahead of the source's " +:+ decimal source_id +:+ "; it is not a mirror of this source"
  | Stalled target reason => "mirror pass for target " +:+ target +:+ " kept restarting: " +:+ reason
  | MRclone message => "rclone: " +:+ message
  | DestinationNotEmpty url =>
      "destination " +:+ url +:+ " is not empty; restore never deletes, pick a fresh root"
  | NoRestorePoint at_ reason => "no restore point for --at " +:+ at_ +:+ ": " +:+ reason
  end.
Definition display_service_error (e : ServiceError) : string :=
  match e with
  | ServiceUrl e => display_url_error e
  | ServiceStore e => "failed to open database store: " +:+ display_store_error e
  | ServiceSlateDb e => e
  | ServiceMirror e => display_mirror_error e
  end.
Definition display_error (e : Error) : string :=
  match e with
  | FleetRootUrl e => "invalid fleet root: " +:+ display_url_error e
  | FleetRootStore e => "failed to open fleet root store: " +:+ display_store_error e
  | ErrorUrl e => display_url_error e
  | ErrorStore e => "object store error: " +:+ display_store_error e
  | ErrorNotRegistered url => url +:+ " is not registered; `sleet register` it first"
  | NoSuchMirrorTarget target url =>
      "no enabled mirror target " +:+ debug_str target +:+ " applies to " +:+ url
  | ErrorService e => display_service_error e
  | ErrorMirror e => display_mirror_error e
  | InvalidNodeId reason => "invalid node id: " +:+ reason
  | DuplicateService service => "services lists " +:+ debug_str (as_str service) +:+ " more than once"
  end.

(** [Render::render]; [None] is a panic while writing a table. *)
Definition render (r : Response) : option string :=
  match r with
  | ResponseStatus r => render_status format_duration r
  | ResponseRegister r => Some (render_register r)
  | ResponseMirrorSync r => Some (render_mirror_sync r)
  | ResponseMirrorRestore r => Some (render_mirror_restore r)
  end.

Definition emit (r : Response) (format : Format) : option Exit :=
  text ← match format with FormatText => render r | FormatJson => Some (to_json r +:+ newline) end;
  Some {| ex_code := SUCCESS; ex_stdout := text; ex_stderr := EmptyString |}.
Definition fail (e : string) : Exit :=
  {| ex_code := FAILURE; ex_stdout := EmptyString; ex_stderr := "error: " +:+ e +:+ newline |}.
Definition respond (answer : Result Error Response) (format : Format) : option Exit :=
  match answer with Ok r => emit r format | Err e => Some (fail (display_error e)) end.

(** The ends of [main]'s arms: [answer] is what the operation asked for
    returned; a node that was started returns when it is shut down. *)
Definition conclude (a : Action) (answer : Result Error Response) : option Exit :=
  match a with
  | FailDuplicate dup => Some (fail ("--services lists " +:+ quoted (as_str dup) +:+ " more than once"))
  | FailPoint message => Some (fail message)
  | FailError e => Some (fail (display_error e))
  | RunNode _ => Some {| ex_code := SUCCESS; ex_stdout := EmptyString; ex_stderr := EmptyString |}
  | AskStatus _ _ format | AskRegister _ _ format | AskSync _ _ _ _ format | AskRestore _ _ _ format =>
      respond answer format
  end.

(** The command line was refused, or what it asked for failed. *)
Definition failed (a : Action) (answer : Result Error Response) : bool :=
  match a with
  | FailDuplicate _ | FailPoint _ | FailError _ => true
  | RunNode _ => false
  | AskStatus _ _ _ | AskRegister _ _ _ | AskSync _ _ _ _ _ | AskRestore _ _ _ _ => negb (is_ok answer)
  end.

(** The exit code tells a script the truth: it is zero exactly when the
    command line was accepted and what it asked for succeeded; a failure
    prints nothing to stdout and one [error: ] line to stderr, a success
    nothing to stderr. *)
Theorem exit_code_honest a answer x :
  conclude a answer = Some x →
  if failed a answer
  then ex_code x = FAILURE ∧ ex_stdout x = EmptyString ∧ ∃ m, ex_stderr x = "error: " +:+ m +:+ newline
  else ex_code x = SUCCESS ∧ ex_stderr x = EmptyString.
Proof.
  destruct a; simpl; try (intros [= <-]; simpl; by eauto);
    (unfold respond; destruct answer as [r|e]; simpl;
     [unfold emit; intros (t & _ & [= <-])%bind_Some; done|intros [= <-]; simpl; eauto]).
Qed.
End cli.
