(* ===== verification/LoopSafety.v ===== *)
(** * The mirror task's loops keep whatever their parts keep

    [LoopLogic] is what a program logic must know of a task's parts: the pass,
    the tail, the prune, each keeping the logic's invariant.  Under it both
    loops of [Loops] are safe.  [Fleet] instantiates it for tasks among
    others, [Alone] for a task by itself, [Together] for tasks with retention
    among others. *)

From S2P Require Import Prelude Order Text Store Slate Effects Config Registry.
From S2P Require Import Layout Copier Pass Targets Prune Loops Rely.

Section loops.
Context `{SL : SlateLib, SW : !SlateLaws, UL : UrlLib, RL : !RemoteLib}.
Implicit Types (w : world).

(** A call that leaves the world alone. *)
Definition reads {R} (c : call R) : Prop := ∀ w r w', handle c w r w' → w' = w.

Class LoopLogic (Inv : world → Prop) (a : Assigned) (safe : ∀ A, prog A → world → Prop) : Prop := {
  logic_ret A (x : A) w : Inv w → safe A (Ret x) w;
  logic_then A B (p : prog A) (f : A → prog B) w :
    Inv w → safe A p w → (∀ x w', Inv w' → safe B (f x) w') → safe B (bind p f) w;
  logic_read R (c : call R) w : reads c → Inv w → safe R (ask c) w;
  logic_pass w : Inv w → safe _ (sync_target a) w;
  logic_tail_start floor w : Inv w → safe _ (Tail_start floor) w;
  logic_tail_step fuel t n w : Inv w → safe _ (tail_step fuel t n) w;
  logic_prune w : Inv w → safe _ (prune_target a) w;
}.

Context (Inv : world → Prop) (a : Assigned) (safe : ∀ A, prog A → world → Prop) `{LL : !LoopLogic Inv a safe}.
#[local] Arguments safe {A} _ _.

Lemma safe_ret {A} (x : A) w : Inv w → safe (Ret x) w.
Proof. apply logic_ret. Qed.
Lemma safe_pass w : Inv w → safe (sync_target a) w.
Proof. apply logic_pass. Qed.
Lemma safe_tail_start floor w : Inv w → safe (Tail_start floor) w.
Proof. apply logic_tail_start. Qed.
Lemma safe_tail_step fuel t n w : Inv w → safe (tail_step fuel t n) w.
Proof. apply logic_tail_step. Qed.
Lemma safe_prune w : Inv w → safe (prune_target a) w.
Proof. apply logic_prune. Qed.
Lemma safe_then {A B} (p : prog A) (f : A → prog B) w :
  Inv w → safe p w → (∀ x w', Inv w' → safe (f x) w') → safe (bind p f) w.
Proof. apply logic_then. Qed.
#[local] Hint Resolve safe_ret safe_pass safe_tail_start safe_tail_step safe_prune : core.

Lemma safe_try {E F A B} (conv : E → F) (p : prog (Result E A)) (f : A → prog (Result F B)) w :
  Inv w → safe p w → (∀ x w', Inv w' → safe (f x) w') → safe (try conv p f) w.
Proof. intros Hi Hp Hf. unfold try. apply safe_then; [done..|]. intros [x|e] w' Hi'; auto. Qed.

Lemma safe_list_manifests db w : Inv w → safe (list_manifests db) w.
Proof.
  intros Hi. apply safe_try; [done| |auto]. apply safe_then; [done| |intros [?|[]]; auto].
  apply logic_read; [|done]. by intros ? ? ? [-> _].
Qed.

Lemma safe_clock w : Inv w → safe (ask InstantNow) w.
Proof. apply logic_read. by intros ? ? ? ->. Qed.
Lemma safe_permit w : Inv w → safe (ask AcquirePermit) w.
Proof. apply logic_read. by intros ? ? ? ->. Qed.
Lemma safe_cancelled w : Inv w → safe (ask IsCancelled) w.
Proof. apply logic_read. by intros ? ? ? ->. Qed.
Lemma safe_sleep d w : Inv w → safe (ask (Sleep d)) w.
Proof. apply logic_read. by intros ? ? ? ->. Qed.
#[local] Hint Resolve safe_list_manifests safe_clock safe_permit safe_cancelled safe_sleep : core.

Lemma safe_prune_now w : Inv w → safe (prune_now a) w.
Proof. intros Hi. apply safe_try; [auto..|]. intros _ w1 H1. apply safe_then; auto. Qed.

Lemma safe_prune_due t w : Inv w → safe (prune_due t) w.
Proof. intros Hi. apply safe_then; auto. Qed.
#[local] Hint Resolve safe_prune_now safe_prune_due : core.

Lemma safe_sync_and_prune s w : Inv w → safe (sync_and_prune a s) w.
Proof.
  intros Hi. apply safe_try; [auto..|]. intros o w1 H1.
  apply safe_try; [done|destruct (ls_tail s); auto|]. intros t w2 H2.
  apply safe_then; [done|destruct (po_committed o); auto|]. intros due w3 H3.
  apply safe_try; [done|destruct due; auto|auto].
Qed.
#[local] Hint Resolve safe_sync_and_prune : core.

Lemma safe_iterate s w : Inv w → safe (iterate a s) w.
Proof.
  intros Hi. unfold iterate. apply safe_try; [done|apply safe_try; auto|]. intros head w1 H1.
  destruct (_ && _).
  - apply safe_then; [auto..|]. intros [] w2 H2; [|auto]. apply safe_try; auto.
  - apply safe_then; [done|destruct (rmt_keep _); auto|]. intros [] w2 H2; [|auto].
    apply safe_then; [auto..|]. intros [] w3 H3; [|auto]. apply safe_try; auto.
Qed.

Lemma safe_step_tail fuel s w : Inv w → safe (step_tail fuel s) w.
Proof.
  intros Hi. unfold step_tail. destruct (ls_tail s) as [t|]; [|auto].
  apply safe_then; [auto..|]. intros [t' [c|e]] w1 H1; auto.
Qed.
#[local] Hint Resolve safe_iterate safe_step_tail : core.

Lemma safe_continuous fuel s w : Inv w → safe (continuous_loop fuel a s) w.
Proof.
  revert s w. induction fuel as [|fuel IH]; intros s w Hi; cbn [continuous_loop]; [auto|].
  apply safe_then; [auto..|]. intros [] w1 H1; [auto|].
  apply safe_try; [auto..|]. intros [[s' c]|] w2 H2; [|auto].
  apply safe_try; [auto..|]. intros [s2 copied] w3 H3.
  apply safe_then; [auto..|]. intros [] w4 H4; auto.
Qed.

Lemma safe_periodic_pass w : Inv w → safe (periodic_pass a) w.
Proof.
  intros Hi. apply safe_then; [auto..|]. intros [] w1 H1; [|auto].
  apply safe_try; [done| |intros [? ?]; auto]. apply safe_try; [auto..|].
  intros o w2 H2. apply safe_try; auto.
Qed.
#[local] Hint Resolve safe_periodic_pass : core.

Lemma safe_now w : Inv w → safe (ask UtcNow) w.
Proof. apply logic_read. by intros ? ? ? [-> _]. Qed.
#[local] Hint Resolve safe_now : core.

Lemma safe_periodic fuel w : Inv w → safe (periodic_loop fuel a) w.
Proof.
  revert w. induction fuel as [|fuel IH]; intros w Hi; cbn [periodic_loop]; [auto|].
  apply safe_then; [auto..|]. intros [] w1 H1; [auto|].
  apply safe_try; [done| |].
  { apply safe_try; [auto..|]. intros l w2 H2. destruct (last l) as [[? ?]|]; [|auto]. apply safe_then; auto. }
  intros age w2 H2. apply safe_try; [done| |].
  - unfold periodic_turn. destruct age as [age|]; [destruct (bool_decide _)|]; auto.
  - intros [d|] w3 H3; [|auto]. apply safe_then; [auto..|]. intros [] w4 H4; auto.
Qed.

Lemma safe_run_mirror fuel w : Inv w → safe (run_mirror fuel a) w.
Proof.
  intros Hi. unfold run_mirror. destruct (rmt_mode _); [|by apply safe_periodic].
  apply safe_then; [auto..|]. intros t w1 H1. by apply safe_continuous.
Qed.
End loops.
