(* ===== verification/Fleet.v ===== *)
(** * Mirror tasks together

    Any number of mirror tasks, for any targets and settings without
    retention, against one target database: whatever the interleaving, the
    failures and the crashes, the target stays a faithful, complete mirror.
    Then the guarantees of a single pass and of the WAL tail. *)

From S2P Require Import Prelude Order Text Store Slate Effects Config Registry.
From S2P Require Import Layout Copier Pass Targets Prune Loops Rely MirrorSafety Mirroring Progress Scenario LoopSafety.

Section fleet.
Context `{SL : SlateLib, SW : !SlateLaws, UL : UrlLib, RL : !RemoteLib}.
Implicit Types (w : world) (m : VersionedManifest).

(** ** The loops under interference *)
Definition among (A : Type) (p : prog A) w : Prop := wp p (λ _ _, True) w.

Lemma wp_among {A} (p : prog A) Q w : Inv w → wp p Q w → among A p w.
Proof. intros Hi Hp. by eapply wp_conseq. Qed.

Lemma fleet_logic a : rmt_keep (settings_of a) = None → LoopLogic Inv a among.
Proof.
  intros Hk. split; unfold among; intros.
  - done.
  - eapply wp_then; [done..|]. intros x w' Hr _. apply H1, Hr.
  - apply wp_ask. intros w1 r w2 H1 ->%H. split; [apply rely_refl, H1|done].
  - eapply wp_among, wp_sync_pass; done.
  - eapply wp_among, wp_tail_start; done.
  - eapply wp_among, wp_tail_step; done.
  - eapply (wp_then _ _ (λ _ _, True)); [done|by wp_read|]. intros now w1 H1 _.
    unfold prune_at. by rewrite Hk.
Qed.

(** The tasks of a fleet at an empty target are safe together. *)
Lemma tasks_safe w (tasks : list (nat * Assigned)) :
  wf_source w → w_dest w = ∅ →
  (∀ fuel a, (fuel, a) ∈ tasks → rmt_keep (settings_of a) = None) →
  safe (w, (λ '(fuel, a), run_mirror fuel a) <$> tasks).
Proof.
  intros Hwf Hd Hk. assert (Hi : Inv w) by by apply empty_target_inv.
  split; [done|]. intros i p. simpl. rewrite list_lookup_fmap.
  intros ([fuel a] & Ht & ->)%fmap_Some. apply list_elem_of_lookup_2 in Ht.
  by apply (safe_run_mirror Inv a among (LL := fleet_logic a (Hk _ _ Ht))).
Qed.

(** ** The claims *)

(** C1: an empty target that any number of mirror tasks work on, for any
    assignments without retention, interleaved call by call with each other
    and with the source, any call failing or landing without saying so, any
    task crashing for good at any point: in every state reached the target
    mirrors the source. *)
Theorem mirror_tasks_keep_mirror w w' (tasks : list (nat * Assigned)) ps' :
  wf_source w → w_dest w = ∅ →
  (∀ fuel a, (fuel, a) ∈ tasks → rmt_keep (settings_of a) = None) →
  rtc step (w, (λ '(fuel, a), run_mirror fuel a) <$> tasks) (w', ps') →
  mirrored w'.
Proof.
  intros Hwf Hd Hk Hsteps. apply inv_mirrored.
  exact (proj1 (steps_safe _ _ Hsteps (tasks_safe w tasks Hwf Hd Hk))).
Qed.



(** C37: the WAL tail leaves no gap.  It starts at or above the floor the last
    pass gave it and above every WAL already at the target (short of the last
    64-bit id); and each call moves the next id only past WALs that are now
    at the target, also when it ends in an error. *)
Theorem tail_no_gap S floor fuel copied w w1 w2 w3 t t' r :
  Inv w → runs S w (Tail_start floor) w1 (Ok t) →
  Inv w2 → runs S w2 (tail_step fuel t copied) w3 (t', r) →
  (floor ≤ tail_next t)%N ∧
  (last_wal w1 ∨ ∀ id, (id ≤ U64_MAX)%N → at_dest w (wal_rel id) → (id < tail_next t)%N) ∧
  ∀ id, (tail_next t ≤ id < tail_next t')%N → at_dest w3 (wal_rel id).
Proof.
  intros Hi Hstart Hi2 Hstep.
  destruct (wp_runs _ _ _ _ _ _ Hstart Hi (wp_tail_start floor w Hi)) as [[Hf Hall] _].
  destruct (wp_runs _ _ _ _ _ _ Hstep Hi2 (wp_tail_step fuel t copied w2 Hi2)) as [Hgap _].
  done.
Qed.
End fleet.

(** ** Witnesses: the seeding pass of [Scenario] *)
Import Registry.Concrete Scenario.Demo.

Lemma demo_inv : Inv (source_at 1 ∅).
Proof. by apply empty_inv. Qed.

Lemma demo_pass : runs (smooth 0 (rmt_checkpoint_lifetime settings)) (source_at 1 ∅)
  (sync_pass urls "dr" settings) (source_at 3 full_target) (Ok seeded).
Proof. eapply executes_runs; [apply seeding_run|apply demo_inv|apply wp_sync_pass, demo_inv]. Qed.

Lemma mirror_tasks_keep_mirror_witness :
  mirrored (source_at 3 full_target) ∧ is_Some (full_target !! manifest_rel 2).
Proof.
  split; [|vm_compute; by eexists].
  eapply (mirror_tasks_keep_mirror (source_at 1 ∅) (source_at 3 full_target) [(1, assigned)]).
  - by apply source_wf.
  - done.
  - by intros fuel a [= -> ->]%list_elem_of_singleton.
  - apply (executes_steps any). exact mirror_run.
Defined.



Definition one_wal : gmap string string := {[ wal_rel 4 := "four" ]}.

Lemma one_wal_inv : Inv (source_at 1 one_wal).
Proof.
  pose proof (put_data_rely (source_at 1 ∅) (wal_rel 4) "four" demo_inv) as H. apply H.
  - by intros [].
  - by left.
Qed.

Lemma tail_no_gap_witness : at_dest (source_at 1 (<[wal_rel 5 := "five"]> one_wal)) (wal_rel 5).
Proof.
  assert (Hstart : executes any (source_at 1 one_wal) (Tail_start 2) (source_at 1 one_wal)
    (Ok {| tail_next := 5 |})).
  { answer (Ok [{| li_name := wal_name 4; li_modified := 0 |}] : Result StoreError (list Listed))
      (source_at 1 one_wal); [quiet|done|constructor].
    intros name. rewrite list_elem_of_fmap. split.
    - intros [b Hb]. change (one_wal !! ("wal/" +:+ name) = Some b) in Hb.
      unfold one_wal in Hb. apply lookup_singleton_Some in Hb as [Hn _]. eexists. split; [|by left].
      by injection Hn.
    - intros (x & -> & ->%list_elem_of_singleton). by exists "four". }
  assert (Hstep : executes any (source_at 1 one_wal) (tail_step 2 {| tail_next := 5 |} 0)
    (source_at 1 (<[wal_rel 5 := "five"]> one_wal)) ({| tail_next := 6 |}, Ok 1%N)).
  { answer (Ok (object "five") : Result StoreError GetResult) (source_at 1 one_wal);
      [quiet; intros b [= <-]; by left|done|].
    answer (Ok () : Result StoreError ()) (source_at 1 (<[wal_rel 5 := "five"]> one_wal)); [by left|done|].
    answer (Err (NotFound "absent") : Result StoreError GetResult) (source_at 1 (<[wal_rel 5 := "five"]> one_wal));
      [quiet; done|done|constructor]. }
  destruct (tail_no_gap any 2 2 0 (source_at 1 one_wal) (source_at 1 one_wal) (source_at 1 one_wal)
    (source_at 1 (<[wal_rel 5 := "five"]> one_wal)) {| tail_next := 5 |} {| tail_next := 6 |} (Ok 1%N))
    as (_ & _ & Hgap).
  - exact one_wal_inv.
  - eapply executes_runs; [exact Hstart|exact one_wal_inv|apply wp_tail_start, one_wal_inv].
  - exact one_wal_inv.
  - eapply executes_runs; [exact Hstep|exact one_wal_inv|apply wp_tail_step, one_wal_inv].
  - apply (Hgap 5%N). simpl. lia.
Defined.
