(* ===== verification/Footprint.v ===== *)
(** * What a mirror task calls

    The footprint of a mirror task, whatever its calls answer: the source is
    read and pinned, never written; only the target is written, and deletes
    need retention; the waits are bounded.  And the bound on the work of one
    sync call. *)

From S2P Require Import Prelude Order Text Store Slate Effects Concurrent Config Registry.
From S2P Require Import Layout Copier Pass Targets Prune Loops Rely.

Section footprint.
Context `{SL : SlateLib, UL : UrlLib, RL : !RemoteLib}.

(** ** All calls of a program *)

(** Every call [p] can make is in [P]. *)
Fixpoint calls {A} (P : ∀ R, call R → Prop) (p : prog A) : Prop :=
  match p with
  | Ret _ => True
  | Call c k => P _ c ∧ ∀ r, calls P (k r)
  end.

Lemma calls_bind {A B} P (p : prog A) (f : A → prog B) R :
  calls P p → post any p R → (∀ a, R a → calls P (f a)) → calls P (bind p f).
Proof.
  unfold bind. induction p as [a|T c k IH]; simpl; [auto|]. intros [Hc Hk] HR Hf. split; [done|].
  intros r. by apply IH; [|apply HR|].
Qed.

Lemma post_any {A} (p : prog A) : post any p (λ _, True).
Proof. induction p; simpl; auto. Qed.

Lemma calls_then {A B} P (p : prog A) (f : A → prog B) :
  calls P p → (∀ a, calls P (f a)) → calls P (bind p f).
Proof. intros Hp Hf. eapply calls_bind; [done|apply post_any|]. auto. Qed.

Lemma calls_try {E F A B} P (conv : E → F) (p : prog (Result E A)) (f : A → prog (Result F B)) :
  calls P p → (∀ a, calls P (f a)) → calls P (try conv p f).
Proof. intros Hp Hf. unfold try. apply calls_then; [done|]. by intros [a|e]. Qed.

Lemma calls_tryc {S E F A B} P (s : S) (conv : E → F) (p : prog (Result E A))
    (f : A → prog (S * Result F B)) :
  calls P p → (∀ a, calls P (f a)) → calls P (tryc s conv p f).
Proof. intros Hp Hf. unfold tryc. apply calls_then; [done|]. by intros [a|e]. Qed.

Lemma calls_mono {A} (P P' : ∀ R, call R → Prop) (p : prog A) :
  (∀ R c, P R c → P' R c) → calls P p → calls P' p.
Proof. intros HP. induction p; simpl; [done|]. intros [? ?]. split; auto. Qed.

Lemma calls_ask {R} P (c : call R) : P _ c → calls P (ask c).
Proof. done. Qed.

Lemma calls_concurrently {E A B} (P : ∀ R, call R → Prop) (combine : B → A → B) limit (tasks : list (prog (Result E A))) x :
  (∀ n, P _ (Schedule n)) → (∀ p, p ∈ tasks → calls P p) → calls P (concurrently combine limit tasks x).
Proof.
  intros HS. apply (concurrently_ind combine limit (λ tasks _ p, (∀ q, q ∈ tasks → calls P q) → calls P p)); [done|].
  intros l y n body Hstep Hl. split; [apply HS|]. intros i.
  destruct (Hstep i) as (before & q & after & -> & _ & Hq).
  assert (Hin : q ∈ before ++ q :: after) by set_solver. pose proof (Hl _ Hin) as Hcq.
  destruct q as [[a|e]|R c k]; [apply Hq; intros q ?; apply Hl; set_solver|by rewrite Hq|].
  destruct Hq as (k' & -> & Hk). destruct Hcq as [Hc Hkc]. split; [done|]. intros r. apply Hk.
  intros q. rewrite elem_of_app, elem_of_cons. intros [?|[->|?]]; [apply Hl; set_solver|done|apply Hl; set_solver].
Qed.

(** ** The footprint *)
Definition allowed (name : string) (s : ResolvedMirrorTarget) : ∀ R, call R → Prop := λ R c,
  match c with
  | ReadManifest _ _ | Get _ _ | Head _ _ | ListDir _ _ | ListRoot _ => True
  | CreateCheckpoint db o =>
      db = Source ∧ co_name o = pin_name name ∧ co_lifetime o = rmt_checkpoint_lifetime s
  | RefreshCheckpoint db _ lifetime => db = Source ∧ lifetime = rmt_checkpoint_lifetime s
  | DeleteCheckpoint db _ => db = Source
  | ListCheckpoints db n => db = Source ∧ n = pin_name name
  | Put db _ _ | PutCreate db _ _ | StartMultipart db _ | FinishMultipart db _ _ => db = Dest
  | Delete db _ => db = Dest ∧ rmt_keep s ≠ None
  | Effects.Rclone _ => rmt_copier s = Config.Rclone
  | Sleep d =>
      match rmt_mode s with
      | Continuous => (rmt_poll s ≤ d ≤ N.max IDLE_POLL_MAX (rmt_poll s))%N
      | Periodic => (d ≤ rmt_interval s)%N
      end
  | UtcNow | InstantNow | TimerFires _ | Schedule _ | IsCancelled | AcquirePermit => True
  end.

(** The calls that open a pass: reading the watermark and pinning. *)
Definition opens : ∀ R, call R → bool := λ R c,
  match c with ReadManifest Dest None | CreateCheckpoint _ _ => true | _ => false end.

Ltac foot := repeat first
  [ exact I | done
  | apply calls_tryc; [|intros ?]
  | apply calls_try; [|intros ?]
  | apply calls_then; [|intros ?] ].

(** Calls that only read, past the opening of a pass. *)
Definition reading : ∀ R, call R → Prop := λ R c,
  match c with
  | ReadManifest Source _ | ReadManifest Dest (Some _) | Get _ _ | Head _ _ | ListDir _ _ | UtcNow | Schedule _ => True
  | _ => False
  end.

Lemma read_head_misses {T} (items : list T) rel : calls reading (head_misses Dest items rel).
Proof.
  unfold head_misses. apply calls_try; [|done]. apply calls_concurrently; [done|].
  intros p (i & -> & _)%list_elem_of_fmap. unfold head_miss. foot; repeat case_match; foot.
Qed.

Lemma read_list_dir db dir : calls reading (list_dir db dir).
Proof. unfold list_dir. foot. repeat case_match; foot. Qed.

Lemma read_list_manifests db : calls reading (list_manifests db).
Proof. unfold list_manifests. apply calls_try; [apply read_list_dir|done]. Qed.
Lemma read_list_wals db : calls reading (list_wals db).
Proof. unfold list_wals. apply calls_try; [apply read_list_dir|done]. Qed.
Lemma read_list_compacted db : calls reading (list_compacted db).
Proof. unfold list_compacted. apply calls_try; [apply read_list_dir|done]. Qed.

Lemma read_cache_read db cache id : calls reading (cache_read db cache id).
Proof. unfold cache_read. destruct (cache !! id); [done|]. destruct db; foot; by case_match. Qed.

Lemma read_diff head watermark cache : calls reading (diff_against_watermark head watermark cache).
Proof.
  unfold diff_against_watermark. apply calls_then; [done|]. intros now. apply calls_tryc.
  - unfold closure. apply calls_try; [|by intros [? ?]].
    generalize ({[m_id head := manifest_objects head]} : gmap N ManifestObjects).
    induction (m_checkpoints head) as [|cp cps IH] in cache |- *; intros ms; cbn [closure_loop]; [done|].
    destruct (_ || _); [apply IH|]. apply calls_try; [apply read_cache_read|]. intros [? [?|]]; [apply IH|done].
  - intros [? [?|]]; [|done]. by destruct (proven_by _ _ _ _).
Qed.

Lemma read_plan_work copier d seeding : calls reading (plan_work copier d seeding).
Proof.
  unfold plan_work. apply calls_try; [|intros us; apply calls_try; [|done]].
  - unfold plan_compacted. destruct (cr_kind copier); [done..|].
    destruct seeding; [apply calls_try; [apply read_list_compacted|done]|apply read_head_misses].
  - unfold wal_misses. by apply calls_try; [apply read_head_misses|].
Qed.

Section task.
Context (name : string) (s : ResolvedMirrorTarget).
Abbreviation ok := (calls (allowed name s)).
Abbreviation inner := (calls (λ R c, allowed name s R c ∧ opens R c = false)).

Lemma reading_inner {A} (p : prog A) : calls reading p → inner p.
Proof.
  apply calls_mono. intros R c Hc. destruct c; simpl in *; try done. by repeat case_match.
Qed.
Lemma foot_head_misses {T} (items : list T) rel : inner (head_misses Dest items rel).
Proof. apply reading_inner, read_head_misses. Qed.
Lemma foot_list_dir db dir : inner (list_dir db dir).
Proof. apply reading_inner, read_list_dir. Qed.
Lemma foot_list_manifests db : inner (list_manifests db).
Proof. apply reading_inner, read_list_manifests. Qed.
Lemma foot_list_wals db : inner (list_wals db).
Proof. apply reading_inner, read_list_wals. Qed.
Lemma foot_list_compacted db : inner (list_compacted db).
Proof. apply reading_inner, read_list_compacted. Qed.
Lemma foot_cache_read db cache id : inner (cache_read db cache id).
Proof. apply reading_inner, read_cache_read. Qed.
Lemma foot_diff head watermark cache : inner (diff_against_watermark head watermark cache).
Proof. apply reading_inner, read_diff. Qed.
Lemma foot_plan_work copier d seeding : inner (plan_work copier d seeding).
Proof. apply reading_inner, read_plan_work. Qed.

Lemma foot_copy copier names : cr_kind copier = rmt_copier s → inner (copy copier names).
Proof.
  intros Hk. unfold copy. destruct names as [|n names]; [done|].
  assert (Hb : ∀ l, inner (copy_builtin copier l)).
  { intros l. unfold copy_builtin. apply calls_try; [|done]. apply calls_concurrently; [done|].
    intros p (x & -> & _)%list_elem_of_fmap. unfold copy_object. apply calls_try; [done|]. intros g. destruct (bool_decide _); foot. }
  destruct (cr_kind copier); [apply Hb| |apply Hb]. unfold copy_rclone. foot.
Qed.

Lemma foot_under_pin {A} pin (p : prog A) :
  pin_lifetime pin = rmt_checkpoint_lifetime s → inner p → inner (under_pin pin p).
Proof.
  intros Hpin Hp. induction p as [a|R c k IH] in pin, Hpin, Hp |- *; [done|]. cbn [under_pin].
  destruct Hp as [Hc Hk]. split; [done|]. intros n.
  eapply (calls_bind _ _ _ (λ r, ∀ pin', r = Ok pin' → pin_lifetime pin' = rmt_checkpoint_lifetime s)).
  - induction n as [|n IHn] in pin, Hpin |- *; [done|]. cbn [refresh_times].
    eapply (calls_bind _ _ _ (λ r, ∀ pin', r = Ok pin' → pin_lifetime pin' = rmt_checkpoint_lifetime s)).
    + unfold Pin_refresh. apply calls_then; [by split|]. intros [[]|e]; [|done]. by apply calls_then.
    + intros [[]|e] _; [|by intros ? [=]]. intros now _ pin' [= <-]. done.
    + intros [pin'|e] Hp'; [apply IHn; by apply Hp'|done].
  - induction n as [|n IHn] in pin, Hpin |- *; [by intros pin' [= <-]|]. cbn [refresh_times].
    eapply (post_bind _ _ _ (λ r, ∀ pin', r = Ok pin' → pin_lifetime pin' = rmt_checkpoint_lifetime s)).
    + intros [[]|e] _; [|by intros ? [=]]. intros now _ pin' [= <-]. done.
    + intros [pin'|e] Hp'; [apply IHn; by apply Hp'|by intros ? [=]].
  - intros [pin'|e] Hp'; [|done]. split; [done|]. intros r. by apply IH; [apply Hp'|].
Qed.

Lemma foot_commit u d head copied : inner (commit u d head copied).
Proof.
  unfold commit. apply calls_try; [|done]. generalize 0%N.
  induction (btree_keys _) as [|id ids IH]; intros n; cbn [commit_loop]; [done|].
  destruct (bool_decide _); [apply IH|]. apply calls_try; [|intros; apply IH].
  unfold commit_one. apply calls_then; [done|]. intros [g|[]]; try done. apply calls_try; [done|].
  intros b. apply calls_then; [done|]. intros [[]|[]]; try done. foot. by destruct (bool_decide _).
Qed.

Lemma inner_ok {A} (p : prog A) : inner p → ok p.
Proof. apply calls_mono. by intros R c []. Qed.

Lemma foot_pinned_pass u copier watermark seeding cache :
  cr_kind copier = rmt_copier s → ok (pinned_pass u name s copier watermark seeding cache).
Proof.
  intros Hk. unfold pinned_pass, tryc.
  assert (Hdel : ∀ pin, ok (Pin_delete pin)) by (intros pin; by apply calls_then).
  eapply (calls_bind _ _ _ (λ r, ∀ pin, r = Ok pin → pin_lifetime pin = rmt_checkpoint_lifetime s)).
  - unfold Pin_create. apply calls_try; [by split|]. intros [id mid]. by apply calls_then.
  - intros [[id mid]|e] _; [|by intros ? [=]]. intros now _ pin [= <-]. done.
  - intros [pin|e] Hpin; [|done]. specialize (Hpin _ eq_refl).
    apply calls_then; [apply inner_ok, foot_cache_read|]. intros [[cache1 [head|]]|e]; [|by apply calls_then|done].
    apply calls_then; [apply inner_ok, foot_diff|]. intros [cache2 [d|e]]; [|done].
    apply calls_then; [apply inner_ok, foot_plan_work|]. intros [work|e]; [|done].
    apply calls_then; [|intros r; by apply calls_then].
    unfold copy_and_commit. apply calls_try.
    + unfold copy_under_pin. apply calls_try; [|by intros [? ?]]. by apply inner_ok, foot_under_pin, foot_copy.
    + intros [pin' copied]. apply calls_then; [by apply calls_then|]. intros []; [done|apply inner_ok, foot_commit].
Qed.

Lemma foot_sync_pass u : ok (sync_pass u name s).
Proof.
  unfold sync_pass. assert (Hk : cr_kind (Copier_new s u) = rmt_copier s) by done.
  generalize dependent (Copier_new s u). intros copier Hk.
  generalize MAX_RESTARTS, (∅ : ManifestCache), EmptyString. intros n.
  induction n as [|n IH]; intros cache reason; cbn [sync_loop]; [done|].
  apply calls_then; [|intros [cache' [o|[r|e]]]; [done|apply IH|done]].
  unfold pass_once, tryc. apply calls_then.
  - unfold read_heads. foot; repeat case_match; foot.
  - intros [[watermark head]|e]; [|done]. destruct (bool_decide _); [done|].
    apply calls_then; [apply inner_ok, foot_diff|]. intros [cache2 [d|e]]; [|done].
    apply calls_then; [apply inner_ok, foot_plan_work|]. intros [[|rel work]|e]; [|by apply foot_pinned_pass|done].
    apply calls_then; [apply inner_ok, foot_commit|done].
Qed.

Lemma foot_tail_start floor : ok (Tail_start floor).
Proof. unfold Tail_start. by apply calls_try; [apply inner_ok, foot_list_wals|]. Qed.

Lemma foot_tail_step fuel t copied : ok (tail_step fuel t copied).
Proof.
  revert t copied. induction fuel as [|fuel IH]; intros t copied; cbn [tail_step]; [done|].
  apply calls_tryc; [|intros []; [apply IH|done]].
  unfold tail_copy. apply calls_then; [done|]. intros [g|[]]; try done. foot.
Qed.

Lemma foot_delete_all rels n : rmt_keep s ≠ None → ok (delete_all rels n).
Proof.
  intros Hk. revert n. induction rels as [|rel rels IH]; intros n; cbn [delete_all]; [done|].
  apply calls_then; [done|]. intros [[]|[]]; try done; apply IH.
Qed.

Lemma foot_prune u : ok (prune u name s).
Proof.
  unfold prune. apply calls_then; [done|]. intros now. unfold prune_at.
  destruct (rmt_keep s) as [keep|] eqn:Ek; [|done].
  apply calls_try; [apply inner_ok, foot_list_manifests|]. intros manifests. destruct (last manifests) as [[latest ?]|]; [|done].
  apply calls_try; [apply inner_ok, foot_list_compacted|]. intros compacted.
  apply calls_try; [apply inner_ok, foot_list_wals|]. intros wals.
  apply calls_then.
  { unfold source_closure. apply calls_try; [done|]. intros [m0|]; [|done].
    generalize (∅ : gset N), (manifest_objects m0).
    induction (m_checkpoints m0) as [|cp cps IH]; intros seen objs; cbn [source_closure_loop]; [done|].
    destruct (_ || _); [apply IH|]. apply calls_try; [done|]. intros p. apply IH. }
  intros spared. apply calls_then; [destruct spared; [by apply calls_then|done]|]. intros floor.
  apply calls_try.
  { generalize (∅ : ManifestCache), (∅ : gset N).
    induction (restore_points _ _ _ _) as [|id ids IH]; intros dec kept; cbn [keep_loop]; [done|].
    apply calls_try; [apply inner_ok, foot_cache_read|]. intros [? [?|]]; apply IH. }
  intros [dec kept]. apply calls_try.
  { revert dec. generalize (∅ : ManifestObjects), true.
    induction (ascending kept) as [|id ids IH]; intros objs all dec; cbn [kept_objects_loop]; [done|].
    apply calls_try; [apply inner_ok, foot_cache_read|]. intros [? [?|]]; apply IH. }
  intros [[dec' kobjs] all]. apply calls_try; [apply inner_ok, foot_cache_read|]. intros [dec2 head].
  unfold prune_deletions. assert (Hk : rmt_keep s ≠ None) by congruence.
  apply calls_try; [by apply foot_delete_all|]. intros n. destruct spared; [|done].
  destruct (negb _); [done|]. apply calls_try; [by apply foot_delete_all|]. intros n2.
  by apply calls_try; [apply foot_delete_all|].
Qed.

(** ** The loops *)
Context (a : Assigned) (Ha : at_name (as_target a) = name) (Hs : settings_of a = s).

Lemma foot_sync_target : ok (sync_target a).
Proof. unfold sync_target. rewrite Ha, Hs. apply foot_sync_pass. Qed.
Lemma foot_prune_target : ok (prune_target a).
Proof. unfold prune_target. rewrite Ha, Hs. apply foot_prune. Qed.
Lemma foot_prune_now : ok (prune_now a).
Proof. unfold prune_now. apply calls_try; [apply foot_prune_target|]. intros _. by apply calls_then. Qed.
Lemma foot_prune_due t : ok (prune_due t).
Proof. by apply calls_then. Qed.

Lemma foot_sync_and_prune st : ok (sync_and_prune a st).
Proof.
  unfold sync_and_prune. apply calls_try; [apply foot_sync_target|]. intros o.
  apply calls_try; [destruct (ls_tail st); [done|apply foot_tail_start]|]. intros t.
  apply calls_then; [destruct (po_committed o); [done|apply foot_prune_due]|]. intros due.
  by apply calls_try; [destruct due; [apply foot_prune_now|]|].
Qed.

(** An iteration does not touch the idle wait. *)
Definition same_idle (st : LoopState) (r : Result MirrorError (option (LoopState * bool))) : Prop :=
  ∀ st' c, r = Ok (Some (st', c)) → ls_idle st' = ls_idle st.

Lemma foot_iterate st : ok (iterate a st).
Proof.
  unfold iterate. apply calls_try; [by apply calls_try; [apply inner_ok, foot_list_manifests|]|]. intros head.
  destruct (_ && _).
  - apply calls_then; [done|]. intros []; [|done]. by apply calls_try; [apply foot_sync_and_prune|].
  - apply calls_then; [destruct (rmt_keep _); [apply foot_prune_due|done]|]. intros []; [|done].
    apply calls_then; [done|]. intros []; [|done]. by apply calls_try; [apply foot_prune_now|].
Qed.

Lemma any_then {A B} (p : prog A) (f : A → prog B) Q :
  (∀ x, post any (f x) Q) → post any (bind p f) Q.
Proof. intros Hf. eapply post_bind; [apply post_any|]. auto. Qed.

Lemma any_try {E F A B} (conv : E → F) (p : prog (Result E A)) (f : A → prog (Result F B)) (Q : Result F B → Prop) :
  (∀ x, post any (f x) Q) → (∀ e, Q (Err e)) → post any (try conv p f) Q.
Proof. intros Hf He. eapply post_try; [apply post_any|auto..]. Qed.

Lemma idle_iterate st : post any (iterate a st) (same_idle st).
Proof.
  assert (Hnone : same_idle st (Ok None)) by by intros ? ? [=].
  assert (Herr : ∀ e, same_idle st (Err e)) by by intros ? ? ? [=].
  unfold iterate. apply any_try; [|done]. intros head. destruct (_ && _).
  - apply any_then. intros []; [|done].
    eapply (post_try _ _ _ _ (λ r, ∀ st' c, r = Ok (st', c) → ls_idle st' = ls_idle st)); [| |done].
    + unfold sync_and_prune. apply any_try; [|by intros ? ? ? [=]]. intros o.
      apply any_try; [|by intros ? ? ? [=]]. intros t. apply any_then. intros due.
      apply any_try; [|by intros ? ? ? [=]]. intros lp st' c [= <- <-]. done.
    + intros [st1 c1] H1 st' c [= <- <-]. by eapply H1.
  - apply any_then. intros []; [|by intros ? ? [= <- <-]]. apply any_then. intros []; [|done].
    apply any_try; [|done]. intros lp st' c [= <- <-]. done.
Qed.

Lemma next_idle_bounds poll idle active :
  (poll ≤ idle)%N → (poll ≤ next_idle poll idle active ≤ N.max IDLE_POLL_MAX poll)%N.
Proof. unfold next_idle. destruct active; lia. Qed.

Lemma foot_continuous_loop fuel st :
  rmt_mode s = Continuous → (rmt_poll s ≤ ls_idle st)%N → ok (continuous_loop fuel a st).
Proof.
  intros Hm. revert st. induction fuel as [|fuel IH]; intros st Hidle; cbn [continuous_loop]; [done|].
  apply calls_then; [done|]. intros []; [done|].
  unfold try. eapply calls_bind; [apply foot_iterate|apply idle_iterate|].
  intros [[[st1 c1]|]|e] Hsame; [|done..]. specialize (Hsame _ _ eq_refl).
  eapply (calls_bind _ _ _ (λ r, ∀ st' c, r = Ok (st', c) → ls_idle st' = ls_idle st1)).
  - unfold step_tail. destruct (ls_tail st1) as [t|]; [|done]. apply calls_then; [apply foot_tail_step|].
    by intros [? [?|?]].
  - unfold step_tail. destruct (ls_tail st1) as [t|]; [|by intros ? ? [= <- <-]].
    apply any_then. intros [t' [n|e]]; [by intros ? ? [= <- <-]|by intros ? ? [=]].
  - intros [[st2 c2]|e] Hsame2; [|done]. specialize (Hsame2 _ _ eq_refl). rewrite Hs.
    pose proof (next_idle_bounds (rmt_poll s) (ls_idle st2) (c1 || c2) ltac:(rewrite Hsame2, Hsame; done)) as Hb.
    apply calls_then; [split; [simpl; by rewrite Hm|done]|]. intros []; [done|]. apply IH. simpl. lia.
Qed.

Lemma foot_periodic_loop fuel : rmt_mode s = Periodic → ok (periodic_loop fuel a).
Proof.
  intros Hm. induction fuel as [|fuel IH]; cbn [periodic_loop]; [done|].
  apply calls_then; [done|]. intros []; [done|].
  apply calls_try.
  { unfold newest_age. apply calls_try; [apply inner_ok, foot_list_manifests|]. intros l.
    destruct (last l) as [[? ?]|]; [by apply calls_then|done]. }
  intros age. unfold try. eapply (calls_bind _ _ _ (λ r, ∀ d, r = Ok (Some d) → (d ≤ rmt_interval s)%N)).
  - assert (Hpass : ok (periodic_pass a)).
    { unfold periodic_pass. apply calls_then; [done|]. intros []; [|done]. apply calls_try; [|by intros [? ?]].
      unfold sync_once. apply calls_try; [apply foot_sync_target|]. intros o.
      by apply calls_try; [apply foot_prune_target|]. }
    unfold periodic_turn. destruct age as [age|]; [destruct (bool_decide _)|]; done.
  - assert (Hpass : post any (periodic_pass a) (λ r, ∀ d, r = Ok (Some d) → (d ≤ rmt_interval s)%N)).
    { unfold periodic_pass. rewrite Hs. apply any_then. intros []; [|by intros ? [=]].
      apply any_try; [|by intros ? ? [=]]. intros [o rep]. intros d [= <-]. destruct (po_committed o); lia. }
    unfold periodic_turn. destruct age as [age|]; [destruct (bool_decide _)|]; try done.
    intros d [= <-]. unfold until_due. rewrite Hs. lia.
  - intros [[d|]|e] Hd; [|done..]. apply calls_then; [split; [simpl; rewrite Hm; by apply Hd|done]|].
    intros []; [done|]. apply IH.
Qed.

Lemma foot_run_mirror fuel : ok (run_mirror fuel a).
Proof.
  unfold run_mirror. rewrite Hs. destruct (rmt_mode s) eqn:Hm; [|by apply foot_periodic_loop].
  apply calls_then; [done|]. intros t. apply foot_continuous_loop; [done|]. simpl. by rewrite Hs.
Qed.

(** ** Bounded work *)

(** No run of [p] makes more than [n] calls of the kind [K]. *)
Fixpoint at_most {A} (K : ∀ R, call R → bool) (n : nat) (p : prog A) : Prop :=
  match p with
  | Ret _ => True
  | Call c k =>
      if K _ c then match n with 0 => False | S n => ∀ r, at_most K n (k r) end
      else ∀ r, at_most K n (k r)
  end.

Lemma at_most_mono {A} K n n' (p : prog A) : n ≤ n' → at_most K n p → at_most K n' p.
Proof.
  revert n n'. induction p as [x|R c k IH]; intros n n' Hn; simpl; [done|]. destruct (K _ c).
  - destruct n as [|n]; [done|]. destruct n' as [|n']; [lia|]. intros Hk r. eapply IH; [|done]. lia.
  - intros Hk r. by eapply IH.
Qed.

Lemma at_most_bind {A B} K n n' (p : prog A) (f : A → prog B) :
  at_most K n p → (∀ x, at_most K n' (f x)) → at_most K (n + n') (bind p f).
Proof.
  unfold bind. revert n. induction p as [x|R c k IH]; intros n; simpl.
  - intros _ Hf. eapply at_most_mono; [|apply Hf]. lia.
  - destruct (K _ c); [destruct n as [|n]; [done|]|]; intros Hk Hf r; by apply IH.
Qed.

Abbreviation quiet := (calls (λ R c, opens R c = false)).

Lemma inner_quiet {A} (p : prog A) : inner p → quiet p.
Proof. apply calls_mono. by intros R c []. Qed.

Lemma quiet_under_pin {A} pin (p : prog A) : quiet p → quiet (under_pin pin p).
Proof.
  intros Hp. induction p as [x|R c k IH] in pin, Hp |- *; [done|]. destruct Hp as [Hc Hk].
  split; [done|]. intros n. apply calls_then.
  - induction n as [|n IHn] in pin |- *; [done|]. cbn [refresh_times]. apply calls_try; [|intros; apply IHn].
    unfold Pin_refresh. apply calls_then; [done|]. intros [[]|e]; [by apply calls_then|done].
  - intros [pin'|e]; [|done]. split; [done|]. intros r. apply IH, Hk.
Qed.

Lemma at_most_zero {A} K (p : prog A) :
  (∀ R c, opens R c = false → K R c = false) → quiet p → at_most K 0 p.
Proof.
  intros HK. induction p as [x|R c k IH]; simpl; [done|]. intros [Hc Hk]. rewrite (HK _ _ Hc). auto.
Qed.

Definition reads_watermark : ∀ R, call R → bool := λ R c,
  match c with ReadManifest Dest None => true | _ => false end.
Definition pins : ∀ R, call R → bool := λ R c,
  match c with CreateCheckpoint _ _ => true | _ => false end.
Lemma reads_watermark_opens R (c : call R) : opens R c = false → reads_watermark R c = false.
Proof. by destruct c. Qed.
Lemma pins_opens R (c : call R) : opens R c = false → pins R c = false.
Proof. by destruct c. Qed.

(** A pass makes the opening calls of its two openers and no others. *)
Section openers.
Context (K : ∀ R, call R → bool) (nread npin : nat).
Context (HK : ∀ R c, opens R c = false → K R c = false).
Context (Hread : ∀ u, at_most K nread (read_heads u)).
Context (Hpin : ∀ lifetime, at_most K npin (Pin_create name lifetime)).

Lemma quiet_then {A B} n (p : prog A) (f : A → prog B) :
  quiet p → (∀ x, at_most K n (f x)) → at_most K n (bind p f).
Proof. intros Hp Hf. apply (at_most_bind K 0 n); [by apply at_most_zero|done]. Qed.

Lemma inner_then {A B} n (p : prog A) (f : A → prog B) :
  inner p → (∀ x, at_most K n (f x)) → at_most K n (bind p f).
Proof. intros Hp. by apply quiet_then, inner_quiet. Qed.

Lemma pinned_pass_at_most u copier watermark seeding cache :
  cr_kind copier = rmt_copier s → at_most K npin (pinned_pass u name s copier watermark seeding cache).
Proof.
  intros Hk. unfold pinned_pass, tryc. replace npin with (npin + 0) by lia.
  apply at_most_bind; [apply Hpin|]. intros [pin|e]; [|done].
  assert (Hdel : quiet (Pin_delete pin)) by by apply calls_then.
  apply inner_then; [apply foot_cache_read|]. intros [[cache1 [head|]]|e]; [|by apply quiet_then|done].
  apply inner_then; [apply foot_diff|]. intros [cache2 [d|e]]; [|done].
  apply inner_then; [apply foot_plan_work|]. intros [work|e]; [|done].
  apply quiet_then; [|intros r; by apply quiet_then].
  unfold copy_and_commit. apply calls_try.
  - unfold copy_under_pin. apply calls_try; [|by intros [? ?]].
    by apply quiet_under_pin, inner_quiet, foot_copy.
  - intros [pin' copied]. apply calls_then; [by apply calls_then|].
    intros []; [done|apply inner_quiet, foot_commit].
Qed.

Lemma pass_once_at_most u copier cache :
  cr_kind copier = rmt_copier s → at_most K (nread + npin) (pass_once u name s copier cache).
Proof.
  intros Hk. unfold pass_once, tryc. apply at_most_bind; [apply Hread|].
  intros [[watermark head]|e]; [|done]. destruct (bool_decide _); [done|].
  apply inner_then; [apply foot_diff|]. intros [cache2 [d|e]]; [|done].
  apply inner_then; [apply foot_plan_work|]. intros [[|rel work]|e]; [|by apply pinned_pass_at_most|done].
  apply inner_then; [apply foot_commit|done].
Qed.

Lemma sync_pass_at_most u : at_most K (MAX_RESTARTS * (nread + npin)) (sync_pass u name s).
Proof.
  unfold sync_pass. generalize MAX_RESTARTS, (∅ : ManifestCache), EmptyString. intros n.
  induction n as [|n IH]; intros cache reason; cbn [sync_loop]; [done|].
  apply (at_most_bind K (nread + npin) (n * (nread + npin))); [by apply pass_once_at_most|].
  intros [cache' [o|[r|e]]]; [done|apply IH|done].
Qed.
End openers.
End task.

(** ** The claims *)

(** C39: a mirror task never writes to its source.  Whatever its calls answer,
    in either mode and with or without retention, it reads the source, lists
    the checkpoints named for its target, and creates, extends and deletes
    checkpoints there, with the pin's name and the configured lifetime; it
    writes objects to the target only, deletes there only when retention is
    set, runs rclone only when configured, and never sleeps longer than
    [max(poll, 5 min)] in continuous mode (nor shorter than [poll]) or than
    [interval] in periodic mode. *)
Theorem mirror_footprint fuel a :
  calls (allowed (at_name (as_target a)) (settings_of a)) (run_mirror fuel a).
Proof. by apply foot_run_mirror. Qed.

(** C40: a sync call ends: it begins at most [MAX_RESTARTS] passes, each
    reading the target's watermark once and pinning the source at most once,
    so at most five pins are ever created by it, whatever the calls answer. *)
Theorem sync_pass_bounded u name s :
  at_most reads_watermark 5 (sync_pass u name s) ∧ at_most pins 5 (sync_pass u name s).
Proof.
  split.
  - apply (sync_pass_at_most name s reads_watermark 1 0); [apply reads_watermark_opens|..].
    + intros v. apply (at_most_bind _ 1 0); [by intros r|]. intros [wm|e]; [|done].
      intros [[head|]|e]; [|done..]. unfold bind. destruct (check_source _ head); [|done].
      destruct wm; [|done]. by destruct (bool_decide _).
    + by intros lifetime [[id mid]|e].
  - apply (sync_pass_at_most name s pins 0 1); [apply pins_opens|..].
    + intros v [wm|e]; [|done]. intros [[head|]|e]; [|done..]. unfold bind. destruct (check_source _ head); [|done].
      destruct wm; [|done]. by destruct (bool_decide _).
    + by intros lifetime [[id mid]|e].
Qed.
End footprint.
