(* ===== verification/Solo.v ===== *)
(** * A task alone at its target

    Reasoning about a program that no other task of the target runs beside:
    between its calls only the source and the clock move.  Its own calls keep
    the target's invariant and a guarantee [G] of the client's choice: the
    pruner's is that the target only loses objects, a whole mirror task's that
    its newest manifest never goes back. *)

From S2P Require Import Prelude Order Text Store Slate Effects Layout Rely.

Section solo.
Context `{SL : SlateLib, SW : !SlateLaws}.
Implicit Types (w : world) (m : VersionedManifest).

Lemma source_step_refl w : wf_source w → source_step w w.
Proof. by split. Qed.
#[export] Instance source_step_trans : Transitive source_step.
Proof. intros w1 w2 w3 [] []. split; try done; by etrans. Qed.

(** What a guarantee must tolerate. *)
Class Guarantee (G : world → world → Prop) : Prop := {
  guarantee_trans :: Transitive G;
  guarantee_refl w : G w w;
  guarantee_source w w' : Inv w → source_step w w' → G w w';
}.

(** [wp] where only the source moves between the calls. *)
Fixpoint wps (G : world → world → Prop) {A} (p : prog A) (Q : A → world → Prop) w : Prop :=
  match p with
  | Ret a => Q a w
  | Call c k =>
      ∀ w1 r w2, source_step w w1 → Inv w1 → handle c w1 r w2 → Inv w2 ∧ G w1 w2 ∧ wps G (k r) Q w2
  end.

Section rules.
Context {G : world → world → Prop}.

Lemma wps_conseq {A} (p : prog A) (Q Q' : A → world → Prop) w :
  wps G p Q w → (∀ a w', Q a w' → Q' a w') → wps G p Q' w.
Proof.
  revert w. induction p as [a|R c k IH]; intros w Hp HQ; simpl in *; [auto|].
  intros w1 r w2 H1 Hi Hh. destruct (Hp w1 r w2 H1 Hi Hh) as (H2 & Ht & Hk). split_and!; [done|done|]. by apply IH.
Qed.

Lemma wps_bind {A B} (p : prog A) (f : A → prog B) (P : A → world → Prop) Q w :
  wps G p P w → (∀ a w', P a w' → wps G (f a) Q w') → wps G (bind p f) Q w.
Proof.
  unfold bind. revert w. induction p as [a|R c k IH]; intros w Hp HQ; simpl in *; [auto|].
  intros w1 r w2 H1 Hi Hh. destruct (Hp w1 r w2 H1 Hi Hh) as (H2 & Ht & Hk). split_and!; [done|done|]. by apply IH.
Qed.

Lemma wps_try {E F A B} (conv : E → F) (p : prog (Result E A)) (f : A → prog (Result F B)) P Q w :
  wps G p P w → (∀ a w', P (Ok a) w' → wps G (f a) Q w') → (∀ e w', P (Err e) w' → Q (Err (conv e)) w') →
  wps G (try conv p f) Q w.
Proof. intros Hp Ho He. eapply wps_bind; [done|]. intros [a|e] w' HP; simpl; eauto. Qed.

Lemma wps_stable {A} (p : prog A) w w' :
  source_step w w' → wps G p (λ _ _, True) w → wps G p (λ _ _, True) w'.
Proof.
  intros Hs. destruct p as [a|R c k]; [done|]. simpl. intros Hp w1 r w2 H1. apply Hp. by etrans.
Qed.

(** Soundness: every state a lone task reaches satisfies the invariant and the
    guarantee since the start. *)
Definition lone_safe {A} w0 (s : system (A := A)) : Prop :=
  Inv s.1 ∧ G w0 s.1 ∧ ∀ i p, s.2 !! i = Some p → i = 0 ∧ wps G p (λ _ _, True) s.1.

Context `{!Guarantee G}.

Lemma lone_step {A} w0 (s s' : system (A := A)) : step s s' → lone_safe w0 s → lone_safe w0 s'.
Proof.
  destruct 1 as [v v' ps Hs|v v' ps i R c k r Hlk Hh]; intros (Hi & Ht & Hps); simpl in *.
  - split_and!; [apply (rl_inv v), source_step_rely; done|etrans; [done|by apply guarantee_source]|].
    intros i q Hq. destruct (Hps i q Hq) as [-> ?]. split; [done|]. by eapply wps_stable.
  - destruct (Hps _ _ Hlk) as [-> Hp].
    destruct (Hp v r v' (source_step_refl _ (inv_wf _ Hi)) Hi Hh) as (Hi' & Ht' & Hk).
    split_and!; [done|by etrans|]. simpl. intros i q. destruct ps as [|p0 ps]; [done|].
    destruct i as [|i]; simpl; [intros [= <-]; by split|]. intros Hq. by destruct (Hps (S i) q Hq).
Qed.

Lemma lone_steps {A} (p : prog A) w s' :
  Inv w → wps G p (λ _ _, True) w → rtc step (w, [p]) s' → Inv s'.1 ∧ G w s'.1.
Proof.
  intros Hi Hp Hsteps. assert (Hsafe : lone_safe w (w, [p])).
  { split_and!; [done|apply guarantee_refl|]. intros [|i] q; simpl; [by intros [= <-]|by intros [=]]. }
  clear Hi Hp. enough (lone_safe w s') as (? & ? & _) by done. revert Hsafe.
  generalize w at 1 3. intros w0. induction Hsteps as [|s1 s2 s3 Hs _ IH]; [done|]. intros. apply IH. by eapply lone_step.
Qed.
End rules.

(** A stronger guarantee. *)
Lemma wps_weaken {A} (G G' : world → world → Prop) (p : prog A) Q w :
  (∀ w w', Inv w → Inv w' → G w w' → G' w w') → wps G p Q w → wps G' p Q w.
Proof.
  intros HG. revert w. induction p as [a|R c k IH]; intros w Hp; simpl in *; [done|].
  intros w1 r w2 H1 Hi Hh. destruct (Hp w1 r w2 H1 Hi Hh) as (H2 & Ht & Hk). split_and!; auto.
Qed.

(** What holds among other tasks holds alone. *)
Lemma wp_wps {A} (p : prog A) Q w : Inv w → wp p Q w → wps rely p Q w.
Proof.
  unfold wp. revert w. induction p as [a|R c k IH]; intros w Hi Hp; simpl in *; [done|].
  intros w1 r w2 H1 Hi1 Hh. destruct (Hp w1 r w2 (source_step_rely _ _ Hi H1) Hh) as [H2 Hk].
  split_and!; [apply H2|done|]. apply IH; [apply H2|done].
Qed.

(** ** Two guarantees *)

(** The target only loses objects, and never its newest manifest. *)
Definition thins w w' : Prop :=
  w_dest w' ⊆ w_dest w ∧ ∀ id, dest_latest w id → dest_latest w' id.

Lemma thins_refl w : thins w w.
Proof. done. Qed.
Lemma thins_source w w' : source_step w w' → thins w w'.
Proof. intros []. unfold thins, dest_latest. by rewrite ss_dest. Qed.
#[export] Instance thins_guarantee : Guarantee thins.
Proof.
  split; [intros w1 w2 w3 [] []; split; [by etrans|auto]|apply thins_refl|by intros; apply thins_source].
Qed.

(** The newest manifest at the target only gets newer. *)
Definition advances w w' : Prop :=
  ∀ id, dest_latest w id → ∃ id', (id ≤ id')%N ∧ dest_latest w' id'.

(** A source as SlateDB keeps it and a target of its objects only. *)
Record sound w : Prop := {
  so_wf : wf_source w;
  so_faithful : ∀ rel b, w_dest w !! rel = Some b → source_has w rel b;
}.
Lemma inv_sound w : Inv w → sound w.
Proof. intros []. by split. Qed.

(** A target with manifests has a newest one. *)
Lemma dest_latest_exists w id :
  sound w → (id ≤ U64_MAX)%N → at_dest w (manifest_rel id) → ∃ id', (id ≤ id')%N ∧ dest_latest w id'.
Proof.
  intros [Hwf Hf] Hid Hat.
  assert (Hhist : ∀ i, (i ≤ U64_MAX)%N → at_dest w (manifest_rel i) → is_Some (w_hist w !! i)).
  { intros i Hle [b Hb]. destruct (source_has_manifest _ _ _ Hwf Hle (Hf _ _ Hb)) as (m & Hm & _). by eexists. }
  set (ids := filter (λ i, (i ≤ U64_MAX)%N ∧ is_Some (w_dest w !! manifest_rel i)) (elements (dom (w_hist w)))).
  assert (Hids : ∀ i, i ∈ ids ↔ (i ≤ U64_MAX)%N ∧ at_dest w (manifest_rel i)).
  { intros i. unfold ids. rewrite list_elem_of_filter, elem_of_elements, elem_of_dom. naive_solver. }
  destruct (maximum_exists ids id) as (x & Hx & Hmax); [by apply Hids|].
  apply Hids in Hx as [Hxid Hxat]. exists x. split; [by apply Hmax, Hids|]. split_and!; [done|done|].
  intros i ? ?. by apply Hmax, Hids.
Qed.

Lemma rely_advances w w' : rely w w' → advances w w'.
Proof.
  intros Hr id (Hid & Hat & _). apply dest_latest_exists; [apply inv_sound, Hr|done|by eapply at_dest_rely].
Qed.
Lemma thins_advances w w' : thins w w' → advances w w'.
Proof. intros [_ Ht] id Hid. exists id. split; [done|auto]. Qed.
#[export] Instance advances_guarantee : Guarantee advances.
Proof.
  split.
  - intros w1 w2 w3 H1 H2 id Hid. destruct (H1 id Hid) as (i & ? & Hi). destruct (H2 i Hi) as (j & ? & Hj).
    exists j. split; [lia|done].
  - intros w id Hid. by exists id.
  - intros w w' _ Hs. by apply thins_advances, thins_source.
Qed.
End solo.
Arguments wps : simpl never.

(** A call that reads, between the source's steps. *)
Ltac wps_read :=
  let w1 := fresh "w1" in let r := fresh "r" in let Hs := fresh "Hs" in let Hi := fresh "Hi" in
  let Hres := fresh "Hres" in
  intros w1 r ? Hs Hi Hres; simpl in Hres; (destruct Hres as [-> Hres] || subst); split; [done|].
