(* ===== verification/PruneSafety.v ===== *)
(** * What retention preserves

    The pruner alone at the target while the source moves: at every point of
    a prune, failures and crashes included, the target stays a faithful,
    complete mirror with the same newest manifest.  Prunes that overlap other
    tasks of the target rely on ages and clocks ([min_age]) and are not
    covered. *)

From S2P Require Import Prelude Order Text Store Slate Effects Config Registry.
From S2P Require Import Layout Copier Pass Targets Prune Loops Rely MirrorSafety Mirroring Progress Scenario Solo.

Section reading.
Context `{SL : SlateLib, SW : !SlateLaws}.
Implicit Types (w : world) (m : VersionedManifest).

(** ** Reading the target *)

(** Until the first deletion the objects at the target are [D]. *)
Definition stage (D : gmap string string) (t : Z) w : Prop := Inv w ∧ w_dest w = D ∧ (t ≤ w_time w)%Z.

Lemma stage_step D t w w' : source_step w w' → Inv w' → stage D t w → stage D t w'.
Proof. intros [] Hi (_ & <- & Ht). split_and!; [done|done|lia]. Qed.

Lemma wps_stage_read {R} D t (c : call R) (P : R → Prop) w :
  stage D t w →
  (∀ w1 r w2, stage D t w1 → handle c w1 r w2 → w2 = w1 ∧ P r) →
  wps thins (ask c) (λ r w', stage D t w' ∧ P r) w.
Proof.
  intros Hw Hc w1 r w2 Hs Hi Hh. pose proof (stage_step _ _ _ _ Hs Hi Hw) as Hw1.
  destruct (Hc w1 r w2 Hw1 Hh) as [-> HP]. done.
Qed.

(** Files under [manifest/] at a faithful target are manifests under their
    own names. *)
Lemma dest_manifest_name w name id :
  Inv w → is_Some (w_dest w !! (MANIFEST_DIR +:+ "/" +:+ name)) → parse_manifest_name name = Some id →
  (id ≤ U64_MAX)%N ∧ is_Some (w_dest w !! manifest_rel id).
Proof.
  intros Hi [b Hb] Hp. destruct (inv_faithful _ Hi _ _ Hb) as [Hc|(i & m & Hrel & Hm & _)].
  - by rewrite (wf_names _ (inv_wf _ Hi)) in Hc.
  - destruct (wf_ids _ (inv_wf _ Hi) _ _ Hm) as [_ Hid].
    assert (name = manifest_name i) as -> by (unfold manifest_rel in Hrel; simpl in Hrel; by injection Hrel).
    rewrite parse_manifest_name_name in Hp by done. injection Hp as <-. split; [done|by eexists].
Qed.

Definition listed (D : gmap string string) (l : list (N * Listed)) : Prop :=
  StronglySorted by_id l ∧ ∀ id, id ∈ l.*1 ↔ (id ≤ U64_MAX)%N ∧ is_Some (D !! manifest_rel id).

Lemma wps_list_dir D t dir w :
  stage D t w →
  wps thins (list_dir Dest dir) (λ r w', stage D t w' ∧ match r with
    | Ok l => ∀ name, name ∈ li_name <$> l ↔ is_Some (D !! (dir +:+ "/" +:+ name))
    | Err _ => True end) w.
Proof.
  intros Hw. unfold list_dir. eapply (wps_bind _ _ (λ r w', stage D t w' ∧ match r with
    | Ok l => ∀ name, name ∈ li_name <$> l ↔ is_Some (D !! (dir +:+ "/" +:+ name))
    | Err (NotFound _) => ∀ name, D !! (dir +:+ "/" +:+ name) = None | Err _ => True end)).
  - apply wps_stage_read; [done|]. intros w1 r w2 (_ & <- & _) [-> Hr]. split; [done|].
    by destruct r as [l|[]].
  - intros [l|[]] w1 [Hw1 Hl]; split; try done. intros name. split; [by intros ?%elem_of_nil|].
    intros [b Hb]. by rewrite Hl in Hb.
Qed.

Lemma wps_list_manifests D t w :
  stage D t w →
  wps thins (list_manifests Dest) (λ r w', stage D t w' ∧ match r with Ok l => listed D l | Err _ => True end) w.
Proof.
  intros Hw. unfold list_manifests. eapply wps_try; [by apply wps_list_dir| |by intros e w1 []].
  intros l w1 [Hw1 Hl]. split; [done|]. split; [apply sort_by_sorted; apply _|].
  destruct Hw1 as (Hi & HD & _). intros id. rewrite list_elem_of_fmap. split.
  - intros ([id' meta] & -> & Hin). rewrite elem_of_sort_by in Hin.
    apply list_elem_of_omap in Hin as (x & Hx & Hp). apply bind_Some in Hp as (i & Hp & [= -> ->]).
    simpl. rewrite <-HD. eapply dest_manifest_name; [done| |done]. rewrite HD. apply Hl. apply list_elem_of_fmap. eauto.
  - intros [Hid Hat]. assert (Hn : manifest_name id ∈ li_name <$> l) by by apply Hl.
    apply list_elem_of_fmap in Hn as (x & Hx & Hin). exists (id, x). split; [done|]. apply elem_of_sort_by.
    apply list_elem_of_omap. exists x. split; [done|]. by rewrite <-Hx, parse_manifest_name_name.
Qed.

(** The files of the other listings, by what their names say. *)
Lemma wps_list_compacted D t w :
  stage D t w →
  wps thins (list_compacted Dest) (λ r w', stage D t w' ∧ match r with
    | Ok l => ∀ u meta, (u, meta) ∈ l → location COMPACTED_DIR meta = compacted_rel u
    | Err _ => True end) w.
Proof.
  intros Hw. unfold list_compacted. eapply wps_try; [by apply wps_list_dir| |by intros e w1 []].
  intros l w1 [Hw1 _]. split; [done|]. intros u meta (x & Hx & Hp)%list_elem_of_omap.
  apply bind_Some in Hp as (v & Hp & [= -> ->]). unfold parse_compacted_name in Hp.
  apply bind_Some in Hp as (v & Hv%strip_suffix_spec & Hp). case_match; simplify_eq.
  unfold location, compacted_rel. by rewrite Hv.
Qed.

Lemma wps_list_wals D t w :
  stage D t w →
  wps thins (list_wals Dest) (λ r w', stage D t w' ∧ match r with
    | Ok l => ∀ id meta, (id, meta) ∈ l → parse_wal_name (li_name meta) = Some id
    | Err _ => True end) w.
Proof.
  intros Hw. unfold list_wals. eapply wps_try; [by apply wps_list_dir| |by intros e w1 []].
  intros l w1 [Hw1 _]. split; [done|]. intros id meta. rewrite elem_of_sort_by.
  intros (x & Hx & Hp)%list_elem_of_omap. by apply bind_Some in Hp as (v & Hp & [= -> ->]).
Qed.

(** Reading manifests of the target. *)
Definition decodes (D : gmap string string) (id : N) m : Prop := D !! manifest_rel id = Some (manifest_bytes m).
Definition decoded_ok D (cache : ManifestCache) : Prop := ∀ id m, cache !! id = Some m → decodes D id m.

Lemma wps_cache_read D t cache id w :
  stage D t w → decoded_ok D cache →
  wps thins (cache_read Dest cache id) (λ r w', stage D t w' ∧ match r with
    | Ok (cache', Some m) => decoded_ok D cache' ∧ decodes D id m
    | Ok (cache', None) => decoded_ok D cache' ∧ D !! manifest_rel id = None
    | Err _ => True end) w.
Proof.
  intros Hw Hc. unfold cache_read. destruct (cache !! id) as [m|] eqn:E; [by split_and!; try apply Hc|].
  eapply (wps_try _ _ _ (λ r w', stage D t w' ∧ match r with
    | Ok (Some m) => decodes D id m | Ok None => D !! manifest_rel id = None | Err _ => True end)).
  - apply wps_stage_read; [done|]. intros w1 r w2 (_ & <- & _) [-> Hr]. split; [done|].
    destruct r as [[m|]|]; [|done..]. apply Hr.
  - intros [m|] w1 [Hw1 Hm]; [|done]. split_and!; try done. intros i m'. destruct (decide (id = i)) as [<-|].
    + rewrite lookup_insert_eq. by intros [= <-].
    + rewrite lookup_insert_ne by done. apply Hc.
  - by intros e w1 [].
Qed.
End reading.

Section pruning.
Context `{SL : SlateLib, SW : !SlateLaws}.
Implicit Types (w : world) (m : VersionedManifest).

(** ** What is kept *)
Lemma wps_keep_loop D t now ids points cache kept w :
  stage D t w → decoded_ok D cache →
  wps thins (keep_loop now ids points cache kept) (λ r w', stage D t w' ∧ match r with
    | Ok (cache', kept') => decoded_ok D cache' ∧ kept ⊆ kept' ∧
        (∀ id, id ∈ points → id ∈ kept') ∧ (∀ id, id ∈ kept' → id ∈ kept ∨ id ∈ points ∨ id ∈ ids) ∧
        (∀ id m, id ∈ points → decodes D id m → supported now ids m ⊆ kept')
    | Err _ => True end) w.
Proof.
  revert cache kept w. induction points as [|id points IH]; intros cache kept w Hw Hc; cbn [keep_loop].
  { split_and!; try done; [by intros ? ?%elem_of_nil|by left|by intros ? ? ?%elem_of_nil]. }
  eapply wps_try; [by apply wps_cache_read| |by intros e w1 []].
  intros [cache1 [m|]] w1 [Hw1 [Hc1 Hm]]; (eapply wps_conseq; [by apply IH|]);
    intros [[cache' kept']|e] w2 [Hw2 Hr]; (split; [done|]); try done;
    destruct Hr as (Hc' & Hsub & Hpts & Honly & Hsup); split_and!; try done.
  - set_solver.
  - intros i [->|?]%elem_of_cons; [set_solver|auto].
  - intros i Hin. destruct (Honly i Hin) as [[Hs|Hs]%elem_of_union|[?|?]]; [| |set_solver|set_solver].
    + right. right. unfold supported in Hs. set_solver.
    + set_solver.
  - intros i m' [->|?]%elem_of_cons Hd; [|by eapply Hsup].
    assert (m' = m) as -> by (apply (inj manifest_bytes); unfold decodes in *; congruence). set_solver.
  - set_solver.
  - intros i [->|?]%elem_of_cons; [set_solver|auto].
  - intros i Hin. destruct (Honly i Hin) as [Hs|[?|?]]; set_solver.
  - intros i m' [->|?]%elem_of_cons Hd; [|by eapply Hsup]. unfold decodes in Hd. congruence.
Qed.

Definition mo_sub (a b : ManifestObjects) : Prop := mo_wal a ⊆ mo_wal b ∧ mo_compacted a ⊆ mo_compacted b.
#[local] Instance mo_sub_trans : Transitive mo_sub.
Proof. intros a b c [] []. split; by etrans. Qed.

Lemma wps_kept_objects_loop D t ids cache objects all w :
  stage D t w → decoded_ok D cache →
  wps thins (kept_objects_loop ids cache objects all) (λ r w', stage D t w' ∧ match r with
    | Ok (cache', objects', all') => decoded_ok D cache' ∧ mo_sub objects objects' ∧
        (all' = true → all = true ∧ ∀ id, id ∈ ids → ∃ m, decodes D id m ∧ mo_sub (manifest_objects m) objects')
    | Err _ => True end) w.
Proof.
  revert cache objects all w. induction ids as [|id ids IH]; intros cache objects all w Hw Hc; cbn [kept_objects_loop].
  { split; [done|]. split; [done|]. split; [by split|]. intros Ha. split; [done|by intros ? ?%elem_of_nil]. }
  eapply wps_try; [by apply wps_cache_read| |by intros e w1 []].
  intros [cache1 [m|]] w1 [Hw1 [Hc1 Hm]]; (eapply wps_conseq; [by apply IH|]);
    intros [[[cache' objs'] all']|e] w2 [Hw2 Hr]; (split; [done|]); try done; destruct Hr as (Hc' & Hsub & Hall).
  - assert (Hext : mo_sub objects objs' ∧ mo_sub (manifest_objects m) objs').
    { destruct Hsub as [Hs1 Hs2]. simpl in *. split; split; set_solver. }
    split_and!; [done|apply Hext|]. intros Ha. destruct (Hall Ha) as [-> Hrest]. split; [done|].
    intros i [->|?]%elem_of_cons; [exists m; split; [done|apply Hext]|auto].
  - split_and!; [done|done|]. intros Ha. by destruct (Hall Ha).
Qed.
End pruning.

Section deleting.
Context `{SL : SlateLib, SW : !SlateLaws}.
Implicit Types (w : world) (m : VersionedManifest).

(** ** The deletions *)
Definition without w (rel : string) : world := set_dest w (delete rel (w_dest w)).

(** Deleting under an invariant that every single deletion preserves. *)
Lemma wps_delete_all (J : world → Prop) rels n w :
  (∀ w, J w → Inv w) → (∀ w w', source_step w w' → Inv w' → J w → J w') →
  (∀ w rel, rel ∈ rels → J w → J (without w rel) ∧ thins w (without w rel)) → J w →
  wps thins (delete_all rels n) (λ r w', J w' ∧ match r with
    | Ok _ => ∀ rel, rel ∈ rels → w_dest w' !! rel = None | Err _ => True end) w.
Proof.
  intros HJ Hstep Hdel Hw.
  enough (H : ∀ (done_ : list string) rels', (∀ rel, rel ∈ rels' → rel ∈ rels) → ∀ n w, J w →
    (∀ rel, rel ∈ done_ → w_dest w !! rel = None) →
    wps thins (delete_all rels' n) (λ r w', J w' ∧ match r with
      | Ok _ => ∀ rel, rel ∈ done_ ∨ rel ∈ rels' → w_dest w' !! rel = None | Err _ => True end) w).
  { eapply wps_conseq; [apply (H [] rels); [done|done|by intros ? ?%elem_of_nil]|].
    intros [k|e] w' [Hw' Hr]; (split; [done|]); [|done]. intros rel Hin. apply Hr. by right. }
  clear n w Hw. intros done_ rels'. revert done_. induction rels' as [|rel rels' IH]; intros done_ Hsub n w Hw Hdone.
  { split; [done|]. intros rel [?|?%elem_of_nil]; [auto|done]. }
  cbn [delete_all]. intros w1 r w2 Hs Hi Hh.
  pose proof (Hstep _ _ Hs Hi Hw) as Hw1. assert (Hw1' : J (without w1 rel) ∧ thins w1 (without w1 rel)) by (apply Hdel; [apply Hsub; by left|done]).
  assert (Hd1 : ∀ x, x ∈ done_ → w_dest w1 !! x = None) by (intros x Hx; rewrite (ss_dest _ _ Hs); auto).
  assert (Hgo : (J w2 ∧ thins w1 w2) ∧ (∀ x, x ∈ rel :: done_ → w_dest w2 !! x = None) →
    Inv w2 ∧ thins w1 w2 ∧ wps thins (delete_all rels' (n + 1)) (λ r w', J w' ∧ match r with
      | Ok _ => ∀ x, x ∈ done_ ∨ x ∈ rel :: rels' → w_dest w' !! x = None | Err _ => True end) w2).
  { intros [[Hw2 Ht2] Hd2]. split; [auto|split; [done|]]. eapply wps_conseq; [apply (IH (rel :: done_)); [|done|done]|].
    - intros x Hx. apply Hsub. by right.
    - intros [k|e] w' [Hw' Hr]; (split; [done|]); [|done]. intros x Hx. apply Hr. set_solver. }
  destruct r as [[]|[]]; simpl in Hh.
  - subst w2. apply Hgo. split; [done|]. intros x [->|Hx]%elem_of_cons; simpl; [by rewrite lookup_delete_eq|].
    destruct (decide (rel = x)) as [->|]; [by rewrite lookup_delete_eq|].
    rewrite lookup_delete_ne by done. auto.
  - destruct Hh as [-> Hn]. apply Hgo. split; [done|]. intros x [->|Hx]%elem_of_cons; auto.
  - destruct Hw1'. destruct Hh as [-> | ->]; (split; [by auto|split; [done|split; [done|exact I]]]).
  - destruct Hw1'. destruct Hh as [-> | ->]; (split; [by auto|split; [done|split; [done|exact I]]]).
Qed.

Section plan.
Context (D : gmap string string) (now : Z) (latest : N) (kept : gset N) (objects : ManifestObjects).
Context (Hkept : ∀ id, id ∈ kept → (id ≤ U64_MAX)%N ∧ is_Some (D !! manifest_rel id)).
Context (Hlatest : latest ∈ kept).
Context (Hmax : ∀ id, (id ≤ U64_MAX)%N → is_Some (D !! manifest_rel id) → (id ≤ latest)%N).
Context (Hpins : ∀ m cp, decodes D latest m → cp ∈ m_checkpoints m → outlives cp now →
  (cp_manifest_id cp ≤ U64_MAX)%N → is_Some (D !! manifest_rel (cp_manifest_id cp)) → cp_manifest_id cp ∈ kept).

(** While manifests are deleted: the kept ones are all there. *)
Definition thinned w : Prop :=
  Inv w ∧ (now ≤ w_time w)%Z ∧ w_dest w ⊆ D ∧ ∀ id, id ∈ kept → w_dest w !! manifest_rel id = D !! manifest_rel id.

Lemma thinned_step w w' : source_step w w' → Inv w' → thinned w → thinned w'.
Proof.
  intros [_ _ Ht _ Hd] Hi (_ & Hn & Hsub & Hk). unfold thinned. rewrite Hd. split_and!; try done. lia.
Qed.

Lemma at_dest_without w rel rel' : at_dest (without w rel) rel' ↔ rel ≠ rel' ∧ at_dest w rel'.
Proof. unfold at_dest. simpl. rewrite lookup_delete_is_Some. done. Qed.

(** The newest manifest stays the newest. *)
Lemma thinned_latest w : thinned w → dest_latest w latest.
Proof.
  intros (Hi & _ & Hsub & Hk). destruct (Hkept _ Hlatest) as [Hid Hat].
  split_and!; [done|by rewrite (Hk _ Hlatest)|]. intros id Hid' [b Hb]. apply Hmax; [done|].
  exists b. by eapply lookup_weaken.
Qed.

Lemma without_inv w rel :
  thinned w → (∀ id, id ∈ kept → rel ≠ manifest_rel id) →
  (∀ id m, w_hist w !! id = Some m → at_dest w (manifest_rel id) → rel ≠ manifest_rel id →
     rel ∉ mo_rel_names (manifest_objects m)) →
  thinned (without w rel).
Proof.
  intros Hth Hrel Hobj. pose proof Hth as (Hi & Hn & Hsub & Hk).
  assert (Hkeep : ∀ id, id ∈ kept → w_dest (without w rel) !! manifest_rel id = D !! manifest_rel id).
  { intros id Hid. simpl. rewrite lookup_delete_ne by auto. auto. }
  assert (Hsub' : w_dest (without w rel) ⊆ D) by (simpl; etrans; [apply delete_subseteq|done]).
  split; [|done]. split.
  - by destruct (inv_wf _ Hi).
  - intros r b. simpl. rewrite lookup_delete_Some. intros [_ Hb]. by apply (inv_faithful _ Hi).
  - intros id m Hm [Hne Hat]%at_dest_without r Hr. apply at_dest_without. split.
    + intros <-. by eapply Hobj.
    + by eapply (inv_complete _ Hi).
  - intros id m cp l Hdl Hm Hcp Hout Hl Hcar. simpl in Hout.
    assert (id = latest) as ->.
    { destruct Hdl as (Hid & [b Hb] & Hmx). apply N.le_antisymm.
      - apply Hmax; [done|]. exists b. by eapply lookup_weaken.
      - destruct (Hkept _ Hlatest). apply Hmx; [done|]. by rewrite Hkeep. }
    pose proof (thinned_latest w Hth) as Hdl0.
    pose proof (inv_closed _ Hi latest m cp l Hdl0 Hm Hcp Hout Hl Hcar) as Hat.
    apply at_dest_without. split; [|done]. apply Hrel.
    assert (Hpin : (cp_manifest_id cp ≤ U64_MAX)%N).
    { pose proof (wf_pins _ (inv_wf _ Hi) _ _ _ Hm Hcp). destruct (wf_ids _ (inv_wf _ Hi) _ _ Hm). lia. }
    eapply Hpins; [|done| |done|].
    + destruct Hdl0 as (_ & [b Hb] & _). unfold decodes. rewrite <-(Hk _ Hlatest), Hb. f_equal.
      by eapply dest_manifest_bytes.
    + eapply outlives_mono; [|done]. done.
    + destruct Hat as [b Hb]. exists b. by eapply lookup_weaken.
Qed.

Lemma dest_latest_unique w i j : dest_latest w i → dest_latest w j → i = j.
Proof. intros (? & ? & Hi) (? & ? & Hj). apply N.le_antisymm; [by apply Hj|by apply Hi]. Qed.

Lemma thinned_thins w rel : thinned w → thinned (without w rel) → thins w (without w rel).
Proof.
  intros Hth Hth'. split; [apply delete_subseteq|]. intros id Hid.
  rewrite (dest_latest_unique _ _ _ Hid (thinned_latest _ Hth)). by apply thinned_latest.
Qed.

(** Once the stale manifests are gone, the kept ones are all there are. *)
Definition pruned w : Prop :=
  thinned w ∧ ∀ id, (id ≤ U64_MAX)%N → at_dest w (manifest_rel id) → id ∈ kept.

Lemma pruned_step w w' : source_step w w' → Inv w' → pruned w → pruned w'.
Proof.
  intros Hs Hi [Hth Hk]. split; [by eapply thinned_step|]. intros id Hid. unfold at_dest.
  rewrite (ss_dest _ _ Hs). by apply Hk.
Qed.

Lemma wps_stale_manifests manifests n w :
  listed D manifests → thinned w →
  wps thins (delete_all (stale_manifests kept manifests) n) (λ r w', thinned w' ∧ match r with
    | Ok _ => pruned w' | Err _ => True end) w.
Proof.
  intros [_ Hl] Hw. eapply wps_conseq; [apply (wps_delete_all thinned)|].
  - by intros w' [].
  - by apply thinned_step.
  - intros v rel (x & -> & [Hx Hin]%list_elem_of_filter)%list_elem_of_fmap Hv.
    enough (thinned (without v (manifest_rel x.1))) by (split; [done|by apply thinned_thins]).
    apply without_inv; [done| |].
    + intros id Hid E. destruct (Hkept id Hid) as [? _].
      assert (x.1 ∈ manifests.*1) as [? _]%Hl by (apply list_elem_of_fmap; eauto).
      apply manifest_rel_inj in E; [|done..]. by subst.
    + intros id m _ _ _ Hr. by eapply rel_names_not_manifest.
  - done.
  - intros [k|e] w' [Hw' Hr]; (split; [done|]); [|done]. split; [done|]. intros id Hid Hat.
    destruct (decide (id ∈ kept)) as [|Hno]; [done|]. exfalso. destruct Hat as [b Hb].
    assert (id ∈ manifests.*1) as (x & -> & Hin)%list_elem_of_fmap.
    { apply Hl. split; [done|]. exists b. eapply lookup_weaken; [done|apply Hw']. }
    rewrite (Hr (manifest_rel x.1)) in Hb; [done|].
    apply list_elem_of_fmap. exists x. split; [done|]. by apply list_elem_of_filter.
Qed.

(** Files that are no kept manifest's objects. *)
Definition loose w (rel : string) : Prop :=
  ¬ is_manifest_name rel ∧
  ∀ m id, w_hist w !! id = Some m → mo_sub (manifest_objects m) objects → rel ∉ mo_rel_names (manifest_objects m).

Lemma loose_compacted w meta u :
  location COMPACTED_DIR meta = compacted_rel u → u ∉ mo_compacted objects → loose w (location COMPACTED_DIR meta).
Proof.
  intros -> Hu. split; [by intros []|]. intros m id _ [_ Hsub].
  rewrite elem_of_rel_names. intros [(i & _ & E)|(v & Hv & E)]; [done|].
  apply compacted_rel_inj in E as ->. by apply Hu, Hsub.
Qed.

Lemma loose_wal w meta i :
  wf_source w → parse_wal_name (li_name meta) = Some i → i ∉ mo_wal objects → loose w (location WAL_DIR meta).
Proof.
  intros Hwf Hp Hi. split; [by intros []|]. intros m id Hm [Hsub _].
  rewrite elem_of_rel_names. intros [(j & Hj & E)|(v & _ & E)]; [|done].
  assert (Hmax' : (j ≤ U64_MAX)%N).
  { apply (proj1 (proj2 (manifest_objects_exact m))) in Hj as [Hj|Hj].
    - rewrite <-elem_of_manifest_ssts in Hj. by eapply (wf_wals _ Hwf).
    - pose proof (wf_next _ Hwf _ _ Hm). lia. }
  assert (li_name meta = wal_name j) as Hn by (unfold location, wal_rel in E; simpl in E; by injection E).
  rewrite Hn, parse_wal_name_name in Hp by done. injection Hp as <-. by apply Hi, Hsub.
Qed.

Context (Hobjects : ∀ id, id ∈ kept → ∃ m, decodes D id m ∧ mo_sub (manifest_objects m) objects).

Lemma wps_loose rels n w :
  (∀ w rel, wf_source w → rel ∈ rels → loose w rel) → pruned w →
  wps thins (delete_all rels n) (λ r w', pruned w') w.
Proof.
  intros Hrels Hw. eapply wps_conseq; [apply (wps_delete_all pruned)|].
  - by intros w' [[] _].
  - by apply pruned_step.
  - intros v rel Hrel [Hth Hk]. destruct (Hrels v rel ltac:(apply (inv_wf v), Hth) Hrel) as [Hdata Hfree].
    enough (thinned (without v rel)) as Hth'; [split; [split; [done|]|by apply thinned_thins]|].
    { intros id Hid [_ Hat]%at_dest_without. by apply Hk. }
    + apply without_inv; [done|intros id _ ->; apply Hdata; by exists id|].
      intros id m Hm Hat _. pose proof Hth as (Hi & _ & _ & Hkd).
      destruct (wf_ids _ (inv_wf _ Hi) _ _ Hm) as [_ Hid]. pose proof (Hk id Hid Hat) as Hin.
      destruct (Hobjects id Hin) as (m' & Hd & Hsub). destruct Hat as [b Hb].
      assert (m' = m) as ->; [|by eapply Hfree].
      apply (inj manifest_bytes). pose proof (dest_manifest_bytes _ _ _ _ Hi Hm Hb) as ->.
      rewrite Hkd in Hb by done. unfold decodes in Hd. congruence.
  - done.
  - by intros r w' [].
Qed.
End plan.

(** ** The whole prune *)
Lemma stage_thinned D t kept w : stage D t w → thinned D t kept w.
Proof. intros (Hi & <- & Ht). done. Qed.

Lemma wps_source_closure D t u w : stage D t w → wps thins (source_closure u) (λ _ w', stage D t w') w.
Proof.
  assert (Hread : ∀ id w, stage D t w → wps thins (ask (ReadManifest Source id)) (λ _ w', stage D t w') w).
  { intros id v Hv. eapply wps_conseq; [apply (wps_stage_read D t _ (λ _, True)); [done|]|by intros ? ? []].
    by destruct id; intros ? ? ? _ [-> _]. }
  intros Hw. unfold source_closure. eapply wps_try; [by apply Hread| |done].
  intros [m|] w1 Hw1; [|done]. generalize (∅ : gset N), (manifest_objects m).
  clear w Hw. induction (m_checkpoints m) as [|cp cps IH] in w1, Hw1 |- *; intros seen objs; cbn [source_closure_loop]; [done|].
  destruct (_ || _); [by apply IH|]. eapply wps_try; [by apply Hread| |done]. intros pinned w2 Hw2. by apply IH.
Qed.

Lemma wps_pin_floor D t name min_age w : stage D t w → wps thins (pin_floor name min_age) (λ _ w', stage D t w') w.
Proof.
  intros Hw. unfold pin_floor. eapply wps_bind; [apply (wps_stage_read D t _ (λ _, True)); [done|]|by intros ? ? []].
  by intros ? ? ? _ ->.
Qed.

Lemma supported_pins now ids m cp :
  cp ∈ m_checkpoints m → outlives cp now → cp_manifest_id cp ∈ ids → cp_manifest_id cp ∈ supported now ids m.
Proof.
  intros Hcp Hout Hin. unfold supported. apply elem_of_filter. split; [done|].
  apply elem_of_list_to_set, list_elem_of_fmap. exists cp. split; [done|]. apply list_elem_of_filter.
  split; [|done]. by apply checkpoint_live_outlives.
Qed.

Lemma listed_last D manifests latest meta :
  listed D manifests → last manifests = Some (latest, meta) →
  (latest ≤ U64_MAX)%N ∧ is_Some (D !! manifest_rel latest) ∧
  ∀ id, (id ≤ U64_MAX)%N → is_Some (D !! manifest_rel id) → (id ≤ latest)%N.
Proof.
  intros [Hs Hl] Hlast. assert ((latest, meta) ∈ manifests) as Hin by (apply last_Some in Hlast as [l ->]; set_solver).
  assert (latest ∈ manifests.*1) as [Hid Hat]%Hl by (apply list_elem_of_fmap; by exists (latest, meta)).
  split_and!; [done|done|]. intros id Hid' Hat'.
  assert (id ∈ manifests.*1) as (y & -> & Hy)%list_elem_of_fmap by by apply Hl.
  exact (sorted_last_max _ _ _ Hs Hlast Hy).
Qed.

Lemma wps_prune_at u name settings now w :
  Inv w → (now ≤ w_time w)%Z → wps thins (prune_at u name settings now) (λ _ _, True) w.
Proof.
  intros Hi Hnow. unfold prune_at. destruct (rmt_keep settings) as [keep|]; [|done].
  set (D := w_dest w). assert (Hw : stage D now w) by done. clearbody D.
  eapply wps_try; [by apply wps_list_manifests| |done]. intros manifests w1 [Hw1 Hl].
  destruct (last manifests) as [[latest meta]|] eqn:Hlast; [|done].
  destruct (listed_last _ _ _ _ Hl Hlast) as (Hid & Hat & Hmax).
  eapply wps_try; [by apply wps_list_compacted| |done]. intros compacted w2 [Hw2 Hcomp].
  eapply wps_try; [by apply wps_list_wals| |done]. intros wals w3 [Hw3 Hwals].
  eapply wps_bind; [by apply wps_source_closure|]. intros spared w4 Hw4.
  eapply (wps_bind _ _ (λ _ w', stage D now w')); [destruct spared; [by apply wps_pin_floor|done]|].
  intros floor w5 Hw5. set (ids := list_to_set manifests.*1 : gset N).
  eapply wps_try; [by apply wps_keep_loop| |done]. intros [cache kept] w6 [Hw6 (Hc6 & _ & Hpts & Honly & Hsup)].
  eapply wps_try; [by apply wps_kept_objects_loop| |done]. intros [[cache' objects] all] w7 [Hw7 (Hc7 & _ & Hall)].
  eapply wps_try; [by apply wps_cache_read| |done]. intros [cache'' head] w8 [Hw8 _].
  assert (Hpoints : ∀ id, id ∈ restore_points now keep latest manifests → id ∈ manifests.*1).
  { intros id (x & -> & [_ Hx]%list_elem_of_filter)%list_elem_of_fmap. apply list_elem_of_fmap. eauto. }
  assert (Hkept : ∀ id, id ∈ kept → (id ≤ U64_MAX)%N ∧ is_Some (D !! manifest_rel id)).
  { intros id Hin. apply (proj2 Hl). destruct (Honly id Hin) as [?|[?|Hx]]; [set_solver|by apply Hpoints|].
    by apply elem_of_list_to_set in Hx. }
  assert (Hpt : latest ∈ restore_points now keep latest manifests).
  { apply list_elem_of_fmap. exists (latest, meta). split; [done|]. apply list_elem_of_filter. split; [by left|].
    apply last_Some in Hlast as [l ->]. set_solver. }
  assert (Hpins : ∀ m cp, decodes D latest m → cp ∈ m_checkpoints m → outlives cp now →
    (cp_manifest_id cp ≤ U64_MAX)%N → is_Some (D !! manifest_rel (cp_manifest_id cp)) → cp_manifest_id cp ∈ kept).
  { intros m cp Hd Hcp Hout Hid' Hat'. apply (Hsup latest m Hpt Hd), supported_pins; [done..|].
    apply elem_of_list_to_set. by apply (proj2 Hl). }
  unfold prune_deletions.
  eapply wps_try; [eapply (wps_stale_manifests D now latest kept); eauto using stage_thinned| |done].
  intros deleted w9 [_ Hp9]. destruct spared as [spared|]; [|done]. destruct all; [|done]. cbn [negb].
  destruct (Hall eq_refl) as [_ Hobjs].
  assert (Hobjects : ∀ id, id ∈ kept → ∃ m, decodes D id m ∧ mo_sub (manifest_objects m) objects).
  { intros id Hin. apply Hobjs. by apply elem_of_ascending. }
  eapply wps_try; [eapply (wps_loose D now latest kept objects); eauto| |done].
  { intros v rel _ ([ulid x] & -> & [[Hno _] Hin]%list_elem_of_filter)%list_elem_of_fmap. simpl in *.
    eapply loose_compacted with (u := ulid); [by eapply Hcomp|done]. }
  intros n w10 Hp10.
  eapply wps_try; [eapply (wps_loose D now latest kept objects); eauto|done|done].
  intros v rel Hwf ([i x] & -> & [(_ & Hno & _) Hin]%list_elem_of_filter)%list_elem_of_fmap. simpl in *.
  eapply loose_wal with (i := i); [done|by eapply Hwals|done].
Qed.

Lemma wps_prune u name settings w : Inv w → wps thins (prune u name settings) (λ _ _, True) w.
Proof.
  intros Hi. unfold prune. eapply (wps_bind _ _ (λ now w', Inv w' ∧ (now ≤ w_time w')%Z)).
  - intros w1 r w2 Hs Hi1 [-> ->]. done.
  - intros now w1 [Hi1 Hnow]. by apply wps_prune_at.
Qed.
End deleting.

(** ** The claim *)

(** C6: retention, with any settings, a prune alone at the target while the
    source moves on as it likes: wherever it has got to, calls failing or
    landing unnoticed, crashed or finished, the target is still a faithful,
    complete mirror that has only lost objects, and its newest manifest is
    the one it was. *)
Theorem prune_keeps_mirror `{SL : SlateLib, SW : !SlateLaws} u name settings w s' :
  Inv w → rtc step (w, [prune u name settings]) s' →
  mirrored s'.1 ∧ w_dest s'.1 ⊆ w_dest w ∧ ∀ id, dest_latest w id → dest_latest s'.1 id.
Proof.
  intros Hi Hs. destruct (lone_steps _ _ _ Hi (wps_prune u name settings w Hi) Hs) as [Hi' [Hsub Hl]].
  split_and!; [by apply inv_mirrored|done|done].
Qed.

(** *** Witness: a target with two manifests, the older past retention *)
Import Registry.Concrete Scenario.Demo.

Definition two_manifests : gmap string string := <[manifest_rel 3 := "mmm"]> full_target.
Definition retained : ResolvedMirrorTarget := {|
  rmt_url := Some "s3://dr/db"; rmt_source_prefix := None; rmt_disabled := false;
  rmt_mode := Periodic; rmt_copier := Builtin; rmt_poll := from_secs 10; rmt_interval := from_secs 3600;
  rmt_min_age := from_secs 300; rmt_checkpoint_lifetime := from_secs 900; rmt_copy_parallelism := 8;
  rmt_keep := Some 50%N |}.

Lemma full_target_inv : Inv (source_at 3 full_target).
Proof.
  assert (Hi : Inv (source_at 1 ∅)) by by apply empty_inv.
  pose proof (wp_sync_pass urls "dr" settings _ Hi) as Hp.
  destruct (wp_runs _ _ _ _ _ _ (executes_runs _ _ _ _ _ _ seeding_run Hi Hp) Hi Hp) as [_ Hr]. apply Hr.
Qed.

Lemma two_manifests_inv : Inv (source_at 3 two_manifests).
Proof.
  pose proof (put_manifest_rely (source_at 3 full_target) 3%N (3%N : @VersionedManifest slate)) as H. apply H.
  - exact full_target_inv.
  - by apply history_lookup.
  - by vm_compute.
  - intros rel Hrel. apply (inv_complete _ full_target_inv 2%N 2%N); [by apply history_lookup| |exact Hrel].
    vm_compute. by eexists.
  - intros cp l Hcp. simpl in Hcp. by apply elem_of_nil in Hcp.
Qed.

Definition listing (names : list string) : Result StoreError (list Listed) :=
  Ok ((λ n, {| li_name := n; li_modified := 0 |}) <$> names).

(** The keys of that target. *)
Lemma two_manifests_names dir name :
  is_Some (two_manifests !! (dir +:+ "/" +:+ name)) ↔
  manifest_rel 3 = dir +:+ "/" +:+ name ∨ manifest_rel 2 = dir +:+ "/" +:+ name ∨
  wal_rel 5 = dir +:+ "/" +:+ name ∨ wal_rel 4 = dir +:+ "/" +:+ name.
Proof. unfold two_manifests, full_target. by rewrite !lookup_insert_is_Some', lookup_singleton_is_Some. Qed.

Lemma two_manifests_latest : dest_latest (source_at 3 two_manifests) 3.
Proof.
  split_and!; [done|by vm_compute; eexists|]. intros id Hid Hat.
  unfold manifest_rel, MANIFEST_DIR in Hat. simpl in Hat. apply (two_manifests_names "manifest") in Hat.
  destruct Hat as [E|[E|[E|E]]]; [| |discriminate E|discriminate E];
    apply (manifest_rel_inj _ id) in E; try done; lia.
Qed.

(** The names in one directory of that target. *)
Ltac directory dir :=
  intros name; rewrite (two_manifests_names dir); cbv - [elem_of]; rewrite ?elem_of_cons, elem_of_nil;
  split; [intros [[=]|[[=]|[[=]|[=]]]]|]; naive_solver.

Lemma prune_run :
  executes any (source_at 3 two_manifests) (prune urls "dr" retained)
    (source_at 3 (delete (manifest_rel 2) two_manifests))
    (Ok {| pr_kept_manifests := 1; pr_deleted_manifests := 1; pr_deleted_objects := 0; pr_data_deletion_ran := true |}).
Proof.
  answer 100%Z (source_at 3 two_manifests); [done|done|].
  answer (listing [manifest_name 2; manifest_name 3]) (source_at 3 two_manifests); [quiet; directory "manifest"|done|].
  answer (listing []) (source_at 3 two_manifests); [quiet; directory "compacted"|done|].
  answer (listing [wal_name 4; wal_name 5]) (source_at 3 two_manifests); [quiet; directory "wal"|done|].
  answer (Ok (Some 3%N) : Result SlateError (option N)) (source_at 3 two_manifests);
    [quiet; by apply source_latest|done|].
  answer (Ok [] : Result SlateError (list Checkpoint)) (source_at 3 two_manifests); [done|done|].
  answer (Ok (Some 3%N) : Result SlateError (option N)) (source_at 3 two_manifests);
    [quiet; by vm_compute|done|].
  answer (Ok () : Result StoreError ()) (source_at 3 (delete (manifest_rel 2) two_manifests)); [done|done|].
  match goal with |- executes _ _ ?p _ _ => let p' := eval vm_compute in p in change p with p' end.
  constructor.
Qed.

Lemma prune_keeps_mirror_witness :
  mirrored (source_at 3 (delete (manifest_rel 2) two_manifests)) ∧
  dest_latest (source_at 3 (delete (manifest_rel 2) two_manifests)) 3.
Proof.
  destruct (prune_keeps_mirror urls "dr" retained (source_at 3 two_manifests)
    (source_at 3 (delete (manifest_rel 2) two_manifests), [Ret (Ok {| pr_kept_manifests := 1;
       pr_deleted_manifests := 1; pr_deleted_objects := 0; pr_data_deletion_ran := true |})]))
    as (Hm & _ & Hl).
  - exact two_manifests_inv.
  - exact (executes_steps any _ _ _ _ prune_run).
  - split; [exact Hm|]. apply Hl, two_manifests_latest.
Defined.
