(* ===== verification/Alone.v ===== *)
(** * A mirror task with retention, alone at its target

    The composition of [Mirroring] and [PruneSafety]: the whole task, passes,
    tail and prunes, in either mode, while its source moves. *)

From S2P Require Import Prelude Order Text Store Slate Effects Config Registry.
From S2P Require Import Layout Copier Pass Targets Prune Loops Rely MirrorSafety Mirroring Progress Scenario.
From S2P Require Import Fleet Solo LoopSafety PruneSafety.

Section alone.
Context `{SL : SlateLib, SW : !SlateLaws, UL : UrlLib, RL : !RemoteLib}.
Implicit Types (w : world).

Lemma wps_keeps_inv {A} G (p : prog A) Q w :
  Inv w → wps G p Q w → wps G p (λ x w', Q x w' ∧ Inv w') w.
Proof.
  unfold wps. revert w. induction p as [x|R c k IH]; intros w Hi Hp; simpl in *; [done|].
  intros w1 r w2 H1 Hi1 Hh. destruct (Hp w1 r w2 H1 Hi1 Hh) as (H2 & Ht & Hk). split_and!; [done|done|by apply IH].
Qed.

Definition alone (A : Type) (p : prog A) w : Prop := wps advances p (λ _ w', Inv w') w.

Lemma alone_wp {A} (p : prog A) Q w : Inv w → wp p Q w → alone A p w.
Proof.
  intros Hi Hp. eapply wps_conseq; [apply wps_keeps_inv; [done|]|by intros x w' [_ ?]].
  eapply wps_weaken; [|by apply wp_wps]. intros w1 w2 _ _. apply rely_advances.
Qed.

#[export] Instance alone_logic a : LoopLogic Inv a alone.
Proof.
  split; unfold alone; intros.
  - done.
  - by eapply wps_bind.
  - intros w1 r w2 Hs Hi ->%H. split_and!; [done|apply guarantee_refl|done].
  - eapply alone_wp, wp_sync_pass; done.
  - eapply alone_wp, wp_tail_start; done.
  - eapply alone_wp, wp_tail_step; done.
  - eapply wps_conseq; [apply wps_keeps_inv; [done|]|by intros x w' [_ ?]].
    eapply wps_weaken; [|by apply wps_prune]. intros w1 w2 _ _. apply thins_advances.
Qed.

(** C5: a mirror task in either mode, with any retention, alone at its target
    while the source moves: wherever it has got to, calls failing or landing
    unnoticed, crashed or cancelled, the target is a faithful, complete
    mirror, in shape for the next task, and its newest manifest has never
    gone back. *)
Theorem lone_task_keeps_mirror fuel a w s' :
  Inv w → rtc step (w, [run_mirror fuel a]) s' →
  Inv s'.1 ∧ mirrored s'.1 ∧
  ∀ id, dest_latest w id → ∃ id', (id ≤ id')%N ∧ dest_latest s'.1 id'.
Proof.
  intros Hi Hs. assert (Hp : wps advances (run_mirror fuel a) (λ _ _, True) w).
  { eapply wps_conseq; [by apply (safe_run_mirror Inv a alone fuel w)|done]. }
  destruct (lone_steps _ _ _ Hi Hp Hs) as [Hi' Ha]. split_and!; [done|by apply inv_mirrored|exact Ha].
Qed.
End alone.

(** *** Witness: a due periodic turn of a task with retention *)
Import Registry.Concrete Scenario.Demo.

Definition keeping : Assigned :=
  {| as_urls := urls; as_target := {| at_name := "dr"; at_destination := "s3://dr/db"; at_settings := retained |} |}.
Definition old (name : string) : Listed := {| li_name := name; li_modified := -3600000000000 |}.
Definition pruned_target : gmap string string := delete (manifest_rel 2) two_manifests.

Lemma caught_up_run :
  executes any (source_at 3 two_manifests) (sync_target keeping) (source_at 3 two_manifests)
    (Ok {| po_head := 3; po_next_wal_sst_id := 6; po_committed := false; po_manifests_committed := 0;
           po_copied := Copied_default |}).
Proof.
  answer (Ok (Some 3%N) : Result SlateError (option N)) (source_at 3 two_manifests); [quiet|done|].
  { split; [apply two_manifests_latest|by vm_compute]. }
  answer (Ok (Some 3%N) : Result SlateError (option N)) (source_at 3 two_manifests);
    [quiet; by apply source_latest|done|].
  match goal with |- executes _ _ ?p _ _ => let p' := eval vm_compute in p in change p with p' end.
  constructor.
Qed.

Lemma keeping_run :
  executes any (source_at 3 two_manifests) (run_mirror 1 keeping) (source_at 3 pruned_target) (Ok ()).
Proof.
  answer false (source_at 3 two_manifests); [done|done|].
  answer (Ok (old <$> [manifest_name 2; manifest_name 3]) : Result StoreError (list Listed))
    (source_at 3 two_manifests); [quiet; directory "manifest"|done|].
  answer 100%Z (source_at 3 two_manifests); [done|done|].
  answer true (source_at 3 two_manifests); [done|done|].
  eapply executes_bind; [eapply executes_bind; [eapply executes_bind; [exact caught_up_run|]|]|].
  { eapply executes_bind; [exact prune_run|]. constructor. }
  { constructor. }
  answer true (source_at 3 pruned_target); [done|done|].
  constructor.
Qed.

Lemma lone_task_keeps_mirror_witness :
  mirrored (source_at 3 pruned_target) ∧ ∃ id, (3 ≤ id)%N ∧ dest_latest (source_at 3 pruned_target) id.
Proof.
  destruct (lone_task_keeps_mirror 1 keeping (source_at 3 two_manifests) (source_at 3 pruned_target, [Ret (Ok ())]))
    as (_ & Hm & Hl).
  - exact two_manifests_inv.
  - exact (executes_steps any _ _ _ _ keeping_run).
  - split; [exact Hm|exact (Hl 3%N two_manifests_latest)].
Defined.
