(* ===== verification/RestoreSafety.v ===== *)
(** * What a restore guarantees

    A restore under interference: whatever else happens, the new root stays a
    faithful, complete mirror of the backed-up history while it fills, and a
    restore that reports success has made the chosen point, and everything
    its live checkpoints pin, restorable there. *)

From S2P Require Import Prelude Order Text Store Slate Effects Config Registry.
From S2P Require Import Layout Copier Pass Targets Prune Restore Loops Rely MirrorSafety Mirroring Progress Scenario.

Section restoring.
Context `{SL : SlateLib, SW : !SlateLaws, UL : UrlLib, RL : !RemoteLib, CL : ChronoLib}.
Implicit Types (w : world) (m : VersionedManifest).

Lemma wp_read_id id w :
  Inv w →
  wp (ask (ReadManifest Source (Some id))) (λ r w', match r with
    | Ok (Some m) => w_hist w' !! id = Some m | _ => True end) w.
Proof. intros Hi. wp_read. by destruct r as [[]|]. Qed.

Lemma wp_members_loop point chosen now cps ms w :
  Inv w → members_ok w ms → is_Some (ms !! chosen) →
  wp (members_loop point chosen now cps ms) (λ r w', match r with
    | Ok ms' => members_ok w' ms' ∧ (∀ id, is_Some (ms !! id) → is_Some (ms' !! id)) ∧
        (∀ cp, cp ∈ cps → outlives cp now → is_Some (ms' !! cp_manifest_id cp)) ∧
        (∀ id, is_Some (ms' !! id) → is_Some (ms !! id) ∨ ∃ cp, cp ∈ cps ∧ id = cp_manifest_id cp)
    | Err _ => True end) w.
Proof.
  revert ms w. induction cps as [|cp cps IH]; intros ms w Hi Hm Hch; cbn [members_loop].
  { apply wp_ret. split_and!; [done|done|by intros ? ?%elem_of_nil|by left]. }
  destruct (negb (checkpoint_live cp now) || bool_decide (cp_manifest_id cp = chosen)) eqn:Eskip.
  - eapply wp_conseq; [done|by apply IH|]. intros [ms'|e] w' Hr; [|done].
    intros (? & Hkeep & Hlive & Honly). split_and!; [done|done|..].
    + intros cp' [->|Hin]%elem_of_cons Hout; [|by apply Hlive].
      apply orb_prop in Eskip as [En|Eh].
      * apply negb_true_iff in En. apply checkpoint_live_outlives in Hout. congruence.
      * apply bool_decide_eq_true in Eh as ->. by apply Hkeep.
    + intros id Hid. destruct (Honly id Hid) as [?|(cp' & ? & ->)]; [by left|].
      right. exists cp'. split; [by right|done].
  - eapply wp_try; [done|by apply wp_read_id| |done]. intros [pinned|] w1 H1 Hp; [|done].
    set (ms1 := <[cp_manifest_id cp := manifest_objects pinned]> ms).
    assert (Hms1 : ∀ id, is_Some (ms1 !! id) ↔ cp_manifest_id cp = id ∨ is_Some (ms !! id)).
    { intros id. unfold ms1. by rewrite lookup_insert_is_Some'. }
    eapply wp_conseq; [apply H1|apply IH; [apply H1| |apply Hms1; by right]|].
    + intros i o. unfold ms1. destruct (decide (cp_manifest_id cp = i)) as [<-|Hne].
      * rewrite lookup_insert_eq. intros [= <-]. eauto.
      * rewrite lookup_insert_ne by done. by apply (members_ok_rely _ _ _ H1).
    + intros [ms'|e] w' Hr; [|done]. intros (? & Hkeep & Hlive & Honly). split_and!; [done|..].
      * intros id Hid. apply Hkeep, Hms1. by right.
      * intros cp' [->|Hin]%elem_of_cons Hout; [|by apply Hlive]. apply Hkeep, Hms1. by left.
      * intros id Hid. destruct (Honly id Hid) as [[<-|?]%Hms1|(cp' & ? & ->)]; [|by left|].
        -- right. exists cp. split; [by left|done].
        -- right. exists cp'. split; [by right|done].
Qed.

Lemma wp_commit_members head now c ids n w :
  Inv w → closure_ok w head now c → ready w c → StronglySorted N.le ids →
  (∀ k, k ∈ ids → is_Some (cl_manifests c !! k)) →
  (∀ k, is_Some (cl_manifests c !! k) → k ∈ ids ∨ at_dest w (manifest_rel k)) →
  wp (commit_members ids n) (λ r w', match r with
    | Ok _ => ∀ k, is_Some (cl_manifests c !! k) → at_dest w' (manifest_rel k)
    | Err _ => True end) w.
Proof.
  revert n w. induction ids as [|id ids IH]; intros n w Hi Hc Hready Hsorted Hkeys Hdone.
  { apply wp_ret. intros k Hk. destruct (Hdone k Hk) as [?%elem_of_nil|]; done. }
  cbn [commit_members]. inversion_clear Hsorted as [|?? Hs Hle]. rewrite Forall_forall in Hle.
  destruct (Hkeys id ltac:(by left)) as [o Ho].
  destruct (co_members _ _ _ _ Hc _ _ Ho) as (m & Hm & _).
  eapply wp_try; [done|by apply wp_get_source| |done]. intros g w1 H1 Hg.
  eapply (wp_try _ _ _ (λ r w', ∀ b, r = Ok b → b = manifest_bytes m)); [apply H1|apply wp_ret| |done].
  { by eapply manifest_body. }
  intros b w2 H2 Hb. rewrite (Hb b eq_refl). assert (H02 : rely w w2) by (by etrans).
  eapply wp_try; [apply H2|apply (wp_put_member head now c); [apply H2|..]| |done].
  { by eapply closure_ok_rely. } { by eapply ready_rely. } { by eapply hist_rely. } { by eexists. }
  { intros k Hk Hlt. eapply at_dest_rely; [done|]. destruct (Hdone k Hk) as [[->|Hin]%elem_of_cons|?]; [lia| |done].
    specialize (Hle k Hin). lia. }
  intros [] w3 H3 Hat. assert (H03 : rely w w3) by (by etrans).
  apply IH; [apply H3|by eapply closure_ok_rely|by eapply ready_rely|done|..].
  - intros k ?. apply Hkeys. by right.
  - intros k Hk. destruct (Hdone k Hk) as [[->|?]%elem_of_cons|?]; [by right|by left|right].
    by eapply at_dest_rely.
Qed.

(** A success: the chosen manifest and what its live checkpoints pin. *)
Definition restored w (o : RestoreOutcome) : Prop :=
  ∃ m, w_hist w !! ro_manifest_id o = Some m ∧ restorable w m ∧
    ∀ cp, cp ∈ m_checkpoints m → outlives cp (w_time w) →
      ∃ p, w_hist w !! cp_manifest_id cp = Some p ∧ restorable w p.

Lemma wp_restore_closure u point chosen m w :
  Inv w → w_hist w !! chosen = Some m →
  wp (restore_closure u point chosen m) (λ r w', match r with
    | Ok o => ro_manifest_id o = chosen ∧ restored w' o | Err _ => True end) w.
Proof.
  intros Hi Hm. destruct (wf_ids _ (inv_wf _ Hi) _ _ Hm) as [Hid _]. unfold restore_closure.
  eapply (wp_then _ _ (λ now w', (now ≤ w_time w')%Z)); [done| |].
  { apply wp_ask. intros w1 r w2 H1 [-> ->]. split; [apply rely_refl, H1|done]. }
  intros now w1 H1 Hnow. eapply wp_try; [apply H1|apply wp_members_loop; [apply H1|..]| |done].
  { intros id o [<- <-]%lookup_singleton_Some. eauto using hist_rely. }
  { rewrite lookup_singleton_eq. eauto. }
  intros ms w2 H2 (Hms & Hkeep & Hlive & Honly). assert (H02 : rely w w2) by (by etrans).
  set (c := {| cl_head := chosen; cl_manifests := ms |}).
  assert (Hc : closure_ok w2 m now c).
  { pose proof (hist_rely _ _ _ _ H02 Hm). split; simpl; rewrite ?Hid; try done.
    - pose proof (rl_time _ _ H2). lia.
    - apply Hkeep. rewrite lookup_singleton_eq. eauto.
    - intros id Hin. destruct (Honly id Hin) as [[o [<- _]%lookup_singleton_Some]|(cp & Hcp & ->)]; [done|].
      by eapply (wf_pins _ (inv_wf _ (rl_inv _ _ H2))). }
  assert (Hnames : ∀ id o rel, ms !! id = Some o → rel ∈ mo_rel_names o →
    rel ∈ mo_rel_names (fold_left mo_extend (btree_values ms) ∅)).
  { intros id o rel Ho Hrel. apply (elem_of_closure_names c). eauto. }
  eapply wp_try; [apply H2|apply wp_copy; [apply H2|]| |done].
  { intros rel Hrel. by eapply names_not_manifest. }
  intros copied w3 H3 Hall.
  eapply wp_try; [apply H3|apply (wp_commit_members m now c); [apply H3|by eapply closure_ok_rely|..]| |done].
  - intros id o rel Ho Hrel. by eapply Hall, Hnames.
  - exact (btree_keys_sorted ms).
  - intros k. by rewrite elem_of_btree_keys.
  - intros k Hk. left. by apply elem_of_btree_keys.
  - intros n w4 H4 Hcom. apply wp_ret. split; [done|].
    pose proof (rl_inv _ _ H4) as Hi4. assert (H24 : rely w2 w4) by (by etrans).
    assert (Hrest : ∀ id, is_Some (ms !! id) → ∃ p, w_hist w4 !! id = Some p ∧ restorable w4 p).
    { intros id Hin. destruct Hin as [o Ho]. destruct (Hms _ _ Ho) as (p & Hp & _).
      destruct (wf_ids _ (inv_wf _ (rl_inv _ _ H2)) _ _ Hp) as [_ Hmax].
      apply inv_restorable; [done|done|]. apply Hcom. by eexists. }
    destruct (Hrest chosen) as (p & Hp & Hres). { apply Hkeep. rewrite lookup_singleton_eq. eauto. }
    pose proof (hist_rely _ _ _ _ H24 (hist_rely _ _ _ _ H02 Hm)) as Hm4.
    exists m. simpl. assert (p = m) as -> by congruence. split_and!; [done|done|].
    intros cp Hcp Hout. apply Hrest. apply Hlive; [done|]. eapply outlives_mono; [|done].
    pose proof (rl_time _ _ H2). pose proof (rl_time _ _ H24). lia.
Qed.

(** What the chosen id has to do with [--at]. *)
Definition point_ok w (point : RestorePoint) (chosen : N) : Prop :=
  match point with
  | PointLatest => True
  | PointManifest id => chosen = id
  | PointTime ts => ∃ i head m t, w_hist w !! i = Some head ∧ w_hist w !! chosen = Some m ∧
      m_find_ts head (m_last_l0_seq m) = Some t ∧ (t ≤ ts)%Z
  end.

Lemma point_ok_rely w w' point chosen : rely w w' → point_ok w point chosen → point_ok w' point chosen.
Proof.
  intros Hr. destruct point as [|id|ts]; [done..|]. intros (i & head & m & t & ? & ? & ? & ?).
  exists i, head, m, t. split_and!; [by eapply hist_rely..|done|done].
Qed.

Lemma wp_resolve_point u manifests latest point w :
  Inv w →
  wp (resolve_point u manifests latest point) (λ r w', match r with
    | Ok chosen => point_ok w' point chosen | Err _ => True end) w.
Proof.
  intros Hi. destruct point as [|id|ts]; simpl.
  - by apply wp_ret.
  - case_bool_decide; by apply wp_ret.
  - eapply wp_try; [done|by apply wp_read_id| |done]. intros [head|] w1 H1 Hhead; [|by apply wp_ret].
    generalize (reverse manifests.*1). intros ids.
    assert (Hi1 : Inv w1) by apply H1. clear H1 Hi. induction ids as [|id ids IH] in w1, Hi1, Hhead |- *; [by apply wp_ret|].
    cbn [newest_within]. eapply wp_try; [done|by apply wp_read_id| |done]. intros m w2 H2 Hm.
    destruct (m ≫= _) as [t|] eqn:Et.
    + apply bind_Some in Et as (m' & -> & Et). case_bool_decide as Hle.
      * apply wp_ret. exists latest, head, m', t. split_and!; [by eapply hist_rely|done..].
      * apply IH; [by eapply hist_rely|apply H2].
    + apply IH; [by eapply hist_rely|apply H2].
Qed.

Lemma wp_restore u point w :
  Inv w →
  wp (restore u point) (λ r w', match r with
    | Ok o => w_dest w = ∅ ∧ point_ok w' point (ro_manifest_id o) ∧ restored w' o
    | Err _ => True end) w.
Proof.
  intros Hi. unfold restore.
  eapply (wp_try _ _ _ (λ r _, r = Ok false → w_dest w = ∅)); [done| | |done].
  { wp_read. intros ->. apply map_empty. intros rel. destruct (w_dest w !! rel) as [b|] eqn:Hb; [|done].
    pose proof (lookup_weaken _ _ _ _ Hb (rl_dest _ _ Hr)) as Hb1. by rewrite Hres, lookup_empty in Hb1. }
  intros [] w1 H1 Hempty; [by apply wp_ret|]. specialize (Hempty eq_refl).
  eapply (wp_try _ _ _ (λ _ _, True)); [apply H1| | |done].
  { unfold list_manifests. eapply (wp_try _ _ _ (λ _ _, True)); [apply H1| |intros; by apply wp_ret|done].
    unfold list_dir. eapply (wp_then _ _ (λ _ _, True)); [apply H1|by wp_read|].
    intros [l|[]] w2 H2 _; by apply wp_ret. }
  intros manifests w2 H2 _. destruct (last manifests) as [[latest meta]|]; [|by apply wp_ret].
  eapply wp_try; [apply H2|apply wp_resolve_point, H2| |done]. intros chosen w3 H3 Hp.
  eapply wp_try; [apply H3|apply wp_read_id, H3| |done]. intros [m|] w4 H4 Hm; [|by apply wp_ret].
  eapply wp_conseq; [apply H4|by apply wp_restore_closure; [apply H4|]|].
  intros [o|e] w5 H5 Hr; [|done]. destruct Hr as [<- Hr]. split_and!; [done| |done].
  eapply point_ok_rely; [done|]. by eapply point_ok_rely.
Qed.

End restoring.

(** *** Witness: restoring manifest 2 of [Scenario]'s source *)
Import Registry.Concrete Scenario.Demo.
#[local] Instance chrono : ChronoLib :=
  {| parse_from_rfc3339 _ := None; to_rfc3339 _ := "t"; debug_time _ := "t" |}.

Definition restored_two : RestoreOutcome :=
  {| ro_manifest_id := 2; ro_manifests_committed := 1; ro_copied_objects := 2; ro_copied_bytes := 8 |}.

(** From any backup that holds the manifest and the two WAL SSTs. *)
Lemma restore_run w :
  w_hist w !! 2%N = Some 2%N → w_content w !! wal_rel 4 = Some "four" → w_content w !! wal_rel 5 = Some "five" →
  executes any (set_dest w ∅) (restore urls (PointManifest 2)) (set_dest w full_target) (Ok restored_two).
Proof.
  intros Hm H4 H5.
  set (d1 := {[ wal_rel 4 := "four" ]} : gmap string string).
  set (d2 := <[wal_rel 5 := "five"]> d1).
  answer (Ok false : Result StoreError bool) (set_dest w ∅); [quiet; done|done|].
  answer (Ok [{| li_name := manifest_name 2; li_modified := 0 |}] : Result StoreError (list Listed))
    (set_dest w ∅); [quiet; done|done|].
  answer (Ok (Some 2%N) : Result SlateError (option N)) (set_dest w ∅); [quiet; exact Hm|done|].
  answer (w_time w) (set_dest w ∅); [done|done|].
  pick 0 (set_dest w ∅).
  answer (Ok (object "four") : Result StoreError GetResult) (set_dest w ∅);
    [quiet; intros b [= <-]; by left|done|].
  pick 1 (set_dest w ∅).
  answer (Ok (object "five") : Result StoreError GetResult) (set_dest w ∅);
    [quiet; intros b [= <-]; by left|done|].
  pick 0 (set_dest w ∅).
  answer (Ok () : Result StoreError ()) (set_dest w d1); [by left|done|].
  pick 1 (set_dest w d1).
  answer (Ok () : Result StoreError ()) (set_dest w d2); [by left|done|].
  pick 0 (set_dest w d2). pick 0 (set_dest w d2).
  answer (Ok (object "mm") : Result StoreError GetResult) (set_dest w d2);
    [quiet; intros b [= <-]; right; exists 2%N, 2%N; split; [done|split; [exact Hm|done]]|done|].
  answer (Ok () : Result StoreError ()) (set_dest w full_target); [split; done|done|].
  match goal with |- executes _ _ ?p _ _ => let p' := eval vm_compute in p in change p with p' end.
  constructor.
Qed.

