(* ===== verification/Recovery.v ===== *)
(** * Disaster recovery: mirror, then restore

    The mirror's two halves composed.  A target that mirror tasks have been
    filling is itself a database ([backup_of]): its manifests and objects are
    what a restore reads.  Restored from it, a point is the source's own, byte
    for byte. *)

From S2P Require Import Prelude Order Text Store Slate Effects Config Registry.
From S2P Require Import Layout Copier Pass Targets Prune Restore Loops Rely MirrorSafety Mirroring Progress Scenario.
From S2P Require Import LoopSafety Fleet RestoreSafety.

Section recovery.
Context `{SL : SlateLib, SW : !SlateLaws, UL : UrlLib, RL : !RemoteLib, CL : ChronoLib}.
Implicit Types (w : world) (m : VersionedManifest).

(** The target of [w] as the source of a restore into an empty root. *)
Definition backup_of w : world := {|
  w_hist := filter (λ e, is_Some (w_dest w !! manifest_rel e.1)) (w_hist w);
  w_content := filter (λ e, strip_prefix (MANIFEST_DIR +:+ "/") e.1 = None) (w_dest w);
  w_dest := ∅;
  w_time := w_time w |}.

Lemma backup_hist w id m :
  w_hist (backup_of w) !! id = Some m ↔ w_hist w !! id = Some m ∧ at_dest w (manifest_rel id).
Proof. apply map_lookup_filter_Some. Qed.
Lemma backup_content w rel b :
  w_content (backup_of w) !! rel = Some b ↔
  w_dest w !! rel = Some b ∧ strip_prefix (MANIFEST_DIR +:+ "/") rel = None.
Proof. apply map_lookup_filter_Some. Qed.

Lemma manifest_rel_prefix id : strip_prefix (MANIFEST_DIR +:+ "/") (manifest_rel id) = Some (manifest_name id).
Proof. apply strip_prefix_spec. unfold manifest_rel. by rewrite app_assoc. Qed.

(** What a restore can read of the backup is what the target holds. *)
Lemma backup_reads w rel b :
  Inv w → source_has (backup_of w) rel b → w_dest w !! rel = Some b.
Proof.
  intros Hi [[? _]%backup_content|(id & m & -> & [Hm [b' Hb']]%backup_hist & ->)]; [done|].
  destruct (wf_ids _ (inv_wf _ Hi) _ _ Hm) as [_ Hid].
  destruct (dest_manifest _ _ _ Hi Hid Hb') as (m' & Hm' & ->). by simplify_eq.
Qed.

(** A sub-history is a history. *)
Lemma backup_wf w : Inv w → wf_source (backup_of w).
Proof.
  intros Hi. destruct (inv_wf _ Hi). split.
  - intros id m [Hm _]%backup_hist. eauto.
  - intros id m cp [Hm _]%backup_hist. eauto.
  - intros i j k mi mj mk cpi cpk [Hmi _]%backup_hist [Hmj _]%backup_hist [Hmk _]%backup_hist. eauto.
  - intros i j mi mj cpi cpj [Hmi _]%backup_hist [Hmj _]%backup_hist. eauto.
  - intros name. destruct (w_content (backup_of w) !! _) as [b|] eqn:E; [|done].
    apply backup_content in E as [_ E]. rewrite <-app_assoc in E.
    by rewrite (proj2 (strip_prefix_spec _ _ name) eq_refl) in E.
  - intros id m wal [Hm _]%backup_hist. eauto.
  - intros id m [Hm _]%backup_hist. eauto.
Qed.

(** A manifest and its objects are at the restored root of [wb] with the
    bytes they have at the source of [w]. *)
Definition comes_back w wb m : Prop :=
  w_dest wb !! manifest_rel (m_id m) = Some (manifest_bytes m) ∧
  ∀ rel, rel ∈ mo_rel_names (manifest_objects m) →
    ∃ b, w_dest wb !! rel = Some b ∧ w_content w !! rel = Some b.

Lemma restorable_comes_back w wb m :
  Inv w → w_content wb = w_content (backup_of w) → restorable wb m → comes_back w wb m.
Proof.
  intros Hi Hc [Hman Hobj]. split; [done|]. intros rel Hrel. destruct (Hobj rel Hrel) as (b & Hb & Hsrc).
  exists b. split; [done|]. rewrite Hc in Hsrc. apply backup_content in Hsrc as [Hd _].
  apply source_has_data; [by apply (inv_faithful _ Hi)|by eapply names_not_manifest].
Qed.

(** C2: disaster recovery, end to end.  Any number of mirror tasks fill an
    empty target, interleaved with the source, with failures and crashes; at
    any moment a restore starts from that target into an empty root, and runs
    while the tasks go on; if it reports success, the point it chose is one
    asked for, is a manifest the source committed, and is at the new root
    with every data object it references and every manifest its live
    checkpoints pin with theirs, all with the source's own bytes. *)
Theorem mirror_then_restore S u point w0 (tasks : list (nat * Assigned)) w ps w' ps' wb o :
  wf_source w0 → w_dest w0 = ∅ →
  (∀ fuel a, (fuel, a) ∈ tasks → rmt_keep (settings_of a) = None) →
  rtc step (w0, (λ '(fuel, a), run_mirror fuel a) <$> tasks) (w, ps) →
  rtc step (w, ps) (w', ps') →
  runs S (backup_of w) (restore u point) wb (Ok o) →
  w_hist wb = w_hist (backup_of w') → w_content wb = w_content (backup_of w') →
  point_ok w' point (ro_manifest_id o) ∧
  ∃ m, w_hist w' !! ro_manifest_id o = Some m ∧ comes_back w' wb m ∧
    ∀ cp, cp ∈ m_checkpoints m → outlives cp (w_time wb) →
      ∃ p, w_hist w' !! cp_manifest_id cp = Some p ∧ comes_back w' wb p.
Proof.
  intros Hwf Hd Hk Hfill Hgo Hr Hhist Hcontent.
  pose proof (steps_safe _ _ Hfill (tasks_safe w0 tasks Hwf Hd Hk)) as Hsafe. pose proof (proj1 Hsafe) as Hi. simpl in Hi.
  pose proof (proj1 (steps_safe _ _ Hgo Hsafe)) as Hi'. simpl in Hi'.
  assert (Hb : Inv (backup_of w)) by (apply empty_target_inv; [by apply backup_wf|done]).
  destruct (wp_runs _ _ _ _ _ _ Hr Hb (wp_restore u point _ Hb)) as [(_ & Hpoint & m & Hm & Hres & Hpins) _].
  assert (Hsource : ∀ id x, w_hist wb !! id = Some x → w_hist w' !! id = Some x).
  { intros id x Hx. rewrite Hhist in Hx. by apply backup_hist in Hx as [? _]. }
  split.
  { destruct point as [|id|ts]; [done..|]. destruct Hpoint as (i & head & x & t & ? & ? & ? & ?).
    exists i, head, x, t. split_and!; auto. }
  exists m. split; [by apply Hsource|]. split; [by apply restorable_comes_back|].
  intros cp Hcp Hout. destruct (Hpins cp Hcp Hout) as (p & Hp & Hpres).
  exists p. split; [by apply Hsource|]. by apply restorable_comes_back.
Qed.
End recovery.

(** ** Witness: [Scenario]'s source mirrored, then lost, then restored *)
Import Registry.Concrete Scenario.Demo.
#[local] Existing Instance RestoreSafety.chrono.

Lemma mirror_then_restore_witness :
  let backup := backup_of (source_at 3 full_target) in
  comes_back (source_at 3 full_target) (set_dest backup full_target) 2%N.
Proof.
  intros backup.
  assert (Hmanifest : w_hist backup !! 2%N = Some 2%N) 
    by (apply (proj2 (backup_hist (source_at 3 full_target) 2%N 2%N)); split; [by apply history_lookup|by eexists]).
  destruct (mirror_then_restore any urls (PointManifest 2) (source_at 1 ∅) [(1, assigned)]
    (source_at 3 full_target) [Ret (Ok ())] (source_at 3 full_target) [Ret (Ok ())]
    (set_dest backup full_target) restored_two) as (_ & m & Hm & Hback & _).
  - by apply source_wf.
  - reflexivity.
  - by intros fuel a [= -> ->]%list_elem_of_singleton.
  - apply (executes_steps any). exact mirror_run.
  - apply rtc_refl.
  - assert (Hi : Inv (source_at 3 full_target)).
    { apply (steps_safe _ _ (executes_steps any _ _ _ _ mirror_run)).
      apply (tasks_safe (source_at 1 ∅) [(1, assigned)]); [by apply source_wf|done|].
      by intros fuel a [= -> ->]%list_elem_of_singleton. }
    assert (Hb : Inv backup) by (apply empty_target_inv; [by apply backup_wf|done]).
    eapply executes_runs; [apply (restore_run backup); [exact Hmanifest|by apply (proj2 (backup_content (source_at 3 full_target) _ _))..]|exact Hb|
      by apply wp_restore].
  - reflexivity.
  - reflexivity.
  - apply history_lookup in Hm as [-> _]. exact Hback.
Defined.
