(* ===== verification/Together.v ===== *)
(** * Mirror tasks with retention, together at one target

    [Fleet] is about tasks without retention, [Alone] about one task with it.
    Nodes that disagree about ownership for a while run the same task twice,
    so here any number of tasks prune, pass and tail at one target at once.
    Completeness then depends on ages and clocks; what needs neither is proved
    here: nothing but the source's own bytes is ever at the target, and the
    newest manifest is never deleted or rolled back. *)

From S2P Require Import Prelude Order Text Store Slate Effects Concurrent Config Registry.
From S2P Require Import Layout Copier Pass Targets Prune Loops Rely LoopSafety Footprint Solo Scenario MirrorSafety Fleet PruneSafety Alone.

Section together.
Context `{SL : SlateLib, SW : !SlateLaws, UL : UrlLib, RL : !RemoteLib}.
Implicit Types (w : world) (m : VersionedManifest).

(** What the source, the clock and any other task may have done. *)
Record moves w w' : Prop := {
  mv_hist : w_hist w ⊆ w_hist w';
  mv_content : w_content w ⊆ w_content w';
  mv_time : (w_time w ≤ w_time w')%Z;
  mv_sound : sound w';
  mv_advances : advances w w';
}.

#[export] Instance moves_trans : Transitive moves.
Proof. intros w1 w2 w3 [] []. split; try done; by etrans. Qed.
Lemma moves_refl w : sound w → moves w w.
Proof. intros. split; try done. intros id ?. by exists id. Qed.

Lemma source_step_moves w w' : sound w → source_step w w' → moves w w'.
Proof.
  intros [_ Hf] [Hh Hc Ht Hwf Hd]. split; try done.
  - split; [done|]. intros rel b. rewrite Hd. intros Hb. eapply source_has_mono; [done..|by apply Hf].
  - intros id Hid. exists id. split; [done|]. unfold dest_latest in *. by rewrite Hd.
Qed.

Lemma source_has_moves w w' rel b : moves w w' → source_has w rel b → source_has w' rel b.
Proof. intros []. by apply source_has_mono. Qed.

(** Objects of the source landing at the target. *)
Lemma write_moves w w' :
  sound w → w_hist w' = w_hist w → w_content w' = w_content w → w_time w' = w_time w →
  (∀ rel, at_dest w rel → at_dest w' rel) →
  (∀ rel b, w_dest w' !! rel = Some b → w_dest w !! rel = Some b ∨ source_has w rel b) →
  moves w w'.
Proof.
  intros [Hwf Hf] Hh Hc Ht Hd Hnew.
  assert (Hs : sound w').
  { split; [destruct Hwf; split; by rewrite ?Hh, ?Hc|]. intros rel b Hb.
    apply (source_has_mono w); [by rewrite Hh|by rewrite Hc|]. destruct (Hnew _ _ Hb); [by apply Hf|done]. }
  split; rewrite ?Hh, ?Hc, ?Ht; try done. intros id (Hid & Hat & _). by apply dest_latest_exists; [| |apply Hd].
Qed.

Lemma put_moves w rel b : sound w → source_has w rel b → moves w (set_dest w (<[rel := b]> (w_dest w))).
Proof.
  intros Hs Hb. apply write_moves; try done; simpl.
  - intros r Hr. unfold at_dest. simpl. apply lookup_insert_is_Some'. by right.
  - intros r x Hx. apply lookup_insert_Some in Hx as [[<- <-]|[_ ?]]; auto.
Qed.

(** Deleting anything but the newest manifest. *)
Lemma delete_moves w rel :
  sound w → (∀ id, dest_latest w id → rel ≠ manifest_rel id) → moves w (set_dest w (delete rel (w_dest w))).
Proof.
  intros [Hwf Hf] Hrel. split; simpl; try done.
  - split; [by destruct Hwf|]. intros r b Hb. simpl in Hb. apply lookup_delete_Some in Hb as [_ Hb]. by apply Hf.
  - intros id Hl. pose proof (Hrel id Hl) as Hne. destruct Hl as (Hid & Hat & Hmax). exists id. split; [done|].
    split_and!; [done|simpl; by rewrite lookup_delete_ne|]. intros i Hi [b Hb]. simpl in Hb. apply lookup_delete_Some in Hb as [_ Hb]. apply Hmax; [done|by eexists].
Qed.

(** ** The logic *)
Fixpoint wpm {A} (p : prog A) (Q : A → world → Prop) w : Prop :=
  match p with
  | Ret a => Q a w
  | Call c k => ∀ w1 r w2, moves w w1 → handle c w1 r w2 → moves w1 w2 ∧ wpm (k r) Q w2
  end.

Lemma wpm_then {A B} (p : prog A) (f : A → prog B) (P : A → world → Prop) Q w :
  wpm p P w → sound w → (∀ a w', moves w w' → P a w' → wpm (f a) Q w') → wpm (bind p f) Q w.
Proof.
  unfold bind. revert w. induction p as [a|R c k IH]; intros w Hp Hs Hf; simpl in *; [apply Hf; [by apply moves_refl|done]|].
  intros w1 r w2 H1 Hh. destruct (Hp w1 r w2 H1 Hh) as [H2 Hk]. split; [done|].
  apply IH; [done|apply H2|]. intros a w' H3. apply Hf. by do 2 (etrans; [done|]).
Qed.

Lemma wpm_stable {A} (p : prog A) w w' : moves w w' → wpm p (λ _ _, True) w → wpm p (λ _ _, True) w'.
Proof. intros Hm. destruct p as [a|R c k]; [done|]. simpl. intros Hp w1 r w2 H1. apply Hp. by etrans. Qed.

(** A program that may run anywhere. *)
Definition tame {A} (p : prog A) : Prop := ∀ w, sound w → wpm p (λ _ _, True) w.

Lemma tame_then {A B} (p : prog A) (f : A → prog B) : tame p → (∀ a, tame (f a)) → tame (bind p f).
Proof. intros Hp Hf w Hs. eapply wpm_then; [by apply Hp|done|]. intros a w' Hm _. apply Hf, Hm. Qed.
Lemma tame_try {E F A B} (conv : E → F) (p : prog (Result E A)) (f : A → prog (Result F B)) :
  tame p → (∀ a, tame (f a)) → tame (try conv p f).
Proof. intros Hp Hf. unfold try. apply tame_then; [done|]. by intros [a|e]. Qed.
Lemma tame_tryc {S E F A B} (s : S) (conv : E → F) (p : prog (Result E A)) (f : A → prog (S * Result F B)) :
  tame p → (∀ a, tame (f a)) → tame (tryc s conv p f).
Proof. intros Hp Hf. unfold tryc. apply tame_then; [done|]. by intros [a|e]. Qed.

(** Calls that cannot hurt, whatever their arguments. *)
Definition harmless : ∀ R, call R → Prop := λ R c,
  match c with
  | ReadManifest _ _ | Get _ _ | Head _ _ | ListDir _ _ | ListRoot _ | ListCheckpoints _ _
  | UtcNow | InstantNow | TimerFires _ | Schedule _ | IsCancelled | AcquirePermit | Sleep _ | StartMultipart _ _ => True
  | CreateCheckpoint db _ | RefreshCheckpoint db _ _ | DeleteCheckpoint db _ => db = Source
  | Put _ _ _ | PutCreate _ _ _ | FinishMultipart _ _ _ | Delete _ _ | Effects.Rclone _ => False
  end.

Lemma harmless_moves {R} (c : call R) w r w' : harmless R c → sound w → handle c w r w' → moves w w'.
Proof.
  intros Hc Hs Hh. pose proof (moves_refl _ Hs) as Hrefl.
  destruct c as [[] []|[]|[]|[]| | | | | | | | | | | | | | | | | |]; simpl in *; try done;
    try (destruct Hh as [-> _]; exact Hrefl); try (subst; exact Hrefl).
  - destruct Hh as [Hh _]. by apply source_step_moves.
  - by apply source_step_moves.
  - by apply source_step_moves.
Qed.

Lemma tame_calls {A} (p : prog A) : calls harmless p → tame p.
Proof.
  intros Hp w Hs. revert w Hs. induction p as [a|R c k IH]; intros w Hs; [done|]. destruct Hp as [Hc Hk].
  intros w1 r w2 H1 Hh. pose proof (harmless_moves c w1 r w2 Hc (mv_sound _ _ H1) Hh) as H2.
  split; [done|]. apply IH; [apply Hk|apply H2].
Qed.

(** ** Writes of what was read from the source *)

Lemma wpm_get {A} rel (k : Result StoreError GetResult → prog A) :
  (∀ e, tame (k (Err e))) →
  (∀ g w, sound w → (∀ b, gr_bytes g = Ok b → source_has w rel b) → wpm (k (Ok g)) (λ _ _, True) w) →
  tame (bind (ask (Get Source rel)) k).
Proof.
  intros He Hk w Hs w1 r w2 H1 [-> Hr]. split; [apply moves_refl, H1|].
  destruct r as [g|e]; [apply Hk; [apply H1|done]|apply He, H1].
Qed.

Lemma wrote_moves w w1 w2 rel b r :
  moves w w1 → source_has w rel b → wrote w1 rel b w2 r → moves w1 w2.
Proof.
  intros Hm Hb [->|[-> _]]; [|apply moves_refl, Hm].
  apply put_moves; [apply Hm|by eapply source_has_moves].
Qed.

(** A write of [b], then anything. *)
Lemma wpm_write {A} (c : call (Result StoreError unit)) rel b (k : Result StoreError unit → prog A) w :
  (c = Put Dest rel b ∨ c = PutCreate Dest rel b ∨ c = FinishMultipart Dest rel b) →
  source_has w rel b → (∀ r, tame (k r)) → wpm (bind (ask c) k) (λ _ _, True) w.
Proof.
  intros Hc Hb Hk w1 r w2 H1 Hh.
  assert (Hm : moves w1 w2).
  { destruct Hc as [->|[->| ->]]; simpl in Hh; [by eapply wrote_moves| |by eapply wrote_moves].
    eapply (wrote_moves w w1 w2 rel b r); [done..|]. unfold wrote.
    destruct r as [[]|[]]; [left; by destruct Hh as [_ ->]| |right; destruct Hh as [-> _]; eauto|];
      (destruct Hh as [->|[_ ->]]; eauto). }
  split; [done|]. apply Hk, Hm.
Qed.

Lemma tame_ret {A} (a : A) : tame (Ret a).
Proof. done. Qed.
#[local] Hint Resolve tame_ret : core.

Lemma tame_copy_object rel : tame (copy_object rel).
Proof.
  unfold copy_object, try at 1. apply wpm_get; [done|]. intros g w Hs Hg.
  destruct (bool_decide _).
  - destruct (gr_bytes g) as [b|e]; [|done]. eapply wpm_write; [by left|by apply Hg|]. by intros [[]|].
  - unfold try at 1. eapply (wpm_then _ _ (λ _ w', ∀ b, gr_bytes g = Ok b → source_has w' rel b)); [|done|].
    + intros w1 r w2 H1 ->. split; [apply moves_refl, H1|]. intros b Hb. eapply source_has_moves; [done|by apply Hg].
    + intros [[]|e] w' Hm Hg'; [|done]. destruct (gr_bytes g) as [b|e]; [|done].
      eapply wpm_write; [by right; right|by apply Hg'|]. by intros [[]|].
Qed.

Lemma tame_concurrently {E A B} (combine : B → A → B) limit (tasks : list (prog (Result E A))) x :
  (∀ p, p ∈ tasks → tame p) → tame (concurrently combine limit tasks x).
Proof.
  intros Ht w Hs. assert (Hw : ∀ p, p ∈ tasks → wpm p (λ _ _, True) w) by (intros p Hp; by apply Ht).
  clear Ht. revert w Hs Hw.
  apply (concurrently_ind combine limit (λ tasks _ p, ∀ w, sound w → (∀ q, q ∈ tasks → wpm q (λ _ _, True) w) →
    wpm p (λ _ _, True) w)); [done|].
  intros l y n body Hstep w Hs Hl w1 i w2 H1 ->. split; [apply moves_refl, H1|].
  destruct (Hstep i) as (before & q & after & -> & _ & Hq).
  assert (Hst : ∀ w2 p, moves w w2 → p ∈ before ++ q :: after → wpm p (λ _ _, True) w2)
    by (intros w2 p Hm Hp; eapply wpm_stable; eauto).
  destruct q as [[a|e]|R c k]; [apply Hq; [apply H1|intros p ?; apply Hst; set_solver]|by rewrite Hq|].
  destruct Hq as (k' & -> & Hk). intros w3 r w4 H3 Hh. assert (Hm : moves w w3) by by etrans.
  destruct (Hst w3 (Call c k) Hm ltac:(set_solver) w3 r w4 (moves_refl _ (mv_sound _ _ H3)) Hh) as [H4 Hr].
  split; [done|]. apply Hk; [apply H4|]. intros p. rewrite elem_of_app, elem_of_cons.
  intros [?|[->|?]]; [|done|]; (apply Hst; [by etrans|set_solver]).
Qed.

Lemma tame_copy copier names : tame (copy copier names).
Proof.
  unfold copy. destruct names as [|n names]; [done|].
  assert (Hbuiltin : ∀ l, tame (copy_builtin copier l)).
  { intros l. unfold copy_builtin. apply tame_try; [|done]. apply tame_concurrently.
    intros p (x & -> & _)%list_elem_of_fmap. apply tame_copy_object. }
  destruct (cr_kind copier); [apply Hbuiltin| |apply Hbuiltin]. unfold copy_rclone.
  apply tame_try; [done|intros _]. apply tame_try; [done|intros _]. apply tame_try; [|done].
  intros w Hs w1 r w2 H1 (Hh & Hc & Ht & Hd & Hnew & _). split; [|done].
  apply write_moves; [apply H1|done..| |].
  - intros rel [b Hb]. exists b. by eapply lookup_weaken.
  - intros rel b Hb. destruct (Hnew _ _ Hb) as [?|[_ ?]]; auto.
Qed.

Lemma tame_under_pin {A} pin (p : prog A) : tame p → tame (under_pin pin p).
Proof.
  intros Hp w Hs. specialize (Hp w Hs). revert pin w Hs Hp.
  induction p as [a|R c k IH]; intros pin w Hs Hp; [done|]. cbn [under_pin].
  intros w1 n w2 H1 ->. split; [apply moves_refl, H1|].
  eapply (wpm_then _ _ (λ _ _, True)); [|apply H1|].
  - apply tame_calls; [|apply H1]. clear. induction n as [|n IH] in pin |- *; [done|]. cbn [refresh_times].
    apply calls_try; [|intros; apply IH]. unfold Pin_refresh. apply calls_then; [done|].
    intros [[]|e]; [by apply calls_then|done].
  - intros [pin'|e] w' Hm _; [|done]. intros w3 r w4 H3 Hh.
    destruct (Hp w3 r w4 ltac:(by do 2 (etrans; [done|])) Hh) as [H4 Hk]. split; [done|]. apply IH; [apply H4|done].
Qed.

Lemma tame_commit_one u head_id id : tame (commit_one u head_id id).
Proof.
  unfold commit_one. apply wpm_get; [by intros []|]. intros g w Hs Hg.
  destruct (gr_bytes g) as [b|e]; [|done]. change (try fatal_store (Ret (Ok b)) ?f) with (f b).
  eapply wpm_write; [by right; left|by apply Hg|]. intros [[]|[]]; try done.
  apply tame_try; [by apply tame_calls|]. intros existing. apply tame_try; [done|]. intros x. by case_bool_decide.
Qed.

Lemma tame_commit u d head copied : tame (commit u d head copied).
Proof.
  unfold commit. apply tame_try; [|done]. generalize 0%N.
  induction (btree_keys _) as [|id ids IH]; intros n; cbn [commit_loop]; [done|].
  destruct (bool_decide _); [apply IH|]. apply tame_try; [apply tame_commit_one|intros; apply IH].
Qed.

Lemma tame_tail_step fuel t copied : tame (tail_step fuel t copied).
Proof.
  revert t copied. induction fuel as [|fuel IH]; intros t copied; cbn [tail_step]; [done|].
  apply tame_tryc; [|intros []; [apply IH|done]].
  unfold tail_copy. apply wpm_get; [by intros []|]. intros g w Hs Hg.
  destruct (gr_bytes g) as [b|e]; [|done]. eapply wpm_write; [by left|by apply Hg|]. by intros [[]|].
Qed.

(** ** The pass and the tail *)

Lemma tame_reading {A} (p : prog A) : calls reading p → tame p.
Proof.
  intros Hp. apply tame_calls. eapply calls_mono; [|exact Hp]. intros R c Hc. by destruct c.
Qed.

Lemma tame_call {R} (c : call R) : harmless R c → tame (ask c).
Proof. intros Hc. by apply tame_calls. Qed.

Lemma tame_pin_delete pin : tame (Pin_delete pin).
Proof. by apply tame_calls. Qed.

Lemma tame_pinned_pass u name s copier watermark seeding cache :
  tame (pinned_pass u name s copier watermark seeding cache).
Proof.
  unfold pinned_pass. apply tame_tryc; [by apply tame_calls, calls_try; [|intros []]|]. intros pin.
  apply tame_tryc; [apply tame_reading, read_cache_read|]. intros [cache1 [head|]].
  - apply tame_then; [apply tame_reading, read_diff|]. intros [cache2 [d|e]]; [|done].
    apply tame_tryc; [apply tame_reading, read_plan_work|]. intros work.
    apply tame_then; [|intros r; apply tame_then; [apply tame_pin_delete|done]].
    unfold copy_and_commit. apply tame_try.
    + unfold copy_under_pin. apply tame_try; [apply tame_under_pin, tame_copy|by intros [? ?]].
    + intros [pin' copied]. apply tame_then; [by apply tame_calls|]. intros []; [done|apply tame_commit].
  - apply tame_then; [apply tame_pin_delete|done].
Qed.

Lemma tame_sync_pass u name s : tame (sync_pass u name s).
Proof.
  unfold sync_pass. generalize (Copier_new s u), MAX_RESTARTS, (∅ : ManifestCache), EmptyString.
  intros copier n. induction n as [|n IH]; intros cache reason; cbn [sync_loop]; [done|].
  apply tame_then; [|intros [cache' [o|[r|e]]]; [done|apply IH|done]].
  unfold pass_once. apply tame_tryc.
  - unfold read_heads. apply tame_try; [by apply tame_call|]. intros watermark.
    apply tame_try; [by apply tame_call|]. intros [head|]; [|done].
    destruct (check_source _ _); [|done]. destruct watermark; [|done]. by case_bool_decide.
  - intros [watermark head]. destruct (bool_decide _); [done|].
    apply tame_then; [apply tame_reading, read_diff|]. intros [cache2 [d|e]]; [|done].
    apply tame_tryc; [apply tame_reading, read_plan_work|]. intros [|rel work]; [|apply tame_pinned_pass].
    apply tame_then; [apply tame_commit|done].
Qed.

Lemma tame_tail_start floor : tame (Tail_start floor).
Proof. unfold Tail_start. apply tame_try; [apply tame_reading, read_list_wals|done]. Qed.

(** ** Pruning beside others *)

(** The newest manifest is at least [id]. *)
Definition newest_from (id : N) w : Prop := sound w ∧ ∃ id', (id ≤ id')%N ∧ dest_latest w id'.

Lemma newest_from_moves id w w' : moves w w' → newest_from id w → newest_from id w'.
Proof.
  intros Hm [_ (i & Hi & Hl)]. split; [apply Hm|]. destruct (mv_advances _ _ Hm i Hl) as (j & ? & ?).
  exists j. split; [lia|done].
Qed.

(** Objects that are not a manifest, or an older one. *)
Definition expendable (latest : N) (rel : string) : Prop :=
  ∀ id, (id ≤ U64_MAX)%N → rel = manifest_rel id → (id < latest)%N.

Lemma wpm_delete_all latest rels n w :
  newest_from latest w → Forall (expendable latest) rels → wpm (delete_all rels n) (λ _ _, True) w.
Proof.
  revert n w. induction rels as [|rel rels IH]; intros n w Hn Hrels; cbn [delete_all]; [done|].
  inversion_clear Hrels as [|?? Hrel Hrest]. intros w1 r w2 H1 Hh.
  pose proof (newest_from_moves _ _ _ H1 Hn) as Hn1.
  assert (H2 : moves w1 w2).
  { assert (Hd : moves w1 (set_dest w1 (delete rel (w_dest w1)))).
    { apply delete_moves; [apply H1|]. intros id (Hid & Hat & Hmax) Heq. specialize (Hrel id Hid Heq).
      destruct Hn1 as [_ (j & Hj & (Hj64 & Hjat & _))]. specialize (Hmax j Hj64 Hjat). lia. }
    pose proof (moves_refl w1 (mv_sound _ _ H1)) as Hr. simpl in Hh.
    destruct r as [[]|[]]; [by subst|destruct Hh as [-> _]; done|destruct Hh as [-> | ->]; done..]. }
  split; [done|]. pose proof (newest_from_moves _ _ _ H2 Hn1) as Hn2.
  destruct r as [[]|[]]; try done; by apply IH.
Qed.

(** A listing of the target's manifests: the last one is the newest. *)
Lemma wpm_list_manifests w :
  sound w →
  wpm (list_manifests Dest) (λ r w', match r with
    | Ok l => ∀ latest x, last l = Some (latest, x) → newest_from latest w' ∧ ∀ id, id ∈ l.*1 → (id ≤ latest)%N
    | Err _ => True end) w.
Proof.
  intros Hs. unfold list_manifests, try. eapply (wpm_then _ _ (λ r w', match r with
    | Ok l => ∀ name, name ∈ li_name <$> l → is_Some (w_dest w' !! (MANIFEST_DIR +:+ "/" +:+ name))
    | Err _ => True end)); [|done|].
  - unfold list_dir. intros w1 r w2 H1 [-> Hr]. split; [apply moves_refl, H1|].
    destruct r as [l|[]]; [intros name Hn; by apply Hr|by intros name ?%elem_of_nil|done..].
  - intros [l|e] w1 Hm Hl; [|done]. intros latest x Hlast. set (ids := sort_by _ _) in *.
    assert (Hin : ∀ id y, (id, y) ∈ ids → (id ≤ U64_MAX)%N ∧ at_dest w1 (manifest_rel id)).
    { intros id y Hy. unfold ids in Hy. rewrite elem_of_sort_by in Hy.
      apply list_elem_of_omap in Hy as (z & Hz & Hp). apply bind_Some in Hp as (i & Hp & [= -> ->]).
      destruct (Hl (li_name y) ltac:(apply list_elem_of_fmap; eauto)) as [b Hb].
      destruct (mv_sound _ _ Hm) as [Hwf Hf]. destruct (Hf _ _ Hb) as [Hc|(j & m & Hrel & Hm' & _)].
      { by rewrite (wf_names _ Hwf) in Hc. }
      destruct (wf_ids _ Hwf _ _ Hm') as [_ Hj].
      assert (li_name y = manifest_name j) as Hy by (unfold manifest_rel in Hrel; simpl in Hrel; by injection Hrel).
      rewrite Hy, parse_manifest_name_name in Hp by done. injection Hp as <-. split; [done|].
      exists b. by rewrite <-Hrel. }
    split.
    + split; [apply Hm|]. apply last_Some_elem_of in Hlast. destruct (Hin _ _ Hlast) as [Hid Hat].
      apply dest_latest_exists; [apply Hm|done..].
    + intros id ([id' y] & -> & Hy)%list_elem_of_fmap. simpl.
      assert (Hsort : StronglySorted by_id ids) by (apply sort_by_sorted; apply _).
      apply last_Some in Hlast as [l' Hl']. rewrite Hl' in Hsort, Hy.
      apply elem_of_app in Hy as [Hy|Hy%list_elem_of_singleton]; [|by injection Hy as -> _].
      apply (StronglySorted_app_1_elem_of by_id) with (x1 := (id', y)) (x2 := (latest, x)) in Hsort; [done|done|set_solver].
Qed.

Lemma wpm_post {A} (p : prog A) Q P w :
  wpm p Q w → post any p P → wpm p (λ a w', Q a w' ∧ P a) w.
Proof.
  revert w. induction p as [a|R c k IH]; intros w Hp HP; [done|].
  intros w1 r w2 H1 Hh. destruct (Hp w1 r w2 H1 Hh) as [H2 Hk]. split; [done|]. apply (IH r w2 Hk). by apply HP.
Qed.

(** What is kept includes every restore point, whatever the reads answer. *)
Definition keeps (points : list N) (kept : gset N) (r : Result MirrorError (ManifestCache * gset N)) : Prop :=
  ∀ d k, r = Ok (d, k) → kept ⊆ k ∧ ∀ id, id ∈ points → id ∈ k.

Lemma keep_loop_keeps now ids points decoded kept :
  post any (keep_loop now ids points decoded kept) (keeps points kept).
Proof.
  revert decoded kept. induction points as [|id points IH]; intros decoded kept; cbn [keep_loop].
  - intros d k [= <- <-]. split; [done|]. by intros ? ?%elem_of_nil.
  - apply any_try; [|by intros e d k [=]]. intros [decoded' m].
    assert (Hmono : ∀ dec kept', {[id]} ∪ kept ⊆ kept' →
      post any (keep_loop now ids points dec kept') (keeps (id :: points) kept)).
    { intros dec kept' Hsub. eapply post_mono; [apply IH|]. intros r Hr d k Hk. destruct (Hr d k Hk) as [Hs Hp].
      split; [set_solver|]. intros i [->|Hi]%elem_of_cons; [set_solver|auto]. }
    destruct m as [m|]; apply Hmono; set_solver.
Qed.

Lemma expendable_data latest dir name : dir = COMPACTED_DIR ∨ dir = WAL_DIR → expendable latest (dir +:+ "/" +:+ name).
Proof. intros [->| ->] id _ Heq; unfold manifest_rel in Heq; simpl in Heq; discriminate Heq. Qed.

Lemma stale_manifests_expendable latest kept (l : list (N * Listed)) :
  (latest ≤ U64_MAX)%N → latest ∈ kept → (∀ id, id ∈ l.*1 → (id ≤ latest)%N) →
  Forall (expendable latest) (stale_manifests kept l).
Proof.
  intros H64 Hk Hle. apply Forall_forall. intros rel (e & -> & [Hn He]%list_elem_of_filter)%list_elem_of_fmap id Hid Heq.
  assert (Hel : (e.1 ≤ latest)%N) by (apply Hle, list_elem_of_fmap; eauto).
  apply manifest_rel_inj in Heq; [|lia|done]. subst id.
  destruct (decide (e.1 = latest)) as [E|]; [by rewrite E in Hn|lia].
Qed.

Lemma tame_source_closure u : tame (source_closure u).
Proof.
  apply tame_calls. unfold source_closure. apply calls_try; [done|]. intros [m|]; [|done].
  generalize (∅ : gset N), (manifest_objects m). induction (m_checkpoints m) as [|cp cps IH]; intros seen objs;
    cbn [source_closure_loop]; [done|].
  destruct (_ || _); [apply IH|]. apply calls_try; [done|]. intros p. apply IH.
Qed.

Lemma tame_kept_objects ids decoded objs all : tame (kept_objects_loop ids decoded objs all).
Proof.
  apply tame_calls. revert decoded objs all. induction ids as [|id ids IH]; intros decoded objs all; cbn [kept_objects_loop]; [done|].
  apply calls_try; [eapply calls_mono; [|apply read_cache_read]; intros R c Hc; by destruct c|]. intros [? [?|]]; apply IH.
Qed.

Lemma tame_keep_loop now ids points decoded kept : tame (keep_loop now ids points decoded kept).
Proof.
  apply tame_calls. revert decoded kept. induction points as [|id points IH]; intros decoded kept; cbn [keep_loop]; [done|].
  apply calls_try; [eapply calls_mono; [|apply read_cache_read]; intros R c Hc; by destruct c|]. intros [? [?|]]; apply IH.
Qed.

(** From here on the newest manifest is at least [latest]. *)
Lemma wpm_after {A B} latest (p : prog A) (f : A → prog B) w :
  newest_from latest w → tame p → (∀ a w', newest_from latest w' → wpm (f a) (λ _ _, True) w') →
  wpm (bind p f) (λ _ _, True) w.
Proof.
  intros Hn Hp Hf. eapply wpm_then; [apply Hp, Hn|apply Hn|]. intros a w' Hm _.
  apply Hf. by eapply newest_from_moves.
Qed.
Lemma wpm_after_try {E F A B} latest (conv : E → F) (p : prog (Result E A)) (f : A → prog (Result F B)) w :
  newest_from latest w → tame p → (∀ a w', newest_from latest w' → wpm (f a) (λ _ _, True) w') →
  wpm (try conv p f) (λ _ _, True) w.
Proof. intros Hn Hp Hf. unfold try. eapply wpm_after; [done..|]. intros [a|e] w' Hn'; [by apply Hf|done]. Qed.

Lemma wpm_delete_try {B} latest rels n (f : N → prog (Result MirrorError B)) w :
  newest_from latest w → Forall (expendable latest) rels → (∀ a w', newest_from latest w' → wpm (f a) (λ _ _, True) w') →
  wpm (try (λ e, e) (delete_all rels n) f) (λ _ _, True) w.
Proof.
  intros Hn Hr Hf. unfold try. eapply wpm_then; [by eapply wpm_delete_all|apply Hn|].
  intros [a|e] w' Hm _; [|done]. apply Hf. by eapply newest_from_moves.
Qed.

Lemma tame_prune u name s : tame (prune u name s).
Proof.
  unfold prune. apply tame_then; [by apply tame_call|]. intros now. unfold prune_at.
  destruct (rmt_keep s) as [keep|]; [|done]. intros w Hs. unfold try at 1.
  eapply wpm_then; [by apply wpm_list_manifests|done|]. intros [l|e] w1 Hm Hl; [|done].
  destruct (last l) as [[latest x]|] eqn:Elast; [|done]. destruct (Hl latest x eq_refl) as [Hn Hle].
  assert (H64 : (latest ≤ U64_MAX)%N) by (destruct Hn as [_ (i & Hi & Hi64 & _)]; lia).
  eapply wpm_after_try; [exact Hn|apply tame_reading, read_list_compacted|]. intros compacted w2 H2'.
  eapply wpm_after_try; [exact H2'|apply tame_reading, read_list_wals|]. intros wals w3 H3.
  eapply wpm_after; [exact H3|apply tame_source_closure|]. intros spared w4 H4.
  eapply wpm_after; [exact H4|destruct spared; [by apply tame_calls|done]|]. intros floor w5 H5.
  unfold try at 1. eapply wpm_then; [apply wpm_post; [apply tame_keep_loop, H5|apply keep_loop_keeps]|apply H5|].
  intros [[decoded kept]|e] w6 Hm6 [_ Hkeep]; [|done]. pose proof (newest_from_moves _ _ _ Hm6 H5) as H6.
  destruct (Hkeep _ _ eq_refl) as [_ Hpts].
  assert (Hkl : latest ∈ kept).
  { apply Hpts. unfold restore_points. apply list_elem_of_fmap. exists (latest, x). split; [done|].
    apply list_elem_of_filter. split; [by left|]. by apply last_Some_elem_of. }
  eapply wpm_after_try; [exact H6|apply tame_kept_objects|]. intros [[decoded' kobjs] all] w7 H7.
  eapply wpm_after_try; [exact H7|apply tame_reading, read_cache_read|]. intros [decoded2 head] w8 H8.
  unfold prune_deletions. eapply wpm_delete_try; [exact H8|by apply stale_manifests_expendable|]. intros deleted w9 H9.
  destruct spared as [spared|]; [|done]. destruct (negb all); [done|].
  eapply wpm_delete_try; [exact H9| |]; [apply Forall_forall; intros rel (y & -> & _)%list_elem_of_fmap; apply expendable_data; by left|].
  intros n1 w10 H10. eapply wpm_delete_try; [exact H10| |done].
  apply Forall_forall; intros rel (y & -> & _)%list_elem_of_fmap; apply expendable_data; by right.
Qed.

(** ** Soundness *)
Definition tame_safe {A} (s : system (A := A)) : Prop :=
  sound s.1 ∧ ∀ i p, s.2 !! i = Some p → wpm p (λ _ _, True) s.1.

Lemma tame_step {A} (s s' : system (A := A)) : step s s' → tame_safe s → tame_safe s' ∧ moves s.1 s'.1.
Proof.
  destruct 1 as [w w' ps Hs|w w' ps i R c k r Hi Hh]; intros [Hsd Hps]; simpl in *.
  - pose proof (source_step_moves _ _ Hsd Hs) as Hm. split; [|done].
    split; [apply Hm|]. intros j p Hj. eapply wpm_stable; eauto.
  - destruct (Hps _ _ Hi w r w' (moves_refl _ Hsd) Hh) as [Hm Hk]. split; [|done].
    split; [apply Hm|]. simpl. intros j p Hj. apply list_lookup_insert_Some in Hj as [(-> & <- & _)|[_ Hj]]; [done|].
    eapply wpm_stable; eauto.
Qed.

Lemma tame_steps {A} (s s' : system (A := A)) : rtc step s s' → tame_safe s → moves s.1 s'.1.
Proof.
  intros Hr. induction Hr as [s|s1 s2 s3 Hs _ IH]; intros Hsafe; [apply moves_refl, Hsafe|].
  destruct (tame_step _ _ Hs Hsafe) as [H2' Hm]. etrans; [exact Hm|]. by apply IH.
Qed.

#[export] Instance tame_logic a : LoopLogic sound a (λ A p w, wpm p (λ _ _, True) w).
Proof.
  split; intros.
  - done.
  - eapply wpm_then; [done..|]. intros x w' Hm _. apply H1, Hm.
  - intros w1 r w2 H1 ->%H. split; [apply moves_refl, H1|done].
  - by apply tame_sync_pass.
  - by apply tame_tail_start.
  - by apply tame_tail_step.
  - by apply tame_prune.
Qed.

(** C7: nodes that disagree about ownership, or an operator's sync beside the
    owner's task, run several mirror tasks with retention at one target, each
    pruning while others copy and commit.  Whatever the tasks, settings,
    interleaving, failures and crashes, from any target that holds source
    objects only: nothing but the source's objects with the source's bytes is
    ever at the target, and its newest manifest is never deleted or rolled
    back: it is always there, at least as new as before. *)
Theorem retention_never_rolls_back w w' (tasks : list (nat * Assigned)) ps' :
  wf_source w → (∀ rel b, w_dest w !! rel = Some b → source_has w rel b) →
  rtc step (w, (λ '(fuel, a), run_mirror fuel a) <$> tasks) (w', ps') →
  (∀ rel b, w_dest w' !! rel = Some b → source_has w' rel b) ∧
  (∀ id, dest_latest w id → ∃ id' m, (id ≤ id')%N ∧ dest_latest w' id' ∧
     w_hist w' !! id' = Some m ∧ w_dest w' !! manifest_rel id' = Some (manifest_bytes m)).
Proof.
  intros Hwf Hf Hsteps. assert (Hs : sound w) by done.
  assert (Hm : moves w w').
  { apply (tame_steps _ _ Hsteps). split; [done|]. intros i p. simpl. rewrite list_lookup_fmap.
    intros ([fuel a] & Ht & ->)%fmap_Some.
    by apply (safe_run_mirror sound a (λ A p w, wpm p (λ _ _, True) w)). }
  destruct (mv_sound _ _ Hm) as [Hwf' Hf']. split; [done|].
  intros id Hid. destruct (mv_advances _ _ Hm id Hid) as (id' & Hle & Hl). destruct Hl as (H64 & [b Hb] & Hmax).
  destruct (source_has_manifest _ _ _ Hwf' H64 (Hf' _ _ Hb)) as (m & Hm' & ->).
  exists id', m. split; [done|]. split; [|done]. split; [done|]. split; [by exists (manifest_bytes m)|done].
Qed.
End together.

(** *** Witness: one of two such tasks takes a due turn *)
Import Registry.Concrete Scenario.Demo.

Lemma retention_never_rolls_back_witness :
  ∃ id, (3 ≤ id)%N ∧ dest_latest (source_at 3 pruned_target) id.
Proof.
  destruct (retention_never_rolls_back (source_at 3 two_manifests) (source_at 3 pruned_target)
    [(1, keeping); (1, keeping)] [Ret (Ok ()); run_mirror 1 keeping]) as [_ Hl].
  - apply two_manifests_inv.
  - apply two_manifests_inv.
  - exact (executes_steps_beside any _ _ _ _ [run_mirror 1 keeping] keeping_run).
  - destruct (Hl 3%N two_manifests_latest) as (id & _ & Hle & Hd & _). exists id. split; [exact Hle|exact Hd].
Defined.
