(* ===== verification/Overlap.v ===== *)
(** * Two mirror tasks with retention at one target: a run

    [Together] proves what survives when tasks with retention overlap; this
    run shows what does not.  While one task is between reading the source's
    manifest 2 and putting it, the other mirrors manifest 3, from which the
    source has compacted an SST away, and prunes: the SST is old, and neither
    kept nor in the source's closure.  The first task then commits a restore
    point whose SST is gone. *)

From S2P Require Import Prelude Order Text Store Slate Effects Config Registry.
From S2P Require Import Layout Copier Pass Targets Prune Loops Rely MirrorSafety Mirroring Progress Scenario PruneSafety Alone Together.
Import Registry.Concrete Scenario.Demo.

(** A run of a task with a gap, in which the rest of the system takes the
    world from [g.1] to [g.2]. *)
Inductive interrupted `{SlateLib} {A} : world → prog A → world * world → world → A → Prop :=
  | int_gap w w2 w' p a : executes any w2 p w' a → interrupted w p (w, w2) w' a
  | int_call {R} w w1 w' g (c : call R) k r a :
      handle c w r w1 → interrupted w1 (k r) g w' a → interrupted w (Call c k) g w' a.

Lemma interrupted_steps `{SlateLib} {A} (p q q' : prog A) w g w' a :
  interrupted w p g w' a → (∀ x, rtc step (g.1, [x; q]) (g.2, [x; q'])) → rtc step (w, [p; q]) (w', [Ret a; q']).
Proof.
  induction 1 as [w w2 w' p a Hx|R w w1 w' g c k r a Hh Hx IH]; intros Hg.
  - etrans; [apply Hg|]. by apply (executes_steps_at any 0 p [p; q']).
  - eapply rtc_l; [by eapply (step_call w w1 [Call c k; q] 0)|]. by apply IH.
Qed.

Module Compacting.
Definition ulid : string := "01ARZ3NDEKTSV4RRFFQ69G5FAV".

(** Manifests 1 and 2 hold one SST; a compaction drops it in manifest 3. *)
#[export] Instance slate : SlateLib := {|
  VersionedManifest := N;
  m_id n := n;
  m_l0 n := if decide (n ≤ 2)%N then [Compacted ulid] else [];
  m_compacted _ := [];
  m_segments _ := [];
  m_replay_after_wal_id _ := 3%N;
  m_next_wal_sst_id _ := 4%N;
  m_checkpoints _ := [];
  m_external_dbs _ := [];
  m_wal_object_store_uri _ := None;
  m_last_l0_seq _ := 0%N;
  m_find_ts _ _ := None;
  manifest_bytes := Demo.slate.(manifest_bytes);
|}.
#[export] Instance slate_laws : SlateLaws.
Proof. constructor. apply Demo.slate_laws. Qed.

Definition source_at (n : N) (dest : gmap string string) : world :=
  {| w_hist := history n; w_content := {[ compacted_rel ulid := "sst" ]}; w_dest := dest; w_time := 100 |}.

Lemma compacting_wf n dest : (n ≤ 3)%N → wf_source (source_at n dest).
Proof.
  intros Hn. split; simpl; try (intros; by match goal with H : _ ∈ [] |- _ => apply elem_of_nil in H end).
  - intros id m [-> ?]%history_lookup. split; [done|]. unfold U64_MAX. lia.
  - intros name. by rewrite lookup_singleton_ne.
  - intros id m wal [-> _]%history_lookup. unfold manifest_ssts. simpl. case_decide; simpl.
    + intros [=]%list_elem_of_singleton.
    + by intros ?%elem_of_nil.
  - intros id m _. unfold U64_MAX. lia.
Qed.
Lemma compacting_moves n n' dest : (n ≤ n' ≤ 3)%N → source_step (source_at n dest) (source_at n' dest).
Proof. intros Hn. split; simpl; try done; [apply history_mono; lia|apply compacting_wf; lia]. Qed.
Lemma compacting_latest n dest : (1 ≤ n)%N → latest (source_at n dest) n.
Proof.
  intros Hn. split; simpl; [apply history_lookup; lia|]. intros id [m Hm%history_lookup]. lia.
Qed.
End Compacting.
Import Compacting.

(** ** The target *)
Definition before : gmap string string := <[manifest_rel 1 := "m"]> {[ compacted_rel ulid := "sst" ]}.
Definition mirrored_3 : gmap string string := <[manifest_rel 3 := "mmm"]> before.
Definition pruned_3 : gmap string string := {[ manifest_rel 3 := "mmm" ]}.
Definition resurrected : gmap string string := <[manifest_rel 2 := "mm"]> pruned_3.

(** What a listing of a directory shows, computed. *)
Definition dir_names (d : gmap string string) (dir : string) : list string :=
  omap (strip_prefix (dir +:+ "/")) (map_to_list d).*1.
Lemma dir_listing (d : gmap string string) dir (l : list Listed) :
  bool_decide (list_to_set (dir_names d dir) =@{gset string} list_to_set (li_name <$> l)) = true →
  ∀ name, is_Some (d !! (dir +:+ "/" +:+ name)) ↔ name ∈ li_name <$> l.
Proof.
  intros E%bool_decide_eq_true name. rewrite <-(elem_of_list_to_set (C := gset string) name (li_name <$> l)), <-E.
  rewrite elem_of_list_to_set. unfold dir_names. rewrite list_elem_of_omap. setoid_rewrite strip_prefix_spec. split.
  - intros [b Hb]. exists (dir +:+ "/" +:+ name). split; [|by rewrite app_assoc].
    apply list_elem_of_fmap. exists (dir +:+ "/" +:+ name, b). split; [done|]. by apply elem_of_map_to_list.
  - intros (k & ([k' b] & -> & Hb%elem_of_map_to_list)%list_elem_of_fmap & Hk). simpl in *. exists b.
    by rewrite <-app_assoc, <-Hk.
Qed.
Ltac directory := apply dir_listing; vm_compute; reflexivity.

Lemma before_latest n : dest_latest (source_at n before) 1.
Proof.
  split; [by vm_compute|]. split; [by vm_compute; eexists|].
  intros id Hid. unfold before, source_at. cbn [w_dest].
  rewrite lookup_insert_is_Some', lookup_singleton_is_Some. intros [H|H].
  - apply manifest_rel_inj in H; [lia|done|done].
  - discriminate H.
Qed.

Lemma before_inv : Inv (source_at 2 before).
Proof.
  split; simpl.
  - by apply compacting_wf.
  - unfold before. intros rel b [[<- <-]|[_ Hb]]%lookup_insert_Some; [right; exists 1%N, 1%N; by vm_compute|by left].
  - intros id m [-> Hid]%history_lookup _ rel Hrel.
    assert (Hn : ∀ i : N, (i ≤ 2)%N → mo_rel_names (@manifest_objects slate i) = [compacted_rel ulid]).
    { intros i Hi. by assert (i = 0 ∨ i = 1 ∨ i = 2)%N as [->|[->| ->]] by lia. }
    rewrite Hn in Hrel by lia. apply list_elem_of_singleton in Hrel as ->. vm_compute. by eexists.
  - intros id m cp l _ _ H. by apply elem_of_nil in H.
Qed.

(** The second task: it mirrors manifest 3 and prunes. *)
Lemma second_run :
  executes any (source_at 3 before) (run_mirror 1 keeping) (source_at 3 pruned_3) (Ok ()).
Proof.
  answer false (source_at 3 before); [done|done|].
  answer (Ok (old <$> [manifest_name 1]) : Result StoreError (list Listed)) (source_at 3 before); [quiet; directory|done|].
  answer 100%Z (source_at 3 before); [done|done|].
  answer true (source_at 3 before); [done|done|].
  answer (Ok (Some 1%N) : Result SlateError (option N)) (source_at 3 before); [quiet; split; [apply before_latest|done]|done|].
  answer (Ok (Some 3%N) : Result SlateError (option N)) (source_at 3 before); [quiet; by apply compacting_latest|done|].
  answer 100%Z (source_at 3 before); [done|done|].
  answer (Ok (object "mmm") : Result StoreError GetResult) (source_at 3 before);
    [quiet; intros b [= <-]; right; exists 3%N, 3%N; split; [done|split; [by apply history_lookup|done]]|done|].
  answer (Ok () : Result StoreError ()) (source_at 3 mirrored_3); [done|done|].
  answer 100%Z (source_at 3 mirrored_3); [done|done|].
  answer (Ok [ {| li_name := manifest_name 1; li_modified := -3600000000000 |};
               {| li_name := manifest_name 3; li_modified := 100 |} ] : Result StoreError (list Listed))
    (source_at 3 mirrored_3); [quiet; directory|done|].
  answer (Ok (old <$> [ulid +:+ ".sst"]) : Result StoreError (list Listed)) (source_at 3 mirrored_3); [quiet; directory|done|].
  answer (Ok [] : Result StoreError (list Listed)) (source_at 3 mirrored_3); [quiet; directory|done|].
  answer (Ok (Some 3%N) : Result SlateError (option N)) (source_at 3 mirrored_3); [quiet; by apply compacting_latest|done|].
  answer (Ok [] : Result SlateError (list Checkpoint)) (source_at 3 mirrored_3); [done|done|].
  answer (Ok (Some 3%N) : Result SlateError (option N)) (source_at 3 mirrored_3); [quiet; by vm_compute|done|].
  answer (Ok () : Result StoreError ()) (source_at 3 (delete (manifest_rel 1) mirrored_3)); [done|done|].
  answer (Ok () : Result StoreError ()) (source_at 3 pruned_3); [by vm_compute|done|].
  answer true (source_at 3 pruned_3); [done|done|].
  constructor.
Qed.

Ltac call r w2 :=
  match goal with
  | |- interrupted _ ?p _ _ _ => let p' := eval lazy head in p in change p with p'
  end;
  refine (int_call _ w2 _ _ _ _ r _ _ _).

(** The first task: cut off between reading the source's manifest 2 and
    putting it; its own prune afterwards keeps the manifest it put. *)
Lemma first_run :
  interrupted (source_at 2 before) (run_mirror 1 keeping) (source_at 2 before, source_at 3 pruned_3)
    (source_at 3 resurrected) (Ok ()).
Proof.
  call false (source_at 2 before); [done|].
  call (Ok (old <$> [manifest_name 1]) : Result StoreError (list Listed)) (source_at 2 before); [quiet; directory|].
  call 100%Z (source_at 2 before); [done|].
  call true (source_at 2 before); [done|].
  call (Ok (Some 1%N) : Result SlateError (option N)) (source_at 2 before); [quiet; split; [apply before_latest|done]|].
  call (Ok (Some 2%N) : Result SlateError (option N)) (source_at 2 before); [quiet; by apply compacting_latest|].
  call 100%Z (source_at 2 before); [done|].
  call (Ok (object "mm") : Result StoreError GetResult) (source_at 2 before);
    [quiet; intros b [= <-]; right; exists 2%N, 2%N; split; [done|split; [by apply history_lookup|done]]|].
  apply int_gap.
  answer (Ok () : Result StoreError ()) (source_at 3 resurrected); [done|done|].
  answer 100%Z (source_at 3 resurrected); [done|done|].
  answer (Ok ((λ id, {| li_name := manifest_name id; li_modified := 100 |}) <$> [2%N; 3%N]) : Result StoreError (list Listed))
    (source_at 3 resurrected); [quiet; directory|done|].
  answer (Ok [] : Result StoreError (list Listed)) (source_at 3 resurrected); [quiet; directory|done|].
  answer (Ok [] : Result StoreError (list Listed)) (source_at 3 resurrected); [quiet; directory|done|].
  answer (Ok (Some 3%N) : Result SlateError (option N)) (source_at 3 resurrected); [quiet; by apply compacting_latest|done|].
  answer (Ok [] : Result SlateError (list Checkpoint)) (source_at 3 resurrected); [done|done|].
  answer (Ok (Some 2%N) : Result SlateError (option N)) (source_at 3 resurrected); [quiet; by vm_compute|done|].
  answer (Ok (Some 3%N) : Result SlateError (option N)) (source_at 3 resurrected); [quiet; by vm_compute|done|].
  answer true (source_at 3 resurrected); [done|done|].
  constructor.
Qed.

(** Two tasks with retention, from a complete mirror, can leave the target
    with a restore point whose data object is gone: the newest manifest is
    complete, the one before it is not, and a prune that follows keeps it,
    since it is young. *)
Theorem overlapping_retention_breaks_point :
  ∃ w s, Inv w ∧ rtc step (w, [run_mirror 1 keeping; run_mirror 1 keeping]) s ∧
    s.2 = [Ret (Ok ()); Ret (Ok ())] ∧ dest_latest s.1 3 ∧ at_dest s.1 (manifest_rel 2) ∧ ¬ mirrored s.1.
Proof.
  exists (source_at 2 before), (source_at 3 resurrected, [Ret (Ok ()); Ret (Ok ())]). split_and!.
  - exact before_inv.
  - eapply interrupted_steps; [exact first_run|]. intros x. simpl.
    eapply rtc_l; [apply (step_source _ (source_at 3 before)), compacting_moves; lia|].
    apply (executes_steps_at any 1 _ [x; run_mirror 1 keeping] _ _ _ second_run eq_refl).
  - done.
  - split; [by vm_compute|]. split; [by vm_compute; eexists|]. intros id Hid.
    unfold resurrected, pruned_3, source_at. cbn [w_dest fst].
    rewrite lookup_insert_is_Some', lookup_singleton_is_Some.
    intros [H|H]; apply manifest_rel_inj in H; try done; lia.
  - by vm_compute; eexists.
  - intros [Hm _]. destruct (Hm 2%N) as (m & [-> _]%history_lookup & Hr); [by vm_compute|by vm_compute; eexists|].
    destruct Hr as [_ Hr].
    destruct (Hr (compacted_rel ulid)) as (b & Hb & _); [vm_compute; by left|]. by vm_compute in Hb.
Qed.
